(* ===== verification/_CoqProject ===== *)
-Q . S2P
Prelude.v
Bytes.v
F64.v
Errors.v
Circuit.v
BoltValue.v
PackStream.v
BoltStream.v
BoltMessages.v
PgMessages.v
PgWire.v
PgStream.v
Failover.v
Calendar.v
Resp.v
RespStream.v
Cache.v
Pool.v
Ast.v
ArenaShape.v
Optimizer.v
OptTree.v
OptSem.v
Pushdown.v
Prune.v
Text.v
Label.v
LabelText.v
Emit.v
EmitRel.v
Cypher.v
CypherSafe.v
Gql.v
GqlSafe.v
Age.v
Pgq.v
PgqSafe.v
EmitParams.v
Dialects.v
Json.v
PgParams.v
PgParamsSafe.v
PgRows.v
PgRowsSafe.v
Uri.v
UriSafe.v
PgAuth.v
PgAuthSafe.v
Engine.v
PgConnection.v
PgConnectionSafe.v
PgHandshake.v
Levenshtein.v
BTree.v
Falkor.v
FalkorSafe.v
RedisClient.v
RedisClientSafe.v
BoltClient.v
BoltClientSafe.v
Transaction.v
Schema.v
SchemaSafe.v
Ddl.v
DdlSafe.v
Topology.v
TopologySafe.v
Conformance.v
ConformanceSafe.v
Builder.v
BuilderSafe.v
BuilderArena.v
Queries.v
Bulk.v
QueryText.v
TopologyText.v
TopologyTextSafe.v
FullText.v
TopologyParity.v
Client.v
