(* ===== verification/Prelude.v ===== *)
(** * Verification of Voyager OGM

    Voyager is an object-graph mapper.  A caller describes a query with a builder; the
    query is an arena of nodes; an optimizer rewrites the arena; an emitter of the
    target's dialect compiles it to a statement with parameters; a cache keeps compiled
    statements; a pool lends connections to a server; a circuit breaker decides whether
    a server may be called; a codec (PackStream over Bolt, RESP over Redis, the
    PostgreSQL protocol) turns requests and values into bytes and back.  This library is a shallow
    embedding of these parts: pure code is Gallina functions, code that mutates passes
    its state, code that fails returns [result], code that runs concurrently is a step
    relation.

    ** The files, and the code they model

    Shared:
    - [Prelude]: [result], its monad, association lists, tactics.
    - [Bytes]: integer casts, big-endian buffers, decimal texts, UTF-8.
    - [F64]: binary64 by its bit pattern.
    - [Text]: characters of strings and their Unicode classes.

    [voyager-core], queries:
    - [Ast] ([ast.rs], [visitor.rs]): the nodes, the arena and its handles; [ArenaShape]
      says which handles a node holds, and what an acyclic, complete or ordered arena is.
    - [Label] ([ast.rs], [emitters/mod.rs]): label expressions, their parser and their
      texts in the dialects; [LabelText] relates texts and parser.
    - [Builder] ([builder.rs]): every method of [QueryBuilder] and of the builders of
      expressions and projections, in a state monad over the builder's fields;
      [BuilderSafe] and [BuilderArena] prove what arenas come out.
    - [Optimizer] ([optimizer.rs]): constant folding, predicate pushdown, dead variable
      pruning and the driver, over the arena; [OptTree] and [OptSem] (folding), [Pushdown]
      and [Prune] prove what the passes keep and what they may change.
    - [Emit] ([visitor.rs] and what the emitters share), [Cypher] ([emitters/cypher.rs]),
      [Gql] ([emitters/iso_gql.rs]), [Age] ([emitters/age.rs]), [Pgq]
      ([emitters/sql_pgq.rs]): the emitters, in a state monad over counter, parameters
      and buffer.  [EmitRel], [EmitParams], [CypherSafe], [GqlSafe] and [PgqSafe] are a
      relational walk through them, [Dialects] the interface [Compiler] that the four
      dialects implement, [Queries] the composition with the builder, [Bulk] ([bulk.rs])
      the statements for rows of data.
    - [FullText] ([schema.rs], [builder.rs]): full-text searches and their queries.
    - [Topology], [TopologySafe] ([topology.rs]): the nodes and edges of a query;
      [QueryText], [TopologyText] and [TopologyTextSafe]: the parser that takes them from
      a query's text; [TopologyParity]: the two agree.
    - [Schema], [SchemaSafe] ([schema.rs]): descriptors and registry; [Levenshtein]:
      suggestions; [Conformance], [ConformanceSafe]: a topology against a schema; [Ddl],
      [DdlSafe]: the statements that create and drop a schema; [BTree]: ordered maps.
    - [Transaction] ([transaction.rs]): units of work, savepoints and rollback.

    [voyager-core] and [voyager-net], running queries:
    - [Errors] ([error.rs], [circuit.rs]): error types, codes and classification.
    - [Cache] ([cache.rs]): the compiled query cache.
    - [Circuit] ([circuit.rs]): the breaker of an endpoint, and the router.
    - [Pool] ([pool.rs]): the pool and its tasks as a transition system.
    - [BoltValue], [PackStream], [Calendar] ([bolt/packstream.rs]): values, codec, dates
      and ISO texts; [BoltStream] ([bolt/stream.rs]): chunk framing; [BoltMessages]
      ([bolt/messages.rs]): requests and responses; [Failover]: decoder errors as the
      breaker sees them.
    - [Resp] ([redis/resp.rs]): RESP values, parser and serializer; [RespStream]
      ([redis/codec.rs], [redis/connection.rs]): replies over a socket.
    - [PgMessages], [PgWire], [PgStream] ([postgres/message.rs], [stream.rs]): messages,
      their round trip, and reading them from a socket; [Json], [PgParams], [PgRows]
      ([params.rs], [agtype.rs]): values in and rows out; [PgAuth] ([auth.rs]): MD5 and
      SCRAM, and in [PgAuthSafe] PostgreSQL's side of it; [PgConnection], [PgHandshake] ([connection.rs], [transaction.rs]): a session.
    - [BoltClient] ([bolt/connection.rs]), [RedisClient] ([redis/connection.rs],
      [redis/transaction.rs]), [Falkor] ([redis/graph.rs]): sessions of the other two.
    - [Uri] ([uri.rs], [config.rs]): addresses and options; [Engine] ([engine.rs]):
      results; [Client] ([client.rs], [engine.rs]): the interface of a connection, as a
      class with the three drivers as instances, and the connection an address names.
      A file whose name ends in [Safe] holds the theorems of the one without.

    ** What the theorems show

    - Round trips and refinements of the codecs: decoding what was encoded gives the
      value and leaves the rest of the input ([PackStream.decode_encode], [Resp]); frames,
      messages and replies come through whatever way the socket cuts the bytes
      ([BoltStream], [BoltMessages], [RespStream]); depth and length claims are bounded.
    - The optimizer: folding on the arena is folding on trees, and keeps the value of
      an expression that has one (subqueries and the CASE of [case_fold_wrong] apart);
      pushdown keeps the rows of a query, and gives a pattern only conjuncts about its
      own variable; pruning keeps the variables that the clauses read, and not all that
      are needed ([prune_drops_joins]).
    - The compilers: no value of a query gets into a statement's text, in any dialect;
      the parameters are the placeholders; compilation ends on every acyclic arena; what
      the builder makes is such an arena, so every built query compiles; a chain of
      patterns is written as it was called for.
    - The stateful parts: the cache refines an LRU map, the router a breaker automaton
      (one probe at a time apart), a transaction a stack of whole copies, but for the
      nodes that were changed in place; the registry a set of maps, and every
      reachable state of the pool keeps its counters, permits and idle connections
      consistent.
    - The clients: answers stay paired with the queries they are for, over any way the
      socket cuts them ([PgConnectionSafe], [BoltClientSafe]); a Bolt operation returns
      unless it has no timer and the server stays silent; parameters are read back as
      they were written; a SCRAM handshake with a password that needs no normalization
      succeeds and proves both sides; no connection is made in plain text when TLS was asked for.
    - Topologies and schemas: a topology's edges join its nodes, from an arena or from a
      text; on chains of patterns the text's topology is the arena's, up to the label
      expression of repeated nodes; validation accepts exactly what conforms; a drop
      undoes its create in every dialect, when only vector indexes are named.
    - Where the code does less than it means to, a lemma shows it at a concrete input
      and the manifest lists it as a finding.

    ** Bounds and fuel

    A recursion that is not structural takes fuel and ends in [OutOfFuel] ([Endless] in the
    scanners, [None] in the walks), which is no result of the program; each such function has a theorem that some fuel is enough.
    The PackStream decoder descends 64 levels, the code's own limit; the read loops take
    the number of bytes on the wire (every chunk consumes two); the label parser the
    number of tokens; the optimizer the depth of the tree it reads; the emitters the
    number of nodes and one, enough whenever the arena has no cycle; the walk of a
    topology the number of nodes and two; the loops of the clients one unit for each byte
    of the socket; the scanners of texts the number of characters and one, of which each
    turn takes one.  Integers are [Z] with their casts and wraps written out at the
    width of the Rust type; the release profile is meant, where sums wrap.

    ** Not modelled

    - Third-party code ([tokio], [bytes], [arrow]) and what depends on the build (crate
      version, operating system) are parameters; so are what Unicode says of characters
      beyond ASCII and the decimal text of a float, with the documented facts as laws.
    - The texts of foreign errors, [Debug] renderings inside errors, and log output.
    - A [HashMap]'s order: an association list with distinct keys, whose order is never
      observed or is quantified over.
    - Python bindings and command line ([voyager-pyo3], [voyager-cli]): conversions of
      Python objects and arguments into the types above, behind an interpreter; what they
      call is modelled.  Test servers, mock drivers and benchmarks are tooling.
    - The Arrow export: the contents of a third-party format.  Where results are built from
      it, its documented checks are laws of a parameter.
    - JSON, SHA-256, MD5, base64 and the cutting of addresses: libraries, parameters with
      their documented laws; so is SASLprep, which the PostgreSQL server does; serialization through [serde] is left out.
    - Locks are sequential: an operation runs on the state its lock guards, and a poisoned
      lock is a flag.  The pool is the part whose tasks interleave.
    - [NativeClient] leases a connection from the pool and passes the call on; the two
      parts are modelled, their composition is not.
    - Constructors that only wrap a variant, capacity hints, and [Display] texts that no
      modelled code reads. *)
From Stdlib Require Export ZArith Lia List Bool.
From Stdlib Require Export Strings.Byte Strings.String.
From stdpp Require Export base tactics numbers list option strings gmap.
Export ListNotations.

(** ** Results

    [Result<T, E>] of the code.  [Ok] and [Err] keep Rust's names. *)
Inductive result (E A : Type) : Type :=
| Ok (a : A)
| Err (e : E).
Arguments Ok {E A} a.
Arguments Err {E A} e.

#[export] Instance result_ret {E} : MRet (result E) := @Ok E.
#[export] Instance result_bind {E} : MBind (result E) :=
  λ A B f r, match r with Ok a => f a | Err e => Err e end.
#[export] Instance result_fmap {E} : FMap (result E) :=
  λ A B f r, match r with Ok a => Ok (f a) | Err e => Err e end.

(** [Option::ok_or]. *)
Definition ok_or {E A} (o : option A) (e : E) : result E A :=
  match o with Some a => Ok a | None => Err e end.

(** [Result::ok]. *)
Definition result_ok {E A} (r : result E A) : option A :=
  match r with Ok a => Some a | Err _ => None end.

#[export] Instance result_eq_dec {E A} `{EqDecision E, EqDecision A} :
  EqDecision (result E A).
Proof. solve_decision. Defined.

Section result_lemmas.
Context {E A B : Type}.
Implicit Types (r : result E A) (f : A → result E B).

Lemma bind_Ok_inv r f b :
  r ≫= f = Ok b → ∃ a, r = Ok a ∧ f a = Ok b.
Proof. destruct r; simpl; [eauto | done]. Qed.

Lemma bind_Ok (a : A) f : (Ok a : result E A) ≫= f = f a.
Proof. done. Qed.

Lemma ok_or_Ok (o : option A) (e : E) a : ok_or o e = Ok a ↔ o = Some a.
Proof. destruct o; simpl; naive_solver. Qed.
End result_lemmas.

(** Inversion of a successful monadic computation found in a hypothesis. *)
Ltac result_inv :=
  repeat match goal with
  | H : (mbind _ _ : result _ _) = Ok _ |- _ =>
      let a := fresh "a" in let E := fresh "E" in
      apply bind_Ok_inv in H as (a & E & H)
  | H : Ok _ = Ok _ |- _ => injection H as H; try subst
  | H : Err _ = Ok _ |- _ => discriminate H
  | H : Ok _ = Err _ |- _ => discriminate H
  end.

(** Case analysis on the scrutinee of a [match] or [if] in the goal, keeping
    the equation; repeated until none is left or the branch closes. *)
Ltac case_all := repeat (case_match; try done).

(** Turns boolean comparisons on [Z] and [nat] into propositions. *)
Ltac bool_to_prop :=
  repeat match goal with
  | H : (_ && _) = true |- _ => apply andb_true_iff in H as [? ?]
  | H : (_ || _) = false |- _ => apply orb_false_iff in H as [? ?]
  | H : negb _ = true |- _ => apply negb_true_iff in H
  | H : negb _ = false |- _ => apply negb_false_iff in H
  | H : (_ <=? _)%Z = true |- _ => apply Z.leb_le in H
  | H : (_ <=? _)%Z = false |- _ => apply Z.leb_gt in H
  | H : (_ <? _)%Z = true |- _ => apply Z.ltb_lt in H
  | H : (_ <? _)%Z = false |- _ => apply Z.ltb_ge in H
  | H : (_ =? _)%Z = true |- _ => apply Z.eqb_eq in H
  | H : (_ =? _)%Z = false |- _ => apply Z.eqb_neq in H
  end.

(** [lia] with the division and modulo equations of its terms. *)
Ltac dlia := Z.to_euclidean_division_equations; lia.

(** ** Lists *)

(** [collect::<Result<Vec<_>, _>>] over a list. *)
Fixpoint result_mapM {E A B} (f : A → result E B) (l : list A) : result E (list B) :=
  match l with
  | [] => Ok []
  | x :: l => y ← f x; ys ← result_mapM f l; Ok (y :: ys)
  end.

(** Nesting: one more than the largest [h] of the elements, zero for none. *)
Definition sup {A} (h : A → nat) (l : list A) : nat := foldr (λ x m, Nat.max (S (h x)) m) 0%nat l.

Lemma sup_map {A B} (h : B → nat) (f : A → B) l : sup h (map f l) = sup (λ x, h (f x)) l.
Proof. induction l as [|x l IH]; simpl; [done|]. by rewrite IH. Qed.

Lemma sup_ext {A} (h h' : A → nat) l : (∀ x, h x = h' x) → sup h l = sup h' l.
Proof. intros E. induction l as [|x l IH]; simpl; [done|]. by rewrite IH, E. Qed.

Lemma sup_In {A} (h : A → nat) l x : In x l → (S (h x) <= sup h l)%nat.
Proof. induction l as [|y l IH]; simpl; [done|]. intros [->|Hin]; [lia|]. specialize (IH Hin). lia. Qed.

Lemma sup_app {A} (h : A → nat) l k : sup h (l ++ k) = Nat.max (sup h l) (sup h k).
Proof. induction l as [|x l IH]; simpl; [done|]. rewrite IH. lia. Qed.

Lemma sup_le {A} (h : A → nat) l n : (∀ x, In x l → (h x < n)%nat) → (sup h l <= n)%nat.
Proof.
  induction l as [|x l IH]; simpl; intros H; [lia|].
  pose proof (H x (or_introl eq_refl)) as Hx.
  assert (sup h l <= n)%nat by (apply IH; intros y Hy; apply H; by right). lia.
Qed.

(** A property of every element, as a conjunction that computes. *)
Definition All {A} (P : A → Prop) (l : list A) : Prop := foldr (λ x Q, P x ∧ Q) True l.

Lemma All_In {A} (P : A → Prop) l x : All P l → In x l → P x.
Proof. induction l as [|y l IH]; simpl; [done|]. intros [??] [->|?]; auto. Qed.

Lemma All_map {A B} (P : B → Prop) (f : A → B) l : All P (map f l) ↔ All (λ x, P (f x)) l.
Proof. induction l as [|x l IH]; simpl; [done|]. by rewrite IH. Qed.

Lemma All_impl {A} (P Q : A → Prop) l : (∀ x, P x → Q x) → All P l → All Q l.
Proof. intros H. induction l as [|x l IH]; simpl; [done|]. intros [??]; auto. Qed.

Lemma All_cons {A} (P : A → Prop) x l : All P (x :: l) ↔ P x ∧ All P l.
Proof. done. Qed.

Lemma All_nil {A} (P : A → Prop) : All P [] ↔ True.
Proof. done. Qed.

Lemma flat_map_ext_In {A B} (f g : A → list B) l :
  (∀ x, In x l → f x = g x) → flat_map f l = flat_map g l.
Proof.
  induction l as [|x l IH]; simpl; [done|]. intros H.
  rewrite IH by auto. by rewrite H by auto.
Qed.

(** [HashMap] values are lists of entries in iteration order, keys without
    duplicates.  [assoc_insert] replaces the value of a present key. *)
Fixpoint assoc_insert {K V} `{EqDecision K} (k : K) (v : V) (m : list (K * V)) :
    list (K * V) :=
  match m with
  | [] => [(k, v)]
  | (k', v') :: m =>
      if decide (k = k') then (k', v) :: m else (k', v') :: assoc_insert k v m
  end.

Fixpoint assoc_get {K V} `{EqDecision K} (k : K) (m : list (K * V)) : option V :=
  match m with
  | [] => None
  | (k', v) :: m => if decide (k = k') then Some v else assoc_get k m
  end.

Definition assoc_of_list {K V} `{EqDecision K} (l : list (K * V)) : list (K * V) :=
  foldl (λ m kv, assoc_insert kv.1 kv.2 m) [] l.

Section assoc.
Context {K V : Type} `{EqDecision K}.
Implicit Types (m : list (K * V)) (k : K) (v : V).

Lemma assoc_insert_fresh k v m :
  k ∉ m.*1 → assoc_insert k v m = m ++ [(k, v)].
Proof.
  induction m as [|[k' v'] m IH]; csimpl; [done|].
  intros [Hne Hin]%not_elem_of_cons.
  rewrite decide_False by done. by rewrite IH.
Qed.

Lemma assoc_get_insert_eq k v m : assoc_get k (assoc_insert k v m) = Some v.
Proof.
  induction m as [|[k' v'] m IH]; simpl; [by rewrite decide_True|].
  case_decide; simpl; [by rewrite decide_True | by rewrite decide_False].
Qed.

Lemma assoc_get_insert_ne k k' v m :
  k ≠ k' → assoc_get k (assoc_insert k' v m) = assoc_get k m.
Proof.
  intros Hne. induction m as [|[k2 v2] m IH]; simpl; [by rewrite decide_False|].
  case_decide as H1; simpl; repeat case_decide; congruence.
Qed.

Lemma assoc_insert_keys k v m :
  ∀ k', k' ∈ (assoc_insert k v m).*1 ↔ k' = k ∨ k' ∈ m.*1.
Proof.
  induction m as [|[k2 v2] m IH]; intros k'; csimpl; [set_solver|].
  case_decide; csimpl; [set_solver|]. rewrite !elem_of_cons, IH. tauto.
Qed.

Lemma assoc_insert_NoDup k v m :
  NoDup m.*1 → NoDup (assoc_insert k v m).*1.
Proof.
  induction m as [|[k2 v2] m IH]; csimpl; [intros; constructor; [set_solver|constructor]|].
  intros [Hn Hd]%NoDup_cons. case_decide; csimpl; apply NoDup_cons; [done|].
  split; [|by apply IH]. rewrite assoc_insert_keys. naive_solver.
Qed.

(** Re-inserting the entries of a duplicate-free list rebuilds the list. *)
Lemma assoc_of_list_app_NoDup m1 m2 :
  NoDup (m1 ++ m2).*1 →
  foldl (λ m kv, assoc_insert kv.1 kv.2 m) m1 m2 = m1 ++ m2.
Proof.
  revert m1. induction m2 as [|[k v] m2 IH]; intros m1 Hnd; simpl.
  { by rewrite app_nil_r. }
  assert (k ∉ m1.*1) as Hk.
  { rewrite fmap_app in Hnd. csimpl in Hnd. apply NoDup_app in Hnd as (_ & Hd & _).
    intros Hin. apply (Hd k Hin). set_solver. }
  rewrite assoc_insert_fresh by done. rewrite IH; rewrite <- app_assoc; done.
Qed.

Lemma assoc_of_list_NoDup m : NoDup m.*1 → assoc_of_list m = m.
Proof. intros ?. by apply (assoc_of_list_app_NoDup []). Qed.
End assoc.

Create Rewrite HintDb voyager.
#[export] Hint Rewrite @length_app @length_take @length_drop : voyager.
