(* ===== verification/Bytes.v ===== *)
(** * Bytes, machine integers, decimal text and UTF-8

    The primitives of Rust's standard library and of the [bytes] buffers that
    the wire codecs use: [as] casts at a width, big-endian [put_*]/[get_*],
    [Display] and [FromStr] of integers, and [str::from_utf8].  A byte is
    [Byte.byte]; an integer is a [Z] whose range is its type's. *)
From S2P Require Import Prelude.

Open Scope Z_scope.

(** ** Widths *)

Definition U8_MAX : Z := 255.
Definition U16_MAX : Z := 65535.
Definition U32_MAX : Z := 4294967295.
Definition U64_MAX : Z := 18446744073709551615.
Definition I8_MIN : Z := -128.
Definition I8_MAX : Z := 127.
Definition I16_MIN : Z := -32768.
Definition I16_MAX : Z := 32767.
Definition I32_MIN : Z := -2147483648.
Definition I32_MAX : Z := 2147483647.
Definition I64_MIN : Z := -9223372036854775808.
Definition I64_MAX : Z := 9223372036854775807.

(** [x as uW]: the low [w] bits. *)
Definition as_unsigned (w z : Z) : Z := z mod 2 ^ w.

(** [x as iW]: two's complement at [w] bits. *)
Definition as_signed (w z : Z) : Z :=
  let u := z mod 2 ^ w in if u <? 2 ^ (w - 1) then u else u - 2 ^ w.

Definition in_i64 (z : Z) : bool := (I64_MIN <=? z) && (z <=? I64_MAX).
Definition in_u64 (z : Z) : bool := (0 <=? z) && (z <=? U64_MAX).

Lemma as_signed_id w z :
  0 < w → - 2 ^ (w - 1) <= z < 2 ^ (w - 1) → as_signed w z = z.
Proof.
  intros Hw Hz. unfold as_signed.
  assert (2 ^ w = 2 * 2 ^ (w - 1)) as E.
  { rewrite <- Z.pow_succ_r by lia. f_equal; lia. }
  destruct (decide (0 <= z)).
  - rewrite Z.mod_small by lia. destruct (Z.ltb_spec z (2 ^ (w - 1))); lia.
  - assert (z mod 2 ^ w = z + 2 ^ w) as ->.
    { rewrite <- (Z.mod_small (z + 2 ^ w) (2 ^ w)) by lia.
      rewrite <- (Z.mul_1_l (2 ^ w)) at 2. by rewrite Z_mod_plus_full. }
    destruct (Z.ltb_spec (z + 2 ^ w) (2 ^ (w - 1))); lia.
Qed.

Lemma as_signed_range w z : 0 < w → - 2 ^ (w - 1) <= as_signed w z < 2 ^ (w - 1).
Proof.
  intros Hw. unfold as_signed. assert (2 ^ w = 2 * 2 ^ (w - 1)) as E.
  { rewrite <- Z.pow_succ_r by lia. f_equal; lia. }
  assert (0 <= z mod 2 ^ w < 2 ^ w) by (apply Z.mod_pos_bound; lia).
  destruct (Z.ltb_spec (z mod 2 ^ w) (2 ^ (w - 1))); lia.
Qed.

Lemma as_signed_mod w z : as_signed w (z mod 2 ^ w) = as_signed w z.
Proof. unfold as_signed. by rewrite Zmod_mod. Qed.

(** ** Bytes *)

Definition u8 (b : byte) : Z := Z.of_N (Byte.to_N b).

Definition to_u8 (z : Z) : byte :=
  match Byte.of_N (Z.to_N (z mod 256)) with Some b => b | None => x00 end.

#[export] Instance byte_eq_dec : EqDecision byte := Byte.byte_eq_dec.

Lemma u8_range b : 0 <= u8 b <= 255.
Proof. unfold u8. pose proof (Byte.to_N_bounded b). lia. Qed.

Lemma u8_to_u8 z : u8 (to_u8 z) = z mod 256.
Proof.
  unfold u8, to_u8. pose proof (Z.mod_pos_bound z 256).
  destruct (Byte.of_N _) as [b|] eqn:E.
  - apply Byte.to_of_N in E. rewrite E. lia.
  - apply Byte.of_N_None_iff in E. lia.
Qed.

Lemma u8_to_u8_small z : 0 <= z <= 255 → u8 (to_u8 z) = z.
Proof. intros. rewrite u8_to_u8. apply Z.mod_small. lia. Qed.

Lemma to_u8_u8 b : to_u8 (u8 b) = b.
Proof.
  unfold to_u8, u8. pose proof (Byte.to_N_bounded b).
  rewrite Z.mod_small, N2Z.id by lia. by rewrite Byte.of_to_N.
Qed.

Lemma u8_inj b c : u8 b = u8 c → b = c.
Proof. intros H. by rewrite <- (to_u8_u8 b), H, to_u8_u8. Qed.

(** ** Big-endian integers: [BufMut::put_uN] and [Buf::get_uN] *)

(** Length of a byte buffer as a [usize]. *)
Definition blen {A} (l : list A) : Z := Z.of_nat (length l).

Lemma blen_nonneg {A} (l : list A) : 0 <= blen l.
Proof. unfold blen. lia. Qed.

Lemma blen_app {A} (l r : list A) : blen (l ++ r) = blen l + blen r.
Proof. unfold blen. rewrite length_app. lia. Qed.

Lemma blen_map {A B} (f : A → B) l : blen (map f l) = blen l.
Proof. unfold blen. by rewrite length_map. Qed.

Lemma take_drop_blen {A} (l r : list A) :
  take (Z.to_nat (blen l)) (l ++ r) = l ∧ drop (Z.to_nat (blen l)) (l ++ r) = r.
Proof. unfold blen. rewrite Nat2Z.id. by rewrite take_app_length, drop_app_length. Qed.

Lemma sup_nonempty {A} (h : A → nat) l : 1 <= blen l → (0 < sup h l)%nat.
Proof. destruct l; simpl; [done | lia]. Qed.

Fixpoint put_be (n : nat) (z : Z) : list byte :=
  match n with O => [] | S n => put_be n (z / 256) ++ [to_u8 z] end.

Definition get_be (l : list byte) : Z := foldl (λ acc b, acc * 256 + u8 b) 0 l.

Lemma put_be_length n z : length (put_be n z) = n.
Proof. revert z. induction n; intros; simpl; [done|]. rewrite length_app, IHn. simpl. lia. Qed.

Lemma get_be_snoc l b : get_be (l ++ [b]) = get_be l * 256 + u8 b.
Proof. unfold get_be. by rewrite foldl_app. Qed.

Lemma get_be_put_be n z : get_be (put_be n z) = z mod 2 ^ (8 * Z.of_nat n).
Proof.
  revert z. induction n as [|n IH]; intros z; simpl put_be.
  { cbn. by rewrite Z.mod_1_r. }
  rewrite get_be_snoc, IH, u8_to_u8.
  replace (8 * Z.of_nat (S n)) with (8 + 8 * Z.of_nat n) by lia.
  rewrite Z.pow_add_r by lia. change (2 ^ 8) with 256.
  rewrite Z.rem_mul_r by lia. lia.
Qed.

Lemma get_be_range l : 0 <= get_be l < 2 ^ (8 * blen l).
Proof.
  unfold blen. induction l as [|b l IH] using rev_ind; [cbn; lia|].
  rewrite get_be_snoc, length_app. simpl length. pose proof (u8_range b).
  replace (8 * Z.of_nat (length l + 1)) with (8 + 8 * Z.of_nat (length l)) by lia.
  rewrite Z.pow_add_r by lia. change (2 ^ 8) with 256. lia.
Qed.

Lemma put_be_get_be l : put_be (length l) (get_be l) = l.
Proof.
  induction l as [|b l IH] using rev_ind; [done|].
  rewrite length_app, Nat.add_comm, get_be_snoc. simpl put_be.
  pose proof (u8_range b).
  rewrite Z.add_comm, Z.div_add, Z.div_small by lia. rewrite Z.add_0_l, IH.
  f_equal. f_equal. rewrite <- (to_u8_u8 b) at 2. unfold to_u8.
  by rewrite Z_mod_plus_full.
Qed.

(** [buf.split_to(n)] on a buffer that holds at least [n] bytes; [None] where
    the buffer is shorter (the callers test the length first). *)
Definition split_to (n : nat) (buf : list byte) : option (list byte * list byte) :=
  if decide (n <= length buf)%nat then Some (take n buf, drop n buf) else None.

Lemma split_to_app l r : split_to (length l) (l ++ r) = Some (l, r).
Proof.
  unfold split_to. rewrite decide_True by (rewrite length_app; lia).
  by rewrite take_app_length, drop_app_length.
Qed.

Lemma split_to_Some n buf l r :
  split_to n buf = Some (l, r) → buf = l ++ r ∧ length l = n.
Proof.
  unfold split_to. case_decide as H; [|done]. intros [= <- <-].
  by rewrite take_drop, length_take_le.
Qed.

(** ** Rust strings *)

(** [s.as_bytes()] and [String::from_utf8_unchecked]. *)
Definition as_bytes (s : string) : list byte := list_byte_of_string s.
Definition of_bytes (l : list byte) : string := string_of_list_byte l.

Lemma of_bytes_as_bytes s : of_bytes (as_bytes s) = s.
Proof. apply string_of_list_byte_of_string. Qed.
Lemma as_bytes_of_bytes l : as_bytes (of_bytes l) = l.
Proof. apply list_byte_of_string_of_list_byte. Qed.
Lemma as_bytes_inj s t : as_bytes s = as_bytes t → s = t.
Proof. intros H. by rewrite <- (of_bytes_as_bytes s), H, of_bytes_as_bytes. Qed.

Definition byte_in (lo hi : Z) (b : byte) : bool := (lo <=? u8 b) && (u8 b <=? hi).
Definition utf8_cont : byte → bool := byte_in 128 191.

(** [str::from_utf8]'s acceptance: the well-formed byte sequences of the
    Unicode standard (no overlong form, no surrogate, at most U+10FFFF). *)
Fixpoint utf8_valid (l : list byte) : bool :=
  match l with
  | [] => true
  | b0 :: l1 =>
      if u8 b0 <? 128 then utf8_valid l1
      else if byte_in 194 223 b0 then
        match l1 with
        | b1 :: l2 => utf8_cont b1 && utf8_valid l2
        | _ => false
        end
      else if byte_in 224 239 b0 then
        match l1 with
        | b1 :: b2 :: l3 =>
            (if u8 b0 =? 224 then byte_in 160 191 b1
             else if u8 b0 =? 237 then byte_in 128 159 b1
             else utf8_cont b1) && utf8_cont b2 && utf8_valid l3
        | _ => false
        end
      else if byte_in 240 244 b0 then
        match l1 with
        | b1 :: b2 :: b3 :: l4 =>
            (if u8 b0 =? 240 then byte_in 144 191 b1
             else if u8 b0 =? 244 then byte_in 128 143 b1
             else utf8_cont b1) && utf8_cont b2 && utf8_cont b3 && utf8_valid l4
        | _ => false
        end
      else false
  end.

Definition from_utf8 (l : list byte) : option string :=
  if utf8_valid l then Some (of_bytes l) else None.

(** The type invariant of a Rust [String]. *)
Definition str_ok (s : string) : bool := utf8_valid (as_bytes s).

Lemma from_utf8_as_bytes s : str_ok s = true → from_utf8 (as_bytes s) = Some s.
Proof. unfold str_ok, from_utf8. intros ->. by rewrite of_bytes_as_bytes. Qed.

Lemma from_utf8_Some l s : from_utf8 l = Some s → as_bytes s = l ∧ str_ok s = true.
Proof.
  unfold from_utf8, str_ok. destruct (utf8_valid l) eqn:E; [|done].
  intros [= <-]. by rewrite as_bytes_of_bytes.
Qed.

Definition is_ascii (b : byte) : bool := u8 b <? 128.

Lemma utf8_valid_ascii_app l r :
  forallb is_ascii l = true → utf8_valid (l ++ r) = utf8_valid r.
Proof.
  induction l as [|b l IH]; simpl; [done|].
  unfold is_ascii at 1. destruct (u8 b <? 128); simpl; [exact IH | done].
Qed.

Lemma utf8_valid_ascii l : forallb is_ascii l = true → utf8_valid l = true.
Proof. intros H. rewrite <- (app_nil_r l). by rewrite utf8_valid_ascii_app. Qed.

(** ** Decimal text: [Display] and [FromStr] of integers *)

Definition digit (d : Z) : byte := to_u8 (48 + d).

Fixpoint digits_fuel (fuel : nat) (n : Z) : list byte :=
  match fuel with
  | O => []
  | S fuel =>
      if n <? 10 then [digit n] else digits_fuel fuel (n / 10) ++ [digit (n mod 10)]
  end.

(** Digits of a non-negative integer; a number has at most [log2 n + 1] of them. *)
Definition digits (n : Z) : list byte := digits_fuel (S (Z.to_nat (Z.log2 n))) n.

(** [format!("{}", n)]. *)
Definition show_int (n : Z) : list byte :=
  if n <? 0 then x2d :: digits (- n) else digits n.

Definition is_digit : byte → bool := byte_in 48 57.
Definition digit_val (b : byte) : Z := u8 b - 48.

Definition parse_digits (l : list byte) : option Z :=
  match l with
  | [] => None
  | _ =>
      if forallb is_digit l
      then Some (foldl (λ acc b, acc * 10 + digit_val b) 0 l)
      else None
  end.

(** [str::parse::<T>] for an unsigned [T]: an optional [+], then digits, the
    value within [0..=hi]. *)
Definition parse_unsigned (hi : Z) (l : list byte) : option Z :=
  let ds := match l with x2b :: ds => ds | _ => l end in
  n ← parse_digits ds;
  if n <=? hi then Some n else None.

(** [str::parse::<T>] for a signed [T]: an optional sign, then digits. *)
Definition parse_signed (lo hi : Z) (l : list byte) : option Z :=
  match l with
  | x2d :: ds => n ← parse_digits ds; if lo <=? - n then Some (- n) else None
  | x2b :: ds => n ← parse_digits ds; if n <=? hi then Some n else None
  | ds => n ← parse_digits ds; if n <=? hi then Some n else None
  end.

Definition parse_i64 : list byte → option Z := parse_signed I64_MIN I64_MAX.
Definition parse_usize : list byte → option Z := parse_unsigned U64_MAX.

Lemma digit_val_digit d : 0 <= d <= 9 → digit_val (digit d) = d.
Proof. intros. unfold digit_val, digit. rewrite u8_to_u8_small by lia. lia. Qed.

Lemma is_digit_digit d : 0 <= d <= 9 → is_digit (digit d) = true.
Proof.
  intros. unfold is_digit, byte_in, digit. rewrite u8_to_u8_small by lia.
  rewrite andb_true_iff, !Z.leb_le. lia.
Qed.

Lemma digits_fuel_spec fuel n :
  0 <= n < 2 ^ Z.of_nat fuel → (0 < fuel)%nat →
  forallb is_digit (digits_fuel fuel n) = true
  ∧ digits_fuel fuel n ≠ []
  ∧ foldl (λ acc b, acc * 10 + digit_val b) 0 (digits_fuel fuel n) = n.
Proof.
  revert n. induction fuel as [|fuel IH]; intros n Hn Hf; [lia|]. simpl.
  destruct (Z.ltb_spec n 10).
  { simpl. rewrite is_digit_digit, digit_val_digit by lia. done. }
  rewrite Nat2Z.inj_succ, Z.pow_succ_r in Hn by lia.
  destruct fuel as [|fuel]; [cbn in Hn; lia|].
  pose proof (Z.mod_pos_bound n 10) as Hm.
  destruct (IH (n / 10)) as (H1 & H2 & H3); [|lia|].
  { split; [apply Z.div_pos; lia|]. apply Z.div_lt_upper_bound; lia. }
  rewrite forallb_app, foldl_app, H1, H3. simpl.
  rewrite is_digit_digit, digit_val_digit by lia.
  split; [done|]. split; [by intros [? ?]%app_eq_nil|].
  rewrite (Z.div_mod n 10) at 3 by lia. lia.
Qed.

Lemma digits_spec n :
  0 <= n →
  forallb is_digit (digits n) = true ∧ digits n ≠ [] ∧
  foldl (λ acc b, acc * 10 + digit_val b) 0 (digits n) = n.
Proof.
  intros Hn. apply digits_fuel_spec; [|lia].
  rewrite Nat2Z.inj_succ, Z2Nat.id by apply Z.log2_nonneg.
  split; [done|]. destruct (decide (n = 0)) as [->|]; [done|].
  apply Z.log2_spec. lia.
Qed.

Lemma parse_digits_digits n : 0 <= n → parse_digits (digits n) = Some n.
Proof.
  intros Hn. destruct (digits_spec n Hn) as (H1 & H2 & H3).
  unfold parse_digits. rewrite H1, H3. by destruct (digits n).
Qed.

(** A digit string starts with no sign. *)
Lemma digits_head n : 0 <= n → ∃ b l, digits n = b :: l ∧ is_digit b = true.
Proof.
  intros Hn. destruct (digits_spec n Hn) as (H1 & H2 & _).
  destruct (digits n) as [|b l]; [done|]. simpl in H1.
  apply andb_true_iff in H1 as [? _]. eauto.
Qed.

Lemma is_digit_not_sign b : is_digit b = true → b ≠ x2d ∧ b ≠ x2b.
Proof. intros H. split; intros ->; vm_compute in H; discriminate. Qed.

Lemma parse_signed_digits lo hi n :
  0 <= n <= hi → parse_signed lo hi (digits n) = Some n.
Proof.
  intros Hn. destruct (digits_head n) as (b & l & E & Hb); [lia|].
  pose proof (parse_digits_digits n (proj1 Hn)) as Hp.
  destruct (is_digit_not_sign b Hb) as [? ?].
  unfold parse_signed. rewrite E in *.
  destruct b; try done; simpl in *; rewrite Hp; simpl;
    destruct (Z.leb_spec n hi); done || lia.
Qed.

Lemma parse_unsigned_digits hi n :
  0 <= n <= hi → parse_unsigned hi (digits n) = Some n.
Proof.
  intros Hn. destruct (digits_head n) as (b & l & E & Hb); [lia|].
  pose proof (parse_digits_digits n (proj1 Hn)) as Hp.
  destruct (is_digit_not_sign b Hb) as [? ?].
  unfold parse_unsigned. rewrite E in *.
  destruct b; try done; simpl in *; rewrite Hp; simpl;
    destruct (Z.leb_spec n hi); done || lia.
Qed.

Lemma parse_signed_show lo hi n :
  lo <= n <= hi → parse_signed lo hi (show_int n) = Some n.
Proof.
  intros Hn. unfold show_int. destruct (Z.ltb_spec n 0).
  - unfold parse_signed. rewrite parse_digits_digits by lia. simpl.
    rewrite Z.opp_involutive. destruct (Z.leb_spec lo n); done || lia.
  - apply parse_signed_digits. lia.
Qed.

Lemma digits_ascii n : 0 <= n → forallb is_ascii (digits n) = true.
Proof.
  intros Hn. destruct (digits_spec n Hn) as (H & _).
  eapply forallb_forall. intros b Hb.
  eapply forallb_forall in H; [|exact Hb].
  unfold is_digit, byte_in, is_ascii in *. bool_to_prop. apply Z.ltb_lt. lia.
Qed.

Lemma show_int_ascii n : forallb is_ascii (show_int n) = true.
Proof.
  unfold show_int. destruct (Z.ltb_spec n 0); [simpl|]; apply digits_ascii; lia.
Qed.

Lemma show_parse_usize n : 0 <= n <= U64_MAX → parse_usize (show_int n) = Some n.
Proof.
  intros H. unfold show_int. destruct (Z.ltb_spec n 0); [lia|]. by apply parse_unsigned_digits.
Qed.

(** A decimal text is short. *)
Lemma digits_fuel_length fuel n : (length (digits_fuel fuel n) <= fuel)%nat.
Proof.
  revert n. induction fuel as [|fuel IH]; intros n; simpl; [lia|].
  case_match; simpl; [lia|]. rewrite length_app. specialize (IH (n / 10)). simpl. lia.
Qed.

Lemma show_int_length n : - 2 ^ 64 < n < 2 ^ 64 → (length (show_int n) <= 66)%nat.
Proof.
  intros Hn. unfold show_int, digits. destruct (Z.ltb_spec n 0).
  - cbn [length]. pose proof (digits_fuel_length (S (Z.to_nat (Z.log2 (- n)))) (- n)).
    assert (Z.log2 (- n) < 64) by (apply Z.log2_lt_pow2; lia). lia.
  - pose proof (digits_fuel_length (S (Z.to_nat (Z.log2 n))) n).
    destruct (decide (n = 0)) as [->|]; [cbn; lia|].
    assert (Z.log2 n < 64) by (apply Z.log2_lt_pow2; lia). lia.
Qed.
