(* ===== verification/F64.v ===== *)
(** * IEEE-754 binary64: Rust's [f64]

    A value is its 64-bit pattern ([f64::to_bits]), so that the wire codecs
    move it unchanged; arithmetic and comparisons go through the Standard
    Library's executable specification of binary64 ([SpecFloat]). *)
From Stdlib Require Import SpecFloat.
From S2P Require Import Prelude Bytes.

Open Scope Z_scope.

Record f64 : Type := from_bits { to_bits : Z }.

#[export] Instance f64_eq_dec : EqDecision f64.
Proof. solve_decision. Defined.

(** The type invariant: 64 bits. *)
Definition f64_ok (f : f64) : bool := in_u64 (to_bits f).

Definition prec : Z := 53.
Definition emax : Z := 1024.

Definition unpack (f : f64) : spec_float :=
  let b := to_bits f in
  let s := Z.testbit b 63 in
  let e := Z.shiftr b 52 mod 2048 in
  let m := b mod 2 ^ 52 in
  if e =? 2047 then (if m =? 0 then S754_infinity s else S754_nan)
  else if e =? 0 then
    match m with Zpos p => S754_finite s p (-1074) | _ => S754_zero s end
  else
    match m + 2 ^ 52 with Zpos p => S754_finite s p (e - 1075) | _ => S754_nan end.

Definition sign_bit (s : bool) : Z := if s then 2 ^ 63 else 0.

Definition pack (x : spec_float) : f64 :=
  from_bits
    match x with
    | S754_zero s => sign_bit s
    | S754_infinity s => sign_bit s + 2047 * 2 ^ 52
    | S754_nan => 2047 * 2 ^ 52 + 2 ^ 51
    | S754_finite s m e =>
        if Z.pos m <? 2 ^ 52 then sign_bit s + Z.pos m
        else sign_bit s + (e + 1075) * 2 ^ 52 + (Z.pos m - 2 ^ 52)
    end.

(** [i as f64]: rounds to nearest, ties to even. *)
Definition i64_as_f64 (i : Z) : f64 := pack (binary_normalize prec emax i 0 false).

Definition f64_add (a b : f64) : f64 := pack (SFadd prec emax (unpack a) (unpack b)).
Definition f64_sub (a b : f64) : f64 := pack (SFsub prec emax (unpack a) (unpack b)).
Definition f64_mul (a b : f64) : f64 := pack (SFmul prec emax (unpack a) (unpack b)).
Definition f64_div (a b : f64) : f64 := pack (SFdiv prec emax (unpack a) (unpack b)).

(** [-a] flips the sign bit, of a NaN too. *)
Definition f64_neg (a : f64) : f64 := from_bits (Z.lxor (to_bits a) (2 ^ 63)).

(** [a % b]: the exact remainder of the truncated division (C's [fmod]). *)
Definition SFrem (x y : spec_float) : spec_float :=
  match x, y with
  | S754_nan, _ | _, S754_nan => S754_nan
  | S754_infinity _, _ | _, S754_zero _ => S754_nan
  | _, S754_infinity _ | S754_zero _, _ => x
  | S754_finite sx mx ex, S754_finite _ my ey =>
      let ez := Z.min ex ey in
      let r := Z.rem (Z.shiftl (Z.pos mx) (ex - ez)) (Z.shiftl (Z.pos my) (ey - ez)) in
      if r =? 0 then S754_zero sx
      else binary_normalize prec emax (cond_Zopp sx r) ez sx
  end.
Definition f64_rem (a b : f64) : f64 := pack (SFrem (unpack a) (unpack b)).

Definition f64_eqb (a b : f64) : bool := SFeqb (unpack a) (unpack b).
Definition f64_ltb (a b : f64) : bool := SFltb (unpack a) (unpack b).
Definition f64_leb (a b : f64) : bool := SFleb (unpack a) (unpack b).

Definition is_nan (a : f64) : bool :=
  match unpack a with S754_nan => true | _ => false end.
Definition is_infinite (a : f64) : bool :=
  match unpack a with S754_infinity _ => true | _ => false end.
Definition is_finite (a : f64) : bool := negb (is_nan a) && negb (is_infinite a).

Definition INFINITY : f64 := from_bits (2047 * 2 ^ 52).
Definition NEG_INFINITY : f64 := from_bits (2 ^ 63 + 2047 * 2 ^ 52).
Definition NAN : f64 := from_bits (2047 * 2 ^ 52 + 2 ^ 51).
Definition F64_ZERO : f64 := from_bits 0.

Lemma f64_ok_range f : f64_ok f = true → 0 <= to_bits f < 2 ^ 64.
Proof.
  unfold f64_ok, in_u64. intros H. bool_to_prop. unfold U64_MAX in *. lia.
Qed.

(** An executable check of the model against well-known patterns. *)
Example i64_as_f64_one : i64_as_f64 1 = from_bits 0x3FF0000000000000.
Proof. reflexivity. Qed.
Example i64_as_f64_ties_to_even : i64_as_f64 9007199254740993 = i64_as_f64 9007199254740992.
Proof. reflexivity. Qed.
Example f64_add_tenths :
  f64_add (from_bits 0x3FB999999999999A) (from_bits 0x3FC999999999999A)
  = from_bits 0x3FD3333333333334.
Proof. reflexivity. Qed.
Example f64_rem_sevenfive :
  f64_rem (i64_as_f64 (-75)) (i64_as_f64 10) = i64_as_f64 (-5).
Proof. reflexivity. Qed.
Example f64_div_third :
  f64_div (i64_as_f64 1) (i64_as_f64 3) = from_bits 0x3FD5555555555555.
Proof. reflexivity. Qed.

(** The two infinities, told apart by comparison with zero. *)
Lemma infinite_bits f :
  f64_ok f = true → is_infinite f = true →
  f = if f64_ltb F64_ZERO f then INFINITY else NEG_INFINITY.
Proof.
  intros Hok%f64_ok_range. destruct f as [b]. cbn [to_bits] in Hok.
  unfold is_infinite, unpack. cbn [to_bits].
  destruct (Z.eqb_spec (Z.shiftr b 52 mod 2048) 2047) as [He|].
  2:{ repeat case_match; done. }
  destruct (Z.eqb_spec (b mod 2 ^ 52) 0) as [Hm|]; [|done]. intros _.
  rewrite Z.shiftr_div_pow2 in He by lia.
  assert (b = 2047 * 2 ^ 52 ∨ b = 2 ^ 63 + 2047 * 2 ^ 52) as [->| ->] by dlia; reflexivity.
Qed.
