(* ===== verification/Errors.v ===== *)
(** * Errors and their classification

    [voyager-core/src/error.rs] (codes, core errors), [voyager-net/src/error.rs]
    (network errors) and the message classification of
    [voyager-net/src/circuit.rs].  Message texts are kept, because the
    classification searches them; the text of a nested foreign error (a UTF-8
    or parse error, a [Debug] rendering) is left out. *)
From S2P Require Import Prelude Bytes.

Open Scope string_scope.

(** ** Substring search: [str::contains] *)

Fixpoint str_contains (hay needle : string) : bool :=
  String.prefix needle hay
  || match hay with String _ hay => str_contains hay needle | EmptyString => false end.

Lemma str_contains_unfold hay needle :
  str_contains hay needle =
  String.prefix needle hay
  || match hay with String _ hay => str_contains hay needle | EmptyString => false end.
Proof. by destruct hay. Qed.

Lemma prefix_app p s : String.prefix p (p +:+ s) = true.
Proof.
  induction p as [|c p IH]; simpl; [by destruct s|]. by destruct (Ascii.ascii_dec c c).
Qed.

Lemma str_contains_app a p s : str_contains (a +:+ p +:+ s) p = true.
Proof.
  induction a as [|c a IH].
  - change ("" +:+ p +:+ s) with (p +:+ s). by rewrite str_contains_unfold, prefix_app.
  - rewrite str_contains_unfold. change (match String c a +:+ p +:+ s with
      | EmptyString => false | String _ h => str_contains h p end)
      with (str_contains (a +:+ p +:+ s) p).
    rewrite IH. apply orb_true_r.
Qed.

(** ** Lower-casing

    [str::to_lowercase] maps by the Unicode tables, which the model leaves
    abstract beyond ASCII: a [LowerCase] is any function that lower-cases ASCII
    text letter by letter. *)
Definition ascii_lower_byte (b : byte) : byte :=
  if byte_in 65 90 b then to_u8 (u8 b + 32) else b.
Definition to_ascii_lowercase (s : string) : string :=
  of_bytes (map ascii_lower_byte (as_bytes s)).
Definition str_is_ascii (s : string) : bool := forallb is_ascii (as_bytes s).

Class LowerCase := {
  to_lowercase : string → string;
  to_lowercase_ascii s : str_is_ascii s = true → to_lowercase s = to_ascii_lowercase s;
}.

(** The ASCII restriction is one such function. *)
Definition ascii_LowerCase : LowerCase :=
  {| to_lowercase := to_ascii_lowercase; to_lowercase_ascii s _ := eq_refl |}.

(** ** Error codes *)

Inductive ErrorCode : Type :=
| EC_UnsupportedDialect | EC_UnsupportedFeature | EC_UnknownNodeLabel
| EC_UnknownRelationshipType | EC_PropertyTypeMismatch | EC_UndeclaredProperty
| EC_IncompatibleEndpoints | EC_UnsupportedTopologyVersion | EC_InvalidClause
| EC_InvalidSpec | EC_InvalidNodeHandle | EC_MissingField | EC_AstInvariantViolation
| EC_EmissionError | EC_ClaimedSizeExceedsBuffer | EC_MissingCoordinates
| EC_ConnectionFailed | EC_AuthenticationFailed | EC_PoolExhausted | EC_Timeout
| EC_ProtocolError | EC_TlsError | EC_Closed | EC_InvalidUri | EC_ExecutionError
| EC_ArrowError | EC_TransactionError | EC_SchemaError | EC_IoError | EC_InternalError.

#[export] Instance ErrorCode_eq_dec : EqDecision ErrorCode.
Proof. solve_decision. Defined.

(** [ErrorCode::is_semantic] and [ErrorCode::is_transient]. *)
Definition ErrorCode_is_semantic (c : ErrorCode) : bool :=
  match c with
  | EC_UnsupportedDialect | EC_UnsupportedFeature | EC_UnknownNodeLabel
  | EC_UnknownRelationshipType | EC_PropertyTypeMismatch | EC_UndeclaredProperty
  | EC_IncompatibleEndpoints | EC_UnsupportedTopologyVersion | EC_InvalidClause
  | EC_InvalidSpec | EC_InvalidNodeHandle | EC_MissingField
  | EC_AstInvariantViolation | EC_EmissionError | EC_ClaimedSizeExceedsBuffer
  | EC_MissingCoordinates | EC_InvalidUri | EC_SchemaError => true
  | _ => false
  end.
Definition ErrorCode_is_transient (c : ErrorCode) : bool := negb (ErrorCode_is_semantic c).

(** ** Core errors ([voyager_core::Error]) *)

Inductive CoreErr : Type :=
| InvalidNodeHandle (h : Z)
| MissingField (msg : string)
| UnsupportedFeature (dialect feature : string)
| UnsupportedDialect (dialect feature : string)
| AstInvariantViolation (msg : string)
| EmissionError (msg : string)
| CoreArrowError (msg : string)
| CoreTransactionError (msg : string)
| SchemaError (msg : string)
| InvalidSpec (msg : string)
| InvalidClause (msg : string)
| MissingCoordinates (msg : string)
| ClaimedSizeExceedsBuffer (msg : string)
| UnknownNodeLabel (msg : string)
| UnknownRelationshipType (msg : string)
| PropertyTypeMismatch (msg : string)
| CoreIoError.

#[export] Instance CoreErr_eq_dec : EqDecision CoreErr.
Proof. solve_decision. Defined.

Definition CoreErr_code (e : CoreErr) : ErrorCode :=
  match e with
  | InvalidNodeHandle _ => EC_InvalidNodeHandle
  | MissingField _ => EC_MissingField
  | UnsupportedFeature _ _ => EC_UnsupportedFeature
  | UnsupportedDialect _ _ => EC_UnsupportedDialect
  | AstInvariantViolation _ => EC_AstInvariantViolation
  | EmissionError _ => EC_EmissionError
  | CoreArrowError _ => EC_ArrowError
  | CoreTransactionError _ => EC_TransactionError
  | SchemaError _ => EC_SchemaError
  | InvalidSpec _ => EC_InvalidSpec
  | InvalidClause _ => EC_InvalidClause
  | MissingCoordinates _ => EC_MissingCoordinates
  | ClaimedSizeExceedsBuffer _ => EC_ClaimedSizeExceedsBuffer
  | UnknownNodeLabel _ => EC_UnknownNodeLabel
  | UnknownRelationshipType _ => EC_UnknownRelationshipType
  | PropertyTypeMismatch _ => EC_PropertyTypeMismatch
  | CoreIoError => EC_IoError
  end.

(** ** Network errors ([NetError]); the payloads of [IoError] and [ArrowError]
    are foreign types. *)

Inductive NetError : Type :=
| ConnectionFailed (msg : string)
| AuthenticationFailed (msg : string)
| PoolExhausted (msg : string)
| Timeout (msg : string)
| ProtocolError (msg : string)
| TlsError (msg : string)
| Closed (msg : string)
| InvalidUri (msg : string)
| TransactionError (msg : string)
| ExecutionError (msg : string)
| IoError
| CoreError (e : CoreErr)
| ArrowError.

#[export] Instance NetError_eq_dec : EqDecision NetError.
Proof. solve_decision. Defined.

(** ** Semantic patterns ([circuit.rs]) *)

Record SemanticPattern := { pattern : string; sp_code : ErrorCode }.

Definition SEMANTIC_PATTERNS : list SemanticPattern :=
  [ {| pattern := "syntaxerror"; sp_code := EC_InvalidClause |};
    {| pattern := "syntax error"; sp_code := EC_InvalidClause |};
    {| pattern := "semanticerror"; sp_code := EC_InvalidSpec |};
    {| pattern := "constraintvalidationfailed"; sp_code := EC_PropertyTypeMismatch |};
    {| pattern := "parametermissing"; sp_code := EC_MissingField |};
    {| pattern := "typeerror"; sp_code := EC_PropertyTypeMismatch |};
    {| pattern := "entitynotfound"; sp_code := EC_UnknownNodeLabel |};
    {| pattern := "unknown function"; sp_code := EC_UnsupportedFeature |};
    {| pattern := "invalid input"; sp_code := EC_InvalidSpec |};
    {| pattern := "already exists"; sp_code := EC_SchemaError |};
    {| pattern := "does not exist"; sp_code := EC_UnknownNodeLabel |};
    {| pattern := "violates unique constraint"; sp_code := EC_PropertyTypeMismatch |};
    {| pattern := "violates not-null constraint"; sp_code := EC_PropertyTypeMismatch |};
    {| pattern := "violates foreign key constraint"; sp_code := EC_IncompatibleEndpoints |} ].

Inductive ErrorClassification := Semantic | Transient.

#[export] Instance ErrorClassification_eq_dec : EqDecision ErrorClassification.
Proof. solve_decision. Defined.

Definition ErrorClassification_is_transient (c : ErrorClassification) : bool :=
  match c with Transient => true | Semantic => false end.

Section classify.
Context `{LowerCase}.

Definition find_semantic_pattern (error_msg : string) : option SemanticPattern :=
  let lower := to_lowercase error_msg in
  find (λ sp, str_contains lower (pattern sp)) SEMANTIC_PATTERNS.

Definition is_semantic_error (error_msg : string) : bool :=
  match find_semantic_pattern error_msg with Some _ => true | None => false end.

Definition classify_error (error_msg : string) : ErrorClassification :=
  if is_semantic_error error_msg then Semantic else Transient.

(** [NetError::code]. *)
Definition NetError_code (e : NetError) : ErrorCode :=
  match e with
  | ConnectionFailed _ => EC_ConnectionFailed
  | AuthenticationFailed _ => EC_AuthenticationFailed
  | PoolExhausted _ => EC_PoolExhausted
  | Timeout _ => EC_Timeout
  | ProtocolError msg =>
      if str_contains msg "exceeds available buffer" then EC_ClaimedSizeExceedsBuffer
      else match find_semantic_pattern msg with
           | Some sp => sp_code sp
           | None => EC_ProtocolError
           end
  | TlsError _ => EC_TlsError
  | Closed _ => EC_Closed
  | InvalidUri _ => EC_InvalidUri
  | TransactionError _ => EC_TransactionError
  | ExecutionError msg =>
      match find_semantic_pattern msg with
      | Some sp => sp_code sp
      | None => EC_ExecutionError
      end
  | IoError => EC_IoError
  | CoreError e => CoreErr_code e
  | ArrowError => EC_ArrowError
  end.

Definition classify_net_error (e : NetError) : ErrorClassification :=
  if ErrorCode_is_semantic (NetError_code e) then Semantic else Transient.

(** Every listed pattern carries a semantic code. *)
Lemma SEMANTIC_PATTERNS_semantic sp :
  In sp SEMANTIC_PATTERNS → ErrorCode_is_semantic (sp_code sp) = true.
Proof.
  intros Hin. assert (forallb (λ sp, ErrorCode_is_semantic (sp_code sp)) SEMANTIC_PATTERNS
    = true) as Hall by reflexivity.
  eapply forallb_forall in Hall; eauto.
Qed.

Lemma find_semantic_pattern_semantic msg sp :
  find_semantic_pattern msg = Some sp → ErrorCode_is_semantic (sp_code sp) = true.
Proof. intros [Hin _]%find_some. by apply SEMANTIC_PATTERNS_semantic. Qed.
End classify.
