(* ===== verification/Circuit.v ===== *)
(** * Circuit breaker ([voyager-net/src/circuit.rs])

    [CircuitInner] is the state behind the router's mutex; each method of
    [CircuitRouter] is a function of the state and of the instants it reads
    ([Instant::now()], in nanoseconds), returning the new state where the method
    mutates.  The mutex makes every method atomic, so any concurrent execution
    is a sequence of these steps, which [Trace] ranges over. *)
From S2P Require Import Prelude Bytes Errors.

Open Scope Z_scope.

Inductive CircuitState := StClosed | StOpen | StHalfOpen.
Inductive BackendRoute := Native | Fallback | Probe.

#[export] Instance CircuitState_eq_dec : EqDecision CircuitState.
Proof. solve_decision. Defined.
#[export] Instance BackendRoute_eq_dec : EqDecision BackendRoute.
Proof. solve_decision. Defined.

(** [BackendRoute::should_route_native] and [BackendRoute::is_fallback]. *)
Definition BackendRoute_should_route_native (r : BackendRoute) : bool :=
  match r with Native | Probe => true | Fallback => false end.
Definition BackendRoute_is_fallback (r : BackendRoute) : bool :=
  match r with Fallback => true | _ => false end.

(** [Duration]s are in nanoseconds. *)
Record CircuitConfig := mkConfig {
  failure_threshold : Z;
  cooldown_duration : Z;
  success_threshold : Z;
}.

Definition CircuitConfig_default : CircuitConfig := mkConfig 1 (30 * 1000000000) 1.
Definition CircuitConfig_new (failure_threshold cooldown : Z) : CircuitConfig :=
  mkConfig (Z.max failure_threshold 1) cooldown 1.
Definition with_success_threshold (c : CircuitConfig) (threshold : Z) : CircuitConfig :=
  mkConfig (failure_threshold c) (cooldown_duration c) (Z.max threshold 1).

Record CircuitInner := mkInner {
  state : CircuitState;
  consecutive_failures : Z;
  consecutive_successes : Z;
  opened_at : option Z;
  config : CircuitConfig;
}.

Definition CircuitInner_new (c : CircuitConfig) : CircuitInner :=
  mkInner StClosed 0 0 None c.

(** The counters are [u32]: [+= 1] wraps (the release profile sets no
    [overflow-checks]). *)
Definition u32_succ (n : Z) : Z := as_unsigned 32 (n + 1).

(** [now.duration_since(t)] saturates to zero. *)
Definition duration_since (now t : Z) : Z := Z.max 0 (now - t).

Definition check_and_update_state (s : CircuitInner) (now : Z) : CircuitInner :=
  match state s, opened_at s with
  | StOpen, Some t =>
      if cooldown_duration (config s) <=? duration_since now t
      then mkInner StHalfOpen (consecutive_failures s) 0 (opened_at s) (config s)
      else s
  | _, _ => s
  end.

(** [CircuitRouter::state]. *)
Definition get_state (s : CircuitInner) (now : Z) : CircuitState * CircuitInner :=
  let s := check_and_update_state s now in (state s, s).

Definition route (s : CircuitInner) (now : Z) : BackendRoute * CircuitInner :=
  let s := check_and_update_state s now in
  (match state s with StClosed => Native | StOpen => Fallback | StHalfOpen => Probe end, s).

Definition should_probe (s : CircuitInner) (now : Z) : bool * CircuitInner :=
  let s := check_and_update_state s now in
  (bool_decide (state s = StHalfOpen), s).

Definition should_route_native (s : CircuitInner) (now : Z) : bool * CircuitInner :=
  let '(r, s) := route s now in (BackendRoute_should_route_native r, s).

Definition record_success (s : CircuitInner) : CircuitInner :=
  match state s with
  | StClosed => mkInner StClosed 0 (consecutive_successes s) (opened_at s) (config s)
  | StHalfOpen =>
      let n := u32_succ (consecutive_successes s) in
      if success_threshold (config s) <=? n
      then mkInner StClosed 0 0 None (config s)
      else mkInner StHalfOpen (consecutive_failures s) n (opened_at s) (config s)
  | StOpen => s
  end.

(** [record_failure] reads the clock twice: [now] for the cooldown check and
    [now'], not earlier, for the new [opened_at]. *)
Definition record_failure (s : CircuitInner) (is_transient : bool) (now now' : Z) :
    CircuitInner :=
  if negb is_transient then s else
  let s := check_and_update_state s now in
  let n := u32_succ (consecutive_failures s) in
  match state s with
  | StClosed =>
      if failure_threshold (config s) <=? n
      then mkInner StOpen n 0 (Some now') (config s)
      else mkInner StClosed n (consecutive_successes s) (opened_at s) (config s)
  | StHalfOpen => mkInner StOpen n 0 (Some now') (config s)
  | StOpen => mkInner StOpen n (consecutive_successes s) (Some now') (config s)
  end.

Definition record_error `{LowerCase} (s : CircuitInner) (error_msg : string)
    (now now' : Z) : bool * CircuitInner :=
  let is_transient := ErrorClassification_is_transient (classify_error error_msg) in
  (is_transient, record_failure s is_transient now now').

Definition record_net_error `{LowerCase} (s : CircuitInner) (e : NetError)
    (now now' : Z) : bool * CircuitInner :=
  let is_transient := ErrorClassification_is_transient (classify_net_error e) in
  (is_transient, record_failure s is_transient now now').

Definition trip (s : CircuitInner) (now : Z) : CircuitInner :=
  mkInner StOpen (u32_succ (consecutive_failures s)) 0 (Some now) (config s).

Definition reset (s : CircuitInner) : CircuitInner :=
  mkInner StClosed 0 0 None (config s).

Definition remaining_cooldown (s : CircuitInner) (now : Z) : option Z :=
  match state s, opened_at s with
  | StOpen, Some t =>
      let elapsed := duration_since now t in
      if elapsed <? cooldown_duration (config s)
      then Some (cooldown_duration (config s) - elapsed)
      else None
  | _, _ => None
  end.

(** [snapshot]; the durations stay in nanoseconds, where the code divides them
    into floating-point seconds. *)
Record CircuitSnapshot := mkSnapshot {
  snap_state : CircuitState;
  snap_consecutive_failures : Z;
  snap_consecutive_successes : Z;
  snap_failure_threshold : Z;
  snap_cooldown : Z;
  snap_remaining_cooldown : option Z;
}.

Definition snapshot (s : CircuitInner) (now : Z) : CircuitSnapshot :=
  mkSnapshot (state s) (consecutive_failures s) (consecutive_successes s)
    (failure_threshold (config s)) (cooldown_duration (config s))
    (match state s, opened_at s with
     | StOpen, Some t =>
         let elapsed := duration_since now t in
         if elapsed <? cooldown_duration (config s)
         then Some (cooldown_duration (config s) - elapsed) else None
     | _, _ => None
     end).

(** ** Steps

    One step is one locked method call, at an instant not before the previous
    one ([Instant] is monotone); a configuration is the last instant with the
    state. *)
Inductive op :=
| OpQuery      (* [state], [route], [should_probe], [should_route_native] *)
| OpSuccess
| OpFailure (is_transient : bool)
| OpTrip
| OpReset.

Definition run_op (o : op) (now now' : Z) (s : CircuitInner) : CircuitInner :=
  match o with
  | OpQuery => (route s now).2
  | OpSuccess => record_success s
  | OpFailure b => record_failure s b now now'
  | OpTrip => trip s now'
  | OpReset => reset s
  end.

Inductive step : op → Z * CircuitInner → Z * CircuitInner → Prop :=
| step_op o t s now now' :
    t <= now → now <= now' → step o (t, s) (now', run_op o now now' s).

Inductive steps : list op → Z * CircuitInner → Z * CircuitInner → Prop :=
| steps_nil c : steps [] c c
| steps_cons o os c1 c2 c3 : step o c1 c2 → steps os c2 c3 → steps (o :: os) c1 c3.

(** The configuration a router is built with is within its types; [new] and
    [with_success_threshold] give thresholds of at least one. *)
Definition config_ok (c : CircuitConfig) : Prop :=
  1 <= failure_threshold c <= U32_MAX ∧ 1 <= success_threshold c <= U32_MAX
  ∧ 0 <= cooldown_duration c.

(** What holds of every reachable configuration: the counters and the opening
    instant agree with the state. *)
Definition inv (c : CircuitConfig) (cfg : Z * CircuitInner) : Prop :=
  let '(t, s) := cfg in
  config s = c ∧ 0 <= consecutive_failures s <= U32_MAX ∧
  match state s with
  | StClosed => opened_at s = None ∧ consecutive_successes s = 0
                ∧ consecutive_failures s < failure_threshold c
  | StOpen => (∃ t0, opened_at s = Some t0 ∧ t0 <= t) ∧ consecutive_successes s = 0
  | StHalfOpen => (∃ t0, opened_at s = Some t0 ∧ t0 <= t)
                  ∧ 0 <= consecutive_successes s < success_threshold c
  end.

(** ** Abstract breaker

    The contract: a closed breaker counts failures, an open one waits from its
    last failure, a half-open one counts successful probes. *)
Inductive breaker :=
| BClosed (failures : Z)
| BOpen (since : Z)
| BHalf (successes : Z).

Definition b_tick (c : CircuitConfig) (now : Z) (b : breaker) : breaker :=
  match b with
  | BOpen since => if cooldown_duration c <=? now - since then BHalf 0 else b
  | _ => b
  end.

Definition b_op (c : CircuitConfig) (o : op) (now now' : Z) (b : breaker) : breaker :=
  match o with
  | OpQuery => b_tick c now b
  | OpSuccess =>
      match b with
      | BClosed _ => BClosed 0
      | BHalf n => if success_threshold c <=? n + 1 then BClosed 0 else BHalf (n + 1)
      | BOpen _ => b
      end
  | OpFailure false => b
  | OpFailure true =>
      match b_tick c now b with
      | BClosed n => if failure_threshold c <=? n + 1 then BOpen now' else BClosed (n + 1)
      | BHalf _ | BOpen _ => BOpen now'
      end
  | OpTrip => BOpen now'
  | OpReset => BClosed 0
  end.

(** The routes the documentation allows a call that finds the breaker [b] and leaves it [b']:
    the native engine in the closed state, the fallback in the open one, and the probe for the
    call that ends the cooldown.  It promises a single probe in the half-open state; whether
    the next call there is that one depends on what the breaker does not record, so of it only
    that it does not count as native traffic. *)
Definition b_route (b b' : breaker) (r : BackendRoute) : Prop :=
  match b', b with
  | BClosed _, _ => r = Native
  | BOpen _, _ => r = Fallback
  | BHalf _, BHalf _ => r ≠ Native
  | BHalf _, _ => r = Probe
  end.

(** The abstraction function: the state without its redundant fields. *)
Definition absb (s : CircuitInner) : breaker :=
  match state s with
  | StClosed => BClosed (consecutive_failures s)
  | StOpen => BOpen (default 0 (opened_at s))
  | StHalfOpen => BHalf (consecutive_successes s)
  end.

(** ** Lemmas *)

Lemma u32_succ_range n : 0 <= u32_succ n <= U32_MAX.
Proof.
  unfold u32_succ, as_unsigned, U32_MAX. pose proof (Z.mod_pos_bound (n + 1) (2 ^ 32)). lia.
Qed.

Lemma u32_succ_small n : 0 <= n < U32_MAX → u32_succ n = n + 1.
Proof. unfold u32_succ, as_unsigned, U32_MAX. intros. apply Z.mod_small. lia. Qed.

Lemma duration_since_le now t : t <= now → duration_since now t = now - t.
Proof. unfold duration_since. lia. Qed.

Lemma inv_new c t : config_ok c → inv c (t, CircuitInner_new c).
Proof. intros (? & ? & ?). unfold U32_MAX in *. repeat split; simpl; unfold U32_MAX; lia. Qed.

(** Opens the invariant of a state in constructor form, and closes one. *)
Ltac inv_open H :=
  simpl in H;
  first [ destruct H as (-> & ? & -> & -> & ?)
        | destruct H as (-> & ? & (? & -> & ?) & ->)
        | destruct H as (-> & ? & (? & -> & ?) & ?) ].
Ltac inv_close :=
  simpl; repeat split; try done; try lia; try (eexists; split; [done | lia]).

Lemma inv_mono c t t' s : inv c (t, s) → t <= t' → inv c (t', s).
Proof.
  intros H ?. destruct s as [st cf cs oa cfg], st; inv_open H; inv_close.
Qed.

Lemma check_and_update_inv c t s now :
  inv c (t, s) → t <= now → config_ok c → inv c (now, check_and_update_state s now).
Proof.
  intros H Ht (_ & ? & _). unfold check_and_update_state.
  destruct s as [st cf cs oa cfg], st; inv_open H; simpl; try case_match; inv_close.
Qed.

Lemma check_and_update_abs c t s now :
  inv c (t, s) → t <= now →
  absb (check_and_update_state s now) = b_tick c now (absb s).
Proof.
  intros H Ht. unfold check_and_update_state, absb.
  destruct s as [st cf cs oa cfg], st; inv_open H; simpl; [done| |done].
  rewrite duration_since_le by lia. by destruct (_ <=? _).
Qed.

(** Each method preserves the invariant and performs the abstract operation. *)
Lemma run_op_correct c o t s now now' :
  config_ok c → inv c (t, s) → t <= now → now <= now' →
  inv c (now', run_op o now now' s) ∧
  absb (run_op o now now' s) = b_op c o now now' (absb s).
Proof.
  intros Hok Hinv Ht Ht'.
  pose proof (check_and_update_inv c t s now Hinv Ht Hok) as Hinv'.
  pose proof (check_and_update_abs c t s now Hinv Ht) as Habs.
  pose proof (inv_mono c t now' s Hinv ltac:(lia)) as Hinv2.
  destruct o as [| |b| |]; simpl run_op; simpl b_op.
  - split; [by eapply inv_mono | exact Habs].
  - destruct Hok as (? & ? & ?). clear Hinv' Habs Hinv.
    destruct s as [st cf cs oa cfg], st; inv_open Hinv2;
      unfold record_success, absb; simpl; [split; inv_close..|].
    rewrite u32_succ_small by lia. case_match; bool_to_prop; split; inv_close.
  - unfold record_failure. destruct b; simpl; [|done].
    rewrite <- Habs. clear Habs Hinv Hinv2. destruct Hok as (? & ? & ?).
    destruct (check_and_update_state s now) as [st cf cs oa cfg].
    pose proof (u32_succ_range cf).
    destruct st; inv_open Hinv'; unfold absb; simpl; [|split; inv_close..].
    rewrite u32_succ_small in * by lia. case_match; bool_to_prop; split; inv_close.
  - pose proof (u32_succ_range (consecutive_failures s)).
    destruct Hinv as (? & ? & ?). split; inv_close.
  - destruct s as [st cf cs oa cfg], Hinv as (Hc & ? & ?), Hok as (? & ? & ?).
    simpl in Hc. subst cfg. unfold U32_MAX in *. split; inv_close.
Qed.

Lemma step_inv c o cfg cfg' :
  config_ok c → inv c cfg → step o cfg cfg' → inv c cfg'.
Proof. intros ? Hi Hs. destruct Hs. by eapply run_op_correct. Qed.

Lemma steps_inv c os cfg cfg' :
  config_ok c → inv c cfg → steps os cfg cfg' → inv c cfg'.
Proof. intros Hok Hi Hs. induction Hs; eauto using step_inv. Qed.

Lemma record_failure_semantic s now now' : record_failure s false now now' = s.
Proof. done. Qed.

(** Before its cooldown has elapsed an open circuit stays open, opened no earlier,
    under every operation but [reset]. *)
Definition opened_since (c : CircuitConfig) (t0 : Z) (cfg : Z * CircuitInner) : Prop :=
  state cfg.2 = StOpen ∧ config cfg.2 = c
  ∧ ∃ t1, opened_at cfg.2 = Some t1 ∧ t0 <= t1 <= cfg.1.

Lemma check_and_update_open c t0 t s now :
  opened_since c t0 (t, s) → t <= now < t0 + cooldown_duration c →
  check_and_update_state s now = s.
Proof.
  intros (Hs & Hc & t1 & Ho & ?) ?. simpl in *. unfold check_and_update_state.
  rewrite Hs, Ho, Hc. unfold duration_since. case_match; [|done]. bool_to_prop. lia.
Qed.

Lemma step_open c t0 o cfg cfg' :
  o ≠ OpReset → opened_since c t0 cfg → step o cfg cfg' →
  cfg'.1 < t0 + cooldown_duration c → opened_since c t0 cfg'.
Proof.
  intros Ho Hs Hst Hlt. destruct Hst as [o t s now now' Ht Ht'].
  simpl in Hlt. pose proof (check_and_update_open c t0 t s now Hs ltac:(lia)) as Hcheck.
  destruct s as [st cf cs oa cfg], Hs as (Hst & Hc & t1 & Hop & ?); simpl in *; subst.
  destruct o as [| |[]| |]; simpl run_op; [| | | | |done].
  - unfold route. simpl. rewrite Hcheck. repeat split; try done. exists t1. simpl. split; [done|lia].
  - repeat split. exists t1. simpl. split; [done|lia].
  - unfold record_failure. simpl. rewrite Hcheck. simpl. repeat split.
    exists now'. simpl. split; [done|lia].
  - repeat split. exists t1. simpl. split; [done|lia].
  - repeat split. exists now'. simpl. split; [done|lia].
Qed.

Lemma steps_time os cfg cfg' : steps os cfg cfg' → cfg.1 <= cfg'.1.
Proof.
  induction 1 as [|o os c1 c2 c3 Hs _ IH]; [lia|]. destruct Hs; simpl in *. lia.
Qed.

Lemma steps_open c t0 os cfg cfg' :
  OpReset ∉ os → opened_since c t0 cfg → steps os cfg cfg' →
  cfg'.1 < t0 + cooldown_duration c → opened_since c t0 cfg'.
Proof.
  intros Hn Ho Hs Hlt. induction Hs as [|o os c1 c2 c3 Hst Hs IH]; [done|].
  apply not_elem_of_cons in Hn as [? ?]. apply steps_time in Hs as ?.
  apply IH; [done| |done]. eapply step_open; eauto with lia.
Qed.

(** Repeated transient failures of a closed circuit. *)
Lemma steps_failures_abs c n k t s cfg' :
  config_ok c → inv c (t, s) → state s = StClosed →
  consecutive_failures s = n → n + Z.of_nat k < failure_threshold c →
  steps (replicate k (OpFailure true)) (t, s) cfg' →
  state cfg'.2 = StClosed ∧ consecutive_failures cfg'.2 = n + Z.of_nat k ∧ inv c cfg'.
Proof.
  intros Hok. revert n t s. induction k as [|k IH]; intros n t s Hi Hc Hn Hlt Hs;
    inversion Hs as [|o os c1 c2 c3 Hst Hs']; clear Hs; subst.
  { cbn [snd]. split; [done|]. split; [lia | done]. }
  pose proof (step_inv c _ _ _ Hok Hi Hst) as Hi2.
  inversion Hst as [o' t' s' now now' Ht Ht']; clear Hst; subst.
  destruct (run_op_correct c (OpFailure true) t s now now' Hok Hi Ht Ht') as [_ Habs].
  set (s2 := run_op _ _ _ _) in *. unfold absb at 2 in Habs. rewrite Hc in Habs. simpl in Habs.
  destruct (Z.leb_spec (failure_threshold c) (consecutive_failures s + 1)); [lia|].
  unfold absb in Habs. destruct (state s2) eqn:Es2; simplify_eq.
  destruct (IH (consecutive_failures s + 1) now' s2) as (? & ? & ?); try done; try lia.
  split; [done|]. split; [lia | done].
Qed.

Lemma steps_app_inv os1 os2 cfg cfg' :
  steps (os1 ++ os2) cfg cfg' → ∃ cfg1, steps os1 cfg cfg1 ∧ steps os2 cfg1 cfg'.
Proof.
  revert cfg. induction os1 as [|o os1 IH]; intros cfg Hs.
  { exists cfg. split; [constructor | done]. }
  inversion Hs as [|o' os' c1 c2 c3 Hst Hs']; subst.
  destruct (IH c2 Hs') as (cfg1 & ? & ?). exists cfg1. split; [by econstructor | done].
Qed.

(** A step on a state whose abstraction is known. *)
Lemma step_abs c o cfg cfg' b :
  config_ok c → inv c cfg → step o cfg cfg' → absb cfg.2 = b →
  ∃ now now', cfg.1 <= now <= now' ∧ cfg'.1 = now' ∧ absb cfg'.2 = b_op c o now now' b.
Proof.
  intros Hok Hi Hst <-. destruct Hst as [o t s now now' Ht Ht'].
  exists now, now'. simpl. split; [lia|]. split; [done|]. by eapply run_op_correct.
Qed.

(** Consecutive successful probes of a half-open circuit. *)
Lemma steps_successes_abs c n k cfg cfg' :
  config_ok c → inv c cfg → absb cfg.2 = BHalf n → n + Z.of_nat k < success_threshold c →
  steps (replicate k OpSuccess) cfg cfg' →
  absb cfg'.2 = BHalf (n + Z.of_nat k) ∧ inv c cfg'.
Proof.
  intros Hok. revert n cfg. induction k as [|k IH]; intros n cfg Hi Hb Hlt Hs;
    inversion Hs as [|o os c1 c2 c3 Hst Hs']; clear Hs; subst.
  { rewrite Hb. split; [f_equal; lia | done]. }
  pose proof (step_inv _ _ _ _ Hok Hi Hst) as Hi2.
  destruct (step_abs _ _ _ _ _ Hok Hi Hst Hb) as (now & now' & _ & _ & Hb2). simpl in Hb2.
  destruct (Z.leb_spec (success_threshold c) (n + 1)); [lia|].
  destruct (IH (n + 1) c2) as [Hr ?]; try done; [lia|].
  rewrite Hr. split; [f_equal; lia | done].
Qed.

(** ** Properties *)

(** Every configuration reached from a new router satisfies the breaker's
    invariant: closed means no opening instant and fewer failures than the
    threshold, open and half-open carry the instant the circuit was opened, and
    a half-open circuit has fewer successes than its threshold. *)
Theorem circuit_invariant c os t cfg :
  config_ok c → steps os (t, CircuitInner_new c) cfg → inv c cfg.
Proof. intros Hok Hs. eapply steps_inv; [done| |done]. by apply inv_new. Qed.

(** C21: the router refines the abstract three-state breaker: each method acts on
    the abstraction as the specification's operation and keeps the invariant, and
    [route] answers as the state after its clock tick demands: native when closed,
    the fallback when open, the probe to the call that ends the cooldown.  Of the
    later calls in the half-open state it is only that none is native: the
    documentation promises one probe there, which the router does not keep
    ([half_open_every_route_probes]). *)
Theorem router_refines_breaker c o t s now now' :
  config_ok c → inv c (t, s) → t <= now → now <= now' →
  inv c (now', run_op o now now' s)
  ∧ absb (run_op o now now' s) = b_op c o now now' (absb s)
  ∧ absb (route s now).2 = b_tick c now (absb s)
  ∧ b_route (absb s) (b_tick c now (absb s)) (route s now).1.
Proof.
  intros Hok Hi Ht Ht'.
  destruct (run_op_correct c o t s now now' Hok Hi Ht Ht') as [Hi' Ha].
  split; [done|]. split; [done|].
  rewrite <- (check_and_update_abs c t s now Hi Ht). unfold route. simpl. split; [done|].
  unfold b_route, absb at 1. by destruct (state (check_and_update_state s now)), (absb s).
Qed.

(** No sequence of successes, failures, trips and queries gets past the
    cooldown: after a trip at [t0], while less than the cooldown has elapsed and
    nobody called [reset], the circuit routes to the fallback. *)
Theorem open_routes_fallback c os s t0 cfg now :
  config s = c → OpReset ∉ os →
  steps os (t0, trip s t0) cfg → cfg.1 <= now < t0 + cooldown_duration c →
  (route cfg.2 now).1 = Fallback ∧ (should_route_native cfg.2 now).1 = false.
Proof.
  intros Hc Hn Hs Hnow.
  assert (opened_since c t0 cfg) as Ho.
  { eapply steps_open; [done| |exact Hs|lia].
    split; [done|]. split; [done|]. exists t0. simpl. split; [done | lia]. }
  destruct cfg as [t s']. pose proof (check_and_update_open c t0 t s' now Ho Hnow) as Hcheck.
  destruct Ho as (Hst & _). simpl in Hst.
  unfold should_route_native, route. simpl. by rewrite Hcheck, Hst.
Qed.

(** The closed circuit trips exactly at its threshold: after fewer than
    [failure_threshold] consecutive transient failures it is still closed and
    routes natively; the failure that reaches the threshold opens it. *)
Theorem trips_exactly_at_threshold c k t cfg :
  config_ok c → steps (replicate k (OpFailure true)) (t, CircuitInner_new c) cfg →
  (Z.of_nat k < failure_threshold c → ∀ now, (route cfg.2 now).1 = Native) ∧
  (Z.of_nat k = failure_threshold c → state cfg.2 = StOpen ∧ opened_at cfg.2 = Some cfg.1).
Proof.
  intros Hok Hs. pose proof (inv_new c t Hok) as Hi. split; intros Hk.
  - intros now. destruct (steps_failures_abs c 0 k t _ cfg Hok Hi eq_refl eq_refl Hk Hs)
      as (Hst & _ & _).
    unfold route, check_and_update_state. rewrite Hst. simpl. by rewrite Hst.
  - destruct k as [|k]; [destruct Hok; lia|].
    rewrite replicate_S_end in Hs. apply steps_app_inv in Hs as (cfg1 & Hs1 & Hs2).
    destruct (steps_failures_abs c 0 k t _ cfg1 Hok Hi eq_refl eq_refl ltac:(lia) Hs1)
      as (Hst1 & Hn1 & Hi1).
    inversion Hs2 as [|o os c1 c2 c3 Hst Hs']; clear Hs2; subst.
    inversion Hs'; clear Hs'; subst.
    inversion Hst as [o' t' s' now now' Ht Ht' He]; clear Hst; subst.
    destruct s' as [st cf cs oa cfg], Hi1 as (Hc & Hr & Hm); simpl in *; subst.
    unfold record_failure. simpl. rewrite u32_succ_small by (destruct Hok; lia).
    destruct (Z.leb_spec (failure_threshold c) (0 + Z.of_nat k + 1)); [done | lia].
Qed.

(** Recovery: once the cooldown has elapsed the circuit lets probes through;
    it closes exactly at the [success_threshold]-th consecutive success, and a
    transient failure before that opens it again from the instant of the failure. *)
Theorem half_open_recovery c t s k cfg now :
  config_ok c → inv c (t, s) → state s = StOpen →
  opened_at s = Some t → t + cooldown_duration c <= now →
  steps (OpQuery :: replicate k OpSuccess) (now, check_and_update_state s now) cfg →
  (route s now).1 = Probe ∧
  (Z.of_nat k < success_threshold c →
     absb cfg.2 = BHalf (Z.of_nat k)
     ∧ ∀ n n', cfg.1 <= n → n <= n' → absb (record_failure cfg.2 true n n') = BOpen n') ∧
  (Z.of_nat k = success_threshold c → absb cfg.2 = BClosed 0).
Proof.
  intros Hok Hi Hst Hop Hnow Hs.
  assert (absb (check_and_update_state s now) = BHalf 0) as Hhalf.
  { rewrite (check_and_update_abs c t s now Hi) by (destruct Hok; lia).
    unfold absb. rewrite Hst, Hop. simpl.
    destruct (Z.leb_spec (cooldown_duration c) (now - t)); [done | lia]. }
  pose proof (check_and_update_inv c t s now Hi ltac:(destruct Hok; lia) Hok) as Hi1.
  inversion Hs as [|o os c1 c2 c3 Hq Hs']; clear Hs; subst.
  pose proof (step_inv _ _ _ _ Hok Hi1 Hq) as Hi2.
  destruct (step_abs _ _ _ _ _ Hok Hi1 Hq Hhalf) as (? & ? & _ & _ & Hb2). simpl in Hb2.
  split; [|split; intros Hk].
  - unfold route. simpl. unfold absb in Hhalf. by destruct (state (check_and_update_state s now)).
  - destruct (steps_successes_abs c 0 k c2 cfg Hok Hi2 Hb2 ltac:(lia) Hs') as [Hb Hi3].
    split; [done|]. intros n n' Hn Hn'. destruct cfg as [tc sc]. simpl in Hb, Hn.
    destruct (run_op_correct c (OpFailure true) tc sc n n' Hok Hi3 Hn Hn') as [_ Ha].
    simpl in *. by rewrite Ha, Hb.
  - destruct k as [|k]; [destruct Hok; lia|].
    rewrite replicate_S_end in Hs'. apply steps_app_inv in Hs' as (cfg1 & Hs1 & Hs2).
    destruct (steps_successes_abs c 0 k c2 cfg1 Hok Hi2 Hb2 ltac:(lia) Hs1) as [Hb Hi3].
    inversion Hs2 as [|o os c1 c4 c3 Hst2 Hs']; clear Hs2; subst. inversion Hs'; subst.
    destruct (step_abs _ _ _ _ _ Hok Hi3 Hst2 Hb) as (? & ? & _ & _ & ->). simpl.
    destruct (Z.leb_spec (success_threshold c) (0 + Z.of_nat k + 1)); [done | lia].
Qed.

(** The module documentation promises a single probe in the half-open state; the
    router keeps no token for it, so every caller is routed to a probe until one
    reports back. *)
Lemma half_open_every_route_probes s now now' :
  state s = StHalfOpen →
  (route s now).1 = Probe ∧ (route (route s now).2 now').1 = Probe.
Proof.
  intros Hs. assert (∀ n, check_and_update_state s n = s) as Hc.
  { intros n. unfold check_and_update_state. by rewrite Hs. }
  unfold route. simpl. by rewrite !Hc, Hs.
Qed.

(** ** Witnesses *)

Definition demo_config : CircuitConfig := mkConfig 2 100 2.

Lemma demo_config_ok : config_ok demo_config.
Proof. unfold config_ok, U32_MAX. simpl. lia. Qed.

(** The configuration after running [os] with the clock stopped at [t]. *)
Definition run_at (t : Z) (os : list op) (s : CircuitInner) : CircuitInner :=
  foldl (λ s o, run_op o t t s) s os.

Lemma steps_run_at t os s : steps os (t, s) (t, run_at t os s).
Proof.
  revert s. induction os as [|o os IH]; intros s; [constructor|].
  econstructor; [by apply step_op | apply IH].
Qed.

Lemma circuit_invariant_witness :
  inv demo_config (5, run_at 5 [OpFailure true; OpQuery; OpTrip] (CircuitInner_new demo_config)).
Proof.
  apply (circuit_invariant demo_config [OpFailure true; OpQuery; OpTrip] 5);
    [apply demo_config_ok | apply steps_run_at].
Defined.

Lemma router_refines_breaker_witness :
  let s := trip (CircuitInner_new demo_config) 0 in
  inv demo_config (200, run_op OpSuccess 120 200 s)
  ∧ absb (run_op OpSuccess 120 200 s) = BOpen 0
  ∧ absb (route s 120).2 = BHalf 0
  ∧ (route s 120).1 = Probe.
Proof.
  apply (router_refines_breaker demo_config OpSuccess 0 (trip (CircuitInner_new demo_config) 0) 120 200);
    [apply demo_config_ok | | lia | lia].
  simpl. repeat split; try done; try lia. by exists 0.
Defined.

Lemma open_routes_fallback_witness :
  let s := run_at 5 [OpSuccess; OpFailure true; OpQuery] (trip (CircuitInner_new demo_config) 5) in
  (route s 104).1 = Fallback ∧ (should_route_native s 104).1 = false.
Proof.
  apply (open_routes_fallback demo_config [OpSuccess; OpFailure true; OpQuery]
           (CircuitInner_new demo_config) 5
           (5, run_at 5 [OpSuccess; OpFailure true; OpQuery]
                 (trip (CircuitInner_new demo_config) 5)) 104);
    [done | set_solver | apply steps_run_at | simpl; lia].
Defined.

Lemma trips_exactly_at_threshold_witness :
  let s := run_at 5 [OpFailure true; OpFailure true] (CircuitInner_new demo_config) in
  state s = StOpen ∧ opened_at s = Some 5.
Proof.
  apply (trips_exactly_at_threshold demo_config 2 5
           (5, run_at 5 [OpFailure true; OpFailure true] (CircuitInner_new demo_config)));
    [apply demo_config_ok | apply (steps_run_at 5 [OpFailure true; OpFailure true]) | done].
Defined.

Lemma half_open_recovery_witness :
  let s := trip (CircuitInner_new demo_config) 0 in
  (route s 100).1 = Probe
  ∧ absb (run_at 100 [OpQuery; OpSuccess; OpSuccess] (check_and_update_state s 100)) = BClosed 0.
Proof.
  destruct (half_open_recovery demo_config 0 (trip (CircuitInner_new demo_config) 0) 2
    (100, run_at 100 [OpQuery; OpSuccess; OpSuccess]
       (check_and_update_state (trip (CircuitInner_new demo_config) 0) 100)) 100) as (? & _ & H);
    [apply demo_config_ok | | done | done | simpl; lia
    | apply (steps_run_at 100 [OpQuery; OpSuccess; OpSuccess]) | ].
  { simpl. repeat split; try done; try lia. by exists 0. }
  split; [done | by apply H].
Defined.
