(* ===== verification/BoltValue.v ===== *)
(** * Bolt values ([voyager-net/src/bolt/packstream.rs], the data)

    [BoltValue] with the source's constructors.  A [HashMap] is the list of its
    entries in iteration order with distinct keys, a [String] is a [string] of
    UTF-8 bytes, an [i64] is a [Z] and an [f64] its bit pattern.  The graph
    structures hold property maps of values, so their records take the value
    type as a parameter and are closed by the inductive type. *)
From S2P Require Import Prelude Bytes F64 Errors.

Open Scope Z_scope.

Definition MAX_PACKSTREAM_DEPTH : Z := 64.

Record BoltNode (V : Type) := mkNode {
  node_id : Z;
  node_labels : list string;
  node_properties : list (string * V);
  node_element_id : option string;
}.
Record BoltRelationship (V : Type) := mkRelationship {
  rel_id : Z;
  start_node_id : Z;
  end_node_id : Z;
  rel_type : string;
  rel_properties : list (string * V);
  rel_element_id : option string;
  start_element_id : option string;
  end_element_id : option string;
}.
Record BoltUnboundRelationship (V : Type) := mkUnbound {
  urel_id : Z;
  urel_type : string;
  urel_properties : list (string * V);
  urel_element_id : option string;
}.
Record BoltPath (V : Type) := mkPath {
  path_nodes : list (BoltNode V);
  path_relationships : list (BoltUnboundRelationship V);
  path_sequence : list Z;
}.
Arguments mkNode {V}. Arguments mkRelationship {V}.
Arguments mkUnbound {V}. Arguments mkPath {V}.
Arguments node_id {V}. Arguments node_labels {V}.
Arguments node_properties {V}. Arguments node_element_id {V}.
Arguments rel_id {V}. Arguments start_node_id {V}. Arguments end_node_id {V}.
Arguments rel_type {V}. Arguments rel_properties {V}. Arguments rel_element_id {V}.
Arguments start_element_id {V}. Arguments end_element_id {V}.
Arguments urel_id {V}. Arguments urel_type {V}.
Arguments urel_properties {V}. Arguments urel_element_id {V}.
Arguments path_nodes {V}. Arguments path_relationships {V}. Arguments path_sequence {V}.

Record BoltPoint2D := mkPoint2D { p2_srid : Z; p2_x : f64; p2_y : f64 }.
Record BoltPoint3D := mkPoint3D { p3_srid : Z; p3_x : f64; p3_y : f64; p3_z : f64 }.
Record BoltDate := mkDate { date_days : Z }.
Record BoltTime := mkTime { time_nanoseconds : Z; time_tz_offset_seconds : Z }.
Record BoltLocalTime := mkLocalTime { ltime_nanoseconds : Z }.
Record BoltDateTime := mkDateTime {
  dt_seconds : Z; dt_nanoseconds : Z; dt_tz_offset_seconds : Z }.
Record BoltLocalDateTime := mkLocalDateTime { ldt_seconds : Z; ldt_nanoseconds : Z }.
Record BoltDateTimeZoneId := mkDateTimeZoneId {
  dtz_seconds : Z; dtz_nanoseconds : Z; dtz_zone_id : string }.
Record BoltDuration := mkDuration {
  dur_months : Z; dur_days : Z; dur_seconds : Z; dur_nanoseconds : Z }.

Inductive BoltValue : Type :=
| Null
| Boolean (b : bool)
| Integer (i : Z)
| Float (f : f64)
| Bytes (bytes : list byte)
| String (s : string)
| List (l : list BoltValue)
| Map (m : list (string * BoltValue))
| Structure (tag : byte) (fields : list BoltValue)
| Node (n : BoltNode BoltValue)
| Relationship (r : BoltRelationship BoltValue)
| Path (p : BoltPath BoltValue)
| Point2D (p : BoltPoint2D)
| Point3D (p : BoltPoint3D)
| Date (d : BoltDate)
| Time (t : BoltTime)
| LocalTime (t : BoltLocalTime)
| DateTime (d : BoltDateTime)
| LocalDateTime (d : BoltLocalDateTime)
| DateTimeZoneId (d : BoltDateTimeZoneId)
| Duration (d : BoltDuration).

(** ** Accessors ([impl BoltValue]) *)

Definition as_str (v : BoltValue) : option string :=
  match v with String s => Some s | _ => None end.
Definition as_i64 (v : BoltValue) : option Z :=
  match v with Integer i => Some i | _ => None end.
Definition as_bool (v : BoltValue) : option bool :=
  match v with Boolean b => Some b | _ => None end.
Definition as_map (v : BoltValue) : option (list (string * BoltValue)) :=
  match v with Map m => Some m | _ => None end.
Definition as_list (v : BoltValue) : option (list BoltValue) :=
  match v with List l => Some l | _ => None end.
Definition as_date (v : BoltValue) : option BoltDate :=
  match v with Date d => Some d | _ => None end.
Definition as_time (v : BoltValue) : option BoltTime :=
  match v with Time t => Some t | _ => None end.
Definition as_local_time (v : BoltValue) : option BoltLocalTime :=
  match v with LocalTime t => Some t | _ => None end.
Definition as_datetime (v : BoltValue) : option BoltDateTime :=
  match v with DateTime d => Some d | _ => None end.
Definition as_local_datetime (v : BoltValue) : option BoltLocalDateTime :=
  match v with LocalDateTime d => Some d | _ => None end.
Definition as_datetime_zone_id (v : BoltValue) : option BoltDateTimeZoneId :=
  match v with DateTimeZoneId d => Some d | _ => None end.
Definition as_duration (v : BoltValue) : option BoltDuration :=
  match v with Duration d => Some d | _ => None end.
(** The [filter_map] closure that keeps the nodes of a path. *)
Definition as_node (v : BoltValue) : option (BoltNode BoltValue) :=
  match v with Node n => Some n | _ => None end.

(** ** Fields of the structure a value is sent as

    The vectors that [encode_node], [encode_relationship], … build for
    [encode_structure], with their tags. *)

Definition opt_string (o : option string) : list BoltValue :=
  match o with Some s => [String s] | None => [] end.

Definition node_fields (n : BoltNode BoltValue) : list BoltValue :=
  [Integer (node_id n); List (map String (node_labels n)); Map (node_properties n)]
  ++ opt_string (node_element_id n).

Definition relationship_fields (r : BoltRelationship BoltValue) : list BoltValue :=
  [Integer (rel_id r); Integer (start_node_id r); Integer (end_node_id r);
   String (rel_type r); Map (rel_properties r)]
  ++ match rel_element_id r with
     | Some elem_id =>
         [String elem_id; String (default EmptyString (start_element_id r));
          String (default EmptyString (end_element_id r))]
     | None => []
     end.

Definition unbound_fields (r : BoltUnboundRelationship BoltValue) : list BoltValue :=
  [Integer (urel_id r); String (urel_type r); Map (urel_properties r)]
  ++ opt_string (urel_element_id r).

Definition path_fields (p : BoltPath BoltValue) : list BoltValue :=
  [List (map Node (path_nodes p));
   List (map (λ r, Structure x72 (unbound_fields r)) (path_relationships p));
   List (map Integer (path_sequence p))].

(** The structure a high-level value stands for on the wire; [None] for the
    values with a marker of their own and for [Structure] itself. *)
Definition to_structure (v : BoltValue) : option (byte * list BoltValue) :=
  match v with
  | Node n => Some (x4e, node_fields n)
  | Relationship r => Some (x52, relationship_fields r)
  | Path p => Some (x50, path_fields p)
  | Point2D p => Some (x58, [Integer (p2_srid p); Float (p2_x p); Float (p2_y p)])
  | Point3D p =>
      Some (x59, [Integer (p3_srid p); Float (p3_x p); Float (p3_y p); Float (p3_z p)])
  | Date d => Some (x44, [Integer (date_days d)])
  | Time t => Some (x54, [Integer (time_nanoseconds t); Integer (time_tz_offset_seconds t)])
  | LocalTime t => Some (x74, [Integer (ltime_nanoseconds t)])
  | DateTime d =>
      Some (x49, [Integer (dt_seconds d); Integer (dt_nanoseconds d);
                  Integer (dt_tz_offset_seconds d)])
  | LocalDateTime d => Some (x64, [Integer (ldt_seconds d); Integer (ldt_nanoseconds d)])
  | DateTimeZoneId d =>
      Some (x4a, [Integer (dtz_seconds d); Integer (dtz_nanoseconds d); String (dtz_zone_id d)])
  | Duration d =>
      Some (x45, [Integer (dur_months d); Integer (dur_days d); Integer (dur_seconds d);
                  Integer (dur_nanoseconds d)])
  | _ => None
  end.

(** ** Nesting height

    The recursion depth of [encode] below a value, which is the nesting depth of
    its encoding: a structure's fields are one level below it, the elements of a
    list field two. *)
Fixpoint height (v : BoltValue) : nat :=
  let hmap := sup (λ kv, height kv.2) in
  match v with
  | List l => sup height l
  | Map m => hmap m
  | Structure _ fields => sup height fields
  | Node n =>
      Nat.max (S (sup (λ _, 0%nat) (node_labels n))) (S (hmap (node_properties n)))
  | Relationship r => S (hmap (rel_properties r))
  | Path p =>
      Nat.max
        (S (sup (λ n, Nat.max (S (sup (λ _, 0%nat) (node_labels n))) (S (hmap (node_properties n))))
              (path_nodes p)))
        (Nat.max (S (sup (λ r, S (hmap (urel_properties r))) (path_relationships p)))
           (S (sup (λ _, 0%nat) (path_sequence p))))
  | Point2D _ | Point3D _ | Date _ | Time _ | LocalTime _ | DateTime _
  | LocalDateTime _ | DateTimeZoneId _ | Duration _ => 1%nat
  | _ => 0%nat
  end.

Lemma sup_opt_string o : (sup height (opt_string o) <= 1)%nat.
Proof. destruct o; simpl; lia. Qed.

Lemma height_unbound r : sup height (unbound_fields r) = S (height (Map (urel_properties r))).
Proof. unfold unbound_fields. rewrite sup_app. pose proof (sup_opt_string (urel_element_id r)). simpl. lia. Qed.

Lemma height_structure v tag fields :
  to_structure v = Some (tag, fields) → height v = sup height fields.
Proof.
  destruct v as [| | | | | | | | |n|r|p| | | | | | | | |]; intros [= <- <-]; try reflexivity.
  - unfold node_fields. rewrite sup_app. pose proof (sup_opt_string (node_element_id n)).
    simpl. rewrite sup_map. simpl. lia.
  - unfold relationship_fields. rewrite sup_app. destruct (rel_element_id r); simpl; lia.
  - assert (height (List (map (λ r, Structure x72 (unbound_fields r)) (path_relationships p)))
            = sup (λ r, S (height (Map (urel_properties r)))) (path_relationships p)) as E.
    { cbn [height]. rewrite sup_map. apply sup_ext, height_unbound. }
    unfold path_fields. cbn [sup foldr]. rewrite E. cbn [height]. rewrite !sup_map. simpl. lia.
Qed.
