(* ===== verification/PackStream.v ===== *)
(** * PackStream codec ([voyager-net/src/bolt/packstream.rs])

    [encode] returns the bytes the code appends to its buffer.  [decode] takes
    the unread bytes and returns the value with what is left of them; the cursor
    position after an error is not modelled (no caller reads on).  Both recurse
    through an open body, closed by fuel that the unfolding lemmas
    [encode_unfold] and [decode_with_depth_unfold] show to be enough.  Error
    texts keep their interpolated numbers; the [Debug] rendering of a rejected
    map key and the text of a UTF-8 error are dropped. *)
From S2P Require Import Prelude Bytes F64 Errors BoltValue.

Open Scope Z_scope.
Open Scope list_scope.

Definition put_u8 (z : Z) : list byte := [to_u8 z].

(** ** Encoder *)

Definition encode_integer (val : Z) : list byte :=
  if (-16 <=? val) && (val <=? 127) then put_u8 val
  else if (I8_MIN <=? val) && (val <=? I8_MAX) then put_u8 200 ++ put_be 1 val
  else if (I16_MIN <=? val) && (val <=? I16_MAX) then put_u8 201 ++ put_be 2 val
  else if (I32_MIN <=? val) && (val <=? I32_MAX) then put_u8 202 ++ put_be 4 val
  else put_u8 203 ++ put_be 8 val.

Definition encode_bytes (bytes : list byte) : list byte :=
  let len := blen bytes in
  (if len <=? U8_MAX then put_u8 204 ++ put_be 1 len
   else if len <=? U16_MAX then put_u8 205 ++ put_be 2 len
   else put_u8 206 ++ put_be 4 len) ++ bytes.

(** The headers of the sized markers: tiny, then 8, 16 and 32 bits. *)
Definition sized_header (tiny m8 m16 m32 len : Z) : list byte :=
  if len <=? 15 then put_u8 (Z.lor tiny len)
  else if len <=? U8_MAX then put_u8 m8 ++ put_be 1 len
  else if len <=? U16_MAX then put_u8 m16 ++ put_be 2 len
  else put_u8 m32 ++ put_be 4 len.

Definition encode_string (s : string) : list byte :=
  let bytes := as_bytes s in sized_header 128 208 209 210 (blen bytes) ++ bytes.

Section encode_body.
Variable encode : BoltValue → list byte.

Definition encode_list (l : list BoltValue) : list byte :=
  sized_header 144 212 213 214 (blen l) ++ flat_map encode l.

Definition encode_map (m : list (string * BoltValue)) : list byte :=
  sized_header 160 216 217 218 (blen m)
  ++ flat_map (λ kv, encode_string kv.1 ++ encode kv.2) m.

(** There is no 32-bit structure marker: [len as u16] keeps the low 16 bits. *)
Definition encode_structure (tag : byte) (fields : list BoltValue) : list byte :=
  let len := blen fields in
  (if len <=? 15 then put_u8 (Z.lor 176 len)
   else if len <=? U8_MAX then put_u8 220 ++ put_be 1 len
   else put_u8 221 ++ put_be 2 len)
  ++ [tag] ++ flat_map encode fields.

Definition encode_node (node : BoltNode BoltValue) : list byte :=
  encode_structure x4e (node_fields node).
Definition encode_relationship (rel : BoltRelationship BoltValue) : list byte :=
  encode_structure x52 (relationship_fields rel).
Definition encode_path (path : BoltPath BoltValue) : list byte :=
  encode_structure x50 (path_fields path).
Definition encode_point2d (p : BoltPoint2D) : list byte :=
  encode_structure x58 [Integer (p2_srid p); Float (p2_x p); Float (p2_y p)].
Definition encode_point3d (p : BoltPoint3D) : list byte :=
  encode_structure x59 [Integer (p3_srid p); Float (p3_x p); Float (p3_y p); Float (p3_z p)].
Definition encode_date (d : BoltDate) : list byte :=
  encode_structure x44 [Integer (date_days d)].
Definition encode_time (t : BoltTime) : list byte :=
  encode_structure x54 [Integer (time_nanoseconds t); Integer (time_tz_offset_seconds t)].
Definition encode_local_time (t : BoltLocalTime) : list byte :=
  encode_structure x74 [Integer (ltime_nanoseconds t)].
Definition encode_datetime (d : BoltDateTime) : list byte :=
  encode_structure x49
    [Integer (dt_seconds d); Integer (dt_nanoseconds d); Integer (dt_tz_offset_seconds d)].
Definition encode_local_datetime (d : BoltLocalDateTime) : list byte :=
  encode_structure x64 [Integer (ldt_seconds d); Integer (ldt_nanoseconds d)].
Definition encode_datetime_zone_id (d : BoltDateTimeZoneId) : list byte :=
  encode_structure x4a
    [Integer (dtz_seconds d); Integer (dtz_nanoseconds d); String (dtz_zone_id d)].
Definition encode_duration (d : BoltDuration) : list byte :=
  encode_structure x45
    [Integer (dur_months d); Integer (dur_days d); Integer (dur_seconds d);
     Integer (dur_nanoseconds d)].

Definition encode_body (value : BoltValue) : list byte :=
  match value with
  | Null => put_u8 192
  | Boolean false => put_u8 194
  | Boolean true => put_u8 195
  | Integer i => encode_integer i
  | Float f => put_u8 193 ++ put_be 8 (to_bits f)
  | Bytes bytes => encode_bytes bytes
  | String s => encode_string s
  | List l => encode_list l
  | Map m => encode_map m
  | Structure tag fields => encode_structure tag fields
  | Node node => encode_node node
  | Relationship rel => encode_relationship rel
  | Path path => encode_path path
  | Point2D p => encode_point2d p
  | Point3D p => encode_point3d p
  | Date d => encode_date d
  | Time t => encode_time t
  | LocalTime t => encode_local_time t
  | DateTime d => encode_datetime d
  | LocalDateTime d => encode_local_datetime d
  | DateTimeZoneId d => encode_datetime_zone_id d
  | Duration d => encode_duration d
  end.
End encode_body.

Fixpoint encode_fuel (fuel : nat) (value : BoltValue) : list byte :=
  match fuel with
  | O => []
  | S fuel => encode_body (encode_fuel fuel) value
  end.

Definition encode (value : BoltValue) : list byte := encode_fuel (S (height value)) value.

(** ** Decoder *)

Definition perr {A} (msg : string) : result NetError A := Err (ProtocolError msg).
Definition num (n : Z) : string := of_bytes (show_int n).

(** [buf.get_uN()] of [n] bytes after the [remaining() < n] test of the code. *)
Definition get_n (n : nat) (incomplete : string) (buf : list byte) :
    result NetError (list byte * list byte) :=
  if blen buf <? Z.of_nat n then perr incomplete
  else Ok (take n buf, drop n buf).

Definition decode_string_payload (len : Z) (buf : list byte) :
    result NetError (BoltValue * list byte) :=
  if blen buf <? len then perr ("Unexpected EOF reading String of length " +:+ num len)
  else
    match from_utf8 (take (Z.to_nat len) buf) with
    | Some s => Ok (String s, drop (Z.to_nat len) buf)
    | None => perr "Invalid UTF-8 string: "
    end.

Definition decode_bytes_payload (len : Z) (buf : list byte) :
    result NetError (BoltValue * list byte) :=
  if blen buf <? len then perr ("Unexpected EOF reading byte buffer of length " +:+ num len)
  else Ok (Bytes (take (Z.to_nat len) buf), drop (Z.to_nat len) buf).

(** *** Structures *)

Definition structure (tag : byte) (fields : list BoltValue) : result NetError BoltValue :=
  Ok (Structure tag fields).

(** Elements of a list field that match, others dropped ([filter_map]). *)
Definition list_field {A} (f : BoltValue → option A) (v : option BoltValue) : list A :=
  match v with Some (List l) => omap f l | _ => [] end.

Definition map_field (v : option BoltValue) : list (string * BoltValue) :=
  match v with Some (Map m) => m | _ => [] end.

Definition int_field (v : option BoltValue) : Z :=
  match v with Some (Integer i) => i | _ => 0 end.

Definition string_field (v : option BoltValue) : string :=
  match v with Some (String s) => s | _ => EmptyString end.

Definition opt_string_field (v : option BoltValue) : option string := v ≫= as_str.

Definition decode_node_structure (fields : list BoltValue) : result NetError BoltValue :=
  if blen fields <? 3 then structure x4e fields else
  match fields !! 0%nat with
  | Some (Integer id) =>
      Ok (Node (mkNode id
        (list_field as_str (fields !! 1%nat))
        (map_field (fields !! 2%nat))
        (if 4 <=? blen fields then opt_string_field (fields !! 3%nat) else None)))
  | _ => structure x4e fields
  end.

Definition decode_relationship_structure (fields : list BoltValue) : result NetError BoltValue :=
  if blen fields <? 5 then structure x52 fields else
  match fields !! 0%nat with
  | Some (Integer id) =>
      let '(element_id, start_element_id, end_element_id) :=
        if 8 <=? blen fields then
          (opt_string_field (fields !! 5%nat), opt_string_field (fields !! 6%nat),
           opt_string_field (fields !! 7%nat))
        else (None, None, None) in
      Ok (Relationship (mkRelationship id
        (int_field (fields !! 1%nat)) (int_field (fields !! 2%nat))
        (string_field (fields !! 3%nat)) (map_field (fields !! 4%nat))
        element_id start_element_id end_element_id))
  | _ => structure x52 fields
  end.

(** The closure of [decode_path_structure] on an element of the second field. *)
Definition decode_unbound (v : BoltValue) : option (BoltUnboundRelationship BoltValue) :=
  match v with
  | Structure x72 fields =>
      if 3 <=? blen fields then
        Some (mkUnbound (int_field (fields !! 0%nat)) (string_field (fields !! 1%nat))
                (map_field (fields !! 2%nat)) (opt_string_field (fields !! 3%nat)))
      else None
  | _ => None
  end.

Definition decode_path_structure (fields : list BoltValue) : result NetError BoltValue :=
  if blen fields <? 3 then structure x50 fields else
  Ok (Path (mkPath (list_field as_node (fields !! 0%nat))
              (list_field decode_unbound (fields !! 1%nat))
              (list_field as_i64 (fields !! 2%nat)))).

(** A coordinate: a float, or an integer converted to one. *)
Definition coordinate (v : option BoltValue) : option f64 :=
  match v with
  | Some (Float f) => Some f
  | Some (Integer i) => Some (i64_as_f64 i)
  | _ => None
  end.

Definition decode_point2d_structure (fields : list BoltValue) : result NetError BoltValue :=
  if blen fields <? 3 then structure x58 fields else
  match fields !! 0%nat, coordinate (fields !! 1%nat), coordinate (fields !! 2%nat) with
  | Some (Integer srid), Some x, Some y => Ok (Point2D (mkPoint2D srid x y))
  | _, _, _ => structure x58 fields
  end.

Definition decode_point3d_structure (fields : list BoltValue) : result NetError BoltValue :=
  if blen fields <? 4 then structure x59 fields else
  match fields !! 0%nat, coordinate (fields !! 1%nat), coordinate (fields !! 2%nat),
        coordinate (fields !! 3%nat) with
  | Some (Integer srid), Some x, Some y, Some z => Ok (Point3D (mkPoint3D srid x y z))
  | _, _, _, _ => structure x59 fields
  end.

Definition decode_date_structure (fields : list BoltValue) : result NetError BoltValue :=
  if blen fields <? 1 then structure x44 fields else
  match fields !! 0%nat with
  | Some (Integer d) => Ok (Date (mkDate d))
  | _ => structure x44 fields
  end.

Definition decode_time_structure (fields : list BoltValue) : result NetError BoltValue :=
  if blen fields <? 2 then structure x54 fields else
  match fields !! 0%nat, fields !! 1%nat with
  | Some (Integer n), Some (Integer tz) => Ok (Time (mkTime n tz))
  | _, _ => structure x54 fields
  end.

Definition decode_local_time_structure (fields : list BoltValue) : result NetError BoltValue :=
  if blen fields <? 1 then structure x74 fields else
  match fields !! 0%nat with
  | Some (Integer n) => Ok (LocalTime (mkLocalTime n))
  | _ => structure x74 fields
  end.

Definition decode_datetime_structure (fields : list BoltValue) (tag : byte) :
    result NetError BoltValue :=
  if blen fields <? 3 then structure tag fields else
  match fields !! 0%nat, fields !! 1%nat, fields !! 2%nat with
  | Some (Integer s), Some (Integer n), Some (Integer tz) => Ok (DateTime (mkDateTime s n tz))
  | _, _, _ => structure tag fields
  end.

Definition decode_local_datetime_structure (fields : list BoltValue) :
    result NetError BoltValue :=
  if blen fields <? 2 then structure x64 fields else
  match fields !! 0%nat, fields !! 1%nat with
  | Some (Integer s), Some (Integer n) => Ok (LocalDateTime (mkLocalDateTime s n))
  | _, _ => structure x64 fields
  end.

Definition decode_datetime_zone_id_structure (fields : list BoltValue) (tag : byte) :
    result NetError BoltValue :=
  if blen fields <? 3 then structure tag fields else
  match fields !! 0%nat, fields !! 1%nat, fields !! 2%nat with
  | Some (Integer s), Some (Integer n), Some (String z) =>
      Ok (DateTimeZoneId (mkDateTimeZoneId s n z))
  | _, _, _ => structure tag fields
  end.

Definition decode_duration_structure (fields : list BoltValue) : result NetError BoltValue :=
  if blen fields <? 4 then structure x45 fields else
  match fields !! 0%nat, fields !! 1%nat, fields !! 2%nat, fields !! 3%nat with
  | Some (Integer m), Some (Integer d), Some (Integer s), Some (Integer n) =>
      Ok (Duration (mkDuration m d s n))
  | _, _, _, _ => structure x45 fields
  end.

(** The dispatch on the tag at the end of [decode_structure_payload]. *)
Definition decode_structure_tag (tag : byte) (fields : list BoltValue) :
    result NetError BoltValue :=
  match tag with
  | x4e => decode_node_structure fields
  | x52 => decode_relationship_structure fields
  | x50 => decode_path_structure fields
  | x58 => decode_point2d_structure fields
  | x59 => decode_point3d_structure fields
  | x44 => decode_date_structure fields
  | x54 => decode_time_structure fields
  | x74 => decode_local_time_structure fields
  | x49 | x46 => decode_datetime_structure fields tag
  | x64 => decode_local_datetime_structure fields
  | x4a | x66 | x69 => decode_datetime_zone_id_structure fields tag
  | x45 => decode_duration_structure fields
  | _ => structure tag fields
  end.

(** *** Values *)

(** [{:02X}] of a byte. *)
Definition hex_digit (d : Z) : byte := to_u8 (if d <? 10 then 48 + d else 55 + d).
Definition hex2 (n : Z) : list byte := [hex_digit (n / 16); hex_digit (n mod 16)].

Definition depth_error {A} : result NetError A :=
  perr ("PackStream structure exceeded maximum nesting depth of " +:+ num MAX_PACKSTREAM_DEPTH).

Section decode_body.
(** [decode_with_depth] for the recursive calls, at [depth + 1]. *)
Variable decode_rec : list byte → result NetError (BoltValue * list byte).

Fixpoint decode_elements (n : nat) (buf : list byte) :
    result NetError (list BoltValue * list byte) :=
  match n with
  | O => Ok ([], buf)
  | S n =>
      '(v, buf) ← decode_rec buf;
      '(vs, buf) ← decode_elements n buf;
      Ok (v :: vs, buf)
  end.

(** [map] is the map built so far. *)
Fixpoint decode_entries (n : nat) (map : list (string * BoltValue)) (buf : list byte) :
    result NetError (list (string * BoltValue) * list byte) :=
  match n with
  | O => Ok (map, buf)
  | S n =>
      '(k, buf) ← decode_rec buf;
      match k with
      | String key =>
          '(value, buf) ← decode_rec buf;
          decode_entries n (assoc_insert key value map) buf
      | _ => perr "Map key must be a String, got: "
      end
  end.

Definition decode_list_payload (len : Z) (buf : list byte) :
    result NetError (BoltValue * list byte) :=
  if blen buf <? len then
    perr ("List length " +:+ num len +:+ " exceeds available buffer bytes "
          +:+ num (blen buf) +:+ " (minimum 1 byte per element required)")
  else
    '(l, buf) ← decode_elements (Z.to_nat len) buf;
    Ok (List l, buf).

(** [size.saturating_mul(2)]: a size read from the wire is at most [u32::MAX], so
    the product does not saturate a 64-bit [usize]. *)
Definition decode_map_payload (size : Z) (buf : list byte) :
    result NetError (BoltValue * list byte) :=
  let min_required := Z.min (size * 2) U64_MAX in
  if blen buf <? min_required then
    perr ("Map size " +:+ num size +:+ " requires at least " +:+ num min_required
          +:+ " bytes, which exceeds available buffer bytes " +:+ num (blen buf))
  else
    '(m, buf) ← decode_entries (Z.to_nat size) [] buf;
    Ok (Map m, buf).

Definition decode_structure_payload (num_fields : Z) (buf : list byte) :
    result NetError (BoltValue * list byte) :=
  match buf with
  | [] => perr "Unexpected EOF reading structure signature tag"
  | tag :: buf =>
      if blen buf <? num_fields then
        perr ("Structure field count " +:+ num num_fields
              +:+ " exceeds available buffer bytes " +:+ num (blen buf)
              +:+ " (minimum 1 byte per field required)")
      else
        '(fields, buf) ← decode_elements (Z.to_nat num_fields) buf;
        v ← decode_structure_tag tag fields;
        Ok (v, buf)
  end.

(** A sized marker: its length in [n] bytes, then its payload. *)
Definition sized {A} (n : nat) (incomplete : string)
    (payload : Z → list byte → result NetError A) (buf : list byte) : result NetError A :=
  '(len, buf) ← get_n n incomplete buf;
  payload (get_be len) buf.

Definition int_payload (n : nat) (incomplete : string) (buf : list byte) :
    result NetError (BoltValue * list byte) :=
  '(i, buf) ← get_n n incomplete buf;
  Ok (Integer (as_signed (8 * Z.of_nat n) (get_be i)), buf).

(** The explicit marker bytes, [match marker] at the end of [decode_with_depth]. *)
Definition decode_marker (marker : byte) (buf : list byte) :
    result NetError (BoltValue * list byte) :=
  match marker with
  | xc0 => Ok (Null, buf)
  | xc1 =>
      '(bits, buf) ← get_n 8 "Incomplete Float64" buf;
      Ok (Float (from_bits (get_be bits)), buf)
  | xc2 => Ok (Boolean false, buf)
  | xc3 => Ok (Boolean true, buf)
  | xc8 => int_payload 1 "Incomplete Int8" buf
  | xc9 => int_payload 2 "Incomplete Int16" buf
  | xca => int_payload 4 "Incomplete Int32" buf
  | xcb => int_payload 8 "Incomplete Int64" buf
  | xcc => sized 1 "Incomplete Bytes8 length" decode_bytes_payload buf
  | xcd => sized 2 "Incomplete Bytes16 length" decode_bytes_payload buf
  | xce => sized 4 "Incomplete Bytes32 length" decode_bytes_payload buf
  | xd0 => sized 1 "Incomplete String8 length" decode_string_payload buf
  | xd1 => sized 2 "Incomplete String16 length" decode_string_payload buf
  | xd2 => sized 4 "Incomplete String32 length" decode_string_payload buf
  | xd4 => sized 1 "Incomplete List8 length" decode_list_payload buf
  | xd5 => sized 2 "Incomplete List16 length" decode_list_payload buf
  | xd6 => sized 4 "Incomplete List32 length" decode_list_payload buf
  | xd8 => sized 1 "Incomplete Map8 length" decode_map_payload buf
  | xd9 => sized 2 "Incomplete Map16 length" decode_map_payload buf
  | xda => sized 4 "Incomplete Map32 length" decode_map_payload buf
  | xdc => sized 1 "Incomplete Struct8 length" decode_structure_payload buf
  | xdd => sized 2 "Incomplete Struct16 length" decode_structure_payload buf
  | unknown => perr ("Unknown PackStream marker byte 0x" +:+ of_bytes (hex2 (u8 unknown)))
  end.

(** [decode_with_depth] after its depth check. *)
Definition decode_body (buf : list byte) : result NetError (BoltValue * list byte) :=
  match buf with
  | [] => perr "Unexpected EOF while decoding PackStream value"
  | marker :: buf =>
      let m := u8 marker in
      if m <=? 127 then Ok (Integer m, buf)
      else if 240 <=? m then Ok (Integer (as_signed 8 m), buf)
      else if (128 <=? m) && (m <=? 143) then decode_string_payload (Z.land m 15) buf
      else if (144 <=? m) && (m <=? 159) then decode_list_payload (Z.land m 15) buf
      else if (160 <=? m) && (m <=? 175) then decode_map_payload (Z.land m 15) buf
      else if (176 <=? m) && (m <=? 191) then decode_structure_payload (Z.land m 15) buf
      else decode_marker marker buf
  end.
End decode_body.

(** [fuel] bounds the depths left; it runs out only beyond the depth limit. *)
Fixpoint decode_fuel (fuel : nat) (buf : list byte) (depth : Z) :
    result NetError (BoltValue * list byte) :=
  if MAX_PACKSTREAM_DEPTH <? depth then depth_error else
  match fuel with
  | O => depth_error
  | S fuel => decode_body (λ buf, decode_fuel fuel buf (depth + 1)) buf
  end.

Definition decode_with_depth (buf : list byte) (depth : Z) :
    result NetError (BoltValue * list byte) :=
  decode_fuel (Z.to_nat (MAX_PACKSTREAM_DEPTH + 1 - depth)) buf depth.

Definition decode (buf : list byte) : result NetError (BoltValue * list byte) :=
  decode_with_depth buf 0.

(** ** Well-formed values

    The values the code can hold and its format can carry: integers are [i64],
    floats 64 bits, strings UTF-8 with at most [u32::MAX] bytes, collections at
    most [u32::MAX] entries and structures [u16::MAX] fields, map keys distinct;
    a generic structure is not one the decoder turns into a graph or temporal
    value; and a relationship has all three element ids or none. *)
Definition wf_string (s : string) : Prop := str_ok s = true ∧ blen (as_bytes s) <= U32_MAX.
Definition wf_opt (o : option string) : Prop := match o with Some s => wf_string s | None => True end.
Definition wf_int (i : Z) : Prop := I64_MIN <= i <= I64_MAX.

Fixpoint wf (v : BoltValue) : Prop :=
  let wf_map (m : list (string * BoltValue)) :=
    blen m <= U32_MAX ∧ NoDup m.*1 ∧ All wf_string m.*1 ∧ All (λ kv, wf kv.2) m in
  let wf_node n :=
    wf_int (node_id n) ∧ All wf_string (node_labels n) ∧ blen (node_labels n) <= U32_MAX
    ∧ wf_map (node_properties n) ∧ wf_opt (node_element_id n) in
  match v with
  | Null | Boolean _ => True
  | Integer i => wf_int i
  | Float f => f64_ok f = true
  | Bytes b => blen b <= U32_MAX
  | String s => wf_string s
  | List l => blen l <= U32_MAX ∧ All wf l
  | Map m => wf_map m
  | Structure tag fields =>
      blen fields <= U16_MAX ∧ All wf fields ∧ decode_structure_tag tag fields = Ok v
  | Node n => wf_node n
  | Relationship r =>
      wf_int (rel_id r) ∧ wf_int (start_node_id r) ∧ wf_int (end_node_id r)
      ∧ wf_string (rel_type r) ∧ wf_map (rel_properties r)
      ∧ wf_opt (rel_element_id r) ∧ wf_opt (start_element_id r) ∧ wf_opt (end_element_id r)
      ∧ (is_Some (start_element_id r) ↔ is_Some (rel_element_id r))
      ∧ (is_Some (end_element_id r) ↔ is_Some (rel_element_id r))
  | Path p =>
      blen (path_nodes p) <= U32_MAX ∧ All wf_node (path_nodes p)
      ∧ blen (path_relationships p) <= U32_MAX
      ∧ All (λ r, wf_int (urel_id r) ∧ wf_string (urel_type r) ∧ wf_map (urel_properties r)
                  ∧ wf_opt (urel_element_id r)) (path_relationships p)
      ∧ blen (path_sequence p) <= U32_MAX ∧ All wf_int (path_sequence p)
  | Point2D p => wf_int (p2_srid p) ∧ f64_ok (p2_x p) = true ∧ f64_ok (p2_y p) = true
  | Point3D p =>
      wf_int (p3_srid p) ∧ f64_ok (p3_x p) = true ∧ f64_ok (p3_y p) = true
      ∧ f64_ok (p3_z p) = true
  | Date d => wf_int (date_days d)
  | Time t => wf_int (time_nanoseconds t) ∧ wf_int (time_tz_offset_seconds t)
  | LocalTime t => wf_int (ltime_nanoseconds t)
  | DateTime d =>
      wf_int (dt_seconds d) ∧ wf_int (dt_nanoseconds d) ∧ wf_int (dt_tz_offset_seconds d)
  | LocalDateTime d => wf_int (ldt_seconds d) ∧ wf_int (ldt_nanoseconds d)
  | DateTimeZoneId d =>
      wf_int (dtz_seconds d) ∧ wf_int (dtz_nanoseconds d) ∧ wf_string (dtz_zone_id d)
  | Duration d =>
      wf_int (dur_months d) ∧ wf_int (dur_days d) ∧ wf_int (dur_seconds d)
      ∧ wf_int (dur_nanoseconds d)
  end.

(** ** Unfolding *)

(** A value with a structure of its own is encoded as that structure. *)
Lemma encode_body_structure f v tag fields :
  to_structure v = Some (tag, fields) → encode_body f v = encode_structure f tag fields.
Proof. destruct v; intros [= <- <-]; reflexivity. Qed.

(** The body looks only at values below the one it encodes. *)
Lemma encode_body_congr f g v :
  (∀ x, (height x < height v)%nat → f x = g x) → encode_body f v = encode_body g v.
Proof.
  assert (∀ tag fields, height v = sup height fields →
    (∀ x, (height x < height v)%nat → f x = g x) →
    encode_structure f tag fields = encode_structure g tag fields) as Hs.
  { intros tag fields E H. unfold encode_structure. do 2 f_equal.
    apply flat_map_ext_In. intros x Hx. pose proof (sup_In height fields x Hx). apply H. lia. }
  intros H. destruct (to_structure v) as [[tag fields]|] eqn:E.
  { rewrite !(encode_body_structure _ v tag fields E).
    apply Hs; [by eapply height_structure | done]. }
  destruct v as [| | | | | |l|m|tag fields| | | | | | | | | | | |]; try done; simpl in *.
  - unfold encode_list. f_equal. apply flat_map_ext_In. intros x Hx.
    pose proof (sup_In height l x Hx). apply H. lia.
  - unfold encode_map. f_equal. apply flat_map_ext_In. intros x Hx. f_equal.
    pose proof (sup_In (λ kv, height kv.2) m x Hx). apply H. lia.
  - by apply Hs.
Qed.

Lemma encode_fuel_enough n m v :
  (height v < n)%nat → (height v < m)%nat → encode_fuel n v = encode_fuel m v.
Proof.
  revert m v. induction n as [|n IH]; intros [|m] v Hn Hm; try lia. simpl.
  apply encode_body_congr. intros x Hx. apply IH; lia.
Qed.

(** [encode] satisfies the recursive equation of the code. *)
Lemma encode_unfold v : encode v = encode_body encode v.
Proof. apply encode_body_congr. intros x Hx. apply encode_fuel_enough; lia. Qed.

(** [decode_with_depth] satisfies the recursive equation of the code. *)
Lemma decode_with_depth_unfold buf depth :
  decode_with_depth buf depth =
  if MAX_PACKSTREAM_DEPTH <? depth then depth_error
  else decode_body (λ buf, decode_with_depth buf (depth + 1)) buf.
Proof.
  unfold decode_with_depth, MAX_PACKSTREAM_DEPTH.
  destruct (Z.ltb_spec 64 depth).
  - destruct (Z.to_nat (64 + 1 - depth)) eqn:E; simpl; unfold MAX_PACKSTREAM_DEPTH;
      destruct (Z.ltb_spec 64 depth); (done || lia).
  - replace (Z.to_nat (64 + 1 - depth)) with (S (Z.to_nat (64 + 1 - (depth + 1)))) by lia.
    cbn [decode_fuel]. unfold MAX_PACKSTREAM_DEPTH. by destruct (Z.ltb_spec 64 depth); [lia|].
Qed.

(** ** Markers *)

Lemma small16 (P : Z → Prop) :
  P 0 → P 1 → P 2 → P 3 → P 4 → P 5 → P 6 → P 7 → P 8 → P 9 → P 10 → P 11 → P 12 →
  P 13 → P 14 → P 15 → ∀ n, 0 <= n <= 15 → P n.
Proof.
  intros. assert (n = 0 ∨ n = 1 ∨ n = 2 ∨ n = 3 ∨ n = 4 ∨ n = 5 ∨ n = 6 ∨ n = 7 ∨ n = 8 ∨
    n = 9 ∨ n = 10 ∨ n = 11 ∨ n = 12 ∨ n = 13 ∨ n = 14 ∨ n = 15) as Hn by lia.
  by repeat destruct Hn as [->|Hn]; [..|subst].
Qed.

Lemma get_n_put_be n inc z rest :
  get_n n inc (put_be n z ++ rest) = Ok (put_be n z, rest).
Proof.
  unfold get_n, blen. rewrite length_app, put_be_length.
  destruct (Z.ltb_spec (Z.of_nat (n + length rest)) (Z.of_nat n)); [lia|].
  by rewrite take_app_length', drop_app_length' by (by rewrite put_be_length).
Qed.

Lemma sized_put_be {A} n inc (payload : Z → list byte → result NetError A) z rest :
  0 <= z < 2 ^ (8 * Z.of_nat n) →
  sized n inc payload (put_be n z ++ rest) = payload z rest.
Proof.
  intros Hz. unfold sized. rewrite get_n_put_be. simpl.
  by rewrite get_be_put_be, Z.mod_small.
Qed.

Lemma int_payload_put_be n inc z rest :
  (0 < n)%nat → - 2 ^ (8 * Z.of_nat n - 1) <= z < 2 ^ (8 * Z.of_nat n - 1) →
  int_payload n inc (put_be n z ++ rest) = Ok (Integer z, rest).
Proof.
  intros Hn Hz. unfold int_payload. rewrite get_n_put_be. simpl.
  by rewrite get_be_put_be, as_signed_mod, as_signed_id by lia.
Qed.

(** A tiny marker carries its length in the low four bits. *)
Lemma decode_tiny f rest len :
  0 <= len <= 15 →
  decode_body f (put_u8 (Z.lor 128 len) ++ rest) = decode_string_payload len rest
  ∧ decode_body f (put_u8 (Z.lor 144 len) ++ rest) = decode_list_payload f len rest
  ∧ decode_body f (put_u8 (Z.lor 160 len) ++ rest) = decode_map_payload f len rest
  ∧ decode_body f (put_u8 (Z.lor 176 len) ++ rest) = decode_structure_payload f len rest.
Proof. revert len. apply small16; repeat split; reflexivity. Qed.

(** The marker and length of a string, list or map lead to its payload. *)
Ltac header_cases :=
  unfold sized_header, U8_MAX, U16_MAX, U32_MAX in *;
  repeat match goal with |- context[?a <=? ?b] => destruct (Z.leb_spec a b) end;
  [ apply decode_tiny; lia
  | rewrite <- app_assoc; apply sized_put_be; simpl; lia .. ].

Lemma decode_string_header f len rest :
  0 <= len <= U32_MAX →
  decode_body f (sized_header 128 208 209 210 len ++ rest) = decode_string_payload len rest.
Proof. intros. header_cases. Qed.

Lemma decode_list_header f len rest :
  0 <= len <= U32_MAX →
  decode_body f (sized_header 144 212 213 214 len ++ rest) = decode_list_payload f len rest.
Proof. intros. header_cases. Qed.

Lemma decode_map_header f len rest :
  0 <= len <= U32_MAX →
  decode_body f (sized_header 160 216 217 218 len ++ rest) = decode_map_payload f len rest.
Proof. intros. header_cases. Qed.

(** ** Round trip of one value, given that of the values below it *)

Lemma decode_integer f i rest :
  wf_int i → decode_body f (encode_integer i ++ rest) = Ok (Integer i, rest).
Proof.
  unfold wf_int, encode_integer, I64_MIN, I64_MAX, I8_MIN, I8_MAX, I16_MIN, I16_MAX, I32_MIN, I32_MAX.
  intros Hi. case_match eqn:E1; bool_to_prop.
  { simpl. rewrite u8_to_u8. change 256 with (2 ^ 8).
    destruct (Z.leb_spec (i mod 2 ^ 8) 127); [f_equal; f_equal; f_equal; dlia|].
    destruct (Z.leb_spec 240 (i mod 2 ^ 8)); [|dlia].
    by rewrite as_signed_mod, as_signed_id by lia. }
  repeat case_match; rewrite <- app_assoc; apply int_payload_put_be; bool_to_prop; simpl; lia.
Qed.

Lemma decode_float f x rest :
  f64_ok x = true → decode_body f (put_u8 193 ++ put_be 8 (to_bits x) ++ rest) = Ok (Float x, rest).
Proof.
  intros Hx%f64_ok_range.
  assert (∀ b, decode_body f (put_u8 193 ++ b)
    = ('(bits, buf) ← get_n 8 "Incomplete Float64" b; Ok (Float (from_bits (get_be bits)), buf)))
    as E by reflexivity.
  rewrite E, get_n_put_be. cbn [mbind result_bind].
  rewrite get_be_put_be, Z.mod_small by (simpl; lia). by destruct x.
Qed.

#[local] Hint Resolve blen_nonneg : core.

Lemma decode_bytes f b rest :
  blen b <= U32_MAX → decode_body f (encode_bytes b ++ rest) = Ok (Bytes b, rest).
Proof.
  intros Hb. assert (decode_bytes_payload (blen b) (b ++ rest) = Ok (Bytes b, rest)) as <-.
  { unfold decode_bytes_payload. rewrite blen_app. pose proof (blen_nonneg rest).
    destruct (Z.ltb_spec (blen b + blen rest) (blen b)); [lia|].
    by destruct (take_drop_blen b rest) as [-> ->]. }
  unfold encode_bytes, U8_MAX, U16_MAX, U32_MAX in *. pose proof (blen_nonneg b).
  repeat match goal with |- context[?x <=? ?y] => destruct (Z.leb_spec x y) end;
    rewrite <- !app_assoc; apply sized_put_be; simpl; lia.
Qed.

Lemma decode_string f s rest :
  wf_string s → decode_body f (encode_string s ++ rest) = Ok (String s, rest).
Proof.
  intros [Hs Hlen]. unfold encode_string. rewrite <- app_assoc, decode_string_header by done.
  unfold decode_string_payload. rewrite blen_app. pose proof (blen_nonneg rest).
  destruct (Z.ltb_spec (blen (as_bytes s) + blen rest) (blen (as_bytes s))); [lia|].
  destruct (take_drop_blen (as_bytes s) rest) as [-> ->]. by rewrite from_utf8_as_bytes.
Qed.

(** Every encoding has at least its marker byte. *)
Lemma put_u8_pos z l : 1 <= blen (put_u8 z ++ l).
Proof. rewrite blen_app. pose proof (blen_nonneg l). unfold put_u8, blen in *. simpl length. lia. Qed.

Lemma sized_header_pos a b c d n l : 1 <= blen (sized_header a b c d n ++ l).
Proof.
  unfold sized_header. repeat case_match; rewrite <- ?app_assoc; apply put_u8_pos.
Qed.

Lemma encode_structure_pos tag fields : 1 <= blen (encode_structure encode tag fields).
Proof.
  unfold encode_structure. repeat case_match; rewrite <- ?app_assoc; apply put_u8_pos.
Qed.

Lemma encode_integer_pos i : 1 <= blen (encode_integer i).
Proof.
  unfold encode_integer. case_match; [done|]. repeat case_match; apply put_u8_pos.
Qed.

Lemma encode_pos v : 1 <= blen (encode v).
Proof.
  rewrite encode_unfold. destruct (to_structure v) as [[tag fields]|] eqn:E.
  { rewrite (encode_body_structure _ v tag fields E). apply encode_structure_pos. }
  destruct v as [|[]|i|x|b|s|l|m|tag fields| | | | | | | | | | | |]; try done; simpl.
  - apply encode_integer_pos.
  - unfold encode_bytes. repeat case_match; rewrite <- ?app_assoc; apply put_u8_pos.
  - apply sized_header_pos.
  - apply sized_header_pos.
  - apply sized_header_pos.
  - apply encode_structure_pos.
Qed.

Lemma flat_map_encode_length l : blen l <= blen (flat_map encode l).
Proof.
  induction l as [|v l IH]; [done|]. simpl. rewrite blen_app. pose proof (encode_pos v).
  unfold blen in *. simpl length. lia.
Qed.

Lemma flat_map_entries_length m :
  blen m * 2 <= blen (flat_map (λ kv, encode_string kv.1 ++ encode kv.2) m).
Proof.
  induction m as [|[k v] m IH]; [done|]. simpl. rewrite !blen_app. pose proof (encode_pos v).
  pose proof (sized_header_pos 128 208 209 210 (blen (as_bytes k)) (as_bytes k)) as Hk.
  fold (encode_string k) in Hk. unfold blen in *. simpl length. lia.
Qed.

(** Loops over the elements of a list and the entries of a map. *)
Lemma decode_elements_encode f l rest :
  (∀ v, In v l → ∀ r, f (encode v ++ r) = Ok (v, r)) →
  decode_elements f (length l) (flat_map encode l ++ rest) = Ok (l, rest).
Proof.
  induction l as [|v l IH]; intros H; simpl; [done|].
  rewrite <- app_assoc, H by (by left). simpl. rewrite IH; [done|]. intros; apply H; by right.
Qed.

Lemma decode_entries_encode f m acc rest :
  (∀ k v, In (k, v) m → ∀ r,
     f (encode_string k ++ r) = Ok (String k, r) ∧ f (encode v ++ r) = Ok (v, r)) →
  decode_entries f (length m) acc
    (flat_map (λ kv, encode_string kv.1 ++ encode kv.2) m ++ rest)
  = Ok (foldl (λ m kv, assoc_insert kv.1 kv.2 m) acc m, rest).
Proof.
  revert acc. induction m as [|[k v] m IH]; intros acc H; simpl; [done|].
  rewrite <- !app_assoc. destruct (H k v (or_introl eq_refl)
    (encode v ++ flat_map (λ kv, encode_string kv.1 ++ encode kv.2) m ++ rest)) as [-> _].
  simpl. destruct (H k v (or_introl eq_refl)
    (flat_map (λ kv, encode_string kv.1 ++ encode kv.2) m ++ rest)) as [_ ->].
  simpl. apply IH. intros; apply H; by right.
Qed.

Lemma decode_list_encode f l rest :
  blen l <= U32_MAX → (∀ v, In v l → ∀ r, f (encode v ++ r) = Ok (v, r)) →
  decode_body f (encode_list encode l ++ rest) = Ok (List l, rest).
Proof.
  intros Hlen H. unfold encode_list. rewrite <- app_assoc, decode_list_header by done.
  unfold decode_list_payload. rewrite blen_app.
  pose proof (flat_map_encode_length l). pose proof (blen_nonneg rest).
  match goal with |- context[?a <? ?b] => destruct (Z.ltb_spec a b) end; [lia|].
  unfold blen at 1. rewrite Nat2Z.id, decode_elements_encode by done. done.
Qed.

Lemma decode_map_encode f m rest :
  blen m <= U32_MAX → NoDup m.*1 →
  (∀ k v, In (k, v) m → ∀ r,
     f (encode_string k ++ r) = Ok (String k, r) ∧ f (encode v ++ r) = Ok (v, r)) →
  decode_body f (encode_map encode m ++ rest) = Ok (Map m, rest).
Proof.
  intros Hlen Hnd H. unfold encode_map. rewrite <- app_assoc, decode_map_header by done.
  unfold decode_map_payload. rewrite blen_app.
  pose proof (flat_map_entries_length m). pose proof (blen_nonneg rest).
  match goal with |- context[?a <? ?b] => destruct (Z.ltb_spec a b) end; [lia|].
  unfold blen at 1. rewrite Nat2Z.id, decode_entries_encode by done. simpl.
  by rewrite (assoc_of_list_app_NoDup []).
Qed.

Lemma decode_structure_encode f tag fields v rest :
  blen fields <= U16_MAX → (∀ x, In x fields → ∀ r, f (encode x ++ r) = Ok (x, r)) →
  decode_structure_tag tag fields = Ok v →
  decode_body f (encode_structure encode tag fields ++ rest) = Ok (v, rest).
Proof.
  intros Hlen H Htag.
  assert (decode_structure_payload f (blen fields) ([tag] ++ flat_map encode fields ++ rest)
          = Ok (v, rest)) as <-.
  { unfold decode_structure_payload. simpl. rewrite blen_app.
    pose proof (flat_map_encode_length fields). pose proof (blen_nonneg rest).
    match goal with |- context[?a <? ?b] => destruct (Z.ltb_spec a b) end; [lia|].
    unfold blen at 1. rewrite Nat2Z.id, decode_elements_encode by done. simpl.
    by rewrite Htag. }
  unfold encode_structure, U8_MAX, U16_MAX in *. pose proof (blen_nonneg fields).
  rewrite <- !app_assoc.
  repeat match goal with |- context[?a <=? ?b] => destruct (Z.leb_spec a b) end;
    [ apply decode_tiny; lia
    | rewrite <- app_assoc; apply sized_put_be; simpl; lia .. ].
Qed.

(** ** Structures decode to the value they were built from *)

Lemma omap_map_id {A B} (f : B → option A) (g : A → B) l :
  (∀ x, In x l → f (g x) = Some x) → omap f (map g l) = l.
Proof.
  induction l as [|x l IH]; intros H; [done|]. change (map g (x :: l)) with (g x :: map g l).
  cbn [omap list_omap]. rewrite H by (by left). f_equal. apply IH. intros; apply H; by right.
Qed.

Lemma decode_unbound_fields r :
  decode_unbound (Structure x72 (unbound_fields r)) = Some r.
Proof. by destruct r as [id ty pr [e|]]. Qed.

(** Well-formedness of a literal list of fields, from that of its parts. *)
Ltac wf_fields := cbn [app opt_string]; rewrite !All_cons, ?All_nil; cbn [wf];
  rewrite ?blen_map, ?(All_map wf String), ?(All_map wf Integer);
  repeat match goal with
  | |- context[All (λ x, wf (String x)) ?l] =>
      change (All (λ x, wf (String x)) l) with (All wf_string l)
  | |- context[All (λ x, wf (Integer x)) ?l] =>
      change (All (λ x, wf (Integer x)) l) with (All wf_int l)
  end; tauto.

Lemma wf_node_structure n :
  wf (Node n) →
  blen (node_fields n) <= U16_MAX ∧ All wf (node_fields n)
  ∧ decode_structure_tag x4e (node_fields n) = Ok (Node n).
Proof.
  cbn [wf]. intros Hwf. destruct n as [id labels props eid]; cbn [node_id node_labels
    node_properties node_element_id] in Hwf.
  assert (omap as_str (map String labels) = labels) as Hlab by by apply omap_map_id.
  unfold node_fields; cbn [node_id node_labels node_properties node_element_id].
  destruct eid as [e|]; cbn [wf_opt] in Hwf; (split; [done|]); (split; [wf_fields|]);
    rewrite <- Hlab at 2; reflexivity.
Qed.

Lemma wf_relationship_structure r :
  wf (Relationship r) →
  blen (relationship_fields r) <= U16_MAX ∧ All wf (relationship_fields r)
  ∧ decode_structure_tag x52 (relationship_fields r) = Ok (Relationship r).
Proof.
  cbn [wf]. destruct r as [id st en ty props e s e'].
  unfold relationship_fields. cbn [rel_id start_node_id end_node_id rel_type rel_properties
    rel_element_id start_element_id end_element_id].
  rewrite <- !not_eq_None_Some. intros Hwf.
  destruct e as [e|], s as [s|], e' as [e'|]; cbn [wf_opt] in Hwf;
    first [ exfalso; naive_solver | (split; [done|]); (split; [wf_fields | reflexivity]) ].
Qed.

Lemma wf_unbound_structure r :
  wf_int (urel_id r) ∧ wf_string (urel_type r) ∧ wf (Map (urel_properties r))
  ∧ wf_opt (urel_element_id r) → wf (Structure x72 (unbound_fields r)).
Proof.
  destruct r as [id ty props e]. unfold unbound_fields.
  cbn [urel_id urel_type urel_properties urel_element_id]. intros Hwf.
  cbn [wf]. destruct e as [e|]; cbn [wf_opt wf] in Hwf;
    (split; [done|]); (split; [wf_fields | reflexivity]).
Qed.

Lemma wf_path_structure p :
  wf (Path p) →
  blen (path_fields p) <= U16_MAX ∧ All wf (path_fields p)
  ∧ decode_structure_tag x50 (path_fields p) = Ok (Path p).
Proof.
  intros (Hn & Hns & Hr & Hrs & Hs & Hss). destruct p as [nodes rels seq].
  cbn [path_nodes path_relationships path_sequence] in *. unfold path_fields.
  cbn [path_nodes path_relationships path_sequence].
  split; [done|]. split.
  - rewrite !All_cons, All_nil. cbn [wf].
    rewrite !blen_map, (All_map wf Node), (All_map wf Integer), All_map.
    split; [split; [done | exact Hns]|].
    split; [split; [done|] | split; [split; [done | exact Hss] | done]].
    eapply All_impl; [apply wf_unbound_structure | exact Hrs].
  - assert (omap as_node (map Node nodes) = nodes) as E1 by by apply omap_map_id.
    assert (omap as_i64 (map Integer seq) = seq) as E2 by by apply omap_map_id.
    assert (omap decode_unbound (map (λ r, Structure x72 (unbound_fields r)) rels) = rels) as E3.
    { apply omap_map_id. intros r _. apply decode_unbound_fields. }
    rewrite <- E1 at 2. rewrite <- E2 at 2. rewrite <- E3 at 2. reflexivity.
Qed.

Lemma wf_structure v tag fields :
  to_structure v = Some (tag, fields) → wf v →
  blen fields <= U16_MAX ∧ All wf fields ∧ decode_structure_tag tag fields = Ok v.
Proof.
  destruct v as [| | | | | | | | |n|r|p|p|p|d|d|d|d|d|d|d]; intros [= <- <-] Hwf.
  1: by apply wf_node_structure.
  1: by apply wf_relationship_structure.
  1: by apply wf_path_structure.
  all: cbn [wf] in Hwf; (split; [done|]); (split; [wf_fields|]); first [by destruct p | by destruct d].
Qed.

(** ** Round trip *)

Lemma decode_body_encode f v rest :
  wf v →
  (∀ x, (height x < height v)%nat → wf x → ∀ r, f (encode x ++ r) = Ok (x, r)) →
  decode_body f (encode v ++ rest) = Ok (v, rest).
Proof.
  intros Hwf IH. rewrite encode_unfold.
  assert (∀ tag fields, height v = sup height fields → blen fields <= U16_MAX →
    All wf fields → decode_structure_tag tag fields = Ok v →
    decode_body f (encode_structure encode tag fields ++ rest) = Ok (v, rest)) as Hst.
  { intros tag fields Hh Hlen Hall Htag. apply decode_structure_encode; [done| |done].
    intros x Hx. pose proof (sup_In height fields x Hx).
    apply IH; [lia | by eapply All_In]. }
  destruct (to_structure v) as [[tag fields]|] eqn:E.
  { rewrite (encode_body_structure _ v tag fields E).
    destruct (wf_structure v tag fields E Hwf) as (? & ? & ?).
    apply Hst; [by eapply height_structure | done..]. }
  destruct v as [|[]|i|x|b|s|l|m|tag fields| | | | | | | | | | | |]; try done; cbn [encode_body].
  - by apply decode_integer.
  - rewrite <- app_assoc. by apply decode_float.
  - by apply decode_bytes.
  - by apply decode_string.
  - destruct Hwf as [Hlen Hall]. apply decode_list_encode; [done|].
    intros x Hx. pose proof (sup_In height l x Hx). simpl in IH.
    apply IH; [lia | by eapply All_In].
  - destruct Hwf as (Hlen & Hnd & Hk & Hv). apply decode_map_encode; [done..|].
    intros k x Hx r. pose proof (sup_In (λ kv, height kv.2) m (k, x) Hx). simpl in *.
    pose proof (All_In _ _ _ Hv Hx). simpl in *.
    assert (wf_string k) as Hwk.
    { eapply (All_In wf_string m.*1); [exact Hk | apply (in_map fst m _ Hx)]. }
    split; [|apply IH; [lia | done]].
    rewrite <- (IH (String k)); [done | simpl; lia | done].
  - destruct Hwf as (? & ? & ?). by apply Hst.
Qed.

Lemma decode_with_depth_encode v rest depth :
  wf v → 0 <= depth → depth + Z.of_nat (height v) <= MAX_PACKSTREAM_DEPTH →
  decode_with_depth (encode v ++ rest) depth = Ok (v, rest).
Proof.
  remember (height v) as h eqn:Hh. revert v rest depth Hh.
  induction (lt_wf h) as [h _ IH]; intros v rest depth -> Hwf Hd Hle.
  rewrite decode_with_depth_unfold.
  destruct (Z.ltb_spec MAX_PACKSTREAM_DEPTH depth); [lia|].
  apply decode_body_encode; [done|]. intros x Hx Hwx r. eapply IH; [exact Hx|done|done|lia|lia].
Qed.

(** C2: decoding inverts encoding: for every well-formed value nested no deeper
    than the decoder's limit, [decode] of its encoding followed by any bytes
    returns the value and leaves exactly those bytes. *)
Theorem decode_encode v rest :
  wf v → Z.of_nat (height v) <= MAX_PACKSTREAM_DEPTH → decode (encode v ++ rest) = Ok (v, rest).
Proof. intros Hwf Hle. by apply decode_with_depth_encode. Qed.

(** ** What a successful decode reads

    [reads g]: success of [g] depends only on the prefix it consumes, and leaves
    the rest whatever the rest is. *)
Definition reads {A} (g : list byte → result NetError (A * list byte)) (least : nat) : Prop :=
  ∀ b a r, g b = Ok (a, r) →
  ∃ p, (least <= length p)%nat ∧ b = p ++ r ∧ ∀ r', g (p ++ r') = Ok (a, r').

Lemma reads_bind {A B} (g : list byte → result NetError (A * list byte))
    (k : A → list byte → result NetError (B * list byte)) n m :
  reads g n → (∀ a, reads (k a) m) → reads (λ b, '(a, b) ← g b; k a b) (n + m).
Proof.
  intros Hg Hk b c r H. destruct (g b) as [[a b1]|] eqn:E; [|done]. simpl in H.
  destruct (Hg _ _ _ E) as (p1 & Hl1 & -> & Hp1).
  destruct (Hk _ _ _ _ H) as (p2 & Hl2 & -> & Hp2).
  exists (p1 ++ p2). rewrite length_app, app_assoc. split; [lia|]. split; [done|].
  intros r'. rewrite <- app_assoc, Hp1. simpl. apply Hp2.
Qed.

Lemma reads_weaken {A} (g : list byte → result NetError (A * list byte)) n m :
  reads g n → (m <= n)%nat → reads g m.
Proof. intros Hg Hle b a r H. destruct (Hg _ _ _ H) as (p & ? & ?). exists p. split; [lia | done]. Qed.

Lemma reads_ret {A} (a : A) : reads (λ b, Ok (a, b)) 0.
Proof. intros b x r [= <- <-]. by exists []. Qed.

Lemma reads_err {A} e n : reads (A := A) (λ _, Err e) n.
Proof. by intros b x r ?. Qed.

(** A guard on the remaining length that what is read afterwards satisfies. *)
Lemma reads_guard {A} (g' g : list byte → result NetError (A * list byte)) len e n :
  (∀ b, g' b = if blen b <? len then Err (e b) else g b) →
  reads g n → len <= Z.of_nat n → reads g' n.
Proof.
  intros Hg' Hg Hle b a r. rewrite Hg'. intros H. destruct (blen b <? len); [done|].
  destruct (Hg _ _ _ H) as (p & Hl & -> & Hp). exists p. split; [done|]. split; [done|].
  intros r'. rewrite Hg', blen_app. pose proof (blen_nonneg r'). unfold blen in *.
  destruct (Z.ltb_spec (Z.of_nat (length p) + Z.of_nat (length r')) len); [lia | apply Hp].
Qed.

(** A reader that takes [len] bytes and looks at nothing else. *)
Lemma reads_split {A} (g : list byte → result NetError (A * list byte))
    (f : list byte → result NetError A) len e :
  (∀ b, g b = if blen b <? len then Err e
              else x ← f (take (Z.to_nat len) b); Ok (x, drop (Z.to_nat len) b)) →
  reads g (Z.to_nat len).
Proof.
  intros Hg b a r. rewrite Hg. destruct (Z.ltb_spec (blen b) len) as [|Hle]; [done|].
  destruct (f _) as [x|] eqn:E; simpl; [|done]. intros [= -> <-]. unfold blen in Hle.
  exists (take (Z.to_nat len) b).
  assert (length (take (Z.to_nat len) b) = Z.to_nat len) as Hl by (rewrite length_take; lia).
  split; [lia|]. split; [by rewrite take_drop|]. intros r'. rewrite Hg, blen_app.
  pose proof (blen_nonneg r'). unfold blen in *. rewrite Hl.
  destruct (Z.ltb_spec (Z.of_nat (Z.to_nat len) + Z.of_nat (length r')) len); [lia|].
  rewrite take_app_length', drop_app_length' by lia. by rewrite E.
Qed.

Lemma reads_get_n n inc : reads (get_n n inc) n.
Proof.
  pose proof (reads_split (get_n n inc) Ok (Z.of_nat n) (ProtocolError inc)) as H.
  rewrite Nat2Z.id in H. by apply H.
Qed.

Lemma reads_string len : reads (decode_string_payload len) 0.
Proof.
  eapply reads_weaken; [|apply Nat.le_0_l].
  apply (reads_split _ (λ l, match from_utf8 l with
    | Some s => Ok (String s) | None => perr "Invalid UTF-8 string: " end) len
    (ProtocolError ("Unexpected EOF reading String of length " +:+ num len))).
  intros b. unfold decode_string_payload. case_match; [done|]. by destruct (from_utf8 _).
Qed.

Lemma reads_bytes len : reads (decode_bytes_payload len) 0.
Proof.
  eapply reads_weaken; [|apply Nat.le_0_l].
  by apply (reads_split _ (λ l, Ok (Bytes l)) len
    (ProtocolError ("Unexpected EOF reading byte buffer of length " +:+ num len))).
Qed.

Section reads_body.
Context (f : list byte → result NetError (BoltValue * list byte)) (Hf : reads f 1).

Lemma reads_elements n : reads (decode_elements f n) n.
Proof.
  induction n as [|n IH]; simpl; [apply reads_ret|].
  eapply reads_weaken; [apply (reads_bind f _ 1 (n + 0)); [done|]; intros v | simpl; lia].
  apply (reads_bind (decode_elements f n) (λ vs b, Ok (v :: vs, b))); [exact IH|].
  intros vs. apply reads_ret.
Qed.

Lemma reads_entries n acc : reads (decode_entries f n acc) (2 * n).
Proof.
  revert acc. induction n as [|n IH]; intros acc; [apply reads_ret|]. cbn [decode_entries].
  eapply reads_weaken; [apply (reads_bind f _ 1 (1 + 2 * n)); [done|]; intros k | simpl; lia].
  destruct k; try apply reads_err.
  apply (reads_bind f (λ v b, decode_entries f n (assoc_insert s v acc) b)); [done|].
  intros v. apply IH.
Qed.

Lemma reads_list len : reads (decode_list_payload f len) 0.
Proof.
  eapply reads_weaken; [|apply Nat.le_0_l].
  eapply (reads_guard _ (λ b, '(l, b) ← decode_elements f (Z.to_nat len) b; Ok (List l, b))
           len _ (Z.to_nat len + 0)); [intros b; reflexivity| |lia].
  apply (reads_bind _ (λ l b, Ok (List l, b))); [apply reads_elements|].
  intros l. apply reads_ret.
Qed.

Lemma reads_map len : reads (decode_map_payload f len) 0.
Proof.
  eapply reads_weaken; [|apply Nat.le_0_l].
  eapply (reads_guard _ (λ b, '(m, b) ← decode_entries f (Z.to_nat len) [] b; Ok (Map m, b))
           (Z.min (len * 2) U64_MAX) _ (2 * Z.to_nat len + 0)); [intros b; reflexivity| |lia].
  apply (reads_bind _ (λ m b, Ok (Map m, b))); [apply reads_entries|].
  intros l. apply reads_ret.
Qed.

Lemma reads_structure len : reads (decode_structure_payload f len) 0.
Proof.
  intros [|tag b] v r H; [done|].
  assert (reads (λ b, decode_structure_payload f len (tag :: b)) 0) as Hr.
  { eapply reads_weaken; [|apply Nat.le_0_l].
    eapply (reads_guard _ (λ b, '(fields, b) ← decode_elements f (Z.to_nat len) b;
              v ← decode_structure_tag tag fields; Ok (v, b)) len _ (Z.to_nat len + 0));
      [intros c; reflexivity| |lia].
    apply (reads_bind _ (λ fields b, v ← decode_structure_tag tag fields; Ok (v, b)));
      [apply reads_elements|].
    intros fields. destruct (decode_structure_tag tag fields); [apply reads_ret | apply reads_err]. }
  destruct (Hr b v r H) as (p & _ & -> & Hp). exists (tag :: p).
  split; [lia|]. split; [done|]. exact Hp.
Qed.

Lemma reads_sized {A} n inc (payload : Z → list byte → result NetError (A * list byte)) :
  (∀ len, reads (payload len) 0) → reads (sized n inc payload) 0.
Proof.
  intros H. eapply reads_weaken; [|apply Nat.le_0_l].
  apply (reads_bind (get_n n inc) (λ l b, payload (get_be l) b)); [apply reads_get_n|].
  intros l. apply H.
Qed.

Lemma reads_int n inc : reads (int_payload n inc) 0.
Proof.
  eapply reads_weaken; [|apply Nat.le_0_l].
  apply (reads_bind (get_n n inc)
    (λ l b, Ok (Integer (as_signed (8 * Z.of_nat n) (get_be l)), b))); [apply reads_get_n|].
  intros l. apply reads_ret.
Qed.
#[local] Hint Resolve reads_ret reads_err reads_int reads_string reads_bytes reads_list reads_map
  reads_structure reads_sized : reads.

Lemma reads_marker marker : reads (decode_marker f marker) 0.
Proof.
  destruct marker; cbn [decode_marker];
    try first [ apply reads_err | apply reads_ret | apply reads_int
              | apply reads_sized; by auto with reads ].
  eapply reads_weaken; [|apply Nat.le_0_l].
  apply (reads_bind (get_n 8 _) (λ l b, Ok (Float (from_bits (get_be l)), b)));
    [apply reads_get_n|]. intros l. apply reads_ret.
Qed.

Lemma reads_decode_body : reads (decode_body f) 1.
Proof.
  intros [|marker b] v r H; [done|].
  assert (reads (λ b, decode_body f (marker :: b)) 0) as Hr.
  { unfold decode_body. repeat case_match; auto with reads. apply reads_marker. }
  destruct (Hr b v r H) as (p & _ & -> & Hp). exists (marker :: p). simpl.
  split; [lia|]. split; [done|]. exact Hp.
Qed.
End reads_body.

Lemma reads_decode_with_depth depth : reads (λ b, decode_with_depth b depth) 1.
Proof.
  remember (Z.to_nat (MAX_PACKSTREAM_DEPTH + 1 - depth)) as n eqn:Hn. revert depth Hn.
  induction n as [|n IH]; intros depth Hn b v r; rewrite decode_with_depth_unfold;
    unfold MAX_PACKSTREAM_DEPTH in *; destruct (Z.ltb_spec 64 depth); try done; try lia.
  intros Hdec.
  destruct (reads_decode_body _ (IH (depth + 1) ltac:(lia)) _ _ _ Hdec) as (p & ? & -> & Hp).
  exists p. split; [done|]. split; [done|]. intros r'. rewrite decode_with_depth_unfold.
  unfold MAX_PACKSTREAM_DEPTH. by destruct (Z.ltb_spec 64 depth); [lia|].
Qed.

(** A successful decode is self-delimiting: it reads a nonempty prefix, and
    would have returned the same value and left any other bytes that followed. *)
Theorem decode_self_delimiting buf v rest :
  decode buf = Ok (v, rest) →
  ∃ p, p ≠ [] ∧ buf = p ++ rest ∧ ∀ more, decode (p ++ more) = Ok (v, more).
Proof.
  intros H. destruct (reads_decode_with_depth 0 _ _ _ H) as (p & Hl & -> & Hp).
  exists p. split; [by destruct p; [simpl in Hl; lia|]|]. split; [done | exact Hp].
Qed.

(** ** Depth of what is decoded *)

Lemma sup_omap {A} (f : BoltValue → option A) (h : A → nat) l :
  (∀ v a, f v = Some a → (h a <= height v)%nat) → (sup h (omap f l) <= sup height l)%nat.
Proof.
  intros Hf. induction l as [|x l IH]; [done|].
  change (omap f (x :: l)) with (match f x with Some y => y :: omap f l | None => omap f l end).
  change (sup height (x :: l)) with (Nat.max (S (height x)) (sup height l)).
  destruct (f x) as [a|] eqn:E; [|lia]. specialize (Hf x a E).
  change (sup h (a :: omap f l)) with (Nat.max (S (h a)) (sup h (omap f l))). lia.
Qed.

Lemma height_fields_list {A} (f : BoltValue → option A) (h : A → nat) fields i n :
  (sup height fields <= n)%nat → (0 < n)%nat →
  (∀ v a, f v = Some a → (h a <= height v)%nat) →
  (S (sup h (list_field f (fields !! i))) <= n)%nat.
Proof.
  intros Hs Hn Hf. destruct (fields !! i) as [v|] eqn:E; [|simpl; lia].
  apply list_elem_of_lookup_2, list_elem_of_In in E as Hin.
  pose proof (sup_In height fields v Hin) as Hv. destruct v; simpl in *; try lia.
  pose proof (sup_omap f h l Hf). unfold sup in *. lia.
Qed.

Lemma height_fields_map fields i n :
  (sup height fields <= n)%nat → (0 < n)%nat →
  (S (sup (λ kv, height kv.2) (map_field (fields !! i))) <= n)%nat.
Proof.
  intros Hs Hn. destruct (fields !! i) as [v|] eqn:E; [|simpl; lia].
  apply list_elem_of_lookup_2, list_elem_of_In in E as Hin.
  pose proof (sup_In height fields v Hin) as Hv. destruct v; simpl in *; lia.
Qed.

Lemma decode_unbound_height v r :
  decode_unbound v = Some r → (S (height (Map (urel_properties r))) <= height v)%nat.
Proof.
  destruct v as [| | | | | | | |tag fields| | | | | | | | | | | |]; try done.
  destruct tag; try done. unfold decode_unbound.
  destruct (Z.leb_spec 3 (blen fields)); [|done]. intros [= <-].
  apply height_fields_map; [done | apply sup_nonempty; lia].
Qed.

(** The graph and temporal values are no taller than the structure they came in. *)
Lemma height_structure_tag tag fields v :
  decode_structure_tag tag fields = Ok v → (height v <= sup height fields)%nat.
Proof.
  intros H. destruct (Z.ltb_spec (blen fields) 1) as [Hlt|Hlt].
  { destruct fields; [|unfold blen in Hlt; simpl in Hlt; lia].
    by destruct tag; injection H as <-. }
  pose proof (sup_nonempty height fields Hlt) as Hne.
  assert (∀ i, S (sup (λ kv, height kv.2) (map_field (fields !! i))) <= sup height fields)%nat
    as Hmap by (intros; by apply height_fields_map).
  destruct tag; try (injection H as <-; simpl; lia);
    cbn [decode_structure_tag] in H;
    match type of H with ?d _ = _ => unfold d in H | ?d _ _ = _ => unfold d in H end;
    (case_match; [by injection H as <-|]);
    try (repeat case_match; injection H as <-; simpl; lia).
  - destruct (fields !! 0%nat) as [[]|]; injection H as <-; simpl; try lia.
    pose proof (Hmap 2%nat).
    pose proof (height_fields_list as_str (λ _, 0%nat) fields 1 _ (le_n _) Hne
      (λ _ _ _, Nat.le_0_l _)). simpl in *. lia.
  - injection H as <-.
    pose proof (height_fields_list as_node (λ n, height (Node n)) fields 0 _ (le_n _) Hne
      ltac:(intros [] ? [= <-]; done)) as Hp0.
    pose proof (height_fields_list decode_unbound (λ r, S (height (Map (urel_properties r))))
      fields 1 _ (le_n _) Hne decode_unbound_height) as Hp1.
    pose proof (height_fields_list as_i64 (λ _, 0%nat) fields 2 _ (le_n _) Hne
      (λ _ _ _, Nat.le_0_l _)) as Hp2.
    cbn [height path_nodes path_relationships path_sequence] in *. lia.
  - repeat case_match; injection H as <-; simpl; try lia; apply Hmap.
Qed.

(** The values below a decoded one were decoded one level deeper. *)
Section decode_height.
Context (f : list byte → result NetError (BoltValue * list byte)) (n : nat).
Hypothesis Hf : ∀ b v r, f b = Ok (v, r) → (height v < n)%nat.

Lemma decode_elements_height k b l r :
  decode_elements f k b = Ok (l, r) → (sup height l <= n)%nat.
Proof.
  revert b l r. induction k as [|k IH]; intros b l r; simpl; [intros [= <- <-]; simpl; lia|].
  destruct (f b) as [[v b1]|] eqn:E1; simpl; [|done].
  destruct (decode_elements f k b1) as [[vs b2]|] eqn:E2; simpl; [|done].
  intros [= <- <-]. apply Hf in E1. apply IH in E2. simpl. unfold sup in *. lia.
Qed.

Lemma sup_insert (k : string) v m :
  (height v < n)%nat → (sup (λ kv, height kv.2) m <= n)%nat →
  (sup (λ kv, height kv.2) (assoc_insert k v m) <= n)%nat.
Proof.
  intros Hv. induction m as [|[k' v'] m IH]; simpl; [lia|].
  case_decide; simpl; unfold sup in *; lia.
Qed.

Lemma decode_entries_height k m b m' r :
  decode_entries f k m b = Ok (m', r) → (sup (λ kv, height kv.2) m <= n)%nat →
  (sup (λ kv, height kv.2) m' <= n)%nat.
Proof.
  revert m b. induction k as [|k IH]; intros m b; simpl; [by intros [= <- <-]|].
  destruct (f b) as [[kv b1]|] eqn:E1; simpl; [|done]. destruct kv; try done.
  destruct (f b1) as [[v b2]|] eqn:E2; simpl; [|done].
  intros H Hm. eapply IH; [exact H|]. apply sup_insert; [by eapply Hf | done].
Qed.

Lemma decode_payload_height len b v r :
  decode_list_payload f len b = Ok (v, r) ∨ decode_map_payload f len b = Ok (v, r)
  ∨ decode_structure_payload f len b = Ok (v, r) → (height v <= n)%nat.
Proof.
  intros [H|[H|H]].
  - unfold decode_list_payload in H. case_match; [done|].
    destruct (decode_elements _ _ _) as [[l b1]|] eqn:E; [|done]. injection H as <- <-.
    by eapply decode_elements_height.
  - unfold decode_map_payload in H. case_match; [done|].
    destruct (decode_entries _ _ _ _) as [[l b1]|] eqn:E; [|done]. injection H as <- <-.
    eapply decode_entries_height; [exact E | simpl; lia].
  - unfold decode_structure_payload in H. destruct b as [|tag b]; [done|]. case_match; [done|].
    destruct (decode_elements _ _ _) as [[l b1]|] eqn:E; [|done]. simpl in H.
    destruct (decode_structure_tag tag l) as [v'|] eqn:Et; [|done]. injection H as <- <-.
    apply height_structure_tag in Et. apply decode_elements_height in E. lia.
Qed.

Lemma decode_leaf_height len b v r :
  decode_string_payload len b = Ok (v, r) ∨ decode_bytes_payload len b = Ok (v, r) →
  (height v <= n)%nat.
Proof.
  intros [H|H]; unfold decode_string_payload, decode_bytes_payload in H;
    repeat case_match; try done; injection H as <- <-; simpl; lia.
Qed.

Lemma sized_inv {A} k inc (payload : Z → list byte → result NetError A) b a :
  sized k inc payload b = Ok a → ∃ len b', payload len b' = Ok a.
Proof. unfold sized. destruct (get_n k inc b) as [[l b']|]; simpl; [eauto | done]. Qed.

Lemma decode_body_height b v r : decode_body f b = Ok (v, r) → (height v <= n)%nat.
Proof.
  destruct b as [|marker b]; [done|]. unfold decode_body.
  repeat (case_match; [first [ by intros [= <- <-]; simpl; lia
    | intros Hdec; eapply decode_leaf_height; by eauto
    | intros Hdec; eapply decode_payload_height; by eauto ]|]).
  intros Hdec. destruct marker; try done; cbn [decode_marker] in Hdec;
    try (injection Hdec as <- <-; simpl; lia);
    try (apply sized_inv in Hdec as (len & b' & Hdec);
         first [ eapply decode_leaf_height; by eauto | eapply decode_payload_height; by eauto ]);
    unfold int_payload in Hdec; destruct (get_n _ _ b) as [[l b']|]; try done;
    injection Hdec as <- <-; simpl; lia.
Qed.
End decode_height.

Lemma decode_with_depth_height k depth buf v rest :
  k = Z.to_nat (MAX_PACKSTREAM_DEPTH + 1 - depth) → 0 <= depth →
  decode_with_depth buf depth = Ok (v, rest) → (height v < k)%nat.
Proof.
  unfold MAX_PACKSTREAM_DEPTH. revert depth buf v rest.
  induction k as [|k IH]; intros depth b v r Hk Hd; rewrite decode_with_depth_unfold;
    unfold MAX_PACKSTREAM_DEPTH; (destruct (Z.ltb_spec 64 depth); [done|]); [lia|].
  intros Hdec. eapply (decode_body_height _ k) in Hdec; [lia|].
  intros b' v' r' Hdec'. eapply (IH (depth + 1)); [lia | lia | done].
Qed.

(** No decoded value is nested deeper than the limit, so the recursion the
    decoder does on untrusted bytes is bounded, and its result can be encoded
    and decoded again. *)
Theorem decode_depth_bound buf v rest :
  decode buf = Ok (v, rest) → Z.of_nat (height v) <= MAX_PACKSTREAM_DEPTH.
Proof.
  intros Hdec. eapply (decode_with_depth_height _ 0) in Hdec; [|reflexivity|lia].
  unfold MAX_PACKSTREAM_DEPTH in *. lia.
Qed.

(** [n] nested one-element lists around [buf]. *)
Lemma decode_nested n depth buf :
  buf ≠ [] → MAX_PACKSTREAM_DEPTH < depth + Z.of_nat n →
  decode_with_depth (replicate n x91 ++ buf) depth = depth_error.
Proof.
  intros Hb. revert depth. induction n as [|n IH]; intros depth Hd; rewrite decode_with_depth_unfold;
    destruct (Z.ltb_spec MAX_PACKSTREAM_DEPTH depth); try done; [lia|].
  change (replicate (S n) x91 ++ buf) with (put_u8 (Z.lor 144 1) ++ replicate n x91 ++ buf).
  pose proof (decode_tiny (λ b, decode_with_depth b (depth + 1)) (replicate n x91 ++ buf) 1)
    as (_ & -> & _); [lia|].
  unfold decode_list_payload. rewrite blen_app. unfold blen. rewrite length_replicate.
  destruct buf as [|c buf]; [done|]. simpl length.
  destruct (Z.ltb_spec (Z.of_nat n + Z.of_nat (S (length buf))) 1); [lia|].
  change (Z.to_nat 1) with 1%nat. cbn [decode_elements].
  rewrite IH by lia. done.
Qed.

(** Nesting beyond the limit is refused: more than [MAX_PACKSTREAM_DEPTH] nested
    list markers give the depth error whatever follows them. *)
Theorem decode_too_deep n buf :
  buf ≠ [] → MAX_PACKSTREAM_DEPTH < Z.of_nat n →
  decode (replicate n x91 ++ buf) = depth_error.
Proof. intros. by apply decode_nested. Qed.


(** [v] inside [n] lists. *)
Definition nested (n : nat) (v : BoltValue) : BoltValue := Nat.iter n (λ v, List [v]) v.

Lemma encode_nested n v : encode (nested n v) = replicate n x91 ++ encode v.
Proof.
  induction n as [|n IH]; [done|]. change (nested (S n) v) with (List [nested n v]).
  change (encode (List [nested n v])) with (x91 :: encode (nested n v) ++ []). by rewrite app_nil_r, IH.
Qed.

Lemma height_nested n v : height (nested n v) = (n + height v)%nat.
Proof.
  induction n as [|n IH]; [done|]. change (height (nested (S n) v)) with (Nat.max (S (height (nested n v))) 0).
  rewrite IH. lia.
Qed.

Lemma wf_nested n v : wf v → wf (nested n v).
Proof. intros Hv. induction n as [|n IH]; [done|]. by repeat split. Qed.

(** C34: Nesting is bounded, sharply: no decoded value is nested deeper than the limit, more list
    markers than the limit are refused whatever follows them, and up to the limit every number
    of lists around a well-formed scalar decodes. *)
Theorem nesting_is_bounded buf :
  (∀ v rest, decode buf = Ok (v, rest) → Z.of_nat (height v) <= MAX_PACKSTREAM_DEPTH) ∧
  (buf ≠ [] → ∀ n, MAX_PACKSTREAM_DEPTH < Z.of_nat n → decode (replicate n x91 ++ buf) = depth_error) ∧
  (∀ v n, wf v → height v = 0%nat → Z.of_nat n <= MAX_PACKSTREAM_DEPTH →
     decode (replicate n x91 ++ encode v ++ buf) = Ok (nested n v, buf)).
Proof.
  split; [intros v rest; by apply decode_depth_bound|]. split; [intros Hb n; by apply decode_too_deep|].
  intros v n Hv Hh Hn. rewrite app_assoc, <- encode_nested. unfold decode.
  apply decode_with_depth_encode; [by apply wf_nested|lia|]. rewrite height_nested. lia.
Qed.

(** ** Structures of more than 65535 fields *)

(** A structure's length is cut to 16 bits: one of 65536 fields is written
    with a field count of zero, and decodes as an empty structure followed by
    the encodings of its fields. *)
Theorem encode_structure_truncates tag fields rest :
  blen fields = 65536 → decode_structure_tag tag [] = structure tag [] →
  decode (encode (Structure tag fields) ++ rest)
  = Ok (Structure tag [], flat_map encode fields ++ rest).
Proof.
  intros Hlen Htag. rewrite encode_unfold. cbn [encode_body]. unfold encode_structure.
  rewrite Hlen. change (put_be 2 65536) with (put_be 2 0). cbn [Z.leb Z.compare Pos.compare].
  unfold decode. rewrite decode_with_depth_unfold. cbn [Z.ltb Z.compare MAX_PACKSTREAM_DEPTH].
  set (f := λ b, decode_with_depth b (0 + 1)).
  assert (∀ r, decode_body f (put_u8 221 ++ put_be 2 0 ++ r) = decode_structure_payload f 0 r) as E.
  { intros r. by apply (sized_put_be 2 "Incomplete Struct16 length" (decode_structure_payload f)). }
  etransitivity; [|etransitivity; [apply (E ([tag] ++ flat_map encode fields ++ rest))|]].
  { by rewrite <- !app_assoc. }
  unfold decode_structure_payload. simpl.
  destruct (Z.ltb_spec (blen (flat_map encode fields ++ rest)) 0) as [Hneg|_];
    [pose proof (blen_nonneg (flat_map encode fields ++ rest)); lia|].
  by rewrite Htag.
Qed.

(** ** Witnesses *)

Definition demo_value : BoltValue :=
  List [Integer (-200); String "voyager"; Map [("k", Boolean true)];
        Node (mkNode 7 ["Person"; "Dev"] [("age", Integer 41)] (Some "4:x:7"));
        Date (mkDate 19000)].

Lemma demo_value_wf : wf demo_value.
Proof.
  unfold demo_value, wf_int, wf_string, wf_opt, I64_MIN, I64_MAX, U32_MAX. cbn -[str_ok].
  unfold wf_int, wf_string, I64_MIN, I64_MAX, U32_MAX.
  repeat match goal with |- _ ∧ _ => split end;
    first [ done | lia | apply NoDup_singleton | by vm_compute ].
Qed.

Lemma decode_encode_witness : decode (encode demo_value ++ [x00; xff]) = Ok (demo_value, [x00; xff]).
Proof. apply decode_encode; [apply demo_value_wf | by vm_compute]. Defined.

Lemma decode_self_delimiting_witness :
  ∃ p, p ≠ [] ∧ [x81; x61; x05] = p ++ [x05] ∧ ∀ more, decode (p ++ more) = Ok (String "a", more).
Proof. apply decode_self_delimiting. by vm_compute. Defined.

Lemma nesting_is_bounded_witness :
  Z.of_nat (height (List [List [Null]])) <= MAX_PACKSTREAM_DEPTH ∧
  decode (replicate 65 x91 ++ [x91; x91; xc0]) = depth_error ∧
  decode (replicate 64 x91 ++ encode Null ++ [x91; x91; xc0]) = Ok (nested 64 Null, [x91; x91; xc0]).
Proof.
  destruct (nesting_is_bounded [x91; x91; xc0]) as (Hd & Hr & Ha). split; [|split].
  - apply (Hd (List [List [Null]]) []). by vm_compute.
  - apply (Hr ltac:(done) 65%nat). unfold MAX_PACKSTREAM_DEPTH. lia.
  - apply (Ha Null 64%nat); [done|done|]. unfold MAX_PACKSTREAM_DEPTH. lia.
Defined.

Lemma decode_depth_bound_witness : Z.of_nat (height (List [List [Null]])) <= MAX_PACKSTREAM_DEPTH.
Proof. apply (decode_depth_bound [x91; x91; xc0] (List [List [Null]]) []). by vm_compute. Defined.

Lemma decode_too_deep_witness : decode (replicate 65 x91 ++ [xc0]) = depth_error.
Proof. apply decode_too_deep; [done | unfold MAX_PACKSTREAM_DEPTH; lia]. Defined.

Lemma encode_structure_truncates_witness :
  decode (encode (Structure x01 (replicate (Z.to_nat 65536) Null)) ++ [])
  = Ok (Structure x01 [], flat_map encode (replicate (Z.to_nat 65536) Null) ++ []).
Proof.
  apply encode_structure_truncates; [|done].
  unfold blen. rewrite length_replicate. apply Z2Nat.id. lia.
Defined.
