(* ===== verification/BoltStream.v ===== *)
(** * Bolt chunk framing ([voyager-net/src/bolt/stream.rs])

    A message is sent as chunks of at most 65535 bytes, each behind its length in
    two bytes, and ends with a chunk of length zero.  The socket is the list of
    what its successive reads return, as in [RespStream].  The read loops take
    fuel, one unit per chunk; a chunk takes two bytes of the stream at least, so
    the bytes of the stream are enough ([frame_total]). *)
From S2P Require Import Prelude Bytes F64 Errors BoltValue PackStream.

Open Scope Z_scope.
Open Scope list_scope.

Definition MAX_CHUNK_SIZE : Z := 65535.
Definition DEFAULT_CHUNK_SIZE : Z := MAX_CHUNK_SIZE.
Definition MAX_BOLT_MESSAGE_SIZE : Z := 128 * 1024 * 1024.

(** ** Writing *)

Fixpoint encode_chunks_fuel (fuel : nat) (payload : list byte) : list byte :=
  match fuel, payload with
  | S fuel, _ :: _ =>
      let chunk_len := Z.to_nat (Z.min (blen payload) MAX_CHUNK_SIZE) in
      put_be 2 (Z.of_nat chunk_len) ++ take chunk_len payload
        ++ encode_chunks_fuel fuel (drop chunk_len payload)
  | _, _ => put_be 2 0
  end.
Definition encode_chunks (payload : list byte) : list byte :=
  encode_chunks_fuel (length payload) payload.

(** ** Reading *)

Notation socket := (list (option (list byte))).

Definition conn_failed {A} (msg : string) : result NetError A := Err (ConnectionFailed msg).

Definition too_big {A} : result NetError A :=
  perr ("Bolt message frame exceeded maximum allowed size of " +:+ num MAX_BOLT_MESSAGE_SIZE
        +:+ " bytes").

(** [while read_buf.len() < n { reader.read_buf(read_buf) }], with the texts of an
    I/O error and of the end of the stream. *)
Fixpoint fill (io_error eof : string) (n : Z) (reads : socket) (read_buf : list byte) :
    result NetError (list byte * socket) :=
  if n <=? blen read_buf then Ok (read_buf, reads)
  else match reads with
       | [] | Some [] :: _ => conn_failed eof
       | None :: _ => conn_failed io_error
       | Some chunk :: reads => fill io_error eof n reads (read_buf ++ chunk)
       end.

(** The loop over chunks: the message, and the buffer and socket after it. *)
Fixpoint frame_loop (fuel : nat) (reads : socket) (read_buf message_buf : list byte) :
    option (result NetError (list byte * list byte * socket)) :=
  match fuel with
  | O => None
  | S fuel =>
      match fill "Failed to read chunk header: "
              "Connection closed by peer while waiting for chunk header" 2 reads read_buf with
      | Err e => Some (Err e)
      | Ok (read_buf, reads) =>
          let chunk_size := get_be (take 2 read_buf) in
          let read_buf := drop 2 read_buf in
          if chunk_size =? 0 then Some (Ok (message_buf, read_buf, reads))
          else if MAX_BOLT_MESSAGE_SIZE <? blen message_buf + chunk_size then Some too_big
          else match fill "Failed to read chunk payload: "
                       "Connection closed by peer mid-chunk payload" chunk_size reads read_buf with
               | Err e => Some (Err e)
               | Ok (read_buf, reads) =>
                   let k := Z.to_nat chunk_size in
                   frame_loop fuel reads (drop k read_buf) (message_buf ++ take k read_buf)
               end
      end
  end.

(** The bytes still to come. *)
Definition socket_bytes (reads : socket) : list byte := flat_map (default []) reads.

Definition stream_length (reads : socket) (read_buf : list byte) : nat :=
  length read_buf + length (socket_bytes reads).

Definition read_message_frame_buffered (reads : socket) (read_buf : list byte) :
    option (result NetError (list byte * list byte * socket)) :=
  frame_loop (S (stream_length reads read_buf)) reads read_buf [].

(** [reader.read_exact(buf)] for a buffer of [n] bytes: a read may return less
    than asked, never more; what is not asked for stays on the socket. *)
Fixpoint read_exact (io_error : string) (n : nat) (reads : socket) :
    result NetError (list byte * socket) :=
  match n, reads with
  | O, _ => Ok ([], reads)
  | _, [] | _, Some [] :: _ | _, None :: _ => conn_failed io_error
  | _, Some chunk :: reads =>
      if decide (length chunk <= n)%nat then
        '(rest, reads) ← read_exact io_error (n - length chunk) reads;
        Ok (chunk ++ rest, reads)
      else Ok (take n chunk, Some (drop n chunk) :: reads)
  end.

Fixpoint exact_loop (fuel : nat) (reads : socket) (message_buf : list byte) :
    option (result NetError (list byte * socket)) :=
  match fuel with
  | O => None
  | S fuel =>
      match read_exact "Failed to read chunk header: " 2 reads with
      | Err e => Some (Err e)
      | Ok (header, reads) =>
          let chunk_size := get_be header in
          if chunk_size =? 0 then Some (Ok (message_buf, reads))
          else if MAX_BOLT_MESSAGE_SIZE <? blen message_buf + chunk_size then Some too_big
          else match read_exact "Failed to read chunk payload: " (Z.to_nat chunk_size) reads with
               | Err e => Some (Err e)
               | Ok (payload, reads) => exact_loop fuel reads (message_buf ++ payload)
               end
      end
  end.

Definition read_message_frame (reads : socket) : option (result NetError (list byte * socket)) :=
  exact_loop (S (stream_length reads [])) reads [].

(** ** The contract: framing of a byte stream *)

Inductive outcome := Done (message rest : list byte) | Short | TooBig.

Fixpoint deframe (fuel : nat) (s message : list byte) : option outcome :=
  match fuel with
  | O => None
  | S fuel =>
      if blen s <? 2 then Some Short
      else
        let n := get_be (take 2 s) in
        let s := drop 2 s in
        if n =? 0 then Some (Done message s)
        else if MAX_BOLT_MESSAGE_SIZE <? blen message + n then Some TooBig
        else if blen s <? n then Some Short
        else deframe fuel (drop (Z.to_nat n) s) (message ++ take (Z.to_nat n) s)
  end.

Lemma blen_drop {A} (k : nat) (l : list A) : blen (drop k l) <= blen l.
Proof. unfold blen. rewrite length_drop. lia. Qed.

Lemma deframe_total fuel s message : (length s < fuel)%nat → ∃ o, deframe fuel s message = Some o.
Proof.
  revert s message. induction fuel as [|fuel IH]; intros s message Hl; [lia|]. simpl.
  destruct (Z.ltb_spec (blen s) 2); [eauto|].
  destruct (get_be (take 2 s) =? 0); [eauto|].
  destruct (MAX_BOLT_MESSAGE_SIZE <? _); [eauto|].
  destruct (Z.ltb_spec (blen (drop 2 s)) (get_be (take 2 s))); [eauto|].
  apply IH. unfold blen in *. rewrite length_drop in *. rewrite length_drop. lia.
Qed.

Lemma deframe_bound fuel s message m rest :
  deframe fuel s message = Some (Done m rest) → blen message <= MAX_BOLT_MESSAGE_SIZE →
  blen m <= MAX_BOLT_MESSAGE_SIZE.
Proof.
  revert s message. induction fuel as [|fuel IH]; intros s message H Hm; [done|]. simpl in H.
  destruct (blen s <? 2); [done|]. destruct (get_be (take 2 s) =? 0); [by injection H as <- <-|].
  destruct (Z.ltb_spec MAX_BOLT_MESSAGE_SIZE (blen message + get_be (take 2 s))) as [|Hle]; [done|].
  destruct (Z.ltb_spec (blen (drop 2 s)) (get_be (take 2 s))) as [|Hn]; [done|].
  eapply IH; [exact H|]. pose proof (get_be_range (take 2 s)).
  rewrite blen_app. unfold blen at 2. rewrite length_take_le; [lia|]. unfold blen in Hn. lia.
Qed.

(** The chunks of a payload give the payload back and consume nothing more. *)
Lemma deframe_encode fuel k payload message rest :
  (length payload <= k)%nat → (length payload < fuel)%nat →
  blen message + blen payload <= MAX_BOLT_MESSAGE_SIZE →
  deframe fuel (encode_chunks_fuel k payload ++ rest) message = Some (Done (message ++ payload) rest).
Proof.
  revert k payload message. induction fuel as [|fuel IH]; intros k payload message Hk Hf Hm; [lia|].
  destruct payload as [|b payload].
  { assert (encode_chunks_fuel k [] = put_be 2 0) as -> by (by destruct k).
    rewrite app_nil_r. simpl. unfold blen at 1. simpl.
    destruct (Z.ltb_spec (Z.of_nat (S (S (length rest)))) 2); [lia|]. done. }
  destruct k as [|k]; [simpl in Hk; lia|]. set (p := b :: payload) in *.
  assert (encode_chunks_fuel (S k) p = let n := Z.to_nat (Z.min (blen p) MAX_CHUNK_SIZE) in
    put_be 2 (Z.of_nat n) ++ take n p ++ encode_chunks_fuel k (drop n p)) as -> by done.
  cbv zeta. set (n := Z.to_nat (Z.min (blen p) MAX_CHUNK_SIZE)).
  assert (Hn : (1 <= n <= length p)%nat ∧ Z.of_nat n <= 65535).
  { unfold n, MAX_CHUNK_SIZE, blen. subst p. simpl length. lia. }
  pose proof (put_be_length 2 (Z.of_nat n)) as H2.
  assert (Ht : take 2 (put_be 2 (Z.of_nat n) ++ take n p ++ encode_chunks_fuel k (drop n p) ++ rest)
    = put_be 2 (Z.of_nat n)) by (by rewrite <- H2 at 1; rewrite take_app_length).
  assert (Hd : drop 2 (put_be 2 (Z.of_nat n) ++ take n p ++ encode_chunks_fuel k (drop n p) ++ rest)
    = take n p ++ encode_chunks_fuel k (drop n p) ++ rest) by (by rewrite <- H2 at 1; rewrite drop_app_length).
  assert (Hg : get_be (put_be 2 (Z.of_nat n)) = Z.of_nat n).
  { rewrite get_be_put_be. apply Z.mod_small. change (2 ^ (8 * Z.of_nat 2)) with 65536. lia. }
  rewrite <- !app_assoc. cbn [deframe]. rewrite Ht, Hd, Hg.
  destruct (Z.ltb_spec (blen (put_be 2 (Z.of_nat n) ++ take n p ++ encode_chunks_fuel k (drop n p) ++ rest)) 2)
    as [Hs|_]; [unfold blen in Hs; rewrite length_app, H2 in Hs; lia|].
  destruct (Z.eqb_spec (Z.of_nat n) 0); [lia|].
  assert (Hnp : Z.of_nat n <= blen p) by (unfold blen; lia).
  destruct (Z.ltb_spec MAX_BOLT_MESSAGE_SIZE (blen message + Z.of_nat n)); [lia|].
  assert (Hlt : length (take n p) = n) by (rewrite length_take; lia).
  destruct (Z.ltb_spec (blen (take n p ++ encode_chunks_fuel k (drop n p) ++ rest)) (Z.of_nat n))
    as [Hs|_]; [unfold blen in Hs; rewrite length_app, Hlt in Hs; lia|].
  rewrite Nat2Z.id.
  rewrite <- Hlt at 1. rewrite drop_app_length. rewrite <- Hlt at 2. rewrite take_app_length.
  rewrite IH.
  - by rewrite <- app_assoc, take_drop.
  - rewrite length_drop. lia.
  - rewrite length_drop. lia.
  - unfold blen in *. rewrite length_app, length_take, length_drop. lia.
Qed.

(** ** The readers implement the contract

    On a socket whose reads do not fail and return at least one byte until the
    end of the stream, what the readers do depends on the bytes alone. *)

Definition nonempty (chunks : list (list byte)) : Prop := Forall (λ c, c ≠ []) chunks.
Definition socket_of (chunks : list (list byte)) : socket := map Some chunks.

Lemma socket_of_bytes chunks : socket_bytes (socket_of chunks) = concat chunks.
Proof. induction chunks as [|c chunks IH]; [done|]. cbn. by rewrite <- IH. Qed.

(** The answer of a reader, for an outcome of the contract. *)
Definition agrees {A} (bytes_after : A → list byte) (good : A → Prop) (o : outcome)
    (r : result NetError (list byte * A)) : Prop :=
  match o with
  | Done m rest => ∃ after, r = Ok (m, after) ∧ bytes_after after = rest ∧ good after
  | Short => ∃ msg, r = conn_failed msg
  | TooBig => r = too_big
  end.

Lemma fill_spec e1 e2 n chunks buf :
  nonempty chunks →
  if blen (buf ++ concat chunks) <? n
  then fill e1 e2 n (socket_of chunks) buf = conn_failed e2
  else ∃ buf' chunks', fill e1 e2 n (socket_of chunks) buf = Ok (buf', socket_of chunks') ∧
         buf' ++ concat chunks' = buf ++ concat chunks ∧ n <= blen buf' ∧ nonempty chunks'.
Proof.
  intros Hne. revert buf. induction Hne as [|c chunks Hc Hne IH]; intros buf; cbn [socket_of map fill concat].
  - rewrite app_nil_r. destruct (Z.leb_spec n (blen buf)), (Z.ltb_spec (blen buf) n); try lia; [|done].
    exists buf, []. rewrite app_nil_r. repeat split; [lia|constructor].
  - destruct (Z.leb_spec n (blen buf)) as [Hle|Hgt].
    + destruct (Z.ltb_spec (blen (buf ++ c ++ concat chunks)) n) as [H|_].
      { rewrite blen_app in H. pose proof (blen_nonneg (c ++ concat chunks)). lia. }
      exists buf, (c :: chunks). repeat split; [lia|by constructor].
    + specialize (IH (buf ++ c)). rewrite <- app_assoc in IH. destruct c as [|b c]; [done|].
      exact IH.
Qed.

Lemma take_prefix (k : nat) (l r : list byte) : (k <= length l)%nat → take k (l ++ r) = take k l ∧ drop k (l ++ r) = drop k l ++ r.
Proof. intros H. split; [by rewrite take_app_le|by rewrite drop_app_le]. Qed.

Definition buffered_result (r : result NetError (list byte * list byte * socket)) :
    result NetError (list byte * (list byte * socket)) :=
  match r with Ok (m, b, s) => Ok (m, (b, s)) | Err e => Err e end.

Definition after_buffered (p : list byte * socket) : list byte := p.1 ++ socket_bytes p.2.
Definition good_buffered (p : list byte * socket) : Prop := ∃ chunks, p.2 = socket_of chunks ∧ nonempty chunks.

Lemma frame_loop_spec fuel chunks buf message o :
  nonempty chunks → deframe fuel (buf ++ concat chunks) message = Some o →
  ∃ r, frame_loop fuel (socket_of chunks) buf message = Some r ∧
       agrees after_buffered good_buffered o (buffered_result r).
Proof.
  revert chunks buf message. induction fuel as [|fuel IH]; intros chunks buf message Hne H; [done|].
  cbn [deframe] in H. cbn [frame_loop].
  pose proof (fill_spec "Failed to read chunk header: "
    "Connection closed by peer while waiting for chunk header" 2 chunks buf Hne) as Hf.
  destruct (blen (buf ++ concat chunks) <? 2).
  { rewrite Hf. injection H as <-. eexists. split; [done|]. by eexists. }
  destruct Hf as (b1 & c1 & -> & E1 & L1 & N1). rewrite <- E1 in H. clear buf chunks E1 Hne.
  destruct (take_prefix 2 b1 (concat c1)) as [T D]; [unfold blen in L1; lia|].
  rewrite T, D in H. clear T D. set (n := get_be (take 2 b1)) in *.
  destruct (n =? 0).
  { injection H as <-. eexists. split; [done|]. eexists. split; [done|].
    unfold after_buffered. simpl. rewrite socket_of_bytes. split; [done|]. by eexists. }
  destruct (MAX_BOLT_MESSAGE_SIZE <? blen message + n).
  { injection H as <-. by eexists. }
  pose proof (fill_spec "Failed to read chunk payload: "
    "Connection closed by peer mid-chunk payload" n c1 (drop 2 b1) N1) as Hf.
  destruct (blen (drop 2 b1 ++ concat c1) <? n).
  { rewrite Hf. injection H as <-. eexists. split; [done|]. by eexists. }
  destruct Hf as (b2 & c2 & -> & E2 & L2 & N2). rewrite <- E2 in H.
  destruct (take_prefix (Z.to_nat n) b2 (concat c2)) as [T D]; [unfold blen in L2; lia|].
  rewrite T, D in H. by apply IH.
Qed.

Lemma read_exact_cons e n c reads :
  c ≠ [] → (0 < n)%nat →
  read_exact e n (Some c :: reads) =
    if decide (length c <= n)%nat
    then '(rest, reads) ← read_exact e (n - length c) reads; Ok (c ++ rest, reads)
    else Ok (take n c, Some (drop n c) :: reads).
Proof. intros Hc Hn. destruct n; [lia|]. by destruct c. Qed.

Lemma read_exact_spec e n chunks :
  nonempty chunks →
  if decide (length (concat chunks) < n)%nat
  then read_exact e n (socket_of chunks) = conn_failed e
  else ∃ chunks', read_exact e n (socket_of chunks) = Ok (take n (concat chunks), socket_of chunks') ∧
         concat chunks' = drop n (concat chunks) ∧ nonempty chunks'.
Proof.
  intros Hne. revert n. induction Hne as [|c chunks Hc Hne IH]; intros n.
  { destruct n as [|n]; [|by rewrite decide_True by (simpl; lia)].
    rewrite decide_False by (simpl; lia). exists []. repeat constructor. }
  destruct (decide (n = 0%nat)) as [->|Hn].
  { rewrite decide_False by lia. exists (c :: chunks). by repeat constructor. }
  change (socket_of (c :: chunks)) with (Some c :: socket_of chunks). cbn [concat].
  rewrite read_exact_cons by (done || lia). rewrite length_app.
  assert (Hl : (0 < length c)%nat) by (destruct c; simpl; [done|lia]).
  case_decide as Hlen; case_decide as Hd.
  - specialize (IH (n - length c)%nat). rewrite decide_True in IH by lia.
    by rewrite IH.
  - lia.
  - specialize (IH (n - length c)%nat). rewrite decide_False in IH by lia.
    destruct IH as (c' & E & Hc' & N'). exists c'. rewrite E. cbn.
    by rewrite take_app_ge, drop_app_ge by lia.
  - exists (drop n c :: chunks). rewrite take_app_le by lia. split; [done|].
    cbn [concat]. rewrite drop_app_le by lia. split; [done|]. constructor; [|done].
    intros E. apply (f_equal length) in E. rewrite length_drop in E. simpl in E. lia.
Qed.

Definition after_exact (s : socket) : list byte := socket_bytes s.
Definition good_exact (s : socket) : Prop := ∃ chunks, s = socket_of chunks ∧ nonempty chunks.

Lemma exact_loop_spec fuel chunks message o :
  nonempty chunks → deframe fuel (concat chunks) message = Some o →
  ∃ r, exact_loop fuel (socket_of chunks) message = Some r ∧ agrees after_exact good_exact o r.
Proof.
  revert chunks message. induction fuel as [|fuel IH]; intros chunks message Hne H; [done|].
  cbn [deframe] in H. cbn [exact_loop].
  pose proof (read_exact_spec "Failed to read chunk header: " 2 chunks Hne) as Hf.
  destruct (Z.ltb_spec (blen (concat chunks)) 2) as [Hs|Hs]; unfold blen in Hs.
  { rewrite decide_True in Hf by lia. rewrite Hf. injection H as <-. eexists. split; [done|]. by eexists. }
  rewrite decide_False in Hf by lia. destruct Hf as (c1 & -> & E1 & N1). rewrite <- E1 in H.
  set (n := get_be (take 2 (concat chunks))) in *.
  destruct (n =? 0).
  { injection H as <-. eexists. split; [done|]. eexists. split; [done|].
    unfold after_exact. rewrite socket_of_bytes. split; [done|]. by eexists. }
  destruct (MAX_BOLT_MESSAGE_SIZE <? blen message + n).
  { injection H as <-. by eexists. }
  pose proof (read_exact_spec "Failed to read chunk payload: " (Z.to_nat n) c1 N1) as Hf.
  destruct (Z.ltb_spec (blen (concat c1)) n) as [Hs2|Hs2]; unfold blen in Hs2.
  { rewrite decide_True in Hf by lia. rewrite Hf. injection H as <-. eexists. split; [done|]. by eexists. }
  rewrite decide_False in Hf by (pose proof (get_be_range (take 2 (concat chunks))); lia).
  destruct Hf as (c2 & -> & E2 & N2). rewrite <- E2 in H. by apply IH.
Qed.

Lemma stream_length_app chunks buf : stream_length (socket_of chunks) buf = length (buf ++ concat chunks).
Proof. unfold stream_length. by rewrite socket_of_bytes, length_app. Qed.

Lemma frame_loop_bound fuel reads buf message m buf' reads' :
  frame_loop fuel reads buf message = Some (Ok (m, buf', reads')) →
  blen message <= MAX_BOLT_MESSAGE_SIZE → blen m <= MAX_BOLT_MESSAGE_SIZE.
Proof.
  revert reads buf message. induction fuel as [|fuel IH]; intros reads buf message H Hm; [done|].
  cbn [frame_loop] in H. destruct (fill _ _ 2 reads buf) as [[b1 r1]|]; [|done].
  destruct (get_be (take 2 b1) =? 0); [by injection H as <- <- <-|].
  destruct (Z.ltb_spec MAX_BOLT_MESSAGE_SIZE (blen message + get_be (take 2 b1))); [done|].
  destruct (fill _ _ _ r1 (drop 2 b1)) as [[b2 r2]|]; [|done].
  eapply IH; [exact H|]. rewrite blen_app. unfold blen at 2. rewrite length_take.
  pose proof (get_be_range (take 2 b1)). lia.
Qed.

Lemma encode_chunks_length k payload :
  (length payload <= k)%nat → (length payload < length (encode_chunks_fuel k payload))%nat.
Proof.
  revert payload. induction k as [|k IH]; intros payload Hk.
  { destruct payload; simpl in *; lia. }
  destruct payload as [|b payload]; [simpl; lia|]. cbn [encode_chunks_fuel].
  set (p := b :: payload) in *. set (n := Z.to_nat (Z.min (blen p) MAX_CHUNK_SIZE)).
  assert (1 <= n <= length p)%nat by (unfold n, MAX_CHUNK_SIZE, blen; subst p; simpl length; lia).
  specialize (IH (drop n p)). rewrite length_drop in IH.
  rewrite !length_app, put_be_length, length_take. lia.
Qed.

Lemma deframe_framed payload rest s :
  blen payload <= MAX_BOLT_MESSAGE_SIZE → s = encode_chunks payload ++ rest →
  deframe (S (length s)) s [] = Some (Done payload rest).
Proof.
  intros Hlen ->. apply (deframe_encode _ _ payload []); [lia| |done].
  rewrite length_app. unfold encode_chunks.
  pose proof (encode_chunks_length (length payload) payload). lia.
Qed.

Lemma framing_next payload rest buf chunks :
  blen payload <= MAX_BOLT_MESSAGE_SIZE → nonempty chunks →
  buf ++ concat chunks = encode_chunks payload ++ rest →
  ∃ buf' chunks',
    read_message_frame_buffered (socket_of chunks) buf = Some (Ok (payload, buf', socket_of chunks')) ∧
    buf' ++ concat chunks' = rest ∧ nonempty chunks'.
Proof.
  intros Hlen Hne E. pose proof (deframe_framed payload rest _ Hlen E) as Hd.
  destruct (frame_loop_spec _ chunks buf [] _ Hne Hd) as (r & Hr & (after & Ha & Hb & c & Hc & Hn)).
  destruct r as [[[m b] s]|]; [|done]. injection Ha as -> <-. simpl in Hc. subst s.
  exists b, c. unfold read_message_frame_buffered. rewrite stream_length_app. split; [exact Hr|].
  unfold after_buffered in Hb. simpl in Hb. by rewrite socket_of_bytes in Hb.
Qed.

Lemma framing_done payload rest buf chunks :
  blen payload <= MAX_BOLT_MESSAGE_SIZE → nonempty chunks →
  buf ++ concat chunks = encode_chunks payload ++ rest →
  ∃ buf' chunks',
    read_message_frame_buffered (socket_of chunks) buf = Some (Ok (payload, buf', socket_of chunks')) ∧
    buf' ++ concat chunks' = rest.
Proof. intros H1 H2 H3. destruct (framing_next _ _ _ _ H1 H2 H3) as (b & c & ? & ? & _). eauto. Qed.

(** The reader that asks for exact lengths leaves what follows on the socket. *)
Lemma exact_done payload rest chunks :
  blen payload <= MAX_BOLT_MESSAGE_SIZE → nonempty chunks →
  concat chunks = encode_chunks payload ++ rest →
  ∃ chunks', read_message_frame (socket_of chunks) = Some (Ok (payload, socket_of chunks')) ∧ concat chunks' = rest.
Proof.
  intros Hlen Hne E. pose proof (deframe_framed payload rest _ Hlen E) as Hd.
  destruct (exact_loop_spec _ chunks [] _ Hne Hd) as (r & Hr & (after & -> & Hb & c & -> & _)).
  exists c. unfold read_message_frame. rewrite stream_length_app. split; [exact Hr|].
  unfold after_exact in Hb. by rewrite socket_of_bytes in Hb.
Qed.

(** ** Theorems *)

(** C17: both readers implement the framing of the byte stream, whatever the reads
    it arrives in: they always return, and the message, the bytes left over, or
    the kind of error (stream too short, message too big) depend only on the
    bytes. *)
Theorem readers_refine_framing buf chunks :
  nonempty chunks →
  ∃ o r, deframe (S (length (buf ++ concat chunks))) (buf ++ concat chunks) [] = Some o ∧
    read_message_frame_buffered (socket_of chunks) buf = Some r ∧
    agrees after_buffered good_buffered o (buffered_result r) ∧
    (buf = [] → ∃ r', read_message_frame (socket_of chunks) = Some r' ∧
                      agrees after_exact good_exact o r').
Proof.
  intros Hne. destruct (deframe_total (S (length (buf ++ concat chunks))) (buf ++ concat chunks) [])
    as [o Ho]; [lia|].
  destruct (frame_loop_spec _ chunks buf [] o Hne Ho) as (r & Hr & Ha).
  exists o, r. split; [done|]. unfold read_message_frame_buffered. rewrite stream_length_app.
  split; [done|]. split; [done|]. intros ->.
  destruct (exact_loop_spec _ chunks [] o Hne Ho) as (r' & Hr' & Ha'). exists r'.
  unfold read_message_frame. by rewrite stream_length_app.
Qed.

(** A framed message is read back whole however the network cuts it, by the
    buffered reader with what an earlier read left in its buffer, and what
    follows the message stays available: chunks of any payload up to the limit,
    the empty one included, and then any bytes. *)
Theorem framing_roundtrip payload rest buf chunks :
  blen payload <= MAX_BOLT_MESSAGE_SIZE → nonempty chunks →
  buf ++ concat chunks = encode_chunks payload ++ rest →
  ∃ buf' chunks',
    read_message_frame_buffered (socket_of chunks) buf = Some (Ok (payload, buf', socket_of chunks')) ∧
    buf' ++ concat chunks' = rest.
Proof. apply framing_done. Qed.

(** No peer can make the reader hold more than the limit: whatever the socket
    delivers, failing reads included, a message that is returned has at most 128
    MB. *)
Theorem frame_size_bounded reads buf m buf' reads' :
  read_message_frame_buffered reads buf = Some (Ok (m, buf', reads')) →
  blen m <= MAX_BOLT_MESSAGE_SIZE.
Proof. intros H. by apply frame_loop_bound in H. Qed.

(** ** Witnesses *)

Definition hello_chunks : list (list byte) := [[x00]; [x03; x61; x62]; [x63; x00]; [x00; x01]].

Lemma readers_refine_framing_witness :
  ∃ o r, deframe 9 ([] ++ concat hello_chunks) [] = Some o ∧
    read_message_frame_buffered (socket_of hello_chunks) [] = Some r ∧
    agrees after_buffered good_buffered o (buffered_result r) ∧
    (@nil byte = [] → ∃ r', read_message_frame (socket_of hello_chunks) = Some r' ∧
       agrees after_exact good_exact o r').
Proof. apply (readers_refine_framing [] hello_chunks). by repeat constructor. Defined.

Lemma framing_roundtrip_witness :
  ∃ buf' chunks',
    read_message_frame_buffered (socket_of hello_chunks) [] =
      Some (Ok ([x61; x62; x63], buf', socket_of chunks')) ∧ buf' ++ concat chunks' = [x01].
Proof.
  apply (framing_roundtrip [x61; x62; x63] [x01] [] hello_chunks);
    [discriminate|by repeat constructor|reflexivity].
Defined.

Lemma frame_size_bounded_witness : blen [x61; x62; x63] <= MAX_BOLT_MESSAGE_SIZE.
Proof. apply (frame_size_bounded (socket_of hello_chunks) [] [x61; x62; x63] [x01] (socket_of [])). reflexivity. Defined.
