(* ===== verification/BoltMessages.v ===== *)
(** * Bolt messages ([voyager-net/src/bolt/messages.rs])

    A request is a PackStream structure whose tag names it; [BoltResponse::decode]
    reads the server's answers.  The crate's version and the target's operating
    system, which the build fixes, are parameters. *)
From S2P Require Import Prelude Bytes F64 Errors BoltValue PackStream BoltStream.

Open Scope Z_scope.
Open Scope list_scope.
Open Scope string_scope.

Notation BoltMap := (list (string * BoltValue)).

Inductive BoltRequest :=
| Hello (extra : BoltMap)
| Logon (auth : BoltMap)
| Logoff
| Run (query : string) (params extra : BoltMap)
| Pull (extra : BoltMap)
| Discard (extra : BoltMap)
| Begin (extra : BoltMap)
| Commit
| Rollback
| Reset
| Goodbye.

(** ** Constructors *)

Section constructors.
(** [env!("CARGO_PKG_VERSION")] and [std::env::consts::OS]. *)
Context (CARGO_PKG_VERSION OS : string).

Definition bolt_agent : BoltMap :=
  assoc_of_list [("product", String ("voyager-net/" +:+ CARGO_PKG_VERSION));
                 ("platform", String OS); ("language", String "Rust")].

Definition hello_v51 (user_agent : string) (routing : option BoltMap) : BoltRequest :=
  let extra := assoc_of_list [("user_agent", String user_agent); ("bolt_agent", Map bolt_agent)] in
  Hello (match routing with Some r => assoc_insert "routing" (Map r) extra | None => extra end).

(** The entries of the basic scheme, or of none. *)
Definition insert_auth (auth_scheme : option (string * string)) (m : BoltMap) : BoltMap :=
  match auth_scheme with
  | Some (username, password) =>
      assoc_insert "credentials" (String password)
        (assoc_insert "principal" (String username) (assoc_insert "scheme" (String "basic") m))
  | None => assoc_insert "scheme" (String "none") m
  end.

Definition insert_db (database : option string) (m : BoltMap) : BoltMap :=
  match database with Some db => assoc_insert "db" (String db) m | None => m end.

Definition hello_legacy (user_agent : string) (auth_scheme : option (string * string))
    (database : option string) : BoltRequest :=
  let extra := assoc_of_list [("user_agent", String user_agent); ("bolt_agent", Map bolt_agent)] in
  Hello (insert_db database (insert_auth auth_scheme extra)).
End constructors.

Definition logon (auth_scheme : option (string * string)) : BoltRequest :=
  Logon (insert_auth auth_scheme []).

Definition run (query : string) (params : BoltMap) (database : option string) : BoltRequest :=
  Run query params (insert_db database []).

Definition pull_all : BoltRequest := Pull (assoc_insert "n" (Integer (-1)) []).
Definition pull_batch (batch_size : Z) : BoltRequest := Pull (assoc_insert "n" (Integer batch_size) []).

(** ** Encoding *)

Definition request_structure (r : BoltRequest) : BoltValue :=
  match r with
  | Hello extra => Structure x01 [Map extra]
  | Logon auth => Structure x6a [Map auth]
  | Logoff => Structure x6b []
  | Run query params extra => Structure x10 [String query; Map params; Map extra]
  | Pull extra => Structure x3f [Map extra]
  | Discard extra => Structure x2f [Map extra]
  | Begin extra => Structure x11 [Map extra]
  | Commit => Structure x12 []
  | Rollback => Structure x13 []
  | Reset => Structure x0f []
  | Goodbye => Structure x02 []
  end.

Definition request_encode (r : BoltRequest) : list byte := PackStream.encode (request_structure r).

(** ** Responses *)

Inductive BoltResponse :=
| Success (metadata : BoltMap)
| Record_ (fields : list BoltValue)
| Failure (metadata : BoltMap)
| Ignored (metadata : BoltMap).

(** [Vec::pop]: the last element and the rest. *)
Definition pop {A} (l : list A) : option A * list A := (last l, removelast l).

Definition pop_map (fields : list BoltValue) : BoltMap :=
  match pop fields with (Some (Map m), _) => m | _ => [] end.

Definition hex_digit (n : Z) : string := of_bytes [to_u8 (if n <? 10 then 48 + n else 55 + n)%Z].
Definition hex2 (b : byte) : string := hex_digit (u8 b / 16)%Z +:+ hex_digit (u8 b mod 16)%Z.

(** The last message goes on with the debug rendering of the value, left out here. *)
Definition response_of_value (value : BoltValue) : result NetError BoltResponse :=
  match value with
  | Structure x70 fields => Ok (Success (pop_map fields))
  | Structure x71 fields =>
      Ok (Record_ (match pop fields with (Some (List l), _) => l | (_, fields) => fields end))
  | Structure x7f fields => Ok (Failure (pop_map fields))
  | Structure x7e fields => Ok (Ignored (pop_map fields))
  | Structure unknown _ =>
      perr ("Unexpected Bolt response message structure tag 0x" +:+ hex2 unknown)
  | other => perr "Expected Bolt response structure, got: "
  end.

(** [BoltResponse::decode], with the bytes it leaves. *)
Definition response_decode (buf : list byte) : result NetError (BoltResponse * list byte) :=
  '(value, buf) ← PackStream.decode buf;
  r ← response_of_value value;
  Ok (r, buf).

Definition failure_message (r : BoltResponse) : option (string * string) :=
  match r with
  | Failure metadata =>
      Some (default "UnknownError" (v ← assoc_get "code" metadata; as_str v),
            default "An unknown error occurred" (v ← assoc_get "message" metadata; as_str v))
  | _ => None
  end.

Definition response_fields (r : BoltResponse) : option (list string) :=
  match r with
  | Success metadata =>
      match assoc_get "fields" metadata with
      | Some (List l) => Some (omap as_str l)
      | _ => None
      end
  | _ => None
  end.

(** ** The contract of the two sides *)

(** What the peer takes a received structure for. *)
Definition request_of_value (v : BoltValue) : option BoltRequest :=
  match v with
  | Structure x01 [Map extra] => Some (Hello extra)
  | Structure x6a [Map auth] => Some (Logon auth)
  | Structure x6b [] => Some Logoff
  | Structure x10 [String query; Map params; Map extra] => Some (Run query params extra)
  | Structure x3f [Map extra] => Some (Pull extra)
  | Structure x2f [Map extra] => Some (Discard extra)
  | Structure x11 [Map extra] => Some (Begin extra)
  | Structure x12 [] => Some Commit
  | Structure x13 [] => Some Rollback
  | Structure x0f [] => Some Reset
  | Structure x02 [] => Some Goodbye
  | _ => None
  end.

(** What the peer sends for a response. *)
Definition response_structure (r : BoltResponse) : BoltValue :=
  match r with
  | Success m => Structure x70 [Map m]
  | Record_ l => Structure x71 [List l]
  | Failure m => Structure x7f [Map m]
  | Ignored m => Structure x7e [Map m]
  end.

(** The fields of a message can be sent and nest within the decoder's limit. *)
Definition sendable_structure (v : BoltValue) : Prop :=
  match v with
  | Structure _ fields => All wf fields ∧ (Z.of_nat (sup height fields) <= MAX_PACKSTREAM_DEPTH)%Z
  | _ => False
  end.

Lemma request_of_structure r : request_of_value (request_structure r) = Some r.
Proof. by destruct r. Qed.

Lemma request_wf r :
  sendable_structure (request_structure r) →
  wf (request_structure r) ∧ (Z.of_nat (height (request_structure r)) <= MAX_PACKSTREAM_DEPTH)%Z.
Proof.
  intros H. destruct r; cbn [request_structure sendable_structure] in *; destruct H as [Hf Hh];
    (split; [|exact Hh]); (split; [by vm_compute|]); (split; [exact Hf|reflexivity]).
Qed.

Lemma response_wf r :
  sendable_structure (response_structure r) →
  wf (response_structure r) ∧ (Z.of_nat (height (response_structure r)) <= MAX_PACKSTREAM_DEPTH)%Z.
Proof.
  intros H. destruct r; cbn [response_structure sendable_structure] in *; destruct H as [Hf Hh];
    (split; [|exact Hh]); (split; [by vm_compute|]); (split; [exact Hf|reflexivity]).
Qed.

Lemma response_of_structure r : response_of_value (response_structure r) = Ok r.
Proof. by destruct r. Qed.

Lemma response_decode_encode r rest :
  sendable_structure (response_structure r) →
  response_decode (PackStream.encode (response_structure r) ++ rest) = Ok (r, rest).
Proof.
  intros Hs. destruct (response_wf r Hs) as [Hwf Hh]. unfold response_decode.
  pose proof (decode_with_depth_encode (response_structure r) rest 0 Hwf ltac:(lia) Hh) as Hd.
  unfold PackStream.decode. rewrite Hd. cbn [mbind result_bind].
  by rewrite response_of_structure.
Qed.

(** ** Theorems *)

(** C19: a request reaches the peer: encoded, cut into chunks, divided by the
    network in any way and put together again by either reader, it decodes to a
    structure that is this request and no other, and the bytes of the next message
    stay available.  The request's fields are values that PackStream can write,
    nested no deeper than the decoder's limit, and its encoding is no longer than the
    longest message. *)
Theorem request_delivered r rest chunks :
  sendable_structure (request_structure r) →
  (blen (request_encode r) <= MAX_BOLT_MESSAGE_SIZE)%Z → nonempty chunks →
  concat chunks = (encode_chunks (request_encode r) ++ rest)%list →
  ∃ payload v,
    (∃ buf chunks', read_message_frame_buffered (socket_of chunks) [] = Some (Ok (payload, buf, socket_of chunks')) ∧
                    (buf ++ concat chunks')%list = rest) ∧
    (∃ chunks', read_message_frame (socket_of chunks) = Some (Ok (payload, socket_of chunks')) ∧
                concat chunks' = rest) ∧
    PackStream.decode payload = Ok (v, []) ∧ request_of_value v = Some r.
Proof.
  intros Hs Hlen Hne E. destruct (request_wf r Hs) as [Hwf Hh].
  exists (request_encode r), (request_structure r). split; [by apply framing_done|]. split; [by apply exact_done|].
  split; [|apply request_of_structure].
  pose proof (decode_with_depth_encode (request_structure r) [] 0 Hwf ltac:(lia) Hh) as Hd.
  rewrite app_nil_r in Hd. exact Hd.
Qed.

(** The client reads what the server sends: the encoding of any success,
    record, failure or ignored message decodes to that message, and only its bytes
    are consumed. *)
Theorem response_roundtrip r rest :
  sendable_structure (response_structure r) →
  response_decode (PackStream.encode (response_structure r) ++ rest) = Ok (r, rest).
Proof. apply response_decode_encode. Qed.

(** A record whose single field is not a list loses its last field. *)
Lemma record_drops_last_field :
  response_of_value (Structure x71 [Integer 1; Integer 2]) = Ok (Record_ [Integer 1]).
Proof. reflexivity. Qed.

(** ** Witnesses *)

Definition run_one : BoltRequest := run "RETURN $x" [("x", Integer 1)] (Some "neo4j").

Lemma run_one_sendable : sendable_structure (request_structure run_one).
Proof.
  split; [|by vm_compute]. cbn. unfold wf_int, wf_string, I64_MIN, I64_MAX, U32_MAX.
  repeat match goal with |- _ ∧ _ => split end;
    first [done | lia | apply NoDup_singleton | by vm_compute].
Qed.

Definition run_chunks : list (list byte) :=
  Eval lazy in
  let b := encode_chunks (request_encode run_one) in [take 1 b; take 10 (drop 1 b); drop 11 b].

Lemma request_delivered_witness :
  ∃ payload v,
    (∃ buf chunks', read_message_frame_buffered (socket_of run_chunks) [] = Some (Ok (payload, buf, socket_of chunks')) ∧
                    (buf ++ concat chunks')%list = []) ∧
    (∃ chunks', read_message_frame (socket_of run_chunks) = Some (Ok (payload, socket_of chunks')) ∧
                concat chunks' = []) ∧
    PackStream.decode payload = Ok (v, []) ∧ request_of_value v = Some run_one.
Proof.
  apply request_delivered; [apply run_one_sendable|by vm_compute|by repeat constructor|].
  vm_compute. reflexivity.
Defined.

Lemma response_roundtrip_witness :
  response_decode (PackStream.encode (Structure x71 [List [Integer 1; Null]]) ++ [x00]) =
  Ok (Record_ [Integer 1; Null], [x00]).
Proof.
  apply (response_roundtrip (Record_ [Integer 1; Null]) [x00]). cbn. unfold wf_int, I64_MIN, I64_MAX.
  repeat match goal with |- _ ∧ _ => split end; first [done | lia | by vm_compute].
Defined.
