(* ===== verification/PgMessages.v ===== *)
(** * PostgreSQL protocol messages ([voyager-net/src/postgres/message.rs])

    Frontend messages are written, backend messages are read.  A reader takes the
    payload that is left and returns it with what it has read; the [get_*] methods of
    [bytes::Buf] panic on a buffer that is too short, and so does a capacity that no
    allocation can have.  The text of a UTF-8 error is dropped. *)
From S2P Require Import Prelude Bytes F64 Errors BoltValue PackStream.

Open Scope Z_scope.
Open Scope string_scope.
Open Scope list_scope.

Definition PG_PROTOCOL_V3 : Z := 196608.

(** ** Messages *)

Inductive TransactionStatus := Idle | InTransaction | FailedTransaction.

#[export] Instance TransactionStatus_eq_dec : EqDecision TransactionStatus.
Proof. solve_decision. Defined.

(** The [HashMap] of parameters is the list of its entries in iteration order. *)
Record StartupMessage := mkStartup {
  protocol_version : Z;
  startup_parameters : list (string * string);
}.

Inductive FrontendMessage :=
| Startup (msg : StartupMessage)
| Password (pwd : list byte)
| SASLInitialResponse (mechanism : string) (data : option (list byte))
| SASLResponse (data : list byte)
| Query (query : string)
| Parse (name query : string) (param_types : list Z)
| Bind (portal statement : string) (param_formats : list Z) (params : list (option (list byte)))
    (result_formats : list Z)
| Execute (portal : string) (max_rows : Z)
| Describe (target_type : byte) (name : string)
| Close (target_type : byte) (name : string)
| Sync
| Flush
| Terminate.

Inductive AuthenticationRequest :=
| AuthOk
| KerberosV5
| CleartextPassword
| MD5Password (salt : list byte)
| SCMCredential
| GSS
| GSSContinue (data : list byte)
| SSPI
| SASL (mechanisms : list string)
| SASLContinue (data : list byte)
| SASLFinal (data : list byte).

Record FieldDescription := mkField {
  fd_name : string;
  table_oid : Z;
  column_attr_num : Z;
  type_oid : Z;
  type_size : Z;
  type_modifier : Z;
  format_code : Z;
}.

Record PgDiagnostic := mkDiagnostic {
  severity : string;
  d_code : string;
  message : string;
  detail : option string;
  hint : option string;
  position : option string;
  file : option string;
  line : option string;
  routine : option string;
}.
Definition PgDiagnostic_default : PgDiagnostic := mkDiagnostic "" "" "" None None None None None None.

Inductive BackendMessage :=
| Authentication (req : AuthenticationRequest)
| BackendKeyData (process_id secret_key : Z)
| ParameterStatus (name value : string)
| ReadyForQuery (status : TransactionStatus)
| RowDescription (fields : list FieldDescription)
| DataRow (values : list (option (list byte)))
| CommandComplete (tag : string)
| ErrorResponse (diag : PgDiagnostic)
| NoticeResponse (diag : PgDiagnostic)
| ParseComplete
| BindComplete
| CloseComplete
| NoData
| EmptyQueryResponse
| NotificationResponse (process_id : Z) (channel payload : string)
| CopyInResponse
| CopyOutResponse
| CopyData (data : list byte)
| CopyDone.

Definition format_error (d : PgDiagnostic) : string :=
  severity d +:+ ": " +:+ message d +:+ " (SQLSTATE " +:+ d_code d +:+ ")"
  +:+ match detail d with Some x => of_bytes [x0a] +:+ "Detail: " +:+ x | None => "" end
  +:+ match hint d with Some x => of_bytes [x0a] +:+ "Hint: " +:+ x | None => "" end.

(** ** Writing *)

(** [StartupMessage::new]; the four keys are distinct.  [HashMap] does not keep this
    order. *)
Definition StartupMessage_new (user : string) (database : option string) : StartupMessage :=
  mkStartup PG_PROTOCOL_V3
    ([("user", user)]
     ++ match database with Some db => [("database", db)] | None => [] end
     ++ [("client_encoding", "UTF8"); ("application_name", "voyager-net")]).

Definition put_i16 (n : Z) : list byte := put_be 2 n.
Definition put_i32 (n : Z) : list byte := put_be 4 n.
Definition as_i32 (n : Z) : Z := as_signed 32 n.
Definition as_i16 (n : Z) : Z := as_signed 16 n.

Definition put_cstring (s : string) : list byte := as_bytes s ++ [x00].

(** [4 + body.len() as i32], the body behind it. *)
Definition sized (body : list byte) : list byte := put_i32 (4 + as_i32 (blen body)) ++ body.

Definition startup_body (m : StartupMessage) : list byte :=
  put_i32 (protocol_version m)
  ++ flat_map (λ kv, put_cstring kv.1 ++ put_cstring kv.2) (startup_parameters m) ++ [x00].
Definition startup_encode (m : StartupMessage) : list byte := sized (startup_body m).

Definition put_data (data : option (list byte)) : list byte :=
  match data with
  | Some d => put_i32 (as_i32 (blen d)) ++ d
  | None => put_i32 (-1)
  end.

(** [put_i16(l.len() as i16)], then the elements. *)
Definition put_list {A} (put : A → list byte) (l : list A) : list byte :=
  put_i16 (as_i16 (blen l)) ++ flat_map put l.

Definition parse_body (name query : string) (param_types : list Z) : list byte :=
  put_cstring name ++ put_cstring query ++ put_list put_i32 param_types.
Definition bind_body (portal statement : string) (param_formats : list Z)
    (params : list (option (list byte))) (result_formats : list Z) : list byte :=
  put_cstring portal ++ put_cstring statement ++ put_list put_i16 param_formats
  ++ put_list put_data params ++ put_list put_i16 result_formats.

Definition encode (m : FrontendMessage) : list byte :=
  match m with
  | Startup msg => startup_encode msg
  | Password pwd => "p"%byte :: sized pwd
  | SASLInitialResponse mechanism data => "p"%byte :: sized (put_cstring mechanism ++ put_data data)
  | SASLResponse data => "p"%byte :: sized data
  | Query query =>
      "Q"%byte :: put_i32 (4 + as_i32 (blen (as_bytes query)) + 1) ++ put_cstring query
  | Parse name query param_types => "P"%byte :: sized (parse_body name query param_types)
  | Bind portal statement param_formats params result_formats =>
      "B"%byte :: sized (bind_body portal statement param_formats params result_formats)
  | Execute portal max_rows => "E"%byte :: sized (put_cstring portal ++ put_i32 max_rows)
  | Describe target_type name => "D"%byte :: sized (target_type :: put_cstring name)
  | Close target_type name => "C"%byte :: sized (target_type :: put_cstring name)
  | Sync => "S"%byte :: put_i32 4
  | Flush => "H"%byte :: put_i32 4
  | Terminate => "X"%byte :: put_i32 4
  end.

(** ** Reading *)

Inductive fault := Raise (e : NetError) | Panic | OutOfFuel.

Definition PM (A : Type) : Type := list byte → result fault (A * list byte).
#[export] Instance PM_ret : MRet PM := λ A x buf, Ok (x, buf).
#[export] Instance PM_bind : MBind PM :=
  λ A B f m buf, match m buf with Ok (x, buf) => f x buf | Err e => Err e end.

Definition raise {A} (e : NetError) : PM A := λ _, Err (Raise e).
Definition pg_err {A} (msg : string) : PM A := raise (ProtocolError msg).
Definition panic {A} : PM A := λ _, Err Panic.

Definition from_result {A} (r : result NetError A) : PM A :=
  λ buf, match r with Ok x => Ok (x, buf) | Err e => Err (Raise e) end.

(** [if payload.len() < n { return Err(...) }]. *)
Definition need (n : Z) (msg : string) : PM () :=
  λ buf, if (blen buf <? n)%Z then Err (Raise (ProtocolError msg)) else Ok (tt, buf).

(** [get_u8], [get_i16], [get_i32], [split_to]. *)
Definition get_bytes (n : nat) : PM (list byte) :=
  λ buf, match split_to n buf with Some (l, buf) => Ok (l, buf) | None => Err Panic end.
Definition get_i16 : PM Z := l ← get_bytes 2; mret (as_i16 (get_be l)).
Definition get_i32 : PM Z := l ← get_bytes 4; mret (as_i32 (get_be l)).
Definition get_u8 : PM byte :=
  λ buf, match buf with b :: buf => Ok (b, buf) | [] => Err Panic end.
Definition rest : PM (list byte) := λ buf, Ok (buf, []).

(** [Vec::with_capacity(count as usize)] of a count read as [i16]: a negative count is
    a capacity beyond any allocation, whatever the size of an element. *)
Definition with_capacity (count : Z) : PM () :=
  if (I64_MAX <? as_unsigned 64 count)%Z then panic else mret tt.

Fixpoint until_nul (buf : list byte) : option (list byte * list byte) :=
  match buf with
  | [] => None
  | b :: buf => if decide (b = x00) then Some ([], buf)
                else prod_map (cons b) id <$> until_nul buf
  end.

Definition read_cstring : PM string :=
  λ buf, match until_nul buf with
         | Some (str_bytes, buf) =>
             match from_utf8 str_bytes with
             | Some s => Ok (s, buf)
             | None => Err (Raise (ProtocolError "Invalid UTF-8 string: "))
             end
         | None => Err (Raise (ProtocolError "Null terminator not found in string"))
         end.

(** [for _ in 0..count]. *)
Fixpoint times {A} (count : nat) (m : PM A) : PM (list A) :=
  match count with
  | O => mret []
  | S count => x ← m; xs ← times count m; mret (x :: xs)
  end.

(** [while payload.has_remaining()], one unit of fuel per round. *)
Definition fuel_of {A} (m : nat → PM A) : PM A := λ buf, m (S (length buf)) buf.

Fixpoint mechanisms_loop (fuel : nat) (mechanisms : list string) : PM (list string) :=
  λ buf, match fuel, buf with
         | O, _ => Err OutOfFuel
         | _, [] => Ok (mechanisms, [])
         | S fuel, _ =>
             (mech ← read_cstring;
              if decide (mech = "") then mret mechanisms
              else mechanisms_loop fuel (mechanisms ++ [mech])) buf
         end.

Definition set_field (field_type : byte) (val : string) (d : PgDiagnostic) : PgDiagnostic :=
  let '(mkDiagnostic sv c m de h p f l r) := d in
  match field_type with
  | "S"%byte | "V"%byte => mkDiagnostic val c m de h p f l r
  | "C"%byte => mkDiagnostic sv val m de h p f l r
  | "M"%byte => mkDiagnostic sv c val de h p f l r
  | "D"%byte => mkDiagnostic sv c m (Some val) h p f l r
  | "H"%byte => mkDiagnostic sv c m de (Some val) p f l r
  | "P"%byte => mkDiagnostic sv c m de h (Some val) f l r
  | "F"%byte => mkDiagnostic sv c m de h p (Some val) l r
  | "L"%byte => mkDiagnostic sv c m de h p f (Some val) r
  | "R"%byte => mkDiagnostic sv c m de h p f l (Some val)
  | _ => d
  end.

Fixpoint diagnostic_loop (fuel : nat) (diag : PgDiagnostic) : PM PgDiagnostic :=
  λ buf, match fuel, buf with
         | O, _ => Err OutOfFuel
         | _, [] => Ok (diag, [])
         | S fuel, _ =>
             (field_type ← get_u8;
              if decide (field_type = x00) then mret diag
              else val ← read_cstring; diagnostic_loop fuel (set_field field_type val diag)) buf
         end.
Definition decode_diagnostic : PM PgDiagnostic := fuel_of (λ fuel, diagnostic_loop fuel PgDiagnostic_default).

(** [{:02x}]. *)
Definition lower_hex_digit (d : Z) : byte := to_u8 (if (d <? 10)%Z then 48 + d else 87 + d).
Definition lower_hex2 (n : Z) : list byte := [lower_hex_digit (n / 16); lower_hex_digit (n mod 16)].

(** [b as char], a character of [String]: code points 128 to 255 take two bytes. *)
Definition as_char (b : byte) : list byte :=
  if is_ascii b then [b] else [to_u8 (192 + u8 b / 64); to_u8 (128 + u8 b mod 64)].

Definition status_from_byte (b : byte) : result NetError TransactionStatus :=
  match b with
  | "I"%byte => Ok Idle
  | "T"%byte => Ok InTransaction
  | "E"%byte => Ok FailedTransaction
  | other => Err (ProtocolError ("Unknown transaction status byte: " +:+ of_bytes (as_char other)))
  end.
Definition status_to_byte (s : TransactionStatus) : byte :=
  match s with Idle => "I" | InTransaction => "T" | FailedTransaction => "E" end%byte.

Definition decode_authentication : PM AuthenticationRequest :=
  _ ← need 4 "Authentication message too short";
  auth_type ← get_i32;
  match auth_type with
  | 0 => mret AuthOk
  | 2 => mret KerberosV5
  | 3 => mret CleartextPassword
  | 5 => _ ← need 4 "MD5 salt truncated"; salt ← get_bytes 4; mret (MD5Password salt)
  | 6 => mret SCMCredential
  | 7 => mret GSS
  | 8 => data ← rest; mret (GSSContinue data)
  | 9 => mret SSPI
  | 10 => mechanisms ← fuel_of (λ fuel, mechanisms_loop fuel []); mret (SASL mechanisms)
  | 11 => data ← rest; mret (SASLContinue data)
  | 12 => data ← rest; mret (SASLFinal data)
  | other => raise (AuthenticationFailed
               ("Unsupported PostgreSQL authentication method type: " +:+ num other))
  end.

Definition decode_field : PM FieldDescription :=
  name ← read_cstring;
  _ ← need 18 "RowDescription field metadata truncated";
  table_oid ← get_i32;
  column_attr_num ← get_i16;
  type_oid ← get_i32;
  type_size ← get_i16;
  type_modifier ← get_i32;
  format_code ← get_i16;
  mret (mkField name table_oid column_attr_num type_oid type_size type_modifier format_code).

Definition decode_column : PM (option (list byte)) :=
  _ ← need 4 "DataRow column length truncated";
  col_len ← get_i32;
  if decide (col_len = -1) then mret None
  else if decide (0 <= col_len) then
    _ ← need col_len "DataRow column payload truncated";
    val_bytes ← get_bytes (Z.to_nat col_len);
    mret (Some val_bytes)
  else pg_err ("Invalid column length: " +:+ num col_len).

(** [let n = payload.get_i16() as usize; Vec::with_capacity(n); for _ in 0..n]. *)
Definition counted {A} (m : PM A) : PM (list A) :=
  field_count ← get_i16;
  _ ← with_capacity field_count;
  times (Z.to_nat field_count) m.

Definition decode_message (msg_type : byte) : PM BackendMessage :=
  match msg_type with
  | "R"%byte => req ← decode_authentication; mret (Authentication req)
  | "K"%byte =>
      _ ← need 8 "BackendKeyData truncated";
      process_id ← get_i32;
      secret_key ← get_i32;
      mret (BackendKeyData process_id secret_key)
  | "S"%byte => name ← read_cstring; value ← read_cstring; mret (ParameterStatus name value)
  | "Z"%byte =>
      _ ← need 1 "ReadyForQuery truncated";
      status_byte ← get_u8;
      status ← from_result (status_from_byte status_byte);
      mret (ReadyForQuery status)
  | "T"%byte =>
      _ ← need 2 "RowDescription truncated"; fields ← counted decode_field; mret (RowDescription fields)
  | "D"%byte =>
      _ ← need 2 "DataRow truncated"; values ← counted decode_column; mret (DataRow values)
  | "C"%byte => tag ← read_cstring; mret (CommandComplete tag)
  | "E"%byte => diagnostic ← decode_diagnostic; mret (ErrorResponse diagnostic)
  | "N"%byte => diagnostic ← decode_diagnostic; mret (NoticeResponse diagnostic)
  | "1"%byte => mret ParseComplete
  | "2"%byte => mret BindComplete
  | "3"%byte => mret CloseComplete
  | "n"%byte => mret NoData
  | "I"%byte => mret EmptyQueryResponse
  | "A"%byte =>
      _ ← need 4 "NotificationResponse truncated";
      process_id ← get_i32;
      channel ← read_cstring;
      pl ← read_cstring;
      mret (NotificationResponse process_id channel pl)
  | "G"%byte => mret CopyInResponse
  | "H"%byte => mret CopyOutResponse
  | "d"%byte => payload ← rest; mret (CopyData payload)
  | "c"%byte => mret CopyDone
  | other =>
      pg_err ("Unknown backend message type: '" +:+ of_bytes (as_char other) +:+ "' (0x"
              +:+ of_bytes (lower_hex2 (u8 other)) +:+ ")")
  end.

(** [BackendMessage::decode]: the rest of the payload is dropped. *)
Definition decode (msg_type : byte) (payload : list byte) : result fault BackendMessage :=
  fst <$> decode_message msg_type payload.
