(* ===== verification/PgWire.v ===== *)
(** * What goes over a PostgreSQL connection, and what the reader makes of it

    The reader of backend messages is safe but for a negative count, on which it panics;
    it reads back every message a server can write, and a server reads back every
    message the client writes.  The two other ends are written here after the
    protocol's documentation. *)
From S2P Require Import Prelude Bytes F64 Errors BoltValue PackStream PgMessages.

Open Scope Z_scope.
Open Scope string_scope.
Open Scope list_scope.

(** ** When reading panics

    With [n] bytes to read, [m] does not panic and does not run on forever; if it
    succeeds it leaves [k] bytes at least. *)
Definition safe {A} (n : Z) (m : PM A) (k : Z) : Prop :=
  ∀ buf, n <= blen buf →
    match m buf with Ok (_, buf') => k <= blen buf' | Err (Raise _) => True | Err _ => False end.

Lemma safe_ret {A} n (x : A) : safe n (mret x) n.
Proof. by intros buf. Qed.

Lemma safe_weaken {A} n n' k k' (m : PM A) : safe n m k → n <= n' → k' <= k → safe n' m k'.
Proof.
  intros H Hn Hk buf Hb. specialize (H buf). destruct (m buf) as [[? ?]|[]]; try apply H; lia.
Qed.

Lemma safe_bind {A B} n k j (m : PM A) (f : A → PM B) :
  safe n m k → (∀ x, safe k (f x) j) → safe n (m ≫= f) j.
Proof.
  intros Hm Hf buf Hb. specialize (Hm buf Hb). unfold mbind, PM_bind.
  destruct (m buf) as [[x buf']|[]]; try done. by apply Hf.
Qed.

Lemma safe_raise {A} n k e : safe n (raise (A := A) e) k.
Proof. by intros buf. Qed.

Lemma safe_need n k msg : safe n (need k msg) k.
Proof. intros buf _. unfold need. by destruct (Z.ltb_spec (blen buf) k). Qed.

Lemma safe_from_result {A} n (r : result NetError A) : safe n (from_result r) n.
Proof. intros buf Hb. by destruct r. Qed.

Lemma safe_get_bytes n c : Z.of_nat c <= n → safe n (get_bytes c) (n - Z.of_nat c).
Proof.
  intros Hn buf Hb. unfold get_bytes, split_to. unfold blen in *. rewrite decide_True by lia.
  cbn. rewrite length_drop. lia.
Qed.

Lemma safe_get_i32 n : 4 <= n → safe n get_i32 (n - 4).
Proof. intros Hn. eapply safe_bind; [by apply safe_get_bytes|intros x; apply safe_ret]. Qed.
Lemma safe_get_i16 n : 2 <= n → safe n get_i16 (n - 2).
Proof. intros Hn. eapply safe_bind; [by apply safe_get_bytes|intros x; apply safe_ret]. Qed.
Lemma safe_get_u8 n : 1 <= n → safe n get_u8 (n - 1).
Proof. intros Hn [|b buf] Hb; unfold blen in *; simpl in *; lia. Qed.

Lemma safe_rest n : safe n rest 0.
Proof. by intros buf. Qed.

(** A string takes a byte at least. *)
Lemma until_nul_shorter buf l r : until_nul buf = Some (l, r) → (length r < length buf)%nat.
Proof.
  revert l r. induction buf as [|b buf IH]; intros l r; cbn; [done|].
  case_decide; [intros [= <- <-]; lia|].
  destruct (until_nul buf) as [[l' r']|] eqn:E; [|done]. intros [= <- <-]. specialize (IH _ _ eq_refl).
  cbn. unfold id. lia.
Qed.

Lemma read_cstring_shorter buf s buf' :
  read_cstring buf = Ok (s, buf') → (length buf' < length buf)%nat.
Proof.
  unfold read_cstring. destruct (until_nul buf) as [[l r]|] eqn:E; [|done].
  destruct (from_utf8 l); [|done]. intros [= <- <-]. by eapply until_nul_shorter.
Qed.

Lemma safe_read_cstring n : safe n read_cstring 0.
Proof.
  intros buf _. unfold read_cstring. destruct (until_nul buf) as [[l r]|]; [|done].
  destruct (from_utf8 l); [|done]. apply blen_nonneg.
Qed.

Lemma safe_times {A} c (m : PM A) : safe 0 m 0 → safe 0 (times c m) 0.
Proof.
  intros Hm. induction c as [|c IH]; cbn [times]; [apply safe_ret|].
  eapply safe_bind; [done|]. intros x. eapply safe_bind; [done|]. intros xs. apply safe_ret.
Qed.

(** Every round of the loops takes a byte at least. *)
Lemma mechanisms_loop_safe fuel l buf :
  (length buf < fuel)%nat → match mechanisms_loop fuel l buf with Err Panic | Err OutOfFuel => False | _ => True end.
Proof.
  revert l buf. induction fuel as [|fuel IH]; intros l buf Hf; [lia|].
  destruct buf as [|b buf]; [done|]. cbn [mechanisms_loop]. unfold mbind, PM_bind.
  pose proof (safe_read_cstring 0 (b :: buf) (blen_nonneg _)) as Hs.
  destruct (read_cstring (b :: buf)) as [[s buf']|[]] eqn:E; try done.
  case_decide; [done|]. apply IH. apply read_cstring_shorter in E. simpl in *. lia.
Qed.

Lemma diagnostic_loop_safe fuel d buf :
  (length buf < fuel)%nat → match diagnostic_loop fuel d buf with Err Panic | Err OutOfFuel => False | _ => True end.
Proof.
  revert d buf. induction fuel as [|fuel IH]; intros d buf Hf; [lia|].
  destruct buf as [|b buf]; [done|]. cbn [diagnostic_loop get_u8]. unfold mbind, PM_bind. cbn [get_u8].
  case_decide; [done|].
  pose proof (safe_read_cstring 0 buf (blen_nonneg _)) as Hs.
  destruct (read_cstring buf) as [[s buf']|[]] eqn:E; try done.
  apply IH. apply read_cstring_shorter in E. simpl in *. lia.
Qed.

Lemma safe_loop {A} n (m : nat → PM A) :
  (∀ fuel buf, (length buf < fuel)%nat → match m fuel buf with Err Panic | Err OutOfFuel => False | _ => True end) →
  safe n (fuel_of m) 0.
Proof.
  intros Hm buf _. unfold fuel_of. specialize (Hm (S (length buf)) buf ltac:(lia)).
  destruct (m _ buf) as [[? ?]|[]]; try done. apply blen_nonneg.
Qed.

Lemma mechanisms_safe n : safe n (fuel_of (λ fuel, mechanisms_loop fuel [])) 0.
Proof. apply safe_loop. intros. by apply mechanisms_loop_safe. Qed.
Lemma decode_diagnostic_safe n : safe n decode_diagnostic 0.
Proof. apply safe_loop. intros. by apply diagnostic_loop_safe. Qed.

#[export] Hint Resolve safe_raise safe_need safe_from_result safe_get_i32 safe_get_i16 safe_get_u8
  safe_get_bytes safe_rest safe_read_cstring mechanisms_safe decode_diagnostic_safe : pg.
#[export] Hint Extern 3 (_ <= _) => lia : pg.

(** Follows the text of a reader; the numbers are the bytes left. *)
Ltac safely :=
  repeat lazymatch goal with
  | |- safe _ (mret _) _ => eapply safe_weaken; [apply safe_ret|reflexivity|lia]
  | |- safe _ (_ ≫= _) _ => eapply safe_bind; [solve [eauto with pg]|intros ?]
  | |- safe _ (match ?x with _ => _ end) _ => destruct x
  | |- safe _ _ _ => solve [eauto with pg]
  end.

Lemma decode_authentication_safe n : safe n decode_authentication 0.
Proof. unfold decode_authentication. safely. Qed.

Lemma decode_field_safe n : safe n decode_field 0.
Proof. unfold decode_field. safely. Qed.

Lemma decode_column_safe n : safe n decode_column 0.
Proof.
  unfold decode_column. do 2 (eapply safe_bind; [solve [eauto with pg]|intros ?]).
  case_decide; [safely|]. case_decide; [|apply safe_raise].
  eapply safe_bind; [apply safe_need|intros _]. eapply safe_bind; [apply safe_get_bytes; lia|intros ?]. safely.
Qed.
#[export] Hint Resolve decode_authentication_safe : pg.

(** A count, then as many elements: the count alone decides whether it panics. *)
Lemma counted_spec {A} (m : PM A) buf :
  (∀ n, safe n m 0) → 2 <= blen buf →
  match counted m buf with
  | Err Panic => as_i16 (get_be (take 2 buf)) < 0
  | Err OutOfFuel => False
  | _ => 0 <= as_i16 (get_be (take 2 buf))
  end.
Proof.
  intros Hm Hb. unfold counted, get_i16, get_bytes, split_to, mbind, PM_bind, mret, PM_ret.
  unfold blen in Hb. rewrite decide_True by lia. set (c := as_i16 (get_be (take 2 buf))).
  assert (Hc : - 2 ^ 15 <= c < 2 ^ 15) by by apply (as_signed_range 16).
  unfold with_capacity, as_unsigned. destruct (Z.ltb_spec I64_MAX (c mod 2 ^ 64)) as [Hlt|Hge].
  - cbn. destruct (decide (0 <= c)); [|lia]. rewrite Z.mod_small in Hlt by lia. unfold I64_MAX in *. lia.
  - assert (0 <= c).
    { destruct (decide (0 <= c)); [done|]. rewrite <- (Z.mod_unique c (2 ^ 64) (-1) (c + 2 ^ 64)) in Hge;
        unfold I64_MAX in *; lia. }
    cbn. pose proof (safe_times (Z.to_nat c) m (Hm 0) (drop 2 buf) (blen_nonneg _)) as Hs.
    by destruct (times _ _ _) as [[? ?]|[]].
Qed.

(** Reading a backend message returns a message or an error, whatever the bytes; only a
    negative count of fields or of columns panics. *)
Lemma decode_other_safe t : t ≠ "T"%byte → t ≠ "D"%byte → safe 0 (decode_message t) 0.
Proof.
  intros HT HD. destruct t; try done; cbn [decode_message]; safely.
Qed.

(** The count a message of fields or columns begins with. *)
Definition claimed_count (payload : list byte) : Z := as_i16 (get_be (take 2 payload)).

Lemma counted_message {A B} (m : PM A) (g : list A → B) msg payload :
  (∀ n, safe n m 0) → 2 <= blen payload →
  let r : result fault (B * list byte) := (_ ← need 2 msg; x ← counted m; mret (g x)) payload in
  r ≠ Err OutOfFuel ∧ (r = Err Panic ↔ claimed_count payload < 0).
Proof.
  intros Hm Hl. unfold need, mbind, PM_bind. destruct (Z.ltb_spec (blen payload) 2); [lia|].
  pose proof (counted_spec m payload Hm Hl) as Hc. unfold claimed_count.
  destruct (counted m payload) as [[x buf]|[]]; cbn; (split; [done|split; intros; done || lia]).
Qed.

Lemma fst_outcome {A} (r : result fault (A * list byte)) e : fst <$> r = Err e ↔ r = Err e.
Proof. destruct r; cbn; split; congruence. Qed.

Lemma decode_outcomes msg_type payload :
  decode msg_type payload ≠ Err OutOfFuel ∧
  (decode msg_type payload = Err Panic ↔
   (msg_type = "T"%byte ∨ msg_type = "D"%byte) ∧ 2 <= blen payload ∧ claimed_count payload < 0).
Proof.
  destruct (decide (msg_type = "T"%byte ∨ msg_type = "D"%byte)) as [Ht|Ht].
  - destruct (Z.ltb_spec (blen payload) 2) as [Hl|Hl].
    + destruct Ht as [-> | ->]; unfold decode; cbn [decode_message]; unfold mbind, PM_bind, need;
        (destruct (Z.ltb_spec (blen payload) 2); [|lia]); (split; [done|split; [done|intros [_ ?]; lia]]).
    + assert (Hs : decode_message msg_type payload ≠ Err OutOfFuel ∧
        (decode_message msg_type payload = Err Panic ↔ claimed_count payload < 0)).
      { destruct Ht as [-> | ->]; cbn [decode_message]; apply counted_message;
          auto using decode_field_safe, decode_column_safe. }
      unfold decode. rewrite !fst_outcome. tauto.
  - assert (Hs : safe 0 (decode_message msg_type) 0) by (apply decode_other_safe; tauto).
    specialize (Hs payload (blen_nonneg _)). unfold decode.
    destruct (decode_message msg_type payload) as [[? ?]|[]]; cbn; try done;
      (split; [done|split; [done|tauto]]).
Qed.

(** C39: reading a backend message never runs on forever, and it panics exactly on a row
    description or a data row that claims a negative number of entries: the count is cast
    to [usize] and taken for a capacity.  On every other input it returns a message or
    an error. *)
Theorem decode_panics_on_negative_count msg_type payload :
  decode msg_type payload ≠ Err OutOfFuel ∧
  (decode msg_type payload = Err Panic ↔
   (msg_type = "T"%byte ∨ msg_type = "D"%byte) ∧ 2 <= blen payload ∧ claimed_count payload < 0).
Proof. apply decode_outcomes. Qed.

Lemma negative_count_panics : decode "D" (put_i16 (-1)) = Err Panic.
Proof. vm_compute. reflexivity. Qed.

(** ** Reading back

    [m] reads [x] off the front of [l], whatever follows. *)
Definition reads {A} (m : PM A) (l : list byte) (x : A) : Prop := ∀ r, m (l ++ r) = Ok (x, r).

Lemma delivers_ret {A} (x : A) : reads (mret x) [] x.
Proof. done. Qed.

Lemma delivers_bind {A B} (m : PM A) (f : A → PM B) l1 l2 x y :
  reads m l1 x → reads (f x) l2 y → reads (m ≫= f) (l1 ++ l2) y.
Proof. intros Hm Hf r. unfold mbind, PM_bind. rewrite <- app_assoc, Hm. apply Hf. Qed.

(** The last reader of a chain. *)
Lemma reads_last {A B} (m : PM A) (f : A → B) l x : reads m l x → reads (x ← m; mret (f x)) l (f x).
Proof. intros Hm r. unfold mbind, PM_bind. by rewrite Hm. Qed.

Lemma reads_need {A} n msg (m : PM A) l x :
  n <= blen l → reads m l x → reads (need n msg ≫= λ _, m) l x.
Proof.
  intros Hn Hm r. unfold mbind, PM_bind, need. rewrite blen_app. pose proof (blen_nonneg r).
  destruct (Z.ltb_spec (blen l + blen r) n); [lia|]. apply Hm.
Qed.

Lemma reads_get_bytes n l : length l = n → reads (get_bytes n) l l.
Proof. intros <- r. unfold get_bytes. by rewrite split_to_app. Qed.

Lemma reads_get_i32 z : I32_MIN <= z <= I32_MAX → reads get_i32 (put_i32 z) z.
Proof.
  intros Hz r. unfold get_i32, mbind, PM_bind. rewrite (reads_get_bytes 4) by apply put_be_length.
  unfold put_i32. rewrite get_be_put_be. unfold as_i32, mret, PM_ret. do 3 f_equal.
  change (8 * Z.of_nat 4) with 32. rewrite as_signed_mod. unfold I32_MIN, I32_MAX in *. apply as_signed_id; lia.
Qed.

Lemma reads_get_i16 z : I16_MIN <= z <= I16_MAX → reads get_i16 (put_i16 z) z.
Proof.
  intros Hz r. unfold get_i16, mbind, PM_bind. rewrite (reads_get_bytes 2) by apply put_be_length.
  unfold put_i16. rewrite get_be_put_be. unfold as_i16, mret, PM_ret. do 3 f_equal.
  change (8 * Z.of_nat 2) with 16. rewrite as_signed_mod. unfold I16_MIN, I16_MAX in *. apply as_signed_id; lia.
Qed.

Lemma reads_get_u8 b : reads get_u8 [b] b.
Proof. done. Qed.

(** A string that can be sent: text without a zero byte. *)
Definition not_nul (b : byte) : bool := negb (bool_decide (b = x00)).
Definition cstr_ok (s : string) : bool := str_ok s && forallb not_nul (as_bytes s).

Lemma until_nul_app l r : forallb not_nul l = true → until_nul (l ++ x00 :: r) = Some (l, r).
Proof.
  induction l as [|b l IH]; cbn; [done|]. rewrite andb_true_iff. intros [Hb Hl].
  unfold not_nul in Hb. apply negb_true_iff, bool_decide_eq_false in Hb.
  rewrite decide_False by done. by rewrite IH.
Qed.

Lemma reads_cstring s : cstr_ok s = true → reads read_cstring (put_cstring s) s.
Proof.
  unfold cstr_ok. rewrite andb_true_iff. intros [Hs Hn] r. unfold read_cstring, put_cstring.
  rewrite <- app_assoc. cbn [app]. rewrite until_nul_app by done. by rewrite from_utf8_as_bytes.
Qed.

Lemma reads_times {A} (m : PM A) (put : A → list byte) (l : list A) :
  (∀ x, x ∈ l → reads m (put x) x) → reads (times (length l) m) (flat_map put l) l.
Proof.
  induction l as [|x l IH]; intros Hm; cbn [length times flat_map]; [apply delivers_ret|].
  eapply delivers_bind; [apply Hm; set_solver|]. rewrite <- (app_nil_r (flat_map put l)).
  eapply delivers_bind; [apply IH; intros; apply Hm; set_solver|apply delivers_ret].
Qed.

(** [counted] reads what is written behind its count. *)
Lemma reads_counted {A} (m : PM A) (put : A → list byte) (l : list A) :
  blen l <= I16_MAX → (∀ x, x ∈ l → reads m (put x) x) →
  reads (counted m) (put_i16 (blen l) ++ flat_map put l) l.
Proof.
  intros Hl Hm. pose proof (blen_nonneg l). unfold counted.
  eapply delivers_bind; [apply reads_get_i16; unfold I16_MIN in *; lia|].
  unfold with_capacity, as_unsigned. rewrite Z.mod_small by (unfold I16_MAX in *; lia).
  destruct (Z.ltb_spec I64_MAX (blen l)); [unfold I16_MAX, I64_MAX in *; lia|].
  change (flat_map put l) with ([] ++ flat_map put l). eapply delivers_bind; [apply delivers_ret|].
  unfold blen. rewrite Nat2Z.id. by apply reads_times.
Qed.

(** ** A server's messages

    The payloads of the protocol's documentation, for the messages the client knows. *)
Definition optional_field (field_type : byte) (o : option string) : list (byte * string) :=
  match o with Some val => [(field_type, val)] | None => [] end.
Definition diagnostic_fields (d : PgDiagnostic) : list (byte * string) :=
  [("S"%byte, severity d); ("C"%byte, d_code d); ("M"%byte, message d)]
  ++ optional_field "D" (detail d) ++ optional_field "H" (hint d) ++ optional_field "P" (position d)
  ++ optional_field "F" (file d) ++ optional_field "L" (line d) ++ optional_field "R" (routine d).
Definition put_diagnostic (d : PgDiagnostic) : list byte :=
  flat_map (λ f, f.1 :: put_cstring f.2) (diagnostic_fields d) ++ [x00].

Definition put_authentication (req : AuthenticationRequest) : list byte :=
  match req with
  | AuthOk => put_i32 0
  | KerberosV5 => put_i32 2
  | CleartextPassword => put_i32 3
  | MD5Password salt => put_i32 5 ++ salt
  | SCMCredential => put_i32 6
  | GSS => put_i32 7
  | GSSContinue data => put_i32 8 ++ data
  | SSPI => put_i32 9
  | SASL mechanisms => put_i32 10 ++ flat_map put_cstring mechanisms ++ [x00]
  | SASLContinue data => put_i32 11 ++ data
  | SASLFinal data => put_i32 12 ++ data
  end.

Definition put_field (f : FieldDescription) : list byte :=
  put_cstring (fd_name f) ++ put_i32 (table_oid f) ++ put_i16 (column_attr_num f)
  ++ put_i32 (type_oid f) ++ put_i16 (type_size f) ++ put_i32 (type_modifier f)
  ++ put_i16 (format_code f).

Definition put_column (v : option (list byte)) : list byte :=
  match v with Some l => put_i32 (blen l) ++ l | None => put_i32 (-1) end.

Definition backend_encode (m : BackendMessage) : byte * list byte :=
  match m with
  | Authentication req => ("R", put_authentication req)
  | BackendKeyData process_id secret_key => ("K", put_i32 process_id ++ put_i32 secret_key)
  | ParameterStatus name value => ("S", put_cstring name ++ put_cstring value)
  | ReadyForQuery status => ("Z", [status_to_byte status])
  | RowDescription fields => ("T", put_i16 (blen fields) ++ flat_map put_field fields)
  | DataRow values => ("D", put_i16 (blen values) ++ flat_map put_column values)
  | CommandComplete tag => ("C", put_cstring tag)
  | ErrorResponse diag => ("E", put_diagnostic diag)
  | NoticeResponse diag => ("N", put_diagnostic diag)
  | ParseComplete => ("1", [])
  | BindComplete => ("2", [])
  | CloseComplete => ("3", [])
  | NoData => ("n", [])
  | EmptyQueryResponse => ("I", [])
  | NotificationResponse process_id channel payload =>
      ("A", put_i32 process_id ++ put_cstring channel ++ put_cstring payload)
  | CopyInResponse => ("G", [])
  | CopyOutResponse => ("H", [])
  | CopyData data => ("d", data)
  | CopyDone => ("c", [])
  end%byte.

(** Values of the types: 32-bit and 16-bit integers, strings a [char *] can hold. *)
Definition in_i32 (z : Z) : bool := (I32_MIN <=? z)%Z && (z <=? I32_MAX)%Z.
Definition in_i16 (z : Z) : bool := (I16_MIN <=? z)%Z && (z <=? I16_MAX)%Z.
Definition option_ok {A} (p : A → bool) (o : option A) : bool :=
  match o with Some x => p x | None => true end.

Definition field_ok (f : FieldDescription) : bool :=
  cstr_ok (fd_name f) && in_i32 (table_oid f) && in_i16 (column_attr_num f) && in_i32 (type_oid f)
  && in_i16 (type_size f) && in_i32 (type_modifier f) && in_i16 (format_code f).
Definition diagnostic_ok (d : PgDiagnostic) : bool := forallb (λ f, cstr_ok f.2) (diagnostic_fields d).
Definition authentication_ok (req : AuthenticationRequest) : bool :=
  match req with
  | MD5Password salt => bool_decide (length salt = 4%nat)
  | SASL mechanisms => forallb (λ m, cstr_ok m && negb (bool_decide (m = ""))) mechanisms
  | _ => true
  end.
Definition backend_ok (m : BackendMessage) : bool :=
  match m with
  | Authentication req => authentication_ok req
  | BackendKeyData process_id secret_key => in_i32 process_id && in_i32 secret_key
  | ParameterStatus name value => cstr_ok name && cstr_ok value
  | RowDescription fields => (blen fields <=? I16_MAX)%Z && forallb field_ok fields
  | DataRow values =>
      (blen values <=? I16_MAX)%Z && forallb (option_ok (λ l, (blen l <=? I32_MAX)%Z)) values
  | CommandComplete tag => cstr_ok tag
  | ErrorResponse diag | NoticeResponse diag => diagnostic_ok diag
  | NotificationResponse process_id channel payload =>
      in_i32 process_id && cstr_ok channel && cstr_ok payload
  | _ => true
  end.

Lemma in_i32_spec z : in_i32 z = true ↔ I32_MIN <= z <= I32_MAX.
Proof. unfold in_i32. rewrite andb_true_iff, !Z.leb_le. tauto. Qed.
Lemma in_i16_spec z : in_i16 z = true ↔ I16_MIN <= z <= I16_MAX.
Proof. unfold in_i16. rewrite andb_true_iff, !Z.leb_le. tauto. Qed.

#[export] Hint Resolve reads_cstring reads_get_i32 reads_get_i16 reads_get_u8 delivers_ret : pg.

(** Both sides of a [&&], and integers in their ranges. *)
Ltac split_ok :=
  repeat match goal with
  | H : _ && _ = true |- _ => apply andb_true_iff in H as [? ?]
  | H : in_i32 _ = true |- _ => apply in_i32_spec in H
  | H : in_i16 _ = true |- _ => apply in_i16_spec in H
  | H : (_ <=? _)%Z = true |- _ => apply Z.leb_le in H
  | H : bool_decide _ = true |- _ => apply bool_decide_eq_true in H
  | H : negb (bool_decide _) = true |- _ => apply negb_true_iff, bool_decide_eq_false in H
  end.

(** One reader of a chain after another. *)
Ltac read_chain :=
  lazymatch goal with
  | |- reads (?m ≫= λ x, mret _) _ _ => apply reads_last; solve [eauto with pg]
  | |- reads (_ ≫= _) (_ ++ _) _ => eapply delivers_bind; [solve [eauto with pg]|read_chain]
  | |- reads _ _ _ => solve [eauto with pg]
  end.

Lemma reads_mechanisms mechanisms fuel acc r :
  forallb (λ m, cstr_ok m && negb (bool_decide (m = ""))) mechanisms = true →
  (length (flat_map put_cstring mechanisms) < fuel)%nat →
  mechanisms_loop fuel acc (flat_map put_cstring mechanisms ++ x00 :: r) = Ok (acc ++ mechanisms, r).
Proof.
  revert fuel acc. induction mechanisms as [|m l IH]; intros fuel acc Hok Hf;
    (destruct fuel as [|fuel]; [simpl in *; lia|]).
  - cbn. by rewrite app_nil_r.
  - cbn [forallb] in Hok. split_ok. cbn [flat_map]. rewrite <- app_assoc.
    assert (Hne : ∃ b l', put_cstring m = b :: l').
    { unfold put_cstring. destruct (as_bytes m); by eexists _, _. }
    destruct Hne as (b & l' & Hm).
    assert (Hrd : mechanisms_loop (S fuel) acc (put_cstring m ++ flat_map put_cstring l ++ x00 :: r)
      = mechanisms_loop fuel (acc ++ [m]) (flat_map put_cstring l ++ x00 :: r)).
    { rewrite Hm. cbn [mechanisms_loop app]. change (b :: l' ++ ?x) with ((b :: l') ++ x). rewrite <- Hm.
      unfold mbind, PM_bind. rewrite reads_cstring by done.
      by rewrite decide_False. }
    rewrite Hrd, IH, <- app_assoc; [done|done|].
    cbn [flat_map] in Hf. rewrite length_app, Hm in Hf. simpl in Hf. lia.
Qed.

Lemma reads_diagnostic_fields fields fuel d r :
  forallb (λ f, cstr_ok f.2 && negb (bool_decide (f.1 = x00))) fields = true →
  (length (flat_map (λ f, f.1 :: put_cstring f.2) fields) < fuel)%nat →
  diagnostic_loop fuel d (flat_map (λ f, f.1 :: put_cstring f.2) fields ++ x00 :: r)
  = Ok (foldl (λ d f, set_field f.1 f.2 d) d fields, r).
Proof.
  revert fuel d. induction fields as [|[b s] l IH]; intros fuel d Hok Hf;
    (destruct fuel as [|fuel]; [simpl in *; lia|]); [done|].
  cbn [forallb fst snd] in Hok. split_ok. cbn [flat_map fst snd app diagnostic_loop get_u8].
  unfold mbind, PM_bind. cbn [get_u8]. rewrite decide_False by done. rewrite <- app_assoc.
  rewrite reads_cstring by done. rewrite IH; [done|done|].
  cbn [flat_map] in Hf. rewrite length_app in Hf. simpl in Hf. lia.
Qed.

Lemma fields_give d : foldl (λ d f, set_field f.1 f.2 d) PgDiagnostic_default (diagnostic_fields d) = d.
Proof. by destruct d as [sv c m [] [] [] [] [] []]. Qed.

Lemma diagnostic_codes d : Forall (λ f, f.1 ≠ x00) (diagnostic_fields d).
Proof. destruct d as [sv c m [] [] [] [] [] []]; repeat constructor; done. Qed.

Lemma reads_diagnostic d : diagnostic_ok d = true → decode_diagnostic (put_diagnostic d) = Ok (d, []).
Proof.
  intros Hok. unfold decode_diagnostic, fuel_of, put_diagnostic. rewrite reads_diagnostic_fields.
  - by rewrite fields_give.
  - unfold diagnostic_ok in Hok. rewrite forallb_forall in *. intros f Hin. rewrite Hok by done.
    apply negb_true_iff, bool_decide_eq_false. pose proof (diagnostic_codes d) as Hc.
    rewrite Forall_forall in Hc. by apply Hc, list_elem_of_In.
  - rewrite length_app. lia.
Qed.

Lemma reads_field f : field_ok f = true → reads decode_field (put_field f) f.
Proof.
  intros Hok. unfold field_ok in Hok. split_ok. unfold decode_field, put_field. eapply delivers_bind; [by apply reads_cstring|].
  apply reads_need; [rewrite !blen_app; unfold put_i32, put_i16, blen; rewrite !put_be_length; lia|].
  destruct f as [n t c ty ts tm fc]. cbn [fd_name table_oid column_attr_num type_oid type_size type_modifier format_code] in *.
  read_chain.
Qed.

Lemma reads_column v :
  option_ok (λ l, (blen l <=? I32_MAX)%Z) v = true → reads decode_column (put_column v) v.
Proof.
  intros Hok. destruct v as [l|]; cbn in Hok; split_ok; cbn [put_column].
  - pose proof (blen_nonneg l). unfold decode_column. apply reads_need.
    { rewrite blen_app. unfold put_i32, blen. rewrite put_be_length. lia. }
    eapply delivers_bind; [apply reads_get_i32; unfold I32_MIN; lia|].
    rewrite decide_False, decide_True by lia. apply reads_need; [done|].
    apply reads_last, reads_get_bytes. unfold blen. by rewrite Nat2Z.id.
  - unfold decode_column. rewrite <- (app_nil_r (put_i32 (-1))).
    apply reads_need; [by vm_compute|]. eapply delivers_bind; [by apply reads_get_i32|].
    rewrite decide_True by done. apply delivers_ret.
Qed.

Lemma reads_decode t l m : reads (decode_message t) l m → decode t l = Ok m.
Proof. intros Hm. unfold decode. specialize (Hm []). rewrite app_nil_r in Hm. by rewrite Hm. Qed.

Lemma reads_authentication req :
  authentication_ok req = true → ∃ r, decode_authentication (put_authentication req) = Ok (req, r).
Proof.
  intros Hok. unfold decode_authentication, mbind, PM_bind, need.
  assert (Hlen : ∀ z l, (blen (put_i32 z ++ l) <? 4)%Z = false).
  { intros z l. rewrite blen_app. unfold put_i32. pose proof (blen_nonneg l). apply Z.ltb_ge.
    unfold blen at 1. rewrite put_be_length. lia. }
  destruct req; cbn [put_authentication];
    try (rewrite <- (app_nil_r (put_i32 _)); rewrite Hlen, reads_get_i32 by done; by eexists);
    rewrite Hlen, reads_get_i32 by done; try (by eexists).
  - cbn in Hok. split_ok. destruct (Z.ltb_spec (blen salt) 4); [unfold blen in *; lia|].
    pose proof (reads_get_bytes 4 salt Hok []) as E. rewrite app_nil_r in E. rewrite E. by eexists.
  - unfold fuel_of. rewrite reads_mechanisms; [by eexists|done|rewrite length_app; lia].
Qed.

(** Whatever a server writes, the client reads. *)
Lemma backend_roundtrip m :
  backend_ok m = true → decode (backend_encode m).1 (backend_encode m).2 = Ok m.
Proof.
  intros Hok. destruct m; cbn [backend_ok] in Hok; split_ok; cbn [backend_encode fst snd];
    try done; try (apply reads_decode; cbn [decode_message]; read_chain).
  - unfold decode. cbn [decode_message]. unfold mbind, PM_bind.
    destruct (reads_authentication req Hok) as [r ->]. done.
  - apply reads_decode. cbn [decode_message]. apply reads_need; [|read_chain].
    rewrite blen_app. unfold put_i32, blen. rewrite !put_be_length. lia.
  - by destruct status.
  - apply reads_decode. cbn [decode_message]. apply reads_need, reads_last, reads_counted; try done.
    + rewrite blen_app. unfold put_i16, blen at 1. rewrite put_be_length. pose proof (blen_nonneg (flat_map put_field fields)). lia.
    + intros f Hf. apply reads_field. rewrite forallb_forall in *. by apply H0, list_elem_of_In.
  - apply reads_decode. cbn [decode_message]. apply reads_need, reads_last, reads_counted; try done.
    + rewrite blen_app. unfold put_i16, blen at 1. rewrite put_be_length. pose proof (blen_nonneg (flat_map put_column values)). lia.
    + intros f Hf. apply reads_column. rewrite forallb_forall in *. by apply H0, list_elem_of_In.
  - unfold decode. cbn [decode_message]. unfold mbind, PM_bind. by rewrite reads_diagnostic.
  - unfold decode. cbn [decode_message]. unfold mbind, PM_bind. by rewrite reads_diagnostic.
  - apply reads_decode. cbn [decode_message]. apply reads_need; [|read_chain].
    rewrite blen_app. unfold put_i32, blen at 1. rewrite !put_be_length.
    pose proof (blen_nonneg (put_cstring channel ++ put_cstring payload)). lia.
Qed.

(** ** A server's reading

    The frame of a message, and the messages of the query phase. *)
Definition read_frame : PM (byte * list byte) :=
  tag ← get_u8;
  len ← get_i32;
  body ← get_bytes (Z.to_nat (len - 4));
  mret (tag, body).

(** [m] reads all of [body]. *)
Definition within {A} (body : list byte) (m : PM A) : PM A :=
  λ buf, match m body with
         | Ok (x, []) => Ok (x, buf)
         | Ok (_, _ :: _) => Err (Raise (ProtocolError "invalid message format"))
         | Err e => Err e
         end.

Definition get_data : PM (option (list byte)) :=
  len ← get_i32;
  if decide (len = -1) then mret None
  else data ← get_bytes (Z.to_nat len); mret (Some data).

Definition server_decode (tag : byte) : PM FrontendMessage :=
  match tag with
  | "Q"%byte => query ← read_cstring; mret (Query query)
  | "P"%byte =>
      name ← read_cstring; query ← read_cstring; param_types ← counted get_i32;
      mret (Parse name query param_types)
  | "B"%byte =>
      portal ← read_cstring; statement ← read_cstring; param_formats ← counted get_i16;
      params ← counted get_data; result_formats ← counted get_i16;
      mret (Bind portal statement param_formats params result_formats)
  | "E"%byte => portal ← read_cstring; max_rows ← get_i32; mret (Execute portal max_rows)
  | "D"%byte => target_type ← get_u8; name ← read_cstring; mret (Describe target_type name)
  | "C"%byte => target_type ← get_u8; name ← read_cstring; mret (Close target_type name)
  | "S"%byte => mret Sync
  | "H"%byte => mret Flush
  | "X"%byte => mret Terminate
  | _ => pg_err "invalid frontend message type"
  end.

Definition server_read : PM FrontendMessage :=
  '(tag, body) ← read_frame; within body (server_decode tag).

(** The type byte and the payload of a message; the password messages share a type. *)
Definition frontend_body (m : FrontendMessage) : byte * list byte :=
  match m with
  | Startup msg => (x00, startup_body msg)
  | Password pwd => ("p", pwd)
  | SASLInitialResponse mechanism data => ("p", put_cstring mechanism ++ put_data data)
  | SASLResponse data => ("p", data)
  | Query query => ("Q", put_cstring query)
  | Parse name query param_types => ("P", parse_body name query param_types)
  | Bind portal statement param_formats params result_formats =>
      ("B", bind_body portal statement param_formats params result_formats)
  | Execute portal max_rows => ("E", put_cstring portal ++ put_i32 max_rows)
  | Describe target_type name => ("D", target_type :: put_cstring name)
  | Close target_type name => ("C", target_type :: put_cstring name)
  | Sync => ("S", [])
  | Flush => ("H", [])
  | Terminate => ("X", [])
  end%byte.

Notation small l := (blen l <=? I16_MAX)%Z.

(** Messages of the query phase whose strings have no zero byte and whose counts fit. *)
Definition query_ok (m : FrontendMessage) : bool :=
  match m with
  | Query query => cstr_ok query
  | Parse name query param_types =>
      cstr_ok name && cstr_ok query && small param_types && forallb in_i32 param_types
  | Bind portal statement param_formats params result_formats =>
      cstr_ok portal && cstr_ok statement && small param_formats && forallb in_i16 param_formats
      && small params && forallb (option_ok (λ l, (blen l <=? I32_MAX)%Z)) params
      && small result_formats && forallb in_i16 result_formats
  | Execute portal max_rows => cstr_ok portal && in_i32 max_rows
  | Describe _ name | Close _ name => cstr_ok name
  | Sync | Flush | Terminate => true
  | _ => false
  end.
Definition frontend_ok (m : FrontendMessage) : bool :=
  query_ok m && (blen (frontend_body m).2 <=? I32_MAX - 4)%Z.

Lemma as_i32_small n : 0 <= n <= I32_MAX → as_i32 n = n.
Proof. intros Hn. apply as_signed_id; unfold I32_MAX in *; lia. Qed.
Lemma as_i16_small n : 0 <= n <= I16_MAX → as_i16 n = n.
Proof. intros Hn. apply as_signed_id; unfold I16_MAX in *; lia. Qed.

Lemma blen_cstring s : blen (put_cstring s) = blen (as_bytes s) + 1.
Proof. unfold put_cstring. by rewrite blen_app. Qed.

Lemma encode_framed m :
  frontend_ok m = true →
  encode m = [(frontend_body m).1] ++ put_i32 (4 + blen (frontend_body m).2) ++ (frontend_body m).2.
Proof.
  unfold frontend_ok. intros Hok. split_ok. pose proof (blen_nonneg (frontend_body m).2).
  assert (Hs : sized (frontend_body m).2 = put_i32 (4 + blen (frontend_body m).2) ++ (frontend_body m).2).
  { unfold sized. rewrite as_i32_small; [done|]. unfold I32_MAX in *. lia. }
  destruct m; try done; cbn [encode frontend_body fst snd] in *; try (by rewrite Hs).
  pose proof (blen_cstring query). pose proof (blen_nonneg (as_bytes query)).
  rewrite as_i32_small by (unfold I32_MAX in *; lia).
  replace (4 + blen (as_bytes query) + 1) with (4 + blen (put_cstring query)) by lia. done.
Qed.

Lemma reads_frame m :
  frontend_ok m = true → reads read_frame (encode m) (frontend_body m).
Proof.
  intros Hok. rewrite encode_framed by done. unfold frontend_ok in Hok. split_ok.
  pose proof (blen_nonneg (frontend_body m).2). unfold read_frame.
  eapply delivers_bind; [apply reads_get_u8|].
  eapply delivers_bind; [apply reads_get_i32; unfold I32_MIN, I32_MAX in *; lia|].
  assert (Hb : frontend_body m = ((frontend_body m).1, (frontend_body m).2)) by (by destruct (frontend_body m)).
  rewrite Hb at 3.
  apply (reads_last (get_bytes _) (pair (frontend_body m).1)), reads_get_bytes.
  unfold blen. lia.
Qed.

Lemma reads_data v :
  option_ok (λ l, (blen l <=? I32_MAX)%Z) v = true → reads get_data (put_data v) v.
Proof.
  intros Hok. destruct v as [l|]; cbn in Hok; split_ok; cbn [put_data].
  - pose proof (blen_nonneg l). rewrite as_i32_small by lia. unfold get_data.
    eapply delivers_bind; [apply reads_get_i32; unfold I32_MIN; lia|].
    rewrite decide_False by lia. apply reads_last, reads_get_bytes. unfold blen. by rewrite Nat2Z.id.
  - unfold get_data. rewrite <- (app_nil_r (put_i32 (-1))).
    eapply delivers_bind; [by apply reads_get_i32|]. rewrite decide_True by done. apply delivers_ret.
Qed.

Lemma reads_counted_ok {A} (m : PM A) (put : A → list byte) (ok : A → bool) (l : list A) :
  blen l <= I16_MAX → forallb ok l = true → (∀ x, ok x = true → reads m (put x) x) →
  reads (counted m) (put_list put l) l.
Proof.
  intros Hl Hok Hm. unfold put_list. rewrite as_i16_small by (pose proof (blen_nonneg l); lia).
  apply reads_counted; [done|]. intros x Hx. apply Hm. rewrite forallb_forall in Hok.
  by apply Hok, list_elem_of_In.
Qed.

#[export] Hint Extern 2 (reads (counted get_i32) _ _) =>
  eapply reads_counted_ok; [eassumption|eassumption|intros ? ?%in_i32_spec; by apply reads_get_i32] : pg.
#[export] Hint Extern 2 (reads (counted get_i16) _ _) =>
  eapply reads_counted_ok; [eassumption|eassumption|intros ? ?%in_i16_spec; by apply reads_get_i16] : pg.
#[export] Hint Extern 2 (reads (counted get_data) _ _) =>
  eapply reads_counted_ok; [eassumption|eassumption|intros ? ?; by apply reads_data] : pg.

Lemma reads_server m :
  query_ok m = true → reads (server_decode (frontend_body m).1) (frontend_body m).2 m.
Proof.
  intros Hok. destruct m; try done; cbn [query_ok] in Hok; split_ok;
    cbn [frontend_body server_decode fst snd]; unfold parse_body, bind_body;
    try (change (target_type :: ?l) with ([target_type] ++ l)); first [read_chain|apply delivers_ret].
Qed.

Lemma reads_server_read m : frontend_ok m = true → reads server_read (encode m) m.
Proof.
  intros Hok. unfold server_read. rewrite <- (app_nil_r (encode m)).
  eapply delivers_bind; [by apply reads_frame|].
  unfold frontend_ok in Hok. split_ok. pose proof (reads_server m ltac:(done) []) as Hm.
  rewrite app_nil_r in Hm. destruct (frontend_body m) as [tag body]. intros r.
  unfold within. cbn in Hm. by rewrite Hm.
Qed.

(** The messages that the client writes in one flush arrive one by one: a server that
    reads frames as the protocol says takes out of the bytes exactly the messages, in
    order and with their fields, and leaves what follows. *)
Theorem frontend_delivered ms rest :
  forallb frontend_ok ms = true →
  times (length ms) server_read (flat_map encode ms ++ rest) = Ok (ms, rest).
Proof.
  intros Hok. apply reads_times. intros m Hm. rewrite forallb_forall in Hok.
  by apply reads_server_read, Hok, list_elem_of_In.
Qed.

(** A prepared statement, run: what an extended query sends before it waits. *)
Definition extended_query : list FrontendMessage :=
  [Parse "" "SELECT $1" [25]; Bind "" "" [] [Some (as_bytes "Ada"); None] [0]; Execute "" 0; Sync].
Lemma frontend_delivered_witness :
  forallb frontend_ok extended_query = true
  ∧ times 4 server_read (flat_map encode extended_query ++ [x51]) = Ok (extended_query, [x51]).
Proof. split; [by vm_compute|]. apply (frontend_delivered extended_query). by vm_compute. Defined.

(** The number of parameters goes through 16 bits: of 65536 of them none is announced,
    and the server takes their bytes for the formats of the results. *)
Lemma bind_count_wraps portal statement formats :
  bind_body portal statement [] (replicate (2 ^ 16) None) formats
  = put_cstring portal ++ put_cstring statement ++ put_i16 0 ++ put_i16 0
    ++ flat_map put_data (replicate (2 ^ 16) None) ++ put_list put_i16 formats.
Proof.
  unfold bind_body, put_list at 2. unfold blen. rewrite length_replicate.
  replace (as_i16 (Z.of_nat (2 ^ 16))) with 0 by (vm_compute; reflexivity). by rewrite <- !app_assoc.
Qed.

(** ** The start-up message

    A server reads keys and values up to an empty key. *)
Fixpoint pairs_loop (fuel : nat) (ps : list (string * string)) : PM (list (string * string)) :=
  match fuel with
  | O => λ _, Err OutOfFuel
  | S fuel =>
      key ← read_cstring;
      if decide (key = "") then mret ps
      else value ← read_cstring; pairs_loop fuel (ps ++ [(key, value)])
  end.

Definition server_startup : PM StartupMessage :=
  len ← get_i32;
  body ← get_bytes (Z.to_nat (len - 4));
  within body (version ← get_i32;
               ps ← fuel_of (λ fuel, pairs_loop fuel []);
               mret (mkStartup version ps)).

Definition startup_ok (m : StartupMessage) : bool :=
  in_i32 (protocol_version m)
  && forallb (λ kv, cstr_ok kv.1 && negb (bool_decide (kv.1 = "")) && cstr_ok kv.2) (startup_parameters m)
  && (blen (startup_body m) <=? I32_MAX - 4)%Z.

Notation put_pairs := (flat_map (λ kv : string * string, put_cstring kv.1 ++ put_cstring kv.2)).

Lemma reads_pairs kvs fuel ps r :
  forallb (λ kv, cstr_ok kv.1 && negb (bool_decide (kv.1 = "")) && cstr_ok kv.2) kvs = true →
  (length kvs < fuel)%nat →
  pairs_loop fuel ps (put_pairs kvs ++ x00 :: r) = Ok (ps ++ kvs, r).
Proof.
  revert fuel ps. induction kvs as [|[k v] l IH]; intros fuel ps Hok Hf;
    (destruct fuel as [|fuel]; [simpl in *; lia|]).
  - cbn. by rewrite app_nil_r.
  - cbn [forallb fst snd] in Hok. split_ok. cbn [flat_map pairs_loop fst snd].
    unfold mbind, PM_bind. rewrite <- !app_assoc, reads_cstring by done.
    rewrite decide_False by done. rewrite reads_cstring by done.
    rewrite IH, <- app_assoc; [done|done|simpl in Hf; lia].
Qed.

Lemma pairs_length kvs : (length kvs <= length (put_pairs kvs))%nat.
Proof.
  induction kvs as [|kv l IH]; cbn [flat_map length]; [done|]. rewrite !length_app.
  assert (0 < length (put_cstring kv.1))%nat by (unfold put_cstring; rewrite length_app; simpl; lia). lia.
Qed.

(** What a server makes of a start-up message is what the client put in. *)
Lemma startup_delivered m : startup_ok m = true → reads server_startup (startup_encode m) m.
Proof.
  unfold startup_ok. intros Hok. split_ok. pose proof (blen_nonneg (startup_body m)).
  unfold startup_encode, sized, server_startup.
  rewrite as_i32_small by (unfold I32_MAX in *; lia).
  eapply delivers_bind; [apply reads_get_i32; unfold I32_MIN, I32_MAX in *; lia|].
  rewrite <- (app_nil_r (startup_body m)) at 2.
  eapply delivers_bind; [apply reads_get_bytes; unfold blen; lia|]. intros r. unfold within, startup_body.
  unfold mbind, PM_bind, fuel_of. rewrite reads_get_i32 by done. rewrite reads_pairs; [|done|].
  - by destruct m.
  - rewrite length_app. pose proof (pairs_length (startup_parameters m)). simpl. lia.
Qed.

(** A zero byte in a user name ends it: what follows becomes parameters of the session. *)
Lemma startup_user_injects :
  server_startup (startup_encode (StartupMessage_new (of_bytes (as_bytes "eve" ++ [x00] ++ as_bytes "database"
                                                       ++ [x00] ++ as_bytes "payroll")) None))
  = Ok (mkStartup PG_PROTOCOL_V3 [("user", "eve"); ("database", "payroll"); ("client_encoding", "UTF8");
                                  ("application_name", "voyager-net")], []).
Proof. vm_compute. reflexivity. Qed.
