(* ===== verification/PgStream.v ===== *)
(** * PostgreSQL messages over a socket ([voyager-net/src/postgres/codec.rs])

    The socket is what its successive reads return, as in [BoltStream]; what is written
    to it is appended to the bytes already sent. *)
From S2P Require Import Prelude Bytes F64 Errors BoltValue PackStream BoltStream PgMessages PgWire.

Open Scope Z_scope.
Open Scope string_scope.
Open Scope list_scope.

Definition MAX_PG_MESSAGE_SIZE : Z := 128 * 1024 * 1024.

(** ** Writing *)

Definition write_startup_message (msg : StartupMessage) (sent : list byte) : list byte :=
  sent ++ startup_encode msg.
Definition write_frontend_message (msg : FrontendMessage) (sent : list byte) : list byte :=
  sent ++ encode msg.
Definition write_frontend_messages (msgs : list FrontendMessage) (sent : list byte) : list byte :=
  sent ++ flat_map encode msgs.

(** ** Reading

    A reader returns the socket with its result, for the connection outlives an error;
    after a read that failed nothing more comes from it. *)
Definition SM (A : Type) : Type := socket → result fault A * socket.
#[export] Instance SM_ret : MRet SM := λ A x reads, (Ok x, reads).
#[export] Instance SM_bind : MBind SM :=
  λ A B f m reads, match m reads with (Ok x, reads) => f x reads | (Err e, reads) => (Err e, reads) end.
Definition s_result {A} (r : result fault A) : SM A := λ reads, (r, reads).
Definition s_err {A} (e : NetError) : SM A := s_result (Err (Raise e)).

(** [read_exact] with [.map_err(NetError::IoError)]. *)
Definition read_bytes (n : nat) : SM (list byte) :=
  λ reads, match read_exact "" n reads with
           | Ok (l, reads) => (Ok l, reads)
           | Err _ => (Err (Raise IoError), [])
           end.

(** [reader.read_u8()]: the end of the stream is told apart from a failure. *)
Definition read_type : SM byte :=
  λ reads, match reads with
           | [] | Some [] :: _ =>
               (Err (Raise (Closed "PostgreSQL connection closed unexpectedly by remote host")), [])
           | None :: _ => (Err (Raise IoError), [])
           | Some [b] :: reads => (Ok b, reads)
           | Some (b :: chunk) :: reads => (Ok b, Some chunk :: reads)
           end.

Definition read_backend_message : SM BackendMessage :=
  msg_type ← read_type;
  l ← read_bytes 4;
  let length := as_i32 (get_be l) in
  if decide (length < 4) then
    s_err (ProtocolError ("Invalid PostgreSQL message length: " +:+ num length))
  else
    let payload_len := length - 4 in
    if decide (MAX_PG_MESSAGE_SIZE < payload_len) then
      s_err (ProtocolError
        ("PostgreSQL message size " +:+ num payload_len +:+ " exceeds maximum allowed limit of "
         +:+ num MAX_PG_MESSAGE_SIZE +:+ " bytes"))
    else
      payload ← read_bytes (Z.to_nat payload_len);
      s_result (decode msg_type payload).

(** [n] messages, one after another. *)
Fixpoint read_backend_messages (n : nat) : SM (list BackendMessage) :=
  match n with
  | O => mret []
  | S n => m ← read_backend_message; ms ← read_backend_messages n; mret (m :: ms)
  end.

(** ** What a server sends arrives *)

Definition server_frame (m : BackendMessage) : list byte :=
  let '(tag, payload) := backend_encode m in tag :: put_i32 (4 + blen payload) ++ payload.

Definition sendable (m : BackendMessage) : bool :=
  backend_ok m && (blen (backend_encode m).2 <=? MAX_PG_MESSAGE_SIZE)%Z.

Lemma read_type_spec chunks b s :
  nonempty chunks → concat chunks = b :: s →
  ∃ chunks', read_type (socket_of chunks) = (Ok b, socket_of chunks') ∧ concat chunks' = s ∧ nonempty chunks'.
Proof.
  intros Hne Hs. destruct Hne as [|c chunks Hc Hne]; [done|].
  destruct c as [|b' c]; [done|]. injection Hs as -> Hs. destruct c as [|x c].
  - by exists chunks.
  - exists ((x :: c) :: chunks). split; [done|]. split; [done|]. by constructor.
Qed.

Lemma read_exact_prefix l s chunks :
  nonempty chunks → concat chunks = l ++ s →
  ∃ chunks', read_bytes (length l) (socket_of chunks) = (Ok l, socket_of chunks')
    ∧ concat chunks' = s ∧ nonempty chunks'.
Proof.
  intros Hne Hs. pose proof (read_exact_spec "" (length l) chunks Hne) as Hr.
  rewrite decide_False in Hr by (rewrite Hs, length_app; lia).
  destruct Hr as (chunks' & Hr & E & N). exists chunks'. unfold read_bytes. rewrite Hr.
  rewrite Hs, take_app_length in *. by rewrite drop_app_length in E.
Qed.

(** However the network cuts it, a message arrives, and the reader stops behind it. *)
Lemma read_message_spec m tail chunks :
  sendable m = true → nonempty chunks → concat chunks = server_frame m ++ tail →
  ∃ chunks', read_backend_message (socket_of chunks) = (Ok m, socket_of chunks')
    ∧ concat chunks' = tail ∧ nonempty chunks'.
Proof.
  intros Hok Hne Hs. unfold sendable in Hok. split_ok. pose proof (backend_roundtrip m ltac:(done)) as Hd.
  unfold server_frame in Hs. destruct (backend_encode m) as [tag payload]. cbn [fst snd] in *.
  cbn [app] in Hs. rewrite <- app_assoc in Hs.
  destruct (read_type_spec _ _ _ Hne Hs) as (c1 & E1 & S1 & N1).
  destruct (read_exact_prefix (put_i32 (4 + blen payload)) _ _ N1 S1) as (c2 & E2 & S2 & N2).
  destruct (read_exact_prefix payload _ _ N2 S2) as (c3 & E3 & S3 & N3).
  exists c3. split; [|done]. unfold read_backend_message, mbind, SM_bind. rewrite E1.
  unfold put_i32 in E2. rewrite put_be_length in E2. rewrite E2.
  pose proof (blen_nonneg payload). unfold MAX_PG_MESSAGE_SIZE in *.
  assert (Hlen : as_i32 (get_be (put_be 4 (4 + blen payload))) = 4 + blen payload).
  { rewrite get_be_put_be. change (8 * Z.of_nat 4) with 32. unfold as_i32. rewrite as_signed_mod.
    apply as_i32_small. unfold I32_MAX. lia. }
  rewrite Hlen. rewrite !decide_False by lia.
  replace (Z.to_nat (4 + blen payload - 4)) with (length payload) by (unfold blen; lia).
  rewrite E3. unfold s_result. by rewrite Hd.
Qed.

Lemma read_messages_spec ms tail chunks :
  forallb sendable ms = true → nonempty chunks → concat chunks = flat_map server_frame ms ++ tail →
  ∃ chunks', read_backend_messages (length ms) (socket_of chunks) = (Ok ms, socket_of chunks')
    ∧ concat chunks' = tail ∧ nonempty chunks'.
Proof.
  revert chunks. induction ms as [|m ms IH]; intros chunks Hok Hne Hs; [by exists chunks|].
  cbn [forallb] in Hok. split_ok. cbn [flat_map] in Hs. rewrite <- app_assoc in Hs.
  destruct (read_message_spec m _ _ ltac:(done) Hne Hs) as (c1 & E1 & S1 & N1).
  destruct (IH c1 ltac:(done) N1 S1) as (c2 & E2 & S2 & N2).
  exists c2. split; [|done]. cbn [length read_backend_messages]. unfold mbind, SM_bind. rewrite E1.
  by rewrite E2.
Qed.

(** Whatever messages a server sends, and however the network cuts their bytes, the
    client reads exactly these messages, in order and with their fields, and stops behind
    the last one.  The messages are the protocol's, written as its documentation says. *)
Theorem server_messages_arrive ms tail chunks :
  forallb sendable ms = true → nonempty chunks → concat chunks = flat_map server_frame ms ++ tail →
  ∃ reads, read_backend_messages (length ms) (socket_of chunks) = (Ok ms, reads)
    ∧ socket_bytes reads = tail.
Proof.
  intros Hok Hne Hs. destruct (read_messages_spec ms tail chunks Hok Hne Hs) as (c & E & S & _).
  exists (socket_of c). split; [done|]. by rewrite socket_of_bytes.
Qed.

(** The answer to a query, in three pieces; the last one begins another answer. *)
Definition an_answer : list BackendMessage :=
  [RowDescription [mkField "n" 0 0 25 (-1) (-1) 0]; DataRow [Some (as_bytes "Ada")]; DataRow [None];
   CommandComplete "SELECT 2"; ReadyForQuery Idle].
Definition answer_bytes : list byte := flat_map server_frame an_answer.

Lemma server_messages_arrive_witness :
  ∃ reads, read_backend_messages 5
      (socket_of [take 3 answer_bytes; take 40 (drop 3 answer_bytes); drop 43 answer_bytes ++ [x5a]])
    = (Ok an_answer, reads) ∧ socket_bytes reads = [x5a].
Proof.
  apply (server_messages_arrive an_answer [x5a]); [by vm_compute|by repeat constructor|by vm_compute].
Defined.

(** A length that does not cover itself, or one beyond the limit, is refused unread. *)
Lemma bad_lengths :
  (read_backend_message [Some ("D"%byte :: put_i32 3)]).1
    = Err (Raise (ProtocolError "Invalid PostgreSQL message length: 3"))
  ∧ (read_backend_message [Some ("D"%byte :: put_i32 (MAX_PG_MESSAGE_SIZE + 5))]).1
    = Err (Raise (ProtocolError
        "PostgreSQL message size 134217729 exceeds maximum allowed limit of 134217728 bytes")).
Proof. split; vm_compute; reflexivity. Qed.
