(* ===== verification/Failover.v ===== *)
(** * Decoder errors and the circuit breaker

    A size claim that cannot fit the buffer is rejected by the PackStream decoder
    with a message the error model recognises; the breaker takes it for a defect
    of the response, not of the connection, and does not count it. *)
From S2P Require Import Prelude Bytes Errors Circuit BoltValue PackStream.

Open Scope Z_scope.

Lemma str_contains_app_l a b p : str_contains b p = true → str_contains (a +:+ b) p = true.
Proof.
  intros H. induction a as [|c a IH]; [done|].
  change (String.String c a +:+ b) with (String.String c (a +:+ b)).
  rewrite str_contains_unfold. rewrite IH. apply orb_true_r.
Qed.

Section failover.
Context `{LowerCase}.

(** The client's view of a response it could not decode: the decoder's error goes
  to the router, which neither trips nor changes. *)
Definition spares_circuit {A} (r : result NetError A) s now now' : Prop :=
∃ e, r = Err e ∧ record_net_error s e now now' = (false, s).

Lemma exceeds_semantic {A} msg s now now' :
str_contains msg "exceeds available buffer" = true →
spares_circuit (Err (ProtocolError msg) : result NetError A) s now now'.
Proof.
intros E. eexists. split; [done|]. unfold record_net_error, classify_net_error. simpl. by rewrite E.
Qed.

(** A list, map or structure that claims more elements than the bytes left
  could hold is rejected before any element is read, and the rejection never
  counts against the circuit: the router's state does not change. *)
Theorem oversize_claim_never_trips f len tag buf s now now' :
blen buf < len → len <= U32_MAX →
spares_circuit (decode_list_payload f len buf) s now now'
∧ spares_circuit (decode_map_payload f len buf) s now now'
∧ spares_circuit (decode_structure_payload f len (tag :: buf)) s now now'.
Proof.
intros Hlen Hmax. unfold U32_MAX in *.
unfold decode_list_payload, decode_map_payload, decode_structure_payload, U64_MAX.
pose proof (blen_nonneg buf).
destruct (Z.ltb_spec (blen buf) len); [|lia].
destruct (Z.ltb_spec (blen buf) (Z.min (len * 2) 18446744073709551615)); [|lia].
split; [|split]; apply exceeds_semantic;
  repeat first [ exact (str_contains_app " " "exceeds available buffer" _)
               | exact (str_contains_app " bytes, which " "exceeds available buffer" _)
               | apply str_contains_app_l ].
Qed.
End failover.

Lemma oversize_claim_never_trips_witness :
  let s := CircuitInner_new CircuitConfig_default in
  @spares_circuit ascii_LowerCase _ (decode_list_payload decode (2 ^ 31) [x01; x02]) s 0 0.
Proof.
  apply (@oversize_claim_never_trips ascii_LowerCase decode (2 ^ 31) x01 [x01; x02]);
    unfold blen, U32_MAX; simpl; lia.
Defined.
