(* ===== verification/Calendar.v ===== *)
(** * Calendar conversions and ISO-8601 texts ([voyager-net/src/bolt/packstream.rs])

    The civil-day algorithm behind [BoltDate] and the [to_iso_string] methods of
    the temporal values.  Rust's [/] on signed integers is [Z.quot], [as] casts
    and the [u32] arithmetic wrap as the release profile does; [div_euclid] and
    [rem_euclid] by a positive constant are [Z.div] and [Z.modulo]. *)
From S2P Require Import Prelude Bytes Errors BoltValue.

Open Scope Z_scope.
Open Scope list_scope.

Definition u32 (z : Z) : Z := as_unsigned 32 z.
Definition i64_saturating_add (a b : Z) : Z := Z.max I64_MIN (Z.min I64_MAX (a + b)).
Definition i64_wrapping_sub (a b : Z) : Z := as_signed 64 (a - b).

Definition days_to_ymd (days : Z) : Z * Z * Z :=
  let z := i64_saturating_add days 719468 in
  let era := Z.quot (if 0 <=? z then z else i64_wrapping_sub z 146096) 146097 in
  let doe := u32 (z - era * 146097) in
  let yoe := u32 (doe - doe / 1460 + doe / 36524 - doe / 146096) / 365 in
  let y := yoe + era * 400 in
  let doy := u32 (doe - (365 * yoe + yoe / 4 - yoe / 100)) in
  let mp := u32 (5 * doy + 2) / 153 in
  let d := u32 (doy - (153 * mp + 2) / 5 + 1) in
  let m := if mp <? 10 then mp + 3 else mp - 9 in
  let y := if m <=? 2 then y + 1 else y in
  (as_signed 32 y, m, d).

Definition ymd_to_days (year month day : Z) : Z :=
  let y := if month <=? 2 then year - 1 else year in
  let era := Z.quot (if 0 <=? y then y else y - 399) 400 in
  let yoe := u32 (y - era * 400) in
  let m := if 2 <? month then month - 3 else month + 9 in
  let doy := u32 (u32 (153 * m + 2) / 5 + day - 1) in
  let doe := u32 (yoe * 365 + yoe / 4 - yoe / 100 + doy) in
  era * 146097 + doe - 719468.

(** The hour, minute, second and sub-second nanoseconds of a count of
    nanoseconds; the [as u32] casts keep values below [10^9]. *)
Definition nanos_to_hmsn (nanos : Z) : Z * Z * Z * Z :=
  let total_secs := Z.quot nanos 1000000000 mod 86400 in
  let sub_nanos := nanos mod 1000000000 in
  (total_secs / 3600, total_secs mod 3600 / 60, total_secs mod 60, sub_nanos).

(** [format!("{:0w}", n)]: zero padding counts the sign. *)
Definition zeros (n : nat) : list byte := replicate n x30.
Definition pad_left (w : nat) (l : list byte) : list byte := zeros (w - length l) ++ l.
Definition fmt_pad (w : nat) (n : Z) : string :=
  of_bytes (if n <? 0 then x2d :: pad_left (w - 1) (digits (- n)) else pad_left w (digits n)).

Definition format_tz_offset (offset_seconds : Z) : string :=
  let sign : string := if 0 <=? offset_seconds then "+" else "-" in
  let abs_secs := Z.abs offset_seconds in
  let hours := abs_secs / 3600 in
  let minutes := abs_secs mod 3600 / 60 in
  let seconds := abs_secs mod 60 in
  if seconds =? 0 then sign +:+ fmt_pad 2 hours +:+ ":" +:+ fmt_pad 2 minutes
  else sign +:+ fmt_pad 2 hours +:+ ":" +:+ fmt_pad 2 minutes +:+ ":" +:+ fmt_pad 2 seconds.

Definition format_time_string (h m s nanos : Z) (offset : option string) : string :=
  let hms := fmt_pad 2 h +:+ ":" +:+ fmt_pad 2 m +:+ ":" +:+ fmt_pad 2 s in
  let base :=
    if nanos =? 0 then hms
    else if nanos mod 1000000 =? 0 then hms +:+ "." +:+ fmt_pad 3 (nanos / 1000000)
    else if nanos mod 1000 =? 0 then hms +:+ "." +:+ fmt_pad 6 (nanos / 1000)
    else hms +:+ "." +:+ fmt_pad 9 nanos in
  match offset with Some off => base +:+ off | None => base end.

Definition fmt_ymd (ymd : Z * Z * Z) : string :=
  let '(y, m, d) := ymd in fmt_pad 4 y +:+ "-" +:+ fmt_pad 2 m +:+ "-" +:+ fmt_pad 2 d.

Definition BoltDate_from_ymd (year month day : Z) : result NetError BoltDate :=
  if negb ((1 <=? month) && (month <=? 12)) || negb ((1 <=? day) && (day <=? 31))
  then Err (ProtocolError ("Invalid calendar date: " +:+ fmt_ymd (year, month, day)))
  else Ok (mkDate (ymd_to_days year month day)).

Definition BoltDate_to_ymd (d : BoltDate) : Z * Z * Z := days_to_ymd (date_days d).
Definition BoltDate_to_iso_string (d : BoltDate) : string := fmt_ymd (BoltDate_to_ymd d).

Definition BoltTime_to_iso_string (t : BoltTime) : string :=
  let '(h, m, s, nanos) := nanos_to_hmsn (time_nanoseconds t) in
  let offset := format_tz_offset (time_tz_offset_seconds t) in
  format_time_string h m s nanos (Some offset).

Definition BoltLocalTime_to_iso_string (t : BoltLocalTime) : string :=
  let '(h, m, s, nanos) := nanos_to_hmsn (ltime_nanoseconds t) in
  format_time_string h m s nanos None.

(** The date and time of day of a count of seconds, as the three date-time
    methods compute them. *)
Definition civil_of_seconds (secs : Z) : (Z * Z * Z) * (Z * Z * Z) :=
  let secs_of_day := secs mod 86400 in
  (days_to_ymd (secs / 86400),
   (secs_of_day / 3600, secs_of_day mod 3600 / 60, secs_of_day mod 60)).

Definition BoltDateTime_to_iso_string (t : BoltDateTime) : string :=
  let wall_secs := i64_saturating_add (dt_seconds t) (dt_tz_offset_seconds t) in
  let '(ymd, (h, min, sec)) := civil_of_seconds wall_secs in
  let offset := format_tz_offset (dt_tz_offset_seconds t) in
  fmt_ymd ymd +:+ "T" +:+ format_time_string h min sec (u32 (dt_nanoseconds t)) (Some offset).

Definition BoltLocalDateTime_to_iso_string (t : BoltLocalDateTime) : string :=
  let '(ymd, (h, min, sec)) := civil_of_seconds (ldt_seconds t) in
  fmt_ymd ymd +:+ "T" +:+ format_time_string h min sec (u32 (ldt_nanoseconds t)) None.

Definition BoltDateTimeZoneId_to_iso_string (t : BoltDateTimeZoneId) : string :=
  let '(ymd, (h, min, sec)) := civil_of_seconds (dtz_seconds t) in
  fmt_ymd ymd +:+ "T" +:+ format_time_string h min sec (u32 (dtz_nanoseconds t)) (Some "Z")
  +:+ "[" +:+ dtz_zone_id t +:+ "]".

Definition fmt_int (n : Z) : string := of_bytes (show_int n).

Definition BoltDuration_to_iso_string (d : BoltDuration) : string :=
  if (dur_months d =? 0) && (dur_days d =? 0) && (dur_seconds d =? 0) && (dur_nanoseconds d =? 0)
  then "PT0S" else
  let res := "P"%string in
  let res :=
    if dur_months d =? 0 then res else
    let years := Z.quot (dur_months d) 12 in
    let rem_months := Z.rem (dur_months d) 12 in
    let res := if years =? 0 then res else res +:+ fmt_int years +:+ "Y" in
    if negb (rem_months =? 0) || (years =? 0) then res +:+ fmt_int rem_months +:+ "M" else res in
  let res := if dur_days d =? 0 then res else res +:+ fmt_int (dur_days d) +:+ "D" in
  if (dur_seconds d =? 0) && (dur_nanoseconds d =? 0) then res else
  let res := res +:+ "T" in
  let h := Z.quot (dur_seconds d) 3600 in
  let m := Z.quot (Z.rem (dur_seconds d) 3600) 60 in
  let s := Z.rem (dur_seconds d) 60 in
  let res := if h =? 0 then res else res +:+ fmt_int h +:+ "H" in
  let res := if m =? 0 then res else res +:+ fmt_int m +:+ "M" in
  if negb (s =? 0) || negb (dur_nanoseconds d =? 0) || ((h =? 0) && (m =? 0)) then
    if dur_nanoseconds d =? 0 then res +:+ fmt_int s +:+ "S" else
    let nanos := Z.abs (dur_nanoseconds d) in
    res +:+ fmt_int s +:+ "." +:+
    (if nanos mod 1000000 =? 0 then fmt_pad 3 (nanos / 1000000)
     else if nanos mod 1000 =? 0 then fmt_pad 6 (nanos / 1000)
     else fmt_pad 9 nanos) +:+ "S"
  else res.

Example iso_date : BoltDate_to_iso_string (mkDate 19797) = "2024-03-15"%string.
Proof. reflexivity. Qed.
Example iso_date_bc : BoltDate_to_iso_string (mkDate (-720000)) = "-002-09-16"%string.
Proof. reflexivity. Qed.
Example iso_datetime :
  BoltDateTime_to_iso_string (mkDateTime 1710513015 123000000 7200)
  = "2024-03-15T16:30:15.123+02:00"%string.
Proof. reflexivity. Qed.
Example iso_duration :
  BoltDuration_to_iso_string (mkDuration 14 3 14706 0) = "P1Y2M3DT4H5M6S"%string.
Proof. reflexivity. Qed.
(** Minus half a second, which Bolt sends as [-1] seconds and [5 * 10^8]
    nanoseconds, is printed as minus one and a half. *)
Example iso_duration_negative :
  BoltDuration_to_iso_string (mkDuration 0 0 (-1) 500000000) = "PT-1.500S"%string.
Proof. reflexivity. Qed.

(** ** Correctness of the civil-day algorithm

    A year of the algorithm starts on the first of March, so that the leap day
    is its last; [k] is a year of the 400-year era and [mp] a month, March
    first. *)

(** The Gregorian calendar. *)
Definition is_leap (y : Z) : bool :=
  ((y mod 4 =? 0) && negb (y mod 100 =? 0)) || (y mod 400 =? 0).

Definition days_in_month (y m : Z) : Z :=
  if m =? 2 then if is_leap y then 29 else 28
  else if (m =? 4) || (m =? 6) || (m =? 9) || (m =? 11) then 30 else 31.

Definition valid_date (ymd : Z * Z * Z) : Prop :=
  let '(y, m, d) := ymd in 1 <= m <= 12 ∧ 1 <= d <= days_in_month y m.

Definition next_date (ymd : Z * Z * Z) : Z * Z * Z :=
  let '(y, m, d) := ymd in
  if d <? days_in_month y m then (y, m, d + 1)
  else if m <? 12 then (y, m + 1, 1) else (y + 1, 1, 1).

(** Days of the era before its year [k], and of a year before its month [mp]. *)
Definition year_start (k : Z) : Z := 365 * k + k / 4 - k / 100 + k / 400.
Definition month_start (mp : Z) : Z := (153 * mp + 2) / 5.
Definition year_of (doe : Z) : Z := (doe - doe / 1460 + doe / 36524 - doe / 146096) / 365.
Definition month_of (doy : Z) : Z := (5 * doy + 2) / 153.

Lemma year_of_spec doe :
  0 <= doe < 146097 →
  0 <= year_of doe < 400 ∧ year_start (year_of doe) <= doe < year_start (year_of doe + 1).
Proof.
  intros H. unfold year_start, year_of.
  assert (doe / 36524 = 0 ∨ doe / 36524 = 1 ∨ doe / 36524 = 2 ∨ doe / 36524 = 3 ∨ doe / 36524 = 4)
    as Hc by dlia.
  assert (doe / 146096 = 0 ∨ doe = 146096) as [He| ->] by dlia; [|by vm_compute].
  rewrite He.
  destruct Hc as [Hc|[Hc|[Hc|[Hc|Hc]]]]; rewrite Hc; dlia.
Qed.

Lemma year_start_mono k k' : k <= k' → year_start k <= year_start k'.
Proof. unfold year_start. dlia. Qed.

Lemma year_of_unique doe k :
  0 <= k < 400 → year_start k <= doe < year_start (k + 1) → year_of doe = k.
Proof.
  intros Hk H. assert (0 <= doe < 146097) as Hd.
  { pose proof (year_start_mono 0 k). pose proof (year_start_mono (k + 1) 400).
    change (year_start 0) with 0 in *. change (year_start 400) with 146097 in *. lia. }
  destruct (year_of_spec doe Hd) as [Hr Hs].
  pose proof (year_start_mono (year_of doe + 1) k). pose proof (year_start_mono (k + 1) (year_of doe)).
  lia.
Qed.

Lemma year_start_small k : 0 <= k < 400 → year_start k = 365 * k + k / 4 - k / 100.
Proof. unfold year_start. intros. rewrite (Z.div_small k 400); lia. Qed.

Lemma is_leap_era y e : is_leap (y + e * 400) = is_leap y.
Proof.
  unfold is_leap.
  replace (y + e * 400) with (y + (e * 100) * 4) at 1 by lia. rewrite Z_mod_plus_full.
  replace (y + e * 400) with (y + (e * 4) * 100) at 1 by lia. by rewrite !Z_mod_plus_full.
Qed.

Lemma year_length k :
  year_start (k + 1) - year_start k = if is_leap (k + 1) then 366 else 365.
Proof.
  unfold year_start, is_leap.
  destruct (Z.eqb_spec ((k + 1) mod 4) 0), (Z.eqb_spec ((k + 1) mod 100) 0),
    (Z.eqb_spec ((k + 1) mod 400) 0); simpl; dlia.
Qed.

Lemma year_start_era y : y / 400 * 146097 + year_start (y mod 400) = year_start y.
Proof. unfold year_start. dlia. Qed.

Lemma month_of_spec doy :
  0 <= doy <= 365 →
  0 <= month_of doy <= 11 ∧ month_start (month_of doy) <= doy < month_start (month_of doy + 1).
Proof. unfold month_of, month_start. dlia. Qed.

Lemma month_of_unique doy mp :
  0 <= mp <= 11 → month_start mp <= doy < month_start (mp + 1) → month_of doy = mp.
Proof. unfold month_of, month_start. dlia. Qed.

(** Month numbers: January is 1; the algorithm's month 0 is March. *)
Definition month_number (mp : Z) : Z := if mp <? 10 then mp + 3 else mp - 9.
Definition month_index (m : Z) : Z := if 2 <? m then m - 3 else m + 9.

Lemma month_number_index m : 1 <= m <= 12 → 0 <= month_index m <= 11 ∧ month_number (month_index m) = m.
Proof.
  intros. unfold month_number, month_index. destruct (Z.ltb_spec 2 m).
  - destruct (Z.ltb_spec (m - 3) 10); lia.
  - destruct (Z.ltb_spec (m + 9) 10); lia.
Qed.

Lemma month_index_number mp : 0 <= mp <= 11 → 1 <= month_number mp <= 12 ∧ month_index (month_number mp) = mp.
Proof.
  intros. unfold month_number, month_index. destruct (Z.ltb_spec mp 10).
  - destruct (Z.ltb_spec 2 (mp + 3)); lia.
  - destruct (Z.ltb_spec 2 (mp - 9)); lia.
Qed.

(** Months are as long as the gaps between their starts; February ends with the
    year. *)
Lemma month_length y m :
  1 <= m <= 12 → m ≠ 2 →
  month_start (month_index m + 1) - month_start (month_index m) = days_in_month y m.
Proof.
  intros Hm Hne.
  assert (m = 1 ∨ m = 3 ∨ m = 4 ∨ m = 5 ∨ m = 6 ∨ m = 7 ∨ m = 8 ∨ m = 9 ∨ m = 10 ∨ m = 11 ∨ m = 12)
    as Hc by lia.
  by repeat destruct Hc as [->|Hc]; [..|subst].
Qed.

Lemma u32_id z : 0 <= z <= U32_MAX → u32 z = z.
Proof. unfold u32, as_unsigned, U32_MAX. intros. apply Z.mod_small. lia. Qed.

Lemma quot_floor_era z :
  Z.quot (if 0 <=? z then z else z - 146096) 146097 = z / 146097.
Proof. destruct (Z.leb_spec 0 z); dlia. Qed.

Lemma quot_floor_400 y : Z.quot (if 0 <=? y then y else y - 399) 400 = y / 400.
Proof. destruct (Z.leb_spec 0 y); dlia. Qed.

(** The days [days_to_ymd] converts exactly: those whose year fits an [i32]. *)
Definition days_ok (days : Z) : Prop := -784000000000 <= days <= 784000000000.
Definition year_ok (y : Z) : Prop := -2146000000 <= y <= 2146000000.

(** The algorithm without its machine arithmetic. *)
Lemma days_to_ymd_eq days :
  days_ok days →
  let era := (days + 719468) / 146097 in
  let doe := (days + 719468) mod 146097 in
  let k := year_of doe in
  let doy := doe - year_start k in
  let m := month_number (month_of doy) in
  days_to_ymd days
  = (k + era * 400 + (if m <=? 2 then 1 else 0), m, doy - month_start (month_of doy) + 1).
Proof.
  unfold days_ok. intros H. cbv zeta. unfold days_to_ymd, i64_saturating_add, I64_MIN, I64_MAX.
  rewrite (Z.min_r _ (days + 719468)), Z.max_r by lia.
  set (z := days + 719468).
  assert (i64_wrapping_sub z 146096 = z - 146096) as ->.
  { unfold i64_wrapping_sub. apply as_signed_id; unfold z; lia. }
  rewrite quot_floor_era. set (era := z / 146097).
  assert (z - era * 146097 = z mod 146097) as -> by (unfold era; dlia).
  pose proof (Z.mod_pos_bound z 146097 ltac:(lia)) as Hdoe. set (doe := z mod 146097) in *.
  destruct (year_of_spec doe Hdoe) as [Hk Hdoy].
  rewrite (u32_id doe) by (unfold U32_MAX; lia).
  rewrite (u32_id (doe - _ + _ - _)) by (unfold U32_MAX; dlia).
  fold (year_of doe). rewrite <- year_start_small by lia.
  pose proof (year_length (year_of doe)) as Hlen.
  assert (0 <= doe - year_start (year_of doe) <= 365) as Hd by (case_match; lia).
  rewrite (u32_id (doe - _)) by (unfold U32_MAX; lia).
  set (doy := doe - year_start (year_of doe)) in *.
  rewrite (u32_id (5 * doy + 2)) by (unfold U32_MAX; lia). fold (month_of doy).
  fold (month_start (month_of doy)). fold (month_number (month_of doy)).
  destruct (month_of_spec doy Hd) as [Hmp Hms].
  rewrite (u32_id (doy - month_start (month_of doy) + 1))
    by (unfold U32_MAX, month_start in *; dlia).
  f_equal. f_equal.
  assert (-5366342 <= era <= 5366342) by (unfold era, z; dlia).
  destruct (month_number _ <=? 2); rewrite as_signed_id by lia; lia.
Qed.

Lemma ymd_to_days_eq y m d :
  I32_MIN <= y <= I32_MAX → 1 <= m <= 12 → 1 <= d <= 31 →
  let y' := if m <=? 2 then y - 1 else y in
  ymd_to_days y m d
  = y' / 400 * 146097 + (year_start (y' mod 400) + month_start (month_index m) + d - 1) - 719468.
Proof.
  unfold I32_MIN, I32_MAX. intros Hy Hm Hd. cbv zeta. unfold ymd_to_days.
  set (y' := if m <=? 2 then y - 1 else y).
  rewrite (quot_floor_400 y').
  assert (y' - y' / 400 * 400 = y' mod 400) as -> by dlia.
  pose proof (Z.mod_pos_bound y' 400 ltac:(lia)) as Hk.
  rewrite (u32_id (y' mod 400)) by (unfold U32_MAX; lia).
  fold (month_index m). destruct (month_number_index m Hm) as [Hi _].
  rewrite (u32_id (153 * month_index m + 2)) by (unfold U32_MAX; lia).
  fold (month_start (month_index m)).
  assert (0 <= month_start (month_index m) <= 337) by (unfold month_start; dlia).
  rewrite (u32_id (month_start _ + d - 1)) by (unfold U32_MAX; lia).
  pose proof (year_start_small _ Hk) as Hs.
  pose proof (year_start_mono 0 (y' mod 400)). pose proof (year_start_mono (y' mod 400) 400).
  change (year_start 0) with 0 in *. change (year_start 400) with 146097 in *.
  rewrite u32_id by (unfold U32_MAX; lia). lia.
Qed.

(** Position of a valid date in its algorithm year. *)
Lemma valid_date_doy y m d :
  valid_date (y, m, d) →
  let y' := if m <=? 2 then y - 1 else y in
  let k := y' mod 400 in
  let doy := month_start (month_index m) + d - 1 in
  0 <= doy < year_start (k + 1) - year_start k ∧ month_of doy = month_index m.
Proof.
  intros [Hm Hd]. cbv zeta.
  set (y' := if m <=? 2 then y - 1 else y).
  pose proof (Z.mod_pos_bound y' 400 ltac:(lia)) as Hk.
  pose proof (year_length (y' mod 400)) as Hlen. destruct (month_number_index m Hm) as [Hi Hn].
  assert (0 <= month_start (month_index m)) by (unfold month_start; dlia).
  destruct (decide (m = 2)) as [->|Hne].
  - assert (is_leap (y' mod 400 + 1) = is_leap y) as Hleap.
    { rewrite <- (is_leap_era _ (y' / 400)). f_equal. unfold y'. simpl. dlia. }
    rewrite Hlen, Hleap. unfold days_in_month in Hd. simpl in Hd.
    change (month_start (month_index 2)) with 337 in *.
    split; [destruct (is_leap y); lia|]. apply month_of_unique; [done|].
    change (month_start (month_index 2)) with 337.
    change (month_start (month_index 2 + 1)) with 367. destruct (is_leap y); lia.
  - pose proof (month_length y m Hm Hne) as Hml. split.
    + assert (month_start (month_index m + 1) <= 337).
      { assert (month_index m <= 10).
        { destruct (decide (month_index m = 11)) as [E|]; [|lia].
          rewrite E in Hn. unfold month_number in Hn. simpl in Hn. lia. }
        unfold month_start. dlia. }
      destruct (is_leap _); lia.
    + apply month_of_unique; lia.
Qed.

Lemma days_of_date_range y m d :
  year_ok y → valid_date (y, m, d) → days_ok (ymd_to_days y m d).
Proof.
  intros Hy [Hm Hd]. assert (days_in_month y m <= 31) by (unfold days_in_month; case_all; lia).
  unfold days_ok, year_ok in *. rewrite ymd_to_days_eq by (unfold I32_MIN, I32_MAX; lia).
  set (y' := if m <=? 2 then y - 1 else y).
  assert (-2146000001 <= y' <= 2146000000) by (unfold y'; case_match; lia).
  pose proof (Z.mod_pos_bound y' 400 ltac:(lia)) as Hk.
  pose proof (year_start_mono 0 (y' mod 400)). pose proof (year_start_mono (y' mod 400) 400).
  change (year_start 0) with 0 in *. change (year_start 400) with 146097 in *.
  destruct (month_number_index m Hm) as [Hi _].
  assert (0 <= month_start (month_index m) <= 337) by (unfold month_start; dlia).
  assert (-5365001 <= y' / 400 <= 5365000) by dlia. lia.
Qed.

Lemma days_to_ymd_to_days y m d :
  year_ok y → valid_date (y, m, d) → days_to_ymd (ymd_to_days y m d) = (y, m, d).
Proof.
  intros Hy Hv. pose proof (days_of_date_range y m d Hy Hv) as Hr.
  destruct (valid_date_doy y m d Hv) as [Hdoy Hmo]. destruct Hv as [Hm Hd].
  assert (days_in_month y m <= 31) by (unfold days_in_month; case_all; lia).
  rewrite days_to_ymd_eq by done. cbv zeta.
  rewrite (ymd_to_days_eq y m d) by (unfold year_ok, I32_MIN, I32_MAX in *; lia). cbv zeta.
  set (y' := if m <=? 2 then y - 1 else y) in *. set (k := y' mod 400) in *.
  pose proof (Z.mod_pos_bound y' 400 ltac:(lia)) as Hk. fold k in Hk.
  set (doy := month_start (month_index m) + d - 1) in *.
  pose proof (year_start_mono 0 k). pose proof (year_start_mono (k + 1) 400).
  change (year_start 0) with 0 in *. change (year_start 400) with 146097 in *.
  replace (y' / 400 * 146097 + (year_start k + month_start (month_index m) + d - 1) - 719468 + 719468)
    with ((year_start k + doy) + y' / 400 * 146097) by (unfold doy; lia).
  rewrite Z_div_plus_full, Z_mod_plus_full by lia.
  rewrite (Z.div_small (year_start k + doy)), (Z.mod_small (year_start k + doy)) by lia.
  rewrite (year_of_unique _ k) by lia.
  replace (year_start k + doy - year_start k) with doy by lia. rewrite Hmo.
  destruct (month_number_index m Hm) as [_ ->].
  assert (k + (0 + y' / 400) * 400 = y') as -> by (unfold k; dlia).
  unfold y', doy. f_equal; [f_equal|lia]. destruct (m <=? 2); lia.
Qed.

Lemma ymd_to_days_to_ymd days :
  days_ok days →
  let '(y, m, d) := days_to_ymd days in
  valid_date (y, m, d) ∧ ymd_to_days y m d = days.
Proof.
  intros H. rewrite days_to_ymd_eq by done. cbv zeta.
  set (z := days + 719468). pose proof (Z.mod_pos_bound z 146097 ltac:(lia)) as Hdoe.
  set (doe := z mod 146097) in *. destruct (year_of_spec doe Hdoe) as [Hk Hs].
  set (k := year_of doe) in *. pose proof (year_length k) as Hlen.
  set (doy := doe - year_start k).
  destruct (month_of_spec doy) as [Hmp Hms]; [unfold doy; destruct (is_leap _); lia|].
  set (mp := month_of doy) in *. destruct (month_index_number mp Hmp) as [Hm Hidx].
  set (m := month_number mp) in *. set (d := doy - month_start mp + 1).
  set (y := k + z / 146097 * 400 + (if m <=? 2 then 1 else 0)).
  assert ((if m <=? 2 then y - 1 else y) = k + z / 146097 * 400) as Hy'
    by (unfold y; destruct (m <=? 2); lia).
  assert (1 <= d <= days_in_month y m) as Hd.
  { split; [unfold d; lia|]. destruct (decide (m = 2)) as [E|Hne].
    - assert (mp = 11) as -> by (rewrite <- Hidx, E; done).
      unfold days_in_month, d, doy, y. rewrite E. simpl.
      replace (k + z / 146097 * 400 + 1) with (k + 1 + z / 146097 * 400) by lia.
      rewrite is_leap_era. change (month_start 11) with 337.
      unfold doy in *. destruct (is_leap (k + 1)); lia.
    - rewrite <- (month_length y m Hm Hne), Hidx. unfold d. lia. }
  assert (days_in_month y m <= 31) by (unfold days_in_month; case_all; lia).
  split; [done|]. unfold days_ok in H.
  rewrite ymd_to_days_eq; [| |done|lia].
  - rewrite Hy', Hidx. rewrite Z_div_plus_full, Z_mod_plus_full by lia.
    rewrite (Z.div_small k), (Z.mod_small k) by lia. unfold d, doy, doe, z. dlia.
  - unfold I32_MIN, I32_MAX, y. assert (-5366342 <= z / 146097 <= 5366342) by (unfold z; dlia).
    destruct (m <=? 2); lia.
Qed.

(** The day after a valid date. *)
Lemma next_date_days y m d :
  year_ok y → valid_date (y, m, d) →
  valid_date (next_date (y, m, d)) ∧
  let '(y', m', d') := next_date (y, m, d) in ymd_to_days y' m' d' = ymd_to_days y m d + 1.
Proof.
  intros Hy [Hm Hd]. unfold year_ok in Hy.
  assert (∀ y m, 1 <= days_in_month y m <= 31) as Hdim by
    (intros; unfold days_in_month; case_all; lia).
  pose proof (Hdim y m). pose proof (Hdim y (m + 1)). pose proof (Hdim (y + 1) 1).
  unfold next_date.
  destruct (Z.ltb_spec d (days_in_month y m)); [|destruct (Z.ltb_spec m 12)].
  - split; [split; lia|]. rewrite !ymd_to_days_eq by (unfold I32_MIN, I32_MAX; lia). cbv zeta. lia.
  - split; [split; lia|]. rewrite !ymd_to_days_eq by (unfold I32_MIN, I32_MAX; lia). cbv zeta.
    assert (d = days_in_month y m) as -> by lia.
    pose proof (year_start_era y). pose proof (year_start_era (y - 1)).
    destruct (decide (m = 2)) as [->|Hne].
    + change (month_index (2 + 1)) with 0. change (month_index 2) with 11. simpl.
      change (month_start 0) with 0. change (month_start 11) with 337.
      pose proof (year_length (y - 1)) as Hlen. replace (y - 1 + 1) with y in Hlen by lia.
      unfold days_in_month. simpl. destruct (is_leap y); lia.
    + pose proof (month_length y m Hm Hne).
      destruct (decide (m = 1)) as [->|]; [|].
      { change (1 + 1 <=? 2) with true. change (1 <=? 2) with true. cbn iota.
        change (month_index (1 + 1)) with (month_index 1 + 1). lia. }
      destruct (Z.leb_spec (m + 1) 2); [lia|]. destruct (Z.leb_spec m 2); [lia|].
      replace (month_index (m + 1)) with (month_index m + 1); [lia|].
      unfold month_index. destruct (Z.ltb_spec 2 m), (Z.ltb_spec 2 (m + 1)); lia.
  - assert (m = 12) as -> by lia. split; [split; lia|].
    rewrite !ymd_to_days_eq by (unfold I32_MIN, I32_MAX; lia). cbv zeta. simpl.
    assert (d = 31) as -> by (unfold days_in_month in *; simpl in *; lia).
    replace (y + 1 - 1) with y by lia. change (month_start (month_index 1)) with 306.
    change (month_start (month_index 12)) with 275. lia.
Qed.

Definition days_range (days : Z) : Prop := -783000000000 <= days <= 783000000000.

Lemma days_range_year days y m d :
  days_range days → days_to_ymd days = (y, m, d) → -2145000000 <= y <= 2145000000.
Proof.
  unfold days_range. intros H. rewrite days_to_ymd_eq by (unfold days_ok; lia).
  cbv zeta. intros [= <- _ _].
  destruct (year_of_spec ((days + 719468) mod 146097)) as [Hk _]; [dlia|].
  assert (-5359450 <= (days + 719468) / 146097 <= 5359460) by dlia.
  destruct (_ <=? 2); lia.
Qed.

(** C27: [days_to_ymd] is the proleptic Gregorian calendar: day zero is 1970-01-01,
    every day is a date that exists, and the day after is the next date, by the
    month lengths and the leap rule. *)
Theorem days_to_ymd_gregorian days :
  days_range days →
  days_to_ymd 0 = (1970, 1, 1)
  ∧ valid_date (days_to_ymd days)
  ∧ days_to_ymd (days + 1) = next_date (days_to_ymd days).
Proof.
  intros H. pose proof H as Hr. unfold days_range in Hr. split; [done|].
  pose proof (ymd_to_days_to_ymd days) as Hd.
  destruct (days_to_ymd days) as [[y m] d] eqn:E.
  destruct Hd as [Hv Hd]; [unfold days_ok; lia|].
  pose proof (days_range_year days y m d H E) as Hy. split; [done|].
  destruct (next_date_days y m d) as [Hv' Hn]; [unfold year_ok; lia | done|].
  destruct (next_date (y, m, d)) as [[y' m'] d'] eqn:En.
  rewrite <- Hd, <- Hn. apply days_to_ymd_to_days; [|done].
  assert (y' = y ∨ y' = y + 1) by (unfold next_date in En; case_all; simplify_eq; lia).
  unfold year_ok. lia.
Qed.

(** [days_to_ymd] and [ymd_to_days] are mutually inverse: a date survives the
    trip through its day number and a day number the trip through its date. *)
Theorem civil_days_roundtrip days y m d :
  days_range days → year_ok y → valid_date (y, m, d) →
  days_to_ymd (ymd_to_days y m d) = (y, m, d)
  ∧ let '(y', m', d') := days_to_ymd days in ymd_to_days y' m' d' = days.
Proof.
  intros Hr Hy Hv. split; [by apply days_to_ymd_to_days|].
  pose proof (ymd_to_days_to_ymd days) as Hd. unfold days_range in Hr.
  destruct (days_to_ymd days) as [[y' m'] d']. apply Hd. unfold days_ok. lia.
Qed.

(** ** Time of day *)

Lemma hms_split s :
  0 <= s < 86400 →
  let '(h, m, sec) := (s / 3600, s mod 3600 / 60, s mod 60) in
  0 <= h < 24 ∧ 0 <= m < 60 ∧ 0 <= sec < 60 ∧ h * 3600 + m * 60 + sec = s.
Proof. simpl. dlia. Qed.

(** The civil time printed for a count of seconds is that instant: its date
    exists, its hour, minute and second are in range, and the day number and
    the time of day add up to the count, before the epoch as after it. *)
Theorem civil_of_seconds_exact secs :
  days_range (secs / 86400) →
  let '((y, m, d), (h, min, s)) := civil_of_seconds secs in
  valid_date (y, m, d) ∧ 0 <= h < 24 ∧ 0 <= min < 60 ∧ 0 <= s < 60
  ∧ ymd_to_days y m d * 86400 + h * 3600 + min * 60 + s = secs.
Proof.
  intros Hr. unfold civil_of_seconds.
  pose proof (ymd_to_days_to_ymd (secs / 86400)) as Hd.
  destruct (days_to_ymd (secs / 86400)) as [[y m] d].
  destruct Hd as [Hv Hd]; [unfold days_ok, days_range in *; lia|].
  pose proof (hms_split (secs mod 86400) ltac:(dlia)) as (? & ? & ? & ?).
  repeat (split; [done|]). rewrite Hd. dlia.
Qed.

(** For a non-negative count of nanoseconds, [nanos_to_hmsn] is the time of
    day in range whose parts add up to the count, modulo the day. *)
Theorem nanos_to_hmsn_exact nanos :
  0 <= nanos →
  let '(h, m, s, sub) := nanos_to_hmsn nanos in
  0 <= h < 24 ∧ 0 <= m < 60 ∧ 0 <= s < 60 ∧ 0 <= sub < 1000000000
  ∧ ((h * 60 + m) * 60 + s) * 1000000000 + sub = nanos mod (86400 * 1000000000).
Proof.
  intros Hn. unfold nanos_to_hmsn. rewrite Z.quot_div_nonneg by lia.
  pose proof (hms_split (nanos / 1000000000 mod 86400) ltac:(dlia)) as (? & ? & ? & ?).
  repeat (split; [done|]). split; [dlia|].
  rewrite (Z.mul_comm 86400), Z.rem_mul_r by lia. lia.
Qed.

(** One nanosecond before midnight is printed as the last nanosecond of the
    first second: the seconds truncate where the nanoseconds floor. *)
Example nanos_to_hmsn_negative : nanos_to_hmsn (-1) = (0, 0, 0, 999999999).
Proof. reflexivity. Qed.

(** A day that does not exist passes [from_ymd]'s checks. *)
Example from_ymd_february_31 :
  BoltDate_from_ymd 2023 2 31 = Ok (mkDate 19419) ∧ days_to_ymd 19419 = (2023, 3, 3).
Proof. split; reflexivity. Qed.

(** ** Witnesses *)

Lemma days_to_ymd_gregorian_witness :
  valid_date (2024, 2, 29) ∧ days_to_ymd 19783 = (2024, 3, 1).
Proof.
  destruct (days_to_ymd_gregorian 19782) as (_ & Hv & Hn); [unfold days_range; lia|].
  split; [exact Hv | exact Hn].
Defined.

Lemma civil_days_roundtrip_witness :
  days_to_ymd (ymd_to_days 2000 2 29) = (2000, 2, 29)
  ∧ let '(y', m', d') := days_to_ymd (-1) in ymd_to_days y' m' d' = -1.
Proof.
  apply (civil_days_roundtrip (-1) 2000 2 29); [unfold days_range; lia | unfold year_ok; lia|].
  vm_compute. repeat split; discriminate.
Defined.

Lemma civil_of_seconds_exact_witness :
  let '((y, m, d), (h, min, s)) := civil_of_seconds (-1) in
  valid_date (y, m, d) ∧ 0 <= h < 24 ∧ 0 <= min < 60 ∧ 0 <= s < 60
  ∧ ymd_to_days y m d * 86400 + h * 3600 + min * 60 + s = -1.
Proof. apply (civil_of_seconds_exact (-1)). vm_compute. split; discriminate. Defined.

Lemma nanos_to_hmsn_exact_witness :
  let '(h, m, s, sub) := nanos_to_hmsn 52215000000001 in
  0 <= h < 24 ∧ 0 <= m < 60 ∧ 0 <= s < 60 ∧ 0 <= sub < 1000000000
  ∧ ((h * 60 + m) * 60 + s) * 1000000000 + sub = 52215000000001 mod (86400 * 1000000000).
Proof. apply (nanos_to_hmsn_exact 52215000000001). lia. Defined.
