(* ===== verification/Resp.v ===== *)
(** * RESP values, parser and serializer ([voyager-net/src/redis/resp.rs])

    [parse_resp_slice] returns [Ok None] where the code asks for more bytes and
    [Ok (Some (v, n))] where it consumed [n] bytes.  A [usize] sum that can
    exceed 64 bits wraps, as the release profile does.  Error texts keep their
    integers; the texts of foreign errors and of the offending input are
    dropped.  The decimal text of a finite [f64] is the standard library's: the
    class [F64Text] states what its documentation promises of it. *)
From S2P Require Import Prelude Bytes F64 Errors.

Open Scope Z_scope.
Open Scope list_scope.

Definition MAX_RESP_DEPTH : Z := 128.
Definition MAX_RESP_COLLECTION_LEN : Z := 1000000.

Inductive RespValue : Type :=
| SimpleString (s : string)
| RError (e : string)
| RInteger (i : Z)
| BulkString (b : option (list byte))
| Array (items : option (list RespValue))
| RNull
| Double (f : f64)
| RBoolean (b : bool)
| BlobError (b : list byte)
| VerbatimString (format : byte * byte * byte) (text : list byte)
| BigNumber (num : string)
| RMap (pairs : list (RespValue * RespValue))
| RSet (items : list RespValue)
| Push (items : list RespValue).

Definition CR : byte := x0d.
Definition LF : byte := x0a.
Definition CRLF : list byte := [CR; LF].
Definition no_crlf (l : list byte) : Prop := CR ∉ l ∧ LF ∉ l.

(** [format!("{}", f)] and [str::parse::<f64>] on finite floats. *)
Class F64Text := {
  show_f64 : f64 → string;
  parse_f64 : string → option f64;
  parse_show_f64 f : f64_ok f = true → is_finite f = true → parse_f64 (show_f64 f) = Some f;
  show_f64_ascii f : str_is_ascii (show_f64 f) = true;
  show_f64_line f : no_crlf (as_bytes (show_f64 f));
  show_f64_finite f : show_f64 f ∉ ["inf"; "+inf"; "-inf"; "nan"]%string;
}.

(** ** Serializer *)

Definition line (marker : byte) (text : list byte) : list byte := marker :: text ++ CRLF.
Definition header (marker : byte) (n : Z) : list byte := line marker (show_int n).

Section resp.
Context {FT : F64Text}.

Fixpoint encode (v : RespValue) : list byte :=
  match v with
  | SimpleString s => line x2b (as_bytes s)
  | RError e => line x2d (as_bytes e)
  | RInteger i => line x3a (show_int i)
  | BulkString None => line x24 [x2d; x31]
  | BulkString (Some b) => header x24 (blen b) ++ b ++ CRLF
  | Array None => line x2a [x2d; x31]
  | Array (Some items) => header x2a (blen items) ++ flat_map encode items
  | RNull => line x5f []
  | Double f =>
      line x2c
        (if is_nan f then [x6e; x61; x6e]
         else if is_infinite f then
           if f64_ltb F64_ZERO f then [x69; x6e; x66] else [x2d; x69; x6e; x66]
         else as_bytes (show_f64 f))
  | RBoolean b => line x23 [if b then x74 else x66]
  | BlobError b => header x21 (blen b) ++ b ++ CRLF
  | VerbatimString (f1, f2, f3) text =>
      let total_len := 4 + blen text in
      header x3d total_len ++ [f1; f2; f3] ++ [x3a] ++ text ++ CRLF
  | BigNumber num => line x28 (as_bytes num)
  | RMap pairs =>
      header x25 (blen pairs) ++ flat_map (λ kv, encode kv.1 ++ encode kv.2) pairs
  | RSet items => header x7e (blen items) ++ flat_map encode items
  | Push items => header x3e (blen items) ++ flat_map encode items
  end.

Definition to_bytes (v : RespValue) : list byte := encode v.

Definition encode_command (args : list string) : list byte :=
  header x2a (blen args)
  ++ flat_map (λ arg, header x24 (blen (as_bytes arg)) ++ as_bytes arg ++ CRLF) args.

(** ** Parser *)

Notation answer A := (result NetError (option (A * nat))).

(** Sequencing: an error or a request for more bytes ends the parse. *)
Definition andthen {A B} (r : answer A) (k : A → nat → answer B) : answer B :=
  match r with
  | Ok (Some (a, n)) => k a n
  | Ok None => Ok None
  | Err e => Err e
  end.
Notation "'let?' a @ n := r 'in' k" := (andthen r (λ a n, k))
  (at level 200, a name, n name, r at level 100, k at level 200).

Definition perr {A} (msg : string) : result NetError A := Err (ProtocolError msg).
Definition num (n : Z) : string := of_bytes (show_int n).

(** [src.windows(2).position(|w| w == b"\r\n")]. *)
Fixpoint find_crlf (src : list byte) : option nat :=
  match src with
  | a :: (b :: _) as tl =>
      if decide (a = CR ∧ b = LF) then Some 0%nat else S <$> find_crlf tl
  | _ => None
  end.

Definition parse_line (src : list byte) : option (list byte * nat) :=
  idx ← find_crlf src; Some (take idx src, (idx + 2)%nat).

(** A line that holds UTF-8 text, turned into a value by [k]. *)
Definition parse_text {A} (bad_utf8 : string) (k : string → result NetError A)
    (rest : list byte) : answer A :=
  let? line @ consumed := Ok (parse_line rest) in
  s ← ok_or (from_utf8 line) (ProtocolError bad_utf8);
  v ← k s;
  Ok (Some (v, (consumed + 1)%nat)).

Definition parse_simple_string : list byte → answer RespValue :=
  parse_text "Invalid UTF-8 simple string: " (λ s, Ok (SimpleString s)).

Definition parse_error : list byte → answer RespValue :=
  parse_text "Invalid UTF-8 error string: " (λ s, Ok (RError s)).

Definition parse_integer : list byte → answer RespValue :=
  parse_text "Invalid UTF-8 integer string: "
    (λ s, n ← ok_or (parse_i64 (as_bytes s)) (ProtocolError "Malformed RESP integer "); Ok (RInteger n)).

Definition parse_big_number : list byte → answer RespValue :=
  parse_text "Invalid big number string: " (λ s, Ok (BigNumber s)).

Definition parse_double_text (s : string) : result NetError RespValue :=
  if decide (s = "inf" ∨ s = "+inf")%string then Ok (Double INFINITY)
  else if decide (s = "-inf")%string then Ok (Double NEG_INFINITY)
  else if decide (s = "nan")%string then Ok (Double NAN)
  else f ← ok_or (parse_f64 s) (ProtocolError "Malformed RESP3 double "); Ok (Double f).

Definition parse_double : list byte → answer RespValue :=
  parse_text "Invalid double string: " parse_double_text.

Definition parse_null (rest : list byte) : answer RespValue :=
  if (length rest <? 2)%nat then Ok None
  else if decide (take 2 rest = CRLF) then Ok (Some (RNull, 3%nat))
  else perr "Malformed RESP3 Null: expected CRLF after '_'".

Definition parse_boolean (rest : list byte) : answer RespValue :=
  if (length rest <? 3)%nat then Ok None
  else if decide (take 2 (drop 1 rest) = CRLF) then
    match rest !! 0%nat with
    | Some x74 => Ok (Some (RBoolean true, 4%nat))
    | Some x66 => Ok (Some (RBoolean false, 4%nat))
    | Some _ => perr "Invalid RESP3 boolean character: "
    | None => Ok None
    end
  else perr "Malformed RESP3 boolean missing CRLF".

(** [rest.get(i)] at a [usize] index. *)
Definition get_at (rest : list byte) (i : Z) : option byte :=
  if i <? blen rest then rest !! Z.to_nat i else None.

(** The [len] bytes at [start] and the CRLF after them: the payload of a bulk
    string, a blob error or a verbatim string.  [usize] sums wrap. *)
Definition parse_payload (kind Kind : string) (rest : list byte) (start : nat) (len : Z) :
    answer (list byte) :=
  let payload_start := Z.of_nat start in
  let payload_end := as_unsigned 64 (payload_start + len) in
  let total_consumed := as_unsigned 64 (payload_end + 2) in
  if blen rest <? total_consumed then Ok None
  else if negb (bool_decide (get_at rest payload_end = Some CR)
                && bool_decide (get_at rest (payload_end + 1) = Some LF))
  then perr (Kind +:+ " payload missing trailing CRLF")
  else if (payload_start <=? payload_end) && (payload_end <=? blen rest)
  then Ok (Some (take (Z.to_nat (payload_end - payload_start)) (drop start rest),
                 (Z.to_nat total_consumed + 1)%nat))
  else perr ("Incomplete " +:+ kind +:+ " payload").

(** A length line: its number and the bytes it takes. *)
Definition parse_len (parse : list byte → option Z) (kind : string) (rest : list byte) : answer Z :=
  let? len_line @ hdr_consumed := Ok (parse_line rest) in
  len_str ← ok_or (from_utf8 len_line) (ProtocolError ("Invalid " +:+ kind +:+ " length: "));
  len ← ok_or (parse (as_bytes len_str)) (ProtocolError ("Malformed " +:+ kind +:+ " length "));
  Ok (Some (len, hdr_consumed)).

Definition parse_bulk_string (rest : list byte) : answer RespValue :=
  let? len @ hdr_consumed := parse_len parse_i64 "bulk string" rest in
  if len <? -1 then perr ("Negative bulk string length: " +:+ num len)
  else if len =? -1 then Ok (Some (BulkString None, (hdr_consumed + 1)%nat))
  else
    let? bytes @ total := parse_payload "bulk string" "Bulk string" rest hdr_consumed len in
    Ok (Some (BulkString (Some bytes), total)).

Definition parse_blob_error (rest : list byte) : answer RespValue :=
  let? len @ hdr_consumed := parse_len parse_usize "blob error" rest in
  let? bytes @ total := parse_payload "blob error" "Blob error" rest hdr_consumed len in
  Ok (Some (BlobError bytes, total)).

Definition parse_verbatim_raw (raw : list byte) : result NetError RespValue :=
  match raw with
  | f1 :: f2 :: f3 :: x3a :: text => Ok (VerbatimString (f1, f2, f3) text)
  | _ => perr "Verbatim string missing ':' after 3-byte format"
  end.

Definition parse_verbatim (rest : list byte) : answer RespValue :=
  let? len @ hdr_consumed := parse_len parse_usize "verbatim" rest in
  if len <? 4 then perr "Verbatim string length must be at least 4 bytes (format + ':')"
  else
    let? raw @ total := parse_payload "verbatim string" "Verbatim string" rest hdr_consumed len in
    v ← parse_verbatim_raw raw;
    Ok (Some (v, total)).

(** Aggregates.  [parse_rec] is the parser one level deeper. *)
Section aggregates.
Variable parse_rec : list byte → answer RespValue.

(** [rest.get(offset..)]. *)
Definition get_from (rest : list byte) (offset : nat) : option (list byte) :=
  if (offset <=? length rest)%nat then Some (drop offset rest) else None.

(** One element at [offset]: its value and the offset after it. *)
Definition parse_item (rest : list byte) (offset : nat) : answer RespValue :=
  match get_from rest offset with
  | None => Ok None
  | Some remaining =>
      let? item @ item_consumed := parse_rec remaining in
      Ok (Some (item, (offset + item_consumed)%nat))
  end.

(** The element loop of arrays, sets and pushes, from [offset]. *)
Fixpoint parse_items (n : nat) (rest : list byte) (offset : nat) : answer (list RespValue) :=
  match n with
  | O => Ok (Some ([], offset))
  | S n =>
      let? item @ offset := parse_item rest offset in
      let? items @ offset := parse_items n rest offset in
      Ok (Some (item :: items, offset))
  end.

(** The pair loop of maps. *)
Fixpoint parse_pairs (n : nat) (rest : list byte) (offset : nat) :
    answer (list (RespValue * RespValue)) :=
  match n with
  | O => Ok (Some ([], offset))
  | S n =>
      let? key @ offset := parse_item rest offset in
      let? val @ offset := parse_item rest offset in
      let? pairs @ offset := parse_pairs n rest offset in
      Ok (Some ((key, val) :: pairs, offset))
  end.

Definition too_long {A} (Kind : string) (n : Z) : result NetError A :=
  perr (Kind +:+ " length " +:+ num n +:+ " exceeds maximum permitted collection size of "
        +:+ num MAX_RESP_COLLECTION_LEN).

Definition parse_array (rest : list byte) : answer RespValue :=
  let? len @ hdr_consumed := parse_len parse_i64 "array" rest in
  if len <? -1 then perr ("Negative array length: " +:+ num len)
  else if len =? -1 then Ok (Some (Array None, (hdr_consumed + 1)%nat))
  else if MAX_RESP_COLLECTION_LEN <? len then too_long "Array" len
  else
    let? elements @ offset := parse_items (Z.to_nat len) rest hdr_consumed in
    Ok (Some (Array (Some elements), (offset + 1)%nat)).

Definition parse_map (rest : list byte) : answer RespValue :=
  let? num_pairs @ hdr_consumed := parse_len parse_usize "map" rest in
  if MAX_RESP_COLLECTION_LEN <? num_pairs then too_long "Map" num_pairs
  else
    let? pairs @ offset := parse_pairs (Z.to_nat num_pairs) rest hdr_consumed in
    Ok (Some (RMap pairs, (offset + 1)%nat)).

Definition parse_set (rest : list byte) : answer RespValue :=
  let? num_items @ hdr_consumed := parse_len parse_usize "set" rest in
  if MAX_RESP_COLLECTION_LEN <? num_items then too_long "Set" num_items
  else
    let? items @ offset := parse_items (Z.to_nat num_items) rest hdr_consumed in
    Ok (Some (RSet items, (offset + 1)%nat)).

Definition parse_push (rest : list byte) : answer RespValue :=
  let? num_items @ hdr_consumed := parse_len parse_usize "push" rest in
  if MAX_RESP_COLLECTION_LEN <? num_items then too_long "Push" num_items
  else
    let? items @ offset := parse_items (Z.to_nat num_items) rest hdr_consumed in
    Ok (Some (Push items, (offset + 1)%nat)).

(** The [match type_marker] of [parse_resp_slice]. *)
Definition parse_body (src : list byte) : answer RespValue :=
  match src with
  | [] => Ok None
  | x2b :: rest => parse_simple_string rest
  | x2d :: rest => parse_error rest
  | x3a :: rest => parse_integer rest
  | x24 :: rest => parse_bulk_string rest
  | x2a :: rest => parse_array rest
  | x5f :: rest => parse_null rest
  | x2c :: rest => parse_double rest
  | x23 :: rest => parse_boolean rest
  | x21 :: rest => parse_blob_error rest
  | x3d :: rest => parse_verbatim rest
  | x28 :: rest => parse_big_number rest
  | x25 :: rest => parse_map rest
  | x7e :: rest => parse_set rest
  | x3e :: rest => parse_push rest
  | _ :: _ => perr "Unrecognized RESP protocol type marker: "
  end.
End aggregates.

Definition depth_error {A} : result NetError A :=
  perr ("RESP structure exceeded maximum nesting depth of " +:+ num MAX_RESP_DEPTH).

(** [fuel] bounds the depths left; it runs out only beyond the depth limit. *)
Fixpoint parse_fuel (fuel : nat) (src : list byte) (depth : Z) : answer RespValue :=
  if MAX_RESP_DEPTH <? depth then depth_error else
  match fuel with
  | O => depth_error
  | S fuel => parse_body (λ src, parse_fuel fuel src (depth + 1)) src
  end.

Definition parse_resp_slice (src : list byte) (depth : Z) : answer RespValue :=
  parse_fuel (Z.to_nat (MAX_RESP_DEPTH + 1 - depth)) src depth.

(** [RespValue::parse]: the value and the buffer advanced past it; the buffer is
    untouched when no value is returned. *)
Definition parse (src : list byte) : result NetError (option RespValue * list byte) :=
  r ← parse_resp_slice src 0;
  match r with
  | Some (val, consumed) => Ok (Some val, drop consumed src)
  | None => Ok (None, src)
  end.

(** ** Accessors *)

Definition is_null (v : RespValue) : bool :=
  match v with RNull | BulkString None | Array None => true | _ => false end.

Definition as_str (v : RespValue) : option string :=
  match v with
  | SimpleString s => Some s
  | BulkString (Some b) => from_utf8 b
  | _ => None
  end.

Definition as_i64 (v : RespValue) : option Z :=
  match v with
  | RInteger i => Some i
  | BulkString (Some b) => s ← from_utf8 b; parse_i64 (as_bytes s)
  | SimpleString s => parse_i64 (as_bytes s)
  | _ => None
  end.

Definition as_f64 (v : RespValue) : option f64 :=
  match v with
  | Double f => Some f
  | RInteger i => Some (i64_as_f64 i)
  | BulkString (Some b) => s ← from_utf8 b; parse_f64 s
  | SimpleString s => parse_f64 s
  | _ => None
  end.

Definition resp_bytes (v : RespValue) : option (list byte) :=
  match v with BulkString (Some b) | BlobError b => Some b | _ => None end.

Definition as_array (v : RespValue) : option (list RespValue) :=
  match v with Array (Some arr) => Some arr | _ => None end.

Definition as_map (v : RespValue) : option (list (RespValue * RespValue)) :=
  match v with RMap pairs => Some pairs | _ => None end.

(** ** Stability: an answer does not change when more bytes arrive

    [stable g]: an error or a value of [g] on a buffer is its answer on every
    extension of the buffer that can exist in memory; [bounded g]: a value takes
    no more bytes than there are. *)
Definition stable {A} (g : list byte → answer A) : Prop :=
  ∀ src ext, blen (src ++ ext) <= I64_MAX → g src ≠ Ok None → g (src ++ ext) = g src.

Lemma stable_const {A} (r : answer A) : stable (λ _, r).
Proof. by intros src ext. Qed.

Lemma stable_andthen {A B} (g : list byte → answer A) (k : A → nat → list byte → answer B) :
  stable g → (∀ a n, stable (k a n)) → stable (λ src, andthen (g src) (λ a n, k a n src)).
Proof.
  intros Hg Hk src ext Hlen Hne. simpl in *.
  destruct (g src) as [[[a n]|]|e] eqn:E; simpl in Hne; [|done|].
  - rewrite Hg by (done || by rewrite E). rewrite E. simpl. by apply Hk.
  - by rewrite Hg, E by (done || by rewrite E).
Qed.

Lemma stable_if {A} (b : bool) (g h : list byte → answer A) :
  stable g → stable h → stable (λ src, if b then g src else h src).
Proof. by destruct b. Qed.

Lemma find_crlf_cons a b l :
  find_crlf (a :: b :: l)
  = if decide (a = CR ∧ b = LF) then Some 0%nat else S <$> find_crlf (b :: l).
Proof. done. Qed.

Lemma find_crlf_app src ext i :
  find_crlf src = Some i → find_crlf (src ++ ext) = Some i ∧ (i + 2 <= length src)%nat.
Proof.
  revert i. induction src as [|a [|b src] IH]; intros i; [done..|].
  change ((a :: b :: src) ++ ext) with (a :: b :: (src ++ ext)). rewrite !find_crlf_cons.
  case_decide; [intros [= <-]; split; [done | simpl; lia]|].
  intros (j & Hj & ->)%fmap_Some. destruct (IH j Hj) as [Hj' Hl].
  change (b :: src ++ ext) with ((b :: src) ++ ext). rewrite Hj'.
  split; [done | simpl in *; lia].
Qed.

Lemma stable_parse_line : stable (λ src, Ok (parse_line src)).
Proof.
  intros src ext _. unfold parse_line. destruct (find_crlf src) as [i|] eqn:E; [|done].
  intros _. destruct (find_crlf_app src ext i E) as [-> Hl]. simpl. by rewrite take_app_le by lia.
Qed.

Create HintDb stable.
#[local] Hint Resolve stable_parse_line : stable.

(** Follows the sequencing of a parser down to its primitive readers. *)
Ltac stab :=
  lazymatch goal with
  | |- stable (λ r, andthen (@?g r) (@?k r)) =>
      apply (stable_andthen g (λ a n r, k r a n)); [|intros ? ?; cbv beta]; stab
  | |- stable (λ r, if ?b then @?g r else @?h r) => apply (stable_if b g h); stab
  | |- stable (λ _, ?r) => exact (stable_const r)
  | _ => eauto with stable
  end.

Lemma stable_parse_text {A} bad (k : string → result NetError A) : stable (parse_text bad k).
Proof. unfold parse_text. stab. Qed.

Lemma stable_parse_len p kind : stable (parse_len p kind).
Proof. unfold parse_len. stab. Qed.

Lemma stable_parse_null : stable parse_null.
Proof.
  intros src ext _. unfold parse_null.
  destruct (Nat.ltb_spec (length src) 2); [done|]. intros _.
  rewrite take_app_le by lia. rewrite length_app.
  by destruct (Nat.ltb_spec (length src + length ext) 2); [lia|].
Qed.

Lemma stable_parse_boolean : stable parse_boolean.
Proof.
  intros src ext _. unfold parse_boolean.
  destruct (Nat.ltb_spec (length src) 3) as [|Hl]; [done|]. intros _.
  destruct src as [|a [|b [|c src]]]; simpl in Hl; try lia. reflexivity.
Qed.

Lemma get_at_app src ext i :
  0 <= i < blen src → get_at (src ++ ext) i = get_at src i.
Proof.
  intros Hi. unfold get_at. rewrite blen_app. pose proof (blen_nonneg ext).
  destruct (Z.ltb_spec i (blen src + blen ext)); [|lia].
  destruct (Z.ltb_spec i (blen src)); [|lia].
  unfold blen in *. rewrite lookup_app_l by lia. done.
Qed.

Lemma stable_parse_payload kind Kind start len :
  stable (λ rest, parse_payload kind Kind rest start len).
Proof.
  intros src ext Hlen. unfold parse_payload.
  set (pe := as_unsigned 64 (Z.of_nat start + len)).
  assert (0 <= pe < 2 ^ 64) as Hpe by (apply Z.mod_pos_bound; lia).
  destruct (Z.ltb_spec (blen src) (as_unsigned 64 (pe + 2))) as [|Htot]; [done|]. intros _.
  rewrite blen_app. pose proof (blen_nonneg ext).
  destruct (Z.ltb_spec (blen src + blen ext) (as_unsigned 64 (pe + 2))); [lia|].
  destruct (decide (pe + 2 < 2 ^ 64)) as [Hlt|Hge].
  - unfold as_unsigned in Htot |- *. rewrite Z.mod_small in * by lia.
    rewrite !get_at_app by lia. case_match; [done|].
    destruct (Z.leb_spec (Z.of_nat start) pe); simpl; [|done].
    destruct (Z.leb_spec pe (blen src + blen ext)), (Z.leb_spec pe (blen src)); try lia.
    unfold blen in *. rewrite drop_app_le by lia. rewrite take_app_le by (rewrite length_drop; lia).
    done.
  - assert (∀ l, blen l <= I64_MAX → get_at l pe = None) as Hnone.
    { intros l Hl. unfold get_at, I64_MAX in *. destruct (Z.ltb_spec pe (blen l)); [lia | done]. }
    rewrite blen_app in Hlen. rewrite !Hnone by (rewrite ?blen_app; lia).
    by rewrite (bool_decide_eq_false_2 (None = Some CR)).
Qed.

Section stable_aggregates.
Context (rec : list byte → answer RespValue).
Hypothesis Hrec : stable rec.

Lemma stable_parse_item offset : stable (λ rest, parse_item rec rest offset).
Proof.
  intros src ext Hlen. unfold parse_item, get_from.
  destruct (Nat.leb_spec offset (length src)) as [Ho|]; [|done].
  rewrite length_app. destruct (Nat.leb_spec offset (length src + length ext)); [|lia].
  rewrite drop_app_le by done. intros Hne.
  rewrite Hrec; [done| |intros E; by rewrite E in Hne].
  rewrite blen_app in *. unfold blen in *. rewrite length_drop. lia.
Qed.

#[local] Hint Resolve stable_parse_text stable_parse_len stable_parse_null stable_parse_boolean
  stable_parse_payload stable_parse_item : stable.

Lemma stable_parse_items n offset : stable (λ rest, parse_items rec n rest offset).
Proof. revert offset. induction n as [|n IH]; intros offset; simpl; stab. Qed.

Lemma stable_parse_pairs n offset : stable (λ rest, parse_pairs rec n rest offset).
Proof. revert offset. induction n as [|n IH]; intros offset; simpl; stab. Qed.
#[local] Hint Resolve stable_parse_items stable_parse_pairs : stable.

Lemma stable_parse_body : stable (parse_body rec).
Proof.
  intros [|m src] ext Hlen; [done|]. cbn [app].
  assert (∀ g : list byte → answer RespValue, stable g → g src ≠ Ok None → g (src ++ ext) = g src)
    as Hs.
  { intros g Hg Hne. apply Hg; [|done]. rewrite blen_app in *. unfold blen in *. simpl in Hlen. lia. }
  destruct m; try done; cbn [parse_body]; apply Hs;
    try (unfold parse_bulk_string, parse_blob_error, parse_verbatim, parse_array, parse_map,
      parse_set, parse_push; stab).
  all: apply stable_parse_text.
Qed.
End stable_aggregates.

Lemma parse_resp_slice_unfold src depth :
  parse_resp_slice src depth =
  if MAX_RESP_DEPTH <? depth then depth_error
  else parse_body (λ src, parse_resp_slice src (depth + 1)) src.
Proof.
  unfold parse_resp_slice, MAX_RESP_DEPTH.
  destruct (Z.ltb_spec 128 depth).
  - destruct (Z.to_nat (128 + 1 - depth)) eqn:E; simpl; unfold MAX_RESP_DEPTH;
      destruct (Z.ltb_spec 128 depth); (done || lia).
  - replace (Z.to_nat (128 + 1 - depth)) with (S (Z.to_nat (128 + 1 - (depth + 1)))) by lia.
    cbn [parse_fuel]. unfold MAX_RESP_DEPTH. by destruct (Z.ltb_spec 128 depth); [lia|].
Qed.

(** Induction on the depth left: a property of the parser at every depth. *)
Lemma depth_induction (P : Z → Prop) :
  (∀ depth, MAX_RESP_DEPTH < depth → P depth) →
  (∀ depth, depth <= MAX_RESP_DEPTH → P (depth + 1) → P depth) → ∀ depth, P depth.
Proof.
  intros Hbase Hstep depth. unfold MAX_RESP_DEPTH in *.
  remember (Z.to_nat (129 - depth)) as k eqn:Hk. revert depth Hk.
  induction k as [|k IH]; intros depth Hk; [apply Hbase; lia|].
  apply Hstep; [lia|]. apply IH. lia.
Qed.

Lemma stable_parse_resp_slice depth : stable (λ src, parse_resp_slice src depth).
Proof.
  induction depth as [depth Hd|depth Hd IH] using depth_induction; intros src ext Hlen;
    rewrite !parse_resp_slice_unfold; destruct (Z.ltb_spec MAX_RESP_DEPTH depth); try done; try lia.
  by apply stable_parse_body.
Qed.

(** ** A value takes no more bytes than there are *)

Definition within {A} (m : nat) (r : answer A) : Prop :=
  match r with Ok (Some (_, n)) => (n <= m)%nat | _ => True end.

Lemma within_andthen {A B} m' m (r : answer A) (k : A → nat → answer B) :
  within m' r → (∀ a n, (n <= m')%nat → within m (k a n)) → within m (andthen r k).
Proof. destruct r as [[[a n]|]|]; simpl; auto. Qed.

Lemma within_bind {A B} m (r : result NetError A) (k : A → answer B) :
  (∀ a, within m (k a)) → within m (r ≫= k).
Proof. destruct r; simpl; auto. Qed.

Lemma within_ok {A} m (a : A) n : (n <= m)%nat → within m (Ok (Some (a, n))).
Proof. done. Qed.

Lemma within_line src : within (length src) (Ok (parse_line src)).
Proof.
  unfold parse_line. destruct (find_crlf src) as [i|] eqn:E; simpl; [|done].
  by apply (find_crlf_app src [] i).
Qed.

Lemma within_text {A} bad (k : string → result NetError A) src :
  within (S (length src)) (parse_text bad k src).
Proof.
  eapply within_andthen; [apply within_line|]. intros l n Hn.
  do 2 (apply within_bind; intros ?). apply within_ok. lia.
Qed.

Lemma within_len p kind src : within (length src) (parse_len p kind src).
Proof.
  eapply within_andthen; [apply within_line|]. intros l n Hn.
  do 2 (apply within_bind; intros ?). by apply within_ok.
Qed.

Lemma within_payload kind Kind rest start len :
  within (S (length rest)) (parse_payload kind Kind rest start len).
Proof.
  unfold parse_payload. set (pe := as_unsigned 64 (Z.of_nat start + len)).
  destruct (Z.ltb_spec (blen rest) (as_unsigned 64 (pe + 2))) as [|Ht]; [done|].
  case_match; [done|]. case_match; [|done]. unfold blen in Ht. simpl. lia.
Qed.

Section within_aggregates.
Context (rec : list byte → answer RespValue).
Hypothesis Hrec : ∀ src, within (length src) (rec src).

Lemma within_item rest offset : within (length rest) (parse_item rec rest offset).
Proof.
  unfold parse_item, get_from. destruct (Nat.leb_spec offset (length rest)); [|done].
  eapply within_andthen; [apply Hrec|]. intros a n Hn. rewrite length_drop in Hn.
  apply within_ok. lia.
Qed.

Lemma within_items n rest offset :
  (offset <= length rest)%nat → within (length rest) (parse_items rec n rest offset).
Proof.
  revert offset. induction n as [|n IH]; intros offset Ho; [done|].
  eapply within_andthen; [apply within_item|]. intros item o Ho'.
  eapply within_andthen; [by apply IH|]. intros items m Hm. by apply within_ok.
Qed.

Lemma within_pairs n rest offset :
  (offset <= length rest)%nat → within (length rest) (parse_pairs rec n rest offset).
Proof.
  revert offset. induction n as [|n IH]; intros offset Ho; [done|].
  do 2 (eapply within_andthen; [apply within_item|]; intros ? ? ?).
  eapply within_andthen; [by apply IH|]. intros items m Hm. by apply within_ok.
Qed.

(** The payload or the elements after a length line. *)
Ltac within_sized :=
  eapply within_andthen; [apply within_len|]; intros len n Hn;
  repeat (case_match; [simpl; try done; lia|]);
  eapply within_andthen;
  [ first [ apply within_payload | by apply within_items | by apply within_pairs ]
  | intros a m Hm; first [ apply within_ok; lia | apply within_bind; intros ?; apply within_ok; lia ] ].

Lemma within_body src : within (length src) (parse_body rec src).
Proof.
  destruct src as [|m src]; [done|].
  destruct m; try done; cbn [parse_body length]; try apply within_text; try within_sized.
  - unfold parse_boolean. destruct (Nat.ltb_spec (length src) 3); [done|].
    repeat case_match; simpl; try done; lia.
  - unfold parse_null. destruct (Nat.ltb_spec (length src) 2); [done|].
    repeat case_match; simpl; try done; lia.
Qed.
End within_aggregates.

Lemma within_parse_resp_slice depth src : within (length src) (parse_resp_slice src depth).
Proof.
  revert src. induction depth as [depth Hd|depth Hd IH] using depth_induction; intros src;
    rewrite parse_resp_slice_unfold; destruct (Z.ltb_spec MAX_RESP_DEPTH depth); try done; try lia.
  by apply within_body.
Qed.

(** ** Round trip *)

Fixpoint height (v : RespValue) : nat :=
  match v with
  | Array (Some items) | RSet items | Push items => sup height items
  | RMap pairs => sup (λ kv, Nat.max (height kv.1) (height kv.2)) pairs
  | _ => 0%nat
  end.

(** The values the wire carries: line texts without CRLF, payload lengths within
    an [i64], collections within the limit, one representation of NaN. *)
Definition wf_line (s : string) : Prop := str_ok s = true ∧ find_crlf (as_bytes s) = None.
Definition wf_len {A} (l : list A) : Prop := blen l <= MAX_RESP_COLLECTION_LEN.

Fixpoint wf (v : RespValue) : Prop :=
  match v with
  | SimpleString s | RError s | BigNumber s => wf_line s
  | RInteger i => I64_MIN <= i <= I64_MAX
  | BulkString (Some b) | BlobError b => blen b <= I64_MAX - 64
  | VerbatimString _ text => blen text <= I64_MAX - 68
  | Double f => f64_ok f = true ∧ (is_nan f = true → f = NAN)
  | Array (Some items) | RSet items | Push items => wf_len items ∧ All wf items
  | RMap pairs => wf_len pairs ∧ All (λ kv, wf kv.1 ∧ wf kv.2) pairs
  | BulkString None | Array None | RNull | RBoolean _ => True
  end.

Lemma find_crlf_line t r : find_crlf t = None → find_crlf (t ++ CRLF ++ r) = Some (length t).
Proof.
  induction t as [|a [|b t] IH]; intros H.
  - done.
  - change (([a] ++ CRLF ++ r)) with (a :: CR :: LF :: r). rewrite find_crlf_cons.
    rewrite decide_False by (intros [_ [=]]). done.
  - change ((a :: b :: t) ++ CRLF ++ r) with (a :: b :: (t ++ CRLF ++ r)).
    rewrite find_crlf_cons in H |- *. case_decide; [done|].
    apply fmap_None in H. change (b :: t ++ CRLF ++ r) with ((b :: t) ++ CRLF ++ r).
    by rewrite IH.
Qed.

Lemma parse_line_app t r :
  find_crlf t = None → parse_line (t ++ CRLF ++ r) = Some (t, (length t + 2)%nat).
Proof. intros H. unfold parse_line. rewrite find_crlf_line by done. simpl. by rewrite take_app_length. Qed.

Lemma parse_text_line {A} bad (k : string → result NetError A) s r v :
  wf_line s → k s = Ok v →
  parse_text bad k (as_bytes s ++ CRLF ++ r) = Ok (Some (v, (length (as_bytes s) + 3)%nat)).
Proof.
  intros [Hu Hc] Hk. unfold parse_text. rewrite parse_line_app by done. simpl.
  rewrite from_utf8_as_bytes by done. simpl. rewrite Hk. simpl. do 3 f_equal. lia.
Qed.

(** Decimal numbers contain no CRLF. *)
Lemma find_crlf_no_cr l : CR ∉ l → find_crlf l = None.
Proof.
  induction l as [|a [|b l] IH]; intros H; [done..|]. rewrite find_crlf_cons.
  apply not_elem_of_cons in H as [H1 H2]. rewrite decide_False by (intros [-> _]; done).
  by rewrite IH.
Qed.

Lemma digits_no_cr n : 0 <= n → CR ∉ digits n.
Proof.
  intros Hn Hin. destruct (digits_spec n Hn) as [Hd _].
  apply list_elem_of_In in Hin. by apply (proj1 (forallb_forall _ _) Hd) in Hin.
Qed.

Lemma show_int_line i : wf_line (of_bytes (show_int i)).
Proof.
  unfold wf_line, str_ok. rewrite as_bytes_of_bytes. split.
  - apply utf8_valid_ascii, show_int_ascii.
  - apply find_crlf_no_cr. unfold show_int. destruct (Z.ltb_spec i 0).
    + apply not_elem_of_cons. split; [done | apply digits_no_cr; lia].
    + apply digits_no_cr; lia.
Qed.

Lemma parse_len_show p kind n r :
  p (show_int n) = Some n →
  parse_len p kind (show_int n ++ CRLF ++ r) = Ok (Some (n, (length (show_int n) + 2)%nat)).
Proof.
  intros Hp. destruct (show_int_line n) as [Hu Hc]. rewrite as_bytes_of_bytes in Hc.
  unfold parse_len. rewrite parse_line_app by done. simpl.
  unfold str_ok in Hu. rewrite as_bytes_of_bytes in Hu. unfold from_utf8. rewrite Hu. simpl.
  by rewrite as_bytes_of_bytes, Hp.
Qed.

Lemma parse_payload_app kind Kind pre b r :
  blen pre + blen b + 2 < 2 ^ 64 →
  parse_payload kind Kind (pre ++ b ++ CRLF ++ r) (length pre) (blen b)
  = Ok (Some (b, (length pre + length b + 3)%nat)).
Proof.
  intros Hlen. unfold parse_payload. pose proof (blen_nonneg b).
  assert (as_unsigned 64 (Z.of_nat (length pre) + blen b) = Z.of_nat (length pre + length b)) as ->.
  { unfold as_unsigned, blen in *. rewrite Z.mod_small by lia. lia. }
  assert (as_unsigned 64 (Z.of_nat (length pre + length b) + 2)
          = Z.of_nat (length pre + length b + 2)) as ->.
  { unfold as_unsigned, blen in *. rewrite Z.mod_small by lia. lia. }
  rewrite !blen_app. change (blen CRLF) with 2. pose proof (blen_nonneg r).
  unfold blen in *. destruct (Z.ltb_spec (Z.of_nat (length pre) + (Z.of_nat (length b)
    + (2 + Z.of_nat (length r)))) (Z.of_nat (length pre + length b + 2))); [lia|].
  assert (∀ i c, CRLF !! i = Some c →
    get_at (pre ++ b ++ CRLF ++ r) (Z.of_nat (length pre + length b) + Z.of_nat i) = Some c) as Hget.
  { intros i c Hi. unfold get_at. rewrite !blen_app. change (blen CRLF) with 2.
    unfold blen. pose proof (lookup_lt_Some _ _ _ Hi) as Hl. simpl in Hl.
    destruct (Z.ltb_spec (Z.of_nat (length pre + length b) + Z.of_nat i)
      (Z.of_nat (length pre) + (Z.of_nat (length b) + (2 + Z.of_nat (length r))))); [|lia].
    replace (Z.to_nat _) with (length pre + (length b + i))%nat by lia.
    rewrite lookup_app_r by lia. rewrite lookup_app_r by lia.
    replace (_ - length pre - length b)%nat with i by lia. by rewrite lookup_app_l. }
  pose proof (Hget 0%nat CR eq_refl) as Hcr. rewrite Z.add_0_r in Hcr. rewrite Hcr.
  pose proof (Hget 1%nat LF eq_refl) as Hlf. change (Z.of_nat 1) with 1 in Hlf. rewrite Hlf.
  rewrite !bool_decide_eq_true_2 by done. cbn [andb negb].
  destruct (Z.leb_spec (Z.of_nat (length pre)) (Z.of_nat (length pre + length b))); [|lia].
  destruct (Z.leb_spec (Z.of_nat (length pre + length b))
    (Z.of_nat (length pre) + (Z.of_nat (length b) + (2 + Z.of_nat (length r))))); [|lia].
  cbn [andb].
  rewrite drop_app_length.
  replace (Z.to_nat (Z.of_nat (length pre + length b) - Z.of_nat (length pre))) with (length b) by lia.
  rewrite take_app_length. do 3 f_equal. lia.
Qed.

Section encode_body.
Context (rec : list byte → answer RespValue).

Definition reads_back (v : RespValue) : Prop :=
  ∀ r, rec (encode v ++ r) = Ok (Some (v, length (encode v))).

Lemma parse_item_encode pre v r :
  reads_back v →
  parse_item rec (pre ++ encode v ++ r) (length pre)
  = Ok (Some (v, length (pre ++ encode v))).
Proof.
  intros Hv. unfold parse_item, get_from. rewrite length_app.
  destruct (Nat.leb_spec (length pre) (length pre + length (encode v ++ r))); [|lia].
  rewrite drop_app_length, Hv. simpl. by rewrite length_app.
Qed.

Lemma parse_items_encode pre items r :
  (∀ v, In v items → reads_back v) →
  parse_items rec (length items) (pre ++ flat_map encode items ++ r) (length pre)
  = Ok (Some (items, length (pre ++ flat_map encode items))).
Proof.
  revert pre. induction items as [|v items IH]; intros pre Hv; simpl; [by rewrite app_nil_r|].
  rewrite <- app_assoc, parse_item_encode by (apply Hv; by left). simpl.
  rewrite (app_assoc pre), IH by (intros; apply Hv; by right). simpl. by rewrite app_assoc.
Qed.

Lemma parse_pairs_encode pre pairs r :
  (∀ k v, In (k, v) pairs → reads_back k ∧ reads_back v) →
  parse_pairs rec (length pairs)
    (pre ++ flat_map (λ kv, encode kv.1 ++ encode kv.2) pairs ++ r) (length pre)
  = Ok (Some (pairs, length (pre ++ flat_map (λ kv, encode kv.1 ++ encode kv.2) pairs))).
Proof.
  revert pre. induction pairs as [|[k v] pairs IH]; intros pre Hv; simpl; [by rewrite app_nil_r|].
  destruct (Hv k v (or_introl eq_refl)) as [Hk Hv'].
  rewrite <- !app_assoc, parse_item_encode by done. simpl.
  rewrite (app_assoc pre), parse_item_encode by done. simpl.
  rewrite (app_assoc (pre ++ encode k)), IH by (intros; apply Hv; by right). simpl.
  by rewrite !app_assoc.
Qed.

Lemma blen_parse {A} (l : list A) :
  wf_len l →
  parse_i64 (show_int (blen l)) = Some (blen l) ∧ parse_usize (show_int (blen l)) = Some (blen l)
  ∧ (MAX_RESP_COLLECTION_LEN <? blen l) = false ∧ (blen l <? -1) = false ∧ (blen l =? -1) = false
  ∧ Z.to_nat (blen l) = length l.
Proof.
  unfold wf_len, MAX_RESP_COLLECTION_LEN. intros Hl. pose proof (blen_nonneg l).
  split; [apply parse_signed_show; unfold I64_MIN, I64_MAX; lia|].
  split; [apply show_parse_usize; unfold U64_MAX; lia|].
  repeat split; try (apply Z.ltb_ge; lia); try (apply Z.eqb_neq; lia). unfold blen. lia.
Qed.

(** The text of a double, as a string. *)
Definition double_text (f : f64) : string :=
  if is_nan f then "nan"
  else if is_infinite f then if f64_ltb F64_ZERO f then "inf" else "-inf"
  else show_f64 f.

Lemma encode_double f : encode (Double f) = line x2c (as_bytes (double_text f)).
Proof.
  unfold double_text. cbn [encode].
  by destruct (is_nan f), (is_infinite f), (f64_ltb F64_ZERO f).
Qed.

Lemma double_text_spec f :
  f64_ok f = true → (is_nan f = true → f = NAN) →
  wf_line (double_text f) ∧ parse_double_text (double_text f) = Ok (Double f).
Proof.
  intros Hok Hnan. unfold double_text.
  destruct (is_nan f) eqn:En; [rewrite (Hnan eq_refl); done|].
  destruct (is_infinite f) eqn:Ei.
  { pose proof (infinite_bits f Hok Ei) as Hf. destruct (f64_ltb F64_ZERO f); by rewrite Hf. }
  split.
  - split; [apply utf8_valid_ascii, show_f64_ascii | apply find_crlf_no_cr, show_f64_line].
  - unfold parse_double_text. pose proof (show_f64_finite f) as Hs.
    rewrite !not_elem_of_cons in Hs. destruct Hs as (? & ? & ? & ? & _).
    rewrite !decide_False by tauto. rewrite parse_show_f64; [done..|].
    unfold is_finite. by rewrite En, Ei.
Qed.

(** A line value behind its marker. *)
Lemma parse_line_body marker bad k s v r :
  (∀ l, parse_body rec (marker :: l) = parse_text bad k l) →
  wf_line s → encode v = line marker (as_bytes s) → k s = Ok v →
  parse_body rec (encode v ++ r) = Ok (Some (v, length (encode v))).
Proof.
  intros Hg Hs E Hv. rewrite E at 1. unfold line. cbn [app]. rewrite Hg, <- app_assoc.
  rewrite (parse_text_line bad k s r v) by done. rewrite E.
  unfold line. simpl length. rewrite length_app. simpl length. do 3 f_equal. lia.
Qed.

(** The payload behind a length line. *)
Lemma parse_payload_header kind Kind n b r :
  n = blen b → blen b <= I64_MAX - 64 →
  parse_payload kind Kind (show_int n ++ CRLF ++ b ++ CRLF ++ r) (length (show_int n) + 2) (blen b)
  = Ok (Some (b, (length (show_int n) + 2 + length b + 3)%nat)).
Proof.
  intros -> Hb. pose proof (blen_nonneg b).
  pose proof (show_int_length (blen b) ltac:(unfold I64_MAX in *; lia)) as Hd.
  pose proof (parse_payload_app kind Kind (show_int (blen b) ++ CRLF) b r) as Hp.
  rewrite length_app in Hp. change (length CRLF) with 2%nat in Hp. rewrite <- app_assoc in Hp.
  apply Hp. rewrite blen_app. change (blen CRLF) with 2. unfold I64_MAX, blen in *. lia.
Qed.

(** The elements behind a length line. *)
Lemma parse_items_header n items r :
  (∀ v, In v items → reads_back v) →
  parse_items rec (length items) (show_int n ++ CRLF ++ flat_map encode items ++ r)
    (length (show_int n) + 2)
  = Ok (Some (items, (length (show_int n) + 2 + length (flat_map encode items))%nat)).
Proof.
  intros Hv. pose proof (parse_items_encode (show_int n ++ CRLF) items r Hv) as Hp.
  rewrite !length_app, <- app_assoc in Hp. exact Hp.
Qed.

Lemma parse_pairs_header n pairs r :
  (∀ k v, In (k, v) pairs → reads_back k ∧ reads_back v) →
  parse_pairs rec (length pairs)
    (show_int n ++ CRLF ++ flat_map (λ kv, encode kv.1 ++ encode kv.2) pairs ++ r)
    (length (show_int n) + 2)
  = Ok (Some (pairs, (length (show_int n) + 2
                      + length (flat_map (λ kv, encode kv.1 ++ encode kv.2) pairs))%nat)).
Proof.
  intros Hv. pose proof (parse_pairs_encode (show_int n ++ CRLF) pairs r Hv) as Hp.
  rewrite !length_app, <- app_assoc in Hp. exact Hp.
Qed.

(** Closes the count of consumed bytes against the length of the encoding. *)
Ltac consumed :=
  do 3 f_equal; cbn [encode]; unfold header, line; cbn [length app];
  rewrite !length_app; cbn [length CRLF]; lia.

Lemma parse_body_encode v r :
  wf v → (∀ x, (height x < height v)%nat → wf x → reads_back x) →
  parse_body rec (encode v ++ r) = Ok (Some (v, length (encode v))).
Proof.
  intros Hwf IH.
  assert (∀ items, wf_len items ∧ All wf items → height v = sup height items →
    ∀ x, In x items → reads_back x) as Hitems.
  { intros items [_ Hall] Hh x Hx. pose proof (sup_In height items x Hx).
    apply IH; [lia | by eapply All_In]. }
  destruct v as [s|s|i|[b|]|[items|]| |f|b|b|[[f1 f2] f3] text|s|pairs|items|items].
  - by eapply (parse_line_body x2b _ _ s); [intros l; reflexivity|..].
  - by eapply (parse_line_body x2d _ _ s); [intros l; reflexivity|..].
  - eapply (parse_line_body x3a _ _ (of_bytes (show_int i)));
      [intros l; reflexivity | apply show_int_line | by rewrite as_bytes_of_bytes|].
    cbv beta. rewrite as_bytes_of_bytes. unfold parse_i64. by rewrite parse_signed_show.
  - change (encode (BulkString (Some b)) ++ r)
      with (x24 :: ((show_int (blen b) ++ CRLF) ++ b ++ CRLF) ++ r).
    cbn [parse_body]. unfold parse_bulk_string. rewrite <- !app_assoc.
    simpl in Hwf. pose proof (blen_nonneg b).
    rewrite (parse_len_show _ _ (blen b))
      by (apply parse_signed_show; unfold I64_MIN, I64_MAX in *; lia). cbn [andthen].
    destruct (Z.ltb_spec (blen b) (-1)); [lia|]. destruct (Z.eqb_spec (blen b) (-1)); [lia|].
    rewrite parse_payload_header by done. cbn [andthen]. do 3 f_equal.
    cbn [encode]. unfold header, line. simpl length. rewrite !length_app. simpl. lia.
  - reflexivity.
  - destruct Hwf as [Hlen Hall].
    change (encode (Array (Some items)) ++ r)
      with (x2a :: ((show_int (blen items) ++ CRLF) ++ flat_map encode items) ++ r).
    cbn [parse_body]. unfold parse_array. rewrite <- !app_assoc.
    destruct (blen_parse items Hlen) as (H1 & _ & H2 & H3 & H4 & H5).
    rewrite (parse_len_show _ _ (blen items)) by done. cbn [andthen].
    rewrite H2, H3, H4, H5, parse_items_header by (by apply Hitems). cbn [andthen]. consumed.
  - reflexivity.
  - reflexivity.
  - destruct Hwf as [Hok Hnan]. destruct (double_text_spec f Hok Hnan) as [Hl Hp].
    eapply (parse_line_body x2c _ _ (double_text f));
      [intros l; reflexivity | done | apply encode_double | done].
  - by destruct b.
  - change (encode (BlobError b) ++ r) with (x21 :: ((show_int (blen b) ++ CRLF) ++ b ++ CRLF) ++ r).
    cbn [parse_body]. unfold parse_blob_error. rewrite <- !app_assoc.
    simpl in Hwf. pose proof (blen_nonneg b).
    rewrite (parse_len_show _ _ (blen b))
      by (apply show_parse_usize; unfold U64_MAX, I64_MAX in *; lia). cbn [andthen].
    rewrite parse_payload_header by done. cbn [andthen]. consumed.
  - set (raw := f1 :: f2 :: f3 :: x3a :: text).
    assert (blen raw = 4 + blen text) as Hraw by (unfold raw, blen; simpl length; lia).
    change (encode (VerbatimString (f1, f2, f3) text) ++ r)
      with (x3d :: ((show_int (4 + blen text) ++ CRLF) ++ raw ++ CRLF) ++ r).
    cbn [parse_body]. unfold parse_verbatim. rewrite <- !app_assoc, <- Hraw.
    simpl in Hwf. pose proof (blen_nonneg text).
    rewrite (parse_len_show _ _ (blen raw))
      by (apply show_parse_usize; unfold U64_MAX, I64_MAX in *; lia). cbn [andthen].
    destruct (Z.ltb_spec (blen raw) 4); [lia|].
    rewrite parse_payload_header; [|done|lia].
    cbn [andthen].
    change (parse_verbatim_raw raw)
      with (Ok (E := NetError) (VerbatimString (f1, f2, f3) text)). cbn [mbind result_bind].
    do 3 f_equal. cbn [encode]. unfold header, line. rewrite <- Hraw.
    assert (length raw = 4 + length text)%nat as -> by done.
    cbn [length app]. rewrite !length_app. cbn [length CRLF]. rewrite length_app. cbn [length CRLF]. lia.
  - by eapply (parse_line_body x28 _ _ s); [intros l; reflexivity|..].
  - destruct Hwf as [Hlen Hall].
    change (encode (RMap pairs) ++ r) with (x25 :: ((show_int (blen pairs) ++ CRLF)
      ++ flat_map (λ kv, encode kv.1 ++ encode kv.2) pairs) ++ r).
    cbn [parse_body]. unfold parse_map. rewrite <- !app_assoc.
    destruct (blen_parse pairs Hlen) as (_ & H1 & H2 & _ & _ & H5).
    rewrite (parse_len_show _ _ (blen pairs)) by done. cbn [andthen].
    rewrite H2, H5, parse_pairs_header; [cbn [andthen]; consumed|].
    intros k v Hin. pose proof (All_In _ _ _ Hall Hin) as [Hk Hv].
    pose proof (sup_In (λ kv, Nat.max (height kv.1) (height kv.2)) pairs (k, v) Hin).
    simpl in *. split; apply IH; (done || lia).
  - destruct Hwf as [Hlen Hall].
    change (encode (RSet items) ++ r)
      with (x7e :: ((show_int (blen items) ++ CRLF) ++ flat_map encode items) ++ r).
    cbn [parse_body]. unfold parse_set. rewrite <- !app_assoc.
    destruct (blen_parse items Hlen) as (_ & H1 & H2 & _ & _ & H5).
    rewrite (parse_len_show _ _ (blen items)) by done. cbn [andthen].
    rewrite H2, H5, parse_items_header by (by apply Hitems). cbn [andthen]. consumed.
  - destruct Hwf as [Hlen Hall].
    change (encode (Push items) ++ r)
      with (x3e :: ((show_int (blen items) ++ CRLF) ++ flat_map encode items) ++ r).
    cbn [parse_body]. unfold parse_push. rewrite <- !app_assoc.
    destruct (blen_parse items Hlen) as (_ & H1 & H2 & _ & _ & H5).
    rewrite (parse_len_show _ _ (blen items)) by done. cbn [andthen].
    rewrite H2, H5, parse_items_header by (by apply Hitems). cbn [andthen]. consumed.
Qed.
End encode_body.

Lemma parse_resp_slice_encode depth v r :
  wf v → depth + Z.of_nat (height v) <= MAX_RESP_DEPTH →
  parse_resp_slice (encode v ++ r) depth = Ok (Some (v, length (encode v))).
Proof.
  revert v r. induction depth as [depth Hd|depth Hd IH] using depth_induction; intros v r Hwf Hle;
    [lia|]. rewrite parse_resp_slice_unfold. destruct (Z.ltb_spec MAX_RESP_DEPTH depth); [lia|].
  apply parse_body_encode; [done|]. intros x Hx Hwx r'. apply IH; [done | lia].
Qed.

Definition sendable (v : RespValue) : Prop := wf v ∧ Z.of_nat (height v) <= MAX_RESP_DEPTH.

Lemma parse_encode_app v rest : sendable v → parse (encode v ++ rest) = Ok (Some v, rest).
Proof.
  intros [Hwf Hh]. unfold parse. rewrite parse_resp_slice_encode by (done || lia). simpl.
  by rewrite drop_app_length.
Qed.

(** [parse] answers on a longer buffer as on a shorter one it needed no more of. *)
Lemma parse_app src ext :
  blen (src ++ ext) <= I64_MAX →
  match parse src with
  | Ok (Some v, rest) => parse (src ++ ext) = Ok (Some v, rest ++ ext)
  | Ok (None, rest) => rest = src
  | Err e => parse (src ++ ext) = Err e
  end.
Proof.
  intros Hlen. unfold parse. pose proof (stable_parse_resp_slice 0 src ext Hlen) as Hs.
  pose proof (within_parse_resp_slice 0 src) as Hw.
  destruct (parse_resp_slice src 0) as [[[v n]|]|e]; simpl in *; [|done|].
  - rewrite Hs by done. simpl. by rewrite drop_app_le.
  - by rewrite Hs by done.
Qed.

Lemma parse_encode_prefix v p q :
  sendable v → blen (encode v) <= I64_MAX → encode v = p ++ q → q ≠ [] → parse p = Ok (None, p).
Proof.
  intros Hv Hlen E Hq. pose proof (parse_encode_app v [] Hv) as Hp. rewrite app_nil_r, E in Hp.
  rewrite E in Hlen. pose proof (parse_app p q Hlen) as Hs. rewrite Hp in Hs.
  destruct (parse p) as [[[v'|] rest]|e] eqn:Ep; [|by subst|done].
  injection Hs as _ Hr. symmetry in Hr. apply app_eq_nil in Hr as [_ ?]. done.
Qed.

(** C3: parsing inverts serialization: [parse] of the encoding of any sendable
    value followed by any bytes returns the value and leaves those bytes. *)
Theorem parse_encode v rest : sendable v → parse (encode v ++ rest) = Ok (Some v, rest).
Proof. apply parse_encode_app. Qed.

(** The incremental parser is independent of how the bytes arrive: a value or
    an error on a buffer is the answer on every extension of it; asking for more
    consumes nothing; and on every proper prefix of an encoding it does ask for
    more. *)
Theorem parse_incremental v src ext p q :
  sendable v → encode v = p ++ q → q ≠ [] → blen (encode v) <= I64_MAX →
  blen (src ++ ext) <= I64_MAX →
  parse p = Ok (None, p) ∧
  match parse src with
  | Ok (Some v, rest) => parse (src ++ ext) = Ok (Some v, rest ++ ext)
  | Ok (None, rest) => rest = src
  | Err e => parse (src ++ ext) = Err e
  end.
Proof. intros. split; [by eapply parse_encode_prefix | by apply parse_app]. Qed.

(** The parser never takes an aggregate beyond the limits: more than
    [MAX_RESP_COLLECTION_LEN] announced elements are an error as soon as the
    length line is read, whatever follows it. *)
Theorem parse_collection_limit n rest :
  MAX_RESP_COLLECTION_LEN < n <= I64_MAX →
  parse (header x2a n ++ rest) = too_long "Array" n
  ∧ parse (header x25 n ++ rest) = too_long "Map" n
  ∧ parse (header x7e n ++ rest) = too_long "Set" n
  ∧ parse (header x3e n ++ rest) = too_long "Push" n.
Proof.
  intros Hn. unfold MAX_RESP_COLLECTION_LEN in Hn.
  assert (∀ k, parse_len parse_i64 k (show_int n ++ CRLF ++ rest)
    = Ok (Some (n, (length (show_int n) + 2)%nat))) as Hi.
  { intros k. apply parse_len_show, parse_signed_show. unfold I64_MIN, I64_MAX in *. lia. }
  assert (∀ k, parse_len parse_usize k (show_int n ++ CRLF ++ rest)
    = Ok (Some (n, (length (show_int n) + 2)%nat))) as Hu.
  { intros k. apply parse_len_show, show_parse_usize. unfold U64_MAX, I64_MAX in *. lia. }
  assert ((MAX_RESP_COLLECTION_LEN <? n) = true) as Hlt.
  { apply Z.ltb_lt. unfold MAX_RESP_COLLECTION_LEN. lia. }
  assert (∀ m, header m n ++ rest = m :: show_int n ++ CRLF ++ rest) as E.
  { intros m. unfold header, line. cbn [app]. by rewrite <- app_assoc. }
  unfold parse. rewrite !parse_resp_slice_unfold. change (MAX_RESP_DEPTH <? 0) with false.
  rewrite !E. cbn [parse_body]. unfold parse_array, parse_map, parse_set, parse_push.
  rewrite Hi, !Hu. cbn [andthen]. rewrite Hlt.
  destruct (Z.ltb_spec n (-1)); [lia|]. destruct (Z.eqb_spec n (-1)); [lia|]. done.
Qed.
End resp.

(** ** Witnesses

    A text of floats for which the laws of [F64Text] hold: the decimal of the
    bits. *)
Lemma show_int_no_crlf n : no_crlf (show_int n).
Proof.
  assert (∀ c, u8 c < 45 → c ∉ show_int n) as Hc; [|split; by apply Hc].
  intros c Hlt Hin. unfold show_int in Hin.
  assert (∀ m, 0 <= m → c ∉ digits m) as Hd.
  { intros m Hm Hi. destruct (digits_spec m Hm) as [Hd _]. apply list_elem_of_In in Hi.
    apply (proj1 (forallb_forall _ _) Hd) in Hi. unfold is_digit, byte_in in Hi. bool_to_prop. lia. }
  destruct (Z.ltb_spec n 0); [|by apply (Hd n)].
  apply elem_of_cons in Hin as [->|Hin]; [by vm_compute in Hlt | by apply (Hd (- n)); [lia|]].
Qed.

Definition bits_text : F64Text.
Proof.
  refine {| show_f64 f := of_bytes (show_int (to_bits f));
            parse_f64 s := from_bits <$> parse_usize (as_bytes s) |}.
  - intros f Hok _. apply f64_ok_range in Hok. rewrite as_bytes_of_bytes, show_parse_usize;
      [by destruct f | unfold U64_MAX; lia].
  - intros f. unfold str_is_ascii. rewrite as_bytes_of_bytes. apply show_int_ascii.
  - intros f. rewrite as_bytes_of_bytes. apply show_int_no_crlf.
  - intros f Hin.
    assert (parse_signed (to_bits f) (to_bits f) (as_bytes (of_bytes (show_int (to_bits f))))
            = Some (to_bits f)) as Hp by (rewrite as_bytes_of_bytes; apply parse_signed_show; lia).
    repeat (apply elem_of_cons in Hin as [E|Hin]; [by rewrite E in Hp|]).
    by apply elem_of_nil in Hin.
Defined.

Definition demo_reply : RespValue :=
  Array (Some [Array (Some [BulkString (Some [x6e])]);
               RMap [(SimpleString "k", RInteger (-7)); (RNull, RBoolean true)];
               VerbatimString (x74, x78, x74) [x61]]).

Lemma demo_reply_sendable : sendable demo_reply.
Proof. vm_compute. repeat split; discriminate. Qed.

Lemma parse_encode_witness :
  @parse bits_text (@encode bits_text demo_reply ++ [x2b]) = Ok (Some demo_reply, [x2b]).
Proof. apply (@parse_encode bits_text demo_reply [x2b]). apply demo_reply_sendable. Defined.

Lemma parse_incremental_witness :
  @parse bits_text [x24; x33] = Ok (None, [x24; x33])
  ∧ @parse bits_text ([x3a; x37; x0d; x0a] ++ [x2b]) = Ok (Some (RInteger 7), [x2b]).
Proof.
  apply (@parse_incremental bits_text (BulkString (Some [x61; x62; x63]))
           [x3a; x37; x0d; x0a] [x2b] [x24; x33] [x0d; x0a; x61; x62; x63; x0d; x0a]);
    done.
Defined.

Lemma parse_collection_limit_witness :
  @parse bits_text (header x2a 1000001 ++ [x2b]) = too_long "Array" 1000001.
Proof.
  apply (@parse_collection_limit bits_text 1000001 [x2b]).
  unfold MAX_RESP_COLLECTION_LEN, I64_MAX. lia.
Defined.
