(* ===== verification/RespStream.v ===== *)
(** * RESP over a socket ([voyager-net/src/redis/codec.rs])

    The Tokio codec and the read loop of a connection.  The socket is the list
    of what its successive reads return: [Some chunk] or [None] for an I/O
    error; an empty chunk, like the end of the list, is end of file. *)
From S2P Require Import Prelude Bytes F64 Errors Resp.

Open Scope Z_scope.
Open Scope list_scope.

Definition MAX_RESP_FRAME_SIZE : Z := 128 * 1024 * 1024.

(** ** [RespCodec] *)

Record RespCodec := mkCodec { max_frame_size : Z }.

Definition RespCodec_new : RespCodec := mkCodec MAX_RESP_FRAME_SIZE.
(** [#[derive(Default)]]. *)
Definition RespCodec_default : RespCodec := mkCodec 0.
Definition with_max_frame_size (c : RespCodec) (size : Z) : RespCodec := mkCodec size.

Section stream.
Context {FT : F64Text}.

Definition codec_decode (c : RespCodec) (src : list byte) :
    result NetError (option RespValue * list byte) :=
  match src with
  | [] => Ok (None, src)
  | _ =>
      if max_frame_size c <? blen src then
        perr ("RESP frame exceeded maximum safety limit of " +:+ num (max_frame_size c)
              +:+ " bytes (current: " +:+ num (blen src) +:+ ")")
      else parse src
  end.

Definition codec_encode (item : RespValue) (dst : list byte) : list byte := dst ++ encode item.

(** ** Reading from the socket *)

(** The value, and the buffer and the socket after it. *)
Fixpoint read_resp_value (reads : list (option (list byte))) (buffer : list byte) :
    result NetError (RespValue * list byte * list (option (list byte))) :=
  r ← (match buffer with [] => Ok (None, buffer) | _ => parse buffer end);
  match r with
  | (Some val, buffer) => Ok (val, buffer, reads)
  | (None, buffer) =>
      if MAX_RESP_FRAME_SIZE <? blen buffer then
        perr ("RESP buffer exceeded maximum limit of " +:+ num MAX_RESP_FRAME_SIZE +:+ " bytes")
      else
        let eof :=
          match buffer with
          | [] => Err (ConnectionFailed "Connection closed by server while waiting for RESP reply")
          | _ => perr "Unexpected EOF in incomplete RESP frame"
          end in
        match reads with
        | [] | Some [] :: _ => eof
        | None :: _ => Err (ConnectionFailed "Failed to read RESP frame from socket: ")
        | Some chunk :: reads => read_resp_value reads (buffer ++ chunk)
        end
  end.

(** What [write_command] and [write_command_raw] put on the socket. *)
Definition write_command_payload (args : list string) : list byte := encode_command args.

Definition write_command_raw_payload (args : list (list byte)) : list byte :=
  header x2a (blen args)
  ++ flat_map (λ arg, header x24 (blen arg) ++ arg ++ CRLF) args.

(** [n] replies read one after the other, as a pipeline of commands awaits them. *)
Fixpoint read_replies (n : nat) (reads : list (option (list byte))) (buffer : list byte) :
    result NetError (list RespValue * list byte * list (option (list byte))) :=
  match n with
  | O => Ok ([], buffer, reads)
  | S n =>
      '(v, buffer, reads) ← read_resp_value reads buffer;
      '(vs, buffer, reads) ← read_replies n reads buffer;
      Ok (v :: vs, buffer, reads)
  end.

(** ** Properties *)

Lemma encode_nonempty v : encode v ≠ [].
Proof. by destruct v as [| | |[]|[]| | | | |[[]]| | | |]. Qed.

Lemma read_step v more buffer rest :
  sendable v → buffer ++ rest = encode v ++ more → blen (buffer ++ rest) <= MAX_RESP_FRAME_SIZE →
  (∃ b, more = b ++ rest ∧
    (match buffer with [] => Ok (None, buffer) | _ => parse buffer end) = Ok (Some v, b))
  ∨ (rest ≠ [] ∧ (match buffer with [] => Ok (None, buffer) | _ => parse buffer end)
                 = Ok (None, buffer)).
Proof.
  intros Hv E Hlen. rewrite E, blen_app in Hlen. pose proof (blen_nonneg more).
  assert (∀ b, buffer = encode v ++ b → more = b ++ rest → ∃ b, more = b ++ rest ∧
    (match buffer with [] => Ok (None, buffer) | _ => parse buffer end) = Ok (Some v, b)) as Hfull.
  { intros b Hb Hm. exists b. split; [exact Hm|].
    pose proof (parse_encode_app v b Hv) as Hp. rewrite <- Hb in Hp.
    destruct buffer; [|exact Hp]. symmetry in Hb. apply app_eq_nil in Hb as [Hb _].
    by apply encode_nonempty in Hb. }
  apply app_eq_inv in E as [(b & Hb & Hm)|(q & Hb & Hm)]; [left; by apply (Hfull b)|].
  destruct (decide (q = [])) as [->|Hq].
  { left. rewrite app_nil_r in Hb. apply (Hfull []); [by rewrite app_nil_r | by rewrite Hm]. }
  right. split; [intros ->; by destruct q|]. destruct buffer; [done|].
  eapply parse_encode_prefix; [exact Hv | | exact Hb | exact Hq].
  unfold I64_MAX, MAX_RESP_FRAME_SIZE in *. lia.
Qed.

Lemma read_one v more chunks buffer :
  sendable v → Forall (λ c, c ≠ []) chunks → buffer ++ concat chunks = encode v ++ more →
  blen (buffer ++ concat chunks) <= MAX_RESP_FRAME_SIZE →
  ∃ buffer' chunks',
    read_resp_value (map Some chunks) buffer = Ok (v, buffer', map Some chunks')
    ∧ buffer' ++ concat chunks' = more ∧ Forall (λ c, c ≠ []) chunks'.
Proof.
  intros Hv Hne. revert buffer. induction Hne as [|c chunks Hc Hne IH]; intros buffer E Hlen.
  - destruct (read_step v more buffer _ Hv E Hlen) as [(b & Hm & Hr)|[[] _]]; [|done].
    exists b, []. cbn [map read_resp_value]. rewrite Hr. by rewrite Hm.
  - destruct (read_step v more buffer _ Hv E Hlen) as [(b & Hm & Hr)|[_ Hr]].
    + exists b, (c :: chunks). cbn [map read_resp_value]. rewrite Hr.
      split; [done|]. split; [done | by constructor].
    + destruct (IH (buffer ++ c)) as (b & cs & Hread & Hb);
        [by rewrite <- app_assoc | by rewrite <- app_assoc|].
      exists b, cs. split; [|done]. cbn [map read_resp_value]. rewrite Hr.
      cbn [mbind result_bind]. rewrite blen_app in Hlen. pose proof (blen_nonneg (concat (c :: chunks))).
      destruct (Z.ltb_spec MAX_RESP_FRAME_SIZE (blen buffer)); [lia|].
      by destruct c.
Qed.

Lemma read_many vs tail chunks buffer :
  Forall sendable vs → Forall (λ c, c ≠ []) chunks →
  buffer ++ concat chunks = flat_map encode vs ++ tail →
  blen (buffer ++ concat chunks) <= MAX_RESP_FRAME_SIZE →
  ∃ buffer' chunks',
    read_replies (length vs) (map Some chunks) buffer = Ok (vs, buffer', map Some chunks')
    ∧ buffer' ++ concat chunks' = tail.
Proof.
  intros Hvs. revert chunks buffer.
  induction Hvs as [|v vs Hv Hvs IH]; intros chunks buffer Hne E Hlen.
  { by exists buffer, chunks. }
  cbn [flat_map] in E. rewrite <- app_assoc in E.
  destruct (read_one v _ chunks buffer Hv Hne E Hlen) as (b & cs & Hread & Hb & Hne').
  destruct (IH cs b Hne' Hb) as (b' & cs' & Hrest & Hb').
  { rewrite Hb. rewrite E, blen_app in Hlen. pose proof (blen_nonneg (encode v)). lia. }
  exists b', cs'. split; [|done]. cbn [length read_replies]. rewrite Hread. simpl.
  by rewrite Hrest.
Qed.

(** C13: replies are read whole and in order however the network cuts the stream:
    for any division of the encodings of [vs] into nonempty chunks, reading
    [length vs] replies returns [vs], and what is left in the buffer and on the
    socket is what followed them. *)
Theorem read_replies_any_chunking vs tail chunks :
  Forall sendable vs → Forall (λ c, c ≠ []) chunks →
  concat chunks = flat_map encode vs ++ tail → blen (concat chunks) <= MAX_RESP_FRAME_SIZE →
  ∃ buffer chunks',
    read_replies (length vs) (map Some chunks) [] = Ok (vs, buffer, map Some chunks')
    ∧ buffer ++ concat chunks' = tail.
Proof. intros. by apply read_many. Qed.

(** A command is sent as the RESP array of its arguments as bulk strings, so
    the peer's parser reads back exactly the arguments. *)
Theorem command_roundtrip args rest :
  blen args <= MAX_RESP_COLLECTION_LEN →
  All (λ a, blen (as_bytes a) <= I64_MAX - 64) args →
  parse (write_command_payload args ++ rest)
  = Ok (Some (Array (Some (map (λ a, BulkString (Some (as_bytes a))) args))), rest).
Proof.
  intros Hlen Hargs.
  assert (write_command_payload args
    = encode (Array (Some (map (λ a, BulkString (Some (as_bytes a))) args)))) as ->.
  { unfold write_command_payload, encode_command. cbn [encode]. rewrite blen_map. f_equal.
    clear. induction args as [|a args IH]; [done|]. cbn [map flat_map]. by rewrite <- IH. }
  apply parse_encode_app. split; [split|].
  - by unfold wf_len; rewrite blen_map.
  - by rewrite All_map.
  - cbn [height]. rewrite sup_map. unfold MAX_RESP_DEPTH.
    assert (sup (λ x, height (BulkString (Some (as_bytes x)))) args <= 1)%nat; [|lia].
    by apply sup_le; intros; simpl; lia.
Qed.

(** The codec built by [Default::default()] has a limit of zero bytes and refuses
    every frame. *)
Lemma default_codec_refuses src :
  src ≠ [] → ∃ e, codec_decode RespCodec_default src = Err e.
Proof.
  destruct src as [|b src]; [done|]. intros _. unfold codec_decode, RespCodec_default.
  destruct (Z.ltb_spec (max_frame_size (mkCodec 0)) (blen (b :: src))) as [|Hge]; [by eexists|].
  unfold blen in Hge. simpl in Hge. lia.
Qed.
End stream.

(** ** Witnesses *)

Lemma read_replies_any_chunking_witness :
  ∃ buffer chunks',
    @read_replies bits_text 2 (map Some [[x3a; x31]; [x0d]; [x0a; x5f; x0d; x0a; x2b]]) []
    = Ok ([RInteger 1; RNull], buffer, map Some chunks')
    ∧ buffer ++ concat chunks' = [x2b].
Proof.
  apply (@read_replies_any_chunking bits_text [RInteger 1; RNull] [x2b]
           [[x3a; x31]; [x0d]; [x0a; x5f; x0d; x0a; x2b]]).
  - repeat constructor; vm_compute; repeat split; discriminate.
  - by repeat constructor.
  - reflexivity.
  - by vm_compute.
Defined.

Lemma command_roundtrip_witness :
  @parse bits_text (@write_command_payload ["PING"; "a"]%string ++ [])
  = Ok (Some (Array (Some [BulkString (Some [x50; x49; x4e; x47]); BulkString (Some [x61])])), []).
Proof. apply (@command_roundtrip bits_text ["PING"; "a"]%string []); vm_compute; repeat split; discriminate. Defined.
