(* ===== verification/Cache.v ===== *)
(** * The compiled query cache ([voyager-core/src/cache.rs])

    [LruState] is what the mutex guards; every method takes the lock for its whole
    body, so a concurrent execution is a sequence of these operations.  The
    [HashMap] is an association list (its order is never observed), the
    [VecDeque] a list.  A compiled query is a parameter: the cache only copies it. *)
From S2P Require Import Prelude Bytes.

Open Scope Z_scope.
Open Scope list_scope.

Record CacheMetrics := mkMetrics {
  m_hits : Z; m_misses : Z; m_len : Z; m_capacity : Z; m_evictions : Z }.

Section cache.
Context {CompiledQuery : Type}.

Record LruState := mkState {
  map : list (string * (CompiledQuery * Z));
  order : list (string * Z);
  current_gen : Z;
  hits : Z;
  misses : Z;
  evictions : Z;
}.

(** [CompiledQueryCache], its capacity with the guarded state. *)
Record Cache := mkCache { capacity : Z; inner : LruState }.

Definition u64_succ (z : Z) : Z := as_unsigned 64 (z + 1).

Definition new_state : LruState := mkState [] [] 0 0 0 0.
Definition Cache_new (capacity : Z) : Cache := mkCache (Z.max capacity 1) new_state.

Definition get (key : string) (s : LruState) : option CompiledQuery * LruState :=
  let gen_id := u64_succ (current_gen s) in
  match assoc_get key (map s) with
  | Some (compiled, _) =>
      (Some compiled,
       mkState (assoc_insert key (compiled, gen_id) (map s)) (order s ++ [(key, gen_id)]) gen_id
         (u64_succ (hits s)) (misses s) (evictions s))
  | None =>
      (None, mkState (map s) (order s) gen_id (hits s) (u64_succ (misses s)) (evictions s))
  end.

(** [HashMap::remove]. *)
Definition assoc_remove {V} (key : string) (m : list (string * V)) : list (string * V) :=
  filter (λ kv, kv.1 ≠ key) m.

(** Is the queue entry the one the map holds for its key? *)
Definition current (m : list (string * (CompiledQuery * Z))) (e : string * Z) : bool :=
  match assoc_get e.1 m with Some (_, g) => g =? e.2 | None => false end.

(** The eviction loop: pops stale entries until one is current, removes that key. *)
Fixpoint evict (cap : Z) (m : list (string * (CompiledQuery * Z))) (q : list (string * Z)) (ev : Z) :
    list (string * (CompiledQuery * Z)) * list (string * Z) * Z :=
  if cap <=? blen m then
    match q with
    | [] => (m, q, ev)
    | e :: q =>
        if current m e then (assoc_remove e.1 m, q, u64_succ ev) else evict cap m q ev
    end
  else (m, q, ev).

(** One step of the compaction, from the back of the queue. *)
Definition compact_step (m : list (string * (CompiledQuery * Z)))
    (acc : list (string * Z) * list string) (e : string * Z) : list (string * Z) * list string :=
  if current m e && negb (bool_decide (e.1 ∈ acc.2)) then (e :: acc.1, e.1 :: acc.2) else acc.

Definition compact (m : list (string * (CompiledQuery * Z))) (q : list (string * Z)) :
    list (string * Z) :=
  (foldl (compact_step m) ([], []) (reverse q)).1.

Definition put (cap : Z) (key : string) (query : CompiledQuery) (s : LruState) : LruState :=
  let gen_id := u64_succ (current_gen s) in
  match assoc_get key (map s) with
  | Some _ =>
      mkState (assoc_insert key (query, gen_id) (map s)) (order s ++ [(key, gen_id)]) gen_id
        (hits s) (misses s) (evictions s)
  | None =>
      let '(m, q, ev) := evict cap (map s) (order s) (evictions s) in
      let q := q ++ [(key, gen_id)] in
      let m := assoc_insert key (query, gen_id) m in
      let q := if as_unsigned 64 (cap * 4) <? blen q then compact m q else q in
      mkState m q gen_id (hits s) (misses s) ev
  end.

Definition len (s : LruState) : Z := blen (map s).
Definition is_empty (s : LruState) : bool := len s =? 0.
Definition clear (s : LruState) : LruState := mkState [] [] 0 0 0 0.
Definition metrics (c : Cache) : CacheMetrics :=
  let s := inner c in mkMetrics (hits s) (misses s) (blen (map s)) (capacity c) (evictions s).
End cache.

(** ** The contract: a least-recently-used list

    The abstract cache is the list of its entries, the least recently used
    first. *)
Section spec.
Context {Q : Type}.
Notation entries := (list (string * Q)).

Definition others (k : string) (l : entries) : entries := filter (λ e, e.1 ≠ k) l.
Definition touch (k : string) (q : Q) (l : entries) : entries := others k l ++ [(k, q)].

Definition spec_get (k : string) (l : entries) : option Q * entries :=
  match assoc_get k l with Some q => (Some q, touch k q l) | None => (None, l) end.

Definition spec_put (cap : Z) (k : string) (q : Q) (l : entries) : entries :=
  match assoc_get k l with
  | Some _ => touch k q l
  | None => (if cap <=? blen l then drop 1 l else l) ++ [(k, q)]
  end.

(** ** Association lists *)

Lemma assoc_get_In (k : string) (q : Q) (l : entries) : assoc_get k l = Some q → (k, q) ∈ l.
Proof.
  induction l as [|[k' q'] l IH]; simpl; [done|]. case_decide as Hd; [intros [= ->]; subst; by left|].
  intros H. right. by apply IH.
Qed.

Lemma assoc_get_None (k : string) (l : entries) : assoc_get k l = None ↔ k ∉ l.*1.
Proof.
  induction l as [|[k' q'] l IH]; csimpl; [split; [intros _; apply not_elem_of_nil|done]|].
  rewrite not_elem_of_cons. case_decide; [naive_solver|]. rewrite IH. naive_solver.
Qed.

Lemma assoc_get_NoDup (k : string) (q : Q) (l : entries) :
  NoDup l.*1 → (k, q) ∈ l → assoc_get k l = Some q.
Proof.
  induction l as [|[k' q'] l IH]; csimpl; [intros _ H; by apply not_elem_of_nil in H|].
  intros [Hk Hn]%NoDup_cons [[= -> ->]|Hin]%elem_of_cons; [by rewrite decide_True|].
  rewrite decide_False; [by apply IH|]. intros ->. apply Hk. by apply (list_elem_of_fmap_2 fst) in Hin.
Qed.

Lemma others_keys k (l : entries) x : x ∈ (others k l).*1 ↔ x ∈ l.*1 ∧ x ≠ k.
Proof.
  unfold others. rewrite !list_elem_of_fmap. setoid_rewrite list_elem_of_filter. naive_solver.
Qed.

Lemma others_NoDup k (l : entries) : NoDup l.*1 → NoDup (others k l).*1.
Proof.
  unfold others. induction l as [|[k' q'] l IH]; [done|]. rewrite filter_cons. csimpl.
  intros [Hk Hn]%NoDup_cons. case_decide; csimpl; [|by apply IH].
  apply NoDup_cons. split; [|by apply IH]. intros H'. by apply (others_keys k) in H' as [? _].
Qed.

Lemma others_fresh k (l : entries) : k ∉ l.*1 → others k l = l.
Proof.
  unfold others. induction l as [|[k' q'] l IH]; [done|]. csimpl.
  intros [Hne Hin]%not_elem_of_cons. rewrite filter_cons, decide_True by (simpl; congruence).
  by rewrite IH.
Qed.

Lemma touch_NoDup k q (l : entries) : NoDup l.*1 → NoDup (touch k q l).*1.
Proof.
  intros H. unfold touch. rewrite fmap_app. apply NoDup_app. split; [by apply others_NoDup|].
  split; [|apply NoDup_singleton]. intros x Hx. apply others_keys in Hx as [_ Hx].
  csimpl. by rewrite list_elem_of_singleton.
Qed.
End spec.

Lemma assoc_remove_keys {V} k (m : list (string * V)) x :
  x ∈ (assoc_remove k m).*1 ↔ x ∈ m.*1 ∧ x ≠ k.
Proof. apply others_keys. Qed.

Lemma assoc_remove_get {V} k k' (m : list (string * V)) :
  assoc_get k' (assoc_remove k m) = if decide (k' = k) then None else assoc_get k' m.
Proof.
  unfold assoc_remove. induction m as [|[k2 v2] m IH]; [by case_decide|].
  rewrite filter_cons. simpl. repeat case_decide; simpl in *; repeat case_decide; try done; congruence.
Qed.

Lemma assoc_remove_length {V} k (m : list (string * V)) :
  NoDup m.*1 → k ∈ m.*1 → blen (assoc_remove k m) = blen m - 1.
Proof.
  unfold assoc_remove, blen. induction m as [|[k2 v2] m IH]; csimpl; [intros _ H; by apply not_elem_of_nil in H|].
  intros [Hk Hn]%NoDup_cons Hin. rewrite filter_cons. simpl. case_decide as Hd.
  - apply elem_of_cons in Hin as [->|Hin]; [done|]. simpl. specialize (IH Hn Hin). lia.
  - subst. change (filter _ m) with (others k m). rewrite others_fresh by done. lia.
Qed.

Lemma assoc_insert_length {V} (k : string) (v : V) (m : list (string * V)) :
  blen (assoc_insert k v m) = blen m + (if decide (k ∈ m.*1) then 0 else 1).
Proof.
  unfold blen. induction m as [|[k2 v2] m IH].
  { case_decide as Hd; [by apply not_elem_of_nil in Hd|]. simpl. lia. }
  cbn [assoc_insert]. rewrite fmap_cons. cbn [fst].
  destruct (decide (k = k2)) as [->|Hk]; cbn [length].
  - rewrite decide_True by set_solver. lia.
  - rewrite Nat2Z.inj_succ, IH.
    destruct (decide (k ∈ m.*1)); [rewrite decide_True by set_solver|rewrite decide_False by set_solver]; lia.
Qed.

(** ** The abstraction *)

Section refinement.
Context {CompiledQuery : Type}.
Notation LruState := (@LruState CompiledQuery).
Notation smap := (list (string * (CompiledQuery * Z))).
Implicit Types (m : smap) (q : list (string * Z)) (s : LruState).

(** The entry a queue element stands for: none when the element is stale. *)
Definition entry m (e : string * Z) : option (string * CompiledQuery) :=
  match assoc_get e.1 m with
  | Some (query, g) => if g =? e.2 then Some (e.1, query) else None
  | None => None
  end.

Definition live m q : list (string * CompiledQuery) := omap (entry m) q.
Definition abs s : list (string * CompiledQuery) := live (map s) (order s).

(** The invariant of the map and the queue, at a generation. *)
Record wf_at (gen cap : Z) (m : smap) (q : list (string * Z)) : Prop := {
  wf_order : ∀ e, e ∈ q → e.2 <= gen;
  wf_map : NoDup m.*1;
  wf_live : NoDup (live m q).*1;
  wf_queued : ∀ k, k ∈ m.*1 → k ∈ (live m q).*1;
  wf_len : blen m <= cap;
}.
Definition wf (cap : Z) s : Prop :=
  1 <= cap ∧ 0 <= current_gen s ∧ wf_at (current_gen s) cap (map s) (order s).

Lemma live_app m q1 q2 : live m (q1 ++ q2) = live m q1 ++ live m q2.
Proof. apply omap_app. Qed.

Lemma live_cons m e q : live m (e :: q) = match entry m e with Some x => x :: live m q | None => live m q end.
Proof. done. Qed.

Lemma entry_Some m e k query :
  entry m e = Some (k, query) ↔ k = e.1 ∧ assoc_get e.1 m = Some (query, e.2).
Proof.
  unfold entry. destruct (assoc_get e.1 m) as [[q' g]|]; [|naive_solver].
  destruct (Z.eqb_spec g e.2); naive_solver.
Qed.

Lemma current_entry m e : current m e = match entry m e with Some _ => true | None => false end.
Proof. unfold current, entry. destruct (assoc_get e.1 m) as [[q' g]|]; [|done]. by destruct (g =? e.2). Qed.

Lemma live_In m q k query : (k, query) ∈ live m q → ∃ g, assoc_get k m = Some (query, g).
Proof.
  intros (e & _ & He)%list_elem_of_omap. apply entry_Some in He as [-> He]. eauto.
Qed.

(** A recorded use: the key's older elements become stale, the new one is last. *)
Lemma live_use m q k query gen :
  (∀ e, e ∈ q → e.2 < gen) →
  live (assoc_insert k (query, gen) m) (q ++ [(k, gen)]) = touch k query (live m q).
Proof.
  intros Hq. rewrite live_app. unfold touch. f_equal.
  - induction q as [|e q IH]; [done|]. rewrite !live_cons, IH by (intros; apply Hq; by right).
    specialize (Hq e ltac:(by left)). unfold entry.
    destruct (decide (e.1 = k)) as [E|E].
    + rewrite E, assoc_get_insert_eq. destruct (Z.eqb_spec gen e.2); [lia|].
      destruct (assoc_get k m) as [[q' g]|]; [|done]. destruct (g =? e.2); [|done].
      unfold others. rewrite filter_cons. rewrite decide_False by (simpl; tauto). done.
    + rewrite assoc_get_insert_ne by done. destruct (assoc_get e.1 m) as [[q' g]|]; [|done].
      destruct (g =? e.2); [|done]. unfold others. rewrite filter_cons.
      by rewrite decide_True by done.
  - cbn. unfold entry. cbn [fst snd]. by rewrite assoc_get_insert_eq, Z.eqb_refl.
Qed.

(** Removing a key makes its elements stale. *)
Lemma live_remove m q k : live (assoc_remove k m) q = others k (live m q).
Proof.
  induction q as [|e q IH]; [done|]. rewrite !live_cons, IH. unfold entry.
  rewrite assoc_remove_get. case_decide as E.
  - rewrite E. destruct (assoc_get k m) as [[q' g]|]; [|done]. destruct (g =? e.2); [|done].
    unfold others. rewrite filter_cons. by rewrite decide_False by (simpl; tauto).
  - destruct (assoc_get e.1 m) as [[q' g]|]; [|done]. destruct (g =? e.2); [|done].
    unfold others. rewrite filter_cons. by rewrite decide_True by done.
Qed.

(** The eviction loop removes the least recently used entry, and stale elements
    in front of it. *)
Lemma evict_spec cap m q ev k query l :
  cap <= blen m → live m q = (k, query) :: l → NoDup (live m q).*1 →
  ∃ q', evict cap m q ev = (assoc_remove k m, q', u64_succ ev) ∧
    live (assoc_remove k m) q' = l ∧ ∀ e, e ∈ q' → e ∈ q.
Proof.
  intros Hcap. induction q as [|e q IH]; [done|]. cbn [evict].
  destruct (Z.leb_spec cap (blen m)); [|lia].
  rewrite current_entry, live_cons. destruct (entry m e) as [[k' query']|] eqn:He.
  - intros [= -> -> Hl] [Hk Hn]%NoDup_cons. apply entry_Some in He as [-> He].
    exists q. split; [done|]. rewrite live_remove, Hl. rewrite Hl in Hk. split; [|set_solver].
    by apply others_fresh.
  - intros Hl Hn. destruct (IH Hl Hn) as (q' & -> & Hl' & Hq). exists q'. split; [done|].
    split; [done|]. intros x Hx. right. by apply Hq.
Qed.

Lemma evict_below cap m q ev : blen m < cap → evict cap m q ev = (m, q, ev).
Proof. intros H. destruct q; cbn [evict]; by destruct (Z.leb_spec cap (blen m)); [lia|]. Qed.

(** Compaction drops exactly the stale elements. *)
Lemma compact_spec m q :
  NoDup (live m q).*1 → compact m q = filter (λ e, current m e = true) q.
Proof.
  intros Hn.
  enough (H : foldl (compact_step m) ([], []) (reverse q) =
    (filter (λ e, current m e = true) q, (live m q).*1)) by (unfold compact; by rewrite H).
  induction q as [|e q IH]; [done|]. rewrite reverse_cons, foldl_app. rewrite live_cons in *.
  rewrite filter_cons, current_entry. destruct (entry m e) as [[k query]|] eqn:He.
  - csimpl in Hn. apply NoDup_cons in Hn as [Hk Hn]. rewrite IH by done. cbn [foldl].
    unfold compact_step. rewrite current_entry, He. apply entry_Some in He as [-> He].
    cbn [fst snd]. rewrite bool_decide_false by done. by rewrite decide_True.
  - rewrite IH by done. cbn [foldl]. unfold compact_step. rewrite current_entry, He.
    by rewrite decide_False.
Qed.

Lemma live_compact m q : NoDup (live m q).*1 → live m (compact m q) = live m q.
Proof.
  intros Hn. rewrite compact_spec by done. clear Hn. induction q as [|e q IH]; [done|].
  rewrite filter_cons, live_cons, current_entry. destruct (entry m e) eqn:He.
  - rewrite decide_True by done. by rewrite live_cons, He, IH.
  - by rewrite decide_False.
Qed.

(** ** The operations keep the invariant *)

Lemma wf_get gen cap m q k :
  wf_at gen cap m q → assoc_get k (live m q) = option_map fst (assoc_get k m).
Proof.
  intros H. destruct (assoc_get k (live m q)) as [query|] eqn:E.
  - apply assoc_get_In, live_In in E as (g & ->). done.
  - destruct (assoc_get k m) as [[query g]|] eqn:Em; [|done].
    apply assoc_get_None in E. destruct E. apply (wf_queued _ _ _ _ H).
    apply assoc_get_In in Em. by apply (list_elem_of_fmap_2 fst) in Em.
Qed.

Lemma wf_keys gen cap m q k : wf_at gen cap m q → k ∈ m.*1 ↔ k ∈ (live m q).*1.
Proof.
  intros H. split; [apply (wf_queued _ _ _ _ H)|].
  intros ([k' query] & -> & (g & Hg)%live_In)%list_elem_of_fmap.
  apply assoc_get_In in Hg. by apply (list_elem_of_fmap_2 fst) in Hg.
Qed.

Lemma wf_length gen cap m q : wf_at gen cap m q → blen (live m q) = blen m.
Proof.
  intros H. unfold blen. rewrite <- (length_fmap fst (live m q)), <- (length_fmap fst m).
  f_equal. apply Permutation_length, NoDup_Permutation;
    [apply (wf_live _ _ _ _ H)|apply (wf_map _ _ _ _ H)|].
  intros k. symmetry. by eapply wf_keys.
Qed.

Lemma wf_use gen cap cap' m q k query :
  wf_at gen cap m q → blen (assoc_insert k (query, gen + 1) m) <= cap' →
  wf_at (gen + 1) cap' (assoc_insert k (query, gen + 1) m) (q ++ [(k, gen + 1)]).
Proof.
  intros H Hlen.
  assert (Hq : ∀ e, e ∈ q → e.2 < gen + 1) by (intros e He; pose proof (wf_order _ _ _ _ H e He); lia).
  constructor.
  - intros e [He|He]%elem_of_app; [pose proof (Hq e He); lia|].
    apply list_elem_of_singleton in He as ->. simpl. lia.
  - apply assoc_insert_NoDup, (wf_map _ _ _ _ H).
  - rewrite live_use by done. apply touch_NoDup, (wf_live _ _ _ _ H).
  - rewrite live_use by done. intros k'. rewrite assoc_insert_keys. unfold touch.
    rewrite fmap_app, elem_of_app, others_keys. intros [->|Hk]; [right; by left|].
    destruct (decide (k' = k)) as [->|Hne]; [right; by left|]. left. split; [|done].
    by apply (wf_queued _ _ _ _ H).
  - done.
Qed.

Lemma wf_evict gen cap m q ev :
  1 <= cap → wf_at gen cap m q →
  ∃ m' q' ev', evict cap m q ev = (m', q', ev') ∧ wf_at gen (cap - 1) m' q' ∧
    live m' q' = (if cap <=? blen m then drop 1 (live m q) else live m q) ∧
    ∀ k, k ∉ m.*1 → k ∉ m'.*1.
Proof.
  intros Hcap H. pose proof (wf_len _ _ _ _ H) as Hlen. destruct (Z.leb_spec cap (blen m)) as [Hfull|Hroom].
  - destruct (live m q) as [|[k query] l] eqn:Hl.
    { pose proof (wf_length _ _ _ _ H) as Hz. rewrite Hl in Hz. unfold blen in *. simpl in Hz. lia. }
    destruct (evict_spec cap m q ev k query l Hfull Hl) as (q' & E & Hl' & Hq).
    { apply (wf_live _ _ _ _ H). }
    exists (assoc_remove k m), q', (u64_succ ev). split; [done|].
    assert (Hk : k ∈ m.*1) by (rewrite (wf_keys _ _ _ _ k H), Hl; by left).
    pose proof (wf_live _ _ _ _ H) as Hn. rewrite Hl in Hn. apply NoDup_cons in Hn as [_ Hn].
    split; [constructor|split; [done|]].
    + intros e He. apply (wf_order _ _ _ _ H), Hq, He.
    + apply others_NoDup, (wf_map _ _ _ _ H).
    + by rewrite Hl'.
    + rewrite Hl'. intros k' Hk'. apply assoc_remove_keys in Hk' as [Hk' Hne].
      apply (wf_keys _ _ _ _ k' H) in Hk'. rewrite Hl in Hk'. csimpl in Hk'.
      apply elem_of_cons in Hk' as [->|]; done.
    + rewrite assoc_remove_length; [lia|apply (wf_map _ _ _ _ H)|done].
    + intros k' Hk' Hin. by apply assoc_remove_keys in Hin as [? _].
  - rewrite evict_below by done. exists m, q, ev. split; [done|].
    split; [destruct H; constructor; done || lia|done].
Qed.

Lemma u64_succ_small z : 0 <= z < U64_MAX → u64_succ z = z + 1.
Proof. unfold u64_succ, as_unsigned, U64_MAX. intros. apply Z.mod_small. lia. Qed.

Lemma get_refines cap k s :
  wf cap s → current_gen s < U64_MAX →
  wf cap (get k s).2 ∧ spec_get k (abs s) = ((get k s).1, abs (get k s).2) ∧
  current_gen (get k s).2 = current_gen s + 1.
Proof.
  intros (Hcap & Hg & H) Hmax. unfold get, spec_get, abs. rewrite (wf_get _ _ _ _ k H).
  rewrite u64_succ_small by lia.
  destruct (assoc_get k (map s)) as [[query g]|] eqn:E; cbn [option_map fst snd map order current_gen].
  - assert (Hk : k ∈ (map s).*1) by (apply assoc_get_In in E; by apply (list_elem_of_fmap_2 fst) in E).
    split; [|split; [|done]].
    + split; [done|]. cbn [map order current_gen]. split; [lia|]. eapply wf_use; [done|].
      rewrite assoc_insert_length, decide_True by done. pose proof (wf_len _ _ _ _ H). lia.
    + rewrite live_use; [done|]. intros e He. pose proof (wf_order _ _ _ _ H e He). lia.
  - split; [|done]. split; [done|]. cbn [map order current_gen]. split; [lia|].
    destruct H. constructor; try done. intros e He. specialize (wf_order0 e He). lia.
Qed.

Lemma put_refines cap k query s :
  wf cap s → current_gen s < U64_MAX →
  wf cap (put cap k query s) ∧ spec_put cap k query (abs s) = abs (put cap k query s) ∧
  current_gen (put cap k query s) = current_gen s + 1.
Proof.
  intros (Hcap & Hg & H) Hmax. unfold put, spec_put, abs. rewrite (wf_get _ _ _ _ k H).
  rewrite u64_succ_small by lia. rewrite (wf_length _ _ _ _ H).
  destruct (assoc_get k (map s)) as [[query0 g]|] eqn:E; cbn [option_map fst snd].
  - assert (Hk : k ∈ (map s).*1) by (apply assoc_get_In in E; by apply (list_elem_of_fmap_2 fst) in E).
    cbn [map order current_gen]. split; [|split; [|done]].
    + split; [done|]. cbn [map order current_gen]. split; [lia|]. eapply wf_use; [done|].
      rewrite assoc_insert_length, decide_True by done. pose proof (wf_len _ _ _ _ H). lia.
    + rewrite live_use; [done|]. intros e He. pose proof (wf_order _ _ _ _ H e He). lia.
  - destruct (wf_evict _ cap _ _ (evictions s) Hcap H) as (m & q & ev & -> & Hw & Hl & Hfresh).
    apply assoc_get_None, Hfresh in E. pose proof (wf_len _ _ _ _ Hw) as Hlen.
    pose proof (wf_use _ _ cap _ _ k query Hw) as Hu.
    rewrite assoc_insert_length, decide_False in Hu by done. specialize (Hu ltac:(lia)).
    assert (Ht : live (assoc_insert k (query, current_gen s + 1) m) (q ++ [(k, current_gen s + 1)]) =
      (if cap <=? blen (map s) then drop 1 (live (map s) (order s)) else live (map s) (order s))
        ++ [(k, query)]).
    { rewrite live_use by (intros e He; pose proof (wf_order _ _ _ _ Hw e He); lia).
      unfold touch. rewrite others_fresh; [by rewrite Hl|]. by rewrite <- (wf_keys _ _ _ _ k Hw). }
    pose proof (wf_live _ _ _ _ Hu) as Hn.
    destruct (as_unsigned 64 (cap * 4) <? _); cbn [map order current_gen]; (split; [|split; [|done]]);
      rewrite ?live_compact by done; try (by rewrite Ht); (split; [done|]); cbn [map order current_gen];
      (split; [lia|]); [|done].
    destruct Hu. constructor; rewrite ?live_compact by done; try done.
    rewrite compact_spec by done. intros e [_ He]%list_elem_of_filter. by apply wf_order0.
Qed.

(** ** Runs *)

Inductive op := Get (key : string) | Put (key : string) (query : CompiledQuery) | Clear.

Definition step (cap : Z) (o : op) s : option CompiledQuery * LruState :=
  match o with
  | Get k => get k s
  | Put k query => (None, put cap k query s)
  | Clear => (None, clear s)
  end.

Definition spec_step (cap : Z) (o : op) (l : list (string * CompiledQuery)) :
    option CompiledQuery * list (string * CompiledQuery) :=
  match o with
  | Get k => spec_get k l
  | Put k query => (None, spec_put cap k query l)
  | Clear => (None, [])
  end.

Fixpoint exec {St} (f : op → St → option CompiledQuery * St) (ops : list op) (st : St) :
    list (option CompiledQuery) * St :=
  match ops with
  | [] => ([], st)
  | o :: ops => let '(r, st) := f o st in let '(rs, st) := exec f ops st in (r :: rs, st)
  end.

Lemma wf_new cap : 1 <= cap → wf cap new_state.
Proof.
  intros H. split; [done|]. cbn [new_state current_gen map order]. split; [lia|]. constructor.
  - intros e He. by apply not_elem_of_nil in He.
  - constructor.
  - constructor.
  - intros k Hk. by apply not_elem_of_nil in Hk.
  - unfold blen. simpl. lia.
Qed.

Lemma step_refines cap o s :
  wf cap s → current_gen s < U64_MAX →
  wf cap (step cap o s).2 ∧
  spec_step cap o (abs s) = ((step cap o s).1, abs (step cap o s).2) ∧
  current_gen (step cap o s).2 <= current_gen s + 1.
Proof.
  intros H Hmax. destruct o as [k|k query|]; cbn [step spec_step fst snd].
  - destruct (get_refines cap k s H Hmax) as (? & ? & ->). split; [done|]. split; [done|lia].
  - destruct (put_refines cap k query s H Hmax) as (? & -> & ->). split; [done|]. split; [done|lia].
  - destruct H as (Hcap & Hg & _). split; [by apply (wf_new cap)|]. split; [done|]. simpl. lia.
Qed.

Lemma exec_refines cap ops s :
  wf cap s → current_gen s + blen ops <= U64_MAX →
  wf cap (exec (step cap) ops s).2 ∧
  exec (spec_step cap) ops (abs s) = ((exec (step cap) ops s).1, abs (exec (step cap) ops s).2).
Proof.
  revert s. induction ops as [|o ops IH]; intros s H Hmax; [done|].
  unfold blen in Hmax. simpl length in Hmax.
  destruct (step_refines cap o s H) as (H1 & E1 & G1); [lia|].
  destruct (IH (step cap o s).2 H1) as [H2 E2]; [unfold blen; lia|].
  cbn [exec]. rewrite E1. destruct (step cap o s) as [r s']. simpl in *. rewrite E2.
  by destruct (exec (step cap) ops s').
Qed.

(** ** Theorems *)

(** C9: the cache is a least-recently-used cache: over any sequence of lookups,
    insertions and clears (short of the generation counter's 2^64), a cache made
    with any capacity answers every lookup as the list of entries in order of
    last use does, which drops the least recently used one when it is full; and it
    never holds more entries than its capacity. *)
Theorem cache_refines_lru cap ops :
  blen ops <= U64_MAX →
  let c := Cache_new (CompiledQuery := CompiledQuery) cap in
  let '(answers, s) := exec (step (capacity c)) ops (inner c) in
  exec (spec_step (capacity c)) ops [] = (answers, abs s) ∧ len s <= capacity c.
Proof.
  intros Hops. cbn [Cache_new capacity inner].
  destruct (exec_refines (Z.max cap 1) ops new_state) as [(_ & _ & Hw) E];
    [apply wf_new; lia|simpl; lia|].
  destruct (exec _ ops new_state) as [answers s]. split; [exact E|apply (wf_len _ _ _ _ Hw)].
Qed.

(** A hit adds a queue element and removes none, so a run of hits alone grows the
    queue without bound; only the insertion of a new key compacts it. *)
Lemma hits_grow_queue k s n :
  is_Some (assoc_get k (map s)) →
  length (order (Nat.iter n (λ s, (get k s).2) s)) = (length (order s) + n)%nat ∧
  is_Some (assoc_get k (map (Nat.iter n (λ s, (get k s).2) s))).
Proof.
  intros Hk. induction n as [|n [IH1 IH2]]; [split; [simpl; lia|done]|].
  set (f := λ s, (get k s).2) in *. change (Nat.iter (S n) f s) with (f (Nat.iter n f s)).
  set (s' := Nat.iter n f s) in *. unfold f, get. destruct IH2 as [[query g] E]. rewrite E. cbn [map order snd].
  rewrite length_app, assoc_get_insert_eq. split; [simpl; lia|by eexists].
Qed.
End refinement.

(** ** Witness *)

Lemma cache_refines_lru_witness :
  exec (CompiledQuery := nat) (spec_step 2)
    [Put "k1" 1%nat; Put "k2" 2%nat; Get "k1"; Put "k3" 3%nat; Get "k2"] [] =
    ([None; None; Some 1%nat; None; None], [("k1"%string, 1%nat); ("k3"%string, 3%nat)]) ∧
  let c := Cache_new (CompiledQuery := nat) 2 in
  let '(answers, s) := exec (step (capacity c))
    [Put "k1" 1%nat; Put "k2" 2%nat; Get "k1"; Put "k3" 3%nat; Get "k2"] (inner c) in
  exec (spec_step (capacity c))
    [Put "k1" 1%nat; Put "k2" 2%nat; Get "k1"; Put "k3" 3%nat; Get "k2"] [] = (answers, abs s) ∧
  len s <= capacity c.
Proof. split; [reflexivity|]. apply cache_refines_lru. discriminate. Defined.
