(* ===== verification/Pool.v ===== *)
(** * The connection pool ([voyager-net/src/pool.rs])

    The pool's shared state and the tasks that use it, as a transition system:
    one step is one critical section or one atomic operation (with the metric it
    bumps), so that the steps of different tasks interleave as the code lets them.
    A task that is cancelled or panics in the middle of a step is not modelled.  A task's program
    counter says where in [acquire], [obtain_with_permit], [drop] or
    [return_connection] it is.  Time is in nanoseconds; what a connection answers
    when it is probed, and when the factory fails, is up to the environment. *)
From S2P Require Import Prelude Bytes Errors.

Open Scope Z_scope.
Open Scope list_scope.

(** ** Data *)

Record PoolConfig := mkConfig {
  min_idle : Z;
  max_size : Z;
  acquire_timeout : Z;
  idle_timeout : option Z;
  max_lifetime : option Z;
  health_check_interval : Z;
  test_on_acquire : bool;
}.

Definition PoolConfig_default : PoolConfig :=
  mkConfig 1 10 30000000000 (Some 600000000000) (Some 1800000000000) 30000000000 true.

Definition with_max_size (size : Z) (c : PoolConfig) : PoolConfig :=
  mkConfig (min_idle c) size (acquire_timeout c) (idle_timeout c) (max_lifetime c)
    (health_check_interval c) (test_on_acquire c).
Definition with_min_idle (min : Z) (c : PoolConfig) : PoolConfig :=
  mkConfig min (max_size c) (acquire_timeout c) (idle_timeout c) (max_lifetime c)
    (health_check_interval c) (test_on_acquire c).
Definition with_acquire_timeout (timeout : Z) (c : PoolConfig) : PoolConfig :=
  mkConfig (min_idle c) (max_size c) timeout (idle_timeout c) (max_lifetime c)
    (health_check_interval c) (test_on_acquire c).
Definition with_idle_timeout (timeout : option Z) (c : PoolConfig) : PoolConfig :=
  mkConfig (min_idle c) (max_size c) (acquire_timeout c) timeout (max_lifetime c)
    (health_check_interval c) (test_on_acquire c).
Definition with_max_lifetime (lifetime : option Z) (c : PoolConfig) : PoolConfig :=
  mkConfig (min_idle c) (max_size c) (acquire_timeout c) (idle_timeout c) lifetime
    (health_check_interval c) (test_on_acquire c).

(** A physical connection is its number. *)
Record IdleEntry := mkIdle { conn : nat; created_at : Z; last_used_at : Z }.

Record PoolMetrics := mkMetrics {
  acquire_count : Z;
  acquire_timeout_count : Z;
  connections_created : Z;
  connections_evicted : Z;
  connections_failed_health_check : Z;
}.

Inductive outcome := OClosed | OExhausted | OCreateFailed | OReturned.

(** Where a task is.  From [HavePermit] to [ReleasePermit] it owns a permit. *)
Inductive pc :=
| TryFast                                 (** before [try_acquire_owned] *)
| Contended                               (** it failed; about to lock the waiters *)
| Waiting                                 (** registered, on the channel *)
| HavePermit                              (** head of the [obtain_with_permit] loop *)
| PopIdle                                 (** not closed; about to pop *)
| Checking (e : IdleEntry)                (** probing what it popped *)
| Creating                                (** the queue was empty; calling the factory *)
| Leased (c : nat) (created : Z)          (** the caller holds the connection *)
| Returning (c : nat) (created : Z)       (** in [return_connection], not closed, valid *)
| PushIdle (c : nat) (created : Z)        (** no waiter took it; the waiters are unlocked *)
| GivePermit                              (** connection gone; about to [handle_permit_return] *)
| ReleasePermit                           (** about to drop the permit *)
| Finished (o : outcome).

Record Pool := mkPool {
  config : PoolConfig;
  semaphore : Z;                          (** available permits *)
  idle_queue : list IdleEntry;
  waiters : list nat;                     (** tasks, in order of registration *)
  total_connections : Z;
  is_closed : bool;
  metrics : PoolMetrics;
  tasks : list pc;
}.

(** ** Updates *)

Definition usize (z : Z) : Z := as_unsigned 64 z.

Definition set_pc (t : nat) (p : pc) (s : Pool) : Pool :=
  mkPool (config s) (semaphore s) (idle_queue s) (waiters s) (total_connections s) (is_closed s)
    (metrics s) (<[t := p]> (tasks s)).
Definition set_semaphore (n : Z) (s : Pool) : Pool :=
  mkPool (config s) n (idle_queue s) (waiters s) (total_connections s) (is_closed s)
    (metrics s) (tasks s).
Definition set_idle (q : list IdleEntry) (s : Pool) : Pool :=
  mkPool (config s) (semaphore s) q (waiters s) (total_connections s) (is_closed s)
    (metrics s) (tasks s).
Definition set_waiters (w : list nat) (s : Pool) : Pool :=
  mkPool (config s) (semaphore s) (idle_queue s) w (total_connections s) (is_closed s)
    (metrics s) (tasks s).
(** [fetch_add] and [fetch_sub] wrap. *)
Definition add_total (d : Z) (s : Pool) : Pool :=
  mkPool (config s) (semaphore s) (idle_queue s) (waiters s) (usize (total_connections s + d))
    (is_closed s) (metrics s) (tasks s).
Definition set_closed (s : Pool) : Pool :=
  mkPool (config s) (semaphore s) (idle_queue s) (waiters s) (total_connections s) true
    (metrics s) (tasks s).
Definition set_metrics (m : PoolMetrics) (s : Pool) : Pool :=
  mkPool (config s) (semaphore s) (idle_queue s) (waiters s) (total_connections s) (is_closed s)
    m (tasks s).

Definition count_acquire (m : PoolMetrics) : PoolMetrics :=
  mkMetrics (usize (acquire_count m + 1)) (acquire_timeout_count m) (connections_created m)
    (connections_evicted m) (connections_failed_health_check m).
Definition count_timeout (m : PoolMetrics) : PoolMetrics :=
  mkMetrics (acquire_count m) (usize (acquire_timeout_count m + 1)) (connections_created m)
    (connections_evicted m) (connections_failed_health_check m).
Definition count_created (m : PoolMetrics) : PoolMetrics :=
  mkMetrics (acquire_count m) (acquire_timeout_count m) (usize (connections_created m + 1))
    (connections_evicted m) (connections_failed_health_check m).
Definition count_evicted (m : PoolMetrics) : PoolMetrics :=
  mkMetrics (acquire_count m) (acquire_timeout_count m) (connections_created m)
    (usize (connections_evicted m + 1)) (connections_failed_health_check m).
Definition count_failed (m : PoolMetrics) : PoolMetrics :=
  mkMetrics (acquire_count m) (acquire_timeout_count m) (connections_created m)
    (connections_evicted m) (usize (connections_failed_health_check m + 1)).

(** ** Operations *)

Definition Pool_new (c : PoolConfig) : Pool :=
  mkPool c (Z.max (max_size c) 1) [] [] 0 false (mkMetrics 0 0 0 0 0) [].

(** [warm_up], when the factory succeeds each time: [min_idle.min(max_size)]
    connections join the queue, whatever it holds already. *)
Definition warm_up_one (now : Z) (c : nat) (s : Pool) : Pool :=
  set_idle (idle_queue s ++ [mkIdle c now now])
    (add_total 1 (set_metrics (count_created (metrics s)) s)).
Fixpoint warm_up_n (n : nat) (now : Z) (c : nat) (s : Pool) : Pool :=
  match n with
  | O => s
  | S n => if is_closed s then s else warm_up_n n now (S c) (warm_up_one now c s)
  end.
Definition warm_up (now : Z) (c : nat) (s : Pool) : Pool :=
  warm_up_n (Z.to_nat (Z.min (min_idle (config s)) (max_size (config s)))) now c s.

(** [now.duration_since(since) > limit]; the duration saturates at zero. *)
Definition exceeds (limit : option Z) (now since : Z) : bool :=
  match limit with Some l => l <? Z.max 0 (now - since) | None => false end.

(** What the connection answers: [is_valid], [ping], [is_in_transaction],
    [reset], and [is_valid] after the reset. *)
Record Probe := mkProbe {
  p_valid : bool; p_ping : bool; p_in_transaction : bool; p_reset : bool; p_valid_after : bool }.

Inductive verdict := Keep | Evict | Unhealthy.

(** The checks of [obtain_with_permit] on what it popped. *)
Definition examine (c : PoolConfig) (now : Z) (e : IdleEntry) (p : Probe) : verdict :=
  if exceeds (max_lifetime c) now (created_at e) then Evict
  else if exceeds (idle_timeout c) now (last_used_at e) then Evict
  else if test_on_acquire c && (negb (p_valid p) || negb (p_ping p)) then Unhealthy
  else if p_in_transaction p then
    if negb (p_reset p) || negb (p_valid_after p) then Unhealthy else Keep
  else if negb (p_valid p) then Unhealthy
  else Keep.

(** The first waiter whose receiver is alive, and the queue behind it: the loop
    that pops senders until one is open. *)
Fixpoint pop_waiter (ts : list pc) (w : list nat) : option nat * list nat :=
  match w with
  | [] => (None, [])
  | t :: w => match ts !! t with Some Waiting => (Some t, w) | _ => pop_waiter ts w end
  end.

(** [handle_permit_return], under the lock of the waiters: the permit goes to a
    waiter, or back to the semaphore before the lock is released. *)
Definition handle_permit_return (s : Pool) : Pool :=
  match pop_waiter (tasks s) (waiters s) with
  | (Some t, w) => set_pc t HavePermit (set_waiters w s)
  | (None, w) => set_semaphore (semaphore s + 1) (set_waiters w s)
  end.

(** The critical section of [return_connection]: a waiter gets the connection and
    the permit, or the task goes on to push it to the queue. *)
Definition hand_over (t c : nat) (created : Z) (s : Pool) : Pool :=
  match pop_waiter (tasks s) (waiters s) with
  | (Some u, w) => set_pc u (Leased c created) (set_pc t (Finished OReturned) (set_waiters w s))
  | (None, w) => set_pc t (PushIdle c created) (set_waiters w s)
  end.

(** [evict_expired]: the entries retained, and the number dropped. *)
Definition expired (c : PoolConfig) (now : Z) (e : IdleEntry) : bool :=
  exceeds (idle_timeout c) now (last_used_at e) || exceeds (max_lifetime c) now (created_at e).
Fixpoint evict_loop (c : PoolConfig) (now : Z) (q : list IdleEntry) (s : Pool) : list IdleEntry * Pool :=
  match q with
  | [] => ([], s)
  | e :: q =>
      if expired c now e then
        evict_loop c now q (add_total (-1) (set_metrics (count_evicted (metrics s)) s))
      else let '(retained, s) := evict_loop c now q s in (e :: retained, s)
  end.
Definition evict_expired (now : Z) (s : Pool) : Pool :=
  let '(retained, s) := evict_loop (config s) now (idle_queue s) s in set_idle retained s.

(** The two critical sections of [close]: the waiters are dropped, which closes
    their channels, and then the idle connections. *)
Definition close_waiters (s : Pool) : Pool :=
  mkPool (config s) (semaphore s) (idle_queue s) [] (total_connections s) (is_closed s) (metrics s)
    (imap (λ t p, match p with
                  | Waiting => if decide (t ∈ waiters s) then Finished OClosed else p
                  | _ => p
                  end) (tasks s)).
Definition close_idle (s : Pool) : Pool :=
  set_idle [] (add_total (- blen (idle_queue s)) s).

Definition active_count (s : Pool) : Z := Z.max 0 (max_size (config s) - semaphore s).
Definition idle_count (s : Pool) : Z := blen (idle_queue s).
Definition total_count (s : Pool) : Z := total_connections s.

(** ** Steps *)

Definition at_pc (s : Pool) (t : nat) (p : pc) : Prop := tasks s !! t = Some p.

(** Connections in the pool: queued, or held by a task. *)
Definition pc_conn (p : pc) : option nat :=
  match p with
  | Checking e => Some (conn e)
  | Leased c _ | Returning c _ | PushIdle c _ => Some c
  | _ => None
  end.

Inductive step : Pool → Pool → Prop :=
(** [acquire]: a new task *)
| step_acquire s :
    step s (mkPool (config s) (semaphore s) (idle_queue s) (waiters s) (total_connections s)
              (is_closed s) (count_acquire (metrics s))
              (tasks s ++ [if is_closed s then Finished OClosed else TryFast]))
| step_fast s t :
    at_pc s t TryFast → 0 < semaphore s →
    step s (set_pc t HavePermit (set_semaphore (semaphore s - 1) s))
| step_saturated s t : at_pc s t TryFast → semaphore s = 0 → step s (set_pc t Contended s)
| step_double_check s t :
    at_pc s t Contended → 0 < semaphore s →
    step s (set_pc t HavePermit (set_semaphore (semaphore s - 1) s))
| step_register s t :
    at_pc s t Contended → semaphore s = 0 →
    step s (set_pc t Waiting (set_waiters (waiters s ++ [t]) s))
| step_timeout s t :
    at_pc s t Waiting →
    step s (set_pc t (Finished OExhausted) (set_metrics (count_timeout (metrics s)) s))
(** [obtain_with_permit] *)
| step_pool_closed s t :
    at_pc s t HavePermit → is_closed s = true →
    step s (set_pc t (Finished OClosed) (set_semaphore (semaphore s + 1) s))
| step_pool_open s t : at_pc s t HavePermit → is_closed s = false → step s (set_pc t PopIdle s)
| step_pop s t e q :
    at_pc s t PopIdle → idle_queue s = e :: q → step s (set_pc t (Checking e) (set_idle q s))
| step_empty s t : at_pc s t PopIdle → idle_queue s = [] → step s (set_pc t Creating s)
| step_keep s t e now p :
    at_pc s t (Checking e) → examine (config s) now e p = Keep →
    step s (set_pc t (Leased (conn e) (created_at e)) s)
| step_evict s t e now p :
    at_pc s t (Checking e) → examine (config s) now e p = Evict →
    step s (set_pc t HavePermit (add_total (-1) (set_metrics (count_evicted (metrics s)) s)))
| step_unhealthy s t e now p :
    at_pc s t (Checking e) → examine (config s) now e p = Unhealthy →
    step s (set_pc t HavePermit (add_total (-1) (set_metrics (count_failed (metrics s)) s)))
| step_created s t c now :
    at_pc s t Creating →
    (∀ e, e ∈ idle_queue s → conn e ≠ c) → (∀ u p, at_pc s u p → pc_conn p ≠ Some c) →
    step s (set_pc t (Leased c now) (add_total 1 (set_metrics (count_created (metrics s)) s)))
| step_create_failed s t :
    at_pc s t Creating → step s (handle_permit_return (set_pc t (Finished OCreateFailed) s))
(** [drop]: broken, invalid, not reset in time, or the pool is closed *)
| step_discard s t c created :
    at_pc s t (Leased c created) → step s (set_pc t GivePermit (add_total (-1) s))
| step_give s t :
    at_pc s t GivePermit → step s (handle_permit_return (set_pc t (Finished OReturned) s))
(** [drop] of a sound connection: [return_connection] *)
| step_return s t c created :
    at_pc s t (Leased c created) → is_closed s = false →
    step s (set_pc t (Returning c created) s)
| step_hand_over s t c created : at_pc s t (Returning c created) → step s (hand_over t c created s)
| step_push s t c created now :
    at_pc s t (PushIdle c created) →
    step s (set_pc t ReleasePermit (set_idle (idle_queue s ++ [mkIdle c created now]) s))
| step_release s t :
    at_pc s t ReleasePermit →
    step s (set_pc t (Finished OReturned) (set_semaphore (semaphore s + 1) s))
(** maintenance *)
| step_evict_expired s now : step s (evict_expired now s)
| step_close s : step s (set_closed s)
| step_close_waiters s : is_closed s = true → step s (close_waiters s)
| step_close_idle s : is_closed s = true → step s (close_idle s).

(** Pools reached from a new one, warmed up before its first use or not. *)
Inductive reachable (c : PoolConfig) : Pool → Prop :=
| reach_new : reachable c (Pool_new c)
| reach_warm now k : reachable c (warm_up now k (Pool_new c))
| reach_step s s' : reachable c s → step s s' → reachable c s'.

(** ** Counting *)

(** The sum of a weight over the tasks and of another over the idle queue. *)
Definition weigh {A} (f : A → Z) (l : list A) : Z := foldr (λ x n, f x + n) 0 l.

Arguments weigh : simpl never.

(** Closes the arithmetic side conditions of an update. *)
Ltac pool_lia := cbn; first [lia | left; lia | right; lia | intros; left; cbn; lia].

Lemma weigh_app {A} (f : A → Z) l k : weigh f (l ++ k) = weigh f l + weigh f k.
Proof. induction l as [|x l IH]; unfold weigh in *; simpl; [done|]. rewrite IH. lia. Qed.

Lemma weigh_insert {A} (f : A → Z) l t old new :
  l !! t = Some old → weigh f (<[t := new]> l) = weigh f l - f old + f new.
Proof.
  revert t. induction l as [|x l IH]; intros [|t] H; simplify_eq/=; unfold weigh in *; simpl; [lia|]. rewrite (IH _ H). lia.
Qed.

Lemma weigh_nonneg {A} (f : A → Z) l : (∀ x, 0 <= f x) → 0 <= weigh f l.
Proof. intros H. induction l as [|x l IH]; unfold weigh in *; simpl; [lia|]. specialize (H x). lia. Qed.

Lemma weigh_zero {A} (f : A → Z) l : (∀ t x, l !! t = Some x → f x = 0) → weigh f l = 0.
Proof.
  induction l as [|x l IH]; intros H; unfold weigh in *; simpl; [done|].
  rewrite (H 0%nat x eq_refl), IH; [done|]. intros t y Hy. apply (H (S t) y Hy).
Qed.

Definition holds_permit (p : pc) : Z :=
  match p with
  | HavePermit | PopIdle | Checking _ | Creating | Leased _ _ | Returning _ _ | PushIdle _ _
  | GivePermit | ReleasePermit => 1
  | _ => 0
  end.
Definition has_conn (p : pc) : Z := match pc_conn p with Some _ => 1 | None => 0 end.
Definition creating (p : pc) : Z := match p with Creating => 1 | _ => 0 end.
Definition holds (c : nat) (p : pc) : Z :=
  match pc_conn p with Some c' => if decide (c' = c) then 1 else 0 | None => 0 end.
Definition is_conn (c : nat) (e : IdleEntry) : Z := if decide (conn e = c) then 1 else 0.

Definition permits_out (s : Pool) : Z := weigh holds_permit (tasks s).
Definition conns (s : Pool) : Z := blen (idle_queue s) + weigh has_conn (tasks s).
Definition copies (c : nat) (s : Pool) : Z :=
  weigh (is_conn c) (idle_queue s) + weigh (holds c) (tasks s).

(** The configured bound. *)
Definition bound (c : PoolConfig) : Z := Z.max (max_size c) 1.

(** Permits are conserved, [d] of them being on their way from one owner to the
    next; the counter counts the connections; connections that exist or are being
    made fit the bound; no connection is in two places. *)
Record inv_moving (d : Z) (c : PoolConfig) (s : Pool) : Prop := {
  inv_config : config s = c;
  inv_permits : 0 <= semaphore s ∧ semaphore s + permits_out s + d = bound c;
  inv_total : total_connections s = usize (conns s);
  inv_bound : conns s + weigh creating (tasks s) <= bound c;
  inv_unique : ∀ k, copies k s <= 1;
}.
Notation inv := (inv_moving 0).

Lemma usize_add x d : usize (usize x + d) = usize (x + d).
Proof. unfold usize, as_unsigned. by rewrite Z.add_mod_idemp_l. Qed.

(** One task moves on, the queue and the counters with it. *)
Lemma inv_update d d' c s s' t old p :
  inv_moving d c s → at_pc s t old → tasks s' = <[t := p]> (tasks s) → config s' = config s →
  0 <= semaphore s' → semaphore s' + holds_permit p + d' = semaphore s + holds_permit old + d →
  (let delta := blen (idle_queue s') - blen (idle_queue s) + has_conn p - has_conn old in
   delta = 0 ∧ total_connections s' = total_connections s
   ∨ total_connections s' = usize (total_connections s + delta)) →
  blen (idle_queue s') + has_conn p + creating p <= blen (idle_queue s) + has_conn old + creating old
    ∨ conns s' + weigh creating (tasks s') <= bound c →
  (∀ k, weigh (is_conn k) (idle_queue s') + holds k p <= weigh (is_conn k) (idle_queue s) + holds k old
    ∨ copies k s' <= 1) →
  inv_moving d' c s'.
Proof.
  intros [Hc [Hs Hp] Ht Hb Hu] Hold Etasks Econf Hsem Hperm Htot Hbound Huniq.
  unfold permits_out, conns, copies in *. rewrite Etasks in *.
  pose proof (weigh_insert holds_permit _ _ _ p Hold) as W1.
  pose proof (weigh_insert has_conn _ _ _ p Hold) as W2.
  pose proof (weigh_insert creating _ _ _ p Hold) as W3.
  constructor.
  - congruence.
  - unfold permits_out. rewrite Etasks, W1. lia.
  - unfold conns. rewrite Etasks, W2.
    destruct Htot as [[Hd ->]| ->]; rewrite Ht; [f_equal; lia|]. rewrite usize_add. f_equal. lia.
  - unfold conns. rewrite Etasks. lia.
  - intros k. unfold copies. rewrite Etasks. specialize (Hu k). specialize (Huniq k).
    pose proof (weigh_insert (holds k) _ _ _ p Hold). lia.
Qed.

Lemma pop_waiter_waiting ts w u w' : pop_waiter ts w = (Some u, w') → ts !! u = Some Waiting.
Proof.
  induction w as [|t w IH]; simpl; [done|].
  destruct (ts !! t) as [[]|] eqn:E; try done. by intros [= <- <-].
Qed.

(** A permit on its way arrives. *)
Lemma inv_handle_permit c s : inv_moving 1 c s → inv c (handle_permit_return s).
Proof.
  intros H. unfold handle_permit_return.
  destruct (pop_waiter (tasks s) (waiters s)) as [[u|] w] eqn:E.
  - apply pop_waiter_waiting in E.
    eapply (inv_update 1 0 c s _ u Waiting HavePermit); try done;
      destruct H as [_ [??] _ _ _]; pool_lia.
  - destruct H as [Hc [Hs Hp] Ht Hb Hu]. constructor; try done. unfold permits_out in *. cbn in *. lia.
Qed.

Lemma holds_kept k p : 0 <= holds k p.
Proof. unfold holds. destruct (pc_conn p); [case_decide|]; lia. Qed.

Lemma is_conn_nonneg k e : 0 <= is_conn k e.
Proof. unfold is_conn. case_decide; lia. Qed.

(** Connections and creations need permits. *)
Lemma conn_permit p : has_conn p + creating p <= holds_permit p.
Proof. destruct p; cbn; lia. Qed.

Lemma weigh_le {A} (f g : A → Z) l : (∀ x, f x <= g x) → weigh f l <= weigh g l.
Proof. intros H. induction l as [|x l IH]; unfold weigh in *; simpl; [lia|]. specialize (H x). lia. Qed.

Lemma weigh_add {A} (f g : A → Z) l : weigh (λ x, f x + g x) l = weigh f l + weigh g l.
Proof. induction l as [|x l IH]; unfold weigh in *; simpl; [done|]. rewrite IH. lia. Qed.

Lemma inv_hand_over c s t k created :
  inv c s → at_pc s t (Returning k created) → inv c (hand_over t k created s).
Proof.
  intros H Ht. unfold hand_over. destruct (pop_waiter (tasks s) (waiters s)) as [[u|] w] eqn:E.
  - apply pop_waiter_waiting in E. unfold at_pc in Ht.
    assert (Hne : t ≠ u) by (intros ->; congruence).
    assert (Hu : <[t := Finished OReturned]> (tasks s) !! u = Some Waiting)
      by (by rewrite list_lookup_insert_ne).
    destruct H as [Hc [Hs Hp] Htot Hb Hq]. unfold permits_out, conns, copies in *.
    constructor; unfold permits_out, conns, copies; cbn [set_pc set_waiters config tasks semaphore
      idle_queue total_connections]; [done|..];
      rewrite ?(weigh_insert _ _ _ _ _ Hu), ?(weigh_insert _ _ _ _ _ Ht); cbn; try lia.
    + rewrite Htot. f_equal. lia.
    + intros j. rewrite (weigh_insert _ _ _ _ _ Hu), (weigh_insert _ _ _ _ _ Ht).
      specialize (Hq j). cbn. lia.
  - eapply (inv_update 0 0 c s _ t (Returning k created) (PushIdle k created)); try done;
      destruct H as [_ [??] _ _ _]; pool_lia.
Qed.

(** Steps that change no task but the queue. *)
Lemma inv_queue c s s' :
  inv c s → tasks s' = tasks s → config s' = config s → semaphore s' = semaphore s →
  blen (idle_queue s') <= blen (idle_queue s) →
  (let delta := blen (idle_queue s') - blen (idle_queue s) in
   delta = 0 ∧ total_connections s' = total_connections s
   ∨ total_connections s' = usize (total_connections s + delta)) →
  (∀ k, weigh (is_conn k) (idle_queue s') <= weigh (is_conn k) (idle_queue s)) → inv c s'.
Proof.
  intros [Hc [Hs Hp] Ht Hb Hu] Et Ec Es Hlen Htot Hk. unfold permits_out, conns, copies in *.
  constructor; unfold permits_out, conns, copies; rewrite ?Et; [congruence|lia| |lia|].
  - destruct Htot as [[Hd ->]| ->]; rewrite Ht; [f_equal; lia|]. rewrite usize_add. f_equal. lia.
  - intros k. specialize (Hu k). specialize (Hk k). lia.
Qed.

Lemma evict_loop_spec cfg now q s r s' :
  evict_loop cfg now q s = (r, s') →
  tasks s' = tasks s ∧ config s' = config s ∧ semaphore s' = semaphore s ∧ blen r <= blen q ∧
  (let delta := blen r - blen q in
   delta = 0 ∧ total_connections s' = total_connections s
   ∨ total_connections s' = usize (total_connections s + delta)) ∧
  ∀ k, weigh (is_conn k) r <= weigh (is_conn k) q.
Proof.
  revert s r. induction q as [|e q IH]; intros s r H; cbn [evict_loop] in H.
  { injection H as <- <-. split_and!; try done. left. split; [lia|done]. }
  destruct (expired cfg now e).
  - apply IH in H as (-> & -> & -> & Hlen & Ht & Hk). cbn [tasks config semaphore total_connections
      add_total set_metrics] in *. unfold blen in *. cbn [length].
    split_and!; try done; [lia| |].
    + right. destruct Ht as [[Hd ->]| ->]; [f_equal; lia|]. rewrite usize_add. f_equal. lia.
    + intros k. specialize (Hk k). pose proof (is_conn_nonneg k e). unfold weigh in *. simpl. lia.
  - destruct (evict_loop cfg now q s) as [r0 s0] eqn:E. injection H as <- <-.
    apply IH in E as (-> & -> & -> & Hlen & Ht & Hk). unfold blen in *. cbn [length].
    split_and!; try done; [lia| |].
    + destruct Ht as [[Hd ->]| ->]; [left; split; [lia|done]|right; f_equal; lia].
    + intros k. specialize (Hk k). unfold weigh in *. simpl. lia.
Qed.

Lemma weigh_imap {A} (f : A → Z) (g : nat → A → A) l :
  (∀ t x, f (g t x) = f x) → weigh f (imap g l) = weigh f l.
Proof.
  revert g. induction l as [|x l IH]; intros g H; [done|]. rewrite imap_cons. unfold weigh in *. simpl.
  rewrite H, IH; [done|]. intros t y. apply H.
Qed.

Lemma weigh_cons {A} (f : A → Z) x l : weigh f (x :: l) = f x + weigh f l.
Proof. done. Qed.

Lemma weigh_snoc {A} (f : A → Z) l x : weigh f (l ++ [x]) = weigh f l + f x.
Proof. rewrite weigh_app, weigh_cons. unfold weigh at 2. simpl. lia. Qed.

(** A popped connection, a created one, a returned one. *)
Lemma inv_pop c s t e q :
  inv c s → at_pc s t PopIdle → idle_queue s = e :: q → inv c (set_pc t (Checking e) (set_idle q s)).
Proof.
  intros H Ht Hq. eapply (inv_update 0 0 c s _ t PopIdle (Checking e)); try done;
    destruct H as [_ [??] _ _ _]; cbn; rewrite ?Hq; unfold blen; cbn [length]; try lia.
  intros k. left. rewrite weigh_cons. unfold holds, is_conn. cbn. lia.
Qed.

Lemma inv_empty c s t : inv c s → at_pc s t PopIdle → idle_queue s = [] → inv c (set_pc t Creating s).
Proof.
  intros H Ht Hq. eapply (inv_update 0 0 c s _ t PopIdle Creating); try done;
    destruct H as [_ [Hs Hp] _ _ _]; [pool_lia|pool_lia| |intros k; pool_lia].
  right. unfold conns. cbn [set_pc idle_queue tasks]. rewrite Hq. unfold blen. cbn [length].
  pose proof (weigh_le _ holds_permit (<[t:=Creating]> (tasks s)) conn_permit) as Hle.
  rewrite weigh_add in Hle. unfold permits_out in Hp.
  rewrite (weigh_insert holds_permit _ _ _ Creating Ht) in Hle. cbn in Hle. lia.
Qed.

Lemma inv_created c s t k now :
  inv c s → at_pc s t Creating →
  (∀ e, e ∈ idle_queue s → conn e ≠ k) → (∀ u p, at_pc s u p → pc_conn p ≠ Some k) →
  inv c (set_pc t (Leased k now) (add_total 1 (set_metrics (count_created (metrics s)) s))).
Proof.
  intros H Ht Hidle Htasks.
  eapply (inv_update 0 0 c s _ t Creating (Leased k now)); try done;
    pose proof H as [_ [Hs Hp] _ _ Hu]; [pool_lia| |pool_lia|].
  - right. cbn. f_equal. lia.
  - intros j. destruct (decide (k = j)) as [<-|Hne].
    + right. unfold copies. cbn [set_pc add_total set_metrics idle_queue tasks].
      rewrite (weigh_insert _ _ _ _ _ Ht).
      rewrite (weigh_zero (is_conn k) (idle_queue s)), (weigh_zero (holds k) (tasks s)).
      * cbn. rewrite decide_True by done. lia.
      * intros u p Hup. specialize (Htasks u p Hup). unfold holds. destruct (pc_conn p); [|done].
        rewrite decide_False; [done|congruence].
      * intros i e He. unfold is_conn. rewrite decide_False; [done|].
        apply Hidle. by eapply list_elem_of_lookup_2.
    + left. cbn. rewrite decide_False by done. lia.
Qed.

Lemma inv_push c s t k created now :
  inv c s → at_pc s t (PushIdle k created) →
  inv c (set_pc t ReleasePermit (set_idle (idle_queue s ++ [mkIdle k created now]) s)).
Proof.
  intros H Ht. eapply (inv_update 0 0 c s _ t (PushIdle k created) ReleasePermit); try done;
    destruct H as [_ [??] _ _ _]; cbn; rewrite ?blen_app; unfold blen; cbn [length]; try lia.
  intros j. left. rewrite weigh_app, weigh_cons. unfold weigh at 2. simpl.
  unfold holds, is_conn. cbn. lia.
Qed.

Lemma inv_acquire c s p m :
  inv c s → holds_permit p = 0 →
  inv c (mkPool (config s) (semaphore s) (idle_queue s) (waiters s) (total_connections s)
           (is_closed s) m (tasks s ++ [p])).
Proof.
  intros [Hc [Hs Hp] Ht Hb Hu] H0. unfold permits_out, conns, copies in *.
  assert (Hcp : pc_conn p = None) by (by destruct p). assert (creating p = 0) by (by destruct p).
  assert (has_conn p = 0) by (unfold has_conn; by rewrite Hcp).
  constructor; unfold permits_out, conns, copies; cbn [config semaphore idle_queue total_connections tasks];
    [done|..|intros k]; rewrite !weigh_snoc; [lia|rewrite Ht; f_equal; lia|lia|].
  unfold holds at 2. rewrite Hcp. specialize (Hu k). lia.
Qed.

Lemma inv_step c s s' : inv c s → step s s' → inv c s'.
Proof.
  intros H Hstep. pose proof H as [_ [Hs Hp] _ _ _]. destruct Hstep as
    [s|s t Ht Hsem|s t Ht Hsem|s t Ht Hsem|s t Ht Hsem|s t Ht|s t Ht Hcl|s t Ht Hcl|s t e q Ht Hq|s t Ht Hq
    |s t e now p Ht Hx|s t e now p Ht Hx|s t e now p Ht Hx|s t k now Ht Hi Hk|s t Ht|s t k created Ht
    |s t Ht|s t k created Ht Hcl|s t k created Ht|s t k created now Ht|s t Ht|s now|s|s Hcl|s Hcl].
  - apply inv_acquire; [done|]. by destruct (is_closed s).
  - eapply (inv_update 0 0 c s _ t TryFast HavePermit); try done; pool_lia.
  - eapply (inv_update 0 0 c s _ t TryFast Contended); try done; pool_lia.
  - eapply (inv_update 0 0 c s _ t Contended HavePermit); try done; pool_lia.
  - eapply (inv_update 0 0 c s _ t Contended Waiting); try done; pool_lia.
  - eapply (inv_update 0 0 c s _ t Waiting (Finished OExhausted)); try done; pool_lia.
  - eapply (inv_update 0 0 c s _ t HavePermit (Finished OClosed)); try done; pool_lia.
  - eapply (inv_update 0 0 c s _ t HavePermit PopIdle); try done; pool_lia.
  - by apply inv_pop.
  - by apply inv_empty.
  - eapply (inv_update 0 0 c s _ t (Checking e) (Leased (conn e) (created_at e))); try done; pool_lia.
  - eapply (inv_update 0 0 c s _ t (Checking e) HavePermit); try done; try pool_lia.
    + right. cbn. f_equal. lia.
    + intros k. left. pose proof (holds_kept k (Checking e)). cbn in *. lia.
  - eapply (inv_update 0 0 c s _ t (Checking e) HavePermit); try done; try pool_lia.
    + right. cbn. f_equal. lia.
    + intros k. left. pose proof (holds_kept k (Checking e)). cbn in *. lia.
  - by apply inv_created.
  - apply inv_handle_permit.
    eapply (inv_update 0 1 c s _ t Creating (Finished OCreateFailed)); try done; pool_lia.
  - eapply (inv_update 0 0 c s _ t (Leased k created) GivePermit); try done; try pool_lia.
    + right. cbn. f_equal. lia.
    + intros j. left. pose proof (holds_kept j (Leased k created)). cbn in *. lia.
  - apply inv_handle_permit.
    eapply (inv_update 0 1 c s _ t GivePermit (Finished OReturned)); try done; pool_lia.
  - eapply (inv_update 0 0 c s _ t (Leased k created) (Returning k created)); try done; pool_lia.
  - by apply inv_hand_over.
  - by apply inv_push.
  - eapply (inv_update 0 0 c s _ t ReleasePermit (Finished OReturned)); try done; pool_lia.
  - unfold evict_expired. destruct (evict_loop (config s) now (idle_queue s) s) as [r s'] eqn:E.
    apply evict_loop_spec in E as (Et & Ec & Es & Hlen & Htot & Hk). by eapply inv_queue.
  - destruct H as [Hc [??] Ht Hb Hu]. by constructor.
  - destruct H as [Hc [??] Ht Hb Hu]. unfold permits_out, conns, copies in *.
    assert (W : ∀ f : pc → Z, f Waiting = f (Finished OClosed) → weigh f (tasks (close_waiters s)) = weigh f (tasks s)).
    { intros f Hf. apply weigh_imap. intros t p. destruct p; try done. by case_decide. }
    constructor; unfold permits_out, conns, copies; try done; rewrite ?W by done; try done.
    intros k. rewrite W by done. apply Hu.
  - eapply inv_queue; try done; cbn.
    + unfold blen. simpl. lia.
    + right. by f_equal.
    + intros k. unfold weigh at 1. simpl. apply weigh_nonneg. intros e. apply is_conn_nonneg.
Qed.

Lemma pool_inv_new c : inv c (Pool_new c).
Proof.
  constructor; try done; cbn; unfold permits_out, conns, bound, weigh, blen; simpl; lia.
Qed.

Lemma inv_warm_up_n c n now k s :
  inv c s → tasks s = [] → (∀ e, e ∈ idle_queue s → (conn e < k)%nat) →
  blen (idle_queue s) + Z.of_nat n <= bound c → inv c (warm_up_n n now k s).
Proof.
  revert k s. induction n as [|n IH]; intros k s H Hts Hk Hlen; cbn [warm_up_n]; [done|].
  destruct (is_closed s); [done|].
  assert (Hblen : blen (idle_queue (warm_up_one now k s)) = blen (idle_queue s) + 1)
    by (cbn; unfold blen; rewrite length_app; simpl; lia).
  apply IH.
  - destruct H as [Hc [Hs Hp] Ht Hb Hu]. unfold permits_out, conns, copies in *.
    constructor; unfold permits_out, conns, copies; rewrite ?Hblen; cbn [tasks warm_up_one set_idle
      add_total set_metrics config semaphore total_connections idle_queue]; rewrite ?Hts in *; try done.
    + rewrite Ht, usize_add. f_equal. lia.
    + unfold weigh in *. simpl in *. lia.
    + intros j. rewrite weigh_snoc. specialize (Hu j). unfold is_conn at 2. simpl.
      case_decide as Hj; [subst j|lia]. rewrite (weigh_zero (is_conn k)); [unfold weigh; simpl; lia|].
      intros i e He. unfold is_conn. rewrite decide_False; [done|].
      apply list_elem_of_lookup_2, Hk in He. lia.
  - done.
  - cbn. intros e [He|He%list_elem_of_singleton]%elem_of_app; [apply Hk in He; lia|subst e; simpl; lia].
  - rewrite Hblen. lia.
Qed.

Lemma inv_reachable c s : reachable c s → inv c s.
Proof.
  induction 1 as [|now k|s s' _ IH Hs]; [apply pool_inv_new| |by eapply inv_step].
  unfold warm_up. cbn [Pool_new config]. apply inv_warm_up_n; [apply pool_inv_new|done|intros e He; by apply elem_of_nil in He|].
  cbn [Pool_new idle_queue]. unfold blen, bound. simpl. lia.
Qed.

(** ** Waiters are served in order *)

Lemma pop_waiter_skip ts gone w :
  (∀ u, u ∈ gone → ts !! u ≠ Some Waiting) → pop_waiter ts (gone ++ w) = pop_waiter ts w.
Proof.
  induction gone as [|u gone IH]; intros H; simpl; [done|].
  specialize (H u ltac:(set_solver)) as Hu. rewrite IH by set_solver.
  destruct (ts !! u) as [[]|]; done.
Qed.

(** A permit that is returned, with its connection or without it, goes to the
    task that has waited longest among those still waiting, whatever waiters have
    timed out before it; only when nobody waits does the permit go back to the
    semaphore, or the connection on to the queue. *)
Theorem return_serves_first_waiter s t k created gone rest u :
  (∀ v, v ∈ gone → tasks s !! v ≠ Some Waiting) →
  (waiters s = gone ++ u :: rest → at_pc s u Waiting →
    handle_permit_return s = set_pc u HavePermit (set_waiters rest s)
    ∧ hand_over t k created s
      = set_pc u (Leased k created) (set_pc t (Finished OReturned) (set_waiters rest s)))
  ∧ (waiters s = gone →
    handle_permit_return s = set_semaphore (semaphore s + 1) (set_waiters [] s)
    ∧ hand_over t k created s = set_pc t (PushIdle k created) (set_waiters [] s)).
Proof.
  intros Hgone. unfold handle_permit_return, hand_over, at_pc. split.
  - intros -> Hu. rewrite pop_waiter_skip by done. simpl. by rewrite Hu.
  - intros ->. pose proof (pop_waiter_skip (tasks s) gone [] Hgone) as E.
    rewrite app_nil_r in E. by rewrite E.
Qed.

(** ** The invariant *)

(** C7: However the tasks interleave, from a new pool on, warmed up or not: permits
    are neither lost nor invented (those available and those held add up to the
    maximum size), the connection counter counts the connections queued or held,
    these together with the ones being created never exceed the maximum size, and
    no connection is queued twice, held twice, or queued while held. *)
Theorem pool_invariant c s :
  max_size c < 2 ^ 64 → reachable c s →
  0 <= semaphore s ∧ semaphore s + permits_out s = bound c ∧
  total_count s = conns s ∧ conns s + weigh creating (tasks s) <= bound c ∧
  ∀ k, copies k s <= 1.
Proof.
  intros Hmax [_ [Hs Hp] Ht Hb Hu]%inv_reachable.
  assert (0 <= weigh has_conn (tasks s))
    by (apply weigh_nonneg; intros p; unfold has_conn; by destruct (pc_conn p)).
  assert (0 <= weigh creating (tasks s)) by (apply weigh_nonneg; by intros []).
  split_and!; try done; [lia|].
  unfold total_count. rewrite Ht. unfold usize, as_unsigned. apply Z.mod_small.
  unfold conns, bound, blen in *. lia.
Qed.

(** A pool of one, and the steps of two tasks that share it. *)
Definition solo : PoolConfig := mkConfig 0 1 0 None None 0 false.

(** The tasks' states in the trace below, the rest of the pool with them. *)
Definition solo_pool (sem : Z) (q : list IdleEntry) (w : list nat) (total : Z) (acq : Z) (ts : list pc) :
    Pool :=
  mkPool solo sem q w total false (mkMetrics acq 0 total 0 0) ts.

(** Task 0 holds the connection; task 1 finds no permit; task 0 gives the
    connection up, finds no waiter and unlocks the list; task 1 registers, after
    its second look found no permit either; task 0 queues the connection and
    releases its permit. *)
Lemma solo_reachable :
  reachable solo (solo_pool 1 [mkIdle 7 5 9] [1%nat] 1 2 [Finished OReturned; Waiting]).
Proof.
  pose proof (reach_new solo) as H.
  eapply reach_step in H; [|apply step_acquire].
  eapply reach_step in H; [|apply (step_fast _ 0); [done|done]].
  eapply reach_step in H; [|apply (step_pool_open _ 0); [done|done]].
  eapply reach_step in H; [|apply (step_empty _ 0); [done|done]].
  eapply reach_step in H; [|apply (step_created _ 0 7 5); [done| |]].
  2: { intros e He. by apply elem_of_nil in He. }
  2: { intros [|u] p Hp; [|done]. injection Hp as <-. done. }
  eapply reach_step in H; [|apply step_acquire].
  eapply reach_step in H; [|apply (step_saturated _ 1); [done|done]].
  eapply reach_step in H; [|apply (step_return _ 0 7 5); [done|done]].
  eapply reach_step in H; [|apply (step_hand_over _ 0 7 5); done].
  eapply reach_step in H; [|apply (step_register _ 1); [done|done]].
  eapply reach_step in H; [|apply (step_push _ 0 7 5 9); done].
  eapply reach_step in H; [|apply (step_release _ 0); done].
  exact H.
Qed.

(** Steps other than a call of [acquire]. *)
Definition quiet (s s' : Pool) : Prop := step s s' ∧ length (tasks s') = length (tasks s).

(** Nobody but a waiter is left, or its call has failed. *)
Definition stranded (s : Pool) : Prop :=
  ∃ p, tasks s = [Finished OReturned; p] ∧ (p = Waiting ∨ p = Finished OExhausted ∨ p = Finished OClosed).

Lemma stranded_step s s' : stranded s → quiet s s' → stranded s'.
Proof.
  intros (p & Hp & Hcase) [Hstep Hlen].
  destruct Hstep; unfold at_pc in *; simplify_eq/=;
    try (rewrite length_app in Hlen; simpl in Hlen; lia);
    try match goal with
        | H : tasks _ !! ?t = Some _ |- _ => rewrite Hp in H; destruct t as [|[|t]]; simplify_eq/=
        end;
    try (destruct_or?; discriminate); try (by exists p).
  - exists (Finished OExhausted). cbn. rewrite Hp. auto.
  - unfold evict_expired. destruct (evict_loop _ _ _ s) as [r s'] eqn:E.
    apply evict_loop_spec in E as (Ht & _). exists p. cbn. by rewrite Ht.
  - unfold close_waiters, stranded. cbn. rewrite Hp. cbn. destruct Hcase as [->|[->| ->]]; eauto.
    case_decide; eauto.
Qed.

(** C20: A waiter can be left behind.  [return_connection] unlocks the waiters
    before it releases its permit, and a task that looks for a permit in between
    registers behind its back: in a pool of one a state is reachable in which a
    permit is available, a connection is queued, nobody uses the pool, and one task
    waits; until somebody else calls [acquire], whatever happens, that task waits
    on, times out or sees the pool closed. *)
Theorem lost_wakeup :
  ∃ s, reachable solo s ∧ semaphore s = 1 ∧ idle_count s = 1 ∧ is_closed s = false ∧
    at_pc s 1 Waiting ∧ (∀ t p, at_pc s t p → t ≠ 1%nat → p = Finished OReturned) ∧
    ∀ s', rtc quiet s s' →
      at_pc s' 1 Waiting ∨ at_pc s' 1 (Finished OExhausted) ∨ at_pc s' 1 (Finished OClosed).
Proof.
  eexists. split_and!; [apply solo_reachable|done..| |].
  - intros [|[|t]] p Hp Ht; [by injection Hp|done|done].
  - intros s' H. assert (stranded s') as (p & Hp & Hcase).
    { revert H. generalize (ex_intro (λ p, _ ∧ _) Waiting (conj eq_refl (or_introl eq_refl)) :
        stranded (solo_pool 1 [mkIdle 7 5 9] [1%nat] 1 2 [Finished OReturned; Waiting])).
      intros Hs H. induction H as [|x y z Hxy _ IH]; [done|]. apply IH. by eapply stranded_step. }
    unfold at_pc. rewrite Hp. destruct Hcase as [->|[->| ->]]; auto.
Qed.

Lemma pool_invariant_witness :
  max_size solo < 2 ^ 64
  ∧ total_count (solo_pool 1 [mkIdle 7 5 9] [1%nat] 1 2 [Finished OReturned; Waiting]) = 1
  ∧ conns (solo_pool 1 [mkIdle 7 5 9] [1%nat] 1 2 [Finished OReturned; Waiting]) <= bound solo.
Proof.
  split; [done|].
  destruct (pool_invariant solo _ ltac:(done) solo_reachable) as (_ & _ & -> & H & _).
  split; [done|]. unfold weigh in H. simpl in H. lia.
Defined.

Lemma return_serves_first_waiter_witness :
  handle_permit_return (solo_pool 0 [] [0; 1; 2]%nat 0 3 [Finished OExhausted; Waiting; Waiting])
  = solo_pool 0 [] [2%nat] 0 3 [Finished OExhausted; HavePermit; Waiting].
Proof.
  refine (proj1 (proj1 (return_serves_first_waiter
    (solo_pool 0 [] [0; 1; 2]%nat 0 3 [Finished OExhausted; Waiting; Waiting]) 0 0 0 [0%nat] [2%nat] 1 _)
    eq_refl eq_refl)).
  intros v ->%list_elem_of_singleton. done.
Defined.

(** [warm_up] does not look at what the pool holds: called again, it exceeds the
    maximum size. *)
Lemma warm_up_again :
  let c := mkConfig 1 1 0 None None 0 false in
  total_count (warm_up 0 1 (warm_up 0 0 (Pool_new c))) = 2 ∧ bound c = 1.
Proof. done. Qed.
