(* ===== verification/Ast.v ===== *)
(** * The query AST and its arena ([voyager-core/src/ast.rs])

    Nodes live in one vector and refer to each other by 32-bit handles.
    [AstNode] has the source's variants with their fields in order; a [u32] or
    [u64] is a [Z].  Code that changes the arena runs in [AM], a state monad over
    the arena whose only failure of the program is the error of a handle that
    points nowhere; [OutOfFuel] marks the end of a recursion bound of the model
    and is not a result of the program. *)
From S2P Require Import Prelude Bytes F64 Errors.

Open Scope Z_scope.
Open Scope list_scope.

(** ** Handles *)

Definition NodeHandle : Type := Z.
Definition NULL : NodeHandle := U32_MAX.
Definition handle_is_null (h : NodeHandle) : bool := h =? U32_MAX.

(** ** Node data *)

Inductive Direction := DirOutgoing | DirIncoming | DirUndirected.
Inductive PathMode := PMNone | Walk | Trail | Simple | Acyclic.

(** [PathMode::as_str]. *)
Definition path_mode_str (m : PathMode) : string :=
  match m with
  | PMNone => "" | Walk => "WALK" | Trail => "TRAIL" | Simple => "SIMPLE" | Acyclic => "ACYCLIC"
  end.

Inductive UnaryOp := Not | Neg | IsNull | IsNotNull.
Inductive BinaryOp :=
| Eq | Neq | Lt | Lte | Gt | Gte | In | NotIn | Contains | StartsWith | EndsWith
| RegexMatch | And | Or | Xor | Add | Concat | Sub | Mul | Div | Mod.

#[export] Instance UnaryOp_eq_dec : EqDecision UnaryOp.
Proof. solve_decision. Defined.
#[export] Instance BinaryOp_eq_dec : EqDecision BinaryOp.
Proof. solve_decision. Defined.

Inductive LiteralValue : Type :=
| LNull
| LBool (b : bool)
| LInt64 (i : Z)
| LFloat64 (f : f64)
| LString (s : string)
| LParameterRef (p : string)
| LList (l : list LiteralValue)
| LMap (m : list (string * LiteralValue)).

Inductive AggregationFunc := Count | CountDistinct | Sum | Avg | Min | Max | Collect.

Inductive ExecutionMode := Normal | Explain | Profile | ExplainAndProfile.

Definition with_explain (m : ExecutionMode) : ExecutionMode :=
  match m with
  | Normal => Explain
  | Explain => Explain
  | Profile | ExplainAndProfile => ExplainAndProfile
  end.

Definition with_profile (m : ExecutionMode) : ExecutionMode :=
  match m with
  | Normal => Profile
  | Profile => Profile
  | Explain | ExplainAndProfile => ExplainAndProfile
  end.

Record ProjectionItem := mkProjection {
  proj_expression : NodeHandle;
  proj_alias : option string;
  proj_aggregation : option AggregationFunc;
}.

Inductive LabelExpression : Type :=
| LabelName (name : string)
| LabelAnd (l r : LabelExpression)
| LabelOr (l r : LabelExpression)
| LabelNot (inner : LabelExpression)
| LabelWildcard.

Inductive AstNode : Type :=
| NodePattern (variable : option string) (label_expression : option LabelExpression)
    (predicates : list NodeHandle)
| EdgePattern (variable : option string) (label_expression : option LabelExpression)
    (direction : Direction) (min_hops max_hops : option Z) (predicates : list NodeHandle)
    (target_node : NodeHandle)
| PathChain (path_variable : option string) (path_mode : PathMode) (start_node : NodeHandle)
    (edges : list NodeHandle)
| BinaryExpression (left : NodeHandle) (op : BinaryOp) (right : NodeHandle)
| UnaryExpression (op : UnaryOp) (operand : NodeHandle)
| FunctionCall (name : string) (arguments : list NodeHandle)
| CaseExpression (operand : option NodeHandle)
    (when_then_branches : list (NodeHandle * NodeHandle)) (else_branch : option NodeHandle)
| ListComprehension (variable : string) (list_expression : NodeHandle)
    (where_filter map_expression : option NodeHandle)
| PatternComprehension (path : NodeHandle) (where_filter : option NodeHandle)
    (projection : NodeHandle)
| ExistsSubquery (subquery : NodeHandle)
| CountSubquery (subquery : NodeHandle)
| ListLiteral (items : list NodeHandle)
| PropertyAccess (target : NodeHandle) (property : string)
| Literal (value : LiteralValue)
| Identifier (name : string)
| ParameterNode (name : string)
| UnwindClause (expression : NodeHandle) (alias : string)
| WhereClause (root_predicate : NodeHandle)
| MatchClause (optional : bool) (paths : list NodeHandle) (where_clause : option NodeHandle)
| ReturnClause (distinct : bool) (projections : list ProjectionItem)
    (order_by : list (NodeHandle * bool)) (skip limit : option Z)
| ProcedureCall (execution_mode : ExecutionMode) (namespace : option string)
    (procedure : string) (arguments : list NodeHandle) (yield_items : list string)
| CreateClause (paths : list NodeHandle)
| MergeClause (path : NodeHandle) (on_create_set on_match_set : list NodeHandle)
| SetClause (items : list NodeHandle)
| SetItem (target value : NodeHandle) (is_merge : bool)
| DeleteClause (detach : bool) (targets : list NodeHandle)
| RemoveClause (items : list NodeHandle)
| LoadCsvClause (url : NodeHandle) (with_headers : bool) (alias : string)
| WithClause (distinct : bool) (projections : list ProjectionItem)
    (order_by : list (NodeHandle * bool)) (skip limit : option Z)
    (where_clause : option NodeHandle)
| LetClause (variable : string) (expression : NodeHandle)
| FilterClause (predicate : NodeHandle)
| QueryStatement (execution_mode : ExecutionMode) (load_csv : option NodeHandle)
    (unwinds matches linear_clauses with_clauses mutations : list NodeHandle)
    (return_clause : option NodeHandle).

(** ** The arena *)

Record QueryAstArena := mkArena { nodes : list AstNode }.

Definition arena_new : QueryAstArena := mkArena [].
Definition arena_len (a : QueryAstArena) : Z := blen (nodes a).
Definition arena_clear (a : QueryAstArena) : QueryAstArena := mkArena [].
Definition checkpoint (a : QueryAstArena) : Z := arena_len a.
Definition rollback_to (a : QueryAstArena) (checkpoint : Z) : QueryAstArena :=
  if checkpoint <? arena_len a then mkArena (take (Z.to_nat checkpoint) (nodes a)) else a.

(** [alloc]: [self.nodes.len() as u32] is the new handle. *)
Definition arena_alloc (node : AstNode) (a : QueryAstArena) : NodeHandle * QueryAstArena :=
  (as_unsigned 32 (arena_len a), mkArena (nodes a ++ [node])).

Definition arena_get (a : QueryAstArena) (h : NodeHandle) : result CoreErr AstNode :=
  ok_or (nodes a !! Z.to_nat h) (InvalidNodeHandle h).

Definition arena_set (a : QueryAstArena) (h : NodeHandle) (node : AstNode) : QueryAstArena :=
  mkArena (<[Z.to_nat h := node]> (nodes a)).

(** ** Computations on an arena *)

Inductive stop := Fail (e : CoreErr) | OutOfFuel.

Definition AM (A : Type) : Type := QueryAstArena → result stop (A * QueryAstArena).

#[export] Instance AM_ret : MRet AM := λ A x a, Ok (x, a).
#[export] Instance AM_bind : MBind AM :=
  λ A B f m a, match m a with Ok (x, a) => f x a | Err e => Err e end.

Definition out_of_fuel {A} : AM A := λ _, Err OutOfFuel.

(** [arena.get(h)?.clone()], [arena.alloc(node)], and [arena.get_mut(h)?] with an
    update of the node. *)
Definition get (h : NodeHandle) : AM AstNode :=
  λ a, match arena_get a h with Ok n => Ok (n, a) | Err e => Err (Fail e) end.
Definition alloc (node : AstNode) : AM NodeHandle := λ a, Ok (arena_alloc node a).
Definition update (h : NodeHandle) (f : AstNode → AstNode) : AM () :=
  λ a, match arena_get a h with
       | Ok n => Ok (tt, arena_set a h (f n))
       | Err e => Err (Fail e)
       end.

(** A loop over a vector of handles, and [Option::map(..).transpose()?]. *)
Fixpoint for_each {A} (f : A → AM ()) (l : list A) : AM () :=
  match l with
  | [] => mret tt
  | x :: l => _ ← f x; for_each f l
  end.

Fixpoint map_each {A B} (f : A → AM B) (l : list A) : AM (list B) :=
  match l with
  | [] => mret []
  | x :: l => y ← f x; ys ← map_each f l; mret (y :: ys)
  end.

Definition map_option {A B} (f : A → AM B) (o : option A) : AM (option B) :=
  match o with
  | None => mret None
  | Some x => y ← f x; mret (Some y)
  end.

(** ** Accessors of nodes *)

Definition node_variable (n : AstNode) : option string :=
  match n with
  | NodePattern variable _ _ | EdgePattern variable _ _ _ _ _ _ => variable
  | Identifier id => Some id
  | _ => None
  end.

Definition push_new (s : string) (acc : list string) : list string :=
  if decide (s ∈ acc) then acc else acc ++ [s].

Fixpoint collect_labels_into (e : LabelExpression) (acc : list string) : list string :=
  match e with
  | LabelName s => push_new s acc
  | LabelAnd l r | LabelOr l r => collect_labels_into r (collect_labels_into l acc)
  | LabelNot inner => collect_labels_into inner acc
  | LabelWildcard => acc
  end.

Definition collect_labels (e : LabelExpression) : list string := collect_labels_into e [].

Definition node_labels (n : AstNode) : list string :=
  match n with NodePattern _ (Some e) _ => collect_labels e | _ => [] end.
Definition edge_types (n : AstNode) : list string :=
  match n with EdgePattern _ (Some e) _ _ _ _ _ => collect_labels e | _ => [] end.
