(* ===== verification/ArenaShape.v ===== *)
(** * Which nodes an arena's nodes refer to

    The handles stored in a node, arenas without cycles, and arenas whose nodes refer
    to earlier ones only. *)
From S2P Require Import Prelude Bytes F64 Errors Ast.

Open Scope Z_scope.
Open Scope list_scope.

Definition projection_handles (ps : list ProjectionItem) : list NodeHandle := proj_expression <$> ps.

Definition children (n : AstNode) : list NodeHandle :=
  match n with
  | NodePattern _ _ predicates => predicates
  | EdgePattern _ _ _ _ _ predicates target => target :: predicates
  | PathChain _ _ start edges => start :: edges
  | BinaryExpression l _ r => [l; r]
  | UnaryExpression _ operand => [operand]
  | FunctionCall _ arguments => arguments
  | CaseExpression operand branches else_branch =>
      option_list operand ++ branches.*1 ++ branches.*2 ++ option_list else_branch
  | ListComprehension _ list_expression where_filter map_expression =>
      list_expression :: option_list where_filter ++ option_list map_expression
  | PatternComprehension path where_filter projection =>
      path :: projection :: option_list where_filter
  | ExistsSubquery subquery | CountSubquery subquery => [subquery]
  | ListLiteral items => items
  | PropertyAccess target _ => [target]
  | Literal _ | Identifier _ | ParameterNode _ => []
  | UnwindClause expression _ => [expression]
  | WhereClause root => [root]
  | MatchClause _ paths where_clause => paths ++ option_list where_clause
  | ReturnClause _ projections order_by _ _ => projection_handles projections ++ order_by.*1
  | ProcedureCall _ _ _ arguments _ => arguments
  | CreateClause paths => paths
  | MergeClause path on_create on_match => path :: on_create ++ on_match
  | SetClause items => items
  | SetItem target value _ => [target; value]
  | DeleteClause _ targets => targets
  | RemoveClause items => items
  | LoadCsvClause url _ _ => [url]
  | WithClause _ projections order_by _ _ where_clause =>
      projection_handles projections ++ order_by.*1 ++ option_list where_clause
  | LetClause _ expression => [expression]
  | FilterClause predicate => [predicate]
  | QueryStatement _ load_csv unwinds matches linear_clauses with_clauses mutations return_clause =>
      option_list load_csv ++ unwinds ++ matches ++ linear_clauses ++ with_clauses ++ mutations
        ++ option_list return_clause
  end.

(** A rank that falls from every node to what it refers to: no node is below itself. *)
Definition ranked (a : QueryAstArena) (rank : nat → nat) : Prop :=
  ∀ i n h, nodes a !! i = Some n → h ∈ children n → (rank (Z.to_nat h) < rank i)%nat.
Definition acyclic (a : QueryAstArena) : Prop :=
  ∃ rank, ranked a rank ∧ ∀ i, (rank i ≤ length (nodes a))%nat.

(** Every handle stored in a node points to a node. *)
Definition complete (a : QueryAstArena) : Prop :=
  ∀ i n h, nodes a !! i = Some n → h ∈ children n → is_Some (nodes a !! Z.to_nat h).

(** Arenas as the builder makes them: a node is allocated after those it names. *)
Definition ordered (a : QueryAstArena) : Prop :=
  ∀ i n h, nodes a !! i = Some n → h ∈ children n → 0 <= h < Z.of_nat i.

Lemma ordered_acyclic a : ordered a → acyclic a.
Proof.
  intros Ho. exists (λ i, if decide (i < length (nodes a))%nat then S i else O). split.
  - intros i n h Hn Hh. pose proof (Ho _ _ _ Hn Hh). apply lookup_lt_Some in Hn. repeat case_decide; lia.
  - intros i. case_decide; lia.
Qed.

Lemma ordered_complete a : ordered a → complete a.
Proof.
  intros Ho i n h Hn Hh. pose proof (Ho _ _ _ Hn Hh). apply lookup_lt_Some in Hn.
  apply lookup_lt_is_Some. lia.
Qed.

(** Arenas that are small enough to look at every node. *)
Definition orderedb (a : QueryAstArena) : bool :=
  forallb (λ ni, forallb (λ h, ((0 <=? h) && (h <? Z.of_nat ni.1))%Z) (children ni.2)) (imap pair (nodes a)).
Lemma orderedb_ordered a : orderedb a = true → ordered a.
Proof.
  unfold orderedb. rewrite forallb_forall. intros H i n h Hn Hh.
  assert (Hin : List.In (i, n) (imap pair (nodes a))).
  { apply list_elem_of_In, elem_of_lookup_imap. eauto. }
  specialize (H _ Hin). rewrite forallb_forall in H. apply list_elem_of_In in Hh.
  apply H in Hh. bool_to_prop. cbn in *. lia.
Qed.
