(* ===== verification/Optimizer.v ===== *)
(** * The rule-based optimizer ([voyager-core/src/optimizer.rs])

    Each method of [AstOptimizer] is a computation on the arena.  The recursive
    methods take fuel: one unit per level of nesting they descend, so that a
    height of the tree plus one is enough ([OptSem.fold_enough]); on a cyclic
    arena, where the program does not return, they end in [OutOfFuel]. *)
From S2P Require Import Prelude Bytes F64 Errors Ast.

Open Scope Z_scope.
Open Scope list_scope.

Inductive OptimizationLevel := LevelNone | Standard | Aggressive.

#[export] Instance OptimizationLevel_eq_dec : EqDecision OptimizationLevel.
Proof. solve_decision. Defined.

Definition from_str_opt (s : string) : OptimizationLevel :=
  let l := to_ascii_lowercase s in
  if decide (l ∈ ["none"; "0"; "off"; "false"]%string) then LevelNone
  else if decide (l ∈ ["aggressive"; "2"; "all"; "high"]%string) then Aggressive
  else Standard.

(** ** Literals *)

(** The [checked_*] operations of [i64]. *)
Definition checked (z : Z) : option Z := if in_i64 z then Some z else None.
Definition checked_add (a b : Z) : option Z := checked (a + b).
Definition checked_sub (a b : Z) : option Z := checked (a - b).
Definition checked_mul (a b : Z) : option Z := checked (a * b).
Definition checked_div (a b : Z) : option Z := if b =? 0 then None else checked (Z.quot a b).
Definition checked_rem (a b : Z) : option Z :=
  if (b =? 0) || ((a =? I64_MIN) && (b =? -1)) then None else Some (Z.rem a b).
Definition checked_neg (a : Z) : option Z := checked (- a).

Definition finite (f : f64) : option LiteralValue :=
  if is_finite f then Some (LFloat64 f) else None.

Definition str_ends_with (a b : string) : bool :=
  bool_decide (as_bytes b `suffix_of` as_bytes a).

Definition eval_int_literals (a : Z) (op : BinaryOp) (b : Z) : option LiteralValue :=
  match op with
  | Add => LInt64 <$> checked_add a b
  | Sub => LInt64 <$> checked_sub a b
  | Mul => LInt64 <$> checked_mul a b
  | Div => LInt64 <$> checked_div a b
  | Mod => LInt64 <$> checked_rem a b
  | Eq => Some (LBool (a =? b))
  | Neq => Some (LBool (negb (a =? b)))
  | Lt => Some (LBool (a <? b))
  | Lte => Some (LBool (a <=? b))
  | Gt => Some (LBool (b <? a))
  | Gte => Some (LBool (b <=? a))
  | _ => None
  end.

Definition eval_float_literals (a : f64) (op : BinaryOp) (b : f64) : option LiteralValue :=
  match op with
  | Add => finite (f64_add a b)
  | Sub => finite (f64_sub a b)
  | Mul => finite (f64_mul a b)
  | Div => if f64_eqb b F64_ZERO then None else finite (f64_div a b)
  | Mod => if f64_eqb b F64_ZERO then None else finite (f64_rem a b)
  | Eq => Some (LBool (f64_eqb a b))
  | Neq => Some (LBool (negb (f64_eqb a b)))
  | Lt => Some (LBool (f64_ltb a b))
  | Lte => Some (LBool (f64_leb a b))
  | Gt => Some (LBool (f64_ltb b a))
  | Gte => Some (LBool (f64_leb b a))
  | _ => None
  end.

Definition eval_bool_literals (a : bool) (op : BinaryOp) (b : bool) : option LiteralValue :=
  match op with
  | And => Some (LBool (a && b))
  | Or => Some (LBool (a || b))
  | Xor => Some (LBool (xorb a b))
  | Eq => Some (LBool (Bool.eqb a b))
  | Neq => Some (LBool (negb (Bool.eqb a b)))
  | _ => None
  end.

Definition eval_string_literals (a : string) (op : BinaryOp) (b : string) : option LiteralValue :=
  match op with
  | Add | Concat => Some (LString (a +:+ b))
  | Eq => Some (LBool (String.eqb a b))
  | Neq => Some (LBool (negb (String.eqb a b)))
  | Contains => Some (LBool (str_contains a b))
  | StartsWith => Some (LBool (String.prefix b a))
  | EndsWith => Some (LBool (str_ends_with a b))
  | _ => None
  end.

Definition eval_binary_literals (left : LiteralValue) (op : BinaryOp) (right : LiteralValue) :
    option LiteralValue :=
  match left, right with
  | LInt64 a, LInt64 b => eval_int_literals a op b
  | LFloat64 a, LFloat64 b => eval_float_literals a op b
  | LInt64 a, LFloat64 b => eval_float_literals (i64_as_f64 a) op b
  | LFloat64 a, LInt64 b => eval_float_literals a op (i64_as_f64 b)
  | LBool a, LBool b => eval_bool_literals a op b
  | LString a, LString b => eval_string_literals a op b
  | _, _ => None
  end.

(** ** Folding one operator *)

Definition eval_literal_nodes (l : AstNode) (op : BinaryOp) (r : AstNode) : option LiteralValue :=
  match l, r with
  | Literal l_val, Literal r_val => eval_binary_literals l_val op r_val
  | _, _ => None
  end.

Definition is_bool (b : bool) (n : AstNode) : bool :=
  match n with Literal (LBool b') => Bool.eqb b b' | _ => false end.
Definition is_int (i : Z) (n : AstNode) : bool :=
  match n with Literal (LInt64 i') => i =? i' | _ => false end.
Definition int_literal (n : AstNode) : option Z :=
  match n with Literal (LInt64 i) => Some i | _ => None end.

(** Boolean and arithmetic identities: which operand the expression is. *)
Definition identity_law (op : BinaryOp) (left right : NodeHandle) (l r : AstNode) :
    option NodeHandle :=
  match op with
  | And =>
      if is_bool false l then Some left
      else if is_bool false r then Some right
      else if is_bool true l then Some right
      else if is_bool true r then Some left
      else None
  | Or =>
      if is_bool true l then Some left
      else if is_bool true r then Some right
      else if is_bool false l then Some right
      else if is_bool false r then Some left
      else None
  | Add => if is_int 0 r then Some left else if is_int 0 l then Some right else None
  | Sub => if is_int 0 r then Some left else None
  | Mul => if is_int 1 r then Some left else if is_int 1 l then Some right else None
  | Div => if is_int 1 r then Some left else None
  | _ => None
  end.

(** [x op c], with the literal [c] allocated first. *)
Definition alloc_with_int (x : NodeHandle) (op : BinaryOp) (c : Z) : AM (option NodeHandle) :=
  new_lit ← alloc (Literal (LInt64 c));
  h ← alloc (BinaryExpression x op new_lit);
  mret (Some h).

(** Reassociation of nested integer constants: [(x + 10) + 20] is [x + 30]. *)
Definition reassociate (op : BinaryOp) (l r : AstNode) : AM (option NodeHandle) :=
  match int_literal r, op, l with
  | Some r_const, Add, BinaryExpression inner_l Add inner_r =>
      inner_r_node ← get inner_r;
      match c ← int_literal inner_r_node; checked_add c r_const with
      | Some sum => alloc_with_int inner_l Add sum
      | None =>
          inner_l_node ← get inner_l;
          match c ← int_literal inner_l_node; checked_add c r_const with
          | Some sum => alloc_with_int inner_r Add sum
          | None => mret None
          end
      end
  | Some r_const, Sub, BinaryExpression inner_l Sub inner_r =>
      inner_r_node ← get inner_r;
      match c ← int_literal inner_r_node; checked_add c r_const with
      | Some sum => alloc_with_int inner_l Sub sum
      | None => mret None
      end
  | Some r_const, Mul, BinaryExpression inner_l Mul inner_r =>
      inner_r_node ← get inner_r;
      match c ← int_literal inner_r_node; checked_mul c r_const with
      | Some prod => alloc_with_int inner_l Mul prod
      | None => mret None
      end
  | _, _, _ => mret None
  end.

Definition fold_binary_op (left : NodeHandle) (op : BinaryOp) (right : NodeHandle) :
    AM NodeHandle :=
  left_node ← get left;
  right_node ← get right;
  match eval_literal_nodes left_node op right_node with
  | Some folded => alloc (Literal folded)
  | None =>
      match identity_law op left right left_node right_node with
      | Some h => mret h
      | None =>
          r ← reassociate op left_node right_node;
          match r with
          | Some h => mret h
          | None => alloc (BinaryExpression left op right)
          end
      end
  end.

Definition fold_unary_op (op : UnaryOp) (operand : NodeHandle) : AM NodeHandle :=
  operand_node ← get operand;
  let unchanged := alloc (UnaryExpression op operand) in
  match op, operand_node with
  | Not, Literal (LBool b) => alloc (Literal (LBool (negb b)))
  | Not, UnaryExpression Not inner => mret inner
  | Neg, Literal (LInt64 i) =>
      match checked_neg i with
      | Some neg_i => alloc (Literal (LInt64 neg_i))
      | None => unchanged
      end
  | Neg, Literal (LFloat64 f) =>
      let neg_f := f64_neg f in
      if is_finite neg_f then alloc (Literal (LFloat64 neg_f)) else unchanged
  | Neg, UnaryExpression Neg inner => mret inner
  | IsNull, Literal LNull => alloc (Literal (LBool true))
  | IsNotNull, Literal LNull => alloc (Literal (LBool false))
  | _, _ => unchanged
  end.

(** ** Pass 1: constant folding *)

Section fold.
(** [fold_expression] for the recursive calls, and the fuel of the path walk. *)
Variable fold_expression : NodeHandle → AM NodeHandle.
Variable path_fuel : nat.

(** The branch loop of [fold_case_expression]: the branches kept, and the result
    of a branch whose condition is constantly true, which ends the loop. *)
Fixpoint fold_branches (searched : bool) (branches : list (NodeHandle * NodeHandle))
    (folded_branches : list (NodeHandle * NodeHandle)) :
    AM (list (NodeHandle * NodeHandle) * option NodeHandle) :=
  match branches with
  | [] => mret (folded_branches, None)
  | (when_h, then_h) :: branches =>
      folded_when ← fold_expression when_h;
      folded_then ← fold_expression then_h;
      let keep := fold_branches searched branches (folded_branches ++ [(folded_when, folded_then)]) in
      if searched then
        when_node ← get folded_when;
        if is_bool true when_node then mret (folded_branches, Some folded_then)
        else if is_bool false when_node then fold_branches searched branches folded_branches
        else keep
      else keep
  end.

Definition fold_case_expression (operand : option NodeHandle)
    (when_then_branches : list (NodeHandle * NodeHandle)) (else_branch : option NodeHandle) :
    AM NodeHandle :=
  folded_operand ← map_option fold_expression operand;
  let searched := match folded_operand with None => true | Some _ => false end in
  '(folded_branches, constant_hit) ← fold_branches searched when_then_branches [];
  match constant_hit with
  | Some hit => mret hit
  | None =>
      folded_else ← map_option fold_expression else_branch;
      match folded_branches, folded_else with
      | [], Some e => mret e
      | [], None => alloc (Literal LNull)
      | _, _ => alloc (CaseExpression folded_operand folded_branches folded_else)
      end
  end.

(** Replaces the inlined predicates of a node pattern, and of an edge pattern. *)
Definition set_node_predicates (p : list NodeHandle) (n : AstNode) : AstNode :=
  match n with NodePattern v l _ => NodePattern v l p | _ => n end.
Definition set_edge_predicates (p : list NodeHandle) (n : AstNode) : AstNode :=
  match n with EdgePattern v l d lo hi _ t => EdgePattern v l d lo hi p t | _ => n end.

Fixpoint fold_path_predicates_fuel (fuel : nat) (path_h : NodeHandle) : AM () :=
  match fuel with
  | O => out_of_fuel
  | S fuel =>
      path_node ← get path_h;
      match path_node with
      | NodePattern _ _ predicates =>
          folded_preds ← map_each fold_expression predicates;
          update path_h (set_node_predicates folded_preds)
      | PathChain _ _ start_node edges =>
          _ ← fold_path_predicates_fuel fuel start_node;
          for_each (λ edge_h,
            edge_node ← get edge_h;
            match edge_node with
            | EdgePattern _ _ _ _ _ predicates target_node =>
                folded_preds ← map_each fold_expression predicates;
                _ ← update edge_h (set_edge_predicates folded_preds);
                fold_path_predicates_fuel fuel target_node
            | _ => mret tt
            end) edges
      | _ => mret tt
      end
  end.
Definition fold_path_predicates : NodeHandle → AM () := fold_path_predicates_fuel path_fuel.

(** The predicate of a [WhereClause], folded in place. *)
Definition fold_where (where_h : NodeHandle) : AM () :=
  where_node ← get where_h;
  match where_node with
  | WhereClause root_predicate =>
      folded_pred ← fold_expression root_predicate;
      update where_h (λ n, match n with WhereClause _ => WhereClause folded_pred | _ => n end)
  | _ => mret tt
  end.

Definition fold_match_clause (match_handle : NodeHandle) : AM () :=
  match_node ← get match_handle;
  match match_node with
  | MatchClause _ paths where_clause =>
      _ ← for_each fold_path_predicates paths;
      match where_clause with Some where_h => fold_where where_h | None => mret tt end
  | _ => mret tt
  end.

Definition fold_projection (item : ProjectionItem) : AM ProjectionItem :=
  e ← fold_expression (proj_expression item);
  mret (mkProjection e (proj_alias item) (proj_aggregation item)).

Definition fold_order (o : NodeHandle * bool) : AM (NodeHandle * bool) :=
  e ← fold_expression o.1; mret (e, o.2).

Definition fold_with_clause (with_handle : NodeHandle) : AM () :=
  with_node ← get with_handle;
  match with_node with
  | WithClause _ projections order_by _ _ where_clause =>
      folded_projections ← map_each fold_projection projections;
      folded_order_by ← map_each fold_order order_by;
      _ ← update with_handle (λ n,
        match n with
        | WithClause d _ _ s l w => WithClause d folded_projections folded_order_by s l w
        | _ => n
        end);
      match where_clause with Some where_h => fold_where where_h | None => mret tt end
  | _ => mret tt
  end.

Definition fold_return_clause (ret_h : NodeHandle) : AM () :=
  ret_node ← get ret_h;
  match ret_node with
  | ReturnClause _ projections order_by _ _ =>
      folded_projections ← map_each fold_projection projections;
      folded_order_by ← map_each fold_order order_by;
      update ret_h (λ n,
        match n with
        | ReturnClause d _ _ s l => ReturnClause d folded_projections folded_order_by s l
        | _ => n
        end)
  | _ => mret tt
  end.

(** The value of a [SetItem], folded in place. *)
Definition fold_set_item (item_h : NodeHandle) : AM () :=
  item_node ← get item_h;
  match item_node with
  | SetItem _ value _ =>
      folded_val ← fold_expression value;
      update item_h (λ n, match n with SetItem t _ m => SetItem t folded_val m | _ => n end)
  | _ => mret tt
  end.

Definition optimize_mutation_clause (mut_handle : NodeHandle) : AM () :=
  mut_node ← get mut_handle;
  match mut_node with
  | SetClause items => for_each fold_set_item items
  | MergeClause path on_create_set on_match_set =>
      _ ← fold_path_predicates path;
      _ ← for_each fold_set_item on_create_set;
      for_each fold_set_item on_match_set
  | CreateClause paths => for_each fold_path_predicates paths
  | _ => mret tt
  end.

Definition fold_load_csv (load_h : NodeHandle) : AM () :=
  load_node ← get load_h;
  match load_node with
  | LoadCsvClause url _ _ =>
      folded_url ← fold_expression url;
      update load_h (λ n, match n with LoadCsvClause _ w a => LoadCsvClause folded_url w a | _ => n end)
  | _ => mret tt
  end.

Definition fold_unwind (unwind_h : NodeHandle) : AM () :=
  unwind_node ← get unwind_h;
  match unwind_node with
  | UnwindClause expression _ =>
      folded_expr ← fold_expression expression;
      update unwind_h (λ n, match n with UnwindClause _ a => UnwindClause folded_expr a | _ => n end)
  | _ => mret tt
  end.

Definition fold_linear (lin_h : NodeHandle) : AM () :=
  lin_node ← get lin_h;
  match lin_node with
  | LetClause _ expression =>
      folded_expr ← fold_expression expression;
      update lin_h (λ n, match n with LetClause v _ => LetClause v folded_expr | _ => n end)
  | FilterClause predicate =>
      folded_pred ← fold_expression predicate;
      update lin_h (λ n, match n with FilterClause _ => FilterClause folded_pred | _ => n end)
  | _ => mret tt
  end.

Definition fold_all_expressions (root : NodeHandle) : AM () :=
  root_node ← get root;
  match root_node with
  | QueryStatement _ load_csv unwinds matches linear_clauses with_clauses mutations return_clause =>
      _ ← (match load_csv with Some load_h => fold_load_csv load_h | None => mret tt end);
      _ ← for_each fold_unwind unwinds;
      _ ← for_each fold_match_clause matches;
      _ ← for_each fold_with_clause with_clauses;
      _ ← for_each fold_linear linear_clauses;
      _ ← for_each optimize_mutation_clause mutations;
      match return_clause with Some ret_h => fold_return_clause ret_h | None => mret tt end
  | _ => mret tt
  end.

Definition fold_subquery (subquery_h : NodeHandle) : AM () :=
  node ← get subquery_h;
  match node with
  | QueryStatement _ _ _ _ _ _ _ _ => fold_all_expressions subquery_h
  | MatchClause _ _ _ => fold_match_clause subquery_h
  | PathChain _ _ _ _ | NodePattern _ _ _ => fold_path_predicates subquery_h
  | _ => mret tt
  end.

(** [fold_expression] after its null check. *)
Definition fold_node (handle : NodeHandle) : AM NodeHandle :=
  node ← get handle;
  match node with
  | BinaryExpression l op r =>
      left_folded ← fold_expression l;
      right_folded ← fold_expression r;
      fold_binary_op left_folded op right_folded
  | UnaryExpression op operand =>
      operand_folded ← fold_expression operand;
      fold_unary_op op operand_folded
  | FunctionCall name arguments =>
      folded_args ← map_each fold_expression arguments;
      alloc (FunctionCall name folded_args)
  | CaseExpression operand when_then_branches else_branch =>
      fold_case_expression operand when_then_branches else_branch
  | ListComprehension variable list_expression where_filter map_expression =>
      list_folded ← fold_expression list_expression;
      filter_folded ← map_option fold_expression where_filter;
      map_folded ← map_option fold_expression map_expression;
      alloc (ListComprehension variable list_folded filter_folded map_folded)
  | PatternComprehension path where_filter projection =>
      filter_folded ← map_option fold_expression where_filter;
      proj_folded ← fold_expression projection;
      alloc (PatternComprehension path filter_folded proj_folded)
  | ExistsSubquery subquery | CountSubquery subquery =>
      _ ← fold_subquery subquery;
      mret handle
  | ListLiteral items =>
      folded_items ← map_each fold_expression items;
      alloc (ListLiteral folded_items)
  | _ => mret handle
  end.
End fold.

Fixpoint fold_expression (fuel : nat) (handle : NodeHandle) : AM NodeHandle :=
  if handle_is_null handle then mret handle else
  match fuel with
  | O => out_of_fuel
  | S fuel => fold_node (fold_expression fuel) fuel handle
  end.

(** ** Pass 2: predicate pushdown *)

(** [AND] chains as a list of conjuncts, in order; constant [true]s are dropped. *)
Fixpoint collect_conjuncts (fuel : nat) (handle : NodeHandle) (conjuncts : list NodeHandle) :
    AM (list NodeHandle) :=
  match fuel with
  | O => out_of_fuel
  | S fuel =>
      node ← get handle;
      match node with
      | BinaryExpression l And r =>
          conjuncts ← collect_conjuncts fuel l conjuncts;
          collect_conjuncts fuel r conjuncts
      | WhereClause root_predicate => collect_conjuncts fuel root_predicate conjuncts
      | Literal (LBool true) => mret conjuncts
      | _ => mret (conjuncts ++ [handle])
      end
  end.

(** The loop of a search: false at the first element the test refuses. *)
Fixpoint all_each {A} (f : A → AM bool) (l : list A) : AM bool :=
  match l with
  | [] => mret true
  | x :: l => b ← f x; if b : bool then all_each f l else mret false
  end.

(** True at the first element the test accepts. *)
Fixpoint any_each {A} (f : A → AM bool) (l : list A) : AM bool :=
  match l with
  | [] => mret false
  | x :: l => b ← f x; if b : bool then mret true else any_each f l
  end.

Fixpoint is_constant_expression (fuel : nat) (handle : NodeHandle) : AM bool :=
  match fuel with
  | O => out_of_fuel
  | S fuel =>
      node ← get handle;
      match node with
      | Literal _ | ParameterNode _ => mret true
      | FunctionCall _ arguments => all_each (is_constant_expression fuel) arguments
      | UnaryExpression _ operand => is_constant_expression fuel operand
      | ListLiteral items => all_each (is_constant_expression fuel) items
      | _ => mret false
      end
  end.

Definition resolve_variable_name (handle : NodeHandle) : AM (option string) :=
  node ← get handle;
  match node with
  | Identifier ident => mret (Some ident)
  | NodePattern variable _ _ => mret variable
  | _ => mret None
  end.

(** The variable [p] of [p.prop = constant] and of [constant = p.prop]. *)
Definition extract_single_node_equality_var (fuel : nat) (handle : NodeHandle) :
    AM (option string) :=
  node ← get handle;
  match node with
  | BinaryExpression l Eq r =>
      left_node ← get l;
      right_node ← get r;
      case_a ← (match left_node with
                | PropertyAccess _ _ => is_constant_expression fuel r
                | _ => mret false
                end);
      match left_node, case_a with
      | PropertyAccess target _, true => resolve_variable_name target
      | _, _ =>
          match right_node with
          | PropertyAccess target _ =>
              case_b ← is_constant_expression fuel l;
              if case_b : bool then resolve_variable_name target else mret None
          | _ => mret None
          end
      end
  | _ => mret None
  end.

Definition push_predicate (pred_handle : NodeHandle) (n : AstNode) : AstNode :=
  match n with NodePattern v l p => NodePattern v l (p ++ [pred_handle]) | _ => n end.

(** Pushes the predicate onto the first pattern of the path that binds the
    variable; the answer is whether there is one. *)
Fixpoint hoist_predicate_to_path (fuel : nat) (target_var : string) (pred_handle : NodeHandle)
    (path_handle : NodeHandle) : AM bool :=
  match fuel with
  | O => out_of_fuel
  | S fuel =>
      let hoist := hoist_predicate_to_path fuel target_var pred_handle in
      path_node ← get path_handle;
      match path_node with
      | NodePattern variable _ _ =>
          if decide (variable = Some target_var) then
            _ ← update path_handle (push_predicate pred_handle); mret true
          else mret false
      | PathChain _ _ start_node edges =>
          hit ← hoist start_node;
          if hit : bool then mret true else
          any_each (λ edge_h,
            edge_node ← get edge_h;
            match edge_node with
            | EdgePattern _ _ _ _ _ _ target_node =>
                if handle_is_null target_node then mret false else hoist target_node
            | _ => mret false
            end) edges
      | _ => mret false
      end
  end.

Fixpoint conjoin (current : NodeHandle) (conjuncts : list NodeHandle) : AM NodeHandle :=
  match conjuncts with
  | [] => mret current
  | next :: conjuncts =>
      current ← alloc (BinaryExpression current And next);
      conjoin current conjuncts
  end.

Definition build_conjunction_tree (conjuncts : list NodeHandle) : AM (option NodeHandle) :=
  match conjuncts with
  | [] => mret None
  | first :: conjuncts =>
      current ← conjoin first conjuncts;
      w ← alloc (WhereClause current);
      mret (Some w)
  end.

(** One earlier match clause as a target: refused when optional. *)
Definition hoist_to_previous (fuel : nat) (target_var : string) (conjunct_handle : NodeHandle)
    (prev_match_h : NodeHandle) : AM bool :=
  prev_node ← get prev_match_h;
  match prev_node with
  | MatchClause false prev_paths _ =>
      any_each (hoist_predicate_to_path fuel target_var conjunct_handle) prev_paths
  | _ => mret false
  end.

(** One conjunct of the [WHERE] of a match clause: whether it was hoisted.
    [previous] is [candidate_matches.iter().rev().skip(1)]. *)
Definition hoist_conjunct (fuel : nat) (paths previous : list NodeHandle) (is_optional : bool)
    (conjunct_handle : NodeHandle) : AM bool :=
  target ← extract_single_node_equality_var fuel conjunct_handle;
  match target with
  | None => mret false
  | Some target_var =>
      hoisted ← any_each (hoist_predicate_to_path fuel target_var conjunct_handle) paths;
      if negb hoisted && negb is_optional then
        any_each (hoist_to_previous fuel target_var conjunct_handle) previous
      else mret hoisted
  end.

(** The conjunct loop: the conjuncts that stay in the [WHERE]. *)
Fixpoint hoist_conjuncts (fuel : nat) (paths previous : list NodeHandle) (is_optional : bool)
    (conjuncts remaining : list NodeHandle) : AM (list NodeHandle) :=
  match conjuncts with
  | [] => mret remaining
  | c :: conjuncts =>
      hoisted ← hoist_conjunct fuel paths previous is_optional c;
      hoist_conjuncts fuel paths previous is_optional conjuncts
        (if hoisted : bool then remaining else remaining ++ [c])
  end.

Definition set_where (w : option NodeHandle) (n : AstNode) : AstNode :=
  match n with MatchClause o p _ => MatchClause o p w | _ => n end.

Definition optimize_match_clause (fuel : nat) (match_handle : NodeHandle)
    (candidate_matches : list NodeHandle) : AM () :=
  match_node ← get match_handle;
  match match_node with
  | MatchClause is_optional paths (Some where_handle) =>
      conjuncts ← collect_conjuncts fuel where_handle [];
      remaining_conjuncts ←
        hoist_conjuncts fuel paths (drop 1 (reverse candidate_matches)) is_optional conjuncts [];
      new_where ← build_conjunction_tree remaining_conjuncts;
      update match_handle (set_where new_where)
  | _ => mret tt
  end.

(** The match loop of [optimize_statement]; clause [idx] sees the clauses up to
    itself as candidates. *)
Fixpoint optimize_matches (fuel : nat) (seen match_handles : list NodeHandle) : AM () :=
  match match_handles with
  | [] => mret tt
  | h :: match_handles =>
      _ ← optimize_match_clause fuel h (seen ++ [h]);
      optimize_matches fuel (seen ++ [h]) match_handles
  end.

Definition optimize_statement (fuel : nat) (root : NodeHandle) : AM () :=
  root_node ← get root;
  match root_node with
  | QueryStatement _ _ _ matches _ _ mutations _ =>
      _ ← optimize_matches fuel [] matches;
      for_each (optimize_mutation_clause (fold_expression fuel) fuel) mutations
  | _ => mret tt
  end.

(** ** Pass 3: dead variable pruning *)

Notation VarSet := (gset string).

(** A loop that adds to the set of used variables. *)
Fixpoint collect_each {A} (f : A → VarSet → AM VarSet) (l : list A) (used_vars : VarSet) :
    AM VarSet :=
  match l with
  | [] => mret used_vars
  | x :: l => used_vars ← f x used_vars; collect_each f l used_vars
  end.

Definition collect_option {A} (f : A → VarSet → AM VarSet) (o : option A) (used_vars : VarSet) :
    AM VarSet :=
  match o with Some x => f x used_vars | None => mret used_vars end.

Fixpoint collect_expr_vars (fuel : nat) (handle : NodeHandle) (used_vars : VarSet) : AM VarSet :=
  match fuel with
  | O => out_of_fuel
  | S fuel =>
      let go := collect_expr_vars fuel in
      node ← get handle;
      match node with
      | Identifier ident => mret ({[ident]} ∪ used_vars)
      | PropertyAccess target _ => go target used_vars
      | BinaryExpression l _ r => used_vars ← go l used_vars; go r used_vars
      | UnaryExpression _ operand => go operand used_vars
      | FunctionCall _ arguments => collect_each go arguments used_vars
      | CaseExpression operand when_then_branches else_branch =>
          used_vars ← collect_option go operand used_vars;
          used_vars ← collect_each (λ b used_vars,
            used_vars ← go b.1 used_vars; go b.2 used_vars) when_then_branches used_vars;
          collect_option go else_branch used_vars
      | ListComprehension _ list_expression where_filter map_expression =>
          used_vars ← go list_expression used_vars;
          used_vars ← collect_option go where_filter used_vars;
          collect_option go map_expression used_vars
      | PatternComprehension _ where_filter projection =>
          used_vars ← collect_option go where_filter used_vars;
          go projection used_vars
      | ExistsSubquery subquery | CountSubquery subquery => go subquery used_vars
      | ListLiteral items => collect_each go items used_vars
      | WhereClause root_predicate => go root_predicate used_vars
      | _ => mret used_vars
      end
  end.

Definition insert_binding (include_binding_vars : bool) (variable : option string)
    (used_vars : VarSet) : VarSet :=
  match include_binding_vars, variable with
  | true, Some var => {[var]} ∪ used_vars
  | _, _ => used_vars
  end.

Fixpoint collect_path_vars (fuel : nat) (include_binding_vars : bool) (handle : NodeHandle)
    (used_vars : VarSet) : AM VarSet :=
  match fuel with
  | O => out_of_fuel
  | S fuel =>
      let go := collect_path_vars fuel include_binding_vars in
      node ← get handle;
      match node with
      | NodePattern variable _ predicates =>
          collect_each (collect_expr_vars fuel) predicates
            (insert_binding include_binding_vars variable used_vars)
      | EdgePattern variable _ _ _ _ predicates target_node =>
          used_vars ← collect_each (collect_expr_vars fuel) predicates
            (insert_binding include_binding_vars variable used_vars);
          if handle_is_null target_node then mret used_vars else go target_node used_vars
      | PathChain path_variable _ start_node edges =>
          used_vars ←
            (let used_vars := insert_binding include_binding_vars path_variable used_vars in
             if handle_is_null start_node then mret used_vars else go start_node used_vars);
          collect_each go edges used_vars
      | _ => mret used_vars
      end
  end.

Section collect.
(** The fuel of the walks over expressions and paths. *)
Variable fuel : nat.
Notation expr_vars := (collect_expr_vars fuel).

Definition collect_load_csv (load_h : NodeHandle) (used_vars : VarSet) : AM VarSet :=
  load_node ← get load_h;
  match load_node with
  | LoadCsvClause url _ alias =>
      used_vars ← expr_vars url used_vars; mret ({[alias]} ∪ used_vars)
  | _ => mret used_vars
  end.

Definition collect_unwind (unwind_h : NodeHandle) (used_vars : VarSet) : AM VarSet :=
  unwind_node ← get unwind_h;
  match unwind_node with
  | UnwindClause expression alias =>
      used_vars ← expr_vars expression used_vars; mret ({[alias]} ∪ used_vars)
  | _ => mret used_vars
  end.

Definition collect_linear (lin_h : NodeHandle) (used_vars : VarSet) : AM VarSet :=
  lin_node ← get lin_h;
  match lin_node with
  | LetClause variable expression => expr_vars expression ({[variable]} ∪ used_vars)
  | FilterClause predicate => expr_vars predicate used_vars
  | _ => mret used_vars
  end.

Definition collect_projections (projections : list ProjectionItem)
    (order_by : list (NodeHandle * bool)) (used_vars : VarSet) : AM VarSet :=
  used_vars ← collect_each (λ proj, expr_vars (proj_expression proj)) projections used_vars;
  collect_each (λ o, expr_vars o.1) order_by used_vars.

Definition collect_with (with_h : NodeHandle) (used_vars : VarSet) : AM VarSet :=
  with_node ← get with_h;
  match with_node with
  | WithClause _ projections order_by _ _ where_clause =>
      used_vars ← collect_projections projections order_by used_vars;
      collect_option expr_vars where_clause used_vars
  | _ => mret used_vars
  end.

Definition collect_return (ret_h : NodeHandle) (used_vars : VarSet) : AM VarSet :=
  ret_node ← get ret_h;
  match ret_node with
  | ReturnClause _ projections order_by _ _ => collect_projections projections order_by used_vars
  | _ => mret used_vars
  end.

Definition collect_match (match_h : NodeHandle) (used_vars : VarSet) : AM VarSet :=
  match_node ← get match_h;
  match match_node with
  | MatchClause _ paths where_clause =>
      used_vars ← collect_option expr_vars where_clause used_vars;
      collect_each (collect_path_vars fuel false) paths used_vars
  | _ => mret used_vars
  end.

Definition collect_set_item (item : NodeHandle) (used_vars : VarSet) : AM VarSet :=
  item_node ← get item;
  match item_node with
  | SetItem target value _ =>
      used_vars ← expr_vars target used_vars; expr_vars value used_vars
  | _ => mret used_vars
  end.

Definition collect_mutation (mut_h : NodeHandle) (used_vars : VarSet) : AM VarSet :=
  mut_node ← get mut_h;
  match mut_node with
  | CreateClause paths => collect_each (collect_path_vars fuel true) paths used_vars
  | MergeClause path on_create_set on_match_set =>
      used_vars ← collect_path_vars fuel true path used_vars;
      used_vars ← collect_each collect_set_item on_create_set used_vars;
      collect_each collect_set_item on_match_set used_vars
  | SetClause items => collect_each collect_set_item items used_vars
  | DeleteClause _ targets => collect_each expr_vars targets used_vars
  | RemoveClause items => collect_each expr_vars items used_vars
  | _ => mret used_vars
  end.

Definition collect_used_variables (root : NodeHandle) (used_vars : VarSet) : AM VarSet :=
  root_node ← get root;
  match root_node with
  | QueryStatement _ load_csv unwinds matches linear_clauses with_clauses mutations return_clause =>
      used_vars ← collect_option collect_load_csv load_csv used_vars;
      used_vars ← collect_each collect_unwind unwinds used_vars;
      used_vars ← collect_each collect_linear linear_clauses used_vars;
      used_vars ← collect_each collect_with with_clauses used_vars;
      used_vars ← collect_option collect_return return_clause used_vars;
      used_vars ← collect_each collect_match matches used_vars;
      collect_each collect_mutation mutations used_vars
  | _ => mret used_vars
  end.
End collect.

(** [var.starts_with('_') && !used_vars.contains(var)]. *)
Definition prunable (used_vars : VarSet) (variable : option string) : bool :=
  match variable with
  | Some var => String.prefix "_" var && negb (bool_decide (var ∈ used_vars))
  | None => false
  end.

Definition clear_variable (n : AstNode) : AstNode :=
  match n with
  | NodePattern _ l p => NodePattern None l p
  | PathChain _ m s e => PathChain None m s e
  | _ => n
  end.

Fixpoint prune_path_variables (fuel : nat) (used_vars : VarSet) (path_handle : NodeHandle) :
    AM () :=
  match fuel with
  | O => out_of_fuel
  | S fuel =>
      let prune := prune_path_variables fuel used_vars in
      let clear_if (b : bool) := if b then update path_handle clear_variable else mret tt in
      path_node ← get path_handle;
      match path_node with
      | NodePattern variable _ _ => clear_if (prunable used_vars variable)
      | PathChain path_variable _ start_node edges =>
          _ ← clear_if (prunable used_vars path_variable);
          _ ← prune start_node;
          for_each (λ edge_h,
            edge_node ← get edge_h;
            match edge_node with
            | EdgePattern _ _ _ _ _ _ target_node =>
                if handle_is_null target_node then mret tt else prune target_node
            | _ => mret tt
            end) edges
      | _ => mret tt
      end
  end.

Definition match_paths (match_h : NodeHandle) : AM (list NodeHandle) :=
  match_node ← get match_h;
  match match_node with MatchClause _ paths _ => mret paths | _ => mret [] end.

Definition prune_dead_variables (fuel : nat) (root : NodeHandle) : AM () :=
  used_vars ← collect_used_variables fuel root ∅;
  root_node ← get root;
  match root_node with
  | QueryStatement _ _ _ matches _ _ _ _ =>
      for_each (λ match_h,
        path_handles ← match_paths match_h;
        for_each (prune_path_variables fuel used_vars) path_handles) matches
  | _ => mret tt
  end.

(** ** [AstOptimizer::optimize] *)

Definition optimize (fuel : nat) (level : OptimizationLevel) (root : NodeHandle) :
    AM NodeHandle :=
  if decide (level = LevelNone) then mret root else
  _ ← fold_all_expressions (fold_expression fuel) fuel root;
  _ ← optimize_statement fuel root;
  _ ← (if decide (level = Aggressive) then prune_dead_variables fuel root else mret tt);
  mret root.
