(* ===== verification/OptTree.v ===== *)
(** * Constant folding on expression trees

    [read] takes the expression of a handle out of the arena; [tfold] is constant
    folding as a function on trees.  The theorems here show that
    [AstOptimizer::fold_expression], which appends nodes to the arena, computes
    [tfold], always returns, and leaves every node it found in place. *)
From S2P Require Import Prelude Bytes F64 Errors Ast Optimizer.

Open Scope Z_scope.
Open Scope list_scope.

Inductive expr : Type :=
| EBin (l : expr) (op : BinaryOp) (r : expr)
| EUn (op : UnaryOp) (e : expr)
| ECall (name : string) (args : list expr)
| ECase (operand : option expr) (branches : list (expr * expr)) (els : option expr)
| EListComp (var : string) (l : expr) (filter map : option expr)
| EPatComp (path : NodeHandle) (filter : option expr) (proj : expr)
| EList (items : list expr)
| EProp (target : expr) (property : string)
| ELit (v : LiteralValue)
| EId (name : string)
| EParam (name : string).

Definition on_pair {A B} (f : A → B) (p : A * A) : B * B := (f p.1, f p.2).

(** ** Induction and the nodes folding may append *)

Definition All_opt {A} (P : A → Prop) (o : option A) : Prop :=
  match o with Some x => P x | None => True end.
Definition All_pair {A} (P : A → Prop) (p : A * A) : Prop := P p.1 ∧ P p.2.

Section expr_ind.
Variable P : expr → Prop.
Hypothesis HBin : ∀ l op r, P l → P r → P (EBin l op r).
Hypothesis HUn : ∀ op e, P e → P (EUn op e).
Hypothesis HCall : ∀ n args, All P args → P (ECall n args).
Hypothesis HCase : ∀ o bs e, All_opt P o → All (All_pair P) bs → All_opt P e → P (ECase o bs e).
Hypothesis HListComp : ∀ v l f m, P l → All_opt P f → All_opt P m → P (EListComp v l f m).
Hypothesis HPatComp : ∀ h f p, All_opt P f → P p → P (EPatComp h f p).
Hypothesis HList : ∀ items, All P items → P (EList items).
Hypothesis HProp : ∀ t p, P t → P (EProp t p).
Hypothesis HLit : ∀ v, P (ELit v).
Hypothesis HId : ∀ s, P (EId s).
Hypothesis HParam : ∀ s, P (EParam s).

Fixpoint expr_induction (e : expr) : P e :=
  let opt (o : option expr) : All_opt P o :=
    match o with Some x => expr_induction x | None => I end in
  let list := fix go (l : list expr) : All P l :=
    match l with [] => I | x :: l => conj (expr_induction x) (go l) end in
  let pairs := fix go (l : Datatypes.list (expr * expr)) : All (All_pair P) l :=
    match l with
    | [] => I
    | x :: l => conj (conj (expr_induction x.1) (expr_induction x.2)) (go l)
    end in
  match e with
  | EBin l op r => HBin l op r (expr_induction l) (expr_induction r)
  | EUn op x => HUn op x (expr_induction x)
  | ECall n args => HCall n args (list args)
  | ECase o bs els => HCase o bs els (opt o) (pairs bs) (opt els)
  | EListComp v l f m => HListComp v l f m (expr_induction l) (opt f) (opt m)
  | EPatComp h f p => HPatComp h f p (opt f) (expr_induction p)
  | EList items => HList items (list items)
  | EProp t p => HProp t p (expr_induction t)
  | ELit v => HLit v
  | EId s => HId s
  | EParam s => HParam s
  end.
End expr_ind.

Definition total {A} (f : A → Z) (l : list A) : Z := foldr (λ x m, f x + m) 0 l.
Definition total_opt {A} (f : A → Z) (o : option A) : Z :=
  match o with Some x => f x | None => 0 end.

(** Three units per node: the nodes folding one node may append. *)
Fixpoint budget (e : expr) : Z :=
  3 + match e with
      | EBin l _ r => budget l + budget r
      | EUn _ e | EProp e _ => budget e
      | ECall _ args | EList args => total budget args
      | ECase o bs els =>
          total_opt budget o + total (λ b, budget b.1 + budget b.2) bs + total_opt budget els
      | EListComp _ l f m => budget l + total_opt budget f + total_opt budget m
      | EPatComp _ f p => total_opt budget f + budget p
      | _ => 0
      end.

(** ** Reading an expression out of the arena *)

Definition read_opt {A B} (rd : A → option B) (o : option A) : option (option B) :=
  match o with Some x => Some <$> rd x | None => Some None end.
Definition read_pair {A B} (rd : A → option B) (p : A * A) : option (B * B) :=
  x ← rd p.1; y ← rd p.2; Some (x, y).

Definition read_node (go : NodeHandle → option expr) (node : AstNode) : option expr :=
  match node with
  | BinaryExpression l op r => x ← go l; y ← go r; Some (EBin x op y)
  | UnaryExpression op e => x ← go e; Some (EUn op x)
  | FunctionCall name args => xs ← mapM go args; Some (ECall name xs)
  | CaseExpression o bs els =>
      x ← read_opt go o; ys ← mapM (read_pair go) bs; z ← read_opt go els;
      Some (ECase x ys z)
  | ListComprehension v l f m =>
      x ← go l; y ← read_opt go f; z ← read_opt go m; Some (EListComp v x y z)
  | PatternComprehension path f p => y ← read_opt go f; z ← go p; Some (EPatComp path y z)
  | ListLiteral items => xs ← mapM go items; Some (EList xs)
  | PropertyAccess t p => x ← go t; Some (EProp x p)
  | Literal v => Some (ELit v)
  | Identifier s => Some (EId s)
  | ParameterNode s => Some (EParam s)
  | _ => None
  end.

Fixpoint read (n : nat) (a : QueryAstArena) (h : NodeHandle) : option expr :=
  match n with
  | O => None
  | S n =>
      if handle_is_null h then None
      else node ← nodes a !! Z.to_nat h; read_node (read n a) node
  end.

(** ** Folding on trees *)

Definition e_bool (b : bool) (e : expr) : bool :=
  match e with ELit (LBool b') => Bool.eqb b b' | _ => false end.
Definition e_int (i : Z) (e : expr) : bool :=
  match e with ELit (LInt64 i') => i =? i' | _ => false end.
Definition e_const (e : expr) : option Z :=
  match e with ELit (LInt64 i) => Some i | _ => None end.

Definition eval_literals (l : expr) (op : BinaryOp) (r : expr) : option LiteralValue :=
  match l, r with ELit a, ELit b => eval_binary_literals a op b | _, _ => None end.

(** The operand an identity law leaves: the left one for [true]. *)
Definition tidentity (op : BinaryOp) (l r : expr) : option bool :=
  match op with
  | And =>
      if e_bool false l then Some true else if e_bool false r then Some false
      else if e_bool true l then Some false else if e_bool true r then Some true else None
  | Or =>
      if e_bool true l then Some true else if e_bool true r then Some false
      else if e_bool false l then Some false else if e_bool false r then Some true else None
  | Add => if e_int 0 r then Some true else if e_int 0 l then Some false else None
  | Mul => if e_int 1 r then Some true else if e_int 1 l then Some false else None
  | Sub => if e_int 0 r then Some true else None
  | Div => if e_int 1 r then Some true else None
  | _ => None
  end.

Definition with_const (x : expr) (op : BinaryOp) (c : Z) : expr := EBin x op (ELit (LInt64 c)).

Definition treassoc (op : BinaryOp) (l r : expr) : option expr :=
  match e_const r, op, l with
  | Some d, Add, EBin x Add y =>
      match c ← e_const y; checked_add c d with
      | Some s => Some (with_const x Add s)
      | None => s ← (c ← e_const x; checked_add c d); Some (with_const y Add s)
      end
  | Some d, Sub, EBin x Sub y =>
      s ← (c ← e_const y; checked_add c d); Some (with_const x Sub s)
  | Some d, Mul, EBin x Mul y =>
      p ← (c ← e_const y; checked_mul c d); Some (with_const x Mul p)
  | _, _, _ => None
  end.

Definition tfold_bin (l : expr) (op : BinaryOp) (r : expr) : expr :=
  match eval_literals l op r with
  | Some v => ELit v
  | None =>
      match tidentity op l r with
      | Some keep_left => if keep_left : bool then l else r
      | None => default (EBin l op r) (treassoc op l r)
      end
  end.

Definition tfold_un (op : UnaryOp) (e : expr) : expr :=
  match op, e with
  | Not, ELit (LBool b) => ELit (LBool (negb b))
  | Not, EUn Not x => x
  | Neg, ELit (LInt64 i) =>
      match checked_neg i with Some j => ELit (LInt64 j) | None => EUn op e end
  | Neg, ELit (LFloat64 f) =>
      if is_finite (f64_neg f) then ELit (LFloat64 (f64_neg f)) else EUn op e
  | Neg, EUn Neg x => x
  | IsNull, ELit LNull => ELit (LBool true)
  | IsNotNull, ELit LNull => ELit (LBool false)
  | _, _ => EUn op e
  end.

(** The branches kept before the first constantly true one, and its result. *)
Fixpoint cut (branches kept : list (expr * expr)) : list (expr * expr) * option expr :=
  match branches with
  | [] => (kept, None)
  | (w, t) :: branches =>
      if e_bool true w then (kept, Some t)
      else if e_bool false w then cut branches kept
      else cut branches (kept ++ [(w, t)])
  end.

Definition tfold_branches (searched : bool) (branches : list (expr * expr)) :
    list (expr * expr) * option expr :=
  if searched then cut branches [] else (branches, None).

Definition tfold_case (operand : option expr) (branches : list (expr * expr))
    (els : option expr) : expr :=
  let searched := match operand with None => true | Some _ => false end in
  match tfold_branches searched branches with
  | (_, Some hit) => hit
  | ([], None) => default (ELit LNull) els
  | (kept, None) => ECase operand kept els
  end.

Fixpoint tfold (e : expr) : expr :=
  match e with
  | EBin l op r => tfold_bin (tfold l) op (tfold r)
  | EUn op e => tfold_un op (tfold e)
  | ECall name args => ECall name (map tfold args)
  | ECase o bs els => tfold_case (option_map tfold o) (map (on_pair tfold) bs) (option_map tfold els)
  | EListComp v l f m => EListComp v (tfold l) (option_map tfold f) (option_map tfold m)
  | EPatComp h f p => EPatComp h (option_map tfold f) (tfold p)
  | EList items => EList (map tfold items)
  | _ => e
  end.

(** ** Reading is stable *)

(** Nodes are only appended. *)
Definition ext (a a' : QueryAstArena) : Prop := nodes a `prefix_of` nodes a'.

#[export] Instance ext_preorder : PreOrder ext.
Proof.
  split.
  - intros a. unfold ext. reflexivity.
  - intros a b c. unfold ext. apply transitivity.
Qed.

Section read_lemmas.
Context {A B : Type}.
Implicit Types (f g : A → option B).

Lemma mapM_mono f g l k :
  (∀ x y, f x = Some y → g x = Some y) → mapM f l = Some k → mapM g l = Some k.
Proof. rewrite !mapM_Some. intros H Hl. by eapply Forall2_impl; [exact Hl|]. Qed.

Lemma read_opt_mono f g o k :
  (∀ x y, f x = Some y → g x = Some y) → read_opt f o = Some k → read_opt g o = Some k.
Proof.
  intros H. destruct o as [x|]; simpl; [|done].
  intros (y & Hy & ->)%fmap_Some. by rewrite (H _ _ Hy).
Qed.

Lemma read_pair_mono f g p k :
  (∀ x y, f x = Some y → g x = Some y) → read_pair f p = Some k → read_pair g p = Some k.
Proof.
  intros H. destruct p as [x y]. unfold read_pair; simpl.
  intros (x' & Hx & (y' & Hy & [= <-])%bind_Some)%bind_Some.
  by rewrite (H _ _ Hx), (H _ _ Hy).
Qed.
End read_lemmas.

(** Inverts and replays the option binds of a read. *)
Ltac read_inv :=
  repeat match goal with
  | H : (mbind _ _ : option _) = Some _ |- _ =>
      let x := fresh "x" in let E := fresh "E" in apply bind_Some in H as (x & E & H)
  | H : Some _ = Some _ |- _ => injection H as H; try subst
  | H : mret _ = Some _ |- _ => injection H as H; try subst
  | H : None = Some _ |- _ => discriminate H
  end.

Lemma read_node_mono go go' node e :
  (∀ h x, go h = Some x → go' h = Some x) → read_node go node = Some e → read_node go' node = Some e.
Proof.
  intros H. destruct node; simpl; intros Hr; try done; read_inv;
  repeat match goal with
  | E : go _ = Some _ |- _ => apply H in E; rewrite E; clear E; simpl
  | E : mapM go _ = Some _ |- _ => apply (mapM_mono _ go') in E; [rewrite E; clear E; simpl|done]
  | E : read_opt go _ = Some _ |- _ => apply (read_opt_mono _ go') in E; [rewrite E; clear E; simpl|done]
  | E : mapM (read_pair go) _ = Some _ |- _ =>
      apply (mapM_mono _ (read_pair go')) in E;
        [rewrite E; clear E; simpl | intros ??; by apply read_pair_mono]
  end; done.
Qed.

Lemma read_mono n m a a' h e :
  (n <= m)%nat → ext a a' → read n a h = Some e → read m a' h = Some e.
Proof.
  revert m h e. induction n as [|n IH]; intros m h e Hm Hx; [done|].
  destruct m as [|m]; [lia|]. simpl. case_match; [done|].
  intros (node & Hn & Hr)%bind_Some.
  rewrite (prefix_lookup_Some _ _ _ _ Hn Hx). simpl.
  eapply read_node_mono; [|exact Hr]. intros h' x. apply IH; [lia|done].
Qed.

(** A readable handle is one [get] finds. *)
Lemma read_get n a h e :
  read (S n) a h = Some e →
  handle_is_null h = false ∧
  ∃ node, get h a = Ok (node, a) ∧ read_node (read n a) node = Some e.
Proof.
  simpl. case_match eqn:Hh; [done|]. intros (node & Hn & Hr)%bind_Some.
  split; [done|]. exists node. unfold get, arena_get. by rewrite Hn.
Qed.

Lemma read_pos n a h e : read n a h = Some e → ∃ k, n = S k.
Proof. destruct n; [done | eauto]. Qed.

(** ** The simulation

    [sim rd c a b k]: run on [a], the computation [c] appends at most [k] nodes
    and returns something that reads, by [rd], as [b] - provided the handles of
    the [k] nodes fit in 32 bits and none is the null handle. *)
Definition sim {A B} (rd : QueryAstArena → A → option B) (c : AM A) (a : QueryAstArena)
    (b : B) (k : Z) : Prop :=
  arena_len a + k <= U32_MAX →
  ∃ x a', c a = Ok (x, a') ∧ ext a a' ∧ arena_len a' <= arena_len a + k ∧ rd a' x = Some b.

(** A read that survives appending. *)
Definition stable {A B} (rd : QueryAstArena → A → option B) : Prop :=
  ∀ a a' x b, ext a a' → rd a x = Some b → rd a' x = Some b.

Section sim_rules.
Context {A B A' B' : Type}.

Lemma sim_ret (rd : QueryAstArena → A → option B) x a b k :
  0 <= k → rd a x = Some b → sim rd (mret x) a b k.
Proof. intros Hk Hr _. exists x, a. split_and!; [done|reflexivity|lia|done]. Qed.

Lemma sim_bind (rd : QueryAstArena → A → option B) (rd' : QueryAstArena → A' → option B')
    c (f : A → AM A') a b b' k k' :
  0 <= k' → sim rd c a b k →
  (∀ x a', ext a a' → rd a' x = Some b → sim rd' (f x) a' b' k') →
  sim rd' (c ≫= f) a b' (k + k').
Proof.
  intros Hk Hc Hf Hl. destruct Hc as (x & a1 & E1 & H1 & L1 & R1); [lia|].
  destruct (Hf x a1 H1 R1) as (y & a2 & E2 & H2 & L2 & R2); [lia|].
  exists y, a2. unfold mbind, AM_bind. rewrite E1. split_and!; [done|by etrans|lia|done].
Qed.

Lemma sim_weaken (rd : QueryAstArena → A → option B) c a b k k' :
  sim rd c a b k → k <= k' → sim rd c a b k'.
Proof. intros Hc Hk Hl. destruct Hc as (x & a' & ? & ? & ? & ?); [lia|]. exists x, a'. split_and!; [done|done|lia|done]. Qed.

Lemma sim_read (rd rd' : QueryAstArena → A → option B) c a b k :
  sim rd c a b k → (∀ a' x, rd a' x = Some b → rd' a' x = Some b) → sim rd' c a b k.
Proof. intros Hc Hr Hl. destruct Hc as (x & a' & ? & ? & ? & ?); [lia|]. exists x, a'. auto. Qed.
End sim_rules.

(** The step after a [get] of a readable handle. *)
Lemma sim_get {A B} n (rd : QueryAstArena → A → option B) (f : AstNode → AM A) h e a b k :
  read (S n) a h = Some e →
  (∀ node, read_node (read n a) node = Some e → sim rd (f node) a b k) →
  sim rd (get h ≫= f) a b k.
Proof.
  intros (_ & node & Hg & Hr)%read_get Hf Hl. unfold mbind, AM_bind. rewrite Hg.
  by apply Hf.
Qed.

Lemma sim_alloc n a node e :
  read_node (read n a) node = Some e → sim (read (S n)) (alloc node) a e 1.
Proof.
  intros Hr Hl. unfold alloc, arena_alloc.
  assert (Hlen : 0 <= arena_len a < U32_MAX).
  { unfold arena_len in *. pose proof (blen_nonneg (nodes a)). lia. }
  assert (Hx : ext a (mkArena (nodes a ++ [node]))) by apply prefix_app_r, reflexivity.
  eexists _, _. split; [done|]. split; [done|]. split.
  { unfold arena_len, nodes at 1. rewrite blen_app. unfold blen. simpl. lia. }
  unfold U32_MAX in *. unfold as_unsigned. rewrite Z.mod_small by lia.
  simpl. unfold handle_is_null, U32_MAX. rewrite (proj2 (Z.eqb_neq _ _)) by lia.
  unfold arena_len, blen. rewrite Nat2Z.id, lookup_app_r, Nat.sub_diag by lia. simpl.
  eapply read_node_mono; [|exact Hr]. intros h x. by apply read_mono.
Qed.

Lemma read_stable n : stable (read n).
Proof. intros a a' x b. by apply read_mono. Qed.

Lemma total_nonneg {A} (f : A → Z) l : (∀ x, 0 <= f x) → 0 <= total f l.
Proof. intros H. induction l as [|x l IH]; simpl; [lia|]. specialize (H x). lia. Qed.

Lemma total_opt_nonneg {A} (f : A → Z) o : (∀ x, 0 <= f x) → 0 <= total_opt f o.
Proof. intros H. destruct o; simpl; [done|lia]. Qed.

Lemma budget_nonneg e : 0 <= budget e.
Proof.
  induction e as [ | | | o bs els IHo IHbs IHels | v l f m IHl IHf IHm | p f e IHf IHe | | | | | ]
    using expr_induction; simpl; try lia.
  - assert (0 <= total budget args); [|lia]. induction args as [|x l IH]; simpl in *; [lia|].
    destruct H as [? ?%IH]. lia.
  - assert (0 <= total (λ b, budget b.1 + budget b.2) bs).
    { clear -IHbs. induction bs as [|x l IH]; simpl in *; [lia|].
      destruct IHbs as [[??] ?%IH]. lia. }
    destruct o, els; simpl in *; lia.
  - destruct f, m; simpl in *; lia.
  - destruct f; simpl in *; lia.
  - assert (0 <= total budget items); [|lia]. induction items as [|x l IH]; simpl in *; [lia|].
    destruct H as [? ?%IH]. lia.
Qed.

(** ** One operator *)

Definition read_some (n : nat) (a : QueryAstArena) (o : option NodeHandle) : option (option expr) :=
  match o with Some h => e ← read n a h; Some (Some e) | None => Some None end.

Section operators.
Variable n : nat.
Implicit Types (a : QueryAstArena) (h : NodeHandle) (e l r : expr).

Lemma read_literal a node e :
  read_node (read n a) node = Some e →
  match node, e with
  | Literal v, ELit v' => v = v'
  | Literal _, _ | _, ELit _ => False
  | _, _ => True
  end.
Proof. destruct node; simpl; intros H; try done; read_inv; done. Qed.

Lemma eval_literals_read a ln rn l r op :
  read_node (read n a) ln = Some l → read_node (read n a) rn = Some r →
  eval_literal_nodes ln op rn = eval_literals l op r.
Proof.
  intros Hl%read_literal Hr%read_literal.
  destruct ln, l; try done; simpl; subst; destruct rn, r; try done; by subst.
Qed.

Lemma is_bool_read a b node e :
  read_node (read n a) node = Some e → is_bool b node = e_bool b e.
Proof. intros H%read_literal. destruct node, e; try done. by subst. Qed.

Lemma is_int_read a i node e :
  read_node (read n a) node = Some e → is_int i node = e_int i e.
Proof. intros H%read_literal. destruct node, e; try done. by subst. Qed.

Lemma int_literal_read a node e :
  read_node (read n a) node = Some e → int_literal node = e_const e.
Proof. intros H%read_literal. destruct node, e; try done. by subst. Qed.

Lemma identity_law_read a op hl hr ln rn l r :
  read_node (read n a) ln = Some l → read_node (read n a) rn = Some r →
  identity_law op hl hr ln rn =
    match tidentity op l r with Some b => Some (if b : bool then hl else hr) | None => None end.
Proof.
  intros Hl Hr. unfold identity_law, tidentity.
  destruct op; try done; rewrite ?(is_bool_read a _ _ _ Hl), ?(is_bool_read a _ _ _ Hr),
    ?(is_int_read a _ _ _ Hl), ?(is_int_read a _ _ _ Hr); by repeat case_match.
Qed.

(** Shape of a node that reads as a binary expression, and conversely. *)
Lemma read_binary a node e :
  read_node (read n a) node = Some e →
  match node with
  | BinaryExpression x op y => ∃ ex ey, e = EBin ex op ey ∧ read n a x = Some ex ∧ read n a y = Some ey
  | _ => match e with EBin _ _ _ => False | _ => True end
  end.
Proof. destruct node; simpl; intros H; try done; read_inv; eauto. Qed.

Lemma sim_with_const a x ex op c :
  read n a x = Some ex →
  sim (read_some (S n)) (alloc_with_int x op c) a (Some (with_const ex op c)) 2.
Proof.
  intros Hx. destruct (read_pos _ _ _ _ Hx) as [m ->]. unfold alloc_with_int.
  eapply (sim_bind (read (S m)) _ _ _ _ (ELit (LInt64 c)) _ 1 1); [lia|by apply sim_alloc|].
  intros lit a' H1 Hlit.
  eapply (sim_bind (read (S (S m))) _ _ _ _ (with_const ex op c) _ 1 0); [lia| |].
  - apply sim_alloc. cbn [read_node]. rewrite (read_stable _ _ _ _ _ H1 Hx), Hlit. done.
  - intros h a2 H2 Hh. apply sim_ret; [lia|]. unfold read_some. by rewrite Hh.
Qed.
End operators.

(** A handle that reads one level down is a node [get] finds. *)
Lemma get_binary n a h e :
  read n a h = Some e →
  ∃ m node, n = S m ∧ get h a = Ok (node, a) ∧ read_node (read m a) node = Some e.
Proof.
  intros H. destruct (read_pos _ _ _ _ H) as [m ->].
  apply read_get in H as (_ & node & ? & ?). eauto.
Qed.

Lemma sim_reassociate n a op ln rn l r :
  read_node (read n a) ln = Some l → read_node (read n a) rn = Some r →
  sim (read_some (S n)) (reassociate op ln rn) a (treassoc op l r) 2.
Proof.
  intros Hln Hrn. unfold reassociate, treassoc.
  rewrite (int_literal_read _ _ _ _ Hrn).
  assert (Hnone : sim (read_some (S n)) (mret None) a None 2) by (apply sim_ret; [lia|done]).
  pose proof (sim_with_const n a) as Hw.
  apply read_binary in Hln.
  destruct (e_const r) as [d|]; [|done].
  destruct op; try done; (destruct ln; try (destruct l; done));
  destruct Hln as (ex & ey & -> & Hx & Hy); case_match; try done;
  destruct (get_binary _ _ _ _ Hy) as (m & ny & -> & Gy & Ny);
  unfold mbind at 1, AM_bind; intros Hl; rewrite Gy;
  rewrite (int_literal_read _ _ _ _ Ny);
  destruct (e_const ey) as [c|]; simpl; try (by apply Hnone);
  try (destruct (checked_add c d); simpl; [by apply Hw|]); try (by apply Hnone);
  try (destruct (checked_mul c d); simpl; [by apply Hw|]); try (by apply Hnone);
  destruct (get_binary _ _ _ _ Hx) as (m' & nx & [= <-] & Gx & Nx);
  unfold mbind at 1, AM_bind; rewrite Gx;
  rewrite (int_literal_read _ _ _ _ Nx);
  destruct (e_const ex) as [c'|]; simpl; try (by apply Hnone);
  (destruct (checked_add c' d); simpl; [by apply Hw|by apply Hnone]).
Qed.

Lemma sim_fold_binary_op n a hl hr l op r :
  read (S n) a hl = Some l → read (S n) a hr = Some r →
  sim (read (S (S n))) (fold_binary_op hl op hr) a (tfold_bin l op r) 3.
Proof.
  intros Hl Hr. unfold fold_binary_op.
  eapply sim_get; [exact Hl|].
  intros ln Hln. eapply sim_get; [exact Hr|]. intros rn Hrn.
  rewrite (eval_literals_read n a ln rn l r op Hln Hrn). unfold tfold_bin.
  destruct (eval_literals l op r) as [v|].
  { eapply sim_weaken; [by apply sim_alloc|lia]. }
  rewrite (identity_law_read n a op hl hr ln rn l r Hln Hrn).
  destruct (tidentity op l r) as [[]|];
    [apply sim_ret; [lia|] .. |]; try (by eapply read_mono; [| |eassumption]; [lia|reflexivity]).
  eapply (sim_bind (read_some (S n)) _ _ _ _ (treassoc op l r) _ 2 1); [lia|by apply sim_reassociate|].
  intros o a' Hx Ho. unfold read_some in Ho. destruct o as [h|].
  - apply bind_Some in Ho as (e & He & [= <-]). apply sim_ret; [lia|].
    by eapply read_mono; [| |exact He]; [lia|reflexivity].
  - injection Ho as <-. eapply sim_weaken; [apply sim_alloc; cbn [read_node default]|done].
    by rewrite (read_stable _ _ _ _ _ Hx Hl), (read_stable _ _ _ _ _ Hx Hr).
Qed.

Lemma sim_fold_unary_op n a op h e :
  read (S n) a h = Some e →
  sim (read (S (S n))) (fold_unary_op op h) a (tfold_un op e) 1.
Proof.
  intros Hh. unfold fold_unary_op.
  eapply sim_get; [exact Hh|].
  intros node Hn.
  assert (Hu : sim (read (S (S n))) (alloc (UnaryExpression op h)) a (EUn op e) 1).
  { apply sim_alloc. cbn [read_node]. by rewrite Hh. }
  assert (Hlit : ∀ v, sim (read (S (S n))) (alloc (Literal v)) a (ELit v) 1)
    by (intros v; by apply sim_alloc).
  destruct node; cbn [read_node] in Hn; try discriminate Hn; read_inv; destruct op; cbn [tfold_un];
    try exact Hu.
  all: try (case_match; try exact Hu; try apply Hlit).
  all: try (case_match; [apply Hlit|exact Hu]).
  all: apply sim_ret; [lia|]; by eapply read_mono; [| |eassumption]; [lia|reflexivity].
Qed.

(** ** Lists and options of expressions *)

Section loops.
Context {A A' B C : Type}.
Variables (rd0 : QueryAstArena → A → option C) (rd : QueryAstArena → A' → option B).
Variables (f : A → AM A') (g : C → B) (cost : C → Z).
Hypothesis stable0 : stable rd0.
Hypothesis stable1 : stable rd.
Hypothesis cost_nonneg : ∀ c, 0 <= cost c.
Hypothesis step : ∀ a x c, rd0 a x = Some c → sim rd (f x) a (g c) (cost c).

Lemma sim_map_each xs cs a :
  mapM (rd0 a) xs = Some cs →
  sim (λ a, mapM (rd a)) (map_each f xs) a (map g cs) (total cost cs).
Proof.
  revert cs a. induction xs as [|x xs IH]; simpl; intros cs a Hr; read_inv; simpl.
  { apply sim_ret; [lia|done]. }
  pose proof (total_nonneg cost x1 cost_nonneg).
  eapply sim_bind; [done|by apply step|]. intros y a1 H1 Hy.
  eapply (sim_weaken _ _ _ _ (total cost x1 + 0)); [|lia].
  eapply sim_bind; [done| |].
  { apply IH. eapply mapM_mono; [|exact E0]. intros ??. by apply stable0. }
  intros ys a2 H2 Hys. apply sim_ret; [lia|]. simpl. by rewrite (stable1 _ _ _ _ H2 Hy), Hys.
Qed.

Lemma sim_map_option o c a :
  read_opt (rd0 a) o = Some c →
  sim (λ a, read_opt (rd a)) (map_option f o) a (option_map g c) (total_opt cost c).
Proof.
  destruct o as [x|]; simpl; [intros (y & Hy & ->)%fmap_Some|intros [= <-]]; simpl.
  - eapply (sim_weaken _ _ _ _ (cost y + 0)); [|lia].
    eapply sim_bind; [done|by apply step|]. intros z a1 H1 Hz. apply sim_ret; [lia|].
    simpl. by rewrite Hz.
  - apply sim_ret; [lia|done].
Qed.
End loops.

Lemma stable_pair n : stable (λ a, read_pair (read n a)).
Proof. intros a a' x b Hx. apply read_pair_mono. intros ??. by apply read_mono. Qed.
Lemma stable_opt n : stable (λ a, read_opt (read n a)).
Proof. intros a a' x b Hx. apply read_opt_mono. intros ??. by apply read_mono. Qed.
Lemma stable_list {A B} (rd : QueryAstArena → A → option B) :
  stable rd → stable (λ a, mapM (rd a)).
Proof. intros H a a' x b Hx. apply mapM_mono. intros ??. by apply H. Qed.

(** The branch loop of CASE. *)
Definition read_cut (n : nat) (a : QueryAstArena)
    (p : list (NodeHandle * NodeHandle) * option NodeHandle) :
    option (list (expr * expr) * option expr) :=
  x ← mapM (read_pair (read n a)) p.1; y ← read_opt (read n a) p.2; Some (x, y).

Section branches.
Variable n : nat.
Variable fold : NodeHandle → AM NodeHandle.
Hypothesis fold_sim : ∀ a h e, read n a h = Some e → sim (read n) (fold h) a (tfold e) (budget e).

Lemma sim_fold_branches searched bs bs' kept kept' a :
  mapM (read_pair (read n a)) bs = Some bs' →
  mapM (read_pair (read n a)) kept = Some kept' →
  sim (read_cut n) (fold_branches fold searched bs kept) a
    (if searched then cut (map (on_pair tfold) bs') kept'
     else (kept' ++ map (on_pair tfold) bs', None))
    (total (λ b, budget b.1 + budget b.2) bs').
Proof.
  revert bs' kept kept' a. induction bs as [|[w t] bs IH]; intros bs' kept kept' a Hbs Hkept.
  { injection Hbs as <-. apply sim_ret; [simpl; lia|]. unfold read_cut. simpl. rewrite Hkept.
    simpl. by destruct searched; rewrite ?app_nil_r. }
  simpl in Hbs. apply bind_Some in Hbs as (p & Hp & Hbs).
  apply bind_Some in Hbs as (bs0 & Hbs0 & [= <-]). unfold read_pair in Hp. simpl in Hp.
  apply bind_Some in Hp as (ew & Hew & Hp). apply bind_Some in Hp as (et & Het & [= <-]).
  pose proof (total_nonneg (λ b, budget b.1 + budget b.2) bs0
    (λ b, Z.add_nonneg_nonneg _ _ (budget_nonneg b.1) (budget_nonneg b.2))) as Hn.
  simpl. set (k := total _ _) in *. rewrite <- Z.add_assoc.
  eapply sim_bind; [pose proof (budget_nonneg et); lia|by apply fold_sim|]. intros fw a1 H1 Hw.
  eapply sim_bind; [lia|apply fold_sim; by eapply read_stable|]. intros ft a2 H2 Ht.
  assert (Hbs2 : mapM (read_pair (read n a2)) bs = Some bs0).
  { eapply (stable_list _ (stable_pair n)); [|eassumption]. by etrans. }
  assert (Hkept2 : mapM (read_pair (read n a2)) kept = Some kept').
  { eapply (stable_list _ (stable_pair n)); [|eassumption]. by etrans. }
  pose proof (read_stable _ _ _ _ _ H2 Hw) as Hw2.
  assert (Hk : mapM (read_pair (read n a2)) (kept ++ [(fw, ft)]) =
    Some (kept' ++ [(tfold ew, tfold et)])).
  { apply mapM_Some, Forall2_app; [by apply mapM_Some|]. repeat constructor.
    unfold read_pair; simpl. by rewrite Hw2, Ht. }
  destruct searched; simpl.
  - destruct (read_pos _ _ _ _ Hw2) as [m Hm]. rewrite Hm in Hw2.
    eapply sim_get; [exact Hw2|]. intros node Hnode.
    rewrite !(is_bool_read m a2 _ _ _ Hnode).
    destruct (e_bool true (tfold ew)).
    { apply sim_ret; [lia|]. unfold read_cut; simpl. by rewrite Hkept2, Ht. }
    destruct (e_bool false (tfold ew)); by apply IH.
  - replace (kept' ++ _ :: _) with ((kept' ++ [(tfold ew, tfold et)]) ++ map (on_pair tfold) bs0)
      by (by rewrite <- app_assoc).
    by apply IH.
Qed.
End branches.

(** ** The whole expression *)

(** Folding is done when the computed node is readable at the same depth. *)
Lemma sim_last {A B} n (rd : QueryAstArena → A → option B) c (f : A → AM NodeHandle) a b e k k' :
  0 <= k' → sim rd c a b k →
  (∀ x a', ext a a' → rd a' x = Some b → sim (read n) (f x) a' e k') →
  ∀ K, k + k' <= K → sim (read n) (c ≫= f) a e K.
Proof. intros Hk Hc Hf K HK. eapply sim_weaken; [by eapply sim_bind|done]. Qed.

Section node.
Variable n : nat.
Variable fold : NodeHandle → AM NodeHandle.
Hypothesis fold_sim : ∀ a h e, read n a h = Some e → sim (read n) (fold h) a (tfold e) (budget e).

Lemma sim_list hs es a :
  mapM (read n a) hs = Some es →
  sim (λ a, mapM (read n a)) (map_each fold hs) a (map tfold es) (total budget es).
Proof. by apply sim_map_each; auto using read_stable, budget_nonneg. Qed.

Lemma sim_opt o e a :
  read_opt (read n a) o = Some e →
  sim (λ a, read_opt (read n a)) (map_option fold o) a (option_map tfold e) (total_opt budget e).
Proof. by apply sim_map_option; auto using read_stable, budget_nonneg. Qed.

Lemma total_branches_nonneg bs : 0 <= total (λ b, budget b.1 + budget b.2) bs.
Proof.
  apply total_nonneg. intros b. pose proof (budget_nonneg b.1). pose proof (budget_nonneg b.2). lia.
Qed.

Lemma sim_tfold_branches searched bs ebs a :
  mapM (read_pair (read n a)) bs = Some ebs →
  sim (read_cut n) (fold_branches fold searched bs []) a
    (tfold_branches searched (map (on_pair tfold) ebs)) (total (λ b, budget b.1 + budget b.2) ebs).
Proof. intros H. by apply (sim_fold_branches n fold fold_sim searched bs ebs [] []). Qed.

(** Only the presence of the operand matters to the loop. *)
Lemma read_opt_none {A B} (rd : A → option B) o e :
  read_opt rd o = Some e →
  match o with None => true | Some _ => false end = match e with None => true | Some _ => false end.
Proof. destruct o; simpl; [by intros (? & ? & ->)%fmap_Some|by intros [= <-]]. Qed.

Lemma sim_fold_case o bs els eo ebs eels a :
  read_opt (read n a) o = Some eo → mapM (read_pair (read n a)) bs = Some ebs →
  read_opt (read n a) els = Some eels →
  sim (read (S n)) (fold_case_expression fold o bs els) a
    (tfold_case (option_map tfold eo) (map (on_pair tfold) ebs) (option_map tfold eels))
    (2 + (total_opt budget eo + total (λ b, budget b.1 + budget b.2) ebs + total_opt budget eels)).
Proof.
  intros Ho Hbs Hels. unfold fold_case_expression.
  pose proof (total_opt_nonneg budget eo budget_nonneg) as N1.
  pose proof (total_branches_nonneg ebs) as N2.
  pose proof (total_opt_nonneg budget eels budget_nonneg) as N3.
  eapply (sim_last _ _ _ _ _ _ _ (total_opt budget eo)
    (2 + (total (λ b, budget b.1 + budget b.2) ebs + total_opt budget eels)));
    [lia|by apply sim_opt| |lia].
  intros fo a1 H1 Hfo.
  eapply (sim_last _ _ _ _ _ _ _ (total (λ b, budget b.1 + budget b.2) ebs)
    (2 + total_opt budget eels)); [lia| | |lia].
  { apply sim_tfold_branches. eapply (stable_list _ (stable_pair n)); [exact H1|exact Hbs]. }
  intros [kept hit] a2 H2 Hcut. unfold tfold_case. rewrite (read_opt_none _ _ _ Hfo) in Hcut.
  destruct (tfold_branches _ _) as [ekept ehit].
  unfold read_cut in Hcut. simpl in Hcut.
  apply bind_Some in Hcut as (xk & Hk & Hcut). apply bind_Some in Hcut as (xh & Hh & [= -> ->]).
  destruct hit as [hit|]; simpl in Hh.
  { apply fmap_Some in Hh as (x & Hx & ->). apply sim_ret; [lia|].
    destruct ekept; by eapply read_mono; [| |exact Hx]; [lia|reflexivity]. }
  injection Hh as <-.
  eapply (sim_last _ _ _ _ _ _ _ (total_opt budget eels) 2); [lia| | |lia].
  { apply sim_opt. eapply stable_opt; [|exact Hels]. by etrans. }
  intros fe a3 H3 Hfe.
  assert (Hcase : kept ≠ [] → sim (read (S n)) (alloc (CaseExpression fo kept fe)) a3
    (ECase (option_map tfold eo) ekept (option_map tfold eels)) 2).
  { intros _. eapply sim_weaken; [apply sim_alloc|done]. cbn [read_node].
    rewrite (stable_opt n _ _ _ _ (transitivity H2 H3) Hfo), Hfe.
    by rewrite (stable_list _ (stable_pair n) _ _ _ _ H3 Hk). }
  destruct kept as [|b kept].
  - injection Hk as <-. destruct fe as [x|]; simpl in Hfe.
    + apply fmap_Some in Hfe as (y & Hy & ->). apply sim_ret; [lia|].
      by eapply read_mono; [| |exact Hy]; [lia|reflexivity].
    + injection Hfe as <-. eapply sim_weaken; [by apply sim_alloc|done].
  - destruct ekept as [|eb ekept].
    { apply mapM_Some, Forall2_length in Hk. done. }
    destruct fe; apply Hcase; done.
Qed.
End node.

(** [fold_expression] on a readable handle computes [tfold]; the fuel that reads
    the expression is enough, for the height of a fold never exceeds it. *)
Lemma fold_sim n a h e :
  read n a h = Some e → sim (read n) (fold_expression n h) a (tfold e) (budget e).
Proof.
  revert a h e. induction n as [|n IH]; intros a h e Hr; [done|].
  destruct (read_get _ _ _ _ Hr) as (Hnull & _).
  cbn [fold_expression]. rewrite Hnull. unfold fold_node.
  eapply sim_get; [exact Hr|]. intros node Hn.
  pose proof (sim_list n _ IH) as Hlist. pose proof (sim_opt n _ IH) as Hopt.
  pose proof (λ o : option expr, total_opt_nonneg budget o budget_nonneg) as No.
  pose proof budget_nonneg as Nb. pose proof (λ l, total_nonneg budget l budget_nonneg) as Nl.
  assert (Hsame : ∀ e k, 0 <= k → read (S n) a h = Some e → sim (read (S n)) (mret h) a e k)
    by (intros; by apply sim_ret).
  destruct node; cbn [read_node] in Hn; try discriminate Hn; read_inv; cbn [tfold budget].
  all: try (apply Hsame; [specialize (Nb x); lia || lia|exact Hr]).
  all: try (apply Hsame; [lia|exact Hr]).
  - destruct (read_pos _ _ _ _ E) as [m ->].
    eapply (sim_last _ _ _ _ _ _ _ (budget x) (3 + budget x0)); [specialize (Nb x0); lia|by apply IH| |lia].
    intros l a1 H1 Hl.
    eapply (sim_last _ _ _ _ _ _ _ (budget x0) 3); [lia|apply IH; by eapply read_stable| |lia].
    intros r a2 H2 Hr'. apply sim_fold_binary_op; [by eapply read_stable|done].
  - destruct (read_pos _ _ _ _ E) as [m ->].
    eapply (sim_last _ _ _ _ _ _ _ (budget x) 1); [lia|by apply IH| |lia].
    intros l a1 H1 Hl. by apply sim_fold_unary_op.
  - eapply (sim_last _ _ _ _ _ _ _ (total budget x) 1); [lia|by apply Hlist| |lia].
    intros l a1 H1 Hl. apply sim_alloc. cbn [read_node]. by rewrite Hl.
  - eapply sim_weaken; [by apply (sim_fold_case n _ IH)|lia].
  - eapply (sim_last _ _ _ _ _ _ _ (budget x) (3 + total_opt budget x0 + total_opt budget x1));
      [pose proof (No x0); pose proof (No x1); lia|by apply IH| |lia].
    intros l a1 H1 Hl.
    eapply (sim_last _ _ _ _ _ _ _ (total_opt budget x0) (3 + total_opt budget x1));
      [pose proof (No x1); lia|apply Hopt; by eapply stable_opt| |lia].
    intros f a2 H2 Hf.
    eapply (sim_last _ _ _ _ _ _ _ (total_opt budget x1) 1);
      [lia|apply Hopt; eapply stable_opt; [|eassumption]; by etrans| |lia].
    intros m a3 H3 Hm. apply sim_alloc. cbn [read_node].
    rewrite (read_stable _ _ _ _ _ (transitivity H2 H3) Hl), Hm.
    by rewrite (stable_opt n _ _ _ _ H3 Hf).
  - eapply (sim_last _ _ _ _ _ _ _ (total_opt budget x) (3 + budget x0));
      [specialize (Nb x0); lia|by apply Hopt| |lia].
    intros f a1 H1 Hf.
    eapply (sim_last _ _ _ _ _ _ _ (budget x0) 1); [lia|apply IH; by eapply read_stable| |lia].
    intros p a2 H2 Hp. apply sim_alloc. cbn [read_node].
    by rewrite (stable_opt n _ _ _ _ H2 Hf), Hp.
  - eapply (sim_last _ _ _ _ _ _ _ (total budget x) 1); [lia|by apply Hlist| |lia].
    intros l a1 H1 Hl. apply sim_alloc. cbn [read_node]. by rewrite Hl.
Qed.

(** ** Theorems *)

(** C15: on an arena with room below the null handle, constant folding of an
    acyclic expression without EXISTS and COUNT subqueries (whose parts are folded
    in place) always returns; the result is the expression [tfold]
    describes, every node already in the arena is left as it was (so other
    references to shared nodes are unaffected) and at most [budget e] nodes are
    appended. *)
Theorem fold_expression_computes_tfold n a h e :
  read n a h = Some e → arena_len a + budget e <= U32_MAX →
  ∃ h' a', fold_expression n h a = Ok (h', a') ∧
    nodes a `prefix_of` nodes a' ∧ arena_len a' <= arena_len a + budget e ∧
    read n a' h' = Some (tfold e).
Proof. intros Hr Hl. by apply (fold_sim n a h e Hr). Qed.

(** [CASE WHEN false THEN "no" WHEN 2 > 1 THEN x + 10 + 20 END] is [x + 30]. *)
Definition case_arena : QueryAstArena :=
  mkArena [Literal (LBool false); Literal (LString "no"); Literal (LInt64 2); Literal (LInt64 1);
           BinaryExpression 2 Gt 3; Identifier "x"; Literal (LInt64 10); BinaryExpression 5 Add 6;
           Literal (LInt64 20); BinaryExpression 7 Add 8;
           CaseExpression None [(0, 1); (4, 9)] None].

Lemma fold_expression_computes_tfold_witness :
  ∃ h' a', fold_expression 4 10 case_arena = Ok (h', a') ∧
    nodes case_arena `prefix_of` nodes a' ∧ arena_len a' <= 11 + 33 ∧
    read 4 a' h' = Some (EBin (EId "x") Add (ELit (LInt64 30))).
Proof.
  apply (fold_expression_computes_tfold 4 case_arena 10
    (ECase None [(ELit (LBool false), ELit (LString "no"));
      (EBin (ELit (LInt64 2)) Gt (ELit (LInt64 1)),
       EBin (EBin (EId "x") Add (ELit (LInt64 10))) Add (ELit (LInt64 20)))] None));
    [reflexivity|discriminate].
Defined.
