(* ===== verification/OptSem.v ===== *)
(** * What constant folding preserves

    A semantics of the query expressions with three-valued logic, and the theorem
    that folding keeps the value of every expression that has one.  The functions
    of the database (procedures, properties, patterns, the operators the optimizer
    never touches) are arguments of the semantics.

    [None] is an evaluation error: a type error, an overflow, a division by zero.
    Arithmetic that mixes integers and floats is outside the semantics, and so are
    [+], [-], [*] and [/] on lists, maps and entities: the identities and the
    reassociation of the optimizer are not value preserving there
    ([reassociation_changes_floats]). *)
From S2P Require Import Prelude Bytes F64 Errors Ast Optimizer OptTree.

Open Scope Z_scope.
Open Scope list_scope.

Inductive val : Type :=
| VNull
| VBool (b : bool)
| VInt (i : Z)
| VFloat (f : f64)
| VString (s : string)
| VList (l : list val)
| VMap (m : list (string * val))
| VEntity (id : Z).

Notation Env := (gmap string val).

Section semantics.
Context {params : string → option val} {property : val → string → option val}.
Context {call : string → list val → option val}.
Context {pattern : NodeHandle → Env → option (list Env)}.
Context {other : BinaryOp → val → val → option val}.

Definition i64_result (z : Z) : option val := if in_i64 z then Some (VInt z) else None.

Definition sem_int (op : BinaryOp) (a b : Z) : option val :=
  match op with
  | Add => i64_result (a + b)
  | Sub => i64_result (a - b)
  | Mul => i64_result (a * b)
  | Div => if b =? 0 then None else i64_result (Z.quot a b)
  | Mod => if b =? 0 then None else Some (VInt (Z.rem a b))
  | Eq => Some (VBool (a =? b))
  | Neq => Some (VBool (negb (a =? b)))
  | Lt => Some (VBool (a <? b))
  | Lte => Some (VBool (a <=? b))
  | Gt => Some (VBool (a >? b))
  | Gte => Some (VBool (a >=? b))
  | _ => other op (VInt a) (VInt b)
  end.

Definition sem_float_compare (op : BinaryOp) (a b : f64) : option bool :=
  match op with
  | Eq => Some (f64_eqb a b)
  | Neq => Some (negb (f64_eqb a b))
  | Lt => Some (f64_ltb a b)
  | Lte => Some (f64_leb a b)
  | Gt => Some (f64_ltb b a)
  | Gte => Some (f64_leb b a)
  | _ => None
  end.

Definition sem_float (op : BinaryOp) (a b : f64) : option val :=
  match op with
  | Add => Some (VFloat (f64_add a b))
  | Sub => Some (VFloat (f64_sub a b))
  | Mul => Some (VFloat (f64_mul a b))
  | Div => Some (VFloat (f64_div a b))
  | Mod => Some (VFloat (f64_rem a b))
  | _ => match sem_float_compare op a b with
         | Some c => Some (VBool c)
         | None => other op (VFloat a) (VFloat b)
         end
  end.

Definition arithmetic (op : BinaryOp) : bool :=
  match op with Add | Sub | Mul | Div | Mod => true | _ => false end.

Definition sem_mixed (op : BinaryOp) (a b : f64) (l r : val) : option val :=
  if arithmetic op then None
  else match sem_float_compare op a b with
       | Some c => Some (VBool c)
       | None => other op l r
       end.

Definition sem_string (op : BinaryOp) (a b : string) : option val :=
  match op with
  | Add | Concat => Some (VString (a +:+ b))
  | Eq => Some (VBool (bool_decide (a = b)))
  | Neq => Some (VBool (bool_decide (a ≠ b)))
  | Contains => Some (VBool (str_contains a b))
  | StartsWith => Some (VBool (String.prefix b a))
  | EndsWith => Some (VBool (str_ends_with a b))
  | Sub | Mul | Div | Mod => None
  | _ => other op (VString a) (VString b)
  end.

(** Three-valued conjunction, disjunction and exclusive or. *)
Definition bool3 (v : val) : option (option bool) :=
  match v with VBool b => Some (Some b) | VNull => Some None | _ => None end.
Definition of_bool3 (b : option bool) : val :=
  match b with Some b => VBool b | None => VNull end.

Definition and3 (a b : option bool) : option bool :=
  match a, b with
  | Some false, _ | _, Some false => Some false
  | Some true, Some true => Some true
  | _, _ => None
  end.
Definition not3 (a : option bool) : option bool := negb <$> a.
Definition or3 (a b : option bool) : option bool := not3 (and3 (not3 a) (not3 b)).
Definition xor3 (a b : option bool) : option bool := x ← a; y ← b; Some (xorb x y).

Definition sem_logic (f : option bool → option bool → option bool) (a b : val) : option val :=
  x ← bool3 a; y ← bool3 b; Some (of_bool3 (f x y)).

Definition sem_strict (op : BinaryOp) (a b : val) : option val :=
  match a, b with
  | VNull, _ | _, VNull => Some VNull
  | VInt x, VInt y => sem_int op x y
  | VFloat x, VFloat y => sem_float op x y
  | VInt x, VFloat y => sem_mixed op (i64_as_f64 x) y a b
  | VFloat x, VInt y => sem_mixed op x (i64_as_f64 y) a b
  | VString x, VString y => sem_string op x y
  | VBool x, VBool y =>
      match op with
      | Eq => Some (VBool (eqb x y))
      | Neq => Some (VBool (negb (eqb x y)))
      | _ => if arithmetic op then None else other op a b
      end
  | _, _ => if arithmetic op then None else other op a b
  end.

Definition sem_binop (op : BinaryOp) (a b : val) : option val :=
  match op with
  | And => sem_logic and3 a b
  | Or => sem_logic or3 a b
  | Xor => sem_logic xor3 a b
  | In | NotIn => other op a b
  | _ => sem_strict op a b
  end.

Definition sem_unop (op : UnaryOp) (a : val) : option val :=
  match op with
  | Not => x ← bool3 a; Some (of_bool3 (not3 x))
  | Neg =>
      match a with
      | VNull => Some VNull
      | VInt i => i64_result (- i)
      | VFloat f => Some (VFloat (f64_neg f))
      | _ => None
      end
  | IsNull => Some (VBool (match a with VNull => true | _ => false end))
  | IsNotNull => Some (VBool (match a with VNull => false | _ => true end))
  end.

Fixpoint sem_literal (l : LiteralValue) : option val :=
  match l with
  | LNull => Some VNull
  | LBool b => Some (VBool b)
  | LInt64 i => Some (VInt i)
  | LFloat64 f => Some (VFloat f)
  | LString s => Some (VString s)
  | LParameterRef p => params p
  | LList l => VList <$> mapM sem_literal l
  | LMap m => VMap <$> mapM (λ kv, v ← sem_literal kv.2; Some (kv.1, v)) m
  end.

(** Is the condition true?  False and null are not; anything else is an error. *)
Definition holds (c : option val) : option bool :=
  v ← c; b ← bool3 v; Some (match b with Some b => b | None => false end).

(** The first branch whose condition holds; later branches are not evaluated. *)
Fixpoint sem_case {A} (cond res : A → option val) (els : option val) (bs : list (A * A)) :
    option val :=
  match bs with
  | [] => els
  | (w, t) :: bs => b ← holds (cond w); if b : bool then res t else sem_case cond res els bs
  end.

(** The images of the elements that pass the filter, in order. *)
Fixpoint comprehend {X} (keep out : X → option val) (xs : list X) : option (list val) :=
  match xs with
  | [] => Some []
  | x :: xs =>
      b ← holds (keep x);
      if b : bool then y ← out x; ys ← comprehend keep out xs; Some (y :: ys)
      else comprehend keep out xs
  end.

Fixpoint eval (e : expr) (env : Env) : option val :=
  match e with
  | EBin l op r => a ← eval l env; b ← eval r env; sem_binop op a b
  | EUn op e => a ← eval e env; sem_unop op a
  | ECall name args => vs ← mapM (λ e, eval e env) args; call name vs
  | ECase o bs els =>
      let otherwise := match els with Some e => eval e env | None => Some VNull end in
      match o with
      | None => sem_case (λ e, eval e env) (λ e, eval e env) otherwise bs
      | Some o =>
          x ← eval o env;
          sem_case (λ e, y ← eval e env; sem_binop Eq x y) (λ e, eval e env) otherwise bs
      end
  | EListComp var l f m =>
      vs ← eval l env;
      match vs with
      | VNull => Some VNull
      | VList vs =>
          VList <$> comprehend
            (λ v, match f with Some f => eval f (<[var := v]> env) | None => Some (VBool true) end)
            (λ v, match m with Some m => eval m (<[var := v]> env) | None => Some v end) vs
      | _ => None
      end
  | EPatComp path f p =>
      envs ← pattern path env;
      VList <$> comprehend
        (λ env, match f with Some f => eval f env | None => Some (VBool true) end)
        (λ env, eval p env) envs
  | EList items => VList <$> mapM (λ e, eval e env) items
  | EProp t p => v ← eval t env; property v p
  | ELit v => sem_literal v
  | EId x => env !! x
  | EParam p => params p
  end.
End semantics.

(** No searched CASE has a constantly true branch behind one that stays: where
    this fails the optimizer drops the earlier branches ([case_fold_wrong]). *)
Definition case_ok (o : option expr) (bs : list (expr * expr)) : bool :=
  match o, cut (map (on_pair tfold) bs) [] with
  | None, (_ :: _, Some _) => false
  | _, _ => true
  end.

Definition on_opt {A} (f : A → bool) (o : option A) : bool :=
  match o with Some x => f x | None => true end.

Fixpoint cases_ok (e : expr) : bool :=
  match e with
  | EBin l _ r => cases_ok l && cases_ok r
  | EUn _ e => cases_ok e
  | ECall _ args | EList args => forallb cases_ok args
  | ECase o bs els =>
      case_ok o bs && on_opt cases_ok o && on_opt cases_ok els &&
      forallb (λ b, cases_ok b.1 && cases_ok b.2) bs
  | EListComp _ l f m => cases_ok l && on_opt cases_ok f && on_opt cases_ok m
  | EPatComp _ f p => on_opt cases_ok f && cases_ok p
  | _ => true
  end.

Lemma f64_neg_neg f : f64_neg (f64_neg f) = f.
Proof.
  destruct f as [b]. unfold f64_neg. simpl. f_equal.
  by rewrite Z.lxor_assoc, Z.lxor_nilpotent, Z.lxor_0_r.
Qed.

Section preservation.
Context {params : string → option val} {property : val → string → option val}.
Context {call : string → list val → option val}.
Context {pattern : NodeHandle → Env → option (list Env)}.
Context {other : BinaryOp → val → val → option val}.
Notation eval := (@eval params property call pattern other).
Notation sem_binop := (@sem_binop other).
Notation sem_literal := (@sem_literal params).

#[local] Opaque f64_add f64_sub f64_mul f64_div f64_rem f64_neg f64_eqb f64_ltb f64_leb.
#[local] Opaque is_finite i64_as_f64.

(** ** Literals *)

Lemma finite_Some f v : finite f = Some v → v = LFloat64 f.
Proof. unfold finite. case_match; naive_solver. Qed.

Lemma checked_Some z i : checked z = Some i → i = z ∧ i64_result z = Some (VInt i).
Proof. unfold checked, i64_result. case_match; naive_solver. Qed.

Lemma eval_int_sound a op b v :
  eval_int_literals a op b = Some v → sem_int (other := other) op a b = sem_literal v.
Proof.
  destruct op; simpl; intros H; try discriminate H;
    unfold checked_div, checked_rem in *;
    repeat match goal with
    | H : _ <$> _ = Some _ |- _ => apply fmap_Some in H as (? & H & ->)
    | H : (if ?b then _ else _) = Some _ |- _ => destruct b eqn:?
    | H : checked _ = Some _ |- _ => apply checked_Some in H as [-> H]
    | H : Some _ = Some _ |- _ => injection H as <-
    end; try discriminate; bool_to_prop; simpl; rewrite ?Z.gtb_ltb, ?Z.geb_leb; try done;
    try (by apply checked_Some in H as [-> H]).
  by rewrite (proj2 (Z.eqb_neq b 0)).
Qed.

Lemma eval_float_sound a op b v :
  eval_float_literals a op b = Some v →
  sem_literal v = sem_float (other := other) op a b ∧
  (arithmetic op = false → ∀ l r, sem_mixed (other := other) op a b l r = sem_literal v).
Proof.
  destruct op; simpl; intros H; try discriminate H;
    repeat match goal with
    | H : (if ?b then _ else _) = Some _ |- _ => destruct b eqn:?
    | H : finite _ = Some _ |- _ => apply finite_Some in H as ->
    | H : Some _ = Some _ |- _ => injection H as <-
    end; try discriminate; simpl; done.
Qed.

Lemma eval_string_sound a op b v :
  eval_string_literals a op b = Some v → sem_string (other := other) op a b = sem_literal v.
Proof.
  destruct op; simpl; intros [= <-]; try done; simpl; do 2 f_equal;
    destruct (String.eqb_spec a b); simpl; by case_bool_decide.
Qed.

Lemma eval_bool_sound a op b v :
  eval_bool_literals a op b = Some v → sem_binop op (VBool a) (VBool b) = sem_literal v.
Proof. destruct op, a, b; simpl; by intros [= <-]. Qed.

(** Folding two literals gives the value the operator would compute. *)
Lemma eval_binary_sound l op r v a b w :
  eval_binary_literals l op r = Some v → sem_literal l = Some a → sem_literal r = Some b →
  sem_binop op a b = Some w → sem_literal v = Some w.
Proof.
  intros Hf Ha Hb Hw. destruct l, r; simpl in *; try discriminate Hf; simplify_eq.
  - apply eval_bool_sound in Hf. congruence.
  - rewrite <- (eval_int_sound _ _ _ _ Hf). by destruct op.
  - pose proof (eval_float_sound _ _ _ _ Hf) as [_ Hm].
    destruct op; try discriminate Hf; try discriminate Hw;
      rewrite <- (Hm eq_refl VNull VNull); exact Hw.
  - pose proof (eval_float_sound _ _ _ _ Hf) as [_ Hm].
    destruct op; try discriminate Hf; try discriminate Hw;
      rewrite <- (Hm eq_refl VNull VNull); exact Hw.
  - apply eval_float_sound in Hf as [-> _]. by destruct op.
  - rewrite <- (eval_string_sound _ _ _ _ Hf). by destruct op.
Qed.

(** ** Operators *)

Lemma e_bool_inv b e : e_bool b e = true → e = ELit (LBool b).
Proof. destruct e; try done. destruct v; try done. simpl. by intros ->%eqb_prop. Qed.

Lemma e_int_inv i e : e_int i e = true → e = ELit (LInt64 i).
Proof. destruct e; try done. destruct v; try done. simpl. by intros ->%Z.eqb_eq. Qed.

Lemma e_const_inv e i : e_const e = Some i → e = ELit (LInt64 i).
Proof. destruct e; try done. destruct v; try done. simpl. by intros [= ->]. Qed.

Lemma i64_result_Some z v : i64_result z = Some v → v = VInt z ∧ in_i64 z = true.
Proof. unfold i64_result. case_match; naive_solver. Qed.

Lemma i64_result_ok z : in_i64 z = true → i64_result z = Some (VInt z).
Proof. unfold i64_result. by intros ->. Qed.

(** The arithmetic operators on an operand and an integer constant. *)
Lemma sem_int_const op a c w :
  arithmetic op = true → sem_binop op a (VInt c) = Some w →
  (a = VNull ∧ w = VNull) ∨ ∃ i, a = VInt i ∧ sem_int (other := other) op i c = Some w.
Proof. intros Ha H. destruct op; try discriminate Ha; destruct a; simpl in H; try discriminate H; simplify_eq; eauto. Qed.

Lemma sem_const_int op c a w :
  arithmetic op = true → sem_binop op (VInt c) a = Some w →
  (a = VNull ∧ w = VNull) ∨ ∃ i, a = VInt i ∧ sem_int (other := other) op c i = Some w.
Proof. intros Ha H. destruct op; try discriminate Ha; destruct a; simpl in H; try discriminate H; simplify_eq; eauto. Qed.

Lemma sem_identity_int op i w :
  List.In (op, i) [(Add, 0); (Sub, 0); (Mul, 1); (Div, 1)] →
  ∀ a, sem_binop op a (VInt i) = Some w → a = w.
Proof.
  intros Hin a H.
  assert (Ha : arithmetic op = true) by (simpl in Hin; naive_solver).
  destruct (sem_int_const _ _ _ _ Ha H) as [[-> ->]|(j & -> & Hs)]; [done|].
  simpl in Hin. destruct Hin as [[= <- <-]|[[= <- <-]|[[= <- <-]|[[= <- <-]|[]]]]]; simpl in Hs;
    apply i64_result_Some in Hs as [-> _]; f_equal; rewrite ?Z.quot_1_r; lia.
Qed.

Lemma sem_identity_int_left op i w :
  List.In (op, i) [(Add, 0); (Mul, 1)] → ∀ a, sem_binop op (VInt i) a = Some w → a = w.
Proof.
  intros Hin a H.
  assert (Ha : arithmetic op = true) by (simpl in Hin; naive_solver).
  destruct (sem_const_int _ _ _ _ Ha H) as [[-> ->]|(j & -> & Hs)]; [done|].
  simpl in Hin. destruct Hin as [[= <- <-]|[[= <- <-]|[]]]; cbn [sem_int] in Hs;
    apply i64_result_Some in Hs as [-> _]; f_equal; lia.
Qed.

Lemma tidentity_sound op l r kl env a b w :
  tidentity op l r = Some kl → eval l env = Some a → eval r env = Some b →
  sem_binop op a b = Some w → eval (if kl : bool then l else r) env = Some w.
Proof.
  intros Ht Hl Hr Hw.
  assert (Hl' : kl = true → a = w → eval (if kl then l else r) env = Some w) by (by intros -> <-).
  assert (Hr' : kl = false → b = w → eval (if kl then l else r) env = Some w) by (by intros -> <-).
  unfold tidentity in Ht. destruct op; try discriminate Ht;
    repeat case_match; simplify_eq;
    repeat match goal with
    | H : e_bool _ _ = true |- _ => apply e_bool_inv in H; subst
    | H : e_int _ _ = true |- _ => apply e_int_inv in H; subst
    end; simpl in Hl, Hr; simplify_eq;
    first [apply Hl'; [done|] | apply Hr'; [done|]].
  all: try (eapply sem_identity_int; [|exact Hw]; simpl; tauto).
  all: try (eapply sem_identity_int_left; [|exact Hw]; simpl; tauto).
  all: match goal with
    | H : sem_binop _ ?p ?q = Some _ |- _ =>
        first [is_var p; destruct p as [|[]| | | | | |] | is_var q; destruct q as [|[]| | | | | |]]
    end; unfold sem_logic in Hw; simpl in Hw; unfold sem_logic in Hw; simpl in Hw; by simplify_eq.
Qed.

(** [(x op c) op d] and [x op e] agree when the constants combine to [e]. *)
Lemma reassoc_value op c d s x a w :
  (op = Add ∧ checked_add c d = Some s) ∨ (op = Sub ∧ checked_add c d = Some s) ∨
  (op = Mul ∧ checked_mul c d = Some s) →
  sem_binop op x (VInt c) = Some a → sem_binop op a (VInt d) = Some w →
  sem_binop op x (VInt s) = Some w.
Proof.
  intros Hop Hx Ha.
  assert (Har : arithmetic op = true) by naive_solver.
  destruct (sem_int_const _ _ _ _ Har Hx) as [[-> ->]|(i & -> & Hi)].
  { destruct op; try discriminate Har; simpl in *; congruence. }
  destruct Hop as [[-> Hs]|[[-> Hs]|[-> Hs]]]; simpl in Hi;
    apply i64_result_Some in Hi as [-> _]; simpl in Ha;
    apply i64_result_Some in Ha as [-> Hr]; apply checked_Some in Hs as [-> _]; simpl.
  - rewrite <- i64_result_ok by done. f_equal; lia.
  - rewrite <- i64_result_ok by done. f_equal; lia.
  - rewrite <- i64_result_ok by done. f_equal; lia.
Qed.

Lemma sem_add_comm c x a :
  sem_binop Add (VInt c) x = Some a → sem_binop Add x (VInt c) = Some a.
Proof.
  intros H. destruct (sem_const_int Add c x a eq_refl H) as [[-> ->]|(i & -> & Hi)]; [done|].
  simpl in *. by rewrite Z.add_comm.
Qed.

Lemma treassoc_sound op l r e env a b w :
  treassoc op l r = Some e → eval l env = Some a → eval r env = Some b →
  sem_binop op a b = Some w → eval e env = Some w.
Proof.
  intros Ht Hl Hr Hw. unfold treassoc in Ht.
  destruct (e_const r) as [d|] eqn:Hd; [|done]. apply e_const_inv in Hd as ->.
  simpl in Hr. injection Hr as <-.
  destruct op; try discriminate Ht; destruct l as [x o y| | | | | | | | | |]; try discriminate Ht;
    destruct o; try discriminate Ht;
    cbn [OptSem.eval] in Hl; apply bind_Some in Hl as (vx & Hx & Hl);
    apply bind_Some in Hl as (vy & Hy & Hl).
  - destruct (e_const y ≫= _) as [s|] eqn:Hs.
    + apply bind_Some in Hs as (c & Hc & Hs). apply e_const_inv in Hc as ->.
      injection Hy as <-. injection Ht as <-. simpl. rewrite Hx. simpl.
      by eapply (reassoc_value Add); [left| |]; eauto.
    + apply bind_Some in Ht as (s & Hs' & [= <-]).
      apply bind_Some in Hs' as (c & Hc & Hs'). apply e_const_inv in Hc as ->.
      injection Hx as <-. simpl. rewrite Hy. simpl. apply sem_add_comm in Hl.
      by eapply (reassoc_value Add); [left| |]; eauto.
  - apply bind_Some in Ht as (s & Hs' & [= <-]).
    apply bind_Some in Hs' as (c & Hc & Hs'). apply e_const_inv in Hc as ->.
    injection Hy as <-. simpl. rewrite Hx. simpl.
    by eapply (reassoc_value Sub); [right; left| |]; eauto.
  - apply bind_Some in Ht as (s & Hs' & [= <-]).
    apply bind_Some in Hs' as (c & Hc & Hs'). apply e_const_inv in Hc as ->.
    injection Hy as <-. simpl. rewrite Hx. simpl.
    by eapply (reassoc_value Mul); [right; right| |]; eauto.
Qed.

Lemma tfold_bin_sound op l r env a b w :
  eval l env = Some a → eval r env = Some b → sem_binop op a b = Some w →
  eval (tfold_bin l op r) env = Some w.
Proof.
  intros Hl Hr Hw. unfold tfold_bin. destruct (eval_literals l op r) as [v|] eqn:Hv.
  { destruct l, r; try discriminate Hv. simpl in *. by eapply eval_binary_sound. }
  destruct (tidentity op l r) as [kl|] eqn:Hi; [by eapply tidentity_sound|].
  destruct (treassoc op l r) as [e|] eqn:He; simpl; [by eapply treassoc_sound|].
  by rewrite Hl, Hr.
Qed.

Lemma sem_neg_neg a b w :
  sem_unop Neg a = Some b → sem_unop Neg b = Some w → a = w.
Proof.
  destruct a; simpl; try discriminate.
  - by intros [= <-] [= <-].
  - intros [-> _]%i64_result_Some. simpl. intros [-> _]%i64_result_Some. f_equal. lia.
  - intros [= <-] [= <-]. by rewrite f64_neg_neg.
Qed.

Lemma sem_not_not a b w :
  sem_unop Not a = Some b → sem_unop Not b = Some w → a = w.
Proof. destruct a as [|[]| | | | | |]; simpl; try discriminate; intros [= <-]; simpl; by intros [= <-]. Qed.

Lemma tfold_un_sound op e env a w :
  eval e env = Some a → sem_unop op a = Some w → eval (tfold_un op e) env = Some w.
Proof.
  intros He Hw.
  assert (Hu : eval (EUn op e) env = Some w) by (simpl; by rewrite He).
  unfold tfold_un. destruct op, e; try exact Hu.
  - cbn [OptSem.eval] in He. apply bind_Some in He as (x & Hx & He).
    destruct op; try exact Hu. rewrite Hx. f_equal. by eapply sem_not_not.
  - destruct v; try exact Hu; simpl in *; by simplify_eq.
  - cbn [OptSem.eval] in He. apply bind_Some in He as (x & Hx & He).
    destruct op; try exact Hu. rewrite Hx. f_equal. by eapply sem_neg_neg.
  - destruct v; try exact Hu.
    + destruct (checked_neg i) as [j|] eqn:Hj; [|exact Hu].
      apply checked_Some in Hj as [-> Hj]. injection He as <-. simpl in *. congruence.
    + destruct (is_finite _); exact Hu.
  - destruct v; try exact Hu; simpl in *; by simplify_eq.
  - destruct v; try exact Hu; simpl in *; by simplify_eq.
Qed.

(** ** CASE and comprehensions *)

(** [o] is at most as defined as [o']. *)
Definition le_opt {A} (o o' : option A) : Prop := ∀ x, o = Some x → o' = Some x.

Lemma le_bind {A B} (o o' : option A) (f f' : A → option B) :
  le_opt o o' → (∀ x, le_opt (f x) (f' x)) → le_opt (o ≫= f) (o' ≫= f').
Proof. intros Ho Hf y (x & Hx & Hy)%bind_Some. rewrite (Ho _ Hx). simpl. by apply Hf. Qed.

Lemma le_refl {A} (o : option A) : le_opt o o.
Proof. by intros x. Qed.

Lemma le_fmap {A B} (f : A → B) o o' : le_opt o o' → le_opt (f <$> o) (f <$> o').
Proof. intros Ho y (x & Hx & ->)%fmap_Some. by rewrite (Ho _ Hx). Qed.

Lemma le_holds o o' : le_opt o o' → le_opt (holds o) (holds o').
Proof. intros H. apply le_bind; [done|]. intros x. apply le_refl. Qed.

Lemma le_mapM {A B} (f : A → option B) (g : A → A) l :
  All (λ e, le_opt (f e) (f (g e))) l → le_opt (mapM f l) (mapM f (map g l)).
Proof.
  induction l as [|x l IH]; [intros _; apply le_refl|]. intros [Hx Hl]. simpl.
  apply le_bind; [done|]. intros y. apply le_bind; [by apply IH|]. intros ys. apply le_refl.
Qed.

Lemma le_comprehend {X} (keep keep' out out' : X → option val) xs :
  (∀ x, le_opt (keep x) (keep' x)) → (∀ x, le_opt (out x) (out' x)) →
  le_opt (comprehend keep out xs) (comprehend keep' out' xs).
Proof.
  intros Hk Ho. induction xs as [|x xs IH]; [apply le_refl|]. simpl.
  apply le_bind; [by apply le_holds|]. intros [|]; [|done].
  apply le_bind; [done|]. intros y. apply le_bind; [done|]. intros ys. apply le_refl.
Qed.

Lemma le_case {A} (cond res : A → option val) (g : A → A) els els' bs :
  All (λ b, le_opt (cond b.1) (cond (g b.1)) ∧ le_opt (res b.2) (res (g b.2))) bs →
  le_opt els els' →
  le_opt (sem_case cond res els bs) (sem_case cond res els' (map (on_pair g) bs)).
Proof.
  intros Hbs Hels. induction bs as [|[w t] bs IH]; [done|]. destruct Hbs as [[Hw Ht] Hbs]. simpl in *.
  apply le_bind; [by apply le_holds|]. intros [|]; [done|]. by apply IH.
Qed.

(** What [cut] keeps of a searched CASE. *)
Lemma sem_case_cut env els bs kept :
  let ev e := eval e env in
  match cut bs kept with
  | (k, None) => le_opt (sem_case ev ev els (kept ++ bs)) (sem_case ev ev els k)
  | (k, Some hit) => k = [] → le_opt (sem_case ev ev els bs) (ev hit)
  end ∧ (∃ k', (cut bs kept).1 = kept ++ k').
Proof.
  intros ev. revert kept. induction bs as [|[w t] bs IH]; intros kept; simpl.
  { rewrite app_nil_r. split; [apply le_refl|]. exists []. by rewrite app_nil_r. }
  destruct (e_bool true w) eqn:Hw.
  { apply e_bool_inv in Hw as ->. split; [intros ->; apply le_refl|]. exists []. by rewrite app_nil_r. }
  destruct (e_bool false w) eqn:Hw'.
  { apply e_bool_inv in Hw' as ->. destruct (IH kept) as [H1 H2]. split; [|done].
    destruct (cut bs kept) as [k [hit|]]; [exact H1|].
    assert (E : ∀ l, sem_case ev ev els (l ++ (ELit (LBool false), t) :: bs) = sem_case ev ev els (l ++ bs)).
    { intros l. induction l as [|[w0 t0] l IHl]; [done|]. simpl. by rewrite IHl. }
    rewrite E. exact H1. }
  destruct (IH (kept ++ [(w, t)])) as [H1 (k' & H2)]. split.
  - destruct (cut bs (kept ++ [(w, t)])) as [k [hit|]] eqn:Hc.
    + simpl in H2. intros ->. destruct kept; discriminate H2.
    + rewrite <- app_assoc in H1. exact H1.
  - exists ((w, t) :: k'). by rewrite H2, <- app_assoc.
Qed.

Lemma tfold_case_sound o bs els env :
  match o, cut bs [] with None, (_ :: _, Some _) => false | _, _ => true end = true →
  le_opt (eval (ECase o bs els) env) (eval (tfold_case o bs els) env).
Proof.
  intros Hok. unfold tfold_case, tfold_branches. destruct o as [o|].
  { destruct bs as [|b bs]; [|apply le_refl]. simpl. intros v (x & _ & Hv)%bind_Some.
    by destruct els. }
  pose proof (sem_case_cut env (match els with Some e => eval e env | None => Some VNull end) bs [])
    as [H _].
  destruct (cut bs []) as [kept [hit|]].
  - destruct kept; [|done]. by apply H.
  - destruct kept as [|b kept]; simpl in *; [|exact H].
    intros v Hv. apply H in Hv. by destruct els.
Qed.

Lemma le_eval_opt o d env :
  All_opt (λ e, ∀ env, cases_ok e = true → le_opt (eval e env) (eval (tfold e) env)) o →
  on_opt cases_ok o = true →
  le_opt (match o with Some e => eval e env | None => d end)
    (match option_map tfold o with Some e => eval e env | None => d end).
Proof. destruct o as [e|]; simpl; [auto|]. intros _ _. apply le_refl. Qed.

Lemma All_forallb {A} (P : A → Prop) (f : A → bool) (Q : A → Prop) l :
  All P l → forallb f l = true → (∀ x, P x → f x = true → Q x) → All Q l.
Proof.
  intros HP Hf H. induction l as [|x l IH]; [done|]. simpl in *.
  destruct HP. apply andb_prop in Hf as [??]. auto.
Qed.

Lemma eval_tfold_sound e : ∀ env, cases_ok e = true → le_opt (eval e env) (eval (tfold e) env).
Proof.
  induction e as [l op r IHl IHr|op e IH|name args IH|o bs els IHo IHbs IHels|var l f m IHl IHf IHm
    |path f p IHf IHp|items IH|t p IH| | |] using expr_induction;
    intros env Hok; cbn [cases_ok] in Hok; bool_to_prop; try apply le_refl.
  - intros v (a & Ha & (b & Hb & Hv)%bind_Some)%bind_Some.
    eapply tfold_bin_sound; [by apply IHl|by apply IHr|done].
  - intros v (a & Ha & Hv)%bind_Some. eapply tfold_un_sound; [by apply IH|done].
  - apply le_bind; [|intros; apply le_refl]. apply le_mapM. eapply All_forallb; [exact IH|done|].
    simpl. auto.
  - cbn [tfold]. unfold case_ok in *.
    intros v Hv. apply tfold_case_sound.
    { destruct o; [done|]. simpl. by destruct (cut _ _) as [[] []]. }
    revert v Hv. simpl.
    assert (Hels : le_opt (match els with Some e => eval e env | None => Some VNull end)
      (match option_map tfold els with Some e => eval e env | None => Some VNull end))
      by (by apply le_eval_opt).
    assert (Hbs : All (λ b, le_opt (eval b.1 env) (eval (tfold b.1) env) ∧
      le_opt (eval b.2 env) (eval (tfold b.2) env)) bs).
    { eapply All_forallb; [exact IHbs|done|]. intros b [L1 L2] [??]%andb_prop. auto. }
    destruct o as [o|]; simpl in *; [|by apply le_case].
    apply le_bind; [by apply IHo|]. intros x. apply le_case; [|done].
    eapply All_impl; [|exact Hbs]. intros b [L1 L2]. split; [|done].
    apply le_bind; [done|]. intros. apply le_refl.
  - simpl. apply le_bind; [by apply IHl|]. intros [| | | | |vs| |]; try apply le_refl.
    apply le_fmap, le_comprehend; intros v.
    + by apply (le_eval_opt f (Some (VBool true))).
    + by apply (le_eval_opt m (Some v)).
  - simpl. apply le_bind; [apply le_refl|]. intros envs.
    apply le_fmap, le_comprehend; intros v; [|by apply IHp].
    by apply (le_eval_opt f (Some (VBool true))).
  - apply le_fmap, le_mapM. eapply All_forallb; [exact IH|done|]. simpl. auto.
Qed.

(** ** Theorems *)

(** C1: constant folding, as the optimizer runs it on the arena, preserves
    meaning: whenever the expression of a handle has a value (under any database
    functions, parameters and environment), the expression of the handle that
    [fold_expression] returns has the same value - null, error and
    short-circuit cases of three-valued logic included.  The expression is a tree
    without EXISTS and COUNT subqueries, the arena has room for what folding appends
    below the null handle, and no searched CASE in it has a constantly true branch
    behind one that stays: that one folds to the wrong result ([case_fold_wrong]). *)
Theorem fold_expression_preserves_value n a h e :
  read n a h = Some e → arena_len a + budget e <= U32_MAX → cases_ok e = true →
  ∃ h' a' e', fold_expression n h a = Ok (h', a') ∧ read n a' h' = Some e' ∧
    ∀ env v, eval e env = Some v → eval e' env = Some v.
Proof.
  intros Hr Hl Hok. destruct (fold_sim n a h e Hr Hl) as (h' & a' & Hf & _ & _ & Hr').
  exists h', a', (tfold e). split; [done|]. split; [done|].
  intros env v. by apply eval_tfold_sound.
Qed.
End preservation.

(** The witness: [(x + 10) + 20 > 5 AND true] in an environment with [x = 1]. *)
Definition sum_arena : QueryAstArena :=
  mkArena [Identifier "x"; Literal (LInt64 10); BinaryExpression 0 Add 1; Literal (LInt64 20);
           BinaryExpression 2 Add 3; Literal (LInt64 5); BinaryExpression 4 Gt 5;
           Literal (LBool true); BinaryExpression 6 And 7].

Definition sum_expr : expr :=
  EBin (EBin (EBin (EBin (EId "x") Add (ELit (LInt64 10))) Add (ELit (LInt64 20))) Gt
    (ELit (LInt64 5))) And (ELit (LBool true)).

Definition no_params (p : string) : option val := None.
Definition no_property (v : val) (p : string) : option val := None.
Definition no_call (name : string) (args : list val) : option val := None.
Definition no_pattern (h : NodeHandle) (env : Env) : option (list Env) := None.
Definition no_other (op : BinaryOp) (a b : val) : option val := None.

Lemma fold_expression_preserves_value_witness :
  ∃ h' a' e', fold_expression 5 8 sum_arena = Ok (h', a') ∧ read 5 a' h' = Some e' ∧
    ∀ env v,
      @eval no_params no_property no_call no_pattern no_other sum_expr env = Some v →
      @eval no_params no_property no_call no_pattern no_other e' env = Some v.
Proof.
  apply (fold_expression_preserves_value 5 sum_arena 8 sum_expr); [reflexivity|discriminate|reflexivity].
Defined.

(** ** What it does not preserve *)

(** [CASE WHEN x THEN 1 WHEN true THEN 2 END]. *)
Definition wrong_case_arena : QueryAstArena :=
  mkArena [Identifier "x"; Literal (LInt64 1); Literal (LBool true); Literal (LInt64 2);
           CaseExpression None [(0, 1); (2, 3)] None].

(** A constantly true branch behind another one makes the fold drop the
    earlier branch: [CASE WHEN x THEN 1 WHEN true THEN 2 END] becomes [2], and
    where [x] is true its value changes from 1 to 2. *)
Theorem case_fold_wrong :
  ∃ a' e, fold_expression 2 4 wrong_case_arena = Ok (3, a') ∧
    read 2 wrong_case_arena 4 = Some e ∧ read 2 a' 3 = Some (ELit (LInt64 2)) ∧
    @eval no_params no_property no_call no_pattern no_other e {["x" := VBool true]} = Some (VInt 1).
Proof. eexists _, _. repeat split; vm_compute; reflexivity. Qed.

(** Reassociation rounds once where the query rounds twice: [(x + 1) + 2] is
    [x + 3], and at [x = 2^53] the two sums differ. *)
Lemma reassociation_changes_floats :
  tfold (EBin (EBin (EId "x") Add (ELit (LInt64 1))) Add (ELit (LInt64 2))) =
    EBin (EId "x") Add (ELit (LInt64 3)) ∧
  let x := i64_as_f64 (2 ^ 53) in
  f64_add (f64_add x (i64_as_f64 1)) (i64_as_f64 2) ≠ f64_add x (i64_as_f64 3).
Proof. split; [reflexivity|]. vm_compute. discriminate. Qed.
