(* ===== verification/Pushdown.v ===== *)
(** * Predicate pushdown keeps the filter of a query

    What pass 2 of the optimizer may do to the [WHERE] of a match clause: move
    conjuncts into node patterns of the clause, or of earlier mandatory clauses,
    so that exactly the same rows pass, and each pattern is given only conjuncts
    that read its own variable and no other. *)
From S2P Require Import Prelude Bytes F64 Errors Ast ArenaShape Optimizer.

Open Scope Z_scope.
Open Scope list_scope.

(** ** The filter of a match clause *)

Notation node_at a h := (nodes a !! Z.to_nat h).

(** [path_pred a p x]: [x] is an inlined predicate of a pattern of the path [p]. *)
Inductive path_pred (a : QueryAstArena) : NodeHandle → NodeHandle → Prop :=
| pp_node p v l ps x : node_at a p = Some (NodePattern v l ps) → x ∈ ps → path_pred a p x
| pp_start p v m s es x : node_at a p = Some (PathChain v m s es) → path_pred a s x → path_pred a p x
| pp_edge p v m s es e v' l d lo hi ps t x :
    node_at a p = Some (PathChain v m s es) → e ∈ es →
    node_at a e = Some (EdgePattern v' l d lo hi ps t) → x ∈ ps → path_pred a p x
| pp_target p v m s es e v' l d lo hi ps t x :
    node_at a p = Some (PathChain v m s es) → e ∈ es →
    node_at a e = Some (EdgePattern v' l d lo hi ps t) → path_pred a t x → path_pred a p x.

Section filter.
(** Which predicates are true of a row. *)
Variable truth : NodeHandle → Prop.

(** The valuation respects conjunctions, [WHERE] wrappers and constant [true]. *)
Definition consistent (a : QueryAstArena) : Prop :=
  ∀ h, match node_at a h with
       | Some (BinaryExpression l And r) => truth h ↔ truth l ∧ truth r
       | Some (WhereClause root) => truth h ↔ truth root
       | Some (Literal (LBool true)) => truth h
       | _ => True
       end.

Definition paths_pass (a : QueryAstArena) (paths : list NodeHandle) : Prop :=
  ∀ p x, p ∈ paths → path_pred a p x → truth x.
Definition where_passes (w : option NodeHandle) : Prop :=
  match w with Some w => truth w | None => True end.

(** The row passes the match clause [h]. *)
Definition clause_passes (a : QueryAstArena) (h : NodeHandle) : Prop :=
  match node_at a h with
  | Some (MatchClause _ paths w) => paths_pass a paths ∧ where_passes w
  | _ => True
  end.
End filter.

Definition mandatory (a : QueryAstArena) (h : NodeHandle) : bool :=
  match node_at a h with Some (MatchClause false _ _) => true | _ => false end.

(** The clauses a conjunct of [h] may move to: [h] alone when it is optional. *)
Definition scope (a : QueryAstArena) (h : NodeHandle) (candidates : list NodeHandle) :
    list NodeHandle :=
  h :: (if mandatory a h then List.filter (mandatory a) (drop 1 (reverse candidates)) else []).

(** ** Which conjunct may go to which pattern *)

Definition is_pattern (n : AstNode) : bool := match n with NodePattern _ _ _ => true | _ => false end.

(** The variables an expression reads, by name or through the pattern that binds them,
    anywhere in it, its subqueries included. *)
Inductive reads (a : QueryAstArena) : NodeHandle → string → Prop :=
| reads_name h x : node_at a h = Some (Identifier x) → reads a h x
| reads_bound h x l ps : node_at a h = Some (NodePattern (Some x) l ps) → reads a h x
| reads_part h node c x :
    node_at a h = Some node → is_pattern node = false → c ∈ children node → reads a c x → reads a h x.

(** The conjuncts of a predicate. *)
Inductive conjunct (a : QueryAstArena) : NodeHandle → NodeHandle → Prop :=
| conjunct_self c : conjunct a c c
| conjunct_left h l r c : node_at a h = Some (BinaryExpression l And r) → conjunct a l c → conjunct a h c
| conjunct_right h l r c : node_at a h = Some (BinaryExpression l And r) → conjunct a r c → conjunct a h c
| conjunct_where h root c : node_at a h = Some (WhereClause root) → conjunct a root c → conjunct a h c.

(** [c] is a conjunct of the [WHERE] of [h] that reads the variable [v], and only that. *)
Definition movable (a : QueryAstArena) (h : NodeHandle) (v : option string) (c : NodeHandle) : Prop :=
  (∃ o ps w, node_at a h = Some (MatchClause o ps (Some w)) ∧ conjunct a w c) ∧
  ∃ x, v = Some x ∧ ∀ y, reads a c y ↔ y = x.

(** ** Computations that only read *)

Definition readonly {A} (m : AM A) : Prop := ∀ a x a', m a = Ok (x, a') → a' = a.

Lemma AM_bind_Ok {A B} (m : AM A) (f : A → AM B) a y a' :
  (m ≫= f) a = Ok (y, a') → ∃ x a1, m a = Ok (x, a1) ∧ f x a1 = Ok (y, a').
Proof. unfold mbind, AM_bind. destruct (m a) as [[x a1]|]; [eauto|done]. Qed.

Lemma readonly_bind {A B} (m : AM A) (f : A → AM B) :
  readonly m → (∀ x, readonly (f x)) → readonly (m ≫= f).
Proof. intros Hm Hf a y a' (x & a1 & <-%Hm & H2)%AM_bind_Ok. by eapply Hf. Qed.

Lemma readonly_ret {A} (x : A) : readonly (mret x).
Proof. intros a y a' [= _ ->]. done. Qed.

Lemma readonly_get h : readonly (get h).
Proof. intros a y a'. unfold get. case_match; naive_solver. Qed.

Lemma readonly_fuel {A} : readonly (@out_of_fuel A).
Proof. intros a y a' H. discriminate H. Qed.

Create HintDb readonly.
#[export] Hint Resolve readonly_ret readonly_get readonly_fuel readonly_bind : readonly.

Lemma readonly_all_each {A} (f : A → AM bool) l : (∀ x, readonly (f x)) → readonly (all_each f l).
Proof.
  intros H. induction l as [|x l IH]; simpl; [auto with readonly|].
  apply readonly_bind; [done|]. intros []; auto with readonly.
Qed.
#[export] Hint Resolve readonly_all_each : readonly.

Lemma is_constant_readonly n h : readonly (is_constant_expression n h).
Proof.
  revert h. induction n as [|n IH]; intros h; simpl; [auto with readonly|].
  apply readonly_bind; [auto with readonly|]. intros []; auto with readonly.
Qed.
#[export] Hint Resolve is_constant_readonly : readonly.

Lemma resolve_readonly h : readonly (resolve_variable_name h).
Proof. apply readonly_bind; [auto with readonly|]. intros []; auto with readonly. Qed.
#[export] Hint Resolve resolve_readonly : readonly.

Lemma extract_readonly n h : readonly (extract_single_node_equality_var n h).
Proof.
  apply readonly_bind; [auto with readonly|]. intros node.
  destruct node; auto with readonly. destruct op; auto with readonly.
  apply readonly_bind; [auto with readonly|]. intros left_node.
  apply readonly_bind; [auto with readonly|]. intros right_node.
  apply readonly_bind; [destruct left_node; auto with readonly|]. intros case_a.
  destruct left_node, case_a; auto with readonly; destruct right_node; auto with readonly;
    (apply readonly_bind; [auto with readonly|]; intros []; auto with readonly).
Qed.

Lemma get_Ok h a node a' : get h a = Ok (node, a') → a' = a ∧ node_at a h = Some node.
Proof. unfold get, arena_get. destruct (node_at a h); simpl; naive_solver. Qed.

(** [collect_conjuncts] lists predicates that together mean the handle. *)
Lemma collect_conjuncts_spec truth n h acc a cs a' :
  collect_conjuncts n h acc a = Ok (cs, a') →
  a' = a ∧ ∃ new, cs = acc ++ new ∧ (consistent truth a → (truth h ↔ ∀ c, c ∈ new → truth c)) ∧
    ∀ c, c ∈ new → conjunct a h c.
Proof.
  revert h acc a cs a'. induction n as [|n IH]; intros h acc a cs a' H; [done|].
  cbn [collect_conjuncts] in H.
  apply AM_bind_Ok in H as (node & a1 & [-> Hn]%get_Ok & H).
  assert (Hself : Ok (E := stop) (acc ++ [h], a) = Ok (cs, a') →
    a' = a ∧ ∃ new, cs = acc ++ new ∧ (consistent truth a → (truth h ↔ ∀ c, c ∈ new → truth c)) ∧
      ∀ c, c ∈ new → conjunct a h c).
  { intros [= <- <-]. split; [done|]. exists [h]. setoid_rewrite list_elem_of_singleton. split; [done|].
    split; [naive_solver|]. intros c ->. constructor. }
  destruct node; try (by apply Hself).
  - destruct op; try (by apply Hself).
    apply AM_bind_Ok in H as (cs1 & a1 & H1 & H2).
    apply IH in H1 as [-> (n1 & -> & T1 & C1)]. apply IH in H2 as [-> (n2 & -> & T2 & C2)].
    split; [done|]. exists (n1 ++ n2). split; [by rewrite app_assoc|]. setoid_rewrite elem_of_app. split.
    + intros Hc. pose proof (Hc h) as Hh. rewrite Hn in Hh. rewrite Hh, T1, T2 by done. naive_solver.
    + intros c [Hc|Hc]; [eapply conjunct_left|eapply conjunct_right]; eauto.
  - destruct value; try (by apply Hself). destruct b; try (by apply Hself).
    injection H as <- <-. split; [done|]. exists []. split; [by rewrite app_nil_r|].
    setoid_rewrite elem_of_nil. split; [|done]. intros Hc. pose proof (Hc h) as Hh. by rewrite Hn in Hh.
  - apply IH in H as [-> (new & -> & T & C)]. split; [done|]. exists new. split; [done|]. split.
    + intros Hc. pose proof (Hc h) as Hh. rewrite Hn in Hh. by rewrite Hh, T.
    + intros c Hc. eapply conjunct_where; eauto.
Qed.

(** *** What an equality of one variable reads *)
Lemma all_each_true {A} (f : A → AM bool) l a a' :
  (∀ x, readonly (f x)) → all_each f l a = Ok (true, a') → ∀ x, x ∈ l → f x a = Ok (true, a).
Proof.
  intros Hf. induction l as [|y l IH]; intros H x Hx; [by apply not_elem_of_nil in Hx|].
  cbn [all_each] in H. apply AM_bind_Ok in H as (b & a1 & H1 & H2). pose proof (Hf _ _ _ _ H1) as ->.
  destruct b; [|done]. apply elem_of_cons in Hx as [->|Hx]; [done|by apply IH].
Qed.

Lemma reads_inv a h node y :
  node_at a h = Some node →
  reads a h y ↔ match node with
                | Identifier x => y = x
                | NodePattern v _ _ => v = Some y
                | _ => ∃ c, c ∈ children node ∧ reads a c y
                end.
Proof.
  intros Hn. split.
  - destruct 1 as [h x E|h x l ps E|h nd c x E Hp Hc Hx]; rewrite Hn in E; injection E as ->; try done.
    destruct nd; try done; eauto. by apply not_elem_of_nil in Hc.
  - destruct node; try (intros (c & Hc & Hy); by eapply reads_part).
    + intros ->. by eapply reads_bound.
    + intros ->. by eapply reads_name.
Qed.

Lemma constant_reads n h a a' y : is_constant_expression n h a = Ok (true, a') → ¬ reads a h y.
Proof.
  revert h a'. induction n as [|n IH]; intros h a' H; [done|]. cbn [is_constant_expression] in H.
  apply AM_bind_Ok in H as (node & a1 & [-> Hn]%get_Ok & H). rewrite (reads_inv _ _ _ _ Hn).
  pose proof (λ l a', all_each_true (is_constant_expression n) l a a' (is_constant_readonly n)) as Hall.
  destruct node; try done; cbn [children]; intros (c & Hc & Hy).
  - apply list_elem_of_singleton in Hc as ->. by eapply IH.
  - eapply IH; [|exact Hy]. by eapply Hall.
  - eapply IH; [|exact Hy]. by eapply Hall.
  - by apply not_elem_of_nil in Hc.
  - by apply not_elem_of_nil in Hc.
Qed.

Lemma resolve_reads h a x a' : resolve_variable_name h a = Ok (Some x, a') → ∀ y, reads a h y ↔ y = x.
Proof.
  intros H y. unfold resolve_variable_name in H. apply AM_bind_Ok in H as (node & a1 & [-> Hn]%get_Ok & H).
  rewrite (reads_inv _ _ _ _ Hn). destruct node; try done; injection H as -> _; naive_solver.
Qed.

Lemma extract_reads n c a x a' :
  extract_single_node_equality_var n c a = Ok (Some x, a') → ∀ y, reads a c y ↔ y = x.
Proof.
  intros H y. unfold extract_single_node_equality_var in H.
  apply AM_bind_Ok in H as (node & a1 & [-> Hn]%get_Ok & H). rewrite (reads_inv _ _ _ _ Hn).
  destruct node; try done. destruct op; try done. rename left into l, right into r.
  apply AM_bind_Ok in H as (ln & a1 & [-> Hl]%get_Ok & H). apply AM_bind_Ok in H as (rn & a1 & [-> Hr]%get_Ok & H).
  apply AM_bind_Ok in H as (ca & a1 & Hca & H).
  assert (a1 = a) as ->.
  { destruct ln; try (by injection Hca as _ ->). by eapply is_constant_readonly. }
  cbn [children].
  assert (∀ t p, node_at a l = Some (PropertyAccess t p) → reads a l y ↔ reads a t y) as Ht1.
  { intros t p E. rewrite (reads_inv _ _ _ _ E). cbn [children]. setoid_rewrite list_elem_of_singleton. naive_solver. }
  assert (∀ t p, node_at a r = Some (PropertyAccess t p) → reads a r y ↔ reads a t y) as Ht2.
  { intros t p E. rewrite (reads_inv _ _ _ _ E). cbn [children]. setoid_rewrite list_elem_of_singleton. naive_solver. }
  assert ((∃ c, c ∈ [l; r] ∧ reads a c y) ↔ reads a l y ∨ reads a r y) as -> by (split; [|set_solver]; set_solver).
  assert (∀ t p, ln = PropertyAccess t p → ca = true → resolve_variable_name t a = Ok (Some x, a') →
    reads a l y ∨ reads a r y ↔ y = x) as Hleft.
  { intros t p -> -> Hres. rewrite (Ht1 _ _ Hl), (resolve_reads _ _ _ _ Hres y). pose proof (constant_reads _ _ _ _ y Hca). tauto. }
  assert (∀ a', (match rn with
     | PropertyAccess target _ =>
         case_b ← is_constant_expression n l; if case_b : bool then resolve_variable_name target else mret None
     | _ => mret None end) a = Ok (Some x, a') → reads a l y ∨ reads a r y ↔ y = x) as Hright.
  { intros b Hb. destruct rn; try done. rename target into t, property into p.
    apply AM_bind_Ok in Hb as (cb & a1 & Hcb & Hb). pose proof (is_constant_readonly _ _ _ _ _ Hcb) as ->.
    destruct cb; [|done]. rewrite (Ht2 _ _ Hr), (resolve_reads _ _ _ _ Hb y). pose proof (constant_reads _ _ _ _ y Hcb). tauto. }
  destruct ln, ca; try (by eapply Hright); by eapply Hleft.
Qed.

(** ** One hoist *)

(** The predicate [c] was appended to the node pattern [q] of the variable [v]. *)
Definition pushed (v : string) (a : QueryAstArena) (q : NodeHandle) (c : NodeHandle) (a' : QueryAstArena) : Prop :=
  ∃ l ps, node_at a q = Some (NodePattern (Some v) l ps) ∧
          a' = arena_set a q (NodePattern (Some v) l (ps ++ [c])).

(** What a search that hoists at most once does: [f x] leaves the arena alone
    when it fails, and [good x] holds when it succeeds. *)
Definition one_hoist {A} (good : A → QueryAstArena → QueryAstArena → Prop) (f : A → AM bool) : Prop :=
  ∀ x a (b : bool) a', f x a = Ok (b, a') → if b then good x a a' else a' = a.

Lemma one_hoist_any {A} (good : A → QueryAstArena → QueryAstArena → Prop) f l :
  one_hoist good f → ∀ a (b : bool) a', any_each f l a = Ok (b, a') →
  if b then ∃ x, x ∈ l ∧ good x a a' else a' = a.
Proof.
  intros Hf. induction l as [|x l IH]; intros a b a' H.
  { injection H as <- <-. done. }
  cbn [any_each] in H. apply AM_bind_Ok in H as (b1 & a1 & H1 & H2). apply Hf in H1.
  destruct b1.
  - injection H2 as <- <-. exists x. split; [set_solver|done].
  - subst a1. apply IH in H2. destruct b; [|done].
    destruct H2 as (y & Hy & Hg). exists y. split; [set_solver|done].
Qed.

Lemma arena_set_lookup a q node i :
  is_Some (node_at a q) →
  node_at (arena_set a q node) i = if decide (Z.to_nat i = Z.to_nat q) then Some node else node_at a i.
Proof.
  intros Hs. unfold arena_set. cbn [nodes]. case_decide as Hi.
  - rewrite Hi. apply list_lookup_insert_eq. by apply lookup_lt_is_Some.
  - by apply list_lookup_insert_ne.
Qed.

(** A push changes one node, in its predicates. *)
Lemma pushed_lookup v a q c a' i :
  pushed v a q c a' →
  node_at a' i = node_at a i ∨
  ∃ l ps, node_at a i = Some (NodePattern (Some v) l ps) ∧ node_at a' i = Some (NodePattern (Some v) l (ps ++ [c])).
Proof.
  intros (l & ps & Hq & ->). rewrite arena_set_lookup by eauto. case_decide as Hi; [|by left].
  right. rewrite Hi. eauto.
Qed.

(** Two arenas have the same nodes but for node patterns. *)
Definition keeps (a a' : QueryAstArena) : Prop :=
  ∀ i node, is_pattern node = false → node_at a i = Some node ↔ node_at a' i = Some node.

#[export] Instance keeps_equivalence : Equivalence keeps.
Proof.
  split.
  - intros a i node Hn. done.
  - intros a b H i node Hn. by rewrite (H i node Hn).
  - intros a b c H1 H2 i node Hn. by rewrite (H1 i node Hn), (H2 i node Hn).
Qed.

Lemma pushed_keeps v a q c a' : pushed v a q c a' → keeps a a'.
Proof.
  intros Hp i node Hn. destruct (pushed_lookup _ _ _ _ _ i Hp) as [->|(l & ps & E & E')]; [done|].
  rewrite E, E'. split; intros [= <-]; done.
Qed.

Lemma pushed_path_pred w a q c a' p x :
  pushed w a q c a' → path_pred a p x → path_pred a' p x.
Proof.
  intros Hp. assert (Hk : ∀ i node, node_at a i = Some node → is_pattern node = false →
    node_at a' i = Some node) by (intros ?? H ?; by apply (pushed_keeps _ _ _ _ _ Hp)).
  induction 1 as [p v l ps x H Hx|p v m s es x H _ IH|p v m s es e v' l d lo hi ps t x H He H' Hx
    |p v m s es e v' l d lo hi ps t x H He H' _ IH].
  - destruct (pushed_lookup _ _ _ _ _ p Hp) as [E|(l' & ps' & E & E')].
    + eapply pp_node; [by rewrite E|done].
    + rewrite H in E. injection E as -> <- <-. eapply pp_node; [exact E'|]. set_solver.
  - eapply pp_start; [by apply Hk|done].
  - eapply pp_edge; [by apply Hk|done|by apply Hk|done].
  - eapply pp_target; [by apply Hk|done|by apply Hk|done].
Qed.

Lemma pushed_path_pred_inv w a q c a' p x :
  pushed w a q c a' → path_pred a' p x → path_pred a p x ∨ x = c.
Proof.
  intros Hp. assert (Hk : ∀ i node, node_at a' i = Some node → is_pattern node = false →
    node_at a i = Some node) by (intros ?? H ?; by apply (pushed_keeps _ _ _ _ _ Hp)).
  induction 1 as [p v l ps x H Hx|p v m s es x H _ IH|p v m s es e v' l d lo hi ps t x H He H' Hx
    |p v m s es e v' l d lo hi ps t x H He H' _ IH].
  - destruct (pushed_lookup _ _ _ _ _ p Hp) as [E|(l' & ps' & E & E')].
    + left. eapply pp_node; [by rewrite <- E|done].
    + rewrite H in E'. injection E' as -> -> ->. apply elem_of_app in Hx as [Hx|Hx]; [|set_solver].
      left. by eapply pp_node.
  - destruct IH as [IH| ->]; [left|by right]. eapply pp_start; [by apply Hk|done].
  - left. eapply pp_edge; [by apply Hk|done|by apply Hk|done].
  - destruct IH as [IH| ->]; [left|by right]. eapply pp_target; [by apply Hk|done|by apply Hk|done].
Qed.

(** Patterns were given predicates, each of them good for the pattern's variable, and nothing
    else happened. *)
Definition moved (good : string → NodeHandle → Prop) (a a' : QueryAstArena) : Prop :=
  ∀ i, match node_at a i with
       | Some (NodePattern v l ps) =>
           ∃ new, node_at a' i = Some (NodePattern v l (ps ++ new)) ∧ ∀ c, c ∈ new → ∃ x, v = Some x ∧ good x c
       | o => node_at a' i = o
       end.

Lemma moved_refl good a : moved good a a.
Proof.
  intros i. destruct (node_at a i) as [[]|]; try done. exists []. rewrite app_nil_r. split; [done|].
  intros c Hc. by apply not_elem_of_nil in Hc.
Qed.
Lemma moved_weaken (good good' : string → NodeHandle → Prop) a a' :
  moved good a a' → (∀ x c, good x c → good' x c) → moved good' a a'.
Proof.
  intros H Hg i. specialize (H i). destruct (node_at a i) as [[]|]; try done. destruct H as (new & E & Hn).
  exists new. split; [done|]. intros c Hc. destruct (Hn c Hc) as (x & ? & ?). eauto.
Qed.
Lemma moved_trans (good1 good2 good : string → NodeHandle → Prop) a b c :
  moved good1 a b → moved good2 b c → (∀ x h, good1 x h → good x h) → (∀ x h, good2 x h → good x h) → moved good a c.
Proof.
  intros H1 H2 G1 G2 i. specialize (H1 i). specialize (H2 i). destruct (node_at a i) as [[]|]; try (by rewrite H1 in H2).
  destruct H1 as (n1 & E1 & A1). rewrite E1 in H2. destruct H2 as (n2 & E2 & A2). exists (n1 ++ n2).
  split; [by rewrite app_assoc|]. intros h [Hh|Hh]%elem_of_app;
    [destruct (A1 h Hh) as (x & ? & ?)|destruct (A2 h Hh) as (x & ? & ?)]; eauto.
Qed.
Lemma pushed_moved (good : string → NodeHandle → Prop) v a q c a' : pushed v a q c a' → good v c → moved good a a'.
Proof.
  intros (l & ps & Hq & ->) Hg i. rewrite arena_set_lookup by eauto. case_decide as Hi.
  - rewrite Hi, Hq. exists [c]. split; [done|]. intros c' ->%list_elem_of_singleton. by exists v.
  - apply (moved_refl good a i).
Qed.

(** What expressions read is what they read before. *)
Lemma moved_reads_1 good a a' h x : moved good a a' → reads a h x → reads a' h x.
Proof.
  intros Hm. induction 1 as [h x E|h x l ps E|h nd c x E Hp Hc _ IH]; pose proof (Hm h) as H; rewrite E in H.
  - by apply reads_name.
  - destruct H as (new & H & _). by eapply reads_bound.
  - eapply reads_part; [|exact Hp|exact Hc|exact IH]. by destruct nd.
Qed.
Lemma moved_reads_2 good a a' h x : moved good a a' → reads a' h x → reads a h x.
Proof.
  intros Hm. induction 1 as [h x E|h x l ps E|h nd c x E Hp Hc _ IH]; pose proof (Hm h) as H;
    destruct (node_at a h) as [nd'|] eqn:E'; try congruence.
  - assert (nd' = Identifier x) as ->; [|by apply reads_name].
    destruct nd'; try congruence. destruct H as (new & H & _). congruence.
  - destruct nd'; try congruence. destruct H as (new & H & _). rewrite E in H. injection H as <- _ _.
    by eapply reads_bound.
  - assert (nd' = nd) as ->.
    { destruct nd'; try congruence. destruct H as (new & H & _). rewrite E in H. by injection H as ->. }
    by eapply reads_part.
Qed.
Lemma moved_reads good a a' : moved good a a' → ∀ h x, reads a' h x ↔ reads a h x.
Proof. intros Hm h x. split; [by eapply moved_reads_2|by eapply moved_reads_1]. Qed.

(** [hoist_predicate_to_path] either leaves the arena or pushes the predicate
    onto a pattern of the path. *)
Definition hoisted (v : string) (c : NodeHandle) (p : NodeHandle) (a a' : QueryAstArena) : Prop :=
  ∃ q, pushed v a q c a' ∧ path_pred a' p c.

Lemma hoist_spec n v c : one_hoist (hoisted v c) (hoist_predicate_to_path n v c).
Proof.
  induction n as [|n IH]; intros p a b a' H; [done|].
  cbn [hoist_predicate_to_path] in H.
  apply AM_bind_Ok in H as (node & a1 & [-> Hn]%get_Ok & H).
  destruct node; try (by injection H as <- <-).
  - case_decide as Hv; [|by injection H as <- <-]. subst variable.
    apply AM_bind_Ok in H as ([] & a1 & H1 & [= <- <-]).
    unfold update, arena_get in H1. rewrite Hn in H1. injection H1 as <-. cbn [push_predicate].
    exists p. split; [by do 2 eexists|].
    eapply pp_node; [rewrite arena_set_lookup by eauto; by rewrite decide_True|set_solver].
  - apply AM_bind_Ok in H as (hit & a1 & H1 & H2). apply IH in H1. destruct hit.
    + injection H2 as <- <-. destruct H1 as (q & Hp & Hc). exists q. split; [done|].
      destruct (pushed_lookup _ _ _ _ _ p Hp) as [E|(? & ? & E & _)]; [|congruence].
      eapply pp_start; [by rewrite E|done].
    + subst a1.
      eapply (one_hoist_any (λ e a a', ∃ q t, pushed v a q c a' ∧ path_pred a' t c ∧
        ∃ v l d lo hi ps, node_at a' e = Some (EdgePattern v l d lo hi ps t))) in H2.
      { destruct b; [|done]. destruct H2 as (e & He & q & t & Hp & Hc & v' & l & d & lo & hi & ps & Ht).
        exists q. split; [done|].
        destruct (pushed_lookup _ _ _ _ _ p Hp) as [E|(? & ? & E & _)]; [|congruence].
        eapply pp_target; [by rewrite E|exact He|exact Ht|done]. }
      intros e a2 b2 a3 H. apply AM_bind_Ok in H as (node & a4 & [-> He]%get_Ok & H).
      destruct node; try (by injection H as <- <-).
      destruct (handle_is_null target_node); [by injection H as <- <-|].
      apply IH in H. destruct b2; [|done]. destruct H as (q & Hp & Hc).
      exists q, target_node. split; [done|]. split; [done|].
      destruct (pushed_lookup _ _ _ _ _ e Hp) as [E|(? & ? & E & _)]; [|congruence].
      rewrite E. by do 6 eexists.
Qed.

(** ** All the conjuncts of a clause *)

Section conjuncts.
(** The clauses in scope. *)
Variable S : list NodeHandle.

Definition paths_ok (truth : NodeHandle → Prop) (a : QueryAstArena) : Prop :=
  ∀ s o ps w, s ∈ S → node_at a s = Some (MatchClause o ps w) → paths_pass truth a ps.

(** The predicate is inlined in some clause in scope. *)
Definition inlined (a : QueryAstArena) (c : NodeHandle) : Prop :=
  ∃ s o ps w p, s ∈ S ∧ node_at a s = Some (MatchClause o ps w) ∧ p ∈ ps ∧ path_pred a p c.

Lemma pushed_paths_ok truth v a q c a' :
  pushed v a q c a' → inlined a' c → (paths_ok truth a' ↔ paths_ok truth a ∧ truth c).
Proof.
  intros Hp Hin. pose proof (pushed_keeps _ _ _ _ _ Hp) as Hk. split.
  - intros H. split.
    + intros s o ps w Hs Hn p x Hpx Hx. eapply (H s o ps w Hs); [by apply Hk|done|].
      by eapply pushed_path_pred.
    + destruct Hin as (s & o & ps & w & p & Hs & Hn & Hpx & Hc). by eapply H.
  - intros [H Hc] s o ps w Hs Hn p x Hpx Hx.
    destruct (pushed_path_pred_inv _ _ _ _ _ _ _ Hp Hx) as [Hx'| ->]; [|done].
    eapply (H s o ps w Hs); [by apply Hk|done|done].
Qed.

Section loop.
Variables (n : nat) (h : NodeHandle) (paths previous : list NodeHandle) (is_optional : bool).

(** The clause of the loop, and that its targets are in scope. *)
Definition in_scope (a : QueryAstArena) : Prop :=
  (∃ w, node_at a h = Some (MatchClause is_optional paths w)) ∧ h ∈ S ∧
  (is_optional = false → ∀ s, s ∈ previous → mandatory a s = true → s ∈ S).

Lemma keeps_in_scope a a' : keeps a a' → in_scope a → in_scope a'.
Proof.
  intros Hk ((w & Hw) & Hh & Hp). split; [exists w; by apply Hk|]. split; [done|].
  intros Ho s Hs Hm. apply Hp; [done|done|]. unfold mandatory in *.
  destruct (node_at a' s) as [node|] eqn:E; [|done].
  destruct node; try done. apply Hk in E; [|done]. by rewrite E.
Qed.

Lemma hoist_conjunct_spec c a (b : bool) a' :
  in_scope a → hoist_conjunct n paths previous is_optional c a = Ok (b, a') →
  if b then ∃ v q, pushed v a q c a' ∧ inlined a' c ∧ ∀ y, reads a c y ↔ y = v else a' = a.
Proof.
  intros ((w & Hw) & Hh & Hp) H. unfold hoist_conjunct in H.
  apply AM_bind_Ok in H as (target & a1 & H1 & H). pose proof (extract_readonly _ _ _ _ _ H1) as ->.
  destruct target as [v|]; [|by injection H as <- <-]. pose proof (extract_reads _ _ _ _ _ H1) as Hreads. clear H1.
  apply AM_bind_Ok in H as (hit & a1 & H1 & H).
  apply (one_hoist_any _ _ _ (hoist_spec n v c)) in H1. destruct hit; simpl in H.
  - injection H as <- <-. destruct H1 as (p & Hin & q & Hq & Hc). exists v, q. split; [done|]. split; [|done].
    exists h, is_optional, paths, w, p. split; [done|].
    split; [by apply (pushed_keeps _ _ _ _ _ Hq)|done].
  - subst a1. destruct is_optional eqn:Ho; simpl in H; [by injection H as <- <-|].
    eapply (one_hoist_any (λ s a a', ∃ q, pushed v a q c a' ∧ mandatory a s = true ∧
      ∃ o ps w p, node_at a' s = Some (MatchClause o ps w) ∧ p ∈ ps ∧ path_pred a' p c)) in H.
    { destruct b; [|done]. destruct H as (s & Hs & q & Hq & Hm & o & ps & w' & p & Hn & Hpp).
      exists v, q. split; [done|]. split; [|done]. exists s, o, ps, w', p. split; [by apply Hp|done]. }
    clear -S. intros s a b a' H. unfold hoist_to_previous in H.
    apply AM_bind_Ok in H as (node & a1 & [-> Hn]%get_Ok & H).
    destruct node; try (by injection H as <- <-). destruct optional; [by injection H as <- <-|].
    apply (one_hoist_any _ _ _ (hoist_spec n v c)) in H. destruct b; [|done].
    destruct H as (p & Hin & q & Hq & Hc). exists q. split; [done|].
    split; [unfold mandatory; by rewrite Hn|].
    eexists _, _, _, p. split; [by apply (pushed_keeps _ _ _ _ _ Hq)|done].
Qed.

Lemma hoist_conjuncts_spec truth cs rem a rem' a' :
  in_scope a → hoist_conjuncts n paths previous is_optional cs rem a = Ok (rem', a') →
  keeps a a' ∧ moved (λ v c, c ∈ cs ∧ ∀ y, reads a c y ↔ y = v) a a' ∧
  (paths_ok truth a' ∧ (∀ c, c ∈ rem' → truth c) ↔
   paths_ok truth a ∧ (∀ c, c ∈ rem → truth c) ∧ (∀ c, c ∈ cs → truth c)).
Proof.
  revert rem a. induction cs as [|c cs IH]; intros rem a Hs H; cbn [hoist_conjuncts] in H.
  { injection H as <- <-. split; [done|]. split; [apply moved_refl|]. set_solver. }
  apply AM_bind_Ok in H as (b & a1 & H1 & H2). apply hoist_conjunct_spec in H1; [|done].
  destruct b.
  - destruct H1 as (v & q & Hq & Hin & Hreads). pose proof (pushed_keeps _ _ _ _ _ Hq) as Hk.
    apply IH in H2 as (Hk2 & Hm & ->); [|by eapply keeps_in_scope]. split; [by etrans|]. split.
    + pose proof (pushed_moved (λ v c', c' = c ∧ ∀ y, reads a c' y ↔ y = v) _ _ _ _ _ Hq (conj eq_refl Hreads)) as Hm1.
      eapply moved_trans; [exact Hm1|exact Hm|naive_solver set_solver|].
      intros v' c' [Hc' Hr]. split; [set_solver|]. intros y. by rewrite <- (moved_reads _ _ _ Hm1).
    + rewrite (pushed_paths_ok truth _ _ _ _ _ Hq Hin). set_solver.
  - subst a1. apply IH in H2 as (Hk2 & Hm & ->); [|done]. split; [done|]. split; [|set_solver].
    eapply moved_weaken; [exact Hm|]. set_solver.
Qed.
End loop.
End conjuncts.

(** ** The rebuilt WHERE *)

(** Appending nodes that are not patterns. *)
Definition appends (a a' : QueryAstArena) : Prop :=
  ∃ new, nodes a' = nodes a ++ new ∧
    Forall (λ node, match node with
                    | NodePattern _ _ _ | EdgePattern _ _ _ _ _ _ _ | PathChain _ _ _ _ => False
                    | MatchClause _ _ _ => False
                    | _ => True
                    end) new.

Lemma appends_refl a : appends a a.
Proof. exists []. by rewrite app_nil_r. Qed.

Lemma appends_trans a b c : appends a b → appends b c → appends a c.
Proof.
  intros (l & Hl & Fl) (k & Hk & Fk). exists (l ++ k). rewrite Hk, Hl, <- app_assoc.
  split; [done|]. by apply Forall_app.
Qed.

Lemma appends_lookup a a' i node :
  appends a a' → node_at a i = Some node → node_at a' i = Some node.
Proof. intros (new & -> & _). apply lookup_app_l_Some. Qed.

Lemma appends_lookup_inv a a' i node :
  appends a a' → node_at a' i = Some node →
  match node with
  | NodePattern _ _ _ | EdgePattern _ _ _ _ _ _ _ | PathChain _ _ _ _ | MatchClause _ _ _ => True
  | _ => False
  end → node_at a i = Some node.
Proof.
  intros (new & -> & Hf) Hn Hs. apply lookup_app_Some in Hn as [Hn|[_ Hn]]; [done|].
  rewrite Forall_forall in Hf. specialize (Hf node (list_elem_of_lookup_2 _ _ _ Hn)).
  by destruct node.
Qed.

Lemma appends_path_pred a a' p x : appends a a' → path_pred a' p x → path_pred a p x.
Proof.
  intros Ha. pose proof (appends_lookup_inv a a') as Hi.
  induction 1 as [p v l ps x H Hx|p v m s es x H _ IH|p v m s es e v' l d lo hi ps t x H He H' Hx
    |p v m s es e v' l d lo hi ps t x H He H' _ IH].
  - eapply pp_node; [by apply Hi in H|done].
  - eapply pp_start; [by apply Hi in H|done].
  - eapply pp_edge; [by apply Hi in H|done|by apply Hi in H'|done].
  - eapply pp_target; [by apply Hi in H|done|by apply Hi in H'|done].
Qed.

(** Paths are read from pattern and path nodes alone. *)
Lemma path_pred_ext a a' p x :
  (∀ i node, node_at a i = Some node →
     match node with
     | NodePattern _ _ _ | EdgePattern _ _ _ _ _ _ _ | PathChain _ _ _ _ => True
     | _ => False
     end → node_at a' i = Some node) →
  path_pred a p x → path_pred a' p x.
Proof.
  intros Hi.
  induction 1 as [p v l ps x H Hx|p v m s es x H _ IH|p v m s es e v' l d lo hi ps t x H He H' Hx
    |p v m s es e v' l d lo hi ps t x H He H' _ IH].
  - eapply pp_node; [by apply Hi in H|done].
  - eapply pp_start; [by apply Hi in H|done].
  - eapply pp_edge; [by apply Hi in H|done|by apply Hi in H'|done].
  - eapply pp_target; [by apply Hi in H|done|by apply Hi in H'|done].
Qed.

Lemma consistent_back truth a a' :
  (∀ i node, node_at a i = Some node →
     match node with
     | BinaryExpression _ _ _ | WhereClause _ | Literal _ => True | _ => False
     end → node_at a' i = Some node) →
  consistent truth a' → consistent truth a.
Proof.
  intros Hk H i. specialize (H i). destruct (node_at a i) as [node|] eqn:E; [|done].
  specialize (Hk i node E). by destruct node; try rewrite (Hk I) in H.
Qed.

Lemma alloc_appends node a :
  match node with
  | NodePattern _ _ _ | EdgePattern _ _ _ _ _ _ _ | PathChain _ _ _ _ | MatchClause _ _ _ => False
  | _ => True
  end → arena_len a < 2 ^ 32 →
  ∃ x a', alloc node a = Ok (x, a') ∧ appends a a' ∧ node_at a' x = Some node ∧
          arena_len a' = arena_len a + 1.
Proof.
  intros Hn Hl. eexists _, _. split; [reflexivity|].
  unfold arena_alloc, as_unsigned, arena_len in *. pose proof (blen_nonneg (nodes a)).
  rewrite Z.mod_small by lia. split; [|split].
  - exists [node]. split; [done|]. constructor; [by destruct node|constructor].
  - cbn [nodes]. unfold blen. by rewrite Nat2Z.id, list_lookup_middle.
  - cbn [nodes]. by rewrite blen_app.
Qed.

Lemma appends_len a a' : appends a a' → arena_len a <= arena_len a'.
Proof. intros (new & Hn & _). unfold arena_len. rewrite Hn, blen_app. pose proof (blen_nonneg new). lia. Qed.

Lemma alloc_len node a x a' : alloc node a = Ok (x, a') → arena_len a' = arena_len a + 1.
Proof. intros [= <- <-]. unfold arena_len. cbn [nodes]. by rewrite blen_app. Qed.

Lemma conjoin_len cur cs a x a' : conjoin cur cs a = Ok (x, a') → arena_len a <= arena_len a'.
Proof.
  revert cur a. induction cs as [|c cs IH]; intros cur a H; cbn [conjoin] in H.
  { injection H as <- <-. lia. }
  apply AM_bind_Ok in H as (y & a1 & H1%alloc_len & H2%IH). lia.
Qed.

Lemma conjoin_spec truth cur cs a x a' :
  conjoin cur cs a = Ok (x, a') → arena_len a' <= 2 ^ 32 →
  appends a a' ∧ (consistent truth a' → (truth x ↔ truth cur ∧ ∀ c, c ∈ cs → truth c)).
Proof.
  revert cur a. induction cs as [|c cs IH]; intros cur a H Hl; cbn [conjoin] in H.
  { injection H as <- <-. split; [apply appends_refl|]. set_solver. }
  apply AM_bind_Ok in H as (y & a1 & H1 & H2).
  pose proof (conjoin_len _ _ _ _ _ H2). pose proof (alloc_len _ _ _ _ H1).
  destruct (alloc_appends (BinaryExpression cur And c) a I) as (y' & a1' & E & Ha & Hy & _); [lia|].
  rewrite H1 in E. injection E as <- <-. apply IH in H2 as [Ha2 T]; [|done].
  split; [by eapply appends_trans|]. intros Hc. rewrite (T Hc).
  pose proof (Hc y) as Hcy. rewrite (appends_lookup _ _ _ _ Ha2 Hy) in Hcy. rewrite Hcy. set_solver.
Qed.

Lemma build_spec truth cs a w a' :
  build_conjunction_tree cs a = Ok (w, a') → arena_len a' <= 2 ^ 32 →
  appends a a' ∧ (consistent truth a' → (where_passes truth w ↔ ∀ c, c ∈ cs → truth c)).
Proof.
  intros H Hl. destruct cs as [|c cs]; cbn [build_conjunction_tree] in H.
  { injection H as <- <-. split; [apply appends_refl|]. simpl. set_solver. }
  apply AM_bind_Ok in H as (x & a1 & H1 & H2). apply AM_bind_Ok in H2 as (y & a2 & H2 & [= <- <-]).
  pose proof (alloc_len _ _ _ _ H2).
  destruct (alloc_appends (WhereClause x) a1 I) as (y' & a2' & E & Ha & Hy & _); [lia|].
  rewrite H2 in E. injection E as <- <-.
  apply (conjoin_spec truth) in H1 as [Ha1 T]; [|lia].
  split; [by eapply appends_trans|]. intros Hc. simpl.
  pose proof (Hc y) as Hcy. rewrite Hy in Hcy. rewrite Hcy, T; [set_solver|].
  eapply consistent_back; [|exact Hc]. intros i node Hn _. by eapply appends_lookup.
Qed.

(** ** The clause after the pass *)

Section clause.
Variables (S : list NodeHandle) (truth : NodeHandle → Prop) (h : NodeHandle).

(** The [WHERE]s of the clauses in scope other than [h]. *)
Definition other_wheres (a : QueryAstArena) : Prop :=
  ∀ s o ps w, s ∈ S → Z.to_nat s ≠ Z.to_nat h → node_at a s = Some (MatchClause o ps w) →
    where_passes truth w.

Lemma clauses_pass_split a o ps w :
  h ∈ S → node_at a h = Some (MatchClause o ps w) →
  (∀ s, s ∈ S → clause_passes truth a s) ↔
  paths_ok S truth a ∧ other_wheres a ∧ where_passes truth w.
Proof.
  intros Hh Hn. split.
  - intros H. split; [|split].
    + intros s o' ps' w' Hs Hn'. specialize (H s Hs). unfold clause_passes in H.
      rewrite Hn' in H. by destruct H.
    + intros s o' ps' w' Hs _ Hn'. specialize (H s Hs). unfold clause_passes in H.
      rewrite Hn' in H. by destruct H.
    + specialize (H h Hh). unfold clause_passes in H. rewrite Hn in H. by destruct H.
  - intros (Hp & Ho & Hw) s Hs. unfold clause_passes.
    destruct (node_at a s) as [node|] eqn:E; [|done]. destruct node; try done.
    split; [by eapply Hp|]. destruct (decide (Z.to_nat s = Z.to_nat h)) as [Eq|Ne]; [|by eapply Ho].
    rewrite Eq, Hn in E. by injection E as <- <- <-.
Qed.
End clause.

(** From the arena after the loop to the final one. *)
Section rebuilt.
Variables (a a2 : QueryAstArena) (h : NodeHandle) (o : bool) (ps : list NodeHandle).
Variables (w w' : option NodeHandle).
Hypothesis at_h : node_at a h = Some (MatchClause o ps w).
Hypothesis app : appends a a2.
Notation a' := (arena_set a2 h (MatchClause o ps w')).

Lemma rebuilt_lookup i :
  node_at a' i = if decide (Z.to_nat i = Z.to_nat h) then Some (MatchClause o ps w') else node_at a2 i.
Proof. apply arena_set_lookup. exists (MatchClause o ps w). by eapply appends_lookup. Qed.

Lemma rebuilt_kept i node :
  node_at a i = Some node → match node with MatchClause _ _ _ => False | _ => True end →
  node_at a' i = Some node.
Proof.
  intros Hi Hm. rewrite rebuilt_lookup, decide_False; [by eapply appends_lookup|].
  intros E. rewrite E, at_h in Hi. by injection Hi as <-.
Qed.

Lemma rebuilt_path_pred p x : path_pred a' p x ↔ path_pred a p x.
Proof.
  split; intros H.
  - eapply appends_path_pred; [exact app|]. eapply path_pred_ext; [|exact H].
    intros i node Hi Hp. rewrite rebuilt_lookup in Hi. case_decide; [|done].
    by injection Hi as <-.
  - eapply path_pred_ext; [|exact H]. intros i node Hi Hp. apply rebuilt_kept; [done|by destruct node].
Qed.

Lemma rebuilt_clause s o' ps' v :
  Z.to_nat s ≠ Z.to_nat h →
  node_at a' s = Some (MatchClause o' ps' v) ↔ node_at a s = Some (MatchClause o' ps' v).
Proof.
  intros Hs. rewrite rebuilt_lookup, decide_False by done. split; intros H.
  - by eapply (appends_lookup_inv a a2).
  - by eapply appends_lookup.
Qed.

Lemma rebuilt_paths_ok S truth : paths_ok S truth a' ↔ paths_ok S truth a.
Proof.
  unfold paths_ok, paths_pass. setoid_rewrite rebuilt_path_pred.
  split; intros H s o' ps' v Hs Hn p x Hp Hx;
    destruct (decide (Z.to_nat s = Z.to_nat h)) as [E|Ne].
  - rewrite E, at_h in Hn. injection Hn as <- <- <-.
    eapply (H s); [done|by rewrite rebuilt_lookup, decide_True|done|done].
  - eapply (H s); [done|by apply rebuilt_clause|done|done].
  - rewrite rebuilt_lookup, decide_True in Hn by done. injection Hn as <- <- <-.
    eapply (H s); [done|by rewrite E|done|done].
  - eapply (H s); [done|by apply rebuilt_clause in Hn|done|done].
Qed.

Lemma rebuilt_other_wheres S truth : other_wheres S truth h a' ↔ other_wheres S truth h a.
Proof.
  split; intros H s o' ps' v Hs Hne Hn; eapply (H s); try done; by apply rebuilt_clause in Hn || apply rebuilt_clause.
Qed.
End rebuilt.

(** The clause of the loop sees its scope. *)
Lemma clause_in_scope h paths candidates optional a w :
  node_at a h = Some (MatchClause optional paths w) →
  in_scope (scope a h candidates) h paths (drop 1 (reverse candidates)) optional a.
Proof.
  intros Hn. split; [eauto|]. split; [by left|]. intros -> s Hs Hm. right. unfold mandatory at 1. rewrite Hn.
  apply list_elem_of_In, filter_In. split; [by apply list_elem_of_In|done].
Qed.

(** The same rows pass. *)
Lemma optimized_filter n h candidates a a' truth :
  optimize_match_clause n h candidates a = Ok (tt, a') → arena_len a' <= 2 ^ 32 →
  consistent truth a' →
  let S := scope a h candidates in
  (∀ s, s ∈ S → clause_passes truth a s) ↔ (∀ s, s ∈ S → clause_passes truth a' s).
Proof.
  intros H Hl Hc S. unfold optimize_match_clause in H.
  apply AM_bind_Ok in H as (node & a1 & [-> Hn]%get_Ok & H).
  destruct node; try (by injection H as <-). destruct where_clause as [wh|]; [|by injection H as <-].
  apply AM_bind_Ok in H as (cs & a1 & H1 & H). apply (collect_conjuncts_spec truth) in H1 as [-> (new & -> & T & _)].
  apply AM_bind_Ok in H as (rem & a1 & H2 & H). apply AM_bind_Ok in H as (w' & a2 & H3 & H).
  pose proof (clause_in_scope h paths candidates optional a (Some wh) Hn) as Hin. fold S in Hin.
  destruct (hoist_conjuncts_spec _ _ _ _ _ _ truth _ _ _ _ _ Hin H2) as (Hk & _ & HT).
  assert (Hn1 : node_at a1 h = Some (MatchClause optional paths (Some wh))) by (by apply Hk).
  unfold update, arena_get in H.
  destruct (node_at a2 h) as [node|] eqn:Hn2; [|discriminate H]. simpl in H.
  assert (Ha' : a' = arena_set a2 h (set_where w' node)) by congruence. subst a'. clear H.
  assert (Hl2 : arena_len a2 <= 2 ^ 32).
  { unfold arena_len, arena_set, blen in *. cbn [nodes] in Hl. by rewrite length_insert in Hl. }
  pose proof (build_spec truth _ _ _ _ H3 Hl2) as [Happ HB].
  rewrite (appends_lookup _ _ _ _ Happ Hn1) in Hn2. injection Hn2 as <-. cbn [set_where] in *.
  assert (Hc2 : consistent truth a2).
  { eapply consistent_back; [|exact Hc]. intros i nd Hi Hlog.
    rewrite (rebuilt_lookup a1 a2 h optional paths (Some wh) w' Hn1 Happ), decide_False; [done|].
    intros E. rewrite E, (appends_lookup _ _ _ _ Happ Hn1) in Hi. by injection Hi as <-. }
  assert (Hc0 : consistent truth a).
  { eapply consistent_back; [|exact Hc2]. intros i nd Hi Hlog.
    eapply appends_lookup; [exact Happ|]. apply Hk; [by destruct nd|done]. }
  assert (HhS : h ∈ S) by (by left).
  rewrite (clauses_pass_split S truth h a _ _ _ HhS Hn).
  rewrite (clauses_pass_split S truth h (arena_set a2 h (MatchClause optional paths w')) optional paths w' HhS)
    by (by rewrite (rebuilt_lookup a1 a2 h optional paths (Some wh) w' Hn1 Happ), decide_True).
  rewrite (rebuilt_paths_ok a1 a2 h optional paths (Some wh) w' Hn1 Happ),
    (rebuilt_other_wheres a1 a2 h optional paths (Some wh) w' Hn1 Happ), (HB Hc2).
  assert (Hother : other_wheres S truth h a1 ↔ other_wheres S truth h a).
  { split; intros Hw s o ps v Hs Hne Hv; eapply (Hw s); try done; by apply Hk. }
  rewrite Hother. simpl. rewrite (T Hc0). simpl in HT.
  assert (∀ c : NodeHandle, c ∈ [] → truth c) by set_solver. tauto.
Qed.

(** What the pass does to the patterns of the arena. *)
Lemma optimized_patterns n h candidates a a' i v l ps :
  optimize_match_clause n h candidates a = Ok (tt, a') → arena_len a' <= 2 ^ 32 →
  node_at a i = Some (NodePattern v l ps) →
  ∃ new, node_at a' i = Some (NodePattern v l (ps ++ new)) ∧ ∀ c, c ∈ new → movable a h v c.
Proof.
  intros H Hl Hi. unfold optimize_match_clause in H.
  assert (∀ b, b = a → ∃ new, node_at b i = Some (NodePattern v l (ps ++ new)) ∧ ∀ c, c ∈ new → movable a h v c) as Hsame.
  { intros b ->. exists []. rewrite app_nil_r. split; [done|]. intros c Hc. by apply not_elem_of_nil in Hc. }
  apply AM_bind_Ok in H as (node & a1 & [-> Hn]%get_Ok & H).
  destruct node; try (apply Hsame; by injection H as <-).
  destruct where_clause as [wh|]; [|apply Hsame; by injection H as <-].
  apply AM_bind_Ok in H as (cs & a1 & H1 & H).
  apply (collect_conjuncts_spec (λ _, True)) in H1 as [-> (new & -> & _ & Hcs)].
  apply AM_bind_Ok in H as (rem & a1 & H2 & H). apply AM_bind_Ok in H as (w' & a2 & H3 & H).
  pose proof (clause_in_scope h paths candidates optional a (Some wh) Hn) as Hin.
  destruct (hoist_conjuncts_spec _ _ _ _ _ _ (λ _, True) _ _ _ _ _ Hin H2) as (Hk & Hm & _).
  unfold update, arena_get in H. destruct (node_at a2 h) as [node|] eqn:Hn2; [|discriminate H]. simpl in H.
  assert (Ha' : a' = arena_set a2 h (set_where w' node)) by congruence. subst a'. clear H.
  assert (Hl2 : arena_len a2 <= 2 ^ 32).
  { unfold arena_len, arena_set, blen in *. cbn [nodes] in Hl. by rewrite length_insert in Hl. }
  destruct (build_spec (λ _, True) _ _ _ _ H3 Hl2) as [Happ _].
  specialize (Hm i). rewrite Hi in Hm. destruct Hm as (moves & Hm & Hgood). exists moves. split.
  - rewrite arena_set_lookup by eauto. rewrite decide_False; [by eapply appends_lookup|].
    intros E. rewrite E, Hn in Hi. done.
  - intros c Hc. destruct (Hgood c Hc) as (x & -> & Hc' & Hr). split; [|by exists x].
    exists optional, paths, wh. split; [done|]. by apply Hcs.
Qed.

(** C5: predicate pushdown never changes which rows a query keeps, and puts each conjunct where
    it can be evaluated.  For every assignment of truth values to the predicates that respects
    conjunction, the clauses a conjunct may move between - the clause itself and, unless it is
    optional, the mandatory clauses before it - all pass afterwards exactly when they all passed
    before: an OPTIONAL MATCH keeps its own filter, and no conjunct is lost, invented or
    duplicated in effect.  Every pattern keeps its variable, its labels and its predicates, and
    gains only conjuncts of the clause's WHERE that read the pattern's variable and no other. *)
Theorem pushdown_preserves_filter n h candidates a a' truth :
  optimize_match_clause n h candidates a = Ok (tt, a') → arena_len a' <= 2 ^ 32 →
  consistent truth a' →
  let S := scope a h candidates in
  ((∀ s, s ∈ S → clause_passes truth a s) ↔ (∀ s, s ∈ S → clause_passes truth a' s)) ∧
  ∀ i v l ps, node_at a i = Some (NodePattern v l ps) →
    ∃ new, node_at a' i = Some (NodePattern v l (ps ++ new)) ∧ ∀ c, c ∈ new → movable a h v c.
Proof.
  intros H Hl Hc S. split; [|by intros; eapply optimized_patterns].
  by eapply optimized_filter.
Qed.

(** [MATCH (p) MATCH (q) WHERE q.age = 3 AND p.city = $c AND p.x]: the two
    equalities move to their patterns, the second across clauses. *)
Definition push_arena : QueryAstArena :=
  mkArena [NodePattern (Some "p"%string) None []; NodePattern (Some "q"%string) None [];
           MatchClause false [0] None;
           Identifier "q"; PropertyAccess 3 "age"; Literal (LInt64 3); BinaryExpression 4 Eq 5;
           Identifier "p"; PropertyAccess 7 "city"; ParameterNode "c"; BinaryExpression 8 Eq 9;
           PropertyAccess 7 "x"; BinaryExpression 6 And 10; BinaryExpression 12 And 11;
           WhereClause 13; MatchClause false [1] (Some 14)].

Definition pushed_arena : QueryAstArena :=
  match optimize_match_clause 5 15 [2; 15] push_arena with Ok (_, a) => a | Err _ => arena_new end.

(** A row with [q.age = 3] false and the other predicates true. *)
Definition push_truth (h : NodeHandle) : Prop :=
  match Z.to_nat h with 6 | 12 | 13 | 14 => False | _ => True end%nat.

Lemma pushdown_preserves_filter_witness :
  optimize_match_clause 5 15 [2; 15] push_arena = Ok (tt, pushed_arena) ∧
  nodes pushed_arena !! 0%nat = Some (NodePattern (Some "p"%string) None [10]) ∧
  nodes pushed_arena !! 1%nat = Some (NodePattern (Some "q"%string) None [6]) ∧
  ((∀ s, s ∈ scope push_arena 15 [2; 15] → clause_passes push_truth push_arena s) ↔
   (∀ s, s ∈ scope push_arena 15 [2; 15] → clause_passes push_truth pushed_arena s)) ∧
  ∀ i v l ps, node_at push_arena i = Some (NodePattern v l ps) →
    ∃ new, node_at pushed_arena i = Some (NodePattern v l (ps ++ new)) ∧ ∀ c, c ∈ new → movable push_arena 15 v c.
Proof.
  split; [reflexivity|]. split; [reflexivity|]. split; [reflexivity|].
  apply (pushdown_preserves_filter 5); [reflexivity|discriminate|].
  intros h. unfold push_truth.
  destruct (Z.to_nat h) as [|i]; [exact I|].
  do 16 (destruct i as [|i]; [vm_compute; tauto|]). vm_compute. tauto.
Defined.
