(* ===== verification/Prune.v ===== *)
(** * Dead variable pruning keeps the variables that are read

    Pass 3 of the optimizer clears the names of patterns.  It may clear a name
    only if it starts with an underscore and no expression it looks at mentions
    it; here is what it looks at, and what it does not. *)
From S2P Require Import Prelude Bytes F64 Errors Ast ArenaShape Optimizer Pushdown.

Open Scope Z_scope.
Open Scope list_scope.

(** ** What reads a variable *)

(** The parts of an expression that are expressions.  The subquery of [EXISTS] and [COUNT]
    and the pattern of a pattern comprehension are none. *)
Definition subexpressions (n : AstNode) : list NodeHandle :=
  match n with
  | BinaryExpression _ _ _ | UnaryExpression _ _ | FunctionCall _ _ | CaseExpression _ _ _
  | ListComprehension _ _ _ _ | ListLiteral _ | PropertyAccess _ _ | WhereClause _ => children n
  | PatternComprehension _ where_filter projection => projection :: option_list where_filter
  | _ => []
  end.

(** The node, edge and path patterns of a path, and what one names and filters by. *)
Definition pattern_name (n : AstNode) : option string :=
  match n with
  | NodePattern v _ _ | EdgePattern v _ _ _ _ _ _ | PathChain v _ _ _ => v
  | _ => None
  end.
Definition pattern_predicates (n : AstNode) : list NodeHandle :=
  match n with
  | NodePattern _ _ predicates | EdgePattern _ _ _ _ _ predicates _ => predicates
  | _ => []
  end.
Definition pattern_parts (n : AstNode) : list NodeHandle :=
  match n with
  | PathChain _ _ start edges => start :: edges
  | EdgePattern _ _ _ _ _ _ target => [target]
  | _ => []
  end.

Section reading.
Variable a : QueryAstArena.

Definition some_of {A} (P : A → string → Prop) (l : list A) (x : string) : Prop := ∃ y, y ∈ l ∧ P y x.

Inductive mentions : NodeHandle → string → Prop :=
| mentions_name h x : node_at a h = Some (Identifier x) → mentions h x
| mentions_part h node x : node_at a h = Some node → some_of mentions (subexpressions node) x → mentions h x.

(** A path reads what the predicates in its patterns mention; where it creates, also the
    variables its patterns name. *)
Inductive path_reads (creates : bool) : NodeHandle → string → Prop :=
| path_predicate p node x :
    node_at a p = Some node → some_of mentions (pattern_predicates node) x → path_reads creates p x
| path_name p node x :
    creates = true → node_at a p = Some node → pattern_name node = Some x → path_reads creates p x
| path_part p node x :
    node_at a p = Some node → some_of (path_reads creates) (pattern_parts node) x → path_reads creates p x.

Definition projections_read (projections : list ProjectionItem) (order_by : list (NodeHandle * bool)) (x : string) : Prop :=
  some_of mentions (projection_handles projections) x ∨ some_of mentions order_by.*1 x.

Definition set_item_reads (item : NodeHandle) (x : string) : Prop :=
  match node_at a item with Some (SetItem target value _) => mentions target x ∨ mentions value x | _ => False end.

Definition load_csv_reads (h : NodeHandle) (x : string) : Prop :=
  match node_at a h with Some (LoadCsvClause url _ _) => mentions url x | _ => False end.
Definition unwind_reads (h : NodeHandle) (x : string) : Prop :=
  match node_at a h with Some (UnwindClause expression _) => mentions expression x | _ => False end.
Definition linear_reads (h : NodeHandle) (x : string) : Prop :=
  match node_at a h with
  | Some (LetClause _ expression) => mentions expression x
  | Some (FilterClause predicate) => mentions predicate x
  | _ => False
  end.
Definition with_reads (h : NodeHandle) (x : string) : Prop :=
  match node_at a h with
  | Some (WithClause _ projections order_by _ _ where_clause) =>
      projections_read projections order_by x ∨ some_of mentions (option_list where_clause) x
  | _ => False
  end.
Definition return_reads (h : NodeHandle) (x : string) : Prop :=
  match node_at a h with
  | Some (ReturnClause _ projections order_by _ _) => projections_read projections order_by x
  | _ => False
  end.
Definition match_reads (h : NodeHandle) (x : string) : Prop :=
  match node_at a h with
  | Some (MatchClause _ paths where_clause) =>
      some_of mentions (option_list where_clause) x ∨ some_of (path_reads false) paths x
  | _ => False
  end.
Definition mutation_reads (h : NodeHandle) (x : string) : Prop :=
  match node_at a h with
  | Some (CreateClause paths) => some_of (path_reads true) paths x
  | Some (MergeClause path on_create on_match) =>
      path_reads true path x ∨ some_of set_item_reads on_create x ∨ some_of set_item_reads on_match x
  | Some (SetClause items) => some_of set_item_reads items x
  | Some (DeleteClause _ targets) => some_of mentions targets x
  | Some (RemoveClause items) => some_of mentions items x
  | _ => False
  end.

(** Some clause of the statement reads the variable. *)
Definition statement_reads (root : NodeHandle) (x : string) : Prop :=
  match node_at a root with
  | Some (QueryStatement _ load_csv unwinds matches linear_clauses with_clauses mutations return_clause) =>
      some_of load_csv_reads (option_list load_csv) x ∨ some_of unwind_reads unwinds x
      ∨ some_of linear_reads linear_clauses x ∨ some_of with_reads with_clauses x
      ∨ some_of return_reads (option_list return_clause) x ∨ some_of match_reads matches x
      ∨ some_of mutation_reads mutations x
  | _ => False
  end.

(** ** What the collection finds *)

(** The walk leaves the arena alone, keeps the set it was given and adds what [Q] holds of. *)
Definition gathers (m : AM VarSet) (used : VarSet) (Q : string → Prop) : Prop :=
  ∀ used' a', m a = Ok (used', a') → a' = a ∧ used ⊆ used' ∧ ∀ x, Q x → x ∈ used'.

Definition walks {A} (f : A → VarSet → AM VarSet) (P : A → string → Prop) : Prop :=
  ∀ y used, gathers (f y used) used (P y).

Lemma walk_weaken m used used0 (Q Q' : string → Prop) :
  gathers m used0 Q → used ⊆ used0 → (∀ x, Q' x → x ∈ used0 ∨ Q x) → gathers m used Q'.
Proof. intros H Hs HQ used' a' (-> & H1 & H2)%H. split; [done|]. split; [set_solver|]. intros x [?|?]%HQ; set_solver. Qed.

Lemma walk_ret used u (Q : string → Prop) : used ⊆ u → (∀ x, Q x → x ∈ u) → gathers (mret u) used Q.
Proof. intros H1 H2 used' a' [= <- <-]. done. Qed.

Lemma walk_none used : gathers (mret used) used (λ _, False).
Proof. by apply walk_ret. Qed.

Lemma walk_seq m (f : VarSet → AM VarSet) used Q1 Q2 :
  gathers m used Q1 → (∀ u, gathers (f u) u Q2) → gathers (m ≫= f) used (λ x, Q1 x ∨ Q2 x).
Proof.
  intros Hm Hf used' a' (u & b & (-> & H1 & H2)%Hm & (-> & H3 & H4)%Hf)%AM_bind_Ok.
  split; [done|]. split; [set_solver|]. intros x [?|?]; set_solver.
Qed.

Lemma walk_get h (f : AstNode → AM VarSet) used Q :
  (∀ node, node_at a h = Some node → gathers (f node) used Q) → gathers (get h ≫= f) used Q.
Proof. intros Hf used' a' (node & b & [-> Hn]%get_Ok & H)%AM_bind_Ok. by eapply Hf. Qed.

Lemma walks_each {A} (f : A → VarSet → AM VarSet) P : walks f P → walks (collect_each f) (some_of P).
Proof.
  intros Hf l. induction l as [|z l IH]; intros used.
  { apply walk_ret; [done|]. intros x (y & Hy & _). by apply not_elem_of_nil in Hy. }
  eapply walk_weaken; [apply (walk_seq _ _ _ _ _ (Hf z used) IH)|done|].
  intros x (y & [->|Hy]%elem_of_cons & Hp); right; [by left|right; by exists y].
Qed.

Lemma walks_option {A} (f : A → VarSet → AM VarSet) P :
  walks f P → walks (collect_option f) (λ o, some_of P (option_list o)).
Proof.
  intros Hf [y|] used; (eapply walk_weaken; [|reflexivity|]); [apply Hf| |apply walk_none|];
    intros x (z & Hz & Hp); [|by apply not_elem_of_nil in Hz].
  right. by apply list_elem_of_singleton in Hz as ->.
Qed.

Lemma some_of_app {A} (P : A → string → Prop) l k x : some_of P (l ++ k) x ↔ some_of P l x ∨ some_of P k x.
Proof. unfold some_of. setoid_rewrite elem_of_app. naive_solver. Qed.
Lemma some_of_cons {A} (P : A → string → Prop) y l x : some_of P (y :: l) x ↔ P y x ∨ some_of P l x.
Proof. unfold some_of. setoid_rewrite elem_of_cons. naive_solver. Qed.
Lemma some_of_nil {A} (P : A → string → Prop) x : some_of P [] x ↔ False.
Proof. unfold some_of. setoid_rewrite elem_of_nil. naive_solver. Qed.
Lemma some_of_fmap {A B} (g : A → B) (P : B → string → Prop) l x : some_of P (g <$> l) x ↔ some_of (λ y, P (g y)) l x.
Proof. unfold some_of. setoid_rewrite list_elem_of_fmap. naive_solver. Qed.

(** A node whose parts are walked in a line: weaken what is found to what is asked. *)
Ltac parts := intros ? [[=]|Hx]; revert Hx; rewrite ?some_of_cons, ?some_of_app, ?some_of_cons, ?some_of_app, ?some_of_nil; tauto.

Lemma mentions_inv h node x :
  node_at a h = Some node → mentions h x → node = Identifier x ∨ some_of mentions (subexpressions node) x.
Proof. intros Hn Hm. destruct Hm; simplify_eq; auto. Qed.

Lemma expr_vars_walks n : walks (collect_expr_vars n) mentions.
Proof.
  induction n as [|n IH]; intros h used; [done|]. cbn [collect_expr_vars]. apply walk_get. intros node Hn.
  pose proof (walks_each _ _ IH) as Each. pose proof (walks_option _ _ IH) as Opt.
  apply (walk_weaken _ used used (λ x, node = Identifier x ∨ some_of mentions (subexpressions node) x)); [|done|
    intros x Hm; right; by apply (mentions_inv h)].
  destruct node; cbn [subexpressions children];
    try (apply walk_ret; [done|]; intros x [[=]|(y & Hy & _)]; by apply not_elem_of_nil in Hy).
  - eapply walk_weaken; [apply walk_seq; [apply IH|intros u; apply IH]|done|parts].
  - eapply walk_weaken; [apply IH|done|parts].
  - eapply walk_weaken; [apply Each|done|parts].
  - eapply walk_weaken; [apply walk_seq; [apply Opt|intros u; apply walk_seq; [apply (walks_each _
      (λ b x, mentions b.1 x ∨ mentions b.2 x)); intros b v; apply walk_seq; intros; apply IH|intros; apply Opt]]|done|].
    intros x [[=]|Hx]. revert Hx. rewrite !some_of_app, !some_of_fmap. unfold some_of. naive_solver.
  - eapply walk_weaken; [apply walk_seq; [apply IH|intros u; apply walk_seq; [apply Opt|intros; apply Opt]]|done|parts].
  - eapply walk_weaken; [apply walk_seq; [apply Opt|intros u; apply IH]|done|parts].
  - eapply walk_weaken; [apply IH|done|parts].
  - eapply walk_weaken; [apply IH|done|parts].
  - eapply walk_weaken; [apply Each|done|parts].
  - eapply walk_weaken; [apply IH|done|parts].
  - apply walk_ret; [set_solver|]. intros x [[= <-]|(y & Hy & _)]; [set_solver|by apply not_elem_of_nil in Hy].
  - eapply walk_weaken; [apply IH|done|parts].
Qed.

(** A null handle points to nothing. *)
Hypothesis room : arena_len a <= U32_MAX.

Lemma null_points_nowhere h : handle_is_null h = true → node_at a h = None.
Proof.
  unfold handle_is_null. intros ->%Z.eqb_eq. apply lookup_ge_None. unfold arena_len, blen in room. lia.
Qed.

Lemma path_reads_null b h x : handle_is_null h = true → ¬ path_reads b h x.
Proof. intros Hn Hr. destruct Hr; by rewrite null_points_nowhere in *. Qed.

Lemma insert_binding_finds b v used : used ⊆ insert_binding b v used ∧ ∀ x, b = true → v = Some x → x ∈ insert_binding b v used.
Proof. unfold insert_binding. destruct b, v; set_solver. Qed.

Lemma path_vars_walks n b : walks (collect_path_vars n b) (path_reads b).
Proof.
  induction n as [|n IH]; intros h used; [done|]. cbn [collect_path_vars]. apply walk_get. intros node Hn.
  pose proof (walks_each _ _ (expr_vars_walks n)) as Each.
  assert (∀ t u, gathers (if handle_is_null t then mret u else collect_path_vars n b t u) u (path_reads b t)) as Other.
  { intros t u. destruct (handle_is_null t) eqn:Ht; [|apply IH].
    apply walk_ret; [done|]. intros x Hr. by apply path_reads_null in Hr. }
  pose proof (insert_binding_finds b (pattern_name node) used) as [Hs Hb].
  apply (walk_weaken _ used used (λ x, some_of mentions (pattern_predicates node) x
    ∨ (b = true ∧ pattern_name node = Some x) ∨ some_of (path_reads b) (pattern_parts node) x)); [|done|
    intros x Hr; right; destruct Hr; simplify_eq; auto].
  destruct node; cbn [pattern_name pattern_predicates pattern_parts] in *;
    try (apply walk_ret; [done|]; intros x; rewrite !some_of_nil; naive_solver).
  - eapply walk_weaken; [apply Each|done|]. intros x. rewrite some_of_nil. naive_solver.
  - eapply walk_weaken; [apply walk_seq; [apply Each|intros u; apply Other]|done|].
    intros x. rewrite some_of_cons, some_of_nil. naive_solver.
  - eapply walk_weaken; [apply walk_seq; [apply Other|intros u; apply (walks_each _ _ IH)]|done|].
    intros x. rewrite some_of_cons, some_of_nil. naive_solver.
Qed.

Section clauses.
Variable n : nat.
Let E := expr_vars_walks n.
Let P b := path_vars_walks n b.

(** The walk over one clause: the clause it is for, and no other. *)
Ltac clause := intros h used; apply walk_get; intros node Hn.
Ltac other := apply walk_ret; [done|]; done.

Lemma load_walks : walks (collect_load_csv n) load_csv_reads.
Proof.
  clause. unfold load_csv_reads. rewrite Hn. destruct node; try other.
  eapply walk_weaken; [apply walk_seq; [apply E|intros u; apply (walk_ret _ _ (λ _, False)); set_solver]|done|naive_solver].
Qed.

Lemma unwind_walks : walks (collect_unwind n) unwind_reads.
Proof.
  clause. unfold unwind_reads. rewrite Hn. destruct node; try other.
  eapply walk_weaken; [apply walk_seq; [apply E|intros u; apply (walk_ret _ _ (λ _, False)); set_solver]|done|naive_solver].
Qed.

Lemma linear_walks : walks (collect_linear n) linear_reads.
Proof.
  clause. unfold linear_reads. rewrite Hn.
  destruct node; try other; (eapply walk_weaken; [apply E|set_solver|auto]).
Qed.

Lemma projections_walk projections order_by used :
  gathers (collect_projections n projections order_by used) used (projections_read projections order_by).
Proof.
  eapply walk_weaken; [apply walk_seq; [apply (walks_each _ (λ p, mentions (proj_expression p))); intros p v; apply E|
    intros u; apply (walks_each _ (λ o, mentions o.1)); intros o v; apply E]|done|].
  intros x. unfold projections_read, projection_handles. rewrite !some_of_fmap. auto.
Qed.

Lemma with_walks : walks (collect_with n) with_reads.
Proof.
  clause. unfold with_reads. rewrite Hn. destruct node; try other.
  apply walk_seq; [apply projections_walk|intros u; apply (walks_option _ _ E)].
Qed.

Lemma return_walks : walks (collect_return n) return_reads.
Proof. clause. unfold return_reads. rewrite Hn. destruct node; try other. apply projections_walk. Qed.

Lemma match_walks : walks (collect_match n) match_reads.
Proof.
  clause. unfold match_reads. rewrite Hn. destruct node; try other.
  apply walk_seq; [apply (walks_option _ _ E)|intros u; apply (walks_each _ _ (P false))].
Qed.

Lemma set_item_walks : walks (collect_set_item n) set_item_reads.
Proof.
  clause. unfold set_item_reads. rewrite Hn. destruct node; try other. apply walk_seq; intros; apply E.
Qed.

Lemma mutation_walks : walks (collect_mutation n) mutation_reads.
Proof.
  clause. unfold mutation_reads. rewrite Hn. pose proof (walks_each _ _ set_item_walks) as S.
  destruct node; try other; try apply S; try apply (walks_each _ _ E); [apply (walks_each _ _ (P true))|].
  apply walk_seq; [apply P|intros u; apply walk_seq; [apply S|intros v; apply S]].
Qed.

Lemma used_variables_walks : walks (collect_used_variables n) statement_reads.
Proof.
  clause. unfold statement_reads. rewrite Hn. destruct node; try other.
  repeat (apply walk_seq; [first [apply (walks_option _ _ load_walks)|apply (walks_each _ _ unwind_walks)
    |apply (walks_each _ _ linear_walks)|apply (walks_each _ _ with_walks)|apply (walks_option _ _ return_walks)
    |apply (walks_each _ _ match_walks)]|intros ?]).
  apply (walks_each _ _ mutation_walks).
Qed.
End clauses.
End reading.

(** ** Pruning *)

(** Names the pass may clear, and the nodes it may change. *)
Definition binder (n : AstNode) : option string :=
  match n with NodePattern v _ _ | PathChain v _ _ _ => v | _ => None end.

Definition cleared (used : VarSet) (a a' : QueryAstArena) : Prop :=
  ∀ i node, nodes a !! i = Some node →
    nodes a' !! i = Some node ∨
    nodes a' !! i = Some (clear_variable node) ∧ prunable used (binder node) = true.

Lemma cleared_refl used a : cleared used a a.
Proof. intros i node H. by left. Qed.

Lemma cleared_trans used a b c : cleared used a b → cleared used b c → cleared used a c.
Proof.
  intros H1 H2 i node Hn. destruct (H1 i node Hn) as [Hb|[Hb Hp]]; [by apply H2|].
  right. split; [|done]. destruct (H2 i _ Hb) as [Hc|[Hc _]]; [done|].
  rewrite Hc. by destruct node.
Qed.

(** Every step of [f] clears only prunable names. *)
Definition clears {A} (used : VarSet) (f : A → AM ()) : Prop :=
  ∀ x a a', f x a = Ok (tt, a') → cleared used a a'.

Lemma clears_for_each {A} used (f : A → AM ()) : clears used f → clears used (for_each f).
Proof.
  intros Hf l. induction l as [|x l IH]; intros a a' H; cbn [for_each] in H.
  { injection H as <-. apply cleared_refl. }
  apply AM_bind_Ok in H as ([] & a1 & H1%Hf & H2%IH). by eapply cleared_trans.
Qed.

Lemma clear_step used h node a a' :
  node_at a h = Some node → prunable used (binder node) = true →
  update h clear_variable a = Ok (tt, a') → cleared used a a'.
Proof.
  intros Hn Hp H. unfold update, arena_get in H. rewrite Hn in H. injection H as <-.
  intros i nd Hi. unfold arena_set. cbn [nodes].
  destruct (decide (i = Z.to_nat h)) as [->|Hne].
  - right. rewrite Hn in Hi. injection Hi as <-. split; [|done].
    apply list_lookup_insert_eq. by eapply lookup_lt_Some.
  - left. by rewrite list_lookup_insert_ne.
Qed.

Lemma clear_if used h node a a' :
  node_at a h = Some node →
  (if prunable used (binder node) then update h clear_variable else mret tt) a = Ok (tt, a') →
  cleared used a a'.
Proof.
  intros Hn H. destruct (prunable used (binder node)) eqn:Hp; [by eapply clear_step|].
  injection H as <-. apply cleared_refl.
Qed.

Lemma prune_path_clears n used : clears used (prune_path_variables n used).
Proof.
  induction n as [|n IH]; intros h a a' H; [done|].
  cbn [prune_path_variables] in H. apply AM_bind_Ok in H as (node & a1 & [-> Hn]%get_Ok & H).
  destruct node; try (injection H as <-; apply cleared_refl); [by eapply clear_if|].
  apply AM_bind_Ok in H as ([] & a1 & H1 & H). apply AM_bind_Ok in H as ([] & a2 & H2 & H).
  eapply cleared_trans; [by eapply (clear_if _ _ _ _ _ Hn)|].
  eapply cleared_trans; [by eapply IH|]. revert H. apply clears_for_each.
  intros e b b' H. apply AM_bind_Ok in H as (node & b1 & [-> _]%get_Ok & H).
  destruct node; try (injection H as <-; apply cleared_refl).
  destruct (handle_is_null target_node); [injection H as <-; apply cleared_refl|by eapply IH].
Qed.

Lemma prune_dead_spec n root a a' :
  prune_dead_variables n root a = Ok (tt, a') →
  ∃ used a1, collect_used_variables n root ∅ a = Ok (used, a1) ∧ cleared used a1 a'.
Proof.
  intros H. unfold prune_dead_variables in H. apply AM_bind_Ok in H as (used & a1 & H1 & H).
  exists used, a1. split; [done|].
  apply AM_bind_Ok in H as (node & a2 & [-> _]%get_Ok & H).
  destruct node; try (injection H as <-; apply cleared_refl).
  revert H. apply clears_for_each. intros h b b' H. apply AM_bind_Ok in H as (ps & b1 & H1' & H).
  assert (b1 = b) as ->.
  { unfold match_paths in H1'. apply AM_bind_Ok in H1' as (node & b2 & [-> _]%get_Ok & H1').
    by destruct node; injection H1' as <- <-. }
  revert H. apply clears_for_each. apply prune_path_clears.
Qed.

(** C23: pruning clears only names that start with an underscore and that the statement does
    not read: every node afterwards is the node before, or that node with such a name
    cleared.  A variable is read by an expression of a clause that mentions it (LOAD CSV,
    UNWIND, LET, FILTER, WITH, RETURN, ORDER BY, WHERE, the predicates of patterns, SET,
    REMOVE, DELETE, MERGE) and by a pattern of CREATE or MERGE that names it.  A pattern of
    MATCH that names it again is no reading, and neither are the subquery of EXISTS or COUNT,
    the pattern of a pattern comprehension and the arguments of CALL: there the pass does
    clear names that are needed ([prune_drops_joins]).  The arena leaves the null handle free. *)
Theorem prune_keeps_read_variables n root a a' :
  arena_len a <= U32_MAX → prune_dead_variables n root a = Ok (tt, a') →
  ∀ i node, nodes a !! i = Some node →
    nodes a' !! i = Some node ∨
    nodes a' !! i = Some (clear_variable node) ∧
      ∃ u, binder node = Some u ∧ String.prefix "_" u = true ∧ ¬ statement_reads a root u.
Proof.
  intros Hroom H i node Hi. apply prune_dead_spec in H as (used & a1 & Hc & Hcl).
  destruct (used_variables_walks a Hroom n root ∅ _ _ Hc) as (-> & _ & Hread).
  destruct (Hcl i node Hi) as [Hs|[Hs Hp]]; [by left|right]. split; [done|].
  unfold prunable in Hp. destruct (binder node) as [u|]; [|done]. apply andb_prop in Hp as [Hpre Hno].
  exists u. split; [done|]. split; [done|]. intros Hr%Hread.
  by apply negb_true_iff, bool_decide_eq_false in Hno.
Qed.

(** [MATCH (_x), (_y), (z) RETURN _x]. *)
Definition prune_arena : QueryAstArena :=
  mkArena [NodePattern (Some "_x"%string) None []; NodePattern (Some "_y"%string) None [];
           NodePattern (Some "z"%string) None []; MatchClause false [0; 1; 2] None; Identifier "_x";
           ReturnClause false [mkProjection 4 None None] [] None None;
           QueryStatement Normal None [] [3] [] [] [] (Some 5)].

Definition pruned_arena : QueryAstArena :=
  match prune_dead_variables 3 6 prune_arena with Ok (_, a) => a | Err _ => arena_new end.

Lemma prune_keeps_read_variables_witness :
  nodes pruned_arena !! 1%nat = Some (NodePattern None None []) ∧
  nodes pruned_arena !! 2%nat = Some (NodePattern (Some "z"%string) None []) ∧
  statement_reads prune_arena 6 "_x" ∧
  ∀ i node, nodes prune_arena !! i = Some node →
    nodes pruned_arena !! i = Some node ∨
    nodes pruned_arena !! i = Some (clear_variable node) ∧
      ∃ u, binder node = Some u ∧ String.prefix "_" u = true ∧ ¬ statement_reads prune_arena 6 u.
Proof.
  split; [vm_compute; reflexivity|]. split; [vm_compute; reflexivity|]. split.
  - do 4 right. left. exists 5. split; [by left|]. left. exists 4. split; [by left|]. by apply mentions_name.
  - apply (prune_keeps_read_variables 3 6 prune_arena pruned_arena); [by vm_compute|vm_compute; reflexivity].
Defined.

(** ** What it does not look at *)

(** A name shared by two patterns joins them.  [MATCH (_a), (_a) RETURN 1] loses
    the join: both patterns become anonymous. *)
Definition join_arena : QueryAstArena :=
  mkArena [NodePattern (Some "_a"%string) (Some (LabelName "A")) [];
           NodePattern (Some "_a"%string) (Some (LabelName "B")) [];
           MatchClause false [0; 1] None; Literal (LInt64 1);
           ReturnClause false [mkProjection 3 None None] [] None None;
           QueryStatement Normal None [] [2] [] [] [] (Some 4)].

(** [MATCH (_a) WHERE EXISTS { MATCH (_a) WHERE _a.x } RETURN 1]: the subquery
    refers to the outer variable, whose name is cleared. *)
Definition exists_arena : QueryAstArena :=
  mkArena [NodePattern (Some "_a"%string) None []; NodePattern (Some "_a"%string) None [];
           Identifier "_a"; PropertyAccess 2 "x"; WhereClause 3; MatchClause false [1] (Some 4);
           ExistsSubquery 5; WhereClause 6; MatchClause false [0] (Some 7); Literal (LInt64 1);
           ReturnClause false [mkProjection 9 None None] [] None None;
           QueryStatement Normal None [] [8] [] [] [] (Some 10)].

(** [MATCH (_a) CALL p(_a)]: the call passes a variable whose name is cleared. *)
Definition call_arena : QueryAstArena :=
  mkArena [NodePattern (Some "_a"%string) None []; MatchClause false [0] None; Identifier "_a";
           ProcedureCall Normal None "p" [2] []; QueryStatement Normal None [] [1; 3] [] [] [] None].

(** Aggressive optimization clears names that are still needed: the name two
    patterns of a MATCH share, which drops the join between them, the name an
    EXISTS subquery refers to, which leaves the subquery about any node, and the
    name an argument of CALL refers to. *)
Theorem prune_drops_joins :
  match optimize 5 Aggressive 5 join_arena with
  | Ok (_, a) => nodes a !! 0%nat = Some (NodePattern None (Some (LabelName "A")) []) ∧
                 nodes a !! 1%nat = Some (NodePattern None (Some (LabelName "B")) [])
  | Err _ => False
  end ∧
  match optimize 5 Aggressive 11 exists_arena with
  | Ok (_, a) => nodes a !! 0%nat = Some (NodePattern None None []) ∧
                 nodes a !! 1%nat = Some (NodePattern (Some "_a"%string) None [])
  | Err _ => False
  end ∧
  match optimize 5 Aggressive 4 call_arena with
  | Ok (_, a) => nodes a !! 0%nat = Some (NodePattern None None []) ∧ nodes a !! 2%nat = Some (Identifier "_a")
  | Err _ => False
  end.
Proof. repeat split; vm_compute; repeat split; reflexivity. Qed.
