(* ===== verification/Text.v ===== *)
(** * Characters of Rust strings

    [str::chars] over the bytes of a string, and the tests on characters the
    program uses.  A [char] is the byte sequence that encodes it; what Unicode says
    of a character beyond ASCII is a parameter. *)
From S2P Require Import Prelude Bytes Errors.

Open Scope Z_scope.
Open Scope list_scope.

Lemma as_bytes_app s t : as_bytes (s +:+ t) = as_bytes s ++ as_bytes t.
Proof.
  induction s as [|c s IH]; [done|]. change (String.String c s +:+ t) with (String.String c (s +:+ t)).
  unfold as_bytes, list_byte_of_string in *. cbn [list_ascii_of_string map app]. by rewrite IH.
Qed.

Lemma of_bytes_app l k : of_bytes (l ++ k) = of_bytes l +:+ of_bytes k.
Proof. apply as_bytes_inj. by rewrite as_bytes_app, !as_bytes_of_bytes. Qed.

Lemma string_app_assoc (a b c : string) : (a +:+ b) +:+ c = a +:+ b +:+ c.
Proof. apply as_bytes_inj. by rewrite !as_bytes_app, app_assoc. Qed.

(** [format!("{n}")] of an integer. *)
Definition num (n : Z) : string := of_bytes (show_int n).

(** [slice::join]. *)
Fixpoint join (sep : string) (l : list string) : string :=
  match l with
  | [] => ""
  | [s] => s
  | s :: l => s +:+ sep +:+ join sep l
  end.

(** [str::to_ascii_uppercase]. *)
Definition ascii_upper_byte (b : byte) : byte :=
  if byte_in 97 122 b then to_u8 (u8 b - 32) else b.
Definition to_ascii_uppercase (s : string) : string :=
  of_bytes (map ascii_upper_byte (as_bytes s)).

(** ** [str::chars] *)

Notation char := (list byte).

(** Continuation bytes belong to the character before them. *)
Fixpoint chars (l : list byte) : list char :=
  match l with
  | [] => []
  | b :: l =>
      match chars l with
      | (c :: g) :: cs => if utf8_cont c then (b :: c :: g) :: cs else [b] :: (c :: g) :: cs
      | _ => [[b]]
      end
  end.
Definition unchars (cs : list char) : list byte := concat cs.

(** The text does not begin inside a character. *)
Definition starts_char (l : list byte) : bool :=
  match l with [] => true | b :: _ => negb (utf8_cont b) end.

Lemma chars_cons b l :
  chars (b :: l) = match chars l with
                   | (c :: g) :: cs => if utf8_cont c then (b :: c :: g) :: cs else [b] :: (c :: g) :: cs
                   | _ => [[b]]
                   end.
Proof. done. Qed.

Lemma chars_head b l : ∃ g cs, chars (b :: l) = (b :: g) :: cs.
Proof. rewrite chars_cons. destruct (chars l) as [|[|c g] cs]; [by eauto|by eauto|]. case_match; eauto. Qed.

Lemma unchars_chars l : unchars (chars l) = l.
Proof.
  induction l as [|b l IH]; [done|]. rewrite chars_cons.
  destruct l as [|c l]; [done|]. destruct (chars_head c l) as (g & cs & E). rewrite E in *.
  unfold unchars in *. simpl in IH. case_match; simpl; by rewrite IH.
Qed.

Lemma chars_app l k : starts_char k = true → chars (l ++ k) = chars l ++ chars k.
Proof.
  intros Hk. induction l as [|b l IH]; [done|].
  change ((b :: l) ++ k) with (b :: (l ++ k)). rewrite !chars_cons, IH.
  destruct l as [|c l].
  - simpl. destruct k as [|c k]; [done|]. destruct (chars_head c k) as (g & cs & ->).
    simpl in Hk. apply negb_true_iff in Hk. by rewrite Hk.
  - destruct (chars_head c l) as (g & cs & ->). simpl. by case_match.
Qed.

Lemma u8_cont_ascii b : is_ascii b = true → utf8_cont b = false.
Proof.
  unfold is_ascii, utf8_cont, byte_in. intros H%Z.ltb_lt. apply andb_false_iff. left. apply Z.leb_gt. lia.
Qed.

Lemma chars_ascii_cons b l : is_ascii b = true → starts_char l = true → chars (b :: l) = [b] :: chars l.
Proof. intros Hb Hl. by apply (chars_app [b]). Qed.

Lemma str_ok_starts s : str_ok s = true → starts_char (as_bytes s) = true.
Proof.
  unfold str_ok. destruct (as_bytes s) as [|b l]; [done|]. simpl. intros H. apply negb_true_iff.
  apply not_true_iff_false. unfold utf8_cont, byte_in. intros [H1%Z.leb_le H2%Z.leb_le]%andb_true_iff.
  revert H. repeat (case_match; try done); unfold byte_in in *; bool_to_prop; lia.
Qed.

(** ** Unicode *)

Class CharClass := {
  is_alphanumeric : char → bool;
  is_whitespace : char → bool;
  is_alphanumeric_ascii b :
    is_ascii b = true → is_alphanumeric [b] = byte_in 48 57 b || byte_in 65 90 b || byte_in 97 122 b;
  is_whitespace_ascii b :
    is_ascii b = true → is_whitespace [b] = byte_in 9 13 b || byte_in 32 32 b;
}.

(** The ASCII restriction is one such classification. *)
Definition ascii_CharClass : CharClass.
Proof.
  refine {|
    is_alphanumeric c := match c with
                         | [b] => byte_in 48 57 b || byte_in 65 90 b || byte_in 97 122 b
                         | _ => false
                         end;
    is_whitespace c := match c with [b] => byte_in 9 13 b || byte_in 32 32 b | _ => false end |};
  by intros.
Defined.

(** [str::trim]. *)
Fixpoint trim_start `{CharClass} (cs : list char) : list char :=
  match cs with
  | [] => []
  | c :: cs' => if is_whitespace c then trim_start cs' else cs
  end.
Lemma trim_start_suffix `{CharClass} cs : trim_start cs `suffix_of` cs.
Proof. induction cs as [|c cs IH]; [done|]. cbn. case_match; [by apply suffix_cons_r|done]. Qed.

Definition trim_chars `{CharClass} (cs : list char) : list char :=
  reverse (trim_start (reverse (trim_start cs))).
Definition trim `{CharClass} (s : string) : string :=
  of_bytes (unchars (trim_chars (chars (as_bytes s)))).
