(* ===== verification/Label.v ===== *)
(** * Label expressions ([voyager-core/src/ast.rs], [voyager-core/src/emitters/mod.rs])

    The boolean label expressions of patterns: their text, the recursive-descent
    parser that reads it, and the formats the dialects print.  The parser's
    position in the token slice is the rest of the slice; its fuel counts the
    parentheses entered, which the length of the input bounds. *)
From S2P Require Import Prelude Bytes Errors Text Ast.

Open Scope Z_scope.
Open Scope list_scope.
Open Scope string_scope.

#[export] Instance LabelExpression_eq_dec : EqDecision LabelExpression.
Proof. solve_decision. Defined.

(** ** Tokens *)

Inductive LabelToken := TIdent (name : string) | TAnd | TOr | TNot | TWildcard | TLParen | TRParen.

#[export] Instance LabelToken_eq_dec : EqDecision LabelToken.
Proof. solve_decision. Defined.

(** An error of the parser, or the end of the model's recursion bound. *)
Inductive label_stop := LabelError (msg : string) | LabelFuel.
Notation LM := (result label_stop).
Definition lerr {A} (msg : string) : LM A := Err (LabelError msg).

Definition char_string (c : char) : string := of_bytes c.
Definition chars_string (cs : list char) : string := of_bytes (unchars cs).

Section parser.
Context `{CharClass}.

Definition ident_char (c : char) : bool :=
  is_alphanumeric c || bool_decide (c = [x5f]) || bool_decide (c = [x2d]).

(** The characters up to the closing backtick, or to the end. *)
Fixpoint take_quoted (cs : list char) : list char * list char :=
  match cs with
  | [] => ([], [])
  | c :: cs =>
      if decide (c = [x60]) then ([], cs)
      else let '(name, rest) := take_quoted cs in (c :: name, rest)
  end.

Fixpoint take_ident (cs : list char) : list char * list char :=
  match cs with
  | [] => ([], [])
  | c :: cs' =>
      if ident_char c then let '(ident, rest) := take_ident cs' in (c :: ident, rest) else ([], cs)
  end.

Definition keyword_or_ident (ident : string) : LabelToken :=
  let u := to_ascii_uppercase ident in
  if decide (u = "AND") then TAnd
  else if decide (u = "OR") then TOr
  else if decide (u = "NOT") then TNot
  else TIdent ident.

Fixpoint tokenize (fuel : nat) (cs : list char) : LM (list LabelToken) :=
  match fuel with
  | O => Err LabelFuel
  | S fuel =>
      let one t cs := ts ← tokenize fuel cs; Ok (t :: ts) in
      match cs with
      | [] => Ok []
      | [x20] :: cs | [x09] :: cs | [x0d] :: cs | [x0a] :: cs | [x3a] :: cs => tokenize fuel cs
      | [x26] :: cs => one TAnd cs
      | [x7c] :: cs => one TOr cs
      | [x21] :: cs => one TNot cs
      | [x25] :: cs | [x2a] :: cs => one TWildcard cs
      | [x28] :: cs => one TLParen cs
      | [x29] :: cs => one TRParen cs
      | [x60] :: cs => let '(name, cs) := take_quoted cs in one (TIdent (chars_string name)) cs
      | ch :: _ =>
          if ident_char ch then
            let '(ident, cs) := take_ident cs in one (keyword_or_ident (chars_string ident)) cs
          else lerr ("Unexpected character '" +:+ char_string ch +:+ "' in label expression")
      end
  end.

Definition tokenize_label_expr (input : string) : LM (list LabelToken) :=
  let cs := chars (as_bytes input) in tokenize (S (length cs)) cs.

(** ** Parsing *)

Definition parser : Type := list LabelToken → LM (LabelExpression * list LabelToken).

(** The derived [Debug] of a token; [parse_primary] never shows an identifier. *)
Definition token_debug (t : LabelToken) : string :=
  match t with
  | TIdent name => "Ident(" +:+ name +:+ ")"
  | TAnd => "And" | TOr => "Or" | TNot => "Not" | TWildcard => "Wildcard"
  | TLParen => "LParen" | TRParen => "RParen"
  end.

Section descent.
(** [parse_disjunction], for what is in parentheses. *)
Variable disjunction : parser.

Definition parse_primary : parser := λ tokens,
  match tokens with
  | [] => lerr "Unexpected end of label expression"
  | TIdent name :: ts => Ok (LabelName name, ts)
  | TWildcard :: ts => Ok (LabelWildcard, ts)
  | TLParen :: ts =>
      '(expr, ts) ← disjunction ts;
      match ts with
      | TRParen :: ts => Ok (expr, ts)
      | _ => lerr "Unclosed parenthesis in label expression"
      end
  | other :: _ => lerr ("Unexpected token " +:+ token_debug other +:+ " in label expression")
  end.

Fixpoint parse_unary (tokens : list LabelToken) : LM (LabelExpression * list LabelToken) :=
  match tokens with
  | TNot :: ts => '(inner, ts) ← parse_unary ts; Ok (LabelNot inner, ts)
  | _ => parse_primary tokens
  end.

(** The loop [left op right op right ...]; each turn consumes its operator, so
    the number of tokens bounds the turns. *)
Fixpoint operands (sep : LabelToken) (node : LabelExpression → LabelExpression → LabelExpression)
    (operand : parser) (n : nat) (left : LabelExpression) (tokens : list LabelToken) :
    LM (LabelExpression * list LabelToken) :=
  match n with
  | O => Err LabelFuel
  | S n =>
      match tokens with
      | t :: ts =>
          if decide (t = sep) then
            '(rhs, ts) ← operand ts;
            operands sep node operand n (node left rhs) ts
          else Ok (left, tokens)
      | [] => Ok (left, tokens)
      end
  end.

Definition parse_conjunction : parser := λ tokens,
  '(lhs, ts) ← parse_unary tokens;
  operands TAnd LabelAnd parse_unary (S (length ts)) lhs ts.
End descent.

Fixpoint parse_disjunction (fuel : nat) (tokens : list LabelToken) :
    LM (LabelExpression * list LabelToken) :=
  match fuel with
  | O => Err LabelFuel
  | S fuel =>
      '(lhs, ts) ← parse_conjunction (parse_disjunction fuel) tokens;
      operands TOr LabelOr (parse_conjunction (parse_disjunction fuel)) (S (length ts)) lhs ts
  end.

(** [LabelExpression::parse]. *)
Definition label_parse (input : string) : LM LabelExpression :=
  tokens ← tokenize_label_expr input;
  match tokens with
  | [] => lerr "Empty label expression"
  | _ =>
      '(expr, rest) ← parse_disjunction (S (length tokens)) tokens;
      match rest with
      | [] => Ok expr
      | _ => lerr ("Unexpected trailing tokens in label expression '" +:+ input +:+ "'")
      end
  end.

Definition parse_heuristic (input : string) : LabelExpression :=
  let trimmed := trim input in
  if decide (trimmed = "") then LabelWildcard
  else match label_parse trimmed with Ok e => e | Err _ => LabelName trimmed end.

Definition from_labels (labels : list string) : option LabelExpression :=
  match labels with
  | [] => None
  | first :: rest => Some (foldl (λ e s, LabelAnd e (parse_heuristic s)) (parse_heuristic first) rest)
  end.
Definition from_edge_types (types : list string) : option LabelExpression :=
  match types with
  | [] => None
  | first :: rest => Some (foldl (λ e s, LabelOr e (parse_heuristic s)) (parse_heuristic first) rest)
  end.
End parser.

(** ** Flat conjunctions and disjunctions *)

Fixpoint is_simple_conjunction (e : LabelExpression) : bool :=
  match e with
  | LabelName _ => true
  | LabelAnd l r => is_simple_conjunction l && is_simple_conjunction r
  | _ => false
  end.
Fixpoint is_simple_disjunction (e : LabelExpression) : bool :=
  match e with
  | LabelName _ => true
  | LabelOr l r => is_simple_disjunction l && is_simple_disjunction r
  | _ => false
  end.
Fixpoint collect_conjunction_labels (e : LabelExpression) (acc : list string) : list string :=
  match e with
  | LabelName s => acc ++ [s]
  | LabelAnd l r => collect_conjunction_labels r (collect_conjunction_labels l acc)
  | _ => acc
  end.
Fixpoint collect_disjunction_labels (e : LabelExpression) (acc : list string) : list string :=
  match e with
  | LabelName s => acc ++ [s]
  | LabelOr l r => collect_disjunction_labels r (collect_disjunction_labels l acc)
  | _ => acc
  end.
Definition to_conjunction_labels (e : LabelExpression) : option (list string) :=
  if is_simple_conjunction e then Some (collect_conjunction_labels e []) else None.
Definition to_disjunction_labels (e : LabelExpression) : option (list string) :=
  if is_simple_disjunction e then Some (collect_disjunction_labels e []) else None.

(** ** Printing *)

Definition is_or (e : LabelExpression) : bool := match e with LabelOr _ _ => true | _ => false end.
Definition is_binary (e : LabelExpression) : bool :=
  match e with LabelAnd _ _ | LabelOr _ _ => true | _ => false end.
Definition wrap (b : bool) (s : string) : string := if b then "(" +:+ s +:+ ")" else s.

(** [Display], and [format_cypher_label_expr] and [format_pgq_label_expr], which
    differ from it in the text of the operators. *)
Fixpoint format_label_expr (and or : string) (e : LabelExpression) : string :=
  match e with
  | LabelName s => s
  | LabelWildcard => "%"
  | LabelNot inner => "!" +:+ wrap (is_binary inner) (format_label_expr and or inner)
  | LabelAnd l r =>
      wrap (is_or l) (format_label_expr and or l) +:+ and
        +:+ wrap (is_or r) (format_label_expr and or r)
  | LabelOr l r => format_label_expr and or l +:+ or +:+ format_label_expr and or r
  end.
Definition label_display : LabelExpression → string := format_label_expr " & " " | ".
Definition format_cypher_label_expr : LabelExpression → string := format_label_expr "&" "|".
Definition format_pgq_label_expr : LabelExpression → string := format_label_expr " & " " | ".

Definition top_wrapped (e : LabelExpression) : string := wrap (is_or e) (format_cypher_label_expr e).

Definition emit_cypher_node_labels (expr : option LabelExpression) : string :=
  match expr with
  | None => ""
  | Some e =>
      match to_conjunction_labels e with
      | Some labels => String.concat "" (map (λ l, ":" +:+ l) labels)
      | None => ":" +:+ top_wrapped e
      end
  end.
Definition emit_cypher_edge_labels (expr : option LabelExpression) : string :=
  match expr with
  | None => ""
  | Some e =>
      ":" +:+ match to_disjunction_labels e with
              | Some types => join "|" types
              | None => format_cypher_label_expr e
              end
  end.
Definition emit_gql_node_labels (expr : option LabelExpression) : string :=
  match expr with
  | None => ""
  | Some e =>
      match to_conjunction_labels e with
      | Some labels => ":" +:+ join "&" labels
      | None => ":" +:+ top_wrapped e
      end
  end.
Definition emit_gql_edge_labels (expr : option LabelExpression) : string :=
  match expr with
  | None => ""
  | Some e =>
      ":" +:+ match to_disjunction_labels e with
              | Some types => join "|" types
              | None => format_cypher_label_expr e
              end
  end.
Definition emit_pgq_node_labels (expr : option LabelExpression) : string :=
  match expr with
  | None => ""
  | Some e =>
      match to_conjunction_labels e with
      | Some labels => String.concat "" (map (λ l, " IS " +:+ l) labels)
      | None => " IS " +:+ format_pgq_label_expr e
      end
  end.
Definition emit_pgq_edge_labels (expr : option LabelExpression) : string :=
  match expr with
  | None => ""
  | Some e =>
      " IS " +:+ match to_disjunction_labels e with
                 | Some types => join " | " types
                 | None => format_pgq_label_expr e
                 end
  end.
