(* ===== verification/LabelText.v ===== *)
(** * Label expressions: their text and back

    What the printers write, the parser reads back, up to the association of
    chains of the same operator, which has no meaning. *)
From S2P Require Import Prelude Bytes Errors Text Ast Label.

Open Scope Z_scope.
Open Scope string_scope.
Open Scope list_scope.

(** ** Meaning *)

(** Does an element with these labels match? *)
Fixpoint label_matches (e : LabelExpression) (labels : list string) : bool :=
  match e with
  | LabelName s => bool_decide (s ∈ labels)
  | LabelAnd l r => label_matches l labels && label_matches r labels
  | LabelOr l r => label_matches l labels || label_matches r labels
  | LabelNot inner => negb (label_matches inner labels)
  | LabelWildcard => true
  end.

(** ** The expression that is read back *)

Fixpoint app_and (a b : LabelExpression) : LabelExpression :=
  match b with LabelAnd b c => LabelAnd (app_and a b) c | _ => LabelAnd a b end.
Fixpoint app_or (a b : LabelExpression) : LabelExpression :=
  match b with LabelOr b c => LabelOr (app_or a b) c | _ => LabelOr a b end.

(** Chains of one operator, associated to the left. *)
Fixpoint left_assoc (e : LabelExpression) : LabelExpression :=
  match e with
  | LabelAnd l r => app_and (left_assoc l) (left_assoc r)
  | LabelOr l r => app_or (left_assoc l) (left_assoc r)
  | LabelNot inner => LabelNot (left_assoc inner)
  | _ => e
  end.

Lemma app_and_assoc a b c : app_and (app_and a b) c = app_and a (app_and b c).
Proof. induction c; simpl; congruence. Qed.
Lemma app_or_assoc a b c : app_or (app_or a b) c = app_or a (app_or b c).
Proof. induction c; simpl; congruence. Qed.

Lemma app_and_matches a b ls :
  label_matches (app_and a b) ls = label_matches a ls && label_matches b ls.
Proof. induction b as [|b IHb c _| | |]; simpl; try done. rewrite IHb. by rewrite andb_assoc. Qed.
Lemma app_or_matches a b ls :
  label_matches (app_or a b) ls = label_matches a ls || label_matches b ls.
Proof. induction b as [| |b IHb c _| |]; simpl; try done. rewrite IHb. by rewrite orb_assoc. Qed.

Lemma left_assoc_matches e ls : label_matches (left_assoc e) ls = label_matches e ls.
Proof.
  induction e; simpl; rewrite ?app_and_matches, ?app_or_matches; congruence.
Qed.

Definition is_and (e : LabelExpression) : bool := match e with LabelAnd _ _ => true | _ => false end.

Lemma app_and_is a b : is_or (app_and a b) = false ∧ is_and (app_and a b) = true.
Proof. by destruct b. Qed.
Lemma app_or_is a b : is_or (app_or a b) = true ∧ is_and (app_or a b) = false.
Proof. by destruct b. Qed.
Lemma left_assoc_is e : is_or (left_assoc e) = is_or e ∧ is_and (left_assoc e) = is_and e.
Proof. destruct e; simpl; auto using app_and_is, app_or_is. Qed.
Lemma is_binary_or_and e : is_binary e = is_or e || is_and e.
Proof. by destruct e. Qed.

Lemma app_and_not a b : is_and b = false → app_and a b = LabelAnd a b.
Proof. by destruct b. Qed.
Lemma app_or_not a b : is_or b = false → app_or a b = LabelOr a b.
Proof. by destruct b. Qed.

(** ** Tokens of an expression *)

Definition wrap_toks (b : bool) (ts : list LabelToken) : list LabelToken :=
  if b then TLParen :: ts ++ [TRParen] else ts.

Fixpoint toks (e : LabelExpression) : list LabelToken :=
  match e with
  | LabelName s => [TIdent s]
  | LabelWildcard => [TWildcard]
  | LabelNot inner => TNot :: wrap_toks (is_binary inner) (toks inner)
  | LabelAnd l r => wrap_toks (is_or l) (toks l) ++ TAnd :: wrap_toks (is_or r) (toks r)
  | LabelOr l r => toks l ++ TOr :: toks r
  end.

(** Printing does not see the association either. *)
Lemma format_left_assoc a o e : format_label_expr a o (left_assoc e) = format_label_expr a o e.
Proof.
  assert (Hand : ∀ l r, format_label_expr a o (app_and l r)
      = wrap (is_or l) (format_label_expr a o l) +:+ a +:+ wrap (is_or r) (format_label_expr a o r)).
  { intros l r. induction r as [|r1 IH r2 _| | |]; try done.
    cbn [app_and format_label_expr]. destruct (app_and_is l r1) as [-> _]. cbn [wrap is_or]. rewrite IH.
    by rewrite !string_app_assoc. }
  assert (Hor : ∀ l r, format_label_expr a o (app_or l r)
      = format_label_expr a o l +:+ o +:+ format_label_expr a o r).
  { intros l r. induction r as [| |r1 IH r2 _| |]; try done.
    cbn [app_or format_label_expr]. rewrite IH. by rewrite !string_app_assoc. }
  induction e as [|l IHl r IHr|l IHl r IHr|e IH|]; cbn [left_assoc format_label_expr]; try done.
  - rewrite Hand, IHl, IHr. by destruct (left_assoc_is l) as [-> _], (left_assoc_is r) as [-> _].
  - by rewrite Hor, IHl, IHr.
  - rewrite !is_binary_or_and, IH. by destruct (left_assoc_is e) as [-> ->].
Qed.

(** ** Lexing *)

Section lexing.
Context `{CharClass}.

Definition cs (s : string) : list char := chars (as_bytes s).

(** A label the printers write as one identifier: letters, digits, [_] and [-],
    not a keyword. *)
Definition plain (s : string) : bool :=
  str_ok s && bool_decide (s ≠ "") && forallb ident_char (cs s)
  && bool_decide (keyword_or_ident s = TIdent s).
Fixpoint printable (e : LabelExpression) : bool :=
  match e with
  | LabelName s => plain s
  | LabelAnd l r | LabelOr l r => printable l && printable r
  | LabelNot inner => printable inner
  | LabelWildcard => true
  end.

Definition lexes (l : list char) (ts : list LabelToken) : Prop :=
  ∀ fuel, (length l < fuel)%nat → tokenize fuel l = Ok ts.

(** What follows an identifier does not extend it. *)
Definition stops (l : list char) : Prop :=
  match l with c :: _ => ident_char c = false | [] => True end.

Lemma cs_app s t : starts_char (as_bytes t) = true → cs (s +:+ t) = (cs s ++ cs t).
Proof. intros Ht. unfold cs. rewrite as_bytes_app. by apply chars_app. Qed.

Lemma chars_string_cs s : chars_string (cs s) = s.
Proof. unfold chars_string, cs. by rewrite unchars_chars, of_bytes_as_bytes. Qed.

Lemma lexes_nil : lexes [] [].
Proof. intros [|fuel] Hf; [simpl in Hf; lia|done]. Qed.

(** One character, one token. *)
Lemma lexes_one c t l ts :
  (c, t) ∈ [([x26], TAnd); ([x7c], TOr); ([x21], TNot); ([x25], TWildcard); ([x28], TLParen); ([x29], TRParen)] →
  lexes l ts → lexes (c :: l) (t :: ts).
Proof.
  intros Hin Hl [|fuel] Hf; [simpl in Hf; lia|]. simpl in Hf.
  assert (E : tokenize fuel l = Ok ts) by (apply Hl; lia).
  set_unfold in Hin. destruct_or? Hin; simplify_eq; simpl; by rewrite E.
Qed.

Lemma lexes_space l ts : lexes l ts → lexes ([x20] :: l) ts.
Proof. intros Hl [|fuel] Hf; [simpl in Hf; lia|]. simpl in *. apply Hl. lia. Qed.

Lemma take_ident_app name l :
  forallb ident_char name = true → stops l → take_ident (name ++ l) = (name, l).
Proof.
  intros Hn Hl. induction name as [|c name IH]; simpl in *.
  - destruct l as [|c l]; [done|]. simpl in *. by rewrite Hl.
  - apply andb_true_iff in Hn as [-> Hn]. by rewrite IH.
Qed.

Lemma ident_char_ascii b :
  is_ascii b = true →
  ident_char [b] = (byte_in 48 57 b || byte_in 65 90 b || byte_in 97 122 b)
    || bool_decide ([b] = [x5f]) || bool_decide ([b] = [x2d]).
Proof. intros Hb. unfold ident_char. by rewrite is_alphanumeric_ascii. Qed.

(** The characters with a meaning of their own are no identifiers. *)
Lemma special_no_ident b :
  b ∈ [x20; x09; x0d; x0a; x3a; x26; x7c; x21; x25; x2a; x28; x29; x60] → ident_char [b] = false.
Proof.
  intros Hin. set_unfold in Hin. destruct_or? Hin; subst b; rewrite ident_char_ascii by done; done.
Qed.

Lemma tokenize_ident fuel c l :
  ident_char c = true →
  tokenize (S fuel) (c :: l)
  = let '(ident, rest) := take_ident (c :: l) in
    ts ← tokenize fuel rest; Ok (keyword_or_ident (chars_string ident) :: ts).
Proof.
  intros Hc. destruct c as [|b [|b' g]]; cbn [tokenize]; [by rewrite Hc| |].
  - destruct b; try (by rewrite Hc);
      rewrite special_no_ident in Hc by (set_unfold; tauto); discriminate.
  - destruct b; by rewrite Hc.
Qed.

Lemma lexes_ident s l ts :
  plain s = true → stops l → lexes l ts → lexes (cs s ++ l) (TIdent s :: ts).
Proof.
  unfold plain. intros [[[Hok Hne%bool_decide_eq_true]%andb_true_iff Hid]%andb_true_iff
    Hkw%bool_decide_eq_true]%andb_true_iff Hstop Hl [|fuel] Hf; [simpl in Hf; lia|].
  rewrite length_app in Hf. pose proof (chars_string_cs s) as Hs.
  destruct (cs s) as [|c name] eqn:E.
  { by rewrite <- Hs in Hne. }
  simpl in Hid. apply andb_true_iff in Hid as [Hc Hn]. rewrite <- app_comm_cons, tokenize_ident by done.
  rewrite app_comm_cons, take_ident_app by (simpl; by rewrite ?Hc, ?Hn).
  simpl. rewrite (Hl fuel) by (simpl in Hf; lia). simpl. by rewrite Hs, Hkw.
Qed.

(** ** Lexing what the printers write *)

Lemma starts_char_app l k : starts_char l = true → starts_char k = true → starts_char (l ++ k) = true.
Proof. by destruct l. Qed.

Lemma starts_format a o e :
  starts_char (as_bytes a) = true → starts_char (as_bytes o) = true → printable e = true →
  starts_char (as_bytes (format_label_expr a o e)) = true.
Proof.
  intros Ha Ho. assert (Hw : ∀ b s, starts_char (as_bytes s) = true → starts_char (as_bytes (wrap b s)) = true)
    by (by intros []).
  induction e as [s|l IHl r IHr|l IHl r IHr|e IH|]; simpl; intros Hp; try done.
  - apply str_ok_starts. unfold plain in Hp. by repeat apply andb_true_iff in Hp as [Hp _].
  - apply andb_true_iff in Hp as [? ?]. rewrite !as_bytes_app. auto using starts_char_app.
  - apply andb_true_iff in Hp as [? ?]. rewrite !as_bytes_app. auto using starts_char_app.
Qed.

(** The texts of an operator. *)
Definition op_text (t : LabelToken) (s : string) : Prop :=
  match t with
  | TAnd => s = "&" ∨ s = " & "
  | TOr => s = "|" ∨ s = " | "
  | _ => False
  end.

Lemma op_text_lexes t s l ts :
  op_text t s → lexes l ts →
  starts_char (as_bytes s) = true ∧ stops (cs s ++ l) ∧ lexes (cs s ++ l) (t :: ts).
Proof.
  intros Hs Hl. destruct t; try done; destruct Hs as [-> | ->];
    (split; [done|]); (split; [apply special_no_ident; set_solver|]);
    cbn; repeat first [apply lexes_space | apply lexes_one; [set_solver|]]; done.
Qed.

Section format.
Context (a o : string) (Ha : op_text TAnd a) (Ho : op_text TOr o).

Lemma lexes_wrap b e l ts :
  printable e = true →
  (∀ l ts, stops l → lexes l ts → lexes (cs (format_label_expr a o e) ++ l) (toks e ++ ts)) →
  stops l → lexes l ts →
  lexes (cs (wrap b (format_label_expr a o e)) ++ l) (wrap_toks b (toks e) ++ ts).
Proof.
  intros Hp IH Hstop Hl. destruct b; [|by apply IH]. cbn [wrap wrap_toks].
  rewrite !cs_app; [|done|..].
  2: { rewrite as_bytes_app. apply starts_char_app; [|done]. apply starts_format; [| |done];
         by eapply op_text_lexes, lexes_nil. }
  change (cs "(") with [[x28]]. change (cs ")") with [[x29]]. cbn [app].
  apply (lexes_one [x28] TLParen); [set_unfold; tauto|]. rewrite <- !app_assoc. apply IH.
  - apply (special_no_ident x29). set_unfold. tauto.
  - apply (lexes_one [x29] TRParen); [set_unfold; tauto|done].
Qed.

Lemma lexes_format e l ts :
  printable e = true → stops l → lexes l ts →
  lexes (cs (format_label_expr a o e) ++ l) (toks e ++ ts).
Proof.
  revert l ts. assert (Sa : starts_char (as_bytes a) = true) by (by eapply op_text_lexes, lexes_nil).
  assert (So : starts_char (as_bytes o) = true) by (by eapply op_text_lexes, lexes_nil).
  assert (Sw : ∀ b e, printable e = true → starts_char (as_bytes (wrap b (format_label_expr a o e))) = true)
    by (intros [] e' He; [done|by apply starts_format]).
  induction e as [s|x IHl y IHr|x IHl y IHr|e IH|]; intros l ts Hp Hstop Hl;
    cbn [format_label_expr toks].
  - by apply lexes_ident.
  - apply andb_true_iff in Hp as [Hx Hy].
    rewrite !cs_app by (rewrite ?as_bytes_app; auto using starts_char_app).
    rewrite <- !app_assoc. cbn [app].
    assert (Hr : lexes (cs (wrap (is_or y) (format_label_expr a o y)) ++ l)
                   (wrap_toks (is_or y) (toks y) ++ ts)) by (apply lexes_wrap; auto).
    destruct (op_text_lexes TAnd a _ _ Ha Hr) as (_ & ? & ?). apply lexes_wrap; auto.
  - apply andb_true_iff in Hp as [Hx Hy].
    rewrite !cs_app by (rewrite ?as_bytes_app; auto using starts_char_app, starts_format).
    rewrite <- !app_assoc. cbn [app].
    assert (Hr : lexes (cs (format_label_expr a o y) ++ l) (toks y ++ ts)) by auto.
    destruct (op_text_lexes TOr o _ _ Ho Hr) as (_ & ? & ?). auto.
  - rewrite cs_app by auto. change (cs "!") with [[x21]]. cbn [app].
    apply (lexes_one [x21] TNot); [set_unfold; tauto|]. apply lexes_wrap; auto.
  - apply (lexes_one [x25] TWildcard); [set_unfold; tauto|done].
Qed.

Lemma tokenize_format e :
  printable e = true → tokenize_label_expr (format_label_expr a o e) = Ok (toks e).
Proof.
  intros Hp. pose proof (lexes_format e [] [] Hp I lexes_nil) as Hl. rewrite !app_nil_r in Hl.
  apply Hl. unfold cs. lia.
Qed.
End format.
End lexing.

(** ** Parsing the tokens *)

Section parsing.
Context (operand : parser) (sep : LabelToken) (node : LabelExpression → LabelExpression → LabelExpression).

(** The loop over operands ends with [res], whatever fuel beyond the tokens. *)
Definition loops (left : LabelExpression) (ts : list LabelToken) (res : LabelExpression * list LabelToken) :
    Prop :=
  ∀ n, (length ts < n)%nat → operands sep node operand n left ts = Ok res.

Definition head_not (t : LabelToken) (ts : list LabelToken) : Prop := head ts ≠ Some t.

Lemma loops_stop e ts : head_not sep ts → loops e ts (e, ts).
Proof.
  intros Hh [|n] Hn; [lia|]. destruct ts as [|t ts]; simpl; [done|].
  rewrite decide_False; [done|]. intros ->. by apply Hh.
Qed.

Lemma loops_step e ts r ts' res :
  operand ts = Ok (r, ts') → (length ts' <= length ts)%nat → loops (node e r) ts' res →
  loops e (sep :: ts) res.
Proof.
  intros Ho Hlen Hl [|n] Hn; simpl in *; [lia|]. rewrite decide_True by done. rewrite Ho. simpl.
  apply Hl. lia.
Qed.
End parsing.

Section levels.
Variable f : nat.
Let D := parse_disjunction f.
Notation and_loop := (loops (parse_unary D) TAnd LabelAnd).
Notation or_loop := (loops (parse_conjunction D) TOr LabelOr).

(** How each level of the parser reads the tokens of an expression: alone, at the
    head of a chain, and as a later operand of one. *)
Definition reads_unary (ts : list LabelToken) (e : LabelExpression) : Prop :=
  ∀ rest, parse_unary D (ts ++ rest) = Ok (e, rest).
Definition reads_conj (ts : list LabelToken) (e : LabelExpression) : Prop :=
  (∀ rest res, and_loop e rest res → parse_conjunction D (ts ++ rest) = Ok res)
  ∧ ∀ l rest res, and_loop (app_and l e) rest res → and_loop l (TAnd :: ts ++ rest) res.
Definition reads_disj (ts : list LabelToken) (e : LabelExpression) : Prop :=
  (∀ rest res, head_not TAnd rest → or_loop e rest res →
     parse_disjunction (S f) (ts ++ rest) = Ok res)
  ∧ ∀ l rest res, head_not TAnd rest → or_loop (app_or l e) rest res →
      or_loop l (TOr :: ts ++ rest) res.

Lemma unary_conj ts e : is_and e = false → reads_unary ts e → reads_conj ts e.
Proof.
  intros He Hu. split.
  - intros rest res Hl. unfold parse_conjunction. rewrite (Hu rest). apply (Hl (S (length rest))). lia.
  - intros l rest res Hl. rewrite app_and_not in Hl by done.
    eapply loops_step; [apply Hu|rewrite length_app; lia|done].
Qed.

Lemma conj_disj ts e : is_or e = false → reads_conj ts e → reads_disj ts e.
Proof.
  intros He [Hc _].
  assert (Hone : ∀ rest, head_not TAnd rest → parse_conjunction D (ts ++ rest) = Ok (e, rest))
    by (intros rest Hr; by apply Hc, loops_stop).
  split.
  - intros rest res Hr Hl. cbn [parse_disjunction]. fold D. rewrite Hone by done. apply (Hl (S (length rest))). lia.
  - intros l rest res Hr Hl. rewrite app_or_not in Hl by done.
    eapply loops_step; [by apply Hone|rewrite length_app; lia|done].
Qed.

Lemma conj_and tl tr l r :
  reads_conj tl l → reads_conj tr r → reads_conj (tl ++ TAnd :: tr) (app_and l r).
Proof.
  intros [Hl1 Hl2] [_ Hr2]. split.
  - intros rest res H. rewrite <- app_assoc. apply Hl1. by apply Hr2.
  - intros x rest res H. rewrite <- app_assoc. apply Hl2. apply Hr2. by rewrite app_and_assoc.
Qed.

Lemma disj_or tl tr l r :
  reads_disj tl l → reads_disj tr r → reads_disj (tl ++ TOr :: tr) (app_or l r).
Proof.
  intros [Hl1 Hl2] [_ Hr2]. split.
  - intros rest res Hr H. rewrite <- app_assoc. apply Hl1; [done|]. by apply Hr2.
  - intros x rest res Hr H. rewrite <- app_assoc. apply Hl2; [done|]. apply Hr2; [done|].
    by rewrite app_or_assoc.
Qed.

Lemma unary_not ts e : reads_unary ts e → reads_unary (TNot :: ts) (LabelNot e).
Proof. intros Hu rest. cbn [app parse_unary]. by rewrite (Hu rest). Qed.
End levels.

(** Parentheses hand over to the disjunction with one unit of fuel less. *)
Lemma unary_paren f ts e : reads_disj f ts e → reads_unary (S f) (TLParen :: ts ++ [TRParen]) e.
Proof.
  intros [Hd _] rest. rewrite <- app_comm_cons, <- app_assoc. cbn [parse_unary parse_primary].
  rewrite (Hd ([TRParen] ++ rest) (e, [TRParen] ++ rest)); [done|done|by apply loops_stop].
Qed.

Definition reads f e : Prop :=
  (is_binary e = false → reads_unary f (toks e) (left_assoc e))
  ∧ (is_or e = false → reads_conj f (toks e) (left_assoc e))
  ∧ reads_disj f (toks e) (left_assoc e).

(** From what the parser does at the innermost level that applies. *)
Lemma reads_of_unary f e :
  is_binary e = false → reads_unary f (toks e) (left_assoc e) → reads f e.
Proof.
  intros He Hu. rewrite is_binary_or_and in He. apply orb_false_iff in He as [Hor Hand].
  destruct (left_assoc_is e) as [Eor Eand]. rewrite Hor in Eor. rewrite Hand in Eand.
  pose proof (unary_conj f _ _ Eand Hu) as Hc. split; [done|]. split; [done|by apply conj_disj].
Qed.

Lemma reads_of_conj f e :
  is_and e = true → reads_conj f (toks e) (left_assoc e) → reads f e.
Proof.
  intros He Hc. destruct (left_assoc_is e) as [Eor _]. destruct e; try done.
  split; [done|]. split; [done|by apply conj_disj].
Qed.

Lemma toks_wrap_le b ts : (length ts <= length (wrap_toks b ts))%nat.
Proof. destruct b; simpl; rewrite ?length_app; lia. Qed.

Lemma length_wrap_toks b ts : length (wrap_toks b ts) = ((if b then 2 else 0) + length ts)%nat.
Proof. destruct b; simpl; rewrite ?length_app; simpl; lia. Qed.

(** An operand in parentheses, where it needs them. *)
Lemma reads_wrapped f e :
  (∀ f, (length (toks e) <= f)%nat → reads f e) → (length (wrap_toks (is_or e) (toks e)) <= f)%nat →
  reads_conj f (wrap_toks (is_or e) (toks e)) (left_assoc e).
Proof.
  intros IH Hf. rewrite length_wrap_toks in Hf. destruct (is_or e) eqn:E.
  - destruct f as [|f]; [lia|]. apply unary_conj.
    + destruct (left_assoc_is e) as [_ ->]. by destruct e.
    + apply unary_paren, IH. lia.
  - apply IH; [lia|done].
Qed.

Lemma parser_reads e f : (length (toks e) <= f)%nat → reads f e.
Proof.
  revert f. induction e as [s|l IHl r IHr|l IHl r IHr|e IH|]; intros f Hf.
  - by apply reads_of_unary.
  - simpl in Hf. rewrite length_app in Hf. simpl in Hf.
    apply reads_of_conj; [done|]. apply conj_and; apply reads_wrapped; auto; lia.
  - simpl in Hf. rewrite length_app in Hf. simpl in Hf.
    split; [done|]. split; [done|]. apply disj_or; [apply IHl|apply IHr]; lia.
  - simpl in Hf. rewrite length_wrap_toks in Hf. apply reads_of_unary; [done|].
    cbn [toks left_assoc]. apply unary_not. destruct (is_binary e) eqn:E.
    + destruct f as [|f]; [lia|]. apply unary_paren, IH. lia.
    + apply IH; [lia|done].
  - by apply reads_of_unary.
Qed.

Lemma toks_nonempty e : toks e ≠ [].
Proof. destruct e; simpl; try done; apply app_cons_not_nil || (intros ?%app_eq_nil; naive_solver). Qed.

(** ** Termination *)

(** The computation ends within the model's bound, and consumes input. *)
Definition consumes (ts : list LabelToken) (r : LM (LabelExpression * list LabelToken)) : Prop :=
  match r with
  | Ok (_, ts') => (length ts' < length ts)%nat
  | Err stop => stop ≠ LabelFuel
  end.

Lemma consumes_weaken t ts r : consumes ts r → consumes (t :: ts) r.
Proof. destruct r as [[e ts']|]; simpl; [lia|done]. Qed.

Lemma operands_consumes operand sep node n l ts0 ts :
  (∀ ts, (length ts < length ts0)%nat → consumes ts (operand ts)) →
  (length ts < n)%nat → (length ts < length ts0)%nat → consumes ts0 (operands sep node operand n l ts).
Proof.
  intros Ho. revert l ts. induction n as [|n IH]; intros l ts Hn Hlt; [lia|]. simpl.
  destruct ts as [|t ts]; [simpl in *; lia|]. case_decide; [|done].
  specialize (Ho ts ltac:(simpl in *; lia)). destruct (operand ts) as [[e ts']|stop]; simpl in *; [|done].
  apply IH; lia.
Qed.

Section total.
Context (D : parser) (k : nat).
Context (HD : ∀ ts, (length ts < k)%nat → consumes ts (D ts)).

Lemma unary_consumes ts : (length ts <= k)%nat → consumes ts (parse_unary D ts).
Proof.
  induction ts as [|t ts IH]; intros Hk; [done|]. simpl in Hk.
  destruct t; cbn [parse_unary parse_primary]; try done.
  - simpl; lia.
  - specialize (IH ltac:(lia)). destruct (parse_unary D ts) as [[e ts']|stop]; simpl in *; [lia|done].
  - simpl; lia.
  - specialize (HD ts ltac:(lia)). destruct (D ts) as [[e ts']|stop]; simpl in *; [|done].
    destruct ts' as [|[] ts']; simpl in *; try done. lia.
Qed.

Lemma conj_consumes ts : (length ts <= k)%nat → consumes ts (parse_conjunction D ts).
Proof.
  intros Hk. unfold parse_conjunction. pose proof (unary_consumes ts Hk) as Hu.
  destruct (parse_unary D ts) as [[e ts']|stop]; [|done].
  apply (operands_consumes (parse_unary D) TAnd LabelAnd (S (length ts')) e ts ts'); [|lia|done].
  intros ts1 H1. apply unary_consumes. lia.
Qed.
End total.

Lemma disjunction_consumes f ts : (length ts < f)%nat → consumes ts (parse_disjunction f ts).
Proof.
  revert ts. induction f as [|f IH]; intros ts Hf; [lia|]. cbn [parse_disjunction].
  assert (Hc : ∀ ts, (length ts <= f)%nat → consumes ts (parse_conjunction (parse_disjunction f) ts))
    by (intros; by apply (conj_consumes _ f)).
  pose proof (Hc ts ltac:(lia)) as H0.
  destruct (parse_conjunction (parse_disjunction f) ts) as [[e ts']|stop]; [|done].
  apply (operands_consumes (parse_conjunction (parse_disjunction f)) TOr LabelOr (S (length ts')) e ts ts');
    [|lia|done]. intros ts1 H1. apply Hc. lia.
Qed.

Section properties.
Context `{CharClass}.

Lemma take_quoted_length l : (length (take_quoted l).2 <= length l)%nat.
Proof.
  induction l as [|c l IH]; simpl; [lia|]. case_decide; simpl; [lia|].
  destruct (take_quoted l). simpl in *. lia.
Qed.

Lemma take_ident_length l : (length (take_ident l).2 <= length l)%nat.
Proof.
  induction l as [|c l IH]; simpl; [lia|]. destruct (ident_char c); simpl; [|lia].
  destruct (take_ident l). simpl in *. lia.
Qed.

Lemma tokenize_total fuel l : (length l < fuel)%nat → tokenize fuel l ≠ Err LabelFuel.
Proof.
  revert l. induction fuel as [|fuel IH]; intros l Hf; [lia|].
  assert (Hone : ∀ t l', (length l' < length l)%nat →
      (ts ← tokenize fuel l'; Ok (t :: ts)) ≠ Err LabelFuel).
  { intros t l' Hl'. specialize (IH l' ltac:(lia)). by destruct (tokenize fuel l'). }
  destruct l as [|c l]; [done|]. simpl in Hf, Hone.
  assert (Hident : ident_char c = true → tokenize (S fuel) (c :: l) ≠ Err LabelFuel).
  { intros Hc. rewrite tokenize_ident by done. cbn [take_ident]. rewrite Hc.
    pose proof (take_ident_length l). destruct (take_ident l) as [ident rest]. apply Hone. simpl in *. lia. }
  destruct (ident_char c) eqn:E; [by apply Hident|]. clear Hident. cbn [tokenize]. rewrite E.
  pose proof (take_quoted_length l). destruct (take_quoted l) as [name rest].
  destruct c as [|b [|b' g]]; [done| |by destruct b].
  destruct b; first [done | apply IH; lia | apply Hone; simpl in *; lia].
Qed.

(** The parser of label expressions always returns: on any text it ends with
    an expression or an error of its own, and the bounds of the model (the
    characters for the lexer, the tokens for each loop and for the nesting of
    parentheses) are never what stops it. *)
Theorem label_parse_total input : label_parse input ≠ Err LabelFuel.
Proof.
  unfold label_parse. pose proof (tokenize_total (S (length (chars (as_bytes input)))) (chars (as_bytes input))
    ltac:(lia)) as Ht. fold (tokenize_label_expr input) in Ht.
  destruct (tokenize_label_expr input) as [ts|stop]; [|simpl; congruence].
  cbn [mbind result_bind]. destruct ts as [|t ts]; [done|].
  pose proof (disjunction_consumes (S (length (t :: ts))) (t :: ts) ltac:(lia)) as Hd.
  destruct (parse_disjunction _ _) as [[e rest]|stop]; [|simpl in *; congruence].
  by destruct rest.
Qed.

Lemma label_parse_format a o e :
  printable e = true → op_text TAnd a → op_text TOr o → label_parse (format_label_expr a o e) = Ok (left_assoc e).
Proof.
  intros Hp Ha Ho. unfold label_parse. rewrite tokenize_format by done. cbn [mbind result_bind].
  pose proof (toks_nonempty e). destruct (toks e) as [|t ts] eqn:E; [done|]. rewrite <- E.
  destruct (parser_reads e (length (toks e)) ltac:(lia)) as (_ & _ & Hd & _).
  specialize (Hd [] (left_assoc e, [])). rewrite app_nil_r in Hd.
  rewrite Hd; [done|done|by apply loops_stop].
Qed.

(** A plain label is read as itself. *)
Lemma label_parse_plain s : plain s = true → label_parse s = Ok (LabelName s).
Proof. intros Hs. apply (label_parse_format " & " " | " (LabelName s)); [done|simpl; auto..]. Qed.

(** C14: What is printed is read back.  The text of any label expression whose
    labels are identifiers, as [Display] writes it or as the dialects do, parses;
    the result differs from the expression at most in how chains of one operator
    associate: it matches the same elements, and prints as the same text. *)
Theorem label_print_parse e :
  printable e = true →
  label_parse (label_display e) = Ok (left_assoc e)
  ∧ label_parse (format_cypher_label_expr e) = Ok (left_assoc e)
  ∧ label_parse (format_pgq_label_expr e) = Ok (left_assoc e)
  ∧ (∀ labels, label_matches (left_assoc e) labels = label_matches e labels)
  ∧ label_display (left_assoc e) = label_display e.
Proof.
  intros Hp.
  split_and!; [apply label_parse_format; simpl; auto..|apply left_assoc_matches|apply format_left_assoc].
Qed.
End properties.

#[local] Existing Instance ascii_CharClass.

Definition staff : LabelExpression :=
  LabelAnd (LabelOr (LabelName "Teacher") (LabelName "Admin"))
    (LabelAnd (LabelNot (LabelName "Bot")) LabelWildcard).

Lemma label_print_parse_witness :
  label_display staff = "(Teacher | Admin) & !Bot & %"
  ∧ label_parse (label_display staff)
    = Ok (LabelAnd (LabelAnd (LabelOr (LabelName "Teacher") (LabelName "Admin"))
                      (LabelNot (LabelName "Bot"))) LabelWildcard).
Proof. split; [reflexivity|]. by apply (label_print_parse staff). Defined.

(** The labels are not quoted: one read from backticks prints as other syntax. *)
Lemma quoted_label_is_lost :
  label_parse "`A|B`" = Ok (LabelName "A|B")
  ∧ label_parse (label_display (LabelName "A|B")) = Ok (LabelOr (LabelName "A") (LabelName "B"))
  ∧ emit_cypher_node_labels (Some (LabelName "A|B")) = ":A|B".
Proof. split_and!; reflexivity. Qed.
