(* ===== verification/Emit.v ===== *)
(** * Emission of queries: what the dialect emitters share ([voyager-core/src/visitor.rs])

    An emitter walks the arena and writes to a buffer; a literal becomes the next
    parameter, [$p0], [$p1], ..., and its value goes to the parameter map.  The
    methods of an emitter are computations in [EM], over its fields; the arena is
    only read.  The recursive methods call each other through a record [Calls],
    whose [S]-th approximation is made from the previous one: a fuel unit is spent
    on each descent to a handle stored in a node. *)
From S2P Require Import Prelude Bytes F64 Errors Text Ast Label.

Open Scope Z_scope.
Open Scope string_scope.
Open Scope list_scope.

(** ** Compiled queries *)

Record ColumnMeta := mkColumn { column_name : string; column_alias : option string }.

Record CompiledQuery := mkCompiled {
  statement : string;
  cq_parameters : list (string * LiteralValue);
  cq_mode : ExecutionMode;
  columns : list ColumnMeta;
}.

Definition ColumnMeta_new (name : string) : ColumnMeta := mkColumn name None.
Definition ColumnMeta_with_alias (name alias : string) : ColumnMeta := mkColumn name (Some alias).
Definition CompiledQuery_new (statement : string) (parameters : list (string * LiteralValue)) :
    CompiledQuery := mkCompiled statement parameters Normal [].
Definition with_execution_mode (statement : string) (parameters : list (string * LiteralValue))
    (mode : ExecutionMode) : CompiledQuery := mkCompiled statement parameters mode [].
Definition with_columns (statement : string) (parameters : list (string * LiteralValue))
    (mode : ExecutionMode) (columns : list ColumnMeta) : CompiledQuery :=
  mkCompiled statement parameters mode columns.

(** ** Texts of operators *)

Definition op_display (op : BinaryOp) : string :=
  match op with
  | Eq => "=" | Neq => "!=" | Lt => "<" | Lte => "<=" | Gt => ">" | Gte => ">="
  | In => "IN" | NotIn => "NOT IN" | Contains => "CONTAINS" | StartsWith => "STARTS WITH"
  | EndsWith => "ENDS WITH" | RegexMatch => "=~" | And => "AND" | Or => "OR" | Xor => "XOR"
  | Add => "+" | Concat => "||" | Sub => "-" | Mul => "*" | Div => "/" | Mod => "%"
  end.

(** The derived [Debug] of an aggregation, in lower case as the columns use it. *)
Definition aggregation_debug (f : AggregationFunc) : string :=
  match f with
  | Count => "Count" | CountDistinct => "CountDistinct" | Sum => "Sum" | Avg => "Avg"
  | Min => "Min" | Max => "Max" | Collect => "Collect"
  end.

(** ** Emitters *)

Record Emitter := mkEmitter {
  param_counter : Z;
  parameters : list (string * LiteralValue);
  buffer : string;
  ignore_execution_mode : bool;
}.

Definition Emitter_new : Emitter := mkEmitter 0 [] "" false.
Definition without_execution_mode (e : Emitter) : Emitter :=
  mkEmitter (param_counter e) (parameters e) (buffer e) true.

Definition EM (A : Type) : Type := Emitter → result stop (A * Emitter).

#[export] Instance EM_ret : MRet EM := λ A x s, Ok (x, s).
#[export] Instance EM_bind : MBind EM :=
  λ A B f m s, match m s with Ok (x, s) => f x s | Err e => Err e end.

Definition e_fail {A} (e : CoreErr) : EM A := λ _, Err (Fail e).
Definition violation {A} (msg : string) : EM A := e_fail (AstInvariantViolation msg).
Definition e_out_of_fuel {A} : EM A := λ _, Err OutOfFuel.

(** [self.buffer.push_str(s)]. *)
Definition push_str (x : string) : EM () :=
  λ s, Ok (tt, mkEmitter (param_counter s) (parameters s) (buffer s +:+ x) (ignore_execution_mode s)).

(** [arena.get(h)?]. *)
Definition node (a : QueryAstArena) (h : NodeHandle) : EM AstNode :=
  λ s, match arena_get a h with Ok n => Ok (n, s) | Err e => Err (Fail e) end.

(** The arm of a literal: [format!("p{}", self.param_counter)]. *)
Definition param_name (n : Z) : string := "p" +:+ num n.
Definition push_literal (lit : LiteralValue) : EM () :=
  λ s, let p := param_name (param_counter s) in
       Ok (tt, mkEmitter (as_unsigned 64 (param_counter s + 1)) (assoc_insert p lit (parameters s))
                 (buffer s +:+ "$" +:+ p) (ignore_execution_mode s)).

(** [for (i, x) in l.iter().enumerate() { if i > 0 { push(sep) } f(x)?; }]. *)
Fixpoint each_after {A} (sep : string) (f : A → EM ()) (l : list A) : EM () :=
  match l with
  | [] => mret tt
  | x :: l => _ ← push_str sep; _ ← f x; each_after sep f l
  end.
Definition separated {A} (sep : string) (f : A → EM ()) (l : list A) : EM () :=
  match l with
  | [] => mret tt
  | x :: l => _ ← f x; each_after sep f l
  end.

Fixpoint e_each {A} (f : A → EM ()) (l : list A) : EM () :=
  match l with
  | [] => mret tt
  | x :: l => _ ← f x; e_each f l
  end.

Definition e_option {A} (f : A → EM ()) (o : option A) : EM () :=
  match o with None => mret tt | Some x => f x end.
Definition e_when (b : bool) (m : EM ()) : EM () := if b then m else mret tt.

Fixpoint e_map {A B} (f : A → EM B) (l : list A) : EM (list B) :=
  match l with
  | [] => mret []
  | x :: l => y ← f x; ys ← e_map f l; mret (y :: ys)
  end.

Definition mode_ignored : EM bool := λ s, Ok (ignore_execution_mode s, s).

(** The loops of [visit_query] that write a space before every clause but the
    first of the statement. *)
Fixpoint spaced {A} (f : A → EM ()) (l : list A) (has_emitted : bool) : EM bool :=
  match l with
  | [] => mret has_emitted
  | x :: l => _ ← e_when has_emitted (push_str " "); _ ← f x; spaced f l true
  end.

(** The head and the end of [visit_query]: the fields are cleared, and what was
    written is taken out of them. *)
Definition clear_fields : EM () := λ s, Ok (tt, mkEmitter 0 [] "" (ignore_execution_mode s)).
Definition take_compiled (mode : ExecutionMode) (cols : list ColumnMeta) : EM CompiledQuery :=
  λ s, Ok (with_columns (buffer s) (parameters s) mode cols,
           mkEmitter (param_counter s) [] "" (ignore_execution_mode s)).

(** A [QueryStatement] under [EXISTS] or [COUNT]: an emitter of its own, which is
    given the counter, compiles it; then counter and parameters come back. *)
Definition nested_query (visit : EM CompiledQuery) : EM () :=
  λ s, match visit (mkEmitter (param_counter s) [] "" true) with
       | Err e => Err e
       | Ok (c, s') =>
           Ok (tt, mkEmitter (param_counter s')
                     (foldl (λ m kv, assoc_insert kv.1 kv.2 m) (parameters s) (cq_parameters c))
                     (buffer s +:+ statement c) (ignore_execution_mode s))
       end.

(** The recursive methods, at handles below the current one. *)
Record Calls := mkCalls {
  expr : NodeHandle → bool → EM ();                 (** [emit_expression(h, nested)] *)
  path_ : NodeHandle → EM ();                       (** [emit_path] *)
  query : NodeHandle → EM CompiledQuery;            (** [visit_query] of a fresh emitter *)
  expr_name : NodeHandle → EM (option string);      (** [resolve_expression_name] *)
  likely_string : NodeHandle → EM bool;             (** [is_likely_string_expr] *)
}.

Definition no_calls : Calls :=
  mkCalls (λ _ _, e_out_of_fuel) (λ _, e_out_of_fuel) (λ _, e_out_of_fuel) (λ _, e_out_of_fuel)
    (λ _, e_out_of_fuel).

(** ** Column names *)

(** The derived [Debug] of a literal, which only names unaliased columns. *)
Class LiteralDebug := literal_debug : LiteralValue → string.

Section columns.
Context `{LiteralDebug} (a : QueryAstArena) (c : Calls).

Definition resolve_expression_name (h : NodeHandle) : EM (option string) :=
  λ s, match arena_get a h with
       | Err _ => Ok (None, s)
       | Ok n =>
           match n with
           | Identifier id => Ok (Some id, s)
           | NodePattern v _ _ => Ok (v, s)
           | EdgePattern v _ _ _ _ _ _ => Ok (v, s)
           | PropertyAccess target property =>
               (t ← expr_name c target;
                mret match t with
                     | Some t => Some (if decide (property = "") then t else t +:+ "." +:+ property)
                     | None => if decide (property = "") then None else Some property
                     end) s
           | ParameterNode p => Ok (Some p, s)
           | Literal lit => Ok (Some (literal_debug lit), s)
           | FunctionCall name _ => Ok (Some (name +:+ "(...)"), s)
           | _ => Ok (None, s)
           end
       end.

Definition projection_column (idx : Z) (proj : ProjectionItem) : EM ColumnMeta :=
  match proj_alias proj with
  | Some alias => mret (mkColumn alias (Some alias))
  | None =>
      n ← resolve_expression_name (proj_expression proj);
      let base_name := default ("col_" +:+ num idx) n in
      mret (mkColumn match proj_aggregation proj with
                     | Some func =>
                         to_ascii_lowercase (aggregation_debug func +:+ "(" +:+ base_name +:+ ")")
                     | None => base_name
                     end None)
  end.

Definition from_projections (projections : list ProjectionItem) : EM (list ColumnMeta) :=
  e_map (λ ip, projection_column (Z.of_nat ip.1) ip.2)
    (imap (λ i p, (i, p)) projections).
End columns.
