(* ===== verification/EmitRel.v ===== *)
(** * Runs of an emitter on two arenas

    What is common to the safety proofs of the dialects.  Two arenas with the same
    nodes up to their literals are emitted side by side; a relation [SR] between the
    fields of the two emitters that the primitive writes keep is then kept by every
    method.  The same walk shows that the depth of descent suffices on arenas
    without cycles. *)
From S2P Require Import Prelude Bytes F64 Errors Text Ast ArenaShape Label Emit.

Open Scope Z_scope.
Open Scope string_scope.
Open Scope list_scope.

(** ** The same arena with other literals *)

Definition map_lit (f : LiteralValue → LiteralValue) (n : AstNode) : AstNode :=
  match n with Literal lit => Literal (f lit) | n => n end.
Definition map_lits (f : LiteralValue → LiteralValue) (a : QueryAstArena) : QueryAstArena :=
  mkArena (map_lit f <$> nodes a).

Lemma arena_get_map_lits f a h :
  arena_get (map_lits f a) h = map_lit f <$> arena_get a h.
Proof. unfold arena_get, map_lits. cbn. rewrite list_lookup_fmap. by destruct (nodes a !! Z.to_nat h). Qed.

(** A whole statement under [EXISTS] or [COUNT]. *)
Definition nests_query (a : QueryAstArena) : Prop :=
  ∃ i n sub, nodes a !! i = Some n ∧ (n = ExistsSubquery sub ∨ n = CountSubquery sub)
    ∧ match nodes a !! Z.to_nat sub with Some (QueryStatement _ _ _ _ _ _ _ _) => True | _ => False end.

(** ** Related runs *)

Definition pushed (x : string) (s : Emitter) : Emitter :=
  mkEmitter (param_counter s) (parameters s) (buffer s +:+ x) (ignore_execution_mode s).
Definition with_literal (lit : LiteralValue) (s : Emitter) : Emitter :=
  let p := param_name (param_counter s) in
  mkEmitter (as_unsigned 64 (param_counter s + 1)) (assoc_insert p lit (parameters s))
    (buffer s +:+ "$" +:+ p) (ignore_execution_mode s).
Definition cleared (s : Emitter) : Emitter := mkEmitter 0 [] "" (ignore_execution_mode s).

(** The error of a handle that points nowhere. *)
Definition dangles (e : CoreErr) : Prop := ∃ h, e = InvalidNodeHandle h.

(** The outcomes correspond; where [fin] holds, running out of fuel is excluded, and
    dangling handles are too unless the arena has some. *)
Definition related (a : QueryAstArena) {A B} (fin : Prop) (Q : A * Emitter → B * Emitter → Prop)
    (r1 : result stop (A * Emitter)) (r2 : result stop (B * Emitter)) : Prop :=
  match r1, r2 with
  | Ok x, Ok y => Q x y
  | Err (Fail e), Err (Fail _) => fin → complete a → ¬ dangles e
  | Err OutOfFuel, Err OutOfFuel => ¬ fin
  | _, _ => False
  end.

Section rel.
Context (a : QueryAstArena) (SR : Emitter → Emitter → Prop) (CR : CompiledQuery → CompiledQuery → Prop).
Context (P : LiteralValue → Prop).

Definition erel {A B} (fin : Prop) (R : A → B → Prop) (m1 : EM A) (m2 : EM B) : Prop :=
  ∀ s t, SR s t → related a fin (λ x y, R x.1 y.1 ∧ SR x.2 y.2) (m1 s) (m2 t).

Definition qrel (fin : Prop) (q1 q2 : EM CompiledQuery) : Prop :=
  ∀ s t, SR s t →
    related a fin (λ x y, CR x.1 y.1 ∧ param_counter x.2 = param_counter y.2) (q1 s) (q2 t).

(** What the relation has to satisfy; the literals written have [P], and [nest] says
    whether statements are nested. *)
Record closed (f : LiteralValue → LiteralValue) (nest : Prop) : Prop := {
  closed_push x s t : SR s t → SR (pushed x s) (pushed x t);
  closed_literal lit s t : P lit → SR s t → SR (with_literal lit s) (with_literal (f lit) t);
  closed_ignore s t : SR s t → ignore_execution_mode s = ignore_execution_mode t;
  closed_clear s t : SR s t → SR (cleared s) (cleared t);
  closed_take s t mode cols cols' : SR s t →
    CR (with_columns (buffer s) (parameters s) mode cols)
       (with_columns (buffer t) (parameters t) mode cols')
    ∧ param_counter s = param_counter t;
  closed_nested fin q1 q2 : nest → qrel fin q1 q2 → erel fin eq (nested_query q1) (nested_query q2);
}.

Section primitives.
Context (fin : Prop).

Lemma erel_ret {A B} (R : A → B → Prop) x y : R x y → erel fin R (mret x) (mret y).
Proof. intros HR s t Hst. by split. Qed.

Lemma erel_bind {A1 A2 B1 B2} (Q : A1 → A2 → Prop) (R : B1 → B2 → Prop) m1 m2 k1 k2 :
  erel fin Q m1 m2 → (∀ x y, Q x y → erel fin R (k1 x) (k2 y)) → erel fin R (m1 ≫= k1) (m2 ≫= k2).
Proof.
  intros Hm Hk s t Hst. specialize (Hm s t Hst). unfold mbind, EM_bind.
  destruct (m1 s) as [[x s']|[]], (m2 t) as [[y t']|[]]; try done.
  destruct Hm as [HQ Hst']. by apply Hk.
Qed.

Lemma erel_seq {A B1 B2} (R : B1 → B2 → Prop) (m1 m2 : EM A) k1 k2 :
  erel fin eq m1 m2 → (∀ x, erel fin R (k1 x) (k2 x)) → erel fin R (m1 ≫= k1) (m2 ≫= k2).
Proof. intros Hm Hk. eapply erel_bind; [done|]. by intros x ? <-. Qed.

Lemma erel_fail {A B} (R : A → B → Prop) e1 e2 : ¬ dangles e1 → erel fin R (e_fail e1) (e_fail e2).
Proof. intros He s t Hst _ _. done. Qed.

Lemma erel_violation {A B} (R : A → B → Prop) x y : erel fin R (violation x) (violation y).
Proof. apply erel_fail. by intros [? ?]. Qed.

Lemma erel_option {A} (g1 g2 : A → EM ()) o :
  (∀ x, x ∈ option_list o → erel fin eq (g1 x) (g2 x)) → erel fin eq (e_option g1 o) (e_option g2 o).
Proof. intros H. destruct o; [apply H; set_solver|by apply erel_ret]. Qed.

Lemma erel_when b m1 m2 : erel fin eq m1 m2 → erel fin eq (e_when b m1) (e_when b m2).
Proof. intros H. destruct b; [done|by apply erel_ret]. Qed.

Lemma erel_each {A} (g1 g2 : A → EM ()) l :
  (∀ x, x ∈ l → erel fin eq (g1 x) (g2 x)) → erel fin eq (e_each g1 l) (e_each g2 l).
Proof.
  induction l as [|x l IH]; intros H; simpl; [by apply erel_ret|].
  apply erel_seq; [apply H; set_solver|]. intros _. apply IH. intros y Hy. apply H. set_solver.
Qed.

Lemma erel_map {A B C} (R : B → C → Prop) (g1 : A → EM B) (g2 : A → EM C) l :
  (∀ x, x ∈ l → erel fin R (g1 x) (g2 x)) → erel fin (Forall2 R) (e_map g1 l) (e_map g2 l).
Proof.
  induction l as [|x l IH]; intros H; simpl; [by apply erel_ret|].
  eapply erel_bind; [apply H; set_solver|]. intros y z Hyz.
  eapply erel_bind; [apply IH; intros w Hw; apply H; set_solver|]. intros ys zs Hys.
  apply erel_ret. by constructor.
Qed.

Lemma erel_weaken {A B} fin' (R : A → B → Prop) m1 m2 :
  erel fin' R m1 m2 → (fin → fin') → erel fin R m1 m2.
Proof.
  intros H Hf s t Hst. specialize (H s t Hst).
  destruct (m1 s) as [?|[]], (m2 t) as [?|[]]; simpl in *; tauto.
Qed.

Lemma qrel_weaken fin' q1 q2 : qrel fin' q1 q2 → (fin → fin') → qrel fin q1 q2.
Proof.
  intros H Hf s t Hst. specialize (H s t Hst).
  destruct (q1 s) as [?|[]], (q2 t) as [?|[]]; simpl in *; tauto.
Qed.

Lemma qrel_bind {A1 A2} (Q : A1 → A2 → Prop) m1 m2 k1 k2 :
  erel fin Q m1 m2 → (∀ x y, Q x y → qrel fin (k1 x) (k2 y)) → qrel fin (m1 ≫= k1) (m2 ≫= k2).
Proof.
  intros Hm Hk s t Hst. specialize (Hm s t Hst). unfold mbind, EM_bind.
  destruct (m1 s) as [[x s']|[]], (m2 t) as [[y t']|[]]; try done.
  destruct Hm as [HQ Hst']. by apply Hk.
Qed.

Lemma qrel_seq {A} (m1 m2 : EM A) k1 k2 :
  erel fin eq m1 m2 → (∀ x, qrel fin (k1 x) (k2 x)) → qrel fin (m1 ≫= k1) (m2 ≫= k2).
Proof. intros Hm Hk. eapply qrel_bind; [done|]. by intros x ? <-. Qed.

Lemma qrel_violation x y : qrel fin (violation x) (violation y).
Proof. intros s t Hst _ _. by intros [? ?]. Qed.

Context (f : LiteralValue → LiteralValue) (nest : Prop) (HC : closed f nest).

Lemma erel_push x : erel fin eq (push_str x) (push_str x).
Proof. intros s t Hst. split; [done|]. by apply (closed_push f nest HC). Qed.

Lemma erel_literal lit : P lit → erel fin eq (push_literal lit) (push_literal (f lit)).
Proof. intros Hlit s t Hst. split; [done|]. by apply (closed_literal f nest HC). Qed.

Lemma erel_mode : erel fin eq mode_ignored mode_ignored.
Proof. intros s t Hst. split; [by apply (closed_ignore f nest HC)|done]. Qed.

Lemma erel_clear : erel fin eq clear_fields clear_fields.
Proof. intros s t Hst. split; [done|]. by apply (closed_clear f nest HC). Qed.

Lemma qrel_take mode cols cols' : qrel fin (take_compiled mode cols) (take_compiled mode cols').
Proof. intros s t Hst. by apply (closed_take f nest HC s t mode cols cols'). Qed.

Lemma erel_each_after {A} x (g1 g2 : A → EM ()) l :
  (∀ y, y ∈ l → erel fin eq (g1 y) (g2 y)) → erel fin eq (each_after x g1 l) (each_after x g2 l).
Proof.
  induction l as [|y l IH]; intros H; simpl; [by apply erel_ret|].
  apply erel_seq; [apply erel_push|]. intros _. apply erel_seq; [apply H; set_solver|].
  intros _. apply IH. intros z Hz. apply H. set_solver.
Qed.

Lemma erel_separated {A} x (g1 g2 : A → EM ()) l :
  (∀ y, y ∈ l → erel fin eq (g1 y) (g2 y)) → erel fin eq (separated x g1 l) (separated x g2 l).
Proof.
  intros H. destruct l as [|y l]; simpl; [by apply erel_ret|].
  apply erel_seq; [apply H; set_solver|]. intros _. apply erel_each_after.
  intros z Hz. apply H. set_solver.
Qed.

Lemma erel_spaced {A} (g1 g2 : A → EM ()) l b :
  (∀ y, y ∈ l → erel fin eq (g1 y) (g2 y)) → erel fin eq (spaced g1 l b) (spaced g2 l b).
Proof.
  revert b. induction l as [|y l IH]; intros b H; simpl; [by apply erel_ret|].
  apply erel_seq; [apply erel_when, erel_push|]. intros _. apply erel_seq; [apply H; set_solver|].
  intros _. apply IH. intros z Hz. apply H. set_solver.
Qed.
End primitives.

(** ** Handles and fuel *)

Section walk.
Context (f : LiteralValue → LiteralValue).

(** The depth [n] is enough for what hangs below [h], and [h] points to a node. *)
Definition enough (n : nat) (h : NodeHandle) : Prop :=
  (∃ rank, ranked a rank ∧ (rank (Z.to_nat h) < n)%nat) ∧ (complete a → is_Some (nodes a !! Z.to_nat h)).

(** [fin] implies that the depth is enough at [h]. *)
Definition covers (fin : Prop) (n : nat) (h : NodeHandle) : Prop := fin → enough n h.

Lemma covers_child fin n h nd h' :
  nodes a !! Z.to_nat h = Some nd → h' ∈ children nd → covers fin (S n) h → covers fin n h'.
Proof.
  intros Hn Hin Hc Hfin. destruct (Hc Hfin) as [(rank & Hr & Hlt) _]. split.
  - exists rank. split; [done|]. pose proof (Hr _ _ _ Hn Hin). lia.
  - intros Hcomp. by eapply Hcomp.
Qed.

Lemma covers_S fin n h : covers fin n h → covers fin (S n) h.
Proof. intros Hc Hfin. destruct (Hc Hfin) as [(rank & Hr & Hlt) Hs]. split; [|done]. exists rank. split; [done|lia]. Qed.

Lemma covers_lookup fin n h :
  covers fin n h → fin → complete a → nodes a !! Z.to_nat h = None → False.
Proof. intros Hc Hfin Hcomp Hn. destruct (Hc Hfin) as [_ Hs]. by destruct (Hs Hcomp) as [? ?]; simplify_eq. Qed.

Lemma erel_node {B1 B2} fin n (R : B1 → B2 → Prop) h k1 k2 :
  covers fin n h → (∀ nd, nodes a !! Z.to_nat h = Some nd → erel fin R (k1 nd) (k2 (map_lit f nd))) →
  erel fin R (node a h ≫= k1) (node (map_lits f a) h ≫= k2).
Proof.
  intros Hc Hk s t Hst. unfold node, mbind, EM_bind. rewrite arena_get_map_lits.
  unfold arena_get. destruct (nodes a !! Z.to_nat h) as [nd|] eqn:E; simpl; [by apply Hk|].
  intros Hfin Hcomp _. by eapply covers_lookup.
Qed.

Lemma qrel_node fin n h k1 k2 :
  covers fin n h → (∀ nd, nodes a !! Z.to_nat h = Some nd → qrel fin (k1 nd) (k2 (map_lit f nd))) →
  qrel fin (node a h ≫= k1) (node (map_lits f a) h ≫= k2).
Proof.
  intros Hc Hk s t Hst. unfold node, mbind, EM_bind. rewrite arena_get_map_lits.
  unfold arena_get. destruct (nodes a !! Z.to_nat h) as [nd|] eqn:E; simpl; [by apply Hk|].
  intros Hfin Hcomp _. by eapply covers_lookup.
Qed.

(** The recursive methods of the two runs, at depth [n]. *)
Record calls_related (n : nat) (c1 c2 : Calls) : Prop := {
  rel_expr fin h b : covers fin n h → erel fin eq (expr c1 h b) (expr c2 h b);
  rel_path fin h : covers fin n h → erel fin eq (path_ c1 h) (path_ c2 h);
  rel_query fin h : covers fin n h → qrel fin (query c1 h) (query c2 h);
  rel_name fin h : covers fin n h → erel fin (λ _ _, True) (expr_name c1 h) (expr_name c2 h);
  rel_likely fin h : covers fin n h → erel fin eq (likely_string c1 h) (likely_string c2 h);
}.

Lemma no_calls_related : calls_related 0 no_calls no_calls.
Proof.
  constructor; intros; intros s t Hst; simpl; intros Hfin;
    match goal with H : covers _ _ _ |- _ => destruct (H Hfin) as [(? & ? & ?) ?]; lia end.
Qed.
End walk.
End rel.

(** ** The walk through a method

    [emit] holds the relations of the methods already proved; [walk] follows the
    text of a method on both sides. *)
Create HintDb emit.

Lemma elem_fst {A B} (x : A * B) l : x ∈ l → x.1 ∈ l.*1.
Proof. apply list_elem_of_fmap_2. Qed.
Lemma elem_snd {A B} (x : A * B) l : x ∈ l → x.2 ∈ l.*2.
Proof. apply list_elem_of_fmap_2. Qed.
Lemma elem_projection p l : p ∈ l → proj_expression p ∈ projection_handles l.
Proof. apply list_elem_of_fmap_2. Qed.

(** Membership among the handles of a node, and so the depth left for a handle. *)
Ltac among :=
  cbn [children option_list option_rect]; repeat first [rewrite elem_of_app | rewrite elem_of_cons];
  auto 12 using elem_fst, elem_snd, elem_projection, list_elem_of_here.
Ltac deeper :=
  match goal with
  | H : covers _ _ _ ?h |- covers _ _ _ ?h => exact H
  | H : nodes ?a !! Z.to_nat ?h = Some ?nd |- covers ?a _ ?n ?h' =>
      refine (covers_child a _ n h nd h' H _ _); [solve [among]|deeper]
  | |- covers _ _ (S _) _ => apply covers_S; deeper
  end.

Ltac walk_step :=
  lazymatch goal with
  | |- erel _ _ _ _ (mret _) (mret _) => by apply erel_ret
  | |- erel _ _ _ _ (violation _) (violation _) => apply erel_violation
    | |- erel _ _ _ _ (push_str _) (push_str _) => eapply erel_push; eassumption
  | |- erel _ _ _ _ (push_literal _) (push_literal _) => eapply erel_literal; [eassumption|eauto]
  | |- erel _ _ _ _ (node _ _ ≫= _) (node _ _ ≫= _) => eapply erel_node; [deeper|intros [] ?; cbn [map_lit]]
  | |- erel _ _ _ _ (_ ≫= _) (_ ≫= _) => eapply erel_seq; [|intros ?]
  | |- erel _ _ _ _ (e_option _ _) (e_option _ _) => apply erel_option; intros ? ?
  | |- erel _ _ _ _ (e_when _ _) (e_when _ _) => apply erel_when
  | |- erel _ _ _ _ (e_each _ _) (e_each _ _) => apply erel_each; intros ? ?
  | |- erel _ _ _ _ (separated _ _ _) (separated _ _ _) => eapply erel_separated; [eassumption|intros ? ?]
  | |- erel _ _ _ _ (spaced _ _ _) (spaced _ _ _) => eapply erel_spaced; [eassumption|intros ? ?]
  | |- erel _ _ _ _ (expr _ _ _) (expr _ _ _) => eapply rel_expr; [eassumption|deeper]
  | |- erel _ _ _ _ (path_ _ _) (path_ _ _) => eapply rel_path; [eassumption|deeper]
  | |- erel _ _ _ _ (likely_string _ _) (likely_string _ _) => eapply rel_likely; [eassumption|deeper]
  | |- erel _ _ _ _ (match ?x with _ => _ end) _ => destruct x eqn:?
  | |- erel _ _ _ _ _ _ => solve [eauto with emit]
  | |- covers _ _ _ _ => deeper
  end.
Ltac walk := repeat walk_step.

(** Methods that answer with a name: only that they answer alike. *)
Notation any := (λ _ _, True).

Section columns.
Context `{LiteralDebug} (a : QueryAstArena) (f : LiteralValue → LiteralValue).
Context (SR : Emitter → Emitter → Prop) (CR : CompiledQuery → CompiledQuery → Prop).
Context (n : nat) (c1 c2 : Calls) (Hcalls : calls_related a SR CR n c1 c2).

Lemma rel_resolve fin h :
  covers a fin (S n) h →
  erel a SR fin any (resolve_expression_name a c1 h) (resolve_expression_name (map_lits f a) c2 h).
Proof.
  intros Hh s t Hst. unfold resolve_expression_name. rewrite arena_get_map_lits. unfold arena_get.
  destruct (nodes a !! Z.to_nat h) as [nd|] eqn:E; [|done].
  destruct nd; cbn [map_lit ok_or fmap result_fmap]; try done.
  revert s t Hst. eapply (erel_bind a SR fin any any); [eapply rel_name; [done|deeper]|].
  intros. by apply erel_ret.
Qed.

Lemma rel_projections fin projections :
  (∀ p, p ∈ projections → covers a fin n (proj_expression p)) →
  erel a SR fin any (from_projections a c1 projections) (from_projections (map_lits f a) c2 projections).
Proof.
  intros Hp. unfold from_projections. intros s t Hst.
  assert (Hm : erel a SR fin (Forall2 any)
    (e_map (λ ip, projection_column a c1 (Z.of_nat ip.1) ip.2) (imap (λ i p, (i, p)) projections))
    (e_map (λ ip, projection_column (map_lits f a) c2 (Z.of_nat ip.1) ip.2) (imap (λ i p, (i, p)) projections))).
  { apply erel_map. intros [i p] Hip. apply elem_of_lookup_imap_1 in Hip as (j & p' & [= -> ->] & Hj).
    unfold projection_column. cbn [fst snd]. destruct (proj_alias p'); [by apply erel_ret|].
    eapply (erel_bind a SR fin any any); [|intros; by apply erel_ret].
    apply rel_resolve, covers_S, Hp. by eapply list_elem_of_lookup_2. }
  specialize (Hm s t Hst). by destruct (e_map _ _ s) as [?|[]], (e_map _ _ t) as [?|[]]; simpl in *; naive_solver.
Qed.
End columns.

#[export] Hint Extern 1 (covers _ _ _ _) => deeper : emit.
