(* ===== verification/Cypher.v ===== *)
(** * The openCypher emitter ([voyager-core/src/emitters/cypher.rs]) and Apache AGE's wrapper
    ([emitters/age.rs])

    One definition per method of [CypherEmitter], over the fields in [EM].  The text
    that follows the colon of an invariant violation (the debug rendering of the
    node) is left out. *)
From S2P Require Import Prelude Bytes F64 Errors Text Ast Label Emit.

Open Scope Z_scope.
Open Scope string_scope.
Open Scope list_scope.

Section cypher.
Context `{LiteralDebug} (a : QueryAstArena) (c : Calls).

(** ** Patterns *)

(** In a pattern predicate [left = right], the key, and whether the value is the
    right operand. *)
Definition property_of (n : AstNode) : option string :=
  match n with PropertyAccess _ property => Some property | _ => None end.
Definition identifier_of (n : AstNode) : option string :=
  match n with Identifier ident => Some ident | _ => None end.
Definition predicate_key (l r : AstNode) : option (string * bool) :=
  match property_of l with
  | Some property => Some (property, true)
  | None =>
      match property_of r with
      | Some property => Some (property, false)
      | None =>
          match identifier_of l with
          | Some ident => Some (ident, true)
          | None => (λ ident, (ident, false)) <$> identifier_of r
          end
      end
  end.

Definition emit_pattern_predicate (pred_handle : NodeHandle) : EM () :=
  pred_node ← node a pred_handle;
  match pred_node with
  | BinaryExpression l Eq r =>
      left_node ← node a l;
      right_node ← node a r;
      match predicate_key left_node right_node with
      | Some (key, value_right) =>
          _ ← push_str key;
          _ ← push_str ": ";
          expr c (if value_right : bool then r else l) false
      | None => expr c pred_handle false
      end
  | _ => expr c pred_handle false
  end.

Definition emit_predicates (predicates : list NodeHandle) : EM () :=
  e_when (negb (bool_decide (predicates = [])))
    (_ ← push_str " {"; _ ← separated ", " emit_pattern_predicate predicates; push_str "}").

Definition emit_node_pattern (handle : NodeHandle) : EM () :=
  n ← node a handle;
  match n with
  | NodePattern variable label_expression predicates =>
      _ ← push_str "(";
      _ ← e_option push_str variable;
      _ ← push_str (emit_cypher_node_labels label_expression);
      _ ← emit_predicates predicates;
      push_str ")"
  | _ => violation "Expected NodePattern, got "
  end.

Definition emit_hops (min_hops max_hops : option Z) : EM () :=
  match min_hops, max_hops with
  | None, None => mret tt
  | _, _ =>
      _ ← push_str "*";
      _ ← e_option (λ min, push_str (num min)) min_hops;
      _ ← push_str "..";
      e_option (λ max, push_str (num max)) max_hops
  end.

Definition emit_edge_pattern (handle : NodeHandle) : EM () :=
  n ← node a handle;
  match n with
  | EdgePattern variable label_expression direction min_hops max_hops predicates target_node =>
      _ ← push_str match direction with
                   | DirIncoming => "<-["
                   | DirOutgoing | DirUndirected => "-["
                   end;
      _ ← e_option push_str variable;
      _ ← push_str (emit_cypher_edge_labels label_expression);
      _ ← emit_hops min_hops max_hops;
      _ ← emit_predicates predicates;
      _ ← push_str match direction with
                   | DirOutgoing => "]->"
                   | DirIncoming | DirUndirected => "]-"
                   end;
      emit_node_pattern target_node
  | _ => violation "Expected EdgePattern, got "
  end.

(** The path mode is not written; the source only logs a warning. *)
Definition emit_path (handle : NodeHandle) : EM () :=
  n ← node a handle;
  match n with
  | NodePattern _ _ _ => emit_node_pattern handle
  | PathChain path_variable path_mode start_node edges =>
      _ ← e_option (λ var, _ ← push_str var; push_str " = ") path_variable;
      _ ← emit_node_pattern start_node;
      e_each emit_edge_pattern edges
  | MatchClause _ (_ :: _ as paths) _ => separated ", " (path_ c) paths
  | QueryStatement _ _ _ (_ :: _ as matches) _ _ _ _ => separated ", " (path_ c) matches
  | _ => violation "Expected PathChain or NodePattern, got "
  end.

(** ** Expressions *)

Definition cypher_func (name : string) : string :=
  let l := to_ascii_lowercase name in
  if decide (l = "cardinality") then "size"
  else if decide (l ∈ ["char_length"; "character_length"]) then "size"
  else if decide (l = "lower") then "toLower"
  else if decide (l = "upper") then "toUpper"
  else if decide (l = "path_length") then "length"
  else if decide (l ∈ ["distance"; "point.distance"; "point_distance"]) then "point.distance"
  else name.

Definition emit_where (handle : NodeHandle) : EM () :=
  n ← node a handle;
  match n with
  | WhereClause root_predicate => _ ← push_str " WHERE "; expr c root_predicate false
  | _ => violation "Expected WhereClause, got "
  end.

Definition emit_match_clause (optional : bool) (paths : list NodeHandle)
    (where_clause : option NodeHandle) : EM () :=
  _ ← push_str (if optional then "OPTIONAL MATCH " else "MATCH ");
  _ ← separated ", " (path_ c) paths;
  e_option emit_where where_clause.

Definition emit_subquery_body (handle : NodeHandle) : EM () :=
  n ← node a handle;
  match n with
  | NodePattern _ _ _ | PathChain _ _ _ _ => _ ← push_str "MATCH "; emit_path handle
  | MatchClause optional paths where_clause => emit_match_clause optional paths where_clause
  | QueryStatement _ _ _ _ _ _ _ _ => nested_query (query c handle)
  | WhereClause _ => emit_where handle
  | _ => expr c handle false
  end.

Definition emit_binary (l : NodeHandle) (op : BinaryOp) (r : NodeHandle) (nested : bool) : EM () :=
  _ ← e_when nested (push_str "(");
  _ ← expr c l true;
  _ ← match op with
      | Concat => push_str " + "
      | other => _ ← push_str " "; _ ← push_str (op_display other); push_str " "
      end;
  _ ← expr c r true;
  e_when nested (push_str ")").

Definition emit_unary (op : UnaryOp) (operand : NodeHandle) : EM () :=
  match op with
  | Not => _ ← push_str "NOT ("; _ ← expr c operand false; push_str ")"
  | Neg => _ ← push_str "-"; expr c operand true
  | IsNull => _ ← expr c operand true; push_str " IS NULL"
  | IsNotNull => _ ← expr c operand true; push_str " IS NOT NULL"
  end.

Definition emit_case (operand : option NodeHandle) (branches : list (NodeHandle * NodeHandle))
    (else_branch : option NodeHandle) : EM () :=
  _ ← push_str "CASE";
  _ ← e_option (λ op, _ ← push_str " "; expr c op false) operand;
  _ ← e_each (λ wt, _ ← push_str " WHEN ";
                    _ ← expr c wt.1 false;
                    _ ← push_str " THEN ";
                    expr c wt.2 false) branches;
  _ ← e_option (λ e, _ ← push_str " ELSE "; expr c e false) else_branch;
  push_str " END".

Definition emit_expression (handle : NodeHandle) (nested : bool) : EM () :=
  n ← node a handle;
  match n with
  | Identifier id => push_str id
  | NodePattern (Some var) _ _ => push_str var
  | EdgePattern (Some var) _ _ _ _ _ _ => push_str var
  | ParameterNode param => _ ← push_str "$"; push_str param
  | PropertyAccess target property =>
      _ ← expr c target false;
      e_when (negb (bool_decide (property = ""))) (_ ← push_str "."; push_str property)
  | Literal lit => push_literal lit
  | BinaryExpression l op r => emit_binary l op r nested
  | UnaryExpression op operand => emit_unary op operand
  | FunctionCall name arguments =>
      _ ← push_str (cypher_func name);
      _ ← push_str "(";
      _ ← separated ", " (λ arg, expr c arg false) arguments;
      push_str ")"
  | CaseExpression operand branches else_branch => emit_case operand branches else_branch
  | ListComprehension variable list_expression where_filter map_expression =>
      _ ← push_str "[";
      _ ← push_str variable;
      _ ← push_str " IN ";
      _ ← expr c list_expression false;
      _ ← e_option (λ wh, _ ← push_str " WHERE "; expr c wh false) where_filter;
      _ ← e_option (λ m, _ ← push_str " | "; expr c m false) map_expression;
      push_str "]"
  | PatternComprehension path where_filter projection =>
      _ ← push_str "[";
      _ ← path_ c path;
      _ ← e_option (λ wh, _ ← push_str " WHERE "; expr c wh false) where_filter;
      _ ← push_str " | ";
      _ ← expr c projection false;
      push_str "]"
  | ExistsSubquery subquery =>
      _ ← push_str "EXISTS { "; _ ← emit_subquery_body subquery; push_str " }"
  | CountSubquery subquery =>
      _ ← push_str "COUNT { "; _ ← emit_subquery_body subquery; push_str " }"
  | ListLiteral items =>
      _ ← push_str "["; _ ← separated ", " (λ item, expr c item false) items; push_str "]"
  | _ => violation "Unsupported expression node: "
  end.

(** ** Projections *)

Definition aggregation_open (f : AggregationFunc) : string :=
  match f with
  | Count => "COUNT(" | CountDistinct => "COUNT(DISTINCT " | Sum => "SUM(" | Avg => "AVG("
  | Min => "MIN(" | Max => "MAX(" | Collect => "COLLECT("
  end.

Definition emit_projection_item (proj : ProjectionItem) : EM () :=
  _ ← match proj_aggregation proj with
      | Some func =>
          _ ← push_str (aggregation_open func);
          _ ← expr c (proj_expression proj) false;
          push_str ")"
      | None => expr c (proj_expression proj) false
      end;
  e_option (λ alias, _ ← push_str " AS "; push_str alias) (proj_alias proj).

Definition emit_order_by (order_by : list (NodeHandle * bool)) : EM () :=
  e_when (negb (bool_decide (order_by = [])))
    (_ ← push_str " ORDER BY ";
     separated ", " (λ o, _ ← expr c o.1 false; push_str (if o.2 : bool then " ASC" else " DESC")) order_by).

Definition emit_return (projections : list ProjectionItem) (distinct : bool)
    (order_by : list (NodeHandle * bool)) (skip limit : option Z) : EM () :=
  _ ← push_str " RETURN ";
  _ ← e_when distinct (push_str "DISTINCT ");
  _ ← separated ", " emit_projection_item projections;
  _ ← emit_order_by order_by;
  _ ← e_option (λ s, push_str (" SKIP " +:+ num s)) skip;
  e_option (λ l, push_str (" LIMIT " +:+ num l)) limit.

(** ** Clauses *)

Definition emit_set_item (handle : NodeHandle) : EM () :=
  n ← node a handle;
  match n with
  | SetItem target value is_merge =>
      _ ← expr c target false;
      _ ← push_str (if is_merge then " += " else " = ");
      expr c value false
  | _ => violation "Expected SetItem, got "
  end.

Definition emit_create (handle : NodeHandle) : EM () :=
  n ← node a handle;
  match n with
  | CreateClause paths => _ ← push_str "CREATE "; separated ", " (path_ c) paths
  | _ => violation "Expected CreateClause, got "
  end.

Definition emit_sets (keyword : string) (items : list NodeHandle) : EM () :=
  e_when (negb (bool_decide (items = [])))
    (_ ← push_str keyword; separated ", " emit_set_item items).

Definition emit_merge (handle : NodeHandle) : EM () :=
  n ← node a handle;
  match n with
  | MergeClause path on_create_set on_match_set =>
      _ ← push_str "MERGE ";
      _ ← path_ c path;
      _ ← emit_sets " ON CREATE SET " on_create_set;
      emit_sets " ON MATCH SET " on_match_set
  | _ => violation "Expected MergeClause, got "
  end.

Definition emit_set (handle : NodeHandle) : EM () :=
  n ← node a handle;
  match n with
  | SetClause items => _ ← push_str "SET "; separated ", " emit_set_item items
  | _ => violation "Expected SetClause, got "
  end.

Definition emit_delete (handle : NodeHandle) : EM () :=
  n ← node a handle;
  match n with
  | DeleteClause detach targets =>
      _ ← push_str (if detach then "DETACH DELETE " else "DELETE ");
      separated ", " (λ t, expr c t false) targets
  | _ => violation "Expected DeleteClause, got "
  end.

Definition emit_remove (handle : NodeHandle) : EM () :=
  n ← node a handle;
  match n with
  | RemoveClause items => _ ← push_str "REMOVE "; separated ", " (λ i, expr c i false) items
  | _ => violation "Expected RemoveClause, got "
  end.

Definition emit_unwind (handle : NodeHandle) : EM () :=
  n ← node a handle;
  match n with
  | UnwindClause expression alias =>
      _ ← push_str "UNWIND "; _ ← expr c expression false; _ ← push_str " AS "; push_str alias
  | _ => violation "Expected UnwindClause, got "
  end.

Definition emit_load_csv (handle : NodeHandle) : EM () :=
  n ← node a handle;
  match n with
  | LoadCsvClause url with_headers alias =>
      _ ← push_str "LOAD CSV ";
      _ ← e_when with_headers (push_str "WITH HEADERS ");
      _ ← push_str "FROM ";
      _ ← expr c url false;
      _ ← push_str " AS ";
      push_str alias
  | _ => violation "Expected LoadCsvClause, got "
  end.

Definition emit_with (handle : NodeHandle) : EM () :=
  n ← node a handle;
  match n with
  | WithClause distinct projections order_by skip limit where_clause =>
      _ ← push_str "WITH ";
      _ ← e_when distinct (push_str "DISTINCT ");
      _ ← separated ", " emit_projection_item projections;
      _ ← e_option emit_where where_clause;
      _ ← emit_order_by order_by;
      _ ← e_option (λ s, push_str (" SKIP " +:+ num s)) skip;
      e_option (λ l, push_str (" LIMIT " +:+ num l)) limit
  | _ => violation "Expected WithClause, got "
  end.

(** ** Statements *)

Definition mode_prefix (m : ExecutionMode) : string :=
  match m with
  | Normal => ""
  | Explain => "EXPLAIN "
  | Profile | ExplainAndProfile => "PROFILE "
  end.

Definition emit_match (handle : NodeHandle) : EM () :=
  n ← node a handle;
  match n with
  | MatchClause optional paths where_clause => emit_match_clause optional paths where_clause
  | _ => mret tt
  end.

Definition emit_linear (handle : NodeHandle) : EM () :=
  n ← node a handle;
  match n with
  | LetClause variable expression =>
      _ ← push_str "WITH *, "; _ ← expr c expression false; _ ← push_str " AS "; push_str variable
  | FilterClause predicate => _ ← push_str "WHERE "; expr c predicate false
  | _ => mret tt
  end.

Definition emit_mutation (handle : NodeHandle) : EM () :=
  n ← node a handle;
  match n with
  | CreateClause _ => emit_create handle
  | MergeClause _ _ _ => emit_merge handle
  | SetClause _ => emit_set handle
  | DeleteClause _ _ => emit_delete handle
  | RemoveClause _ => emit_remove handle
  | _ => violation "Unsupported mutation clause in QueryStatement: "
  end.

Definition emit_return_clause (handle : NodeHandle) : EM (list ColumnMeta) :=
  n ← node a handle;
  match n with
  | ReturnClause distinct projections order_by skip limit =>
      _ ← emit_return projections distinct order_by skip limit;
      from_projections a c projections
  | _ => mret []
  end.

Definition visit_query (root : NodeHandle) : EM CompiledQuery :=
  _ ← clear_fields;
  root_node ← node a root;
  ignored ← mode_ignored;
  match root_node with
  | QueryStatement execution_mode load_csv unwinds matches linear_clauses with_clauses mutations
      return_clause =>
      _ ← e_when (negb ignored) (push_str (mode_prefix execution_mode));
      _ ← e_option emit_load_csv load_csv;
      let has_emitted := match load_csv with Some _ => true | None => false end in
      has_emitted ← spaced emit_unwind unwinds has_emitted;
      has_emitted ← spaced emit_match matches has_emitted;
      has_emitted ← spaced emit_linear linear_clauses has_emitted;
      has_emitted ← spaced emit_with with_clauses has_emitted;
      _ ← spaced emit_mutation mutations has_emitted;
      cols ← match return_clause with Some h => emit_return_clause h | None => mret [] end;
      take_compiled (if ignored : bool then Normal else execution_mode) cols
  | ProcedureCall execution_mode namespace procedure arguments yield_items =>
      _ ← e_when (negb ignored) (push_str (mode_prefix execution_mode));
      _ ← push_str "CALL ";
      _ ← e_option (λ ns, _ ← push_str ns; push_str ".") namespace;
      _ ← push_str procedure;
      _ ← push_str "(";
      _ ← separated ", " (λ arg, expr c arg false) arguments;
      _ ← push_str ")";
      _ ← e_when (negb (bool_decide (yield_items = [])))
            (_ ← push_str " YIELD "; separated ", " push_str yield_items);
      take_compiled (if ignored : bool then Normal else execution_mode) (map ColumnMeta_new yield_items)
  | _ => violation "Invalid root AST node: "
  end.
End cypher.

(** The methods, up to a depth of descent. *)
Fixpoint cypher_calls `{LiteralDebug} (a : QueryAstArena) (fuel : nat) : Calls :=
  match fuel with
  | O => no_calls
  | S fuel =>
      let c := cypher_calls a fuel in
      mkCalls (emit_expression a c) (emit_path a c) (visit_query a c)
        (resolve_expression_name a c) (λ _, mret false)
  end.

(** [CypherEmitter::visit_query]: one more than the number of nodes is depth enough
    ([Dialects.compile_terminates]). *)
Definition cypher_visit `{LiteralDebug} (a : QueryAstArena) (root : NodeHandle) : EM CompiledQuery :=
  query (cypher_calls a (S (length (nodes a)))) root.

Definition cypher_compile `{LiteralDebug} (e : Emitter) (a : QueryAstArena) (root : NodeHandle) :
    result stop CompiledQuery :=
  fst <$> cypher_visit a root e.
