(* ===== verification/CypherSafe.v ===== *)
(** * Safety of the Cypher emitter

    The walk of [EmitRel] through every method of [Cypher], and what follows from it
    for the statement and its parameters. *)
From S2P Require Import Prelude Bytes F64 Errors Text Ast ArenaShape Label Emit EmitRel Cypher.

Open Scope Z_scope.
Open Scope string_scope.
Open Scope list_scope.

Section walk.
Context `{LiteralDebug} (a : QueryAstArena) (f : LiteralValue → LiteralValue).
Context (SR : Emitter → Emitter → Prop) (CR : CompiledQuery → CompiledQuery → Prop).
Context (P : LiteralValue → Prop) (HP : ∀ i lit, nodes a !! i = Some (Literal lit) → P lit).
Context (nest : Prop) (HC : closed a SR CR P f nest) (Hnest : nests_query a → nest).
Context (n : nat) (c1 c2 : Calls) (Hcalls : calls_related a SR CR n c1 c2).
Notation a2 := (map_lits f a).

Lemma predicate_key_map l r : predicate_key (map_lit f l) (map_lit f r) = predicate_key l r.
Proof.
  assert (Hp : ∀ n, property_of (map_lit f n) = property_of n) by (by intros []).
  assert (Hi : ∀ n, identifier_of (map_lit f n) = identifier_of n) by (by intros []).
  unfold predicate_key. by rewrite !Hp, !Hi.
Qed.

Lemma cy_pattern_predicate fin h :
  covers a fin n h → erel a SR fin eq (emit_pattern_predicate a c1 h) (emit_pattern_predicate a2 c2 h).
Proof.
  intros Hh. unfold emit_pattern_predicate. eapply erel_node; [deeper|]. intros nd Hnd.
  assert (Hexpr : erel a SR fin eq (expr c1 h false) (expr c2 h false)) by walk.
  destruct nd; cbn [map_lit]; try exact Hexpr. destruct op; try exact Hexpr.
  apply covers_S in Hh. eapply erel_node; [deeper|]. intros l Hl. eapply erel_node; [deeper|]. intros r Hr.
  rewrite predicate_key_map. destruct (predicate_key l r) as [[key value_right]|]; [|exact Hexpr].
  destruct value_right; walk.
Qed.
Hint Resolve cy_pattern_predicate : emit.

Lemma cy_node_pattern fin h :
  covers a fin (S n) h → erel a SR fin eq (emit_node_pattern a c1 h) (emit_node_pattern a2 c2 h).
Proof. intros Hh. unfold emit_node_pattern, emit_predicates. walk. Qed.
Hint Resolve cy_node_pattern : emit.

Lemma cy_edge_pattern fin h :
  covers a fin (S n) h → erel a SR fin eq (emit_edge_pattern a c1 h) (emit_edge_pattern a2 c2 h).
Proof. intros Hh. unfold emit_edge_pattern, emit_predicates, emit_hops. walk. Qed.
Hint Resolve cy_edge_pattern : emit.

Lemma cy_path fin h :
  covers a fin (S n) h → erel a SR fin eq (emit_path a c1 h) (emit_path a2 c2 h).
Proof. intros Hh. unfold emit_path. walk. Qed.
Hint Resolve cy_path : emit.

Lemma cy_where fin h :
  covers a fin (S n) h → erel a SR fin eq (emit_where a c1 h) (emit_where a2 c2 h).
Proof. intros Hh. unfold emit_where. walk. Qed.
Hint Resolve cy_where : emit.

Lemma cy_match_clause fin h optional paths where_clause :
  nodes a !! Z.to_nat h = Some (MatchClause optional paths where_clause) → covers a fin (S n) h →
  erel a SR fin eq (emit_match_clause a c1 optional paths where_clause)
    (emit_match_clause a2 c2 optional paths where_clause).
Proof. intros Hn Hh. unfold emit_match_clause. walk. Qed.
Hint Resolve cy_match_clause : emit.

(** The node whose parts an expression's method is given. *)
Lemma cy_binary fin l op r nested :
  covers a fin n l → covers a fin n r →
  erel a SR fin eq (emit_binary c1 l op r nested) (emit_binary c2 l op r nested).
Proof. intros Hl Hr. unfold emit_binary. walk. Qed.
Hint Resolve cy_binary : emit.

Lemma cy_unary fin op operand :
  covers a fin n operand → erel a SR fin eq (emit_unary c1 op operand) (emit_unary c2 op operand).
Proof. intros Ho. unfold emit_unary. walk. Qed.
Hint Resolve cy_unary : emit.

Lemma cy_case fin h operand branches else_branch :
  nodes a !! Z.to_nat h = Some (CaseExpression operand branches else_branch) → covers a fin (S n) h →
  erel a SR fin eq (emit_case c1 operand branches else_branch) (emit_case c2 operand branches else_branch).
Proof. intros Hn Hh. unfold emit_case. walk. Qed.
Hint Resolve cy_case : emit.

(** The body of [EXISTS] or [COUNT], below the node [i] that holds it. *)
Lemma cy_subquery_body fin i nd h :
  nodes a !! i = Some nd → nd = ExistsSubquery h ∨ nd = CountSubquery h → covers a fin n h →
  erel a SR fin eq (emit_subquery_body a c1 h) (emit_subquery_body a2 c2 h).
Proof.
  intros Hi Hnd Hh. pose proof (covers_S _ _ _ _ Hh) as Hh'. unfold emit_subquery_body.
  eapply erel_node; [exact Hh|]. intros sub Hsub.
  destruct sub; cbn [map_lit]; try walk.
  eapply (closed_nested _ _ _ _ f nest HC); [|by eapply rel_query].
  apply Hnest. exists i, nd, h. by rewrite Hsub.
Qed.

Lemma cy_expression fin h nested :
  covers a fin (S n) h → erel a SR fin eq (emit_expression a c1 h nested) (emit_expression a2 c2 h nested).
Proof.
  intros Hh. unfold emit_expression. eapply erel_node; [deeper|]. intros nd Hnd.
  destruct nd; cbn [map_lit]; try solve [walk].
  - apply erel_seq; [walk|intros _]. apply erel_seq; [|intros _; walk].
    eapply cy_subquery_body; [done|by left|deeper].
  - apply erel_seq; [walk|intros _]. apply erel_seq; [|intros _; walk].
    eapply cy_subquery_body; [done|by right|deeper].
Qed.

Lemma cy_projection_item fin proj :
  covers a fin n (proj_expression proj) →
  erel a SR fin eq (emit_projection_item c1 proj) (emit_projection_item c2 proj).
Proof. intros Hp. unfold emit_projection_item. walk. Qed.
Hint Resolve cy_projection_item : emit.

Lemma cy_order_by fin (order_by : list (NodeHandle * bool)) :
  (∀ o, o ∈ order_by → covers a fin n o.1) →
  erel a SR fin eq (emit_order_by c1 order_by) (emit_order_by c2 order_by).
Proof. intros Ho. unfold emit_order_by. walk. eapply rel_expr; eauto. Qed.

Lemma cy_set_item fin h :
  covers a fin (S n) h → erel a SR fin eq (emit_set_item a c1 h) (emit_set_item a2 c2 h).
Proof. intros Hh. unfold emit_set_item. walk. Qed.
Hint Resolve cy_set_item : emit.

Lemma cy_create fin h :
  covers a fin (S n) h → erel a SR fin eq (emit_create a c1 h) (emit_create a2 c2 h).
Proof. intros Hh. unfold emit_create. walk. Qed.
Hint Resolve cy_create : emit.

Lemma cy_merge fin h :
  covers a fin (S n) h → erel a SR fin eq (emit_merge a c1 h) (emit_merge a2 c2 h).
Proof. intros Hh. unfold emit_merge, emit_sets. walk. Qed.
Hint Resolve cy_merge : emit.

Lemma cy_set fin h :
  covers a fin (S n) h → erel a SR fin eq (emit_set a c1 h) (emit_set a2 c2 h).
Proof. intros Hh. unfold emit_set. walk. Qed.
Hint Resolve cy_set : emit.

Lemma cy_delete fin h :
  covers a fin (S n) h → erel a SR fin eq (emit_delete a c1 h) (emit_delete a2 c2 h).
Proof. intros Hh. unfold emit_delete. walk. Qed.
Hint Resolve cy_delete : emit.

Lemma cy_remove fin h :
  covers a fin (S n) h → erel a SR fin eq (emit_remove a c1 h) (emit_remove a2 c2 h).
Proof. intros Hh. unfold emit_remove. walk. Qed.
Hint Resolve cy_remove : emit.

Lemma cy_unwind fin h :
  covers a fin (S n) h → erel a SR fin eq (emit_unwind a c1 h) (emit_unwind a2 c2 h).
Proof. intros Hh. unfold emit_unwind. walk. Qed.
Hint Resolve cy_unwind : emit.

Lemma cy_load_csv fin h :
  covers a fin (S n) h → erel a SR fin eq (emit_load_csv a c1 h) (emit_load_csv a2 c2 h).
Proof. intros Hh. unfold emit_load_csv. walk. Qed.
Hint Resolve cy_load_csv : emit.

Lemma cy_with fin h :
  covers a fin (S n) h → erel a SR fin eq (emit_with a c1 h) (emit_with a2 c2 h).
Proof. intros Hh. unfold emit_with. walk. apply cy_order_by. intros o Ho. deeper. Qed.
Hint Resolve cy_with : emit.

Lemma cy_match fin h :
  covers a fin (S n) h → erel a SR fin eq (emit_match a c1 h) (emit_match a2 c2 h).
Proof. intros Hh. unfold emit_match. walk. Qed.
Hint Resolve cy_match : emit.

Lemma cy_linear fin h :
  covers a fin (S n) h → erel a SR fin eq (emit_linear a c1 h) (emit_linear a2 c2 h).
Proof. intros Hh. unfold emit_linear. walk. Qed.
Hint Resolve cy_linear : emit.

Lemma cy_mutation fin h :
  covers a fin (S n) h → erel a SR fin eq (emit_mutation a c1 h) (emit_mutation a2 c2 h).
Proof. intros Hh. unfold emit_mutation. walk. Qed.
Hint Resolve cy_mutation : emit.


Lemma cy_return_clause fin h :
  covers a fin (S n) h →
  erel a SR fin any (emit_return_clause a c1 h) (emit_return_clause a2 c2 h).
Proof.
  intros Hh. unfold emit_return_clause. eapply erel_node; [deeper|]. intros nd Hnd.
  destruct nd; cbn [map_lit]; try (by apply erel_ret). apply erel_seq.
  - unfold emit_return. walk. apply cy_order_by. intros o Ho. deeper.
  - intros _. eapply rel_projections; [done|]. intros p Hp. deeper.
Qed.

Lemma cy_visit fin h :
  covers a fin (S n) h → qrel a SR CR fin (visit_query a c1 h) (visit_query a2 c2 h).
Proof.
  intros Hh. unfold visit_query. apply qrel_seq; [by eapply erel_clear|]. intros _.
  eapply qrel_node; [deeper|]. intros nd Hnd. apply qrel_seq; [by eapply erel_mode|]. intros ignored.
  destruct nd; cbn [map_lit]; try apply qrel_violation.
  - repeat (apply qrel_seq; [walk|intros ?]). by eapply qrel_take.
  - apply qrel_seq; [walk|intros _]. apply qrel_seq; [walk|intros _].
    do 5 (apply qrel_seq; [walk|intros ?]).
    eapply (qrel_bind a SR CR fin any); [|intros; by eapply qrel_take].
    destruct return_clause; [apply cy_return_clause; deeper|by apply erel_ret].
Qed.
End walk.

(** The two runs correspond at every depth. *)
Lemma cypher_related `{LiteralDebug} a f SR CR P nest n :
  (∀ i lit, nodes a !! i = Some (Literal lit) → P lit) → closed a SR CR P f nest → (nests_query a → nest) →
  calls_related a SR CR n (cypher_calls a n) (cypher_calls (map_lits f a) n).
Proof.
  intros HP HC Hnest. induction n as [|n IH]; [apply no_calls_related|].
  constructor; cbn [cypher_calls expr path_ query expr_name likely_string]; intros.
  - by eapply cy_expression.
  - by eapply cy_path.
  - by eapply cy_visit.
  - by eapply rel_resolve.
  - by apply erel_ret.
Qed.
