(* ===== verification/Gql.v ===== *)
(** * The ISO GQL emitter ([voyager-core/src/emitters/iso_gql.rs])

    [IsoGqlEmitter] has the fields of [CypherEmitter], and many of its methods are
    copies; those are defined as such, the others in full. *)
From S2P Require Import Prelude Bytes F64 Errors Text Ast Label Emit.
From S2P Require Cypher.

Open Scope Z_scope.
Open Scope string_scope.
Open Scope list_scope.

(** Functions taken to return strings, and the GQL names of functions. *)
Definition string_functions : list string :=
  ["tolower"; "lower"; "toupper"; "upper"; "trim"; "btrim"; "ltrim"; "rtrim"; "split"; "substring";
   "replace"; "reverse"; "left"; "right"; "concat"].

Definition gql_func (name : string) : string :=
  let l := to_ascii_lowercase name in
  if decide (l ∈ ["tolower"; "lower"]) then "lower"
  else if decide (l ∈ ["toupper"; "upper"]) then "upper"
  else if decide (l ∈ ["length"; "char_length"; "character_length"]) then "char_length"
  else if decide (l ∈ ["size"; "cardinality"]) then "cardinality"
  else if decide (l ∈ ["distance"; "point.distance"; "point_distance"]) then "point.distance"
  else if decide (l ∈ ["ceil"; "ceiling"]) then "ceil"
  else if decide (l ∈ ["ln"; "log"]) then "ln"
  else if decide (l ∈ ["path_length"; "elements"; "coalesce"; "trim"; "btrim"; "ltrim"; "rtrim"; "split";
                       "substring"; "replace"; "reverse"; "left"; "right"; "abs"; "sqrt"; "floor";
                       "round"; "exp"; "log10"; "sin"; "cos"; "tan"; "asin"; "acos"; "atan"]) then l
  else name.

Section gql.
Context `{LiteralDebug} (a : QueryAstArena) (c : Calls).

(** Reads the arena only; a handle that points nowhere is no string. *)
Definition is_likely_string_expr (h : NodeHandle) : EM bool :=
  λ s, match arena_get a h with
       | Err _ => Ok (false, s)
       | Ok n =>
           match n with
           | Literal (LString _) => Ok (true, s)
           | BinaryExpression _ Concat _ => Ok (true, s)
           | BinaryExpression l Add r =>
               (b ← likely_string c l; if b : bool then mret true else likely_string c r) s
           | FunctionCall name _ =>
               Ok (bool_decide (to_ascii_lowercase name ∈ string_functions), s)
           | _ => Ok (false, s)
           end
       end.

(** ** Patterns *)

Definition emit_pattern_predicate : NodeHandle → EM () := Cypher.emit_pattern_predicate a c.
Definition emit_predicates : list NodeHandle → EM () := Cypher.emit_predicates a c.

Definition emit_node_pattern (handle : NodeHandle) : EM () :=
  n ← node a handle;
  match n with
  | NodePattern variable label_expression predicates =>
      _ ← push_str "(";
      _ ← e_option push_str variable;
      _ ← push_str (emit_gql_node_labels label_expression);
      _ ← emit_predicates predicates;
      push_str ")"
  | _ => violation "Expected NodePattern, got "
  end.

Definition emit_quantifier (min_hops max_hops : option Z) : EM () :=
  match min_hops, max_hops with
  | None, None => mret tt
  | _, _ =>
      _ ← push_str "{";
      _ ← push_str match min_hops with Some min => num min | None => "1" end;
      _ ← push_str ",";
      _ ← e_option (λ max, push_str (num max)) max_hops;
      push_str "}"
  end.

Definition emit_edge_pattern_unquantified (handle : NodeHandle) : EM () :=
  n ← node a handle;
  match n with
  | EdgePattern variable label_expression direction _ _ predicates target_node =>
      _ ← push_str match direction with
                   | DirIncoming => "<-["
                   | DirOutgoing | DirUndirected => "-["
                   end;
      _ ← e_option push_str variable;
      _ ← push_str (emit_gql_edge_labels label_expression);
      _ ← emit_predicates predicates;
      _ ← push_str match direction with
                   | DirOutgoing => "]->"
                   | DirIncoming | DirUndirected => "]-"
                   end;
      emit_node_pattern target_node
  | _ => violation "Expected EdgePattern, got "
  end.

Definition emit_edge_pattern (handle : NodeHandle) : EM () :=
  n ← node a handle;
  match n with
  | EdgePattern variable label_expression direction min_hops max_hops predicates target_node =>
      _ ← push_str match direction with
                   | DirIncoming => "<-["
                   | DirOutgoing | DirUndirected => "-["
                   end;
      _ ← e_option push_str variable;
      _ ← push_str (emit_gql_edge_labels label_expression);
      _ ← emit_predicates predicates;
      _ ← push_str match direction with
                   | DirOutgoing => "]->"
                   | DirIncoming | DirUndirected => "]-"
                   end;
      _ ← emit_quantifier min_hops max_hops;
      emit_node_pattern target_node
  | _ => violation "Expected EdgePattern, got "
  end.

(** A path of one quantified edge is put in parentheses, the quantifier after it. *)
Definition quantifier_of (n : AstNode) : option (option Z * option Z) :=
  match n with
  | EdgePattern _ _ _ None None _ _ => None
  | EdgePattern _ _ _ min_hops max_hops _ _ => Some (min_hops, max_hops)
  | _ => None
  end.

Definition emit_edges (start_node : NodeHandle) (edges : list NodeHandle) : EM () :=
  _ ← emit_node_pattern start_node; e_each emit_edge_pattern edges.

Definition emit_chain (start_node : NodeHandle) (edges : list NodeHandle) : EM () :=
  match edges with
  | [] => emit_node_pattern start_node
  | [edge] =>
      edge_node ← node a edge;
      match quantifier_of edge_node with
      | Some (min_hops, max_hops) =>
          _ ← push_str "(";
          _ ← emit_node_pattern start_node;
          _ ← emit_edge_pattern_unquantified edge;
          _ ← push_str ")";
          emit_quantifier min_hops max_hops
      | None => emit_edges start_node edges
      end
  | _ => emit_edges start_node edges
  end.

Definition emit_path (handle : NodeHandle) : EM () :=
  n ← node a handle;
  match n with
  | NodePattern _ _ _ => emit_node_pattern handle
  | PathChain path_variable path_mode start_node edges =>
      _ ← e_option (λ var, _ ← push_str var; push_str " = ") path_variable;
      _ ← match path_mode with
          | PMNone => mret tt
          | m => _ ← push_str (path_mode_str m); push_str " "
          end;
      emit_chain start_node edges
  | MatchClause _ (_ :: _ as paths) _ => separated ", " (path_ c) paths
  | QueryStatement _ _ _ (_ :: _ as matches) _ _ _ _ => separated ", " (path_ c) matches
  | _ => violation "Expected PathChain or NodePattern, got "
  end.

(** ** Expressions *)

Definition emit_where : NodeHandle → EM () := Cypher.emit_where a c.
Definition emit_match_clause : bool → list NodeHandle → option NodeHandle → EM () :=
  Cypher.emit_match_clause a c.

Definition emit_subquery_body (handle : NodeHandle) : EM () :=
  n ← node a handle;
  match n with
  | NodePattern _ _ _ | PathChain _ _ _ _ => _ ← push_str "MATCH "; emit_path handle
  | MatchClause optional paths where_clause => emit_match_clause optional paths where_clause
  | QueryStatement _ _ _ _ _ _ _ _ => nested_query (query c handle)
  | WhereClause _ => emit_where handle
  | _ => expr c handle false
  end.

Definition emit_binary (l : NodeHandle) (op : BinaryOp) (r : NodeHandle) (nested : bool) : EM () :=
  _ ← e_when nested (push_str "(");
  _ ← expr c l true;
  _ ← match op with
      | Concat => push_str " || "
      | Add =>
          b ← likely_string c l;
          is_string_concat ← (if b : bool then mret true else likely_string c r);
          push_str (if is_string_concat : bool then " || " else " + ")
      | other => _ ← push_str " "; _ ← push_str (op_display other); push_str " "
      end;
  _ ← expr c r true;
  e_when nested (push_str ")").

Definition emit_unary : UnaryOp → NodeHandle → EM () := Cypher.emit_unary c.
Definition emit_case : option NodeHandle → list (NodeHandle * NodeHandle) → option NodeHandle → EM () :=
  Cypher.emit_case c.

Definition emit_expression (handle : NodeHandle) (nested : bool) : EM () :=
  n ← node a handle;
  match n with
  | Identifier id => push_str id
  | NodePattern (Some var) _ _ => push_str var
  | EdgePattern (Some var) _ _ _ _ _ _ => push_str var
  | ParameterNode param => _ ← push_str "$"; push_str param
  | PropertyAccess target property =>
      _ ← expr c target false;
      e_when (negb (bool_decide (property = ""))) (_ ← push_str "."; push_str property)
  | Literal lit => push_literal lit
  | BinaryExpression l op r => emit_binary l op r nested
  | UnaryExpression op operand => emit_unary op operand
  | FunctionCall name arguments =>
      _ ← push_str (gql_func name);
      _ ← push_str "(";
      _ ← separated ", " (λ arg, expr c arg false) arguments;
      push_str ")"
  | CaseExpression operand branches else_branch => emit_case operand branches else_branch
  | ListComprehension variable list_expression where_filter map_expression =>
      _ ← push_str "[";
      _ ← push_str variable;
      _ ← push_str " IN ";
      _ ← expr c list_expression false;
      _ ← e_option (λ wh, _ ← push_str " WHERE "; expr c wh false) where_filter;
      _ ← e_option (λ m, _ ← push_str " | "; expr c m false) map_expression;
      push_str "]"
  | PatternComprehension path where_filter projection =>
      _ ← push_str "[";
      _ ← path_ c path;
      _ ← e_option (λ wh, _ ← push_str " WHERE "; expr c wh false) where_filter;
      _ ← push_str " | ";
      _ ← expr c projection false;
      push_str "]"
  | ExistsSubquery subquery =>
      _ ← push_str "EXISTS { "; _ ← emit_subquery_body subquery; push_str " }"
  | CountSubquery subquery =>
      _ ← push_str "COUNT { "; _ ← emit_subquery_body subquery; push_str " }"
  | ListLiteral items =>
      _ ← push_str "["; _ ← separated ", " (λ item, expr c item false) items; push_str "]"
  | _ => violation "Unsupported expression node: "
  end.

(** ** Projections and clauses *)

Definition emit_projection_item : ProjectionItem → EM () := Cypher.emit_projection_item c.
Definition emit_order_by : list (NodeHandle * bool) → EM () := Cypher.emit_order_by c.

Definition emit_return (projections : list ProjectionItem) (distinct : bool)
    (order_by : list (NodeHandle * bool)) (skip limit : option Z) : EM () :=
  _ ← push_str " RETURN ";
  _ ← e_when distinct (push_str "DISTINCT ");
  _ ← separated ", " emit_projection_item projections;
  _ ← emit_order_by order_by;
  _ ← e_option (λ s, push_str (" OFFSET " +:+ num s)) skip;
  e_option (λ l, push_str (" LIMIT " +:+ num l)) limit.

Definition emit_with (handle : NodeHandle) : EM () :=
  n ← node a handle;
  match n with
  | WithClause distinct projections order_by skip limit where_clause =>
      _ ← push_str "WITH ";
      _ ← e_when distinct (push_str "DISTINCT ");
      _ ← separated ", " emit_projection_item projections;
      _ ← e_option emit_where where_clause;
      _ ← emit_order_by order_by;
      _ ← e_option (λ s, push_str (" OFFSET " +:+ num s)) skip;
      e_option (λ l, push_str (" LIMIT " +:+ num l)) limit
  | _ => violation "Expected WithClause, got "
  end.

Definition emit_set_item : NodeHandle → EM () := Cypher.emit_set_item a c.

Definition emit_create (handle : NodeHandle) : EM () :=
  n ← node a handle;
  match n with
  | CreateClause paths => _ ← push_str "INSERT "; separated ", " (path_ c) paths
  | _ => violation "Expected CreateClause, got "
  end.

Definition emit_merge (handle : NodeHandle) : EM () :=
  n ← node a handle;
  match n with
  | MergeClause path on_create_set on_match_set =>
      _ ← push_str "UPSERT ";
      _ ← path_ c path;
      let all_sets := on_create_set ++ on_match_set in
      e_when (negb (bool_decide (all_sets = [])))
        (_ ← push_str " SET "; separated ", " emit_set_item all_sets)
  | _ => violation "Expected MergeClause, got "
  end.

Definition emit_set : NodeHandle → EM () := Cypher.emit_set a c.

Definition emit_delete (handle : NodeHandle) : EM () :=
  n ← node a handle;
  match n with
  | DeleteClause _ targets => _ ← push_str "DELETE "; separated ", " (λ t, expr c t false) targets
  | _ => violation "Expected DeleteClause, got "
  end.

Definition emit_remove : NodeHandle → EM () := Cypher.emit_remove a c.
Definition emit_unwind : NodeHandle → EM () := Cypher.emit_unwind a c.

(** ** Statements *)

Definition emit_match : NodeHandle → EM () := Cypher.emit_match a c.

Definition emit_linear (handle : NodeHandle) : EM () :=
  n ← node a handle;
  match n with
  | LetClause variable expression =>
      _ ← push_str "LET "; _ ← push_str variable; _ ← push_str " = "; expr c expression false
  | FilterClause predicate => _ ← push_str "FILTER "; expr c predicate false
  | _ => mret tt
  end.

Definition emit_mutation (handle : NodeHandle) : EM () :=
  n ← node a handle;
  match n with
  | CreateClause _ => emit_create handle
  | MergeClause _ _ _ => emit_merge handle
  | SetClause _ => emit_set handle
  | DeleteClause _ _ => emit_delete handle
  | RemoveClause _ => emit_remove handle
  | _ => violation "Unsupported mutation clause in ISO GQL: "
  end.

Definition emit_return_clause (handle : NodeHandle) : EM (list ColumnMeta) :=
  n ← node a handle;
  match n with
  | ReturnClause distinct projections order_by skip limit =>
      _ ← emit_return projections distinct order_by skip limit;
      from_projections a c projections
  | _ => mret []
  end.

(** A procedure call has no columns here, and [load_csv] is not looked at. *)
Definition visit_query (root : NodeHandle) : EM CompiledQuery :=
  _ ← clear_fields;
  root_node ← node a root;
  ignored ← mode_ignored;
  match root_node with
  | ProcedureCall execution_mode namespace procedure arguments yield_items =>
      _ ← e_when (negb ignored) (push_str (Cypher.mode_prefix execution_mode));
      _ ← push_str "CALL ";
      _ ← e_option (λ ns, _ ← push_str ns; push_str ".") namespace;
      _ ← push_str procedure;
      _ ← push_str "(";
      _ ← separated ", " (λ arg, expr c arg false) arguments;
      _ ← push_str ")";
      _ ← e_when (negb (bool_decide (yield_items = [])))
            (_ ← push_str " YIELD "; push_str (join ", " yield_items));
      take_compiled (if ignored : bool then Normal else execution_mode) []
  | QueryStatement execution_mode _ unwinds matches linear_clauses with_clauses mutations
      return_clause =>
      _ ← e_when (negb ignored) (push_str (Cypher.mode_prefix execution_mode));
      has_emitted ← spaced emit_unwind unwinds false;
      has_emitted ← spaced emit_match matches has_emitted;
      has_emitted ← spaced emit_linear linear_clauses has_emitted;
      has_emitted ← spaced emit_with with_clauses has_emitted;
      _ ← spaced emit_mutation mutations has_emitted;
      cols ← match return_clause with Some h => emit_return_clause h | None => mret [] end;
      take_compiled (if ignored : bool then Normal else execution_mode) cols
  | _ => violation "Invalid root AST node for ISO GQL: "
  end.
End gql.

Fixpoint gql_calls `{LiteralDebug} (a : QueryAstArena) (fuel : nat) : Calls :=
  match fuel with
  | O => no_calls
  | S fuel =>
      let c := gql_calls a fuel in
      mkCalls (emit_expression a c) (emit_path a c) (visit_query a c)
        (resolve_expression_name a c) (is_likely_string_expr a c)
  end.

Definition gql_visit `{LiteralDebug} (a : QueryAstArena) (root : NodeHandle) : EM CompiledQuery :=
  query (gql_calls a (S (length (nodes a)))) root.

Definition gql_compile `{LiteralDebug} (e : Emitter) (a : QueryAstArena) (root : NodeHandle) :
    result stop CompiledQuery :=
  fst <$> gql_visit a root e.
