(* ===== verification/GqlSafe.v ===== *)
(** * Safety of the ISO GQL emitter

    The walk of [EmitRel] through the methods of [Gql]; the copies of the Cypher
    methods are covered by [CypherSafe]. *)
From S2P Require Import Prelude Bytes F64 Errors Text Ast ArenaShape Label Emit EmitRel Gql.
From S2P Require CypherSafe.

Open Scope Z_scope.
Open Scope string_scope.
Open Scope list_scope.

(** The choice between [+] and [||] looks at whether a literal is a string. *)
Definition is_string (lit : LiteralValue) : bool := match lit with LString _ => true | _ => false end.

Section walk.
Context `{LiteralDebug} (a : QueryAstArena) (f : LiteralValue → LiteralValue).
Context (Hf : ∀ lit, is_string (f lit) = is_string lit).
Context (SR : Emitter → Emitter → Prop) (CR : CompiledQuery → CompiledQuery → Prop).
Context (P : LiteralValue → Prop) (HP : ∀ i lit, nodes a !! i = Some (Literal lit) → P lit).
Context (nest : Prop) (HC : closed a SR CR P f nest) (Hnest : nests_query a → nest).
Context (n : nat) (c1 c2 : Calls) (Hcalls : calls_related a SR CR n c1 c2).
Notation a2 := (map_lits f a).

Lemma gq_likely fin h :
  covers a fin (S n) h → erel a SR fin eq (is_likely_string_expr a c1 h) (is_likely_string_expr a2 c2 h).
Proof.
  intros Hh s t Hst. unfold is_likely_string_expr. rewrite arena_get_map_lits. unfold arena_get.
  destruct (nodes a !! Z.to_nat h) as [nd|] eqn:E; [|done].
  destruct nd; cbn [map_lit ok_or fmap result_fmap]; try done.
  - destruct op; try done. revert s t Hst. eapply (erel_seq a SR fin eq); [walk|intros ?; walk].
  - match goal with |- context [f ?v] => specialize (Hf v); by destruct v, (f _) end.
Qed.

Lemma gq_pattern_predicate fin h :
  covers a fin (n) h → erel a SR fin eq (emit_pattern_predicate a c1 h) (emit_pattern_predicate a2 c2 h).
Proof. by eapply CypherSafe.cy_pattern_predicate. Qed.
Hint Resolve gq_pattern_predicate : emit.

Lemma gq_predicates fin (predicates : list NodeHandle) :
  (∀ p, p ∈ predicates → covers a fin n p) →
  erel a SR fin eq (emit_predicates a c1 predicates) (emit_predicates a2 c2 predicates).
Proof.
  intros Hp. unfold emit_predicates, Cypher.emit_predicates. walk.
Qed.
Hint Resolve gq_predicates : emit.
#[local] Hint Extern 2 (∀ p, p ∈ _ → covers _ _ _ _) => (intros ? ?; deeper) : emit.

Lemma gq_node_pattern fin h :
  covers a fin (S n) h → erel a SR fin eq (emit_node_pattern a c1 h) (emit_node_pattern a2 c2 h).
Proof. intros Hh. unfold emit_node_pattern. walk. Qed.
Hint Resolve gq_node_pattern : emit.

Lemma gq_quantifier fin min_hops max_hops :
  erel a SR fin eq (emit_quantifier min_hops max_hops) (emit_quantifier min_hops max_hops).
Proof. unfold emit_quantifier. walk. Qed.
Hint Resolve gq_quantifier : emit.

Lemma gq_edge_pattern_unquantified fin h :
  covers a fin (S n) h → erel a SR fin eq (emit_edge_pattern_unquantified a c1 h) (emit_edge_pattern_unquantified a2 c2 h).
Proof. intros Hh. unfold emit_edge_pattern_unquantified. walk. Qed.
Hint Resolve gq_edge_pattern_unquantified : emit.

Lemma gq_edge_pattern fin h :
  covers a fin (S n) h → erel a SR fin eq (emit_edge_pattern a c1 h) (emit_edge_pattern a2 c2 h).
Proof. intros Hh. unfold emit_edge_pattern. walk. Qed.
Hint Resolve gq_edge_pattern : emit.

Lemma gq_edges fin start edges :
  covers a fin n start → (∀ e, e ∈ edges → covers a fin n e) →
  erel a SR fin eq (emit_edges a c1 start edges) (emit_edges a2 c2 start edges).
Proof.
  intros Hs He. unfold emit_edges. apply erel_seq; [apply gq_node_pattern; by apply covers_S|].
  intros _. apply erel_each. intros e Hin. apply gq_edge_pattern, covers_S. by apply He.
Qed.

Lemma quantifier_of_map nd : quantifier_of (map_lit f nd) = quantifier_of nd.
Proof. by destruct nd. Qed.

Lemma gq_chain fin start edges :
  covers a fin n start → (∀ e, e ∈ edges → covers a fin n e) →
  erel a SR fin eq (emit_chain a c1 start edges) (emit_chain a2 c2 start edges).
Proof.
  intros Hs He. pose proof (gq_edges fin start edges Hs He) as Hedges. pose proof (covers_S _ _ _ _ Hs).
  destruct edges as [|e [|]]; cbn [emit_chain]; [by apply gq_node_pattern| |done].
  pose proof (covers_S _ _ _ _ (He e (list_elem_of_here _ _))).
  eapply erel_node; [deeper|]. intros nd Hnd. rewrite quantifier_of_map.
  destruct (quantifier_of nd) as [[min_hops max_hops]|]; [walk|done].
Qed.
Hint Resolve gq_chain : emit.

Lemma gq_path fin h :
  covers a fin (S n) h → erel a SR fin eq (emit_path a c1 h) (emit_path a2 c2 h).
Proof. intros Hh. unfold emit_path. walk. Qed.
Hint Resolve gq_path : emit.

Lemma gq_where fin h :
  covers a fin (S n) h → erel a SR fin eq (emit_where a c1 h) (emit_where a2 c2 h).
Proof. by eapply CypherSafe.cy_where. Qed.
Hint Resolve gq_where : emit.

Lemma gq_match_clause fin h optional paths where_clause :
  nodes a !! Z.to_nat h = Some (MatchClause optional paths where_clause) → covers a fin (S n) h →
  erel a SR fin eq (emit_match_clause a c1 optional paths where_clause)
    (emit_match_clause a2 c2 optional paths where_clause).
Proof. by eapply CypherSafe.cy_match_clause. Qed.
Hint Resolve gq_match_clause : emit.

Lemma gq_binary fin l op r nested :
  covers a fin n l → covers a fin n r →
  erel a SR fin eq (emit_binary c1 l op r nested) (emit_binary c2 l op r nested).
Proof. intros Hl Hr. unfold emit_binary. walk. Qed.
Hint Resolve gq_binary : emit.

Lemma gq_unary fin op operand :
  covers a fin n operand → erel a SR fin eq (emit_unary c1 op operand) (emit_unary c2 op operand).
Proof. by eapply CypherSafe.cy_unary. Qed.
Hint Resolve gq_unary : emit.

Lemma gq_case fin h operand branches else_branch :
  nodes a !! Z.to_nat h = Some (CaseExpression operand branches else_branch) → covers a fin (S n) h →
  erel a SR fin eq (emit_case c1 operand branches else_branch) (emit_case c2 operand branches else_branch).
Proof. by eapply CypherSafe.cy_case. Qed.
Hint Resolve gq_case : emit.

Lemma gq_subquery_body fin i nd h :
  nodes a !! i = Some nd → nd = ExistsSubquery h ∨ nd = CountSubquery h → covers a fin n h →
  erel a SR fin eq (emit_subquery_body a c1 h) (emit_subquery_body a2 c2 h).
Proof.
  intros Hi Hnd Hh. pose proof (covers_S _ _ _ _ Hh) as Hh'. unfold emit_subquery_body.
  eapply erel_node; [exact Hh|]. intros sub Hsub. destruct sub; cbn [map_lit]; try walk.
  eapply (closed_nested _ _ _ _ f nest HC); [|by eapply rel_query].
  apply Hnest. exists i, nd, h. by rewrite Hsub.
Qed.

Lemma gq_expression fin h nested :
  covers a fin (S n) h → erel a SR fin eq (emit_expression a c1 h nested) (emit_expression a2 c2 h nested).
Proof.
  intros Hh. unfold emit_expression. eapply erel_node; [deeper|]. intros nd Hnd.
  destruct nd; cbn [map_lit]; try solve [walk].
  - apply erel_seq; [walk|intros _]. apply erel_seq; [|intros _; walk].
    eapply gq_subquery_body; [done|by left|deeper].
  - apply erel_seq; [walk|intros _]. apply erel_seq; [|intros _; walk].
    eapply gq_subquery_body; [done|by right|deeper].
Qed.

Lemma gq_projection_item fin proj :
  covers a fin n (proj_expression proj) →
  erel a SR fin eq (emit_projection_item c1 proj) (emit_projection_item c2 proj).
Proof. by eapply CypherSafe.cy_projection_item. Qed.
Hint Resolve gq_projection_item : emit.

Lemma gq_order_by fin (order_by : list (NodeHandle * bool)) :
  (∀ o, o ∈ order_by → covers a fin n o.1) →
  erel a SR fin eq (emit_order_by c1 order_by) (emit_order_by c2 order_by).
Proof. by eapply CypherSafe.cy_order_by. Qed.

Lemma gq_set_item fin h :
  covers a fin (S n) h → erel a SR fin eq (emit_set_item a c1 h) (emit_set_item a2 c2 h).
Proof. by eapply CypherSafe.cy_set_item. Qed.
Hint Resolve gq_set_item : emit.

Lemma gq_create fin h :
  covers a fin (S n) h → erel a SR fin eq (emit_create a c1 h) (emit_create a2 c2 h).
Proof. intros Hh. unfold emit_create. walk. Qed.
Hint Resolve gq_create : emit.

Lemma gq_merge fin h :
  covers a fin (S n) h → erel a SR fin eq (emit_merge a c1 h) (emit_merge a2 c2 h).
Proof.
  intros Hh. unfold emit_merge. walk.
  match goal with Hy : _ ∈ _ ++ _ |- _ => apply elem_of_app in Hy as [|] end; walk.
Qed.
Hint Resolve gq_merge : emit.

Lemma gq_set fin h :
  covers a fin (S n) h → erel a SR fin eq (emit_set a c1 h) (emit_set a2 c2 h).
Proof. by eapply CypherSafe.cy_set. Qed.
Hint Resolve gq_set : emit.

Lemma gq_delete fin h :
  covers a fin (S n) h → erel a SR fin eq (emit_delete a c1 h) (emit_delete a2 c2 h).
Proof. intros Hh. unfold emit_delete. walk. Qed.
Hint Resolve gq_delete : emit.

Lemma gq_remove fin h :
  covers a fin (S n) h → erel a SR fin eq (emit_remove a c1 h) (emit_remove a2 c2 h).
Proof. by eapply CypherSafe.cy_remove. Qed.
Hint Resolve gq_remove : emit.

Lemma gq_unwind fin h :
  covers a fin (S n) h → erel a SR fin eq (emit_unwind a c1 h) (emit_unwind a2 c2 h).
Proof. by eapply CypherSafe.cy_unwind. Qed.
Hint Resolve gq_unwind : emit.

Lemma gq_with fin h :
  covers a fin (S n) h → erel a SR fin eq (emit_with a c1 h) (emit_with a2 c2 h).
Proof. intros Hh. unfold emit_with. walk. apply gq_order_by. intros o Ho. deeper. Qed.
Hint Resolve gq_with : emit.

Lemma gq_match fin h :
  covers a fin (S n) h → erel a SR fin eq (emit_match a c1 h) (emit_match a2 c2 h).
Proof. by eapply CypherSafe.cy_match. Qed.
Hint Resolve gq_match : emit.

Lemma gq_linear fin h :
  covers a fin (S n) h → erel a SR fin eq (emit_linear a c1 h) (emit_linear a2 c2 h).
Proof. intros Hh. unfold emit_linear. walk. Qed.
Hint Resolve gq_linear : emit.

Lemma gq_mutation fin h :
  covers a fin (S n) h → erel a SR fin eq (emit_mutation a c1 h) (emit_mutation a2 c2 h).
Proof. intros Hh. unfold emit_mutation. walk. Qed.
Hint Resolve gq_mutation : emit.

Lemma gq_return_clause fin h :
  covers a fin (S n) h →
  erel a SR fin any (emit_return_clause a c1 h) (emit_return_clause a2 c2 h).
Proof.
  intros Hh. unfold emit_return_clause. eapply erel_node; [deeper|]. intros nd Hnd.
  destruct nd; cbn [map_lit]; try (by apply erel_ret). apply erel_seq.
  - unfold emit_return. walk. apply gq_order_by. intros o Ho. deeper.
  - intros _. eapply rel_projections; [done|]. intros p Hp. deeper.
Qed.

Lemma gq_visit fin h :
  covers a fin (S n) h → qrel a SR CR fin (visit_query a c1 h) (visit_query a2 c2 h).
Proof.
  intros Hh. unfold visit_query. apply qrel_seq; [by eapply erel_clear|]. intros _.
  eapply qrel_node; [deeper|]. intros nd Hnd. apply qrel_seq; [by eapply erel_mode|]. intros ignored.
  destruct nd; cbn [map_lit]; try apply qrel_violation.
  - repeat (apply qrel_seq; [walk|intros ?]). by eapply qrel_take.
  - apply qrel_seq; [walk|intros _]. do 5 (apply qrel_seq; [walk|intros ?]).
    eapply (qrel_bind a SR CR fin any); [|intros; by eapply qrel_take].
    destruct return_clause; [apply gq_return_clause; deeper|by apply erel_ret].
Qed.
End walk.

(** The two runs correspond at every depth. *)
Lemma gql_related `{LiteralDebug} a f SR CR P nest n :
  (∀ lit, is_string (f lit) = is_string lit) →
  (∀ i lit, nodes a !! i = Some (Literal lit) → P lit) → closed a SR CR P f nest → (nests_query a → nest) →
  calls_related a SR CR n (gql_calls a n) (gql_calls (map_lits f a) n).
Proof.
  intros Hf HP HC Hnest. induction n as [|n IH]; [apply no_calls_related|].
  constructor; cbn [gql_calls expr path_ query expr_name likely_string]; intros.
  - by eapply gq_expression.
  - by eapply gq_path.
  - by eapply gq_visit.
  - by eapply rel_resolve.
  - by eapply gq_likely.
Qed.
