(* ===== verification/Age.v ===== *)
(** * The Apache AGE emitter ([voyager-core/src/emitters/age.rs])

    AGE runs Cypher inside a SQL function: the statement of a Cypher emitter is
    wrapped, and the columns of the result are declared. *)
From S2P Require Import Prelude Bytes F64 Errors Text Ast Label Emit Cypher.

Open Scope Z_scope.
Open Scope string_scope.
Open Scope list_scope.

Record AgeEmitter := mkAge { graph_name : string }.
Definition AgeEmitter_default : AgeEmitter := mkAge "age_graph".

(** [arena.get(h)?] outside of an emitter. *)
Definition get_node (a : QueryAstArena) (h : NodeHandle) : result stop AstNode :=
  match arena_get a h with Ok n => Ok n | Err e => Err (Fail e) end.

Definition age_column (a : QueryAstArena) (proj : ProjectionItem) : result stop string :=
  col_name ← match proj_alias proj with
             | Some alias => Ok alias
             | None =>
                 n ← get_node a (proj_expression proj);
                 Ok match n with
                    | PropertyAccess _ property => if decide (property = "") then "entity" else property
                    | Identifier id => id
                    | _ => "col"
                    end
             end;
  Ok (col_name +:+ " agtype").

(** The columns declared for a root, and its execution mode. *)
Definition age_columns (a : QueryAstArena) (root_node : AstNode) :
    result stop (list string * ExecutionMode) :=
  match root_node with
  | QueryStatement mode _ _ _ _ _ _ (Some ret_handle) =>
      ret_node ← get_node a ret_handle;
      cols ← match ret_node with
             | ReturnClause _ projections _ _ _ => result_mapM (age_column a) projections
             | _ => Ok []
             end;
      Ok (cols, mode)
  | QueryStatement mode _ _ _ _ _ _ None => Ok ([], mode)
  | ProcedureCall mode _ _ _ _ => Ok ([], mode)
  | _ => Ok ([], Normal)
  end.

Definition age_prefix (m : ExecutionMode) : string :=
  match m with
  | Normal => ""
  | Explain => "EXPLAIN "
  | Profile | ExplainAndProfile => "EXPLAIN ANALYZE "
  end.

(** The statement around the Cypher text. *)
Definition age_wrapped (e : AgeEmitter) (execution_mode : ExecutionMode) (column_defs : list string)
    (cypher_compiled : CompiledQuery) : CompiledQuery :=
  let as_clause := match column_defs with
                   | [] => "AS (result agtype)"
                   | _ => "AS (" +:+ join ", " column_defs +:+ ")"
                   end in
  let params_arg := match cq_parameters cypher_compiled with [] => "" | _ => ", %s" end in
  let wrapped_statement :=
    age_prefix execution_mode +:+ "SELECT * FROM cypher('" +:+ graph_name e +:+ "', $$ "
      +:+ statement cypher_compiled +:+ " $$" +:+ params_arg +:+ ") " +:+ as_clause in
  with_columns wrapped_statement (cq_parameters cypher_compiled) execution_mode
    (columns cypher_compiled).

Definition age_compile `{LiteralDebug} (e : AgeEmitter) (a : QueryAstArena) (root : NodeHandle) :
    result stop CompiledQuery :=
  cypher_compiled ← cypher_compile (without_execution_mode Emitter_new) a root;
  root_node ← get_node a root;
  '(column_defs, execution_mode) ← age_columns a root_node;
  Ok (age_wrapped e execution_mode column_defs cypher_compiled).
