(* ===== verification/Pgq.v ===== *)
(** * The SQL/PGQ emitter ([voyager-core/src/emitters/sql_pgq.rs])

    One [GRAPH_TABLE] query per statement.  With an aggregation in the projections
    every projected expression is rendered to a string first, the columns of the graph
    table get names, and an outer query aggregates them.  The fields are those of the
    other emitters and the name of the graph. *)
From S2P Require Import Prelude Bytes F64 Errors Text Ast Label Emit.
From S2P Require Cypher.

Open Scope Z_scope.
Open Scope string_scope.
Open Scope list_scope.

Record SqlPgqEmitter := mkPgq { graph_name : string; fields : Emitter }.
Definition SqlPgqEmitter_new (graph_name : string) : SqlPgqEmitter := mkPgq graph_name Emitter_new.
Definition SqlPgqEmitter_default : SqlPgqEmitter := SqlPgqEmitter_new "graph_name".

Definition unsupported {A} (feature : string) : EM A := e_fail (UnsupportedFeature "sql_pgq" feature).

(** [std::mem::take] and [std::mem::replace] of the buffer. *)
Definition with_buffer (x : string) (s : Emitter) : Emitter :=
  mkEmitter (param_counter s) (parameters s) x (ignore_execution_mode s).
Definition swap_buffer (x : string) : EM string := λ s, Ok (buffer s, with_buffer x s).

(** SQL names of functions. *)
Definition sql_func (name : string) : string :=
  let l := to_ascii_lowercase name in
  if decide (l ∈ ["tolower"; "lower"]) then "LOWER"
  else if decide (l ∈ ["toupper"; "upper"]) then "UPPER"
  else if decide (l ∈ ["size"; "length"; "char_length"; "character_length"]) then "LENGTH"
  else if decide (l ∈ ["distance"; "point.distance"; "point_distance"]) then "ST_Distance"
  else default name (assoc_get l
    [("cardinality", "CARDINALITY"); ("coalesce", "COALESCE"); ("trim", "TRIM"); ("ltrim", "LTRIM");
     ("rtrim", "RTRIM"); ("split", "STRING_SPLIT"); ("substring", "SUBSTRING"); ("replace", "REPLACE");
     ("reverse", "REVERSE"); ("left", "LEFT"); ("right", "RIGHT"); ("abs", "ABS"); ("sqrt", "SQRT");
     ("ceil", "CEIL"); ("floor", "FLOOR"); ("round", "ROUND"); ("log", "LN"); ("log10", "LOG10");
     ("exp", "EXP"); ("sin", "SIN"); ("cos", "COS"); ("tan", "TAN"); ("asin", "ASIN");
     ("acos", "ACOS"); ("atan", "ATAN")]).

(** The text before the column of an aggregation. *)
Definition pgq_aggregation_open (func : AggregationFunc) : string :=
  match func with
  | Count => "COUNT(" | CountDistinct => "COUNT(DISTINCT " | Sum => "SUM(" | Avg => "AVG("
  | Min => "MIN(" | Max => "MAX(" | Collect => "ARRAY_AGG("
  end.
Definition func_call (func : AggregationFunc) (col : string) : string :=
  pgq_aggregation_open func +:+ col +:+ ")".

Definition pgq_prefix (m : ExecutionMode) : string :=
  match m with
  | Normal => ""
  | Explain => "EXPLAIN "
  | Profile | ExplainAndProfile => "EXPLAIN ANALYZE "
  end.

(** ** Columns of an aggregating query *)

Record Aggregated := mkAggregated {
  inner_columns : list (string * string);
  outer_select_items : list string;
  group_by_keys : list string;
}.

Definition existing_alias (expr_sql : string) (inner : list (string * string)) : option string :=
  snd <$> List.find (λ ea, bool_decide (ea.1 = expr_sql)) inner.

Definition leaf_or_col (idx : Z) (fallback_name : string) : string :=
  if decide (fallback_name = "") then "col_" +:+ num idx else fallback_name.

Definition inner_alias (idx : Z) (fallback_name : string) (inner : list (string * string)) : string :=
  let base_name := leaf_or_col idx fallback_name in
  if existsb (λ ea, bool_decide (ea.2 = base_name)) inner then base_name +:+ "_" +:+ num idx
  else base_name.

(** One turn of the loop over the projections, once the expression is rendered. *)
Definition aggregate (acc : Aggregated) (idx : Z) (fallback_name expr_sql : string)
    (proj : ProjectionItem) : Aggregated :=
  let '(mkAggregated inner outer keys) := acc in
  match proj_aggregation proj with
  | Some func =>
      let '(inner, inner_col_name) :=
        match existing_alias expr_sql inner with
        | Some alias => (inner, alias)
        | None => let col_alias := inner_alias idx fallback_name inner in
                  (inner ++ [(expr_sql, col_alias)], col_alias)
        end in
      let call := func_call func inner_col_name in
      let item := match proj_alias proj with Some alias => call +:+ " AS " +:+ alias | None => call end in
      mkAggregated inner (outer ++ [item]) keys
  | None =>
      let col_alias := default (leaf_or_col idx fallback_name) (proj_alias proj) in
      match existing_alias expr_sql inner with
      | Some alias => mkAggregated inner (outer ++ [alias]) (keys ++ [alias])
      | None => mkAggregated (inner ++ [(expr_sql, col_alias)]) (outer ++ [col_alias]) (keys ++ [col_alias])
      end
  end.

(** ** The methods *)

Section pgq.
Context `{LiteralDebug} (a : QueryAstArena) (c : Calls) (depth : nat).

Definition emit_node_pattern (handle : NodeHandle) : EM () :=
  n ← node a handle;
  match n with
  | NodePattern variable label_expression predicates =>
      _ ← push_str "(";
      _ ← e_option push_str variable;
      _ ← push_str (emit_pgq_node_labels label_expression);
      let has_prefix := bool_decide (is_Some variable ∨ is_Some label_expression) in
      _ ← e_when (negb (bool_decide (predicates = [])))
            (_ ← e_when has_prefix (push_str " ");
             _ ← push_str "WHERE ";
             separated " AND " (λ pred, expr c pred false) predicates);
      push_str ")"
  | _ => violation "Expected NodePattern, got "
  end.

Definition pgq_quantifier (min_hops max_hops : option Z) : EM () :=
  e_when (bool_decide (is_Some min_hops ∨ is_Some max_hops))
    (_ ← push_str "{";
     _ ← push_str match min_hops with Some min => num min | None => "1" end;
     _ ← push_str ",";
     _ ← e_option (λ max, push_str (num max)) max_hops;
     push_str "}").

Definition emit_edge_pattern (handle : NodeHandle) : EM () :=
  n ← node a handle;
  match n with
  | EdgePattern variable label_expression direction min_hops max_hops predicates target_node =>
      _ ← push_str match direction with
                   | DirIncoming => " <-["
                   | DirOutgoing | DirUndirected => " -["
                   end;
      _ ← e_option push_str variable;
      _ ← push_str (emit_pgq_edge_labels label_expression);
      _ ← e_when (negb (bool_decide (predicates = [])))
            (_ ← push_str " WHERE "; separated " AND " (λ pred, expr c pred false) predicates);
      _ ← push_str "]";
      _ ← push_str match direction with
                   | DirOutgoing => "->"
                   | DirIncoming | DirUndirected => "-"
                   end;
      _ ← pgq_quantifier min_hops max_hops;
      _ ← push_str " ";
      emit_node_pattern target_node
  | _ => violation "Expected EdgePattern, got "
  end.

Definition emit_path (handle : NodeHandle) : EM () :=
  n ← node a handle;
  match n with
  | NodePattern _ _ _ => emit_node_pattern handle
  | PathChain (Some var) _ _ _ =>
      unsupported ("Path variable assignment ('" +:+ var
        +:+ " = ...') - SQL:2023 PGQ GRAPH_TABLE does not support path variables")
  | PathChain None PMNone start_node edges =>
      _ ← emit_node_pattern start_node; e_each emit_edge_pattern edges
  | PathChain None path_mode _ _ =>
      unsupported ("Path search mode '" +:+ path_mode_str path_mode
        +:+ "' - SQL:2023 PGQ GRAPH_TABLE does not support traversal search modes")
  | _ => violation "Expected PathChain or NodePattern, got "
  end.

Definition emit_binary (l : NodeHandle) (op : BinaryOp) (r : NodeHandle) (nested : bool) : EM () :=
  _ ← e_when nested (push_str "(");
  _ ← expr c l true;
  _ ← match op with
      | Contains => _ ← push_str " LIKE '%' || "; _ ← expr c r true; push_str " || '%'"
      | StartsWith => _ ← push_str " LIKE "; _ ← expr c r true; push_str " || '%'"
      | EndsWith => _ ← push_str " LIKE '%' || "; expr c r true
      | Concat => _ ← push_str " || "; expr c r true
      | other => _ ← push_str " "; _ ← push_str (op_display other); _ ← push_str " "; expr c r true
      end;
  e_when nested (push_str ")").

Definition emit_unary : UnaryOp → NodeHandle → EM () := Cypher.emit_unary c.
Definition emit_case : option NodeHandle → list (NodeHandle * NodeHandle) → option NodeHandle → EM () :=
  Cypher.emit_case c.

Definition emit_expression (handle : NodeHandle) (nested : bool) : EM () :=
  n ← node a handle;
  match n with
  | Identifier id => push_str id
  | NodePattern (Some var) _ _ => push_str var
  | EdgePattern (Some var) _ _ _ _ _ _ => push_str var
  | PropertyAccess target property =>
      _ ← expr c target false;
      e_when (negb (bool_decide (property = ""))) (_ ← push_str "."; push_str property)
  | Literal lit => push_literal lit
  | BinaryExpression l op r => emit_binary l op r nested
  | UnaryExpression op operand => emit_unary op operand
  | FunctionCall name arguments =>
      _ ← push_str (sql_func name);
      _ ← push_str "(";
      _ ← separated ", " (λ arg, expr c arg false) arguments;
      push_str ")"
  | CaseExpression operand branches else_branch => emit_case operand branches else_branch
  | ExistsSubquery subquery => _ ← push_str "EXISTS ("; _ ← expr c subquery false; push_str ")"
  | CountSubquery subquery => _ ← push_str "COUNT ("; _ ← expr c subquery false; push_str ")"
  | ListLiteral items =>
      _ ← push_str "["; _ ← separated ", " (λ item, expr c item false) items; push_str "]"
  | _ => violation "Unsupported expression node: "
  end.

Definition render_expression_to_string (handle : NodeHandle) : EM string :=
  saved_buffer ← swap_buffer "";
  _ ← expr c handle false;
  swap_buffer saved_buffer.

Definition emit_where (handle : NodeHandle) : EM () :=
  n ← node a handle;
  match n with
  | WhereClause root_predicate => _ ← push_str " WHERE "; expr c root_predicate false
  | _ => violation "Expected WhereClause, got "
  end.

(** ** Names of columns *)

(** [a == b], or the same property of matching targets, or the same variable.  The
    descent has the depth of [Calls]. *)
Definition variable_of (n : AstNode) : option string :=
  match n with
  | Identifier id => Some id
  | NodePattern v _ _ => v
  | _ => None
  end.
Definition same_variable (x y : AstNode) : bool :=
  match variable_of x, variable_of y with
  | Some v, Some w => bool_decide (v = w)
  | _, _ => false
  end.

Fixpoint expressions_match (fuel : nat) (x y : NodeHandle) : EM bool :=
  if decide (x = y) then mret true else
  match arena_get a x, arena_get a y with
  | Ok (PropertyAccess t1 p1), Ok (PropertyAccess t2 p2) =>
      if decide (p1 = p2) then
        match fuel with O => e_out_of_fuel | S fuel => expressions_match fuel t1 t2 end
      else mret false
  | Ok nx, Ok ny => mret (same_variable nx ny)
  | _, _ => mret false
  end.

Definition get_expr_leaf_name (handle : NodeHandle) : string :=
  match arena_get a handle with
  | Ok (PropertyAccess _ property) => property
  | Ok (Identifier id) => id
  | _ => ""
  end.

(** The first projection that matches and has a name, then the name of the expression. *)
Fixpoint resolve_projected_column_name (expr_handle : NodeHandle) (projections : list ProjectionItem) :
    EM string :=
  match projections with
  | [] => mret (get_expr_leaf_name expr_handle)
  | proj :: projections =>
      matches ← expressions_match depth (proj_expression proj) expr_handle;
      if matches : bool then
        match proj_alias proj, arena_get a (proj_expression proj) with
        | Some alias, _ => mret alias
        | None, Ok (PropertyAccess _ property) => mret property
        | None, _ => resolve_projected_column_name expr_handle projections
        end
      else resolve_projected_column_name expr_handle projections
  end.

(** ** The parts of a query *)

Definition emit_match (match_handle : NodeHandle) : EM () :=
  match_node ← node a match_handle;
  match match_node with
  | MatchClause _ paths where_clause =>
      _ ← separated ", " (path_ c) paths;
      e_option emit_where where_clause
  | _ => mret tt
  end.
Definition emit_matches_and_where : list NodeHandle → EM () := separated ", " emit_match.

Definition emit_column (proj : ProjectionItem) : EM () :=
  _ ← match proj_aggregation proj with
      | Some func =>
          _ ← push_str (pgq_aggregation_open func);
          _ ← expr c (proj_expression proj) false;
          push_str ")"
      | None => expr c (proj_expression proj) false
      end;
  e_option (λ alias, _ ← push_str " AS "; push_str alias) (proj_alias proj).

Definition emit_columns (projections : list ProjectionItem) : EM () :=
  _ ← push_str " COLUMNS ("; _ ← separated ", " emit_column projections; push_str ")".

Fixpoint aggregate_columns (idx : Z) (projections : list ProjectionItem) (acc : Aggregated) :
    EM Aggregated :=
  match projections with
  | [] => mret acc
  | proj :: projections =>
      expr_sql ← render_expression_to_string (proj_expression proj);
      let fallback_name := get_expr_leaf_name (proj_expression proj) in
      aggregate_columns (idx + 1) projections (aggregate acc idx fallback_name expr_sql proj)
  end.

Definition emit_aggregating (graph : string) (execution_mode : ExecutionMode)
    (matches : list NodeHandle) (projections : list ProjectionItem) : EM () :=
  acc ← aggregate_columns 0 projections (mkAggregated [] [] []);
  _ ← push_str (pgq_prefix execution_mode);
  _ ← push_str "SELECT ";
  _ ← separated ", " push_str (outer_select_items acc);
  _ ← push_str " FROM GRAPH_TABLE (";
  _ ← push_str graph;
  _ ← push_str " MATCH ";
  _ ← emit_matches_and_where matches;
  _ ← push_str " COLUMNS (";
  _ ← separated ", " (λ ea, _ ← push_str ea.1; _ ← push_str " AS "; push_str ea.2) (inner_columns acc);
  _ ← push_str "))";
  e_when (negb (bool_decide (group_by_keys acc = [])))
    (_ ← push_str " GROUP BY "; separated ", " push_str (group_by_keys acc)).

Definition emit_plain (graph : string) (execution_mode : ExecutionMode)
    (matches : list NodeHandle) (projections : list ProjectionItem) : EM () :=
  _ ← push_str (pgq_prefix execution_mode);
  _ ← push_str "SELECT * FROM GRAPH_TABLE (";
  _ ← push_str graph;
  _ ← push_str " MATCH ";
  _ ← emit_matches_and_where matches;
  _ ← emit_columns projections;
  push_str ")".

Definition pgq_order_item (projections : list ProjectionItem) (o : NodeHandle * bool) : EM () :=
  resolved ← resolve_projected_column_name o.1 projections;
  _ ← (if decide (resolved = "") then expr c o.1 false else push_str resolved);
  push_str (if o.2 : bool then " ASC" else " DESC").

Definition pgq_order_by (projections : list ProjectionItem) (order_by : list (NodeHandle * bool)) : EM () :=
  e_when (negb (bool_decide (order_by = [])))
    (_ ← push_str " ORDER BY "; separated ", " (pgq_order_item projections) order_by).

(** What [visit_query] takes of the return clause: [distinct] is not looked at. *)
Definition return_parts (return_clause : option NodeHandle) :
    EM (list ProjectionItem * list (NodeHandle * bool) * option Z * option Z) :=
  match return_clause with
  | None => mret ([], [], None, None)
  | Some ret_handle =>
      ret_node ← node a ret_handle;
      mret match ret_node with
           | ReturnClause _ projections order_by skip limit => (projections, order_by, skip, limit)
           | _ => ([], [], None, None)
           end
  end.

(** The clauses a graph table has no room for. *)
Definition refused (unwinds linear_clauses with_clauses mutations : list NodeHandle) : option string :=
  if decide (mutations ≠ []) then
    Some "DML mutations (CREATE, MERGE, SET, DELETE) - GRAPH_TABLE is a read-only query operator"
  else if decide (unwinds ≠ []) then
    Some "UNWIND clauses - GRAPH_TABLE is a read-only query operator"
  else if decide (linear_clauses ≠ []) then
    Some "Linear statements (LET, FILTER) - SQL:2023 PGQ GRAPH_TABLE does not support linear statements"
  else if decide (with_clauses ≠ []) then
    Some "WITH clauses - SQL:PGQ GRAPH_TABLE operator does not support Cypher-style intermediate WITH projection pipelines"
  else None.

Definition visit_query (graph : string) (root : NodeHandle) : EM CompiledQuery :=
  _ ← clear_fields;
  root_node ← node a root;
  match root_node with
  | QueryStatement execution_mode _ unwinds matches linear_clauses with_clauses mutations return_clause =>
      match refused unwinds linear_clauses with_clauses mutations with
      | Some feature => unsupported feature
      | None =>
          '(projections, order_by, skip, limit) ← return_parts return_clause;
          let has_aggregates := existsb (λ p, bool_decide (is_Some (proj_aggregation p))) projections in
          _ ← (if has_aggregates : bool then emit_aggregating graph execution_mode matches projections
               else emit_plain graph execution_mode matches projections);
          _ ← pgq_order_by projections order_by;
          _ ← e_option (λ l, push_str (" LIMIT " +:+ num l)) limit;
          _ ← e_option (λ s, push_str (" OFFSET " +:+ num s)) skip;
          cols ← from_projections a c projections;
          take_compiled execution_mode cols
      end
  | _ => violation "Invalid root AST node for SQL:PGQ: "
  end.
End pgq.

(** No other statement is entered, so [query] is only for the root. *)
Fixpoint pgq_calls `{LiteralDebug} (graph : string) (a : QueryAstArena) (fuel : nat) : Calls :=
  match fuel with
  | O => no_calls
  | S fuel =>
      let c := pgq_calls graph a fuel in
      mkCalls (emit_expression a c) (emit_path a c) (visit_query a c fuel graph)
        (resolve_expression_name a c) (λ _, mret false)
  end.

Definition pgq_compile `{LiteralDebug} (e : SqlPgqEmitter) (a : QueryAstArena) (root : NodeHandle) :
    result stop CompiledQuery :=
  fst <$> query (pgq_calls (graph_name e) a (S (length (nodes a)))) root (fields e).
