(* ===== verification/PgqSafe.v ===== *)
(** * Safety of the SQL/PGQ emitter

    The walk of [EmitRel] through the methods of [Pgq].  The emitter puts its buffer
    aside to render a column, so the relation between the two runs must survive that. *)
From S2P Require Import Prelude Bytes F64 Errors Text Ast ArenaShape Label Emit EmitRel Pgq.
From S2P Require CypherSafe.

Open Scope Z_scope.
Open Scope string_scope.
Open Scope list_scope.

(** Related emitters have one text, and stay related with another one. *)
Record one_text (SR : Emitter → Emitter → Prop) : Prop := {
  one_buffer s t : SR s t → buffer s = buffer t;
  one_replaced x s t : SR s t → SR (with_buffer x s) (with_buffer x t);
}.

Section walk.
Context `{LiteralDebug} (a : QueryAstArena) (f : LiteralValue → LiteralValue).
Context (SR : Emitter → Emitter → Prop) (CR : CompiledQuery → CompiledQuery → Prop).
Context (P : LiteralValue → Prop) (HP : ∀ i lit, nodes a !! i = Some (Literal lit) → P lit).
Context (nest : Prop) (HC : closed a SR CR P f nest) (Htext : one_text SR).
Context (n : nat) (c1 c2 : Calls) (Hcalls : calls_related a SR CR n c1 c2).
Notation a2 := (map_lits f a).

Lemma pg_swap fin x : erel a SR fin eq (swap_buffer x) (swap_buffer x).
Proof. intros s t Hst. split; [by apply (one_buffer SR)|by apply (one_replaced SR)]. Qed.
Hint Resolve pg_swap : emit.

Lemma pg_render fin h :
  covers a fin n h → erel a SR fin eq (render_expression_to_string c1 h) (render_expression_to_string c2 h).
Proof. intros Hh. unfold render_expression_to_string. walk. Qed.
Hint Resolve pg_render : emit.

Lemma pg_node_pattern fin h :
  covers a fin (S n) h → erel a SR fin eq (emit_node_pattern a c1 h) (emit_node_pattern a2 c2 h).
Proof. intros Hh. unfold emit_node_pattern. walk. Qed.
Hint Resolve pg_node_pattern : emit.

Lemma pg_edge_pattern fin h :
  covers a fin (S n) h → erel a SR fin eq (emit_edge_pattern a c1 h) (emit_edge_pattern a2 c2 h).
Proof. intros Hh. unfold emit_edge_pattern, pgq_quantifier. walk. Qed.
Hint Resolve pg_edge_pattern : emit.

Lemma erel_unsupported {A B} fin (R : A → B → Prop) x y : erel a SR fin R (unsupported x) (unsupported y).
Proof. apply erel_fail. by intros [? ?]. Qed.
Hint Resolve erel_unsupported : emit.

Lemma pg_path fin h :
  covers a fin (S n) h → erel a SR fin eq (emit_path a c1 h) (emit_path a2 c2 h).
Proof. intros Hh. unfold emit_path. walk. Qed.

Lemma pg_where fin h :
  covers a fin (S n) h → erel a SR fin eq (emit_where a c1 h) (emit_where a2 c2 h).
Proof. intros Hh. unfold emit_where. walk. Qed.
Hint Resolve pg_where : emit.

Lemma pg_binary fin l op r nested :
  covers a fin n l → covers a fin n r →
  erel a SR fin eq (emit_binary c1 l op r nested) (emit_binary c2 l op r nested).
Proof. intros Hl Hr. unfold emit_binary. walk. Qed.
Hint Resolve pg_binary : emit.

Lemma pg_unary fin op operand :
  covers a fin n operand → erel a SR fin eq (emit_unary c1 op operand) (emit_unary c2 op operand).
Proof. by eapply CypherSafe.cy_unary. Qed.
Hint Resolve pg_unary : emit.

Lemma pg_case fin h operand branches else_branch :
  nodes a !! Z.to_nat h = Some (CaseExpression operand branches else_branch) → covers a fin (S n) h →
  erel a SR fin eq (emit_case c1 operand branches else_branch) (emit_case c2 operand branches else_branch).
Proof. by eapply CypherSafe.cy_case. Qed.
Hint Resolve pg_case : emit.

Lemma pg_expression fin h nested :
  covers a fin (S n) h → erel a SR fin eq (emit_expression a c1 h nested) (emit_expression a2 c2 h nested).
Proof. intros Hh. unfold emit_expression. walk. Qed.

(** Nothing of a literal is looked at to name a column. *)
Lemma same_variable_map x y : same_variable (map_lit f x) (map_lit f y) = same_variable x y.
Proof. by destruct x, y. Qed.

Lemma leaf_name_map h : get_expr_leaf_name a2 h = get_expr_leaf_name a h.
Proof. unfold get_expr_leaf_name. rewrite arena_get_map_lits. by destruct (arena_get a h) as [[]|]. Qed.

Lemma pg_match_names fin depth x y :
  covers a fin (S depth) x →
  erel a SR fin eq (expressions_match a depth x y) (expressions_match a2 depth x y).
Proof.
  revert x y. induction depth as [|depth IH]; intros x y Hx; cbn [expressions_match];
    (case_decide; [by apply erel_ret|]); rewrite !arena_get_map_lits; unfold arena_get;
    (destruct (nodes a !! Z.to_nat x) as [nx|] eqn:Ex; [|by apply erel_ret]);
    (destruct (nodes a !! Z.to_nat y) as [ny|] eqn:Ey; cbn [ok_or fmap result_fmap];
      [|by destruct nx; apply erel_ret]);
    assert (Hdef : erel a SR fin eq (mret (same_variable nx ny))
              (mret (same_variable (map_lit f nx) (map_lit f ny))))
      by (rewrite same_variable_map; by apply erel_ret);
    destruct nx; try exact Hdef; destruct ny; try exact Hdef; cbn [map_lit];
    (case_decide; [|by apply erel_ret]).
  - intros s t Hst Hfin. pose proof (covers_child _ _ _ _ _ target Ex ltac:(cbn; set_solver) Hx) as Hc.
    destruct (Hc Hfin) as [(? & ? & ?) ?]. lia.
  - apply IH. deeper.
Qed.

Lemma pg_resolve fin depth h projections :
  (∀ p, p ∈ projections → covers a fin (S depth) (proj_expression p)) →
  erel a SR fin eq (resolve_projected_column_name a depth h projections)
    (resolve_projected_column_name a2 depth h projections).
Proof.
  induction projections as [|p l IH]; intros Hp; cbn [resolve_projected_column_name].
  - rewrite leaf_name_map. by apply erel_ret.
  - apply erel_seq; [apply pg_match_names, Hp; set_solver|]. intros [].
    + destruct (proj_alias p); [by apply erel_ret|]. rewrite arena_get_map_lits. unfold arena_get.
      destruct (nodes a !! Z.to_nat (proj_expression p)) as [[]|]; cbn; try apply IH; try by apply erel_ret.
      all: intros q Hq; apply Hp; set_solver.
    + apply IH. intros q Hq. apply Hp. set_solver.
Qed.

Lemma pg_match fin h :
  covers a fin (S n) h → erel a SR fin eq (emit_match a c1 h) (emit_match a2 c2 h).
Proof. intros Hh. unfold emit_match. walk. Qed.
Hint Resolve pg_match : emit.

Lemma pg_matches fin (matches : list NodeHandle) :
  (∀ h, h ∈ matches → covers a fin n h) →
  erel a SR fin eq (emit_matches_and_where a c1 matches) (emit_matches_and_where a2 c2 matches).
Proof.
  intros Hm. unfold emit_matches_and_where. eapply erel_separated; [done|].
  intros h Hin. by apply pg_match, covers_S, Hm.
Qed.
Hint Resolve pg_matches : emit.

Notation covered fin projections := (∀ p, p ∈ projections → covers a fin n (proj_expression p)).

Lemma pg_columns fin (projections : list ProjectionItem) :
  covered fin projections → erel a SR fin eq (emit_columns c1 projections) (emit_columns c2 projections).
Proof. intros Hp. unfold emit_columns, emit_column. walk; by eapply rel_expr; [|apply Hp]. Qed.
Hint Resolve pg_columns : emit.

Lemma pg_aggregate_columns fin projections idx acc :
  covered fin projections →
  erel a SR fin eq (aggregate_columns a c1 idx projections acc) (aggregate_columns a2 c2 idx projections acc).
Proof.
  revert idx acc. induction projections as [|p l IH]; intros idx acc Hp; cbn [aggregate_columns];
    [by apply erel_ret|].
  apply erel_seq; [apply pg_render, Hp; set_solver|]. intros x. rewrite leaf_name_map.
  apply IH. intros q Hq. apply Hp. set_solver.
Qed.
Hint Resolve pg_aggregate_columns : emit.

Lemma pg_aggregating fin graph mode (matches : list NodeHandle) projections :
  (∀ h, h ∈ matches → covers a fin n h) → covered fin projections →
  erel a SR fin eq (emit_aggregating a c1 graph mode matches projections)
    (emit_aggregating a2 c2 graph mode matches projections).
Proof. intros Hm Hp. unfold emit_aggregating. walk. Qed.

Lemma pg_plain fin graph mode (matches : list NodeHandle) projections :
  (∀ h, h ∈ matches → covers a fin n h) → covered fin projections →
  erel a SR fin eq (emit_plain a c1 graph mode matches projections)
    (emit_plain a2 c2 graph mode matches projections).
Proof. intros Hm Hp. unfold emit_plain. walk. Qed.

Lemma pg_order_by fin projections (order_by : list (NodeHandle * bool)) :
  covered fin projections → (∀ o, o ∈ order_by → covers a fin n o.1) →
  erel a SR fin eq (pgq_order_by a c1 n projections order_by) (pgq_order_by a2 c2 n projections order_by).
Proof.
  intros Hp Ho. unfold pgq_order_by, pgq_order_item. walk.
  - apply pg_resolve. intros p Hin. by apply covers_S, Hp.
  - by eapply rel_expr; [|apply Ho].
Qed.

(** The parts are the same, and their handles are covered. *)
Definition covered_parts (fin : Prop)
    (r : list ProjectionItem * list (NodeHandle * bool) * option Z * option Z) : Prop :=
  covered fin r.1.1.1 ∧ ∀ o, o ∈ r.1.1.2 → covers a fin n o.1.

Lemma pg_return_parts fin o :
  (∀ h, h ∈ option_list o → covers a fin n h) →
  erel a SR fin (λ r1 r2, r1 = r2 ∧ covered_parts fin r1) (return_parts a o) (return_parts a2 o).
Proof.
  intros Ho. assert (Hnone : covered_parts fin ([], [], None, None)) by (split; intros ? []%elem_of_nil).
  destruct o as [h|]; cbn [return_parts]; [|by apply erel_ret].
  pose proof (covers_S _ _ _ _ (Ho h ltac:(cbn; set_solver))) as Hh.
  eapply erel_node; [deeper|]. intros nd Hnd.
  destruct nd; cbn [map_lit]; apply erel_ret; split; try done.
  split; cbn; intros x Hx; eapply covers_child; try exact Hnd; try (by intros ?; apply Hh); among.
Qed.

Lemma pg_visit fin graph h :
  covers a fin (S n) h → qrel a SR CR fin (visit_query a c1 n graph h) (visit_query a2 c2 n graph h).
Proof.
  intros Hh. unfold visit_query. apply qrel_seq; [by eapply erel_clear|]. intros _.
  eapply qrel_node; [deeper|]. intros nd Hnd.
  destruct nd; cbn [map_lit]; try apply qrel_violation.
  destruct (refused _ _ _ _); [intros ? ? ? _ _; by intros [? ?]|].
  eapply qrel_bind; [apply pg_return_parts; intros o Ho; deeper|].
  intros [[[ps order_by] skip] limit] ? [<- [Hp Ho]]. cbn in Hp, Ho.
  assert (Hm : ∀ m, m ∈ matches → covers a fin n m) by (intros m Hm; deeper).
  apply qrel_seq; [case_match; [by apply pg_aggregating|by apply pg_plain]|intros _].
  apply qrel_seq; [by apply pg_order_by|intros _].
  do 2 (apply qrel_seq; [walk|intros _]).
  eapply (qrel_bind a SR CR fin any); [by eapply rel_projections|intros; by eapply qrel_take].
Qed.
End walk.

(** The two runs correspond at every depth. *)
Lemma pgq_related `{LiteralDebug} graph a f SR CR P nest n :
  (∀ i lit, nodes a !! i = Some (Literal lit) → P lit) → closed a SR CR P f nest → one_text SR →
  calls_related a SR CR n (pgq_calls graph a n) (pgq_calls graph (map_lits f a) n).
Proof.
  intros HP HC Htext. induction n as [|n IH]; [apply no_calls_related|].
  constructor; cbn [pgq_calls expr path_ query expr_name likely_string]; intros.
  - by eapply pg_expression.
  - by eapply pg_path.
  - by eapply pg_visit.
  - by eapply rel_resolve.
  - by apply erel_ret.
Qed.
