(* ===== verification/EmitParams.v ===== *)
(** * Parameters of compiled queries

    The two relations between emitters that the walk of [EmitRel] is used with: runs
    that differ in the literals only, and a run with the pieces it has written. *)
From S2P Require Import Prelude Bytes F64 Errors Text Ast ArenaShape Label Emit EmitRel.

Open Scope Z_scope.
Open Scope string_scope.
Open Scope list_scope.

(** ** The same text, other values *)

Notation map_values f := (fmap (M := list) (prod_map (@id string) f)).

Lemma assoc_insert_map_values (f : LiteralValue → LiteralValue) k v m :
  map_values f (assoc_insert k v m) = assoc_insert k (f v) (map_values f m).
Proof.
  induction m as [|[k' v'] m IH]; [done|]. cbn. unfold id. case_decide; [done|]. cbn. by f_equal.
Qed.

Lemma extend_map_values (f : LiteralValue → LiteralValue) m new :
  map_values f (foldl (λ m kv, assoc_insert kv.1 kv.2 m) m new)
  = foldl (λ m kv, assoc_insert kv.1 kv.2 m) (map_values f m : list (string * LiteralValue)) (map_values f new).
Proof.
  revert m. induction new as [|[k v] new IH]; intros m; [done|]. cbn [foldl fmap list_fmap].
  rewrite IH. cbn. by rewrite assoc_insert_map_values.
Qed.

Definition same_text (f : LiteralValue → LiteralValue) (s t : Emitter) : Prop :=
  t = mkEmitter (param_counter s) (map_values f (parameters s)) (buffer s) (ignore_execution_mode s).
Definition same_query (f : LiteralValue → LiteralValue) (c d : CompiledQuery) : Prop :=
  statement d = statement c ∧ cq_parameters d = map_values f (cq_parameters c) ∧ cq_mode d = cq_mode c.

Lemma same_text_closed a f : closed a (same_text f) (same_query f) (λ _, True) f True.
Proof.
  constructor; unfold same_text.
  - by intros x s t ->.
  - intros lit s t _ ->. unfold with_literal. cbn. by rewrite assoc_insert_map_values.
  - by intros s t ->.
  - by intros s t ->.
  - by intros s t mode cols cols' ->.
  - intros fin q1 q2 _ Hq s t ->. unfold nested_query. cbn [param_counter].
    specialize (Hq (mkEmitter (param_counter s) [] "" true) _ eq_refl).
    cbn in Hq. destruct (q1 _) as [[c s']|[]], (q2 _) as [[d t']|[]]; simpl in *; try done.
    destruct Hq as [(-> & -> & _) ->]. split; [done|]. by rewrite extend_map_values.
Qed.

(** ** What was written *)

(** A statement is a sequence of texts and of holes for values. *)
Inductive piece := Text (x : string) | Hole (v : LiteralValue).

Definition hole (p : piece) : option LiteralValue := match p with Hole v => Some v | Text _ => None end.
Definition holes (ps : list piece) : list LiteralValue := omap hole ps.

(** The [i]-th hole shows as [$p<i>]. *)
Fixpoint render (i : Z) (ps : list piece) : string :=
  match ps with
  | [] => ""
  | Text x :: ps => x +:+ render i ps
  | Hole _ :: ps => "$" +:+ param_name i +:+ render (i + 1) ps
  end.

(** The values in order, under the names of their holes. *)
Fixpoint numbered (i : Z) (vs : list LiteralValue) : list (string * LiteralValue) :=
  match vs with
  | [] => []
  | v :: vs => (param_name i, v) :: numbered (i + 1) vs
  end.

Lemma holes_app ps qs : holes (ps ++ qs) = holes ps ++ holes qs.
Proof. apply omap_app. Qed.

Lemma render_app i ps qs : render i (ps ++ qs) = render i ps +:+ render (i + blen (holes ps)) qs.
Proof.
  revert i. induction ps as [|[x|v] ps IH]; intros i; cbn [app render].
  - change (blen (holes [])) with 0. by rewrite Z.add_0_r.
  - by rewrite IH, string_app_assoc.
  - rewrite IH, !string_app_assoc. do 4 f_equal. unfold blen. simpl. lia.
Qed.

Lemma numbered_app i vs ws : numbered i (vs ++ ws) = numbered i vs ++ numbered (i + blen vs) ws.
Proof.
  revert i. induction vs as [|v vs IH]; intros i; cbn [app numbered].
  - change (blen []) with 0. by rewrite Z.add_0_r.
  - rewrite IH. simpl. do 3 f_equal. unfold blen. simpl. lia.
Qed.

(** Names are distinct, since numbers print differently. *)
Lemma show_int_inj i j : 0 <= i → 0 <= j → show_int i = show_int j → i = j.
Proof.
  intros Hi Hj. unfold show_int. destruct (Z.ltb_spec i 0), (Z.ltb_spec j 0); try lia.
  intros E. apply (f_equal parse_digits) in E. rewrite !parse_digits_digits in E by done. congruence.
Qed.

Lemma param_name_inj i j : 0 <= i → 0 <= j → param_name i = param_name j → i = j.
Proof.
  intros Hi Hj E. apply (f_equal as_bytes) in E. unfold param_name, num in E.
  rewrite !as_bytes_app, !as_bytes_of_bytes in E. by apply app_inv_head, show_int_inj in E.
Qed.

Lemma numbered_names i vs k : 0 <= i → k ∈ (numbered i vs).*1 → ∃ j, i <= j < i + blen vs ∧ k = param_name j.
Proof.
  revert i. induction vs as [|v vs IH]; intros i Hi Hk; [by apply elem_of_nil in Hk|].
  cbn in Hk. apply elem_of_cons in Hk as [->|Hk].
  - exists i. unfold blen. simpl. split; [lia|done].
  - apply IH in Hk as (j & Hj & ->); [|lia]. exists j. unfold blen in *. simpl. split; [lia|done].
Qed.

(** The fields of an emitter that has written [ps]; [ok] holds of the values.  The
    counter wraps, so the text and the map are known while it has not; a hole takes
    room in the buffer, which bounds their number. *)
Definition wrote (ok : LiteralValue → Prop) (s : Emitter) : Prop :=
  ∃ ps, let n := blen (holes ps) in
    param_counter s = as_unsigned 64 n ∧ n <= blen (as_bytes (buffer s)) ∧ Forall ok (holes ps)
    ∧ (n < 2 ^ 64 → buffer s = render 0 ps ∧ parameters s = numbered 0 (holes ps)).
Definition wrote_query (ok : LiteralValue → Prop) (c : CompiledQuery) : Prop :=
  ∃ ps, let n := blen (holes ps) in
    n <= blen (as_bytes (statement c)) ∧ Forall ok (holes ps)
    ∧ (n < 2 ^ 64 → statement c = render 0 ps ∧ cq_parameters c = numbered 0 (holes ps)).

Lemma string_app_nil (x : string) : x +:+ "" = x.
Proof. apply as_bytes_inj. by rewrite as_bytes_app, app_nil_r. Qed.

Lemma wrote_push ok x s : wrote ok s → wrote ok (pushed x s).
Proof.
  intros (ps & Hc & Hn & Hok & Hr). exists (ps ++ [Text x]). rewrite holes_app.
  change (holes [Text x]) with (@nil LiteralValue). rewrite app_nil_r. unfold pushed.
  cbn [buffer param_counter parameters]. split_and!; try done.
  - rewrite as_bytes_app, blen_app. pose proof (blen_nonneg (as_bytes x)). lia.
  - intros Hlt. destruct (Hr Hlt) as [-> ->]. rewrite render_app. cbn [render]. by rewrite string_app_nil.
Qed.

Lemma wrote_literal ok lit s : ok lit → wrote ok s → wrote ok (with_literal lit s).
Proof.
  intros Hlit (ps & Hc & Hn & Hok & Hr). exists (ps ++ [Hole lit]). rewrite holes_app.
  change (holes [Hole lit]) with [lit].
  assert (Hlen : blen (holes ps ++ [lit]) = blen (holes ps) + 1) by (rewrite blen_app; done).
  pose proof (blen_nonneg (holes ps)).
  cbn zeta. rewrite Hlen. unfold with_literal. cbn [buffer param_counter parameters]. split_and!.
  - rewrite Hc. unfold as_unsigned. by rewrite Z.add_mod_idemp_l.
  - rewrite !as_bytes_app, !blen_app. change (blen (as_bytes "$")) with 1.
    pose proof (blen_nonneg (as_bytes (param_name (param_counter s)))). lia.
  - apply Forall_app. auto.
  - intros Hlt. destruct Hr as [Hb Hp]; [lia|]. rewrite Hc. unfold as_unsigned. rewrite Z.mod_small by lia.
    split.
    + rewrite Hb, render_app. cbn [render]. by rewrite string_app_nil, Z.add_0_l.
    + rewrite Hp, assoc_insert_fresh, numbered_app; [done|].
      intros (j & Hj & E)%numbered_names; [|lia]. apply param_name_inj in E; lia.
Qed.

Definition wrote_text (ok : LiteralValue → Prop) (s t : Emitter) : Prop := s = t ∧ wrote ok s.

Lemma wrote_closed a ok :
  closed a (wrote_text ok) (λ c _, wrote_query ok c) ok id False.
Proof.
  constructor.
  - intros x s t [-> Hw]. split; [done|]. by apply wrote_push.
  - intros lit s t Hlit [-> Hw]. split; [done|]. by apply wrote_literal.
  - by intros s t [-> _].
  - intros s t [-> _]. split; [done|]. exists []. by split_and!.
  - intros s t mode cols cols' [-> (ps & Hc & Hn & Hok & Hr)]. split; [|done]. by exists ps.
  - done.
Qed.
