(* ===== verification/Dialects.v ===== *)
(** * The compilers of queries

    What the dialect emitters promise to those who run a compiled query, stated once
    as an interface: no value of the query gets into the statement's text, the
    parameters are bound to what they stand for, and compilation ends.  The Cypher,
    ISO GQL and SQL/PGQ emitters keep it by the walk of [EmitRel]; AGE's wrapper keeps
    it when what it wraps does. *)
From S2P Require Import Prelude Bytes F64 Errors Text Ast ArenaShape Label Emit EmitRel EmitParams.
From S2P Require Cypher CypherSafe Gql GqlSafe Age Pgq PgqSafe.

Open Scope Z_scope.
Open Scope string_scope.
Open Scope list_scope.

(** ** The interface *)

Definition literal_of (a : QueryAstArena) (lit : LiteralValue) : Prop :=
  ∃ i, nodes a !! i = Some (Literal lit).

(** Outcomes that differ in the values of the parameters at most. *)
Definition corresponds (f : LiteralValue → LiteralValue) (r1 r2 : result stop CompiledQuery) : Prop :=
  match r1, r2 with
  | Ok c, Ok d => same_query f c d
  | Err (Fail _), Err (Fail _) | Err OutOfFuel, Err OutOfFuel => True
  | _, _ => False
  end.

(** [allowed] are the changes of literals that leave the text alone. *)
Class Compiler (allowed : (LiteralValue → LiteralValue) → Prop)
    (comp : QueryAstArena → NodeHandle → result stop CompiledQuery) := {
  comp_literals f a root : allowed f → corresponds f (comp a root) (comp (map_lits f a) root);
  comp_ends a root : acyclic a → comp a root ≠ Err OutOfFuel;
  comp_valid a root e :
    acyclic a → complete a → is_Some (nodes a !! Z.to_nat root) → comp a root = Err (Fail e) → ¬ dangles e;
}.

(** Compilers that write the placeholders in the order of their numbers. *)
Class InOrder (comp : QueryAstArena → NodeHandle → result stop CompiledQuery) :=
  comp_wrote a root c : ¬ nests_query a → comp a root = Ok c → wrote_query (literal_of a) c.

Lemma map_lits_id a : map_lits id a = a.
Proof.
  destruct a as [ns]. unfold map_lits. cbn. f_equal. induction ns as [|n ns IH]; [done|].
  cbn. rewrite IH. by destruct n.
Qed.

(** ** Emitters with a walk *)

Section emitters.
Context `{LiteralDebug} (calls : QueryAstArena → nat → Calls).

(** A compilation starts over: nothing of the emitter but its mode is used. *)
Context (restarts : ∀ a n h s,
  query (calls a (S n)) h s = query (calls a (S n)) h (mkEmitter 0 [] "" (ignore_execution_mode s))).
(** A root outside the arena is an error. *)
Context (no_root : ∀ a n h s, nodes a !! Z.to_nat h = None → ∃ e, query (calls a (S n)) h s = Err (Fail e)).

Definition compile_with (e : Emitter) (a : QueryAstArena) (root : NodeHandle) : result stop CompiledQuery :=
  fst <$> query (calls a (S (length (nodes a)))) root e.

Lemma length_map_lits f a : length (nodes (map_lits f a)) = length (nodes a).
Proof. apply length_fmap. Qed.

Lemma compile_related (f : LiteralValue → LiteralValue) SR CR e a root :
  (∀ n, calls_related a SR CR n (calls a n) (calls (map_lits f a) n)) →
  SR (mkEmitter 0 [] "" (ignore_execution_mode e)) (mkEmitter 0 [] "" (ignore_execution_mode e)) →
  match compile_with e a root, compile_with e (map_lits f a) root with
  | Ok c, Ok d => CR c d
  | Err (Fail e), Err (Fail _) =>
      acyclic a → complete a → is_Some (nodes a !! Z.to_nat root) → ¬ dangles e
  | Err OutOfFuel, Err OutOfFuel => ¬ acyclic a
  | _, _ => False
  end.
Proof.
  intros Hrel Hs. unfold compile_with. rewrite length_map_lits.
  destruct (nodes a !! Z.to_nat root) as [nd|] eqn:Hroot.
  - pose proof (Hrel (S (length (nodes a)))) as Hcalls.
    assert (Hcov : covers a (acyclic a) (S (length (nodes a))) root).
    { intros (rank & Hr & Hle). split; [|done]. exists rank. split; [done|].
      specialize (Hle (Z.to_nat root)). lia. }
    pose proof (rel_query _ _ _ _ _ _ Hcalls _ _ Hcov _ _ Hs) as Hq.
    rewrite !(restarts _ _ _ e).
    destruct (query (calls a _) _ _) as [[c s']|[]], (query (calls (map_lits f a) _) _ _) as [[d t']|[]];
      simpl in *; tauto.
  - destruct (no_root a (length (nodes a)) root e Hroot) as [e1 ->].
    destruct (no_root (map_lits f a) (length (nodes a)) root e) as [e2 ->].
    { unfold map_lits. cbn. by rewrite list_lookup_fmap, Hroot. }
    intros _ _ [? ?]. congruence.
Qed.

Context (keeps : (LiteralValue → LiteralValue) → Prop) (keeps_id : keeps id).
Context (calls_same : ∀ a f n, keeps f →
  calls_related a (same_text f) (same_query f) n (calls a n) (calls (map_lits f a) n)).

Lemma emitter_compiler e : Compiler keeps (compile_with e).
Proof.
  constructor.
  - intros f a root Hf.
    pose proof (compile_related f _ _ e a root (λ n, calls_same a f n Hf) eq_refl).
    unfold corresponds. by repeat case_match.
  - intros a root Hac Hc.
    pose proof (compile_related id _ _ e a root (λ n, calls_same a id n keeps_id) eq_refl) as Hr.
    rewrite map_lits_id, Hc in Hr. by apply Hr.
  - intros a root e' Hac Hcomp Hroot Hc.
    pose proof (compile_related id _ _ e a root (λ n, calls_same a id n keeps_id) eq_refl) as Hr.
    rewrite map_lits_id, Hc in Hr. by apply Hr.
Qed.

Context (calls_wrote : ∀ a n, ¬ nests_query a →
  calls_related a (wrote_text (literal_of a)) (λ c _, wrote_query (literal_of a) c) n
    (calls a n) (calls (map_lits id a) n)).

Lemma emitter_in_order e : InOrder (compile_with e).
Proof.
  intros a root c Hn Hc.
  pose proof (compile_related id _ _ e a root (λ n, calls_wrote a n Hn)) as Hr.
  rewrite map_lits_id, Hc in Hr. apply Hr. split; [done|]. exists []. by split_and!.
Qed.
End emitters.

(** A walk at every relation gives both. *)
Lemma literals_of a i lit : nodes a !! i = Some (Literal lit) → literal_of a lit.
Proof. by exists i. Qed.

(** [visit_query] begins by looking its root up. *)
Ltac no_root :=
  unfold node, arena_get, mbind, EM_bind; cbn;
  match goal with H : _ = None |- _ => rewrite H end; by eexists.

#[export] Instance cypher_compiler `{LiteralDebug} e : Compiler (λ _, True) (Cypher.cypher_compile e).
Proof.
  apply (emitter_compiler Cypher.cypher_calls); [done| |done|].
  - intros a n h s Hh. cbn [Cypher.cypher_calls query]. unfold Cypher.visit_query. no_root.
  - intros a f n _. eapply CypherSafe.cypher_related; [|apply same_text_closed|]; done.
Qed.
#[export] Instance cypher_in_order `{LiteralDebug} e : InOrder (Cypher.cypher_compile e).
Proof.
  apply (emitter_in_order Cypher.cypher_calls); [done| |].
  - intros a n h s Hh. cbn [Cypher.cypher_calls query]. unfold Cypher.visit_query. no_root.
  - intros a n Hn. eapply CypherSafe.cypher_related;
      [apply literals_of|apply wrote_closed|done].
Qed.

Notation keeps_strings f := (∀ lit, GqlSafe.is_string (f lit) = GqlSafe.is_string lit).

#[export] Instance gql_compiler `{LiteralDebug} e : Compiler (λ f, keeps_strings f) (Gql.gql_compile e).
Proof.
  apply (emitter_compiler Gql.gql_calls); [done| |done|].
  - intros a n h s Hh. cbn [Gql.gql_calls query]. unfold Gql.visit_query. no_root.
  - intros a f n Hf. eapply GqlSafe.gql_related; [done| |apply same_text_closed|]; done.
Qed.
#[export] Instance gql_in_order `{LiteralDebug} e : InOrder (Gql.gql_compile e).
Proof.
  apply (emitter_in_order Gql.gql_calls); [done| |].
  - intros a n h s Hh. cbn [Gql.gql_calls query]. unfold Gql.visit_query. no_root.
  - intros a n Hn. eapply GqlSafe.gql_related;
      [done|apply literals_of|apply wrote_closed|done].
Qed.

Lemma same_text_one f : PgqSafe.one_text (same_text f).
Proof. constructor; unfold same_text; by intros; subst. Qed.

#[export] Instance pgq_compiler `{LiteralDebug} e : Compiler (λ _, True) (Pgq.pgq_compile e).
Proof.
  apply (emitter_compiler (Pgq.pgq_calls (Pgq.graph_name e))); [done| |done|].
  - intros a n h s Hh. cbn [Pgq.pgq_calls query]. unfold Pgq.visit_query. no_root.
  - intros a f n _. eapply PgqSafe.pgq_related;
      [|apply same_text_closed|apply same_text_one]; done.
Qed.

(** ** AGE's wrapper, over what it wraps *)

(** The names of the columns are the same for both arenas. *)
Lemma age_column_map f a proj : Age.age_column (map_lits f a) proj = Age.age_column a proj.
Proof.
  unfold Age.age_column, Age.get_node. rewrite arena_get_map_lits. destruct (proj_alias proj); [done|].
  by destruct (arena_get a (proj_expression proj)) as [[]|].
Qed.

Lemma age_projections_map f a l :
  result_mapM (Age.age_column (map_lits f a)) l = result_mapM (Age.age_column a) l.
Proof. induction l as [|p l IH]; [done|]. simpl. by rewrite age_column_map, IH. Qed.

Lemma age_columns_map f a n : Age.age_columns (map_lits f a) (map_lit f n) = Age.age_columns a n.
Proof.
  destruct n; try done. destruct return_clause as [h|]; [|done].
  unfold Age.age_columns, Age.get_node. cbn [map_lit]. rewrite arena_get_map_lits.
  destruct (arena_get a h) as [[]|]; try done. cbn. by rewrite age_projections_map.
Qed.

Lemma age_wrapped_same f e mode cols c d :
  same_query f c d → same_query f (Age.age_wrapped e mode cols c) (Age.age_wrapped e mode cols d).
Proof.
  intros (Hs & Hp & _). unfold same_query, Age.age_wrapped. cbn. rewrite Hs, Hp.
  by destruct (cq_parameters c).
Qed.

Lemma wrote_query_around ok before after c params mode cols :
  wrote_query ok c → params = cq_parameters c →
  wrote_query ok (with_columns (before +:+ statement c +:+ after) params mode cols).
Proof.
  intros (ps & Hn & Hok & Hr) ->. exists (Text before :: ps ++ [Text after]).
  assert (Hh : holes (Text before :: ps ++ [Text after]) = holes ps).
  { change (holes (Text before :: ps ++ [Text after])) with (holes (ps ++ [Text after])).
    rewrite holes_app. apply app_nil_r. }
  rewrite Hh. cbn [statement cq_parameters with_columns]. split_and!; [|done|].
  - rewrite !as_bytes_app, !blen_app. pose proof (blen_nonneg (as_bytes before)).
    pose proof (blen_nonneg (as_bytes after)). lia.
  - intros [Hs Hp]%Hr. split; [|done]. cbn [render]. rewrite render_app, Hs. cbn [render].
    by rewrite string_app_nil.
Qed.

Lemma age_wrapped_wrote ok e mode cols c : wrote_query ok c → wrote_query ok (Age.age_wrapped e mode cols c).
Proof.
  intros Hc. unfold Age.age_wrapped.
  match goal with |- context [?x +:+ ?y +:+ ?z +:+ ?w +:+ statement c +:+ ?v] =>
    replace (x +:+ y +:+ z +:+ w +:+ statement c +:+ v)
      with ((x +:+ y +:+ z +:+ w) +:+ statement c +:+ v) by (by rewrite !string_app_assoc) end.
  by apply wrote_query_around.
Qed.

Lemma age_column_ends a proj : Age.age_column a proj ≠ Err OutOfFuel.
Proof.
  unfold Age.age_column, Age.get_node.
  by destruct (proj_alias proj), (arena_get a (proj_expression proj)).
Qed.

Lemma age_projections_end a l : result_mapM (Age.age_column a) l ≠ Err OutOfFuel.
Proof.
  induction l as [|p l IH]; [done|]. simpl. pose proof (age_column_ends a p).
  destruct (Age.age_column a p); simpl; [|congruence].
  destruct (result_mapM (Age.age_column a) l); simpl; congruence.
Qed.

Lemma age_columns_end a n : Age.age_columns a n ≠ Err OutOfFuel.
Proof.
  destruct n; try done. destruct return_clause as [h|]; [|done].
  unfold Age.age_columns, Age.get_node. destruct (arena_get a h) as [[]|]; try done.
  pose proof (age_projections_end a projections). cbn.
  destruct (result_mapM _ _); simpl; congruence.
Qed.

(** No handle dangles, so every column has a name. *)
Lemma get_node_Some a h n : nodes a !! Z.to_nat h = Some n → Age.get_node a h = Ok n.
Proof. unfold Age.get_node, arena_get. by intros ->. Qed.

Lemma age_projections_ok a l :
  (∀ p, p ∈ l → is_Some (nodes a !! Z.to_nat (proj_expression p))) →
  ∃ cols, result_mapM (Age.age_column a) l = Ok cols.
Proof.
  induction l as [|p l IH]; intros Hl; [by eexists|].
  destruct IH as [cols IH]; [intros q Hq; apply Hl; set_solver|].
  destruct (Hl p) as [n Hn]; [set_solver|].
  assert (Hp : ∃ c, Age.age_column a p = Ok c).
  { unfold Age.age_column. rewrite (get_node_Some _ _ _ Hn). destruct (proj_alias p); by eexists. }
  destruct Hp as [c Hp]. simpl. rewrite Hp. simpl. rewrite IH. by eexists.
Qed.

Lemma age_columns_ok a i n : complete a → nodes a !! i = Some n → ∃ r, Age.age_columns a n = Ok r.
Proof.
  intros Hc Hi. destruct n; try by eexists. destruct return_clause as [h|]; [|by eexists].
  destruct (Hc _ _ h Hi) as [r Hr]; [cbn; set_solver|]. cbn. rewrite (get_node_Some _ _ _ Hr). cbn.
  destruct r; try by eexists.
  destruct (age_projections_ok a projections) as [cols ->]; [|by eexists].
  intros p Hp. apply (Hc _ _ _ Hr). cbn. apply elem_of_app. left. by apply elem_projection.
Qed.

Notation inner := (Cypher.cypher_compile (without_execution_mode Emitter_new)).

#[export] Instance age_compiler `{LiteralDebug} e : Compiler (λ _, True) (Age.age_compile e).
Proof.
  constructor; unfold Age.age_compile, Age.get_node.
  - intros f a root Hf. pose proof (@comp_literals _ _ (cypher_compiler (without_execution_mode Emitter_new)) f a root Hf) as Hc.
    rewrite arena_get_map_lits. unfold corresponds in *.
    destruct (inner a root) as [c|[]], (inner (map_lits f a) root) as [d|[]];
      try done. cbn.
    destruct (arena_get a root) as [n|]; [|done]. cbn. rewrite age_columns_map.
    destruct (Age.age_columns a n) as [[cols mode]|[]]; [|done..]. by apply age_wrapped_same.
  - intros a root Hac Hc. pose proof (@comp_ends _ _ (cypher_compiler (without_execution_mode Emitter_new)) a root Hac) as He.
    destruct (inner a root) as [c'|]; simpl in *; [|congruence].
    destruct (arena_get a root) as [n|]; [|done]. simpl in Hc.
    pose proof (age_columns_end a n). destruct (Age.age_columns a n) as [[cols mode]|]; simpl in *; congruence.
  - intros a root e' Hac Hcomp [n Hn] Hc. pose proof (@comp_valid _ _ (cypher_compiler (without_execution_mode Emitter_new)) a root) as Hv.
    destruct (inner a root) as [c'|e0]; simpl in Hc; [|simplify_eq; by eapply Hv].
    unfold arena_get in Hc. rewrite Hn in Hc. simpl in Hc.
    destruct (age_columns_ok a _ n Hcomp Hn) as [[cols mode] Hcols]. by rewrite Hcols in Hc.
Qed.

#[export] Instance age_in_order `{LiteralDebug} e : InOrder (Age.age_compile e).
Proof.
  unfold Age.age_compile, Age.get_node. intros a root c Hn Hc.
  pose proof (@comp_wrote _ (cypher_in_order (without_execution_mode Emitter_new)) a root) as Hw.
  destruct (inner a root) as [c'|]; [|done]. simpl in Hc.
  destruct (arena_get a root) as [n|]; [|done]. simpl in Hc.
  destruct (Age.age_columns a n) as [[cols mode]|]; [|done]. simplify_eq/=.
  by eapply age_wrapped_wrote, Hw.
Qed.

(** ** Dialects *)

(** An emitter may have compiled other queries before. *)
Inductive dialect :=
| OpenCypher (e : Emitter)
| IsoGql (e : Emitter)
| ApacheAge (e : Age.AgeEmitter)
| SqlPgq (e : Pgq.SqlPgqEmitter).

Definition compile `{LiteralDebug} (d : dialect) : QueryAstArena → NodeHandle → result stop CompiledQuery :=
  match d with
  | OpenCypher e => Cypher.cypher_compile e
  | IsoGql e => Gql.gql_compile e
  | ApacheAge e => Age.age_compile e
  | SqlPgq e => Pgq.pgq_compile e
  end.

(** ISO GQL asks whether an operand of [+] is a string. *)
Definition allowed (d : dialect) (f : LiteralValue → LiteralValue) : Prop :=
  match d with IsoGql _ => keeps_strings f | _ => True end.

(** SQL/PGQ numbers the columns of an aggregating query before the patterns. *)
Definition in_order (d : dialect) : bool := match d with SqlPgq _ => false | _ => true end.

#[export] Instance dialect_compiler `{LiteralDebug} d : Compiler (allowed d) (compile d).
Proof. destruct d; cbn; apply _. Qed.
Lemma dialect_in_order `{LiteralDebug} d : in_order d = true → InOrder (compile d).
Proof. destruct d; cbn; intros; try done; apply _. Qed.

(** ** The properties *)

(** C4: the values of a query never reach the text of its statement.  Replace every
    literal of the arena by another one: each dialect compiles the same statement,
    with the same execution mode, and the parameters are the same names bound to the
    replaced values; if one arena is refused, so is the other.  ISO GQL writes [+] as
    [||] between strings, so there a replacement leaves strings strings and other
    literals other literals.  The names of the result's columns, which are no part of
    the statement, are not compared: an expression without an alias is named after
    its text. *)
Theorem values_stay_out `{LiteralDebug} d f a root :
  allowed d f → corresponds f (compile d a root) (compile d (map_lits f a) root).
Proof. apply comp_literals. Qed.

(** C8: in Cypher, ISO GQL and AGE, outside of nested statements, the parameters of a
    compiled query are exactly the placeholders of its text, in order.  The statement is a sequence of texts and
    holes, the holes hold literals of the query, the [i]-th one reads [$p<i>], and the
    parameters bind [p0], [p1], ... to the values of the holes, nothing else. *)
Theorem parameters_are_the_placeholders `{LiteralDebug} d a root c :
  in_order d = true → ¬ nests_query a → compile d a root = Ok c → blen (as_bytes (statement c)) < 2 ^ 64 →
  ∃ ps, statement c = render 0 ps ∧ cq_parameters c = numbered 0 (holes ps)
        ∧ Forall (literal_of a) (holes ps).
Proof.
  intros Ho Hn Hc Hlen. destruct (dialect_in_order d Ho a root c Hn Hc) as (ps & Hle & Hok & Hr).
  destruct Hr as [Hs Hp]; [lia|]. by exists ps.
Qed.

(** C24: every dialect compiles every arena without cycles, to a statement or an error:
    the recursion ends within a depth of one more than the number of nodes, whatever
    the root. *)
Theorem compile_terminates `{LiteralDebug} d a root :
  acyclic a → ∃ r, compile d a root = r ∧ r ≠ Err OutOfFuel.
Proof. intros Ha. eexists. split; [done|]. by apply comp_ends. Qed.

(** ** The properties at a query *)

(** [MATCH (u) WHERE u.age > 21 RETURN u]. *)
Definition adults : QueryAstArena := mkArena [
  NodePattern (Some "u") None [];
  Identifier "u";
  PropertyAccess 1 "age";
  Literal (LInt64 21);
  BinaryExpression 2 Gt 3;
  WhereClause 4;
  MatchClause false [0] (Some 5);
  ReturnClause false [mkProjection 1 None None] [] None None;
  QueryStatement Normal None [] [6] [] [] [] (Some 7)].

#[local] Instance no_debug : LiteralDebug := λ _, "".

Definition no_subqueries (a : QueryAstArena) : bool :=
  forallb (λ n, match n with ExistsSubquery _ | CountSubquery _ => false | _ => true end) (nodes a).
Lemma no_subqueries_nests a : no_subqueries a = true → ¬ nests_query a.
Proof.
  unfold no_subqueries. rewrite forallb_forall. intros H (i & n & sub & Hi & Hn & _).
  assert (Hin : List.In n (nodes a)) by (by eapply list_elem_of_In, list_elem_of_lookup_2).
  specialize (H _ Hin). by destruct Hn as [-> | ->].
Qed.

(** The text of an attacker's value is no part of the statement. *)
Definition attack (lit : LiteralValue) : LiteralValue := LString "0 OR true RETURN u //".
Definition age_g : Age.AgeEmitter := Age.mkAge "g".

Lemma values_stay_out_witness :
  corresponds attack (compile (ApacheAge age_g) adults 8) (compile (ApacheAge age_g) (map_lits attack adults) 8)
  ∧ compile (ApacheAge age_g) (map_lits attack adults) 8
    = Ok (with_columns "SELECT * FROM cypher('g', $$ MATCH (u) WHERE u.age > $p0 RETURN u $$, %s) AS (u agtype)"
            [("p0", LString "0 OR true RETURN u //")] Normal [mkColumn "u" None]).
Proof. split; [by apply values_stay_out|vm_compute; reflexivity]. Defined.

Lemma parameters_are_the_placeholders_witness :
  ∃ ps, "MATCH (u) WHERE u.age > $p0 RETURN u" = render 0 ps ∧ [("p0", LInt64 21)] = numbered 0 (holes ps)
        ∧ Forall (literal_of adults) (holes ps).
Proof.
  apply (parameters_are_the_placeholders (OpenCypher Emitter_new) adults 8
    (with_columns "MATCH (u) WHERE u.age > $p0 RETURN u" [("p0", LInt64 21)] Normal [mkColumn "u" None])).
  - reflexivity.
  - by apply no_subqueries_nests.
  - vm_compute. reflexivity.
  - vm_compute. reflexivity.
Defined.

Lemma compile_terminates_witness :
  acyclic adults ∧ ∃ r, compile (IsoGql Emitter_new) adults 8 = r ∧ r ≠ Err OutOfFuel.
Proof.
  split; [by apply ordered_acyclic, orderedb_ordered|]. apply compile_terminates. by apply ordered_acyclic, orderedb_ordered.
Defined.

(** ** Where the text says less than the query *)

(** [MATCH (u) WHERE u.age > 21 AND EXISTS { MATCH (p) WHERE p.views > 100 } RETURN u]. *)
Definition nested_arena : QueryAstArena := mkArena [
  NodePattern (Some "u") None [];
  Identifier "u";
  PropertyAccess 1 "age";
  Literal (LInt64 21);
  BinaryExpression 2 Gt 3;
  NodePattern (Some "p") None [];
  Identifier "p";
  PropertyAccess 6 "views";
  Literal (LInt64 100);
  BinaryExpression 7 Gt 8;
  WhereClause 9;
  MatchClause false [5] (Some 10);
  QueryStatement Normal None [] [11] [] [] [] None;
  ExistsSubquery 12;
  BinaryExpression 4 And 13;
  WhereClause 14;
  MatchClause false [0] (Some 15);
  ReturnClause false [mkProjection 1 None None] [] None None;
  QueryStatement Normal None [] [16] [] [] [] (Some 17)].

(** The counter given to the emitter of a nested statement is not used: its first
    parameter is [$p0] again.  So the value of the outer [$p0] is lost. *)
Lemma nested_parameters_collide :
  let text := "MATCH (u) WHERE (u.age > $p0) AND EXISTS { MATCH (p) WHERE p.views > $p0 } RETURN u" in
  let both := Ok (with_columns text [("p0", LInt64 100)] Normal [mkColumn "u" None]) in
  compile (OpenCypher Emitter_new) nested_arena 18 = both
  ∧ compile (IsoGql Emitter_new) nested_arena 18 = both.
Proof. split; vm_compute; reflexivity. Qed.

(** [RETURN] of one expression. *)
Definition returning (es : list AstNode) (root : NodeHandle) : QueryAstArena :=
  mkArena (es ++ [ReturnClause false [mkProjection root (Some "x") None] [] None None;
                  QueryStatement Normal None [] [] [] [] [] (Some (blen es))]).

(** The operand of a unary operator and the target of a property are written without
    parentheses: different expressions have one text. *)
Lemma operators_lose_parentheses d :
  compile d (returning [Identifier "a"; UnaryExpression Neg 0; UnaryExpression IsNull 1] 2) 4
  = compile d (returning [Identifier "a"; UnaryExpression IsNull 0; UnaryExpression Neg 1] 2) 4
  ∧ compile d (returning [Identifier "a"; Identifier "b"; BinaryExpression 0 Add 1; PropertyAccess 2 "c"] 3) 5
  = compile d (returning [Identifier "a"; Identifier "b"; PropertyAccess 1 "c"; BinaryExpression 0 Add 2] 3) 5.
Proof. destruct d as [[? ? ? []]|[? ? ? []]|[]|[? []]]; split; vm_compute; reflexivity. Qed.

(** [MATCH (u) WHERE u.age > 21 MATCH (p) RETURN u.age], the second match and the
    projection as given. *)
Definition two_matches (optional distinct : bool) : QueryAstArena := mkArena [
  NodePattern (Some "u") None [];
  Identifier "u";
  PropertyAccess 1 "age";
  Literal (LInt64 21);
  BinaryExpression 2 Gt 3;
  WhereClause 4;
  MatchClause false [0] (Some 5);
  NodePattern (Some "p") None [];
  MatchClause optional [7] None;
  ReturnClause distinct [mkProjection 2 None None] [] None None;
  QueryStatement Normal None [] [6; 8] [] [] [] (Some 9)].

(** SQL/PGQ writes a graph table for [OPTIONAL MATCH] and [RETURN DISTINCT] too, as if
    they were plain; a second match is put behind the first one's condition. *)
Lemma pgq_drops_optional_and_distinct optional distinct :
  compile (SqlPgq (Pgq.SqlPgqEmitter_new "g")) (two_matches optional distinct) 10
  = Ok (with_columns "SELECT * FROM GRAPH_TABLE (g MATCH (u) WHERE u.age > $p0, (p) COLUMNS (u.age))"
          [("p0", LInt64 21)] Normal [mkColumn "u.age" None]).
Proof. destruct optional, distinct; vm_compute; reflexivity. Qed.

(** [MATCH (u) WHERE u.age > 21 RETURN u.age AS x, u.age AS y, u.age / 10 AS decade, COUNT(u) AS n]. *)
Definition counted : QueryAstArena := mkArena [
  NodePattern (Some "u") None [];
  Identifier "u";
  PropertyAccess 1 "age";
  Literal (LInt64 21);
  BinaryExpression 2 Gt 3;
  WhereClause 4;
  MatchClause false [0] (Some 5);
  Literal (LInt64 10);
  BinaryExpression 2 Div 7;
  ReturnClause false [mkProjection 2 (Some "x") None; mkProjection 2 (Some "y") None;
                      mkProjection 8 (Some "decade") None; mkProjection 1 (Some "n") (Some Count)]
    [] None None;
  QueryStatement Normal None [] [6] [] [] [] (Some 9)].

(** The columns are rendered first, so their parameters have the lower numbers; and a
    second name of an expression is lost, though the result still announces it. *)
Lemma pgq_aggregates_by_text :
  compile (SqlPgq (Pgq.SqlPgqEmitter_new "g")) counted 10
  = Ok (with_columns
      "SELECT x, x, decade, COUNT(u) AS n FROM GRAPH_TABLE (g MATCH (u) WHERE u.age > $p1 COLUMNS (u.age AS x, u.age / $p0 AS decade, u AS u)) GROUP BY x, x, decade"
      [("p0", LInt64 10); ("p1", LInt64 21)] Normal
      [mkColumn "x" (Some "x"); mkColumn "y" (Some "y"); mkColumn "decade" (Some "decade");
       mkColumn "n" (Some "n")]).
Proof. vm_compute. reflexivity. Qed.
