(* ===== verification/Json.v ===== *)
(** * JSON values ([serde_json::Value])

    The values that come as query parameters and out of [agtype] texts.  [serde_json] is
    a library: its numbers and the texts it prints are parameters. *)
From S2P Require Import Prelude Bytes F64.

Open Scope Z_scope.
Open Scope string_scope.
Open Scope list_scope.

(** [serde_json::Number]: [as_i64], [as_f64] and [Display]. *)
Class JsonNumbers := {
  json_number : Type;
  number_as_i64 : json_number → option Z;
  number_as_f64 : json_number → option f64;
  number_text : json_number → string;
}.

(** A [Map] is the list of its entries in iteration order, with distinct keys. *)
Inductive JsonValue `{JsonNumbers} :=
| JNull
| JBool (b : bool)
| JNumber (n : json_number)
| JString (s : string)
| JArray (items : list JsonValue)
| JObject (entries : list (string * JsonValue)).

(** [Value::to_string] of an array or an object. *)
Class JsonText `{JsonNumbers} := json_text : JsonValue → string.
