(* ===== verification/PgParams.v ===== *)
(** * Query parameters of the PostgreSQL client ([voyager-net/src/postgres/connection.rs])

    The client has no server-side parameters: [format_postgres_query] replaces the
    placeholders in the text of the query, one parameter after another.  When neither the
    text nor the values have a stray [$], the result is the text with every placeholder
    replaced by its value; otherwise a value can be taken for a placeholder. *)
From S2P Require Import Prelude Bytes F64 Json.

Open Scope Z_scope.
Open Scope string_scope.
Open Scope list_scope.

(** ** [str::replace]

    From left to right; after a match the text goes on behind it.  [skip] counts the
    bytes of a match that are still to be passed over. *)
Fixpoint is_prefix (pat l : list byte) : bool :=
  match pat, l with
  | [], _ => true
  | p :: pat, b :: l => bool_decide (p = b) && is_prefix pat l
  | _ :: _, [] => false
  end.

Fixpoint replace_from (skip : nat) (pat to l : list byte) : list byte :=
  match l with
  | [] => []
  | b :: l' =>
      match skip with
      | S skip => replace_from skip pat to l'
      | O => if is_prefix pat l then to ++ replace_from (length pat - 1) pat to l'
             else b :: replace_from 0 pat to l'
      end
  end.
(** The pattern is not empty here. *)
Definition replace (pat to l : list byte) : list byte := replace_from 0 pat to l.

(** ** [format_postgres_query] *)

Section format.
Context `{JsonText}.

Definition json_repr (v : JsonValue) : list byte :=
  match v with
  | JString s => [x27] ++ replace [x27] [x27; x27] (as_bytes s) ++ [x27]
  | JNull => as_bytes "NULL"
  | JNumber n => as_bytes (number_text n)
  | JBool b => as_bytes (if b then "true" else "false")
  | other => replace [x27] [x27; x27] (as_bytes (json_text other))
  end.

(** [b.len().cmp(&a.len()).then_with(|| a.cmp(b))]: longer keys first. *)
Fixpoint bytes_leb (l r : list byte) : bool :=
  match l, r with
  | [], _ => true
  | _ :: _, [] => false
  | a :: l, b :: r => (u8 a <? u8 b)%Z || ((u8 a =? u8 b)%Z && bytes_leb l r)
  end.
Definition key_leb (a b : string) : bool :=
  let la := blen (as_bytes a) in let lb := blen (as_bytes b) in
  (lb <? la)%Z || ((la =? lb)%Z && bytes_leb (as_bytes a) (as_bytes b)).

Fixpoint insert_key (k : string) (ks : list string) : list string :=
  match ks with
  | [] => [k]
  | k' :: ks' => if key_leb k k' then k :: ks else k' :: insert_key k ks'
  end.
Definition sorted_keys (ks : list string) : list string := foldr insert_key [] ks.

Definition placeholder (k : string) : list byte := x24 :: as_bytes k.

Definition replace_param (params : list (string * JsonValue)) (q : list byte) (k : string) : list byte :=
  match assoc_get k params with
  | Some v => replace (placeholder k) (json_repr v) q
  | None => q
  end.

Definition format_postgres_query (query : string) (params : list (string * JsonValue)) : string :=
  match params with
  | [] => query
  | _ => of_bytes (foldl (replace_param params) (as_bytes query) (sorted_keys params.*1))
  end.
End format.
