(* ===== verification/PgParamsSafe.v ===== *)
(** * What the replacement of placeholders does to a query

    A query is a sequence of bytes and of places for values.  Replacing one placeholder
    after another fills the places, if nothing else in the text or in the values looks
    like a placeholder. *)
From S2P Require Import Prelude Bytes F64 Errors Text Json Ast ArenaShape Emit EmitRel EmitParams.
From S2P Require Import Dialects PgParams.
From S2P Require Age.
From Stdlib Require Import Sorting.Sorted.

Open Scope Z_scope.
Open Scope string_scope.
Open Scope list_scope.

(** ** Replacing *)

Lemma replace_from_skip x pat to l : replace_from (length x) pat to (x ++ l) = replace_from 0 pat to l.
Proof. induction x as [|b x IH]; [by destruct l|]. apply IH. Qed.

Lemma is_prefix_self pat l : is_prefix pat (pat ++ l) = true.
Proof. induction pat as [|b pat IH]; cbn; [done|]. by rewrite bool_decide_eq_true_2. Qed.

Lemma replace_match b pat to l :
  replace_from 0 (b :: pat) to ((b :: pat) ++ l) = to ++ replace_from 0 (b :: pat) to l.
Proof.
  cbn [app replace_from]. change (b :: pat ++ l) with ((b :: pat) ++ l). rewrite is_prefix_self.
  f_equal. replace (length (b :: pat) - 1)%nat with (length pat) by (simpl; lia). apply replace_from_skip.
Qed.

(** Bytes that cannot begin a match stay. *)
Lemma replace_keeps b pat to x l :
  b ∉ x → replace_from 0 (b :: pat) to (x ++ l) = x ++ replace_from 0 (b :: pat) to l.
Proof.
  induction x as [|b' x IH]; intros Hx; [done|]. cbn [app replace_from is_prefix].
  rewrite bool_decide_eq_false_2 by set_solver. cbn. f_equal. apply IH. set_solver.
Qed.

Lemma replace_no_match b pat to l :
  is_prefix (b :: pat) (b :: l) = false →
  replace_from 0 (b :: pat) to (b :: l) = b :: replace_from 0 (b :: pat) to l.
Proof. intros Hp. cbn [replace_from]. by rewrite Hp. Qed.

Lemma is_prefix_split pat x l :
  (length x <= length pat)%nat → is_prefix pat (x ++ l) = true → ∃ r, pat = x ++ r ∧ is_prefix r l = true.
Proof.
  revert pat. induction x as [|b x IH]; intros pat Hl Hp; [by exists pat|].
  destruct pat as [|p pat]; [simpl in *; lia|]. cbn in Hp. apply andb_true_iff in Hp as [Hb Hp].
  apply bool_decide_eq_true in Hb as ->. apply IH in Hp as (r & -> & Hr); [|simpl in *; lia]. by exists r.
Qed.

(** ** Texts with places *)

Inductive token := Byte (b : byte) | Place (i : Z).

Definition place_bytes (i : Z) : list byte := placeholder (param_name i).
Lemma place_bytes_eq i : place_bytes i = x24 :: x70 :: show_int i.
Proof.
  unfold place_bytes, placeholder, param_name, num. by rewrite as_bytes_app, as_bytes_of_bytes.
Qed.

(** A [$] of the text is not followed by a [p] or a place; a place is not followed by
    another one or by a digit. *)
Fixpoint tokens_ok (ts : list token) : bool :=
  match ts with
  | [] => true
  | Byte b :: ts' =>
      match ts' with
      | Byte b' :: _ => negb (bool_decide (b = x24) && bool_decide (b' = x70))
      | Place _ :: _ => negb (bool_decide (b = x24))
      | [] => true
      end && tokens_ok ts'
  | Place _ :: ts' =>
      match ts' with Byte b' :: _ => negb (is_digit b') | Place _ :: _ => false | [] => true end
      && tokens_ok ts'
  end.

Definition places (ts : list token) : list Z :=
  omap (λ t, match t with Place i => Some i | Byte _ => None end) ts.

Section filling.
Context (V : Z → list byte).

(** The places in [filled] hold their values. *)
Definition with_values (filled : list Z) (ts : list token) : list byte :=
  flat_map (λ t, match t with
                 | Byte b => [b]
                 | Place i => if decide (i ∈ filled) then V i else place_bytes i
                 end) ts.

Lemma show_int_digits i : 0 <= i → forallb is_digit (show_int i) = true.
Proof. intros Hi. unfold show_int. destruct (Z.ltb_spec i 0); [lia|]. by apply digits_spec. Qed.

(** Two numbers that are not followed by a digit: the longer one is no prefix. *)
Lemma number_no_prefix i j l :
  0 <= i → 0 <= j → i ≠ j → (length (show_int i) <= length (show_int j))%nat →
  match l with b :: _ => is_digit b = false | [] => True end →
  is_prefix (show_int j) (show_int i ++ l) = false.
Proof.
  intros Hi Hj Hne Hlen Hl. destruct (is_prefix _ _) eqn:E; [|done]. exfalso.
  apply is_prefix_split in E as (r & Hr & Hp); [|done]. destruct r as [|d r].
  - rewrite app_nil_r in Hr. by apply show_int_inj in Hr.
  - pose proof (show_int_digits j Hj) as Hd. rewrite Hr, forallb_app in Hd. cbn in Hd.
    destruct l as [|b l]; [done|]. cbn in Hp. apply andb_true_iff in Hp as [Hb _].
    apply bool_decide_eq_true in Hb as ->. rewrite Hl in Hd. rewrite andb_false_r in Hd. done.
Qed.

Lemma number_no_dollar i : 0 <= i → x24 ∉ show_int i.
Proof.
  intros Hi Hin. pose proof (show_int_digits i Hi) as Hd. rewrite forallb_forall in Hd.
  by apply list_elem_of_In, Hd in Hin.
Qed.

(** One replacement fills the places of one number. *)
Lemma replace_fills j filled ts :
  tokens_ok ts = true → 0 <= j → j ∉ filled → (∀ i, i ∈ filled → x24 ∉ V i) →
  (∀ i, i ∈ places ts → 0 <= i ∧ (i ∈ filled ∨ (length (show_int i) <= length (show_int j))%nat)) →
  replace (place_bytes j) (V j) (with_values filled ts) = with_values (j :: filled) ts.
Proof.
  intros Hok Hj Hnew HV. unfold replace. induction ts as [|[b|i] ts IH]; intros Hts; [done|..].
  - cbn [tokens_ok] in Hok. apply andb_true_iff in Hok as [Hb Hok].
    cbn [with_values flat_map app]. fold (with_values filled ts) (with_values (j :: filled) ts).
    rewrite <- IH by done. rewrite place_bytes_eq in *.
    destruct (decide (b = x24)) as [->|Hne]; [|by apply (replace_keeps x24 _ _ [b]); set_solver].
    apply replace_no_match. cbn [is_prefix]. rewrite bool_decide_eq_true_2 by done. cbn.
    destruct ts as [|[b'|i] ts]; [done| |done]. cbn.
    apply negb_true_iff, andb_false_iff in Hb as [Hb|Hb]; [done|].
    apply bool_decide_eq_false in Hb. rewrite bool_decide_eq_false_2; [done|congruence].
  - cbn [tokens_ok] in Hok. apply andb_true_iff in Hok as [Hb Hok].
    destruct (Hts i) as [Hi Hlen]; [set_solver|].
    cbn [with_values flat_map]. fold (with_values filled ts) (with_values (j :: filled) ts).
    rewrite <- IH by (done || (intros; apply Hts; cbn; set_solver)).
    destruct (decide (i ∈ filled)) as [Hin|Hin].
    + rewrite decide_True by set_solver. rewrite place_bytes_eq. apply replace_keeps. by apply HV.
    + destruct (decide (i = j)) as [->|Hne].
      * rewrite decide_True by set_solver. rewrite place_bytes_eq. apply replace_match.
      * rewrite decide_False by set_solver. rewrite !place_bytes_eq. cbn [app].
        destruct Hlen as [|Hlen]; [done|]. rewrite replace_no_match.
        -- f_equal. apply (replace_keeps x24 _ _ (x70 :: show_int i)).
           pose proof (number_no_dollar i Hi). set_solver.
        -- cbn [is_prefix]. rewrite !bool_decide_eq_true_2 by done. cbn [andb].
           apply number_no_prefix; try done. destruct ts as [|[b'|i'] ts]; [done| |done].
           cbn. by apply negb_true_iff.
Qed.

(** Filling one number after another, the longer ones first. *)
Notation not_longer := (λ i j : Z, (length (show_int j) <= length (show_int i))%nat).

Lemma fill_all `{JsonText} params js filled ts :
  tokens_ok ts = true → StronglySorted not_longer js → NoDup (filled ++ js) →
  (∀ j, j ∈ js → 0 <= j ∧ ∃ v, assoc_get (param_name j) params = Some v ∧ json_repr v = V j) →
  (∀ i, i ∈ filled ++ js → x24 ∉ V i) → (∀ i, i ∈ places ts → 0 <= i ∧ i ∈ filled ++ js) →
  foldl (replace_param params) (with_values filled ts) (param_name <$> js)
  = with_values (reverse js ++ filled) ts.
Proof.
  revert filled. induction js as [|j js IH]; intros filled Hok Hs Hnd Hjs HV Hts; [done|].
  inversion Hs as [|? ? Hs' Hall]; subst. cbn [fmap list_fmap foldl].
  destruct (Hjs j) as (Hj & v & Hv & Hr); [set_solver|].
  assert (Hstep : replace_param params (with_values filled ts) (param_name j) = with_values (j :: filled) ts).
  { unfold replace_param. rewrite Hv, Hr. apply replace_fills; try done.
    - apply NoDup_app in Hnd as (_ & Hd & _). intros Hin. by apply (Hd j Hin), list_elem_of_here.
    - intros i Hi. apply HV. set_solver.
    - intros i Hi. destruct (Hts i Hi) as [Hi0 Hin]. split; [done|].
      apply elem_of_app in Hin as [|Hin]; [by left|]. right.
      apply elem_of_cons in Hin as [->|Hin]; [done|]. rewrite Forall_forall in Hall. by apply Hall. }
  rewrite Hstep, IH; try done.
  - by rewrite reverse_cons, <- app_assoc.
  - cbn [app]. by rewrite Permutation_middle.
  - intros i Hi. apply Hjs. set_solver.
  - intros i Hi. apply HV. set_solver.
  - intros i Hi. specialize (Hts i Hi). set_solver.
Qed.

Lemma with_values_ext f1 f2 ts :
  (∀ i, i ∈ places ts → i ∈ f1 ↔ i ∈ f2) → with_values f1 ts = with_values f2 ts.
Proof.
  induction ts as [|[b|i] ts IH]; intros Hf; cbn [with_values flat_map]; [done|..];
    fold (with_values f1 ts) (with_values f2 ts); (rewrite IH; [|intros; apply Hf; cbn; set_solver]); [done|].
  f_equal. pose proof (Hf i ltac:(cbn; set_solver)). repeat case_decide; tauto.
Qed.
End filling.

(** ** The keys, longer ones first *)

Notation longer := (λ k k' : string, (length (as_bytes k') <= length (as_bytes k))%nat).

Lemma key_leb_longer a b : if key_leb a b then longer a b else longer b a.
Proof.
  unfold key_leb, blen. destruct (Z.ltb_spec (Z.of_nat (length (as_bytes b))) (Z.of_nat (length (as_bytes a))));
    cbn; [lia|]. destruct (Z.eqb_spec (Z.of_nat (length (as_bytes a))) (Z.of_nat (length (as_bytes b)))); cbn; [|lia].
  destruct (bytes_leb _ _); lia.
Qed.

Lemma insert_key_perm k ks : insert_key k ks ≡ₚ k :: ks.
Proof.
  induction ks as [|k' ks IH]; cbn; [done|]. destruct (key_leb k k'); [done|].
  rewrite IH. apply Permutation_swap.
Qed.

Lemma insert_key_sorted k ks : StronglySorted longer ks → StronglySorted longer (insert_key k ks).
Proof.
  induction 1 as [|k' ks Hs IH Hall]; cbn; [by repeat constructor|].
  pose proof (key_leb_longer k k'). destruct (key_leb k k').
  - constructor; [by constructor|]. constructor; [done|]. eapply Forall_impl; [done|]. cbn. lia.
  - constructor; [done|]. rewrite insert_key_perm. by constructor.
Qed.

Lemma sorted_keys_perm ks : sorted_keys ks ≡ₚ ks.
Proof. induction ks as [|k ks IH]; [done|]. cbn. by rewrite insert_key_perm, IH. Qed.
Lemma sorted_keys_sorted ks : StronglySorted longer (sorted_keys ks).
Proof. induction ks as [|k ks IH]; [constructor|]. by apply insert_key_sorted. Qed.

(** The names [p0], [p1], ... in that order are those of some order of the numbers. *)
Lemma sorted_names ns :
  ∃ js, sorted_keys (param_name <$> ns) = param_name <$> js ∧ js ≡ₚ ns
        ∧ StronglySorted (λ i j, (length (show_int j) <= length (show_int i))%nat) js.
Proof.
  destruct (Permutation_map_inv _ _ (sorted_keys_perm (param_name <$> ns))) as (js & Hjs & Hp).
  change (map param_name js) with (param_name <$> js) in Hjs. exists js. split; [done|]. split; [by symmetry|].
  assert (Hs : StronglySorted longer (param_name <$> js)) by (rewrite <- Hjs; apply sorted_keys_sorted).
  clear -Hs.
  induction js as [|j js IH]; [constructor|]. cbn in Hs. inversion Hs as [|? ? Hs' Hall]; subst.
  constructor; [by apply IH|]. rewrite Forall_map in Hall. eapply Forall_impl; [exact Hall|].
  intros i. cbn. unfold param_name, num. rewrite !as_bytes_app, !as_bytes_of_bytes. simpl. lia.
Qed.

(** ** Compiled queries *)

Fixpoint tokens (i : Z) (ps : list piece) : list token :=
  match ps with
  | [] => []
  | Text x :: ps => (Byte <$> as_bytes x) ++ tokens i ps
  | Hole _ :: ps => Place i :: tokens (i + 1) ps
  end.

Lemma with_values_app V filled ts1 ts2 :
  with_values V filled (ts1 ++ ts2) = with_values V filled ts1 ++ with_values V filled ts2.
Proof. apply flat_map_app. Qed.
Lemma with_values_bytes V filled l : with_values V filled (Byte <$> l) = l.
Proof. induction l as [|b l IH]; [done|]. cbn. by f_equal. Qed.

Lemma tokens_render V i ps : with_values V [] (tokens i ps) = as_bytes (render i ps).
Proof.
  revert i. induction ps as [|[x|v] ps IH]; intros i; cbn [tokens render]; [done|..].
  - by rewrite with_values_app, with_values_bytes, IH, as_bytes_app.
  - cbn [with_values flat_map]. fold (with_values V [] (tokens (i + 1) ps)). rewrite IH.
    rewrite decide_False by set_solver. by rewrite !as_bytes_app.
Qed.

Lemma seqZ_cons_blen {A} i (x : A) l : seqZ i (blen (x :: l)) = i :: seqZ (i + 1) (blen l).
Proof. unfold blen. rewrite seqZ_cons by (simpl; lia). f_equal. f_equal; simpl; lia. Qed.

Lemma places_tokens i ps : places (tokens i ps) = seqZ i (blen (holes ps)).
Proof.
  assert (Hb : ∀ l, places (Byte <$> l) = []) by (induction l; done).
  revert i. induction ps as [|[x|v] ps IH]; intros i; cbn [tokens]; [done|..].
  - unfold places. rewrite omap_app. fold (places (Byte <$> as_bytes x)) (places (tokens i ps)).
    by rewrite Hb, IH.
  - change (places (Place i :: tokens (i + 1) ps)) with (i :: places (tokens (i + 1) ps)). rewrite IH.
    change (holes (Hole v :: ps)) with (v :: holes ps). rewrite seqZ_cons_blen. done.
Qed.

Section compiled.
Context `{JsonText} (to_json : LiteralValue → JsonValue).

(** The parameters of a compiled query, as the client is given them. *)
Definition json_parameters (ps : list (string * LiteralValue)) : list (string * JsonValue) :=
  prod_map id to_json <$> ps.

(** The text with, in each hole, the text of its value. *)
Definition interpolated (ps : list piece) : list byte :=
  flat_map (λ p, match p with Text x => as_bytes x | Hole v => json_repr (to_json v) end) ps.

Definition value_at (vs : list LiteralValue) (i : Z) : list byte :=
  match vs !! Z.to_nat i with Some v => json_repr (to_json v) | None => [] end.

Lemma filled_interpolated vs pre filled ps :
  vs = pre ++ holes ps → (∀ i, blen pre <= i < blen vs → i ∈ filled) →
  with_values (value_at vs) filled (tokens (blen pre) ps) = interpolated ps.
Proof.
  revert pre. induction ps as [|[x|v] ps IH]; intros pre Hvs Hf; cbn [tokens]; [done|..].
  - rewrite with_values_app, with_values_bytes. cbn. f_equal. by apply IH.
  - cbn [with_values flat_map interpolated].
    fold (with_values (value_at vs) filled (tokens (blen pre + 1) ps)) (interpolated ps).
    change (holes (Hole v :: ps)) with (v :: holes ps) in Hvs.
    pose proof (blen_nonneg pre). pose proof (blen_nonneg (holes ps)).
    assert (Hlen : blen vs = blen pre + 1 + blen (holes ps)).
    { rewrite Hvs, blen_app. unfold blen. simpl. lia. }
    rewrite decide_True by (apply Hf; lia). f_equal.
    + unfold value_at, blen. rewrite Nat2Z.id, Hvs, list_lookup_middle by done. done.
    + replace (blen pre + 1) with (blen (pre ++ [v])) by (by rewrite blen_app).
      apply IH; [by rewrite <- app_assoc|]. intros i Hi. rewrite blen_app in Hi. apply Hf.
      change (blen [v]) with 1 in Hi. lia.
Qed.

Lemma json_parameters_names vs i :
  (json_parameters (numbered i vs)).*1 = param_name <$> seqZ i (blen vs).
Proof.
  revert i. induction vs as [|v vs IH]; intros i; [done|]. cbn. by rewrite IH, seqZ_cons_blen.
Qed.

Lemma json_parameters_get vs i k :
  0 <= i → i <= k < i + blen vs →
  assoc_get (param_name k) (json_parameters (numbered i vs)) = to_json <$> vs !! Z.to_nat (k - i).
Proof.
  revert i. induction vs as [|v vs IH]; intros i Hi Hk; [unfold blen in Hk; simpl in Hk; lia|].
  cbn. unfold id. destruct (decide (k = i)) as [->|Hne].
  - rewrite decide_True by done. by rewrite Z.sub_diag.
  - rewrite decide_False by (intros E; apply param_name_inj in E; lia).
    fold (json_parameters (numbered (i + 1) vs)).
    rewrite IH by (unfold blen in *; simpl in *; lia).
    replace (Z.to_nat (k - i)) with (S (Z.to_nat (k - (i + 1)))) by lia. done.
Qed.

Lemma format_interpolates ps :
  tokens_ok (tokens 0 ps) = true → (∀ v, v ∈ holes ps → x24 ∉ json_repr (to_json v)) →
  as_bytes (format_postgres_query (render 0 ps) (json_parameters (numbered 0 (holes ps)))) = interpolated ps.
Proof.
  intros Hok HV. set (vs := holes ps).
  destruct (sorted_names (seqZ 0 (blen vs))) as (js & Hjs & Hp & Hs).
  assert (Hin : ∀ i, i ∈ js ↔ 0 <= i < blen vs).
  { intros i. rewrite Hp, elem_of_seqZ. lia. }
  assert (Hval : ∀ i, i ∈ js → ∃ v, vs !! Z.to_nat i = Some v).
  { intros i Hi%Hin. apply lookup_lt_is_Some. unfold blen in Hi. lia. }
  unfold format_postgres_query.
  destruct (json_parameters (numbered 0 vs)) as [|p params] eqn:E.
  { assert (Hvs : vs = []) by (destruct vs; done).
    rewrite <- (tokens_render (value_at vs) 0 ps). change 0 with (blen (@nil LiteralValue)).
    rewrite <- (filled_interpolated vs [] [] ps) by (done || (intros i; rewrite Hvs; unfold blen; simpl; lia)).
    done. }
  rewrite <- E, json_parameters_names, Hjs, as_bytes_of_bytes, <- (tokens_render (value_at vs) 0 ps).
  rewrite (fill_all (value_at vs)).
  - rewrite app_nil_r. change 0 with (blen (@nil LiteralValue)) at 1. apply filled_interpolated; [done|].
    intros i Hi. apply elem_of_reverse, Hin. exact Hi.
  - done.
  - done.
  - cbn. rewrite Hp. apply NoDup_seqZ.
  - intros j Hj. split; [by apply Hin in Hj as [? _]|]. destruct (Hval j Hj) as [v Hv].
    exists (to_json v). rewrite json_parameters_get by (pose proof (proj1 (Hin j) Hj); lia).
    rewrite Z.sub_0_r, Hv. split; [done|]. unfold value_at. by rewrite Hv.
  - intros i Hi. cbn in Hi. destruct (Hval i Hi) as [v Hv]. unfold value_at. rewrite Hv.
    apply HV. by eapply list_elem_of_lookup_2.
  - intros i. rewrite places_tokens, elem_of_seqZ. cbn. rewrite Hin. fold vs. lia.
Qed.
End compiled.

(** A compiled query, run by the PostgreSQL client, is sent as it was meant: the text
    that [format_postgres_query] makes of the statement and its parameters is the text of
    the statement with every placeholder replaced by its own value, and nothing else
    changed.  This needs that no [$p] and no place next to a digit, a [$] or another place
    occurs in the text, and that no value has a [$] in its text. *)
Theorem interpolation_is_exact `{LiteralDebug} `{JsonText} to_json d a root c :
  in_order d = true → ¬ nests_query a → compile d a root = Ok c → blen (as_bytes (statement c)) < 2 ^ 64 →
  ∃ ps, statement c = render 0 ps ∧ cq_parameters c = numbered 0 (holes ps) ∧
    (tokens_ok (tokens 0 ps) = true → (∀ lit, literal_of a lit → x24 ∉ json_repr (to_json lit)) →
     as_bytes (format_postgres_query (statement c) (json_parameters to_json (cq_parameters c)))
     = interpolated to_json ps).
Proof.
  intros Ho Hn Hc Hlen. destruct (dialect_in_order d Ho a root c Hn Hc) as (ps & Hle & Hok & Hr).
  destruct Hr as [Hs Hp]; [lia|]. exists ps. split; [done|]. split; [done|]. intros Ht Hv.
  rewrite Hs, Hp. apply format_interpolates; [done|]. intros v Hin. apply Hv.
  rewrite Forall_forall in Hok. by apply Hok.
Qed.

(** ** At a query *)

#[local] Instance whole_numbers : JsonNumbers := {|
  json_number := Z; number_as_i64 := Some; number_as_f64 := λ _, None; number_text := num |}.
#[local] Instance no_text : JsonText := λ _, "".
#[local] Instance no_debug : LiteralDebug := λ _, "".

Definition json_of (lit : LiteralValue) : JsonValue :=
  match lit with
  | LInt64 n => JNumber n
  | LString s => JString s
  | _ => JNull
  end.

(** The query [adults] over AGE; its [%s] is left to a client that binds it. *)
Definition adults_text : string :=
  "SELECT * FROM cypher('g', $$ MATCH (u) WHERE u.age > $p0 RETURN u $$, %s) AS (u agtype)".

Lemma interpolation_is_exact_witness :
  ∃ ps, adults_text = render 0 ps ∧ [("p0", LInt64 21)] = numbered 0 (holes ps) ∧
    (tokens_ok (tokens 0 ps) = true → (∀ lit, literal_of adults lit → x24 ∉ json_repr (json_of lit)) →
     as_bytes (format_postgres_query adults_text (json_parameters json_of [("p0", LInt64 21)]))
     = interpolated json_of ps).
Proof.
  refine (interpolation_is_exact json_of (ApacheAge age_g) adults 8
    (with_columns adults_text [("p0", LInt64 21)] Normal [mkColumn "u" None]) _ _ _ _).
  - reflexivity.
  - by apply no_subqueries_nests.
  - vm_compute. reflexivity.
  - vm_compute. reflexivity.
Defined.

(** AGE's wrapper announces the parameters with [%s]; no part of the Rust client replaces
    it, so the server is sent a text that is no SQL. *)
Lemma age_placeholder_stays :
  format_postgres_query adults_text (json_parameters json_of [("p0", LInt64 21)])
  = "SELECT * FROM cypher('g', $$ MATCH (u) WHERE u.age > 21 RETURN u $$, %s) AS (u agtype)".
Proof. vm_compute. reflexivity. Qed.

(** A value that reads like a placeholder is replaced in turn: the quotes that follow end
    its string, and the second value becomes SQL. *)
Lemma values_are_replaced_in_values :
  format_postgres_query "SELECT * FROM t WHERE a = $p0 AND b = $p1"
    [("p0", JString "$p1"); ("p1", JString " OR 1=1 --")]
  = "SELECT * FROM t WHERE a = '' OR 1=1 --'' AND b = ' OR 1=1 --'".
Proof. vm_compute. reflexivity. Qed.
