(* ===== verification/PgRows.v ===== *)
(** * Rows and [agtype] values ([voyager-net/src/postgres/agtype.rs])

    The texts a PostgreSQL server sends, as columns and as values of the graph.  A column
    gets the type that all its texts can be read as; an Arrow array is the list of its
    entries.  [serde_json]'s parser is a parameter. *)
From S2P Require Import Prelude Bytes F64 Errors Text Json PgMessages.
From S2P Require BoltValue Resp.

Open Scope Z_scope.
Open Scope string_scope.
Open Scope list_scope.

(** ** [clean_agtype_string]

    The scan looks at bytes; [s[i..]] panics where [i] is inside a character.  [skip]
    counts the bytes of an annotation that are still to be passed over. *)
Definition annotations : list (list byte) :=
  map as_bytes ["::vertex"; "::edge"; "::path"; "::numeric"].
Definition starts_with (p l : list byte) : bool := bool_decide (take (length p) l = p).
Definition annotation (l : list byte) : option nat :=
  length <$> List.find (λ p, starts_with p l) annotations.

Definition push (x : list byte) (r : result fault (list byte)) : result fault (list byte) := app x <$> r.

Fixpoint clean_from (skip : nat) (in_quote escaped : bool) (l : list byte) : result fault (list byte) :=
  match l with
  | [] => Ok []
  | b :: l' =>
      match skip with
      | S skip => clean_from skip in_quote escaped l'
      | O =>
          if in_quote then
            push (as_char b)
              (if escaped then clean_from 0 true false l'
               else if decide (b = x5c) then clean_from 0 true true l'
               else if decide (b = x22) then clean_from 0 false false l'
               else clean_from 0 true false l')
          else if decide (b = x22) then push [x22] (clean_from 0 true escaped l')
          else if utf8_cont b then Err Panic
          else match annotation l with
               | Some n => clean_from (n - 1) false escaped l'
               | None => push (as_char b) (clean_from 0 false escaped l')
               end
      end
  end.

Definition clean_agtype_string `{CharClass} (s : string) : result fault string :=
  (λ out, trim (of_bytes out)) <$> clean_from 0 false false (as_bytes s).

(** ** Columns *)

Inductive DataType := Int64 | Float64 | Boolean | Utf8.
#[export] Instance DataType_eq_dec : EqDecision DataType.
Proof. solve_decision. Defined.
Inductive ArrayRef :=
| Int64Array (entries : list (option Z))
| Float64Array (entries : list (option f64))
| BooleanArray (entries : list (option bool))
| StringArray (entries : list (option string)).
Record RecordBatch := mkBatch { batch_fields : list (string * DataType); batch_columns : list ArrayRef }.

Notation row := (list (option string)).

Section rows.
Context `{CharClass} `{Resp.F64Text}.

(** [row.get(col_idx)], a missing cell as a null one. *)
Definition cell (col_idx : nat) (r : row) : option string :=
  match r !! col_idx with Some v => v | None => None end.

(** What the first pass knows of a column. *)
Record Inferred := mkInferred {
  has_non_null : bool; can_be_int : bool; can_be_float : bool; can_be_bool : bool }.

Definition bool_texts : list string := ["t"; "f"; "true"; "false"].
Definition is_int (x : string) : bool := bool_decide (is_Some (parse_i64 (as_bytes x))).
Definition is_float (x : string) : bool := bool_decide (is_Some (Resp.parse_f64 x)).

Fixpoint infer_column (col_idx : nat) (rows : list row) (st : Inferred) : result fault Inferred :=
  match rows with
  | [] => Ok st
  | r :: rows =>
      match cell col_idx r with
      | None => infer_column col_idx rows st
      | Some val =>
          trimmed ← clean_agtype_string val;
          infer_column col_idx rows
            (mkInferred true (can_be_int st && is_int trimmed) (can_be_float st && is_float trimmed)
               (can_be_bool st && bool_decide (trimmed ∈ bool_texts)))
      end
  end.

Definition inferred_type (st : Inferred) : DataType :=
  if negb (has_non_null st) then Utf8
  else if can_be_int st then Int64
  else if can_be_float st then Float64
  else if can_be_bool st then Boolean
  else Utf8.

Definition infer_type (rows : list row) (col_idx : nat) : result fault DataType :=
  inferred_type <$> infer_column col_idx rows (mkInferred false true true true).

(** The entries of a column, each from the cleaned text of its cell. *)
Definition entry_of {A} (read : string → option A) (v : option string) : result fault (option A) :=
  match v with
  | Some val => cleaned ← clean_agtype_string val; Ok (read cleaned)
  | None => Ok None
  end.
Definition read_bool (cleaned : string) : option bool :=
  Some (bool_decide (cleaned = "t") || bool_decide (cleaned = "true")).

Definition build_column (rows : list row) (col_idx : nat) (data_type : DataType) : result fault ArrayRef :=
  let cells := map (cell col_idx) rows in
  match data_type with
  | Int64 => Int64Array <$> result_mapM (entry_of (λ x, parse_i64 (as_bytes x))) cells
  | Float64 => Float64Array <$> result_mapM (entry_of Resp.parse_f64) cells
  | Boolean => BooleanArray <$> result_mapM (entry_of read_bool) cells
  | Utf8 => Ok (StringArray cells)
  end.

Definition rows_to_record_batch (column_names : list string) (rows : list row) :
    result fault RecordBatch :=
  match column_names with
  | [] => Ok (mkBatch [] [])
  | _ =>
      let idxs := seq 0 (length column_names) in
      inferred_types ← result_mapM (infer_type rows) idxs;
      columns ← result_mapM (λ it, build_column rows it.1 it.2) (combine idxs inferred_types);
      Ok (mkBatch (combine column_names inferred_types) columns)
  end.
End rows.

(** ** Graph values *)

Record AgeVertex `{JsonNumbers} := mkVertex {
  v_id : Z; v_label : string; v_properties : list (string * JsonValue) }.
Record AgeEdge `{JsonNumbers} := mkEdge {
  e_id : Z; e_label : string; e_start_id : Z; e_end_id : Z; e_properties : list (string * JsonValue) }.
Record AgePath `{JsonNumbers} := mkAgePath { vertices : list AgeVertex; edges : list AgeEdge }.

Arguments mkVertex {_}. Arguments mkEdge {_}. Arguments mkAgePath {_}.

Inductive AgeValue `{JsonNumbers} :=
| ANull
| ABoolean (b : bool)
| AInteger (i : Z)
| AFloat (f : f64)
| AString (s : string)
| AVertex (v : AgeVertex)
| AEdge (e : AgeEdge)
| APath (p : AgePath)
| AList (l : list AgeValue)
| AMap (m : list (string * AgeValue)).

Section values.
Context `{JsonNumbers}.

Definition json_number_value {A} (int : Z → A) (float : f64 → A) (text : string → A) (n : json_number) : A :=
  match number_as_i64 n with
  | Some i => int i
  | None => match number_as_f64 n with Some f => float f | None => text (number_text n) end
  end.

Fixpoint from_json_to_bolt_value (val : JsonValue) : BoltValue.BoltValue :=
  match val with
  | JNull => BoltValue.Null
  | JBool b => BoltValue.Boolean b
  | JNumber n => json_number_value BoltValue.Integer BoltValue.Float BoltValue.String n
  | JString s => BoltValue.String s
  | JArray arr => BoltValue.List (map from_json_to_bolt_value arr)
  | JObject obj => BoltValue.Map (map (λ kv, (kv.1, from_json_to_bolt_value kv.2)) obj)
  end.

Fixpoint parse_json_value (val : JsonValue) : AgeValue :=
  match val with
  | JNull => ANull
  | JBool b => ABoolean b
  | JNumber n => json_number_value AInteger AFloat AString n
  | JString s => AString s
  | JArray arr => AList (map parse_json_value arr)
  | JObject obj => AMap (map (λ kv, (kv.1, parse_json_value kv.2)) obj)
  end.

Definition bolt_properties (ps : list (string * JsonValue)) : list (string * BoltValue.BoltValue) :=
  map (λ kv, (kv.1, from_json_to_bolt_value kv.2)) ps.

Definition to_bolt_node (v : AgeVertex) : BoltValue.BoltNode BoltValue.BoltValue :=
  BoltValue.mkNode (v_id v) [v_label v] (bolt_properties (v_properties v)) (Some (num (v_id v))).

Definition to_bolt_relationship (e : AgeEdge) : BoltValue.BoltRelationship BoltValue.BoltValue :=
  BoltValue.mkRelationship (e_id e) (e_start_id e) (e_end_id e) (e_label e)
    (bolt_properties (e_properties e)) (Some (num (e_id e))) (Some (num (e_start_id e)))
    (Some (num (e_end_id e))).

Definition to_bolt_path (p : AgePath) : BoltValue.BoltPath BoltValue.BoltValue :=
  BoltValue.mkPath (map to_bolt_node (vertices p))
    (map (λ e, BoltValue.mkUnbound (e_id e) (e_label e) (bolt_properties (e_properties e))
                 (Some (num (e_id e)))) (edges p))
    (seqZ 1 (blen (edges p))).
End values.

(** ** [parse_agtype]

    [serde_json::from_str] and [from_value], at the types they are used at. *)
Class Serde `{JsonNumbers} := {
  value_from_str : string → option JsonValue;
  vertex_from_str : string → option AgeVertex;
  edge_from_str : string → option AgeEdge;
  vertex_from_value : JsonValue → option AgeVertex;
  edge_from_value : JsonValue → option AgeEdge;
}.

Section parse.
Context `{CharClass} `{Serde}.

Definition age_err {A} (msg : string) : result fault A := Err (Raise (ProtocolError msg)).

Definition or_err {A} (o : option A) (msg : string) : result fault A :=
  match o with Some x => Ok x | None => age_err msg end.

(** The items of a path: a vertex at every even place, an edge at every odd one. *)
Fixpoint path_items (idx : Z) (arr : list JsonValue) (p : AgePath) : result fault AgePath :=
  match arr with
  | [] => Ok p
  | item :: arr =>
      if (idx mod 2 =? 0)%Z then
        v ← or_err (vertex_from_value item) ("Invalid vertex in path at " +:+ num idx +:+ ": ");
        path_items (idx + 1) arr (mkAgePath (vertices p ++ [v]) (edges p))
      else
        e ← or_err (edge_from_value item) ("Invalid edge in path at " +:+ num idx +:+ ": ");
        path_items (idx + 1) arr (mkAgePath (vertices p) (edges p ++ [e]))
  end.

Definition has_key (k : string) (obj : list (string * JsonValue)) : bool := bool_decide (k ∈ obj.*1).

Definition object_value (obj : list (string * JsonValue)) : AgeValue :=
  let map_value := AMap (map (λ kv, (kv.1, parse_json_value kv.2)) obj) in
  if has_key "id" obj && has_key "label" obj && has_key "properties" obj then
    if has_key "start_id" obj && has_key "end_id" obj then
      match edge_from_value (JObject obj) with Some e => AEdge e | None => map_value end
    else
      match vertex_from_value (JObject obj) with Some v => AVertex v | None => map_value end
  else map_value.

Definition standard_json (trimmed cleaned : string) : AgeValue :=
  match value_from_str cleaned with
  | Some (JObject obj) => object_value obj
  | Some v => parse_json_value v
  | None => AString trimmed
  end.

Definition ends_with (suffix s : string) : bool :=
  starts_with (reverse (as_bytes suffix)) (reverse (as_bytes s)).

Definition parse_agtype (raw : string) : result fault AgeValue :=
  let trimmed := trim raw in
  if bool_decide (trimmed = "") || bool_decide (to_ascii_lowercase trimmed = "null") then Ok ANull
  else
    cleaned ← clean_agtype_string trimmed;
    if ends_with "::vertex" trimmed then
      AVertex <$> or_err (vertex_from_str cleaned) "Failed to parse AGE vertex: "
    else if ends_with "::edge" trimmed then
      AEdge <$> or_err (edge_from_str cleaned) "Failed to parse AGE edge: "
    else if ends_with "::path" trimmed then
      raw_val ← or_err (value_from_str cleaned) "Failed to parse AGE path: ";
      match raw_val with
      | JArray arr => APath <$> path_items 0 arr (mkAgePath [] [])
      | _ => Ok (standard_json trimmed cleaned)
      end
    else Ok (standard_json trimmed cleaned).
End parse.
