(* ===== verification/PgRowsSafe.v ===== *)
(** * What becomes of the rows a server sends

    Cleaning a text panics exactly where a character beyond ASCII stands outside of
    quotes; on all other texts a column holds every cell of the rows, read as the
    column's type. *)
From S2P Require Import Prelude Bytes F64 Errors Text Json PgMessages PgRows.
From S2P Require BoltValue Resp.

Open Scope Z_scope.
Open Scope string_scope.
Open Scope list_scope.

(** ** Where cleaning panics *)

(** Every byte outside of quotes is ASCII. *)
Fixpoint ascii_outside (in_quote escaped : bool) (l : list byte) : bool :=
  match l with
  | [] => true
  | b :: l' =>
      if in_quote then
        if escaped then ascii_outside true false l'
        else if decide (b = x5c) then ascii_outside true true l'
        else if decide (b = x22) then ascii_outside false false l'
        else ascii_outside true false l'
      else if decide (b = x22) then ascii_outside true escaped l'
      else is_ascii b && ascii_outside false escaped l'
  end.
Definition plain_text (s : string) : bool := str_ok s && ascii_outside false false (as_bytes s).

(** The end of a valid text, from a place that need not begin a character. *)
Definition utf8_suffix (l : list byte) : Prop :=
  ∃ c r, l = c ++ r ∧ Forall (λ b, utf8_cont b = true) c ∧ utf8_valid r = true.

Lemma valid_suffix l : utf8_valid l = true → utf8_suffix l.
Proof. intros Hv. by exists [], l. Qed.

Lemma cont_not_ascii b : utf8_cont b = true → is_ascii b = false.
Proof.
  unfold utf8_cont, byte_in, is_ascii. rewrite andb_true_iff, !Z.leb_le, Z.ltb_ge. lia.
Qed.

Lemma byte_in_cont lo hi b : byte_in lo hi b = true → 128 <= lo → hi <= 191 → utf8_cont b = true.
Proof. unfold utf8_cont, byte_in. rewrite !andb_true_iff, !Z.leb_le. lia. Qed.

(** A character is one ASCII byte, or a byte that continues no other and some that do. *)
Lemma utf8_valid_cons b l :
  utf8_valid (b :: l) = true →
  if is_ascii b then utf8_valid l = true
  else utf8_cont b = false ∧ ∃ c l', l = c ++ l' ∧ c ≠ [] ∧ Forall (λ b, utf8_cont b = true) c
       ∧ utf8_valid l' = true.
Proof.
  cbn [utf8_valid]. unfold is_ascii. destruct (u8 b <? 128)%Z; [done|].
  assert (Hc : ∀ lo hi, byte_in lo hi b = true → 191 < lo → utf8_cont b = false).
  { intros lo hi Hb Hlo. unfold utf8_cont, byte_in in *. apply andb_true_iff in Hb as [Hb _].
    apply Z.leb_le in Hb. apply andb_false_iff. right. apply Z.leb_gt. lia. }
  assert (Hin : ∀ (x y z : bool) lo hi lo' hi' b1, (if x then byte_in lo hi b1 else if y then byte_in lo' hi' b1 else utf8_cont b1) = true →
    128 <= lo → hi <= 191 → 128 <= lo' → hi' <= 191 → utf8_cont b1 = true).
  { intros [] [] _; intros; (done || by eapply byte_in_cont). }
  destruct (byte_in 194 223 b) eqn:E2; [|destruct (byte_in 224 239 b) eqn:E3; [|destruct (byte_in 240 244 b) eqn:E4; [|done]]].
  - destruct l as [|b1 l]; [done|]. rewrite andb_true_iff. intros [H1 Hl].
    split; [by eapply Hc|]. exists [b1], l. repeat split; auto.
  - destruct l as [|b1 [|b2 l]]; [done..|]. rewrite !andb_true_iff. intros [[H1 H2] Hl].
    apply (Hin _ _ true) in H1; [|lia..]. split; [by eapply Hc|]. exists [b1; b2], l. repeat split; auto.
  - destruct l as [|b1 [|b2 [|b3 l]]]; [done..|]. rewrite !andb_true_iff. intros [[[H1 H2] H3] Hl].
    apply (Hin _ _ true) in H1; [|lia..]. split; [by eapply Hc|]. exists [b1; b2; b3], l. repeat split; auto.
Qed.

(** Inside a text, a byte at a time: after an ASCII byte a character begins. *)
Lemma utf8_suffix_cons b l : utf8_suffix (b :: l) → if is_ascii b then utf8_valid l = true else utf8_suffix l.
Proof.
  intros (c & r & E & Hc & Hr). destruct c as [|b' c].
  - cbn in E. subst r. apply utf8_valid_cons in Hr. destruct (is_ascii b); [done|].
    destruct Hr as (_ & c & l' & -> & _ & Hc' & Hl'). by exists c, l'.
  - injection E as -> ->. inversion Hc as [|? ? Hb Hc']; subst. rewrite cont_not_ascii by done. by exists c, r.
Qed.

Lemma utf8_suffix_tail b l : utf8_suffix (b :: l) → utf8_suffix l.
Proof. intros Hs. apply utf8_suffix_cons in Hs. destruct (is_ascii b); [by apply valid_suffix|done]. Qed.

(** An annotation is ASCII without quotes. *)
Lemma annotation_spec l n :
  annotation l = Some n →
  ∃ p r, l = p ++ r ∧ length p = n ∧ (0 < n)%nat ∧ forallb (λ b, is_ascii b && negb (bool_decide (b = x22))) p = true.
Proof.
  unfold annotation. destruct (List.find _ annotations) as [p|] eqn:E; [|done].
  intros [= <-]. apply List.find_some in E as [Hin Hp]. unfold starts_with in Hp.
  apply bool_decide_eq_true in Hp. exists p, (drop (length p) l).
  split; [rewrite <- Hp at 1; by rewrite take_drop|]. split; [done|].
  repeat (destruct Hin as [<-|Hin]; [split; [cbn; lia|by vm_compute]|]). done.
Qed.

Lemma clean_from_skip p q e l : clean_from (length p) q e (p ++ l) = clean_from 0 q e l.
Proof. induction p as [|b p IH]; [by destruct l|]. apply IH. Qed.

Lemma ascii_outside_plain p e l :
  forallb (λ b, is_ascii b && negb (bool_decide (b = x22))) p = true →
  ascii_outside false e (p ++ l) = ascii_outside false e l ∧ (utf8_valid (p ++ l) = true → utf8_valid l = true).
Proof.
  induction p as [|b p IH]; [done|]. cbn [forallb]. rewrite !andb_true_iff, negb_true_iff.
  intros [[Ha Hq] Hp]. apply bool_decide_eq_false in Hq. apply IH in Hp as [IH1 IH2].
  cbn [app ascii_outside]. rewrite decide_False by done. rewrite Ha. split; [done|].
  intros Hv. apply utf8_valid_cons in Hv. rewrite Ha in Hv. auto.
Qed.

Lemma push_outcome x r ok :
  (if ok : bool then ∃ out, r = Ok out else r = Err Panic) →
  if ok then ∃ out, push x r = Ok out else push x r = Err Panic.
Proof. destruct ok; [intros [out ->]; by eexists|by intros ->]. Qed.

Lemma clean_from_spec n : ∀ l q e,
  (length l < n)%nat → (if q : bool then utf8_suffix l else utf8_valid l = true) →
  if ascii_outside q e l then ∃ out, clean_from 0 q e l = Ok out else clean_from 0 q e l = Err Panic.
Proof.
  induction n as [|n IH]; intros l q e Hn Hv; [lia|]. destruct l as [|b l]; [by eexists|].
  cbn [length] in Hn. cbn [ascii_outside clean_from]. destruct q.
  - apply push_outcome. pose proof (utf8_suffix_tail _ _ Hv) as Ht.
    destruct e; [apply IH; [lia|done]|]. case_decide; [apply IH; [lia|done]|].
    case_decide as Hq; [|apply IH; [lia|done]]. apply IH; [lia|].
    apply utf8_suffix_cons in Hv. by subst b.
  - case_decide as Hq.
    + apply push_outcome, IH; [lia|]. apply utf8_valid_cons in Hv. subst b. by apply valid_suffix.
    + pose proof (utf8_valid_cons _ _ Hv) as Hb. destruct (is_ascii b) eqn:Ha.
      * assert (utf8_cont b = false) as ->.
        { destruct (utf8_cont b) eqn:Ec; [|done]. apply cont_not_ascii in Ec. congruence. }
        cbn [andb]. destruct (annotation (b :: l)) as [k|] eqn:Ea; [|apply push_outcome, IH; [lia|done]].
        apply annotation_spec in Ea as (p & r & E & <- & Hk & Hp). destruct p as [|b' p]; [simpl in Hk; lia|].
        injection E as <- ->. cbn [length]. rewrite Nat.sub_succ, Nat.sub_0_r, clean_from_skip.
        cbn [forallb] in Hp. apply andb_true_iff in Hp as [_ Hp].
        destruct (ascii_outside_plain p e r Hp) as [-> Hr]. rewrite length_app in Hn. apply IH; [lia|auto].
      * destruct Hb as (-> & c & l' & -> & Hc & Hcs & Hl'). cbn [andb].
        destruct c as [|b2 c]; [done|]. inversion Hcs as [|? ? Hb2 ?]; subst.
        destruct (annotation (b :: _)) as [k|] eqn:Ea.
        -- apply annotation_spec in Ea as (p & r & E & <- & Hk & Hp). destruct p as [|b' p]; [simpl in Hk; lia|].
           injection E as <- _. cbn [forallb] in Hp. rewrite Ha in Hp. done.
        -- cbn [app clean_from]. rewrite Hb2.
           rewrite decide_False; [done|]. intros ->. done.
Qed.

Lemma clean_spec `{CharClass} s :
  str_ok s = true →
  if ascii_outside false false (as_bytes s) then ∃ out, clean_agtype_string s = Ok out
  else clean_agtype_string s = Err Panic.
Proof.
  intros Hs. pose proof (clean_from_spec _ (as_bytes s) false false (Nat.lt_succ_diag_r _) Hs) as Hc.
  unfold clean_agtype_string. destruct (ascii_outside _ _ _); [destruct Hc as [out ->]; by eexists|by rewrite Hc].
Qed.

(** ** Every cell is in its column *)

Section batch.
Context `{CharClass} `{Resp.F64Text}.

(** A null cell has a null entry; another one an entry that its cleaned text reads as. *)
Definition reads_as {A} (R : string → A → Prop) (v : option string) (entry : option A) : Prop :=
  match v, entry with
  | None, None => True
  | Some val, Some x => ∃ cleaned, clean_agtype_string val = Ok cleaned ∧ R cleaned x
  | _, _ => False
  end.

Definition holds_cells (cells : list (option string)) (column : ArrayRef) : Prop :=
  match column with
  | Int64Array es => Forall2 (reads_as (λ x i, parse_i64 (as_bytes x) = Some i)) cells es
  | Float64Array es => Forall2 (reads_as (λ x f, Resp.parse_f64 x = Some f)) cells es
  | BooleanArray es => Forall2 (reads_as (λ x b, x ∈ (if b : bool then ["t"; "true"] else ["f"; "false"]))) cells es
  | StringArray es => cells = es
  end.

(** The type of a column is one that all its texts have. *)
Definition has_type (d : DataType) (x : string) : Prop :=
  match d with
  | Int64 => is_Some (parse_i64 (as_bytes x))
  | Float64 => is_Some (Resp.parse_f64 x)
  | Boolean => x ∈ bool_texts
  | Utf8 => True
  end.
Definition typed (d : DataType) (v : option string) : Prop :=
  match v with Some val => ∃ x, clean_agtype_string val = Ok x ∧ has_type d x | None => True end.

(** What a flag of the first pass means: it was set before, and the texts are such. *)
Lemma infer_column_spec i rows st st' :
  infer_column i rows st = Ok st' →
  (can_be_int st' = true → can_be_int st = true ∧ Forall (typed Int64) (map (cell i) rows)) ∧
  (can_be_float st' = true → can_be_float st = true ∧ Forall (typed Float64) (map (cell i) rows)) ∧
  (can_be_bool st' = true → can_be_bool st = true ∧ Forall (typed Boolean) (map (cell i) rows)).
Proof.
  revert st. induction rows as [|r rows IH]; intros st; cbn [infer_column map].
  { intros [= <-]. by repeat split. }
  destruct (cell i r) as [val|] eqn:Ec; intros E.
  - apply bind_Ok_inv in E as (x & Hx & E). apply IH in E as (Hi & Hf & Hb). cbn in Hi, Hf, Hb.
    split_and!; intros Hc; [apply Hi in Hc|apply Hf in Hc|apply Hb in Hc]; destruct Hc as [Hc Hall];
      apply andb_true_iff in Hc as [Hc Ht]; apply bool_decide_eq_true in Ht;
      (split; [done|]); (constructor; [by exists x|done]).
  - apply IH in E as (Hi & Hf & Hb). split_and!; intros Hc;
      [apply Hi in Hc|apply Hf in Hc|apply Hb in Hc]; destruct Hc; split; try done; by constructor.
Qed.

Lemma infer_type_typed rows i d : infer_type rows i = Ok d → d ≠ Utf8 → Forall (typed d) (map (cell i) rows).
Proof.
  unfold infer_type. destruct (infer_column _ _ _) as [st|] eqn:E; [|done]. intros [= <-] Hd.
  apply infer_column_spec in E as (Hi & Hf & Hb). unfold inferred_type in *.
  destruct (has_non_null st); [|done]. cbn in *.
  destruct (can_be_int st); [by apply Hi|]. destruct (can_be_float st); [by apply Hf|].
  destruct (can_be_bool st); [by apply Hb|done].
Qed.

(** Texts that can be cleaned. *)
Definition clean_cell (v : option string) : Prop :=
  match v with Some val => ∃ x, clean_agtype_string val = Ok x | None => True end.

Lemma infer_column_total i rows st : Forall clean_cell (map (cell i) rows) → ∃ st', infer_column i rows st = Ok st'.
Proof.
  revert st. induction rows as [|r rows IH]; intros st Hc; cbn [infer_column]; [by eexists|].
  cbn [map] in Hc. inversion Hc as [|? ? Hr Hc']; subst. destruct (cell i r); [|by apply IH].
  destruct Hr as [x ->]. by apply IH.
Qed.

Lemma result_mapM_Forall2 {E A B} (f : A → result E B) l (R : A → B → Prop) :
  Forall (λ x, ∃ y, f x = Ok y ∧ R x y) l → ∃ ys, result_mapM f l = Ok ys ∧ Forall2 R l ys.
Proof.
  induction 1 as [|x l (y & Hy & HR) Hl (ys & IH & HF)]; [by exists []|].
  exists (y :: ys). simpl. rewrite Hy. simpl. rewrite IH. by split; [|constructor].
Qed.

Lemma entries {A} (read : string → option A) (R : string → A → Prop) d cells :
  Forall (typed d) cells → (∀ x, has_type d x → ∃ y, read x = Some y ∧ R x y) →
  ∃ es, result_mapM (entry_of read) cells = Ok es ∧ Forall2 (reads_as R) cells es.
Proof.
  intros Hc Hr. apply result_mapM_Forall2. eapply Forall_impl; [exact Hc|].
  intros [val|]; cbn; [|by exists None]. intros (x & Hx & Ht). rewrite Hx. cbn.
  destruct (Hr x Ht) as (y & -> & HR). eexists. split; [done|]. by exists x.
Qed.

Lemma build_column_holds rows i d :
  infer_type rows i = Ok d → ∃ column, build_column rows i d = Ok column ∧ holds_cells (map (cell i) rows) column.
Proof.
  intros Hd. destruct (decide (d = Utf8)) as [->|Hne]; [by eexists|].
  pose proof (infer_type_typed rows i d Hd Hne) as Ht. unfold build_column. destruct d; [..|done].
  - destruct (entries (λ x, parse_i64 (as_bytes x)) (λ x i, parse_i64 (as_bytes x) = Some i) _ _ Ht) as (es & -> & HF);
      [intros x [y Hy]; by exists y|by eexists].
  - destruct (entries Resp.parse_f64 (λ x f, Resp.parse_f64 x = Some f) _ _ Ht) as (es & -> & HF);
      [intros x [y Hy]; by exists y|by eexists].
  - destruct (entries read_bool (λ x b, x ∈ (if b : bool then ["t"; "true"] else ["f"; "false"])) _ _ Ht)
      as (es & -> & HF); [|by eexists].
    intros x Hx. eexists. split; [done|]. unfold bool_texts in Hx. cbn in Hx.
    repeat (apply elem_of_cons in Hx as [->|Hx]; [cbn; set_solver|]). by apply elem_of_nil in Hx.
Qed.

Lemma build_columns_hold rows idxs types :
  Forall2 (λ i d, infer_type rows i = Ok d) idxs types →
  ∃ columns, result_mapM (λ it, build_column rows it.1 it.2) (combine idxs types) = Ok columns
    ∧ Forall2 (λ i column, holds_cells (map (cell i) rows) column) idxs columns.
Proof.
  induction 1 as [|i d idxs types Hd Hrest (columns & IH & HF)]; [by exists []|].
  destruct (build_column_holds rows i d Hd) as (column & Hb & Hh).
  exists (column :: columns). cbn. rewrite Hb. cbn. rewrite IH. by split; [|constructor].
Qed.

Lemma plain_rows_clean rows i :
  (∀ r val, r ∈ rows → Some val ∈ r → plain_text val = true) → Forall clean_cell (map (cell i) rows).
Proof.
  intros Hrows. apply Forall_map, Forall_forall. intros r Hr. unfold cell.
  destruct (r !! i) as [[val|]|] eqn:E; cbn; try done.
  specialize (Hrows r val Hr (list_elem_of_lookup_2 _ _ _ E)). unfold plain_text in Hrows.
  apply andb_true_iff in Hrows as [Hs Ha]. pose proof (clean_spec val Hs) as Hc. by rewrite Ha in Hc.
Qed.

Lemma combine_names (l : list string) (types : list DataType) :
  length l = length types → (combine l types).*1 = l.
Proof.
  revert types. induction l as [|x l IH]; intros [|d types] HF; try done.
  cbn. f_equal. apply IH. by injection HF.
Qed.

(** The rows a server answers with become columns without losing a cell.  If no text
    has a character beyond ASCII outside of quotes, there is a record batch; its columns
    are named as asked; and column [i] holds, row for row, null for a null or missing cell
    and for any other cell what its cleaned text reads as in the column's type, or the
    text itself.  The reading never fails, so no value turns into null. *)
Theorem rows_keep_every_cell column_names rows :
  column_names ≠ [] →
  (∀ r val, r ∈ rows → Some val ∈ r → plain_text val = true) →
  ∃ batch, rows_to_record_batch column_names rows = Ok batch
    ∧ (batch_fields batch).*1 = column_names
    ∧ Forall2 (λ i column, holds_cells (map (cell i) rows) column)
        (seq 0 (length column_names)) (batch_columns batch).
Proof.
  intros Hne Hrows.
  destruct (result_mapM_Forall2 (infer_type rows) (seq 0 (length column_names))
    (λ i d, infer_type rows i = Ok d)) as (types & Ht & HF).
  { apply Forall_forall. intros i _. unfold infer_type.
    destruct (infer_column_total i rows (mkInferred false true true true) (plain_rows_clean rows i Hrows))
      as [st Hst].
    rewrite Hst. by eexists. }
  destruct (build_columns_hold rows _ _ HF) as (columns & Hb & Hcols).
  exists (mkBatch (combine column_names types) columns). split; [|split; [|done]].
  - unfold rows_to_record_batch. destruct column_names; [done|]. rewrite Ht. cbn [mbind result_bind].
    by rewrite Hb.
  - apply Forall2_length in HF. rewrite length_seq in HF. by apply combine_names.
Qed.
End batch.

(** ** At a table *)

#[local] Existing Instance ascii_CharClass.
#[local] Existing Instance Resp.bits_text.

Definition some_rows : list row :=
  [[Some "Ada"; Some "36"; Some "t"]; [Some "Alan"; None; Some "false"]; [Some "Kurt"; Some "71::numeric"]].

Lemma rows_keep_every_cell_witness :
  (∃ batch, rows_to_record_batch ["name"; "age"; "alive"] some_rows = Ok batch
    ∧ (batch_fields batch).*1 = ["name"; "age"; "alive"]
    ∧ Forall2 (λ i column, holds_cells (map (cell i) some_rows) column) (seq 0 3) (batch_columns batch))
  ∧ rows_to_record_batch ["name"; "age"; "alive"] some_rows
    = Ok (mkBatch [("name", Utf8); ("age", Int64); ("alive", Boolean)]
           [StringArray [Some "Ada"; Some "Alan"; Some "Kurt"]; Int64Array [Some 36; None; Some 71];
            BooleanArray [Some true; Some false; None]]).
Proof.
  split; [|vm_compute; reflexivity]. apply rows_keep_every_cell; [done|].
  intros r val Hr Hv. unfold some_rows in Hr.
  repeat (apply elem_of_cons in Hr as [->|Hr];
    [repeat (apply elem_of_cons in Hv as [Hv|Hv]; [first [discriminate|injection Hv as ->; vm_compute; reflexivity]|]);
     by apply elem_of_nil in Hv|]).
  by apply elem_of_nil in Hr.
Defined.

(** One text with an accent, in any column, and there are no rows: the client panics. *)
Lemma accent_panics :
  rows_to_record_batch ["name"] [[Some (of_bytes (as_bytes "Jos" ++ [xc3; xa9]))]] = Err Panic.
Proof. vm_compute. reflexivity. Qed.

(** In quotes it is no panic, but each of its bytes becomes a character. *)
Lemma accent_is_mangled :
  clean_agtype_string (of_bytes ([x22; xc3; xa9; x22])) = Ok (of_bytes [x22; xc3; x83; xc2; xa9; x22]).
Proof. vm_compute. reflexivity. Qed.

(** Texts of digits become numbers, whatever the column's type in the database. *)
Lemma leading_zeros_are_lost :
  rows_to_record_batch ["zip"] [[Some "01234"]] = Ok (mkBatch [("zip", Int64)] [Int64Array [Some 1234]]).
Proof. vm_compute. reflexivity. Qed.

(** The steps of a Bolt path are pairs of an edge and the vertex it leads to; a path of two
    edges gets one pair. *)
Lemma path_has_half_its_steps `{JsonNumbers} v1 v2 v3 e1 e2 :
  BoltValue.path_sequence (to_bolt_path (mkAgePath [v1; v2; v3] [e1; e2])) = [1; 2].
Proof. reflexivity. Qed.
