(* ===== verification/Uri.v ===== *)
(** * Connection addresses and options ([voyager-net/src/uri.rs], [config.rs], [engine.rs])

    An address is cut by the [url] crate, a parameter; what is made of its parts (namespace
    prefixes, schemes, TLS modes, credentials, database) is the program's. *)
From S2P Require Import Prelude Bytes Errors Text Pool.

Open Scope Z_scope.
Open Scope string_scope.
Open Scope list_scope.

(** ** Data *)

Inductive Auth :=
| NoAuth
| Basic (username password : string) (realm : option string)
| Bearer (token : string).

Inductive TlsMode := Disabled | Required | SelfSigned.

#[export] Instance TlsMode_eq_dec : EqDecision TlsMode.
Proof. solve_decision. Defined.

Inductive DatabaseProtocol := Bolt | Postgres | Redis | DuckDb.

Definition default_port (p : DatabaseProtocol) : option Z :=
  match p with Bolt => Some 7687 | Postgres => Some 5432 | Redis => Some 6379 | DuckDb => None end.
Definition is_network (p : DatabaseProtocol) : bool :=
  match p with Bolt | Postgres | Redis => true | DuckDb => false end.
Definition protocol_name (p : DatabaseProtocol) : string :=
  match p with
  | Bolt => "Bolt" | Postgres => "PostgreSQL" | Redis => "Redis/FalkorDB" | DuckDb => "DuckDB"
  end.

Record ParsedUri := mkUri {
  protocol : DatabaseProtocol;
  host : string;
  port : option Z;
  auth : Auth;
  database : option string;
  tls : TlsMode;
  params : gmap string string;
  backend_hint : option string;
  raw : string;
}.

(** ** The [url] crate: what it cuts an address into

    Its documentation gives the scheme in lower case, and user name and password
    "percent-encoded", that is, as ASCII. *)
Record Url := mkUrl {
  url_scheme : string;
  url_username : string;
  url_password : option string;
  url_host : option string;
  url_port : option Z;
  url_path : string;
  url_query_pairs : list (string * string);
}.

Class UrlCrate := {
  url_parse : string → result string Url;
  url_scheme_lower s u : url_parse s = Ok u →
    str_is_ascii (url_scheme u) = true ∧ to_ascii_lowercase (url_scheme u) = url_scheme u;
  url_userinfo_ascii s u : url_parse s = Ok u →
    str_is_ascii (url_username u) = true ∧ str_is_ascii (default "" (url_password u)) = true;
}.

(** ** Texts *)
Fixpoint strip_bytes (p l : list byte) : option (list byte) :=
  match p, l with
  | [], _ => Some l
  | a :: p, b :: l => if decide (a = b) then strip_bytes p l else None
  | _ :: _, [] => None
  end.

Lemma strip_bytes_app p l : strip_bytes p (p ++ l) = Some l.
Proof. induction p as [|b p IH]; [done|]. cbn. by destruct (decide (b = b)). Qed.

Lemma strip_bytes_Some p l r : strip_bytes p l = Some r → l = p ++ r.
Proof.
  revert l. induction p as [|a p IH]; intros [|b l]; cbn; try congruence.
  destruct (decide (a = b)) as [->|_]; [|done]. intros Hs%IH. by subst.
Qed.

Lemma strip_bytes_None p l : (∀ r, l ≠ p ++ r) → strip_bytes p l = None.
Proof. intros Hl. destruct (strip_bytes p l) as [r|] eqn:E; [|done]. by apply strip_bytes_Some, Hl in E. Qed.

(** [str::strip_prefix]. *)
Definition strip_prefix (p s : string) : option string :=
  of_bytes <$> strip_bytes (as_bytes p) (as_bytes s).
Definition starts_with (p s : string) : bool := bool_decide (is_Some (strip_prefix p s)).

Fixpoint trim_slashes (l : list byte) : list byte :=
  match l with x2f :: l => trim_slashes l | _ => l end.

(** ** [ParsedUri::parse] *)

(** The namespace prefixes, in the order they are tried, with the backend each stands for. *)
Definition namespace_prefixes : list (string * option string) :=
  [("voyager+native:", Some "native"); ("voyager+bridge:", Some "bridge"); ("voyager:", None);
   ("vn:", Some "native"); ("voyager-net:", Some "native")].

Fixpoint strip_namespace `{CharClass} (prefixes : list (string * option string)) (trimmed : string) :
    option string * string :=
  match prefixes with
  | [] => (None, trimmed)
  | (p, hint) :: prefixes =>
      match strip_prefix p trimmed with
      | Some rest => (hint, trim rest)
      | None => strip_namespace prefixes trimmed
      end
  end.

Definition resolve_scheme (scheme : string) : result NetError (DatabaseProtocol * TlsMode) :=
  if bool_decide (scheme ∈ ["bolt"; "neo4j"; "memgraph"]) then Ok (Bolt, Disabled)
  else if bool_decide (scheme ∈ ["bolt+s"; "neo4j+s"; "memgraph+s"]) then Ok (Bolt, Required)
  else if bool_decide (scheme ∈ ["bolt+ssc"; "neo4j+ssc"; "memgraph+ssc"]) then Ok (Bolt, SelfSigned)
  else if bool_decide (scheme ∈ ["postgresql"; "postgres"; "age"]) then Ok (Postgres, Disabled)
  else if bool_decide (scheme ∈ ["postgresql+s"; "postgres+s"; "age+s"]) then Ok (Postgres, Required)
  else if bool_decide (scheme ∈ ["redis"; "falkordb"; "valkey"]) then Ok (Redis, Disabled)
  else if bool_decide (scheme ∈ ["rediss"; "falkordbs"; "valkeys"]) then Ok (Redis, Required)
  else if bool_decide (scheme = "duckdb") then Ok (DuckDb, Disabled)
  else Err (InvalidUri ("Unsupported database URI scheme '" +:+ scheme +:+ "'. Supported schemes: bolt://, neo4j://, memgraph://, postgresql://, age://, redis://, falkordb://, valkey://, duckdb://")).

Definition or_else {A} (a b : option A) : option A := match a with Some x => Some x | None => b end.

Definition url_auth (u : Url) : Auth :=
  if negb (bool_decide (url_username u = "")) || bool_decide (is_Some (url_password u)) then
    Basic (url_username u) (default "" (url_password u)) None
  else NoAuth.

Definition url_params (u : Url) : gmap string string :=
  foldl (λ m kv, <[kv.1 := kv.2]> m) ∅ (url_query_pairs u).

Definition resolve_database (path : string) (params : gmap string string) : option string :=
  let path := of_bytes (trim_slashes (as_bytes path)) in
  let database := if bool_decide (path = "") then None else Some path in
  match or_else (params !! "database") (params !! "graph") with
  | Some db_param => if bool_decide (db_param = "") then database else Some db_param
  | None => database
  end.

Definition resolve_tls `{LowerCase} (default_tls : TlsMode) (params : gmap string string) : TlsMode :=
  match or_else (params !! "ssl") (params !! "tls") with
  | Some ssl =>
      let v := to_lowercase ssl in
      if bool_decide (v ∈ ["true"; "1"; "require"; "required"]) then Required
      else if bool_decide (v ∈ ["self-signed"; "ssc"; "allow_invalid"; "insecure"]) then SelfSigned
      else if bool_decide (v ∈ ["false"; "0"; "disable"; "disabled"]) then Disabled
      else default_tls
  | None =>
      match params !! "sslmode" with
      | Some sslmode =>
          let v := to_lowercase sslmode in
          if bool_decide (v ∈ ["require"; "verify-ca"; "verify-full"]) then Required
          else if bool_decide (v ∈ ["prefer"; "allow"]) then Required
          else if bool_decide (v = "disable") then Disabled
          else default_tls
      | None => default_tls
      end
  end.

Section parse.
Context `{CharClass, LowerCase, UrlCrate}.

(** An address without its namespace prefix. *)
Definition parse_address (backend_hint : option string) (trimmed raw : string) : result NetError ParsedUri :=
  if starts_with "duckdb://" trimmed || bool_decide (trimmed = "duckdb") then
    let path := default "" (strip_prefix "duckdb://" trimmed) in
    let db_name := if bool_decide (path = "") || bool_decide (path = ":memory:") then None else Some path in
    Ok (mkUri DuckDb "localhost" None NoAuth db_name Disabled ∅ backend_hint raw)
  else
    match url_parse trimmed with
    | Err e => Err (InvalidUri ("Malformed URI '" +:+ trimmed +:+ "': " +:+ e))
    | Ok parsed =>
        let scheme := to_lowercase (url_scheme parsed) in
        pd ← resolve_scheme scheme;
        let params := url_params parsed in
        Ok (mkUri pd.1 (default "localhost" (url_host parsed))
              (or_else (url_port parsed) (default_port pd.1)) (url_auth parsed)
              (resolve_database (url_path parsed) params) (resolve_tls pd.2 params) params backend_hint raw)
    end.

Definition parse (raw_uri : string) : result NetError ParsedUri :=
  let trimmed := trim raw_uri in
  if bool_decide (trimmed = "") then Err (InvalidUri "Connection URI cannot be empty")
  else
    let '(backend_hint, trimmed) := strip_namespace namespace_prefixes trimmed in
    parse_address backend_hint trimmed (trim raw_uri).
End parse.

Definition socket_addr (u : ParsedUri) : string :=
  match port u with
  | Some p =>
      if bool_decide (x3a ∈ as_bytes (host u)) && negb (starts_with "[" (host u)) then
        "[" +:+ host u +:+ "]:" +:+ num p
      else host u +:+ ":" +:+ num p
  | None => host u
  end.

(** ** [ConnectionConfig]: durations in nanoseconds *)

Definition from_secs (n : Z) : Z := n * 1000000000.
Definition parse_u64 (s : string) : option Z := parse_unsigned U64_MAX (as_bytes s).

Record ConnectionConfig := mkConnectionConfig {
  uri : string;
  cc_auth : Auth;
  cc_database : option string;
  cc_tls : TlsMode;
  connect_timeout : Z;
  query_timeout : option Z;
  pool : PoolConfig;
}.

Definition ConnectionConfig_default : ConnectionConfig :=
  mkConnectionConfig "bolt://localhost:7687" NoAuth None Disabled (from_secs 10) (Some (from_secs 30))
    PoolConfig_default.

Definition seconds_param (key : string) (u : ParsedUri) : option Z := params u !! key ≫= parse_u64.

Definition from_uri `{CharClass, LowerCase, UrlCrate} (uri_str : string) : ConnectionConfig :=
  let d := ConnectionConfig_default in
  match parse uri_str with
  | Err _ => mkConnectionConfig uri_str (cc_auth d) (cc_database d) (cc_tls d) (connect_timeout d) (query_timeout d) (pool d)
  | Ok parsed =>
      mkConnectionConfig uri_str (auth parsed) (database parsed) (tls parsed)
        (default (connect_timeout d) (from_secs <$> seconds_param "connect_timeout" parsed))
        (or_else (from_secs <$> seconds_param "query_timeout" parsed) (query_timeout d)) (pool d)
  end.

Definition with_auth (username password : string) (c : ConnectionConfig) : ConnectionConfig :=
  mkConnectionConfig (uri c) (Basic username password None) (cc_database c) (cc_tls c) (connect_timeout c)
    (query_timeout c) (pool c).
Definition with_database (database : string) (c : ConnectionConfig) : ConnectionConfig :=
  mkConnectionConfig (uri c) (cc_auth c) (Some database) (cc_tls c) (connect_timeout c) (query_timeout c) (pool c).
Definition with_query_timeout (timeout : option Z) (c : ConnectionConfig) : ConnectionConfig :=
  mkConnectionConfig (uri c) (cc_auth c) (cc_database c) (cc_tls c) (connect_timeout c) timeout (pool c).
Definition with_pool (p : PoolConfig) (c : ConnectionConfig) : ConnectionConfig :=
  mkConnectionConfig (uri c) (cc_auth c) (cc_database c) (cc_tls c) (connect_timeout c) (query_timeout c) p.
