(* ===== verification/UriSafe.v ===== *)
(** * What is made of an address ([voyager-net/src/uri.rs])

    Namespace prefixes only name a backend; TLS is as strict as the address asks. *)
From S2P Require Import Prelude Bytes Errors Text Pool Uri.

Open Scope Z_scope.
Open Scope string_scope.
Open Scope list_scope.

(** ** Trimming a text behind a prefix *)
Section trim.
Context `{CharClass}.

Lemma trim_start_idem cs : trim_start (trim_start cs) = trim_start cs.
Proof.
  induction cs as [|c cs IH]; [done|]. cbn [trim_start].
  destruct (is_whitespace c) eqn:E; [done|]. cbn [trim_start]. by rewrite E.
Qed.

Lemma trim_start_head c cs : trim_start (c :: cs) = c :: cs → is_whitespace c = false.
Proof.
  cbn [trim_start]. destruct (is_whitespace c); [|done]. intros E.
  destruct (trim_start_suffix cs) as (pre & Ep). rewrite E in Ep.
  apply (f_equal length) in Ep. rewrite length_app in Ep. cbn in Ep. lia.
Qed.

Lemma chars_nonempty l : Forall (λ c, c ≠ []) (chars l).
Proof.
  induction l as [|b l IH]; [constructor|]. rewrite chars_cons.
  destruct (chars l) as [|[|c g] cs]; [by repeat constructor|by repeat constructor|].
  apply Forall_cons in IH as [_ IH]. case_match; by repeat constructor.
Qed.

Lemma concat_nil (cs : list char) : Forall (λ c, c ≠ []) cs → length (concat cs) = 0%nat → cs = [].
Proof. intros Hf. destruct Hf as [|[|b c] cs]; done. Qed.

Lemma trim_chars_id cs :
  Forall (λ c, c ≠ []) cs → unchars (trim_chars cs) = unchars cs → trim_start (reverse cs) = reverse cs.
Proof.
  unfold trim_chars, unchars. intros Hf E.
  destruct (trim_start_suffix cs) as (pre & E1). set (a := trim_start cs) in *.
  destruct (trim_start_suffix (reverse a)) as (pre2 & E2). set (b := trim_start (reverse a)) in *.
  assert (a = reverse b ++ reverse pre2) as Ea by (rewrite <- reverse_app, <- E2; by rewrite reverse_involutive).
  rewrite Ea in E1. rewrite E1 in Hf. apply Forall_app in Hf as [Hp Hf]. apply Forall_app in Hf as [Hb Hp2].
  apply (f_equal length) in E. rewrite E1, !concat_app, !length_app in E.
  apply concat_nil in Hp; [|lia]. apply concat_nil in Hp2; [|lia].
  rewrite Hp, Hp2, app_nil_r in E1. cbn in E1. rewrite E1, reverse_involutive.
  apply trim_start_idem.
Qed.

Lemma trim_behind (p u : string) b rest :
  as_bytes p = b :: rest → is_ascii b = true → is_whitespace [b] = false →
  forallb is_ascii rest = true →
  u ≠ "" → starts_char (as_bytes u) = true → trim u = u → trim (p +:+ u) = p +:+ u.
Proof.
  intros Ep Hb Hw Hrest Hu Hs Ht. unfold trim in *.
  assert (trim_start (reverse (chars (as_bytes u))) = reverse (chars (as_bytes u))) as Hid.
  { apply trim_chars_id; [apply chars_nonempty|]. rewrite unchars_chars.
    apply (f_equal as_bytes) in Ht. by rewrite as_bytes_of_bytes in Ht. }
  rewrite as_bytes_app, chars_app by done.
  assert (trim_chars (chars (as_bytes p) ++ chars (as_bytes u)) = chars (as_bytes p) ++ chars (as_bytes u)) as ->.
  { unfold trim_chars. rewrite Ep.
    assert (starts_char rest = true) as Hsr.
    { destruct rest as [|c r]; [done|]. cbn in Hrest |- *. apply andb_true_iff in Hrest as [Hc _].
      by rewrite u8_cont_ascii. }
    rewrite chars_ascii_cons by done. cbn [app trim_start]. rewrite Hw.
    rewrite app_comm_cons, reverse_app. destruct (reverse (chars (as_bytes u))) as [|c cs] eqn:E.
    - exfalso. apply Hu. apply (f_equal reverse) in E. rewrite reverse_involutive in E.
      apply as_bytes_inj. rewrite <- (unchars_chars (as_bytes u)), E. done.
    - apply trim_start_head in Hid. cbn [app trim_start]. rewrite Hid.
      rewrite app_comm_cons, <- E. rewrite <- reverse_app. by rewrite reverse_involutive. }
  unfold unchars. rewrite concat_app. fold (unchars (chars (as_bytes p))) (unchars (chars (as_bytes u))).
  by rewrite !unchars_chars, of_bytes_app, !of_bytes_as_bytes.
Qed.
End trim.

(** ** Namespace prefixes *)
Section addresses.
Context `{CharClass, LowerCase, UrlCrate}.

(** What a prefix changes: the backend it names, and the text that is kept. *)
Definition relabel (hint : option string) (text : string) (u : ParsedUri) : ParsedUri :=
  mkUri (protocol u) (host u) (port u) (auth u) (database u) (tls u) (params u) hint text.

Lemma parse_address_relabel hint hint' trimmed raw raw' :
  parse_address hint' trimmed raw' = relabel hint' raw' <$> parse_address hint trimmed raw.
Proof.
  unfold parse_address. destruct (_ || _); [done|].
  destruct (url_parse trimmed) as [u|e]; [|done]. destruct (resolve_scheme _) as [pd|e]; done.
Qed.

Definition plain (u : string) : Prop :=
  trim u = u ∧ u ≠ "" ∧ str_ok u = true ∧ Forall (λ p, strip_prefix p.1 u = None) namespace_prefixes.

Lemma plain_namespace u : plain u → strip_namespace namespace_prefixes u = (None, u).
Proof.
  intros (_ & _ & _ & Hp). unfold namespace_prefixes in *. rewrite !Forall_cons in Hp.
  destruct Hp as (E1 & E2 & E3 & E4 & E5 & _). cbn [strip_namespace fst] in *.
  by rewrite E1, E2, E3, E4, E5.
Qed.

Lemma strip_prefix_same p u : strip_prefix p (p +:+ u) = Some u.
Proof.
  unfold strip_prefix. rewrite as_bytes_app, strip_bytes_app. cbn. by rewrite of_bytes_as_bytes.
Qed.

Lemma strip_prefix_other q p u :
  strip_bytes (as_bytes q) (as_bytes p ++ as_bytes u) = None → strip_prefix q (p +:+ u) = None.
Proof. unfold strip_prefix. rewrite as_bytes_app. by intros ->. Qed.

Lemma strip_namespace_prefixed p hint u :
  (p, hint) ∈ namespace_prefixes → strip_namespace namespace_prefixes (p +:+ u) = (hint, trim u).
Proof.
  unfold namespace_prefixes. rewrite !elem_of_cons, elem_of_nil. intros Hp.
  destruct_or! Hp; try done; injection Hp as -> ->; cbn [strip_namespace];
    repeat match goal with
      | |- context [strip_prefix ?q (?q +:+ u)] => rewrite (strip_prefix_same q u)
      | |- context [strip_prefix ?q (?p +:+ u)] => rewrite (strip_prefix_other q p u) by reflexivity
      end; reflexivity.
Qed.

Lemma trim_prefixed p hint u :
  (p, hint) ∈ namespace_prefixes → u ≠ "" → str_ok u = true → trim u = u → trim (p +:+ u) = p +:+ u.
Proof.
  intros Hp Hne Hok Ht. pose proof (str_ok_starts u Hok). unfold namespace_prefixes in Hp.
  rewrite !elem_of_cons, elem_of_nil in Hp. destruct_or! Hp; try done; injection Hp as -> ->;
    (eapply trim_behind; try done; by apply is_whitespace_ascii).
Qed.

(** A namespace prefix ([voyager:], [voyager+native:], [voyager+bridge:], [vn:],
    [voyager-net:]) is transparent: an address behind it is read, or refused, as the address
    alone is, with the same protocol, host, port, credentials, database, TLS mode and parameters.
    Only the backend the prefix names and the text that is kept differ. *)
Theorem prefix_is_transparent p hint u :
  (p, hint) ∈ namespace_prefixes → plain u →
  parse (p +:+ u) = relabel hint (p +:+ u) <$> parse u.
Proof.
  intros Hp Hu. pose proof (plain_namespace u Hu) as Hn. destruct Hu as (Ht & Hne & Hok & _).
  assert (trim (p +:+ u) = p +:+ u) as Htp by (by eapply trim_prefixed).
  unfold parse. rewrite Htp, Ht, (strip_namespace_prefixed p hint u Hp), Ht, Hn.
  rewrite !bool_decide_eq_false_2; [apply parse_address_relabel|done|].
  intros E. apply Hne. apply (f_equal as_bytes) in E. rewrite as_bytes_app in E.
  apply app_eq_nil in E as [_ E]. by apply as_bytes_inj.
Qed.

(** User name and password are kept as the [url] crate gives them, percent-encoded: a name or
    a password that is not ASCII, or has a reserved character, reaches the server encoded. *)
Lemma credentials_stay_encoded raw u name password realm :
  parse raw = Ok u → auth u = Basic name password realm →
  str_is_ascii name = true ∧ str_is_ascii password = true.
Proof.
  unfold parse, parse_address. intros Hp Ha. destruct (bool_decide (trim raw = "")); [done|].
  destruct (strip_namespace _ _) as [hint t]. destruct (_ || _) in Hp; [by injection Hp as <-|].
  destruct (url_parse t) as [x|e] eqn:E; [|done]. destruct (resolve_scheme _) as [pd|e]; [|done].
  injection Hp as <-. cbn [auth] in Ha. unfold url_auth in Ha. destruct (_ || _) in Ha; [|done].
  injection Ha as <- <- <-. by apply (url_userinfo_ascii t).
Qed.

(** A default that asks for TLS is dropped only by a parameter that says so. *)
Lemma tls_is_dropped_on_demand default_tls ps :
  default_tls ≠ Disabled → resolve_tls default_tls ps = Disabled →
  (∃ v, or_else (ps !! "ssl") (ps !! "tls") = Some v ∧ to_lowercase v ∈ ["false"; "0"; "disable"; "disabled"])
  ∨ (∃ v, ps !! "sslmode" = Some v ∧ to_lowercase v = "disable").
Proof.
  unfold resolve_tls. intros Hd. destruct (or_else _ _) as [v|].
  - repeat case_bool_decide; try done. intros _. left. eauto.
  - destruct (ps !! "sslmode") as [v|] eqn:E; [|done]. repeat case_bool_decide; try done. intros _. right. eauto.
Qed.

(** The text kept of an address behind a prefix does not begin with its scheme. *)
Lemma prefixed_raw p hint u r :
  (p, hint) ∈ namespace_prefixes → plain u → parse (p +:+ u) = Ok r →
  raw r = p +:+ u ∧ starts_with "age:" (raw r) = false.
Proof.
  intros Hp Hu Hr. assert (raw r = p +:+ u) as ->.
  { pose proof (plain_namespace u Hu) as Hn. destruct Hu as (Ht & Hne & Hok & _).
    assert (trim (p +:+ u) = p +:+ u) as Htp by (by eapply trim_prefixed).
    unfold parse in Hr. rewrite Htp in Hr. destruct (bool_decide _); [done|].
    rewrite (strip_namespace_prefixed p hint u Hp) in Hr. unfold parse_address in Hr.
    destruct (_ || _) in Hr; [by injection Hr as <-|]. destruct (url_parse _); [|done].
    destruct (resolve_scheme _); [|done]. by injection Hr as <-. }
  split; [done|]. unfold namespace_prefixes in Hp. rewrite !elem_of_cons, elem_of_nil in Hp.
  unfold starts_with, strip_prefix. rewrite as_bytes_app.
  destruct_or! Hp; try done; injection Hp as -> ->; reflexivity.
Qed.
End addresses.

(** ** A small [url] crate: [scheme://host/path] *)
Fixpoint before (sep : byte) (l : list byte) : list byte * list byte :=
  match l with
  | [] => ([], [])
  | b :: l => if decide (b = sep) then ([], b :: l) else let '(x, y) := before sep l in (b :: x, y)
  end.

Definition small_parse (s : string) : result string Url :=
  let '(scheme, rest) := before x3a (as_bytes s) in
  match strip_bytes (as_bytes "://") rest with
  | Some rest =>
      let '(host, path) := before x2f rest in
      if forallb is_ascii scheme && bool_decide (map ascii_lower_byte scheme = scheme) then
        Ok (mkUrl (of_bytes scheme) "" None (Some (of_bytes host)) None (of_bytes path) [])
      else Err "invalid scheme"
  | None => Err "relative URL without a base"
  end.

#[local] Instance small_url : UrlCrate.
Proof.
  refine {| url_parse := small_parse |}; intros s u; unfold small_parse;
    destruct (before x3a _) as [scheme rest]; destruct (strip_bytes _ _); try done;
    destruct (before x2f _) as [h path]; destruct (_ && _) eqn:E; try done; intros [= <-].
  - apply andb_true_iff in E as [Ea El%bool_decide_eq_true]. cbn [url_scheme].
    unfold str_is_ascii, to_ascii_lowercase. rewrite as_bytes_of_bytes. by rewrite El.
  - done.
Defined.
#[local] Existing Instance ascii_CharClass.
#[local] Existing Instance ascii_LowerCase.

Lemma prefix_is_transparent_witness :
  (("voyager+bridge:", Some "bridge") ∈ namespace_prefixes ∧ plain "age://db/g") ∧
  parse ("voyager+bridge:" +:+ "age://db/g") = relabel (Some "bridge") "voyager+bridge:age://db/g" <$> parse "age://db/g" ∧
  (port <$> parse "age://db/g") = Ok (Some 5432).
Proof.
  assert (("voyager+bridge:", Some "bridge") ∈ namespace_prefixes) as Hp by (right; left).
  assert (plain "age://db/g") as Hu by (split; [by vm_compute|]; split; [done|]; split; [done|]; by repeat constructor).
  split; [done|]. split; [|by vm_compute]. exact (prefix_is_transparent "voyager+bridge:" (Some "bridge") "age://db/g" Hp Hu).
Defined.

(** A value of [ssl] that is none of the listed ones asks for nothing. *)
Example ssl_on_is_plaintext : resolve_tls Disabled {[ "ssl" := "on" ]} = Disabled.
Proof. by vm_compute. Qed.
