(* ===== verification/PgAuth.v ===== *)
(** * Authentication of the PostgreSQL client ([voyager-net/src/postgres/auth.rs])

    MD5 and SCRAM-SHA-256.  The hash functions and base64 are libraries: their functions
    are parameters, of which only documented facts are used.
    [PgAuthSafe] has the server they authenticate each other with. *)
From S2P Require Import Prelude Bytes F64 Errors Text Uri PgMessages.

Open Scope Z_scope.
Open Scope string_scope.
Open Scope list_scope.

Class Crypto := {
  md5 : list byte → list byte;
  sha256 : list byte → list byte;
  hmac : list byte → list byte → list byte;
  base64_encode : list byte → string;
  base64_decode : string → option (list byte);
  sha256_length x : length (sha256 x) = 32%nat;
  hmac_length k x : length (hmac k x) = 32%nat;
  base64_decode_encode x : base64_decode (base64_encode x) = Some x;
  base64_alphabet x : forallb (λ b, byte_in 65 90 b || byte_in 97 122 b || byte_in 48 57 b
                                    || bool_decide (b ∈ [x2b; x2f; x3d])) (as_bytes (base64_encode x)) = true;
}.

Definition hex_encode (l : list byte) : list byte := flat_map (λ b, lower_hex2 (u8 b)) l.

(** ** Pieces of a text: [str::split(',')] *)
Fixpoint split_on (sep : byte) (l : list byte) : list (list byte) :=
  match l with
  | [] => [[]]
  | b :: l =>
      if decide (b = sep) then [] :: split_on sep l
      else match split_on sep l with p :: ps => (b :: p) :: ps | [] => [[b]] end
  end.

Section auth.
Context `{Crypto}.

Definition compute_md5_password (user password : string) (salt : list byte) : list byte :=
  let inner_hash := md5 (as_bytes password ++ as_bytes user) in
  let inner_hex := hex_encode inner_hash in
  let outer_hash := md5 (inner_hex ++ salt) in
  as_bytes "md5" ++ hex_encode outer_hash ++ [x00].

(** ** Keys *)

Definition xor_byte (a b : byte) : byte := to_u8 (Z.lxor (u8 a) (u8 b)).
Definition xor32 (a b : list byte) : list byte := zip_with xor_byte a b.

Fixpoint pbkdf2_rounds (n : nat) (password u result : list byte) : list byte :=
  match n with
  | O => result
  | S n => let u := hmac password u in pbkdf2_rounds n password u (xor32 result u)
  end.
(** [for _ in 1..iterations]. *)
Definition pbkdf2_sha256 (password salt : list byte) (iterations : Z) : list byte :=
  let u := hmac password (salt ++ [x00; x00; x00; x01]) in
  pbkdf2_rounds (Z.to_nat (iterations - 1)) password u u.

(** The nonce is a function of the clock: [nanos] since the epoch. *)
Definition nonce_bytes (nanos : Z) : list byte :=
  let rand_seed := as_unsigned 64 (Z.lxor nanos 0x5deece66d) in
  map (λ i, to_u8 (Z.land (Z.shiftr (as_unsigned 64 (rand_seed + i * 31337)) (i mod 8 * 8)) 255)) (seqZ 0 18).
Definition generate_client_nonce (nanos : Z) : string := base64_encode (nonce_bytes nanos).

(** ** The client *)

Record ScramClient := mkScram {
  client_nonce : string;
  client_first_message_bare : string;
  server_signature : option (list byte);
}.

Definition ScramClient_new (nanos : Z) : ScramClient :=
  let client_nonce := generate_client_nonce nanos in
  mkScram client_nonce ("n=,r=" +:+ client_nonce) None.

Definition client_first_message (c : ScramClient) : list byte :=
  as_bytes ("n,," +:+ client_first_message_bare c).

Definition auth_failed {A} (msg : string) : result NetError A := Err (AuthenticationFailed msg).

Definition utf8_or {A} (l : list byte) (msg : string) (k : list byte → result NetError A) : result NetError A :=
  if utf8_valid l then k l else auth_failed msg.

(** The loop over [r=], [s=] and [i=]: a later one wins. *)
Record Challenge := mkChallenge {
  server_nonce : option (list byte); salt_b64 : option (list byte); iterations : option Z }.
Definition challenge_part (ch : Challenge) (part : list byte) : Challenge :=
  match strip_bytes (as_bytes "r=") part with
  | Some rest => mkChallenge (Some rest) (salt_b64 ch) (iterations ch)
  | None =>
      match strip_bytes (as_bytes "s=") part with
      | Some rest => mkChallenge (server_nonce ch) (Some rest) (iterations ch)
      | None =>
          match strip_bytes (as_bytes "i=") part with
          | Some rest => mkChallenge (server_nonce ch) (salt_b64 ch) (parse_unsigned U32_MAX rest)
          | None => ch
          end
      end
  end.
Definition parse_challenge (message : list byte) : Challenge :=
  foldl challenge_part (mkChallenge None None None) (split_on x2c message).

(** What both sides compute from a password and the messages exchanged. *)
Definition final_without_proof (nonce : list byte) : list byte := as_bytes "c=biws,r=" ++ nonce.
Definition auth_message (bare : string) (server_first nonce : list byte) : list byte :=
  as_bytes bare ++ [x2c] ++ server_first ++ [x2c] ++ final_without_proof nonce.

Definition client_proof (salted_password message : list byte) : list byte :=
  let client_key := hmac salted_password (as_bytes "Client Key") in
  let stored_key := sha256 client_key in
  xor32 client_key (hmac stored_key message).
Definition server_sig (salted_password message : list byte) : list byte :=
  hmac (hmac salted_password (as_bytes "Server Key")) message.

Definition process_challenge (challenge : list byte) (password : string) (c : ScramClient) :
    result NetError (list byte * ScramClient) :=
  utf8_or challenge "Invalid UTF-8 in SCRAM server challenge: " (λ server_first_message,
    let ch := parse_challenge server_first_message in
    match server_nonce ch, salt_b64 ch, iterations ch with
    | None, _, _ => auth_failed "Missing 'r' nonce parameter in SCRAM challenge"
    | _, None, _ => auth_failed "Missing 's' salt parameter in SCRAM challenge"
    | _, _, None => auth_failed "Missing 'i' iterations parameter in SCRAM challenge"
    | Some combined_nonce, Some salt_str, Some iters =>
        match strip_bytes (as_bytes (client_nonce c)) combined_nonce with
        | None => auth_failed "Server nonce does not match client nonce in SCRAM exchange"
        | Some _ =>
            match base64_decode (of_bytes salt_str) with
            | None => auth_failed "Invalid base64 salt in SCRAM challenge: "
            | Some salt =>
                let salted_password := pbkdf2_sha256 (as_bytes password) salt iters in
                let message := auth_message (client_first_message_bare c) server_first_message combined_nonce in
                let proof := client_proof salted_password message in
                Ok (final_without_proof combined_nonce ++ as_bytes ",p=" ++ as_bytes (base64_encode proof),
                    mkScram (client_nonce c) (client_first_message_bare c)
                      (Some (server_sig salted_password message)))
            end
        end
    end).

(** The last [v=] of the message. *)
Definition final_signature (message : list byte) : option (list byte) :=
  foldl (λ acc part, match strip_bytes (as_bytes "v=") part with Some rest => Some rest | None => acc end)
    None (split_on x2c message).

Definition verify_server_final (final_data : list byte) (c : ScramClient) : result NetError () :=
  match server_signature c with
  | None => auth_failed "SCRAM state error: Server signature not calculated"
  | Some expected_sig =>
      utf8_or final_data "Invalid UTF-8 in SCRAM server final message: " (λ final_str,
        match final_signature final_str with
        | None => auth_failed "Missing 'v' server signature in SCRAM final message"
        | Some sig_str =>
            match base64_decode (of_bytes sig_str) with
            | None => auth_failed "Invalid base64 signature in SCRAM final: "
            | Some sig_bytes =>
                if decide (sig_bytes = expected_sig) then Ok tt
                else auth_failed "SCRAM server signature verification mismatch"
            end
        end)
  end.
End auth.
