(* ===== verification/PgAuthSafe.v ===== *)
(** * SCRAM-SHA-256: the client against PostgreSQL's server

    The server keeps the salt, the iteration count, StoredKey and ServerKey of a password, as
    section 3 of RFC 5802 derives them with [Hi] from the normalized password; it recovers
    ClientKey from the proof.  The client does not normalize, so the two agree on the passwords
    that the normalization leaves as they are. *)
From S2P Require Import Prelude Bytes F64 Errors Text Uri PgMessages PgAuth.

Open Scope Z_scope.
Open Scope string_scope.
Open Scope list_scope.

(** ** Exclusive or of 32 bytes *)
Lemma lxor_range a b : 0 <= a <= 255 → 0 <= b <= 255 → 0 <= Z.lxor a b <= 255.
Proof.
  intros Ha Hb. assert (0 <= Z.lxor a b) as H by (rewrite Z.lxor_nonneg; lia).
  split; [done|]. destruct (Z.eq_dec (Z.lxor a b) 0) as [->|Hnz]; [lia|].
  enough (Z.lxor a b < 2 ^ 8) by lia. apply Z.log2_lt_pow2; [lia|].
  pose proof (Z.log2_lxor a b (proj1 Ha) (proj1 Hb)).
  pose proof (Z.log2_le_mono a 255 (proj2 Ha)). pose proof (Z.log2_le_mono b 255 (proj2 Hb)).
  change (Z.log2 255) with 7 in *. lia.
Qed.

Lemma xor_byte_involutive a b : xor_byte (xor_byte a b) b = a.
Proof.
  unfold xor_byte. apply u8_inj.
  rewrite (u8_to_u8_small (Z.lxor (u8 a) (u8 b))) by (apply lxor_range; apply u8_range).
  rewrite Z.lxor_assoc, Z.lxor_nilpotent, Z.lxor_0_r. apply u8_to_u8_small, u8_range.
Qed.

Lemma xor32_involutive a b : length a = length b → xor32 (xor32 a b) b = a.
Proof.
  revert b. induction a as [|x a IH]; intros [|y b]; try done.
  intros [= Hl]. cbn. by rewrite xor_byte_involutive, IH.
Qed.

(** ** Splitting at commas *)
Definition no_comma (l : list byte) : Prop := x2c ∉ l.

Lemma no_comma_app a b : no_comma (a ++ b) ↔ no_comma a ∧ no_comma b.
Proof. unfold no_comma. rewrite elem_of_app. tauto. Qed.

Lemma split_on_last l : no_comma l → split_on x2c l = [l].
Proof.
  unfold no_comma. induction l as [|b l IH]; [done|]. rewrite not_elem_of_cons. intros [Hb Hl].
  cbn [split_on]. destruct (decide (b = x2c)) as [->|_]; [by destruct Hb|]. by rewrite IH.
Qed.

Lemma split_on_cons a l : no_comma a → split_on x2c (a ++ x2c :: l) = a :: split_on x2c l.
Proof.
  unfold no_comma. induction a as [|b a IH]; [done|].
  rewrite not_elem_of_cons. intros [Hb Ha]. cbn [split_on app].
  destruct (decide (b = x2c)) as [->|_]; [by destruct Hb|]. by rewrite IH.
Qed.

(** ** The server *)

(** [Normalize]: SASLprep (RFC 4013), a profile of stringprep with its Unicode tables.  It leaves
    printable ASCII as it is, and has no value on texts it prohibits. *)
Class SaslPrep := {
  saslprep : list byte → option (list byte);
  saslprep_ascii l : l ≠ [] → forallb (byte_in 32 126) l = true → saslprep l = Some l;
}.
(** PostgreSQL keeps a password that SASLprep prohibits as it is. *)
Definition prepared `{SaslPrep} (password : list byte) : list byte := default password (saslprep password).

Lemma prepared_ascii `{SaslPrep} l : l ≠ [] → forallb (byte_in 32 126) l = true → prepared l = l.
Proof. intros Hne Hl. unfold prepared. by rewrite saslprep_ascii. Qed.

Record Credentials := mkCredentials {
  cr_salt : list byte; cr_iterations : Z; cr_stored_key : list byte; cr_server_key : list byte }.

Section server.
Context `{Crypto} `{SaslPrep}.

(** [Hi(str, salt, i)]: [U1 := HMAC(str, salt + INT(1))], [Uk+1 := HMAC(str, Uk)], and the
    exclusive or of [U1 .. Ui]. *)
Fixpoint hi_u (str salt : list byte) (k : nat) : list byte :=
  match k with
  | O => hmac str (salt ++ [x00; x00; x00; x01])
  | S k => hmac str (hi_u str salt k)
  end.
Fixpoint hi_from (str salt : list byte) (k : nat) : list byte :=
  match k with
  | O => hi_u str salt 0
  | S k' => xor32 (hi_from str salt k') (hi_u str salt k)
  end.
Definition hi (str salt : list byte) (i : Z) : list byte := hi_from str salt (Z.to_nat (i - 1)).

Lemma pbkdf2_rounds_hi str salt n k :
  pbkdf2_rounds n str (hi_u str salt k) (hi_from str salt k) = hi_from str salt (n + k).
Proof.
  revert k. induction n as [|n IH]; intros k; [done|].
  cbn [pbkdf2_rounds]. specialize (IH (S k)). cbn [hi_u hi_from] in IH.
  rewrite IH. by rewrite <- plus_n_Sm.
Qed.

Lemma pbkdf2_hi str salt i : pbkdf2_sha256 str salt i = hi str salt i.
Proof.
  unfold pbkdf2_sha256, hi. etransitivity; [apply (pbkdf2_rounds_hi str salt _ 0)|].
  by rewrite Nat.add_0_r.
Qed.

(** What the server stores for a user. *)
Definition enroll (password : string) (salt : list byte) (iterations : Z) : Credentials :=
  let salted_password := hi (prepared (as_bytes password)) salt iterations in
  mkCredentials salt iterations (sha256 (hmac salted_password (as_bytes "Client Key")))
    (hmac salted_password (as_bytes "Server Key")).

(** The server's answer to a client-first-message, [(bare, nonce, server-first)].  The user is
    the one of the startup message, and the name here is not looked at: libpq, too, leaves it
    empty, where the grammar of the RFC has at least one character. *)
Definition server_first (cr : Credentials) (snonce client_first : list byte) :
    option (list byte * list byte * list byte) :=
  match strip_bytes (as_bytes "n,,") client_first with
  | Some bare =>
      match split_on x2c bare with
      | [user; r] =>
          match strip_bytes (as_bytes "n=") user, strip_bytes (as_bytes "r=") r with
          | Some _, Some cnonce =>
              Some (bare, cnonce ++ snonce,
                    as_bytes "r=" ++ (cnonce ++ snonce)
                    ++ x2c :: (as_bytes "s=" ++ as_bytes (base64_encode (cr_salt cr)))
                    ++ x2c :: (as_bytes "i=" ++ digits (cr_iterations cr)))
          | _, _ => None
          end
      | _ => None
      end
  | None => None
  end.

(** The server's answer to a client-final-message: its signature when the proof holds. *)
Definition server_final (cr : Credentials) (bare nonce first client_final : list byte) : option (list byte) :=
  match split_on x2c client_final with
  | [channel; r; p] =>
      if bool_decide (channel = as_bytes "c=biws") && bool_decide (r = as_bytes "r=" ++ nonce) then
        match strip_bytes (as_bytes "p=") p with
        | Some p =>
            match base64_decode (of_bytes p) with
            | Some proof =>
                let message := bare ++ [x2c] ++ first ++ [x2c] ++ channel ++ [x2c] ++ r in
                let client_key := xor32 proof (hmac (cr_stored_key cr) message) in
                if decide (sha256 client_key = cr_stored_key cr) then
                  Some (as_bytes "v=" ++ as_bytes (base64_encode (hmac (cr_server_key cr) message)))
                else None
            | None => None
            end
        | None => None
        end
      else None
  | _ => None
  end.

(** ** Texts of the exchange *)

(** [printable] of the RFC: visible ASCII other than a comma. *)
Definition printable (b : byte) : bool := byte_in 33 43 b || byte_in 45 126 b.

Lemma printable_plain l : forallb printable l = true → no_comma l ∧ forallb is_ascii l = true.
Proof.
  intros Hl. split.
  - intros Hin. by apply list_elem_of_In, (proj1 (forallb_forall _ _) Hl) in Hin.
  - apply forallb_forall. intros b Hb%(proj1 (forallb_forall _ _) Hl). destruct b; try done; discriminate Hb.
Qed.

Lemma base64_printable x : forallb printable (as_bytes (base64_encode x)) = true.
Proof.
  apply forallb_forall. intros b Hb%(proj1 (forallb_forall _ _) (base64_alphabet x)).
  destruct b; try done; vm_compute in Hb; discriminate Hb.
Qed.

Lemma digits_printable n : 0 <= n → forallb printable (digits n) = true.
Proof.
  intros Hn. destruct (digits_spec n Hn) as (Hd & _). apply forallb_forall.
  intros b Hb%(proj1 (forallb_forall _ _) Hd). destruct b; try done; vm_compute in Hb; discriminate Hb.
Qed.

Lemma challenge_part_r ch x :
  challenge_part ch (as_bytes "r=" ++ x) = mkChallenge (Some x) (salt_b64 ch) (iterations ch).
Proof. reflexivity. Qed.
Lemma challenge_part_s ch x :
  challenge_part ch (as_bytes "s=" ++ x) = mkChallenge (server_nonce ch) (Some x) (iterations ch).
Proof. reflexivity. Qed.
Lemma challenge_part_i ch x :
  challenge_part ch (as_bytes "i=" ++ x)
  = mkChallenge (server_nonce ch) (salt_b64 ch) (parse_unsigned U32_MAX x).
Proof. reflexivity. Qed.

Lemma printable_key (key : string) l :
  forallb printable (as_bytes key) = true → forallb printable l = true →
  no_comma (as_bytes key ++ l) ∧ forallb is_ascii (as_bytes key ++ l) = true.
Proof. intros Hk Hl. apply printable_plain. by rewrite forallb_app, Hk, Hl. Qed.

Section exchange.
Context (nonce : list byte) (salt : list byte) (n : Z).
Context (Hnonce : forallb printable nonce = true) (Hn : 0 <= n <= U32_MAX).

Let first := as_bytes "r=" ++ nonce
  ++ x2c :: (as_bytes "s=" ++ as_bytes (base64_encode salt)) ++ x2c :: (as_bytes "i=" ++ digits n).

Lemma first_parses :
  parse_challenge first = mkChallenge (Some nonce) (Some (as_bytes (base64_encode salt))) (Some n).
Proof.
  unfold parse_challenge, first. rewrite app_assoc.
  rewrite split_on_cons by (by apply printable_key).
  rewrite split_on_cons by (apply printable_key; [done|apply base64_printable]).
  rewrite split_on_last by (apply printable_key; [done|apply digits_printable; lia]).
  cbn [foldl]. rewrite challenge_part_r, challenge_part_s, challenge_part_i.
  by rewrite parse_unsigned_digits.
Qed.

Lemma first_utf8 : utf8_valid first = true.
Proof.
  apply utf8_valid_ascii. unfold first. rewrite app_assoc, forallb_app.
  rewrite (proj2 (printable_key "r=" _ eq_refl Hnonce)). cbn [forallb andb].
  rewrite forallb_app. cbn [forallb].
  rewrite (proj2 (printable_key "s=" _ eq_refl (base64_printable salt))).
  rewrite (proj2 (printable_key "i=" _ eq_refl (digits_printable n (proj1 Hn)))). done.
Qed.
End exchange.

(** ** The client's side of the exchange *)
Definition nonce_with (c : ScramClient) (snonce : list byte) : list byte := as_bytes (client_nonce c) ++ snonce.

Lemma new_nonce_printable nanos : forallb printable (as_bytes (client_nonce (ScramClient_new nanos))) = true.
Proof. apply base64_printable. Qed.

Lemma server_first_of_client cr snonce nanos :
  let c := ScramClient_new nanos in
  server_first cr snonce (client_first_message c)
  = Some (as_bytes (client_first_message_bare c), nonce_with c snonce,
          as_bytes "r=" ++ nonce_with c snonce
          ++ x2c :: (as_bytes "s=" ++ as_bytes (base64_encode (cr_salt cr)))
          ++ x2c :: (as_bytes "i=" ++ digits (cr_iterations cr))).
Proof.
  intros c. unfold server_first, client_first_message. rewrite as_bytes_app, strip_bytes_app.
  assert (as_bytes (client_first_message_bare c)
          = as_bytes "n=" ++ x2c :: (as_bytes "r=" ++ as_bytes (client_nonce c))) as ->
    by (unfold c; cbn [client_first_message_bare client_nonce ScramClient_new]; by rewrite as_bytes_app).
  rewrite split_on_cons by (by apply (printable_key "n=" [])).
  by rewrite split_on_last by (apply printable_key; [done|apply new_nonce_printable]).
Qed.

Lemma process_challenge_ok password salt n nonce first c snonce :
  utf8_valid first = true →
  parse_challenge first = mkChallenge (Some nonce) (Some (as_bytes (base64_encode salt))) (Some n) →
  nonce = nonce_with c snonce →
  let salted := hi (as_bytes password) salt n in
  let message := auth_message (client_first_message_bare c) first nonce in
  process_challenge first password c
  = Ok (final_without_proof nonce ++ as_bytes ",p=" ++ as_bytes (base64_encode (client_proof salted message)),
        mkScram (client_nonce c) (client_first_message_bare c) (Some (server_sig salted message))).
Proof.
  intros Hu Hp ->. unfold process_challenge, utf8_or. rewrite Hu, Hp.
  cbn [server_nonce salt_b64 PgAuth.iterations]. unfold nonce_with at 1.
  by rewrite strip_bytes_app, of_bytes_as_bytes, base64_decode_encode, pbkdf2_hi.
Qed.

Lemma server_final_ok password salt n bare first nonce :
  prepared (as_bytes password) = as_bytes password → forallb printable nonce = true →
  let salted := hi (as_bytes password) salt n in
  let message := auth_message bare first nonce in
  server_final (enroll password salt n) (as_bytes bare) nonce first
    (final_without_proof nonce ++ as_bytes ",p=" ++ as_bytes (base64_encode (client_proof salted message)))
  = Some (as_bytes "v=" ++ as_bytes (base64_encode (server_sig salted message))).
Proof.
  intros Hprep Hn salted message. set (proof := client_proof salted message).
  unfold server_final, final_without_proof.
  change (as_bytes "c=biws,r=") with (as_bytes "c=biws" ++ x2c :: as_bytes "r=").
  change (as_bytes ",p=") with (x2c :: as_bytes "p="). rewrite <- !app_assoc. cbn [app].
  rewrite split_on_cons by (by apply (printable_key "c=biws" [])).
  rewrite (app_assoc (as_bytes "r=")).
  rewrite split_on_cons by (by apply printable_key).
  rewrite split_on_last by (apply printable_key; [done|apply base64_printable]).
  rewrite !bool_decide_eq_true_2 by done. cbn [andb].
  rewrite strip_bytes_app, of_bytes_as_bytes, base64_decode_encode.
  change (as_bytes bare ++ [x2c] ++ first ++ [x2c] ++ as_bytes "c=biws" ++ [x2c] ++ as_bytes "r=" ++ nonce)
    with message.
  cbn [enroll cr_stored_key cr_server_key]. rewrite Hprep. fold salted. unfold proof, client_proof.
  rewrite xor32_involutive by (by rewrite !hmac_length).
  by destruct (decide _).
Qed.

Lemma verify_accepts data signature c :
  server_signature c = Some signature →
  verify_server_final data c = Ok tt ↔
  utf8_valid data = true ∧ ∃ s, final_signature data = Some s ∧ base64_decode (of_bytes s) = Some signature.
Proof.
  intros Hs. unfold verify_server_final, utf8_or, auth_failed. rewrite Hs.
  destruct (utf8_valid data); [|naive_solver].
  destruct (final_signature data) as [s|]; [|naive_solver].
  destruct (base64_decode (of_bytes s)) as [x|] eqn:E; [|naive_solver].
  destruct (decide (x = signature)) as [->|]; naive_solver.
Qed.

Lemma final_signature_of x : final_signature (as_bytes "v=" ++ as_bytes (base64_encode x)) = Some (as_bytes (base64_encode x)).
Proof.
  unfold final_signature. rewrite split_on_last by (apply printable_key; [done|apply base64_printable]).
  reflexivity.
Qed.

Lemma signature_accepted signature c :
  server_signature c = Some signature →
  verify_server_final (as_bytes "v=" ++ as_bytes (base64_encode signature)) c = Ok tt.
Proof.
  intros Hs. rewrite (verify_accepts _ _ _ Hs). split; [|eexists; split; [apply final_signature_of|]].
  - apply utf8_valid_ascii, (printable_key "v="); [done|apply base64_printable].
  - by rewrite of_bytes_as_bytes, base64_decode_encode.
Qed.

(** C32: The client authenticates itself to, and is answered by, a PostgreSQL server that knows
    the password (RFC 5802 and 7677, with the empty user name that libpq sends), whatever the
    salt, the iteration count and the server's part of the nonce, for every password that
    SASLprep leaves as it is: the server reads the client's first message, the client reads the
    challenge, the server accepts the proof (the hash of the key it recovers is StoredKey) and
    the client accepts the server's signature.  After the challenge the client accepts exactly
    the final messages whose last [v=] decodes to the signature made with the password's
    ServerKey, and it refuses a challenge whose nonce does not extend its own.  Other passwords
    are refused, as the client does not prepare them ([unprepared_password_is_refused]). *)
Theorem scram_mutual nanos password salt iterations snonce :
  prepared (as_bytes password) = as_bytes password →
  0 <= iterations <= U32_MAX → forallb printable snonce = true →
  let c := ScramClient_new nanos in
  let cr := enroll password salt iterations in
  ∃ bare nonce first final c' v,
    server_first cr snonce (client_first_message c) = Some (bare, nonce, first) ∧
    process_challenge first password c = Ok (final, c') ∧
    server_final cr bare nonce first final = Some v ∧
    verify_server_final v c' = Ok tt ∧
    (∀ data, verify_server_final data c' = Ok tt ↔
       utf8_valid data = true ∧ ∃ s, final_signature data = Some s ∧
       base64_decode (of_bytes s)
       = Some (hmac (cr_server_key cr) (bare ++ [x2c] ++ first ++ as_bytes ",c=biws,r=" ++ nonce))) ∧
    (∀ challenge nonce', server_nonce (parse_challenge challenge) = Some nonce' →
       (∀ rest, nonce' ≠ as_bytes (client_nonce c) ++ rest) →
       ∃ e, process_challenge challenge password c = Err e).
Proof.
  intros Hprep Hi Hs c cr.
  assert (forallb printable (nonce_with c snonce) = true) as Hn
    by (unfold nonce_with; rewrite forallb_app, Hs, andb_true_r; apply new_nonce_printable).
  do 6 eexists. split; [apply server_first_of_client|].
  split; [by eapply process_challenge_ok; [by apply first_utf8|by apply first_parses|]|].
  split; [by apply server_final_ok|].
  split; [|split].
  - by apply signature_accepted.
  - intros data. unfold cr. cbn [enroll cr_server_key]. rewrite Hprep. by apply verify_accepts.
  - intros challenge nonce' Hp Hno. unfold process_challenge, utf8_or, auth_failed.
    destruct (utf8_valid challenge); [|by eexists]. rewrite Hp.
    destruct (salt_b64 (parse_challenge challenge)), (PgAuth.iterations (parse_challenge challenge)); try by eexists.
    rewrite strip_bytes_None by done. by eexists.
Qed.
End server.

(** ** A concrete exchange: a toy hash of 32 bytes, and hexadecimal for base64 *)
Definition toy_hash (l : list byte) : list byte :=
  map (λ i, to_u8 (foldl (λ acc b, (acc * acc + 7 * u8 b + 1) mod 65521) i l)) (seqZ 1 32).
Definition nibble (b : byte) : Z := if byte_in 48 57 b then u8 b - 48 else u8 b - 87.
Fixpoint unhex (l : list byte) : list byte :=
  match l with a :: b :: l => to_u8 (nibble a * 16 + nibble b) :: unhex l | _ => [] end.

Lemma unhex_hex l : unhex (hex_encode l) = l.
Proof.
  induction l as [|b l IH]; [done|].
  transitivity (b :: unhex (hex_encode l)); [by destruct b|by rewrite IH].
Qed.

Lemma hex_alphabet l :
  forallb (λ b, byte_in 65 90 b || byte_in 97 122 b || byte_in 48 57 b
                || bool_decide (b ∈ [x2b; x2f; x3d])) (hex_encode l) = true.
Proof.
  induction l as [|b l IH]; [done|].
  change (hex_encode (b :: l)) with (lower_hex2 (u8 b) ++ hex_encode l).
  rewrite forallb_app, IH, andb_true_r. by destruct b.
Qed.

#[local] Instance toy_crypto : Crypto.
Proof.
  refine {| md5 := toy_hash; sha256 := toy_hash; hmac k x := toy_hash (k ++ x);
            base64_encode l := of_bytes (hex_encode l);
            base64_decode s := Some (unhex (as_bytes s)) |}.
  - done.
  - done.
  - intros x. by rewrite as_bytes_of_bytes, unhex_hex.
  - intros x. rewrite as_bytes_of_bytes. apply hex_alphabet.
Defined.

(** A part of SASLprep: the space that does not break, U+00A0, becomes a space. *)
Fixpoint map_spaces (l : list byte) : list byte :=
  match l with
  | xc2 :: ((xa0 :: l) as k) => x20 :: map_spaces l
  | b :: l => b :: map_spaces l
  | [] => []
  end.

#[local] Instance toy_saslprep : SaslPrep.
Proof.
  refine {| saslprep l := Some (map_spaces l) |}. intros l _ Hl. f_equal.
  induction l as [|b l IH]; [done|]. cbn [forallb] in Hl. apply andb_true_iff in Hl as [Hb Hl].
  transitivity (b :: map_spaces l); [by destruct b|by rewrite IH].
Defined.

(** A password that SASLprep changes: the client proves another one than the server enrolled. *)
Example unprepared_password_is_refused :
  let password := of_bytes (as_bytes "pass" ++ [xc2; xa0] ++ as_bytes "word") in
  let c := ScramClient_new 1700000000 in
  let cr := enroll password (as_bytes "NaCl") 3 in
  match server_first cr (as_bytes "srv") (client_first_message c) with
  | Some (bare, nonce, first) =>
      match process_challenge first password c with
      | Ok (final, _) => server_final cr bare nonce first final
      | Err _ => Some []
      end
  | None => Some []
  end = None.
Proof. vm_compute. reflexivity. Qed.

(** Another password at the server: its StoredKey differs, and the proof is refused. *)
Example wrong_password_is_refused :
  let c := ScramClient_new 1700000000 in
  let cr := enroll "right" (as_bytes "NaCl") 3 in
  match server_first cr (as_bytes "srv") (client_first_message c) with
  | Some (bare, nonce, first) =>
      match process_challenge first "wrong" c with
      | Ok (final, _) => server_final cr bare nonce first final
      | Err _ => Some []
      end
  | None => Some []
  end = None.
Proof. vm_compute. reflexivity. Qed.

Lemma scram_mutual_witness :
  let c := ScramClient_new 1700000000 in
  let cr := enroll "right" (as_bytes "NaCl") 3 in
  ∃ bare nonce first final c' v,
    server_first cr (as_bytes "srv") (client_first_message c) = Some (bare, nonce, first) ∧
    process_challenge first "right" c = Ok (final, c') ∧
    server_final cr bare nonce first final = Some v ∧
    verify_server_final v c' = Ok tt.
Proof.
  destruct (scram_mutual 1700000000 "right" (as_bytes "NaCl") 3 (as_bytes "srv"))
    as (bare & nonce & first & final & c' & v & H1 & H2 & H3 & H4 & _).
  - by apply prepared_ascii.
  - unfold U32_MAX. lia.
  - reflexivity.
  - exists bare, nonce, first, final, c', v. split; [exact H1|]. split; [exact H2|].
    split; [exact H3|exact H4].
Defined.
