(* ===== verification/Engine.v ===== *)
(** * Results and summaries of the engines ([voyager-net/src/engine.rs]) and texts from bytes

    [QuerySummary] and [QueryResult], and two conversions of the standard library the
    connections use: [String::from_utf8_lossy] and [str::split_whitespace]. *)
From S2P Require Import Prelude Bytes F64 Errors Text PgRows.

Open Scope Z_scope.
Open Scope string_scope.
Open Scope list_scope.

(** ** Summaries: counters of 64 bits *)
Record QuerySummary := mkSummary {
  nodes_created : Z;
  nodes_deleted : Z;
  relationships_created : Z;
  relationships_deleted : Z;
  properties_set : Z;
  labels_added : Z;
  labels_removed : Z;
  indexes_added : Z;
  constraints_added : Z;
  execution_time_ms : Z;
}.

Definition QuerySummary_empty : QuerySummary := mkSummary 0 0 0 0 0 0 0 0 0 0.

Definition is_mutating (s : QuerySummary) : bool :=
  (0 <? nodes_created s)%Z || (0 <? nodes_deleted s)%Z || (0 <? relationships_created s)%Z
  || (0 <? relationships_deleted s)%Z || (0 <? properties_set s)%Z || (0 <? labels_added s)%Z
  || (0 <? labels_removed s)%Z || (0 <? indexes_added s)%Z || (0 <? constraints_added s)%Z.

(** [+=] of a [u64], as a release build computes it. *)
Definition add_u64 (a b : Z) : Z := as_unsigned 64 (a + b).

(** ** Results *)
Record QueryResult := mkResult { columns : list string; batches : list RecordBatch; summary : QuerySummary }.

Definition array_len (a : ArrayRef) : Z :=
  Z.of_nat match a with
           | Int64Array l => length l | Float64Array l => length l
           | BooleanArray l => length l | StringArray l => length l
           end.
Definition num_rows (b : RecordBatch) : Z := match batch_columns b with a :: _ => array_len a | [] => 0 end.
Definition QueryResult_empty (s : QuerySummary) : QueryResult := mkResult [] [] s.
Definition row_count (r : QueryResult) : Z := foldl Z.add 0 (num_rows <$> batches r).
Definition is_empty (r : QueryResult) : bool := (row_count r =? 0)%Z.

(** ** [String::from_utf8_lossy]: U+FFFD for each maximal part that is no character *)
Definition FFFD : list byte := [xef; xbf; xbd].

Fixpoint lossy (l : list byte) : list byte :=
  match l with
  | [] => []
  | b0 :: l1 =>
      if (u8 b0 <? 128)%Z then b0 :: lossy l1
      else if byte_in 194 223 b0 then
        match l1 with
        | b1 :: l2 => if utf8_cont b1 then b0 :: b1 :: lossy l2 else FFFD ++ lossy l1
        | [] => FFFD
        end
      else if byte_in 224 239 b0 then
        match l1 with
        | b1 :: l2 =>
            if (if (u8 b0 =? 224)%Z then byte_in 160 191 b1
                else if (u8 b0 =? 237)%Z then byte_in 128 159 b1 else utf8_cont b1) then
              match l2 with
              | b2 :: l3 => if utf8_cont b2 then b0 :: b1 :: b2 :: lossy l3 else FFFD ++ lossy l2
              | [] => FFFD
              end
            else FFFD ++ lossy l1
        | [] => FFFD
        end
      else if byte_in 240 244 b0 then
        match l1 with
        | b1 :: l2 =>
            if (if (u8 b0 =? 240)%Z then byte_in 144 191 b1
                else if (u8 b0 =? 244)%Z then byte_in 128 143 b1 else utf8_cont b1) then
              match l2 with
              | b2 :: l3 =>
                  if utf8_cont b2 then
                    match l3 with
                    | b3 :: l4 => if utf8_cont b3 then b0 :: b1 :: b2 :: b3 :: lossy l4 else FFFD ++ lossy l3
                    | [] => FFFD
                    end
                  else FFFD ++ lossy l2
              | [] => FFFD
              end
            else FFFD ++ lossy l1
        | [] => FFFD
        end
      else FFFD ++ lossy l1
  end.
Definition from_utf8_lossy (l : list byte) : string := of_bytes (lossy l).

(** ** [str::split_whitespace] *)
Fixpoint words `{CharClass} (word : list char) (cs : list char) : list string :=
  let emit := match word with [] => [] | _ => [of_bytes (unchars (reverse word))] end in
  match cs with
  | [] => emit
  | c :: cs => if is_whitespace c then emit ++ words [] cs else words (c :: word) cs
  end.
Definition split_whitespace `{CharClass} (s : string) : list string := words [] (chars (as_bytes s)).

(** ** A text that is one keeps its characters; any text becomes one *)
Lemma lossy_valid l : utf8_valid l = true → lossy l = l.
Proof.
  revert l. fix IH 1. intros [|b0 l1]; [done|]. cbn [utf8_valid lossy].
  destruct (u8 b0 <? 128)%Z; [intros H; by rewrite IH|].
  destruct (byte_in 194 223 b0).
  { destruct l1 as [|b1 l2]; [done|]. intros [-> H]%andb_true_iff. by rewrite IH. }
  destruct (byte_in 224 239 b0).
  { destruct l1 as [|b1 [|b2 l3]]; try done. intros [[-> ->]%andb_true_iff H]%andb_true_iff. by rewrite IH. }
  destruct (byte_in 240 244 b0); [|done].
  destruct l1 as [|b1 [|b2 [|b3 l4]]]; try done.
  intros [[[-> ->]%andb_true_iff ->]%andb_true_iff H]%andb_true_iff. by rewrite IH.
Qed.

Lemma utf8_valid_fffd l : utf8_valid (FFFD ++ l) = utf8_valid l.
Proof. done. Qed.

Ltac shorter :=
  rewrite ?utf8_valid_fffd;
  match goal with IH : ∀ l, (length l <= _)%nat → _ |- _ => apply IH; cbn [length] in *; lia end.

Lemma lossy_is_valid_upto n l : (length l <= n)%nat → utf8_valid (lossy l) = true.
Proof.
  revert l. induction n as [|n IH]; intros [|b0 l1] Hn; try done; [cbn in Hn; lia|]. cbn [lossy].
  destruct (u8 b0 <? 128)%Z eqn:E0; [cbn [utf8_valid]; rewrite E0; by shorter|].
  destruct (byte_in 194 223 b0) eqn:E1.
  { destruct l1 as [|b1 l2]; [done|]. destruct (utf8_cont b1) eqn:C1; [|by shorter].
    cbn [utf8_valid]. rewrite E0, E1, C1. by shorter. }
  destruct (byte_in 224 239 b0) eqn:E2.
  { destruct l1 as [|b1 l2]; [done|].
    match goal with |- context [if ?c then _ else FFFD ++ _] => destruct c eqn:C1 end; [|by shorter].
    destruct l2 as [|b2 l3]; [done|]. destruct (utf8_cont b2) eqn:C2; [|by shorter].
    cbn [utf8_valid]. rewrite E0, E1, E2, C1, C2. by shorter. }
  destruct (byte_in 240 244 b0) eqn:E3; [|by shorter].
  destruct l1 as [|b1 l2]; [done|].
  match goal with |- context [if ?c then _ else FFFD ++ _] => destruct c eqn:C1 end; [|by shorter].
  destruct l2 as [|b2 l3]; [done|]. destruct (utf8_cont b2) eqn:C2; [|by shorter].
  destruct l3 as [|b3 l4]; [done|]. destruct (utf8_cont b3) eqn:C3; [|by shorter].
  cbn [utf8_valid]. rewrite E0, E1, E2, E3, C1, C2, C3. by shorter.
Qed.

Lemma from_utf8_lossy_ok l : str_ok (from_utf8_lossy l) = true.
Proof. unfold str_ok, from_utf8_lossy. rewrite as_bytes_of_bytes. by eapply lossy_is_valid_upto. Qed.
