(* ===== verification/PgConnection.v ===== *)
(** * Connections and transactions of the PostgreSQL client
    ([voyager-net/src/postgres/connection.rs], [transaction.rs])

    A connection is its socket (what is still to be read, what was written) and the fields the
    code keeps.  An operation returns the connection with its result, for a connection outlives
    the errors of its queries.  The timer of a query is an input: it fires after a number of
    complete messages and some bytes of the next one, which are then lost with the read that is
    dropped.  Writing does not fail; the [{:?}] text of a value is left out of messages. *)
From S2P Require Import Prelude Bytes F64 Errors Text BoltStream PgMessages PgStream Json PgParams.
From S2P Require Import PgRows Engine Uri PgAuth.

Open Scope Z_scope.
Open Scope string_scope.
Open Scope list_scope.

(** ** State *)
Record PostgresConnection := mkConn {
  reads : socket;
  sent : list byte;
  pg_uri : ParsedUri;
  server_parameters : gmap string string;
  backend_pid : Z;
  secret_key : Z;
  transaction_status : TransactionStatus;
  is_age_initialized : bool;
  pg_query_timeout : option Z;
}.

Definition set_reads (r : socket) (c : PostgresConnection) : PostgresConnection :=
  mkConn r (sent c) (pg_uri c) (server_parameters c) (backend_pid c) (secret_key c) (transaction_status c)
    (is_age_initialized c) (pg_query_timeout c).
Definition set_sent (s : list byte) (c : PostgresConnection) : PostgresConnection :=
  mkConn (reads c) s (pg_uri c) (server_parameters c) (backend_pid c) (secret_key c) (transaction_status c)
    (is_age_initialized c) (pg_query_timeout c).
Definition set_parameter (name value : string) (c : PostgresConnection) : PostgresConnection :=
  mkConn (reads c) (sent c) (pg_uri c) (<[name := value]> (server_parameters c)) (backend_pid c) (secret_key c)
    (transaction_status c) (is_age_initialized c) (pg_query_timeout c).
Definition set_key_data (pid key : Z) (c : PostgresConnection) : PostgresConnection :=
  mkConn (reads c) (sent c) (pg_uri c) (server_parameters c) pid key (transaction_status c)
    (is_age_initialized c) (pg_query_timeout c).
Definition set_status (s : TransactionStatus) (c : PostgresConnection) : PostgresConnection :=
  mkConn (reads c) (sent c) (pg_uri c) (server_parameters c) (backend_pid c) (secret_key c) s
    (is_age_initialized c) (pg_query_timeout c).
Definition set_age (c : PostgresConnection) : PostgresConnection :=
  mkConn (reads c) (sent c) (pg_uri c) (server_parameters c) (backend_pid c) (secret_key c) (transaction_status c)
    true (pg_query_timeout c).
Definition set_query_timeout (t : option Z) (c : PostgresConnection) : PostgresConnection :=
  mkConn (reads c) (sent c) (pg_uri c) (server_parameters c) (backend_pid c) (secret_key c) (transaction_status c)
    (is_age_initialized c) t.

(** ** The monad of operations on a connection *)
Definition CM (A : Type) : Type := PostgresConnection → result fault A * PostgresConnection.
#[export] Instance CM_ret : MRet CM := λ A x c, (Ok x, c).
#[export] Instance CM_bind : MBind CM :=
  λ A B f m c, match m c with (Ok x, c) => f x c | (Err e, c) => (Err e, c) end.
Definition c_result {A} (r : result fault A) : CM A := λ c, (r, c).
Definition c_fail {A} (e : NetError) : CM A := c_result (Err (Raise e)).
Definition net {A} (r : result NetError A) : CM A :=
  c_result match r with Ok x => Ok x | Err e => Err (Raise e) end.
Definition update (f : PostgresConnection → PostgresConnection) : CM () := λ c, (Ok tt, f c).

Definition recv : CM BackendMessage :=
  λ c, let '(r, rd) := read_backend_message (reads c) in (r, set_reads rd c).
Definition send (m : FrontendMessage) : CM () := update (λ c, set_sent (write_frontend_message m (sent c)) c).
Definition send_startup (m : StartupMessage) : CM () :=
  update (λ c, set_sent (write_startup_message m (sent c)) c).

(** Every message takes bytes from the socket, so this many loop turns are enough. *)
Definition with_fuel {A} (f : nat → CM A) : CM A := λ c, f (S (length (socket_bytes (reads c)))) c.
Definition no_fuel {A} : CM A := c_result (Err OutOfFuel).

(** ** Handshake *)

Section connection.
Context `{CharClass} `{Resp.F64Text} `{Crypto}.

Definition credentials (a : Auth) : string * string :=
  match a with Basic username password _ => (username, password) | _ => ("postgres", "") end.

(** One authentication request; [nanos] is the clock when a nonce is drawn from it. *)
Definition authenticate (nanos : Z) (req : AuthenticationRequest) (scram_client : option ScramClient) :
    CM (option ScramClient) :=
  λ c,
  let '(username, password) := credentials (auth (pg_uri c)) in
  match req with
  | AuthOk => (Ok scram_client, c)
  | CleartextPassword =>
      (send (Password (as_bytes password ++ [x00]));; mret scram_client) c
  | MD5Password salt =>
      (send (Password (compute_md5_password username password salt));; mret scram_client) c
  | SASL mechanisms =>
      if bool_decide ("SCRAM-SHA-256" ∈ mechanisms) then
        let client := ScramClient_new nanos in
        (send (SASLInitialResponse "SCRAM-SHA-256" (Some (client_first_message client)));;
         mret (Some client)) c
      else c_fail (AuthenticationFailed "No supported SASL mechanism offered by server: ") c
  | SASLContinue challenge =>
      match scram_client with
      | None => c_fail (AuthenticationFailed "SCRAM client state missing") c
      | Some client =>
          (rc ← net (process_challenge challenge password client);
           send (SASLResponse rc.1);; mret (Some rc.2)) c
      end
  | SASLFinal final_data =>
      match scram_client with
      | None => c_fail (AuthenticationFailed "SCRAM client state missing") c
      | Some client => (net (verify_server_final final_data client);; mret scram_client) c
      end
  | _ => c_fail (AuthenticationFailed "Unsupported authentication request: ") c
  end.

(** [clock] gives the time at each turn of the loop. *)
Fixpoint handshake_loop (fuel : nat) (clock : nat → Z) (scram_client : option ScramClient) : CM () :=
  match fuel with
  | O => no_fuel
  | S fuel =>
      msg ← recv;
      match msg with
      | Authentication auth_req =>
          scram_client ← authenticate (clock fuel) auth_req scram_client;
          handshake_loop fuel clock scram_client
      | ParameterStatus name value =>
          update (set_parameter name value);; handshake_loop fuel clock scram_client
      | BackendKeyData process_id secret_key =>
          update (set_key_data process_id secret_key);; handshake_loop fuel clock scram_client
      | ReadyForQuery status => update (set_status status)
      | ErrorResponse diag => c_fail (AuthenticationFailed (format_error diag))
      | NoticeResponse _ => handshake_loop fuel clock scram_client
      | _ => c_fail (ProtocolError "Unexpected backend message during startup handshake: ")
      end
  end.

Definition handshake (clock : nat → Z) : CM () :=
  λ c,
  let username := (credentials (auth (pg_uri c))).1 in
  let startup := StartupMessage_new username (Some (default "postgres" (database (pg_uri c)))) in
  (send_startup startup;; with_fuel (λ fuel, handshake_loop fuel clock None)) c.

(** ** Simple queries *)

(** [{:?}] of a [Duration] in nanoseconds: the largest unit, with the digits of its fraction. *)
Definition drop_zeros (l : list byte) : list byte :=
  reverse ((fix go (l : list byte) := match l with x30 :: l => go l | _ => l end) (reverse l)).
Definition decimal (whole fraction : Z) (width : nat) : string :=
  if decide (fraction = 0) then num whole
  else num whole +:+ "." +:+ of_bytes (drop_zeros (tail (digits (10 ^ Z.of_nat width + fraction)))).
Definition duration_debug (nanos : Z) : string :=
  if (1000000000 <=? nanos)%Z then decimal (nanos / 1000000000) (nanos mod 1000000000) 9 +:+ "s"
  else if (1000000 <=? nanos)%Z then decimal (nanos / 1000000) (nanos mod 1000000) 6 +:+ "ms"
  else if (1000 <=? nanos)%Z then decimal (nanos / 1000) (nanos mod 1000) 3 +:+ of_bytes [xc2; xb5; "s"%byte]
  else num nanos +:+ "ns".

Definition parse_count (l : option string) : option Z := l ≫= λ s, parse_unsigned U64_MAX (as_bytes s).

Definition add_created (n : Z) (s : QuerySummary) : QuerySummary :=
  mkSummary (add_u64 (nodes_created s) n) (nodes_deleted s) (relationships_created s) (relationships_deleted s)
    (properties_set s) (labels_added s) (labels_removed s) (indexes_added s) (constraints_added s)
    (execution_time_ms s).
Definition add_deleted (n : Z) (s : QuerySummary) : QuerySummary :=
  mkSummary (nodes_created s) (add_u64 (nodes_deleted s) n) (relationships_created s) (relationships_deleted s)
    (properties_set s) (labels_added s) (labels_removed s) (indexes_added s) (constraints_added s)
    (execution_time_ms s).
Definition add_properties (n : Z) (s : QuerySummary) : QuerySummary :=
  mkSummary (nodes_created s) (nodes_deleted s) (relationships_created s) (relationships_deleted s)
    (add_u64 (properties_set s) n) (labels_added s) (labels_removed s) (indexes_added s) (constraints_added s)
    (execution_time_ms s).
Definition set_time (ms : Z) (s : QuerySummary) : QuerySummary :=
  mkSummary (nodes_created s) (nodes_deleted s) (relationships_created s) (relationships_deleted s)
    (properties_set s) (labels_added s) (labels_removed s) (indexes_added s) (constraints_added s) ms.

Definition parse_command_tag (tag : string) (s : QuerySummary) : QuerySummary :=
  let parts := split_whitespace tag in
  match parts with
  | [] => s
  | command :: _ =>
      if decide (command = "INSERT") then
        match parse_count (parts !! 2%nat) with Some c => add_created c s | None => s end
      else if decide (command = "DELETE") then
        match parse_count (parts !! 1%nat) with Some c => add_deleted c s | None => s end
      else if decide (command = "UPDATE") then
        match parse_count (parts !! 1%nat) with Some c => add_properties c s | None => s end
      else s
  end.

(** The locals of [execute_simple_inner]. *)
Record Answer := mkAnswer {
  a_columns : list string;
  a_rows : list row;
  a_summary : QuerySummary;
  query_error : option NetError;
}.
Definition Answer_new : Answer := mkAnswer [] [] QuerySummary_empty None.

Definition text_row (vals : list (option (list byte))) : row := map (option_map from_utf8_lossy) vals.

(** The loop.  [None]: the timer fired, and the loop is dropped where it waits. *)
Fixpoint answer_loop (fuel : nat) (timer : option nat) (a : Answer) : CM (option Answer) :=
  match timer, fuel with
  | Some O, _ => mret None
  | _, O => no_fuel
  | _, S fuel =>
      let timer := Nat.pred <$> timer in
      msg ← recv;
      match msg with
      | RowDescription fields =>
          answer_loop fuel timer (mkAnswer (fd_name <$> fields) (a_rows a) (a_summary a) (query_error a))
      | DataRow vals =>
          answer_loop fuel timer
            (mkAnswer (a_columns a) (a_rows a ++ [text_row vals]) (a_summary a) (query_error a))
      | CommandComplete tag =>
          answer_loop fuel timer
            (mkAnswer (a_columns a) (a_rows a) (parse_command_tag tag (a_summary a)) (query_error a))
      | ReadyForQuery status => update (set_status status);; mret (Some a)
      | ErrorResponse diag =>
          answer_loop fuel timer
            (mkAnswer (a_columns a) (a_rows a) (a_summary a) (Some (ProtocolError (format_error diag))))
      | ParameterStatus name value => update (set_parameter name value);; answer_loop fuel timer a
      | _ => answer_loop fuel timer a
      end
  end.

(** After the loop; [elapsed] is the time the query took in milliseconds. *)
Definition finish (elapsed : Z) (a : Answer) : result fault QueryResult :=
  match query_error a with
  | Some err => Err (Raise err)
  | None =>
      batch ← rows_to_record_batch (a_columns a) (a_rows a);
      Ok (mkResult (a_columns a)
            (if (0 <? num_rows batch)%Z || negb (bool_decide (a_columns a = [])) then [batch] else [])
            (set_time elapsed (a_summary a)))
  end.

Definition execute_simple_inner (timer : option nat) (elapsed : Z) (query : string) : CM (option QueryResult) :=
  send (Query query);;
  a ← with_fuel (λ fuel, answer_loop fuel timer Answer_new);
  match a with
  | None => mret None
  | Some a => r ← c_result (finish elapsed a); mret (Some r)
  end.

(** What surrounds a query: the time it takes, and when the timer fires, if it does: after
    [after] messages and [partial] bytes of the next. *)
Record Timing := mkTiming { elapsed_ms : Z; expires : option (nat * nat) }.

Definition skip_bytes (n : nat) (c : PostgresConnection) : PostgresConnection :=
  set_reads (read_bytes n (reads c)).2 c.

Definition execute_simple (t : Timing) (query : string) : CM QueryResult :=
  λ c,
  let timer := match pg_query_timeout c with Some _ => fst <$> expires t | None => None end in
  (r ← execute_simple_inner timer (elapsed_ms t) query;
   match r with
   | Some r => mret r
   | None =>
       update (skip_bytes (default 0%nat (snd <$> expires t)));;
       update (set_status FailedTransaction);;
       c_fail (Timeout ("Query execution timed out after "
                        +:+ duration_debug (default 0 (pg_query_timeout c))))
   end) c.

Definition init_age (t : Timing) : CM () :=
  λ c,
  if is_age_initialized c then (Ok tt, c)
  else
    (execute_simple t (of_bytes (as_bytes "LOAD 'age'; SET search_path = ag_catalog, " ++ [x22] ++ as_bytes "$user"
                                 ++ [x22] ++ as_bytes ", public;"));;
     update set_age) c.

(** ** Opening a connection

    [tcp] is what [TcpStream::connect] gives; [late] says that the connect timer fires first. *)
Definition wants_age (u : ParsedUri) : bool :=
  starts_with "age:" (raw u) || bool_decide (is_Some (params u !! "graph"))
  || bool_decide (is_Some (params u !! "age")) || bool_decide (params u !! "dialect" = Some "age").

Definition connect_raw (tcp : result string socket) (clock : nat → Z) (t : Timing) (u : ParsedUri) :
    result fault PostgresConnection :=
  match tcp with
  | Err e =>
      Err (Raise (ConnectionFailed
        ("Failed to connect to PostgreSQL host at " +:+ socket_addr u +:+ ": " +:+ e)))
  | Ok stream =>
      let query_timeout := or_else (from_secs <$> seconds_param "query_timeout" u) (Some (from_secs 30)) in
      let conn := mkConn stream [] u ∅ 0 0 Idle false query_timeout in
      match (handshake clock;; if wants_age u then init_age t else mret tt) conn with
      | (Ok _, conn) => Ok conn
      | (Err e, _) => Err e
      end
  end.

Definition connect (late : bool) (tcp : result string socket) (clock : nat → Z) (t : Timing) (u : ParsedUri) :
    result fault PostgresConnection :=
  if decide (tls u ≠ Disabled) then
    Err (Raise (TlsError ("TLS encryption requested for PostgreSQL endpoint '" +:+ host u +:+ "', but native TLS transport is not enabled. Plaintext downgrade rejected.")))
  else
    let timeout_dur := from_secs (default 5 (seconds_param "connect_timeout" u)) in
    if late then
      Err (Raise (Timeout ("Connection or handshake to PostgreSQL host at " +:+ socket_addr u
                           +:+ " timed out after " +:+ duration_debug timeout_dur)))
    else connect_raw tcp clock t u.

(** ** The connection interface of the pool ([AsyncConnection]) *)

Definition execute `{JsonNumbers, JsonText} (t : Timing) (query : string) (ps : list (string * JsonValue)) :
    CM QueryResult :=
  execute_simple t (format_postgres_query query ps).
Definition ping (t : Timing) : CM () := execute_simple t "SELECT 1;";; mret tt.
Definition reset (t : Timing) : CM () :=
  λ c, if decide (transaction_status c ≠ Idle) then
         match execute_simple t "ROLLBACK;" c with
         | (Ok _, c) | (Err (Raise _), c) => (Ok tt, c)
         | (Err e, c) => (Err e, c)
         end
       else (Ok tt, c).
Definition is_valid (c : PostgresConnection) : bool := bool_decide (transaction_status c ≠ FailedTransaction).
Definition is_in_transaction (c : PostgresConnection) : bool := bool_decide (transaction_status c = InTransaction).
Definition close : CM () := send Terminate.

(** ** Transactions: the borrowed connection is the monad's state *)

Record PostgresTransaction := mkTransaction { is_active : bool; summary_accumulator : QuerySummary }.

Definition begin (t : Timing) : CM PostgresTransaction :=
  execute_simple t "BEGIN;";; mret (mkTransaction true QuerySummary_empty).

Definition accumulate (s acc : QuerySummary) : QuerySummary :=
  set_time (add_u64 (execution_time_ms acc) (execution_time_ms s))
    (add_properties (properties_set s) (add_deleted (nodes_deleted s) (add_created (nodes_created s) acc))).

Definition tx_execute `{JsonNumbers, JsonText} (t : Timing) (query : string) (ps : list (string * JsonValue))
    (tx : PostgresTransaction) : CM (QueryResult * PostgresTransaction) :=
  if is_active tx then
    res ← execute t query ps;
    mret (res, mkTransaction true (accumulate (summary res) (summary_accumulator tx)))
  else c_fail (TransactionError "Cannot execute query on inactive transaction").

Definition commit (t : Timing) (tx : PostgresTransaction) : CM QuerySummary :=
  if is_active tx then execute_simple t "COMMIT;";; mret (summary_accumulator tx)
  else c_fail (TransactionError "Transaction is already completed").
Definition rollback (t : Timing) (tx : PostgresTransaction) : CM () :=
  if is_active tx then execute_simple t "ROLLBACK;";; mret tt else mret tt.

Definition savepoint (t : Timing) (name : string) (tx : PostgresTransaction) : CM () :=
  if is_active tx then execute_simple t ("SAVEPOINT " +:+ name +:+ ";");; mret tt
  else c_fail (TransactionError "Cannot create savepoint in inactive transaction").
Definition rollback_to_savepoint (t : Timing) (name : string) (tx : PostgresTransaction) : CM () :=
  if is_active tx then execute_simple t ("ROLLBACK TO SAVEPOINT " +:+ name +:+ ";");; mret tt
  else c_fail (TransactionError "Cannot rollback savepoint in inactive transaction").
Definition release_savepoint (t : Timing) (name : string) (tx : PostgresTransaction) : CM () :=
  if is_active tx then execute_simple t ("RELEASE SAVEPOINT " +:+ name +:+ ";");; mret tt
  else c_fail (TransactionError "Cannot release savepoint in inactive transaction").
End connection.
