(* ===== verification/PgConnectionSafe.v ===== *)
(** * Queries of the PostgreSQL client and their answers

    Every operation ends; the answers of a server come back with the queries they answer, as
    long as no timer fires; after a timer has fired each query gets the answer of the one before. *)
From S2P Require Import Prelude Bytes F64 Errors Text BoltStream PgMessages PgWire PgStream Json.
From S2P Require Import PgParams PgRows PgRowsSafe Engine Uri PgAuth PgAuthSafe PgConnection.

Open Scope Z_scope.
Open Scope string_scope.
Open Scope list_scope.

(** ** A message takes bytes from the socket *)

Lemma read_exact_bytes e n reads l reads' :
  read_exact e n reads = Ok (l, reads') → socket_bytes reads = l ++ socket_bytes reads'.
Proof.
  revert n l reads'. induction reads as [|[chunk|] reads IH]; intros n l reads'.
  - destruct n; cbn; [|done]. by intros [= <- <-].
  - destruct n as [|n]; [by intros [= <- <-]|]. destruct chunk as [|b chunk]; [done|].
    rewrite read_exact_cons by (done || lia).
    destruct (decide _) as [Hl|Hl].
    + destruct (read_exact e _ reads) as [[rest rd]|] eqn:E; [|done]. intros [= <- <-].
      apply IH in E. change (socket_bytes (Some ?x :: ?r)) with (x ++ socket_bytes r).
      rewrite E. apply app_assoc.
    + intros [= <- <-]. change (socket_bytes (Some ?x :: ?r)) with (x ++ socket_bytes r).
      rewrite app_assoc. f_equal. symmetry. apply (take_drop (S n) (b :: chunk)).
  - destruct n; cbn; [|done]. by intros [= <- <-].
Qed.

Lemma read_bytes_bytes n reads l reads' :
  read_bytes n reads = (Ok l, reads') → socket_bytes reads = l ++ socket_bytes reads'.
Proof.
  unfold read_bytes. destruct (read_exact "" n reads) as [[x rd]|] eqn:E; [|done].
  intros [= <- <-]. by eapply read_exact_bytes.
Qed.

Lemma read_type_bytes reads b reads' : read_type reads = (Ok b, reads') → socket_bytes reads = b :: socket_bytes reads'.
Proof. destruct reads as [|[[|x [|y l]]|] reads]; try done; by intros [= <- <-]. Qed.

Lemma read_message_shorter reads m reads' :
  read_backend_message reads = (Ok m, reads') → (length (socket_bytes reads') < length (socket_bytes reads))%nat.
Proof.
  unfold read_backend_message, mbind, SM_bind. destruct (read_type reads) as [[t|e] r1] eqn:E1; [|done].
  destruct (read_bytes 4 r1) as [[l|e] r2] eqn:E2; [|done]. cbv zeta.
  destruct (decide _); [done|]. destruct (decide _); [done|].
  destruct (read_bytes _ r2) as [[p|e] r3] eqn:E3; [|done]. unfold s_result. intros [= _ ->].
  apply read_type_bytes in E1. apply read_bytes_bytes in E2, E3.
  rewrite E1, E2, E3. cbn [length]. rewrite !length_app. lia.
Qed.

Lemma read_message_ends reads : (read_backend_message reads).1 ≠ Err OutOfFuel.
Proof.
  unfold read_backend_message, mbind, SM_bind. destruct (read_type reads) as [[t|e] r1] eqn:E1.
  2:{ cbn. intros [= ->]. destruct reads as [|[[|x [|y l]]|] reads]; cbn in E1; congruence. }
  destruct (read_bytes 4 r1) as [[l|e] r2] eqn:E2.
  2:{ cbn. intros [= ->]. unfold read_bytes in E2. destruct (read_exact _ _ _) as [[]|]; congruence. }
  cbv zeta. destruct (decide _); [done|]. destruct (decide _); [done|].
  destruct (read_bytes _ r2) as [[p|e] r3] eqn:E3.
  2:{ cbn. intros [= ->]. unfold read_bytes in E3. destruct (read_exact _ _ _) as [[]|]; congruence. }
  apply decode_outcomes.
Qed.

(** ** Every operation ends *)

(** From a connection with at most [n] bytes to come, [m] ends. *)
Definition ends {A} (m : CM A) (c : PostgresConnection) : Prop := (m c).1 ≠ Err OutOfFuel.
Definition left (c : PostgresConnection) : nat := length (socket_bytes (reads c)).

Lemma ends_bind {A B} (m : CM A) (f : A → CM B) c :
  ends m c → (∀ x c', m c = (Ok x, c') → ends (f x) c') → ends (m ≫= f) c.
Proof.
  unfold ends, mbind, CM_bind. destruct (m c) as [[x|e] c'] eqn:E; [|cbn; intros He _ [= ->]; by apply He]. intros _ H. by apply H.
Qed.

Lemma ends_recv c : ends recv c.
Proof.
  unfold ends, recv. pose proof (read_message_ends (reads c)). by destruct (read_backend_message (reads c)).
Qed.
Lemma recv_shorter c m c' : recv c = (Ok m, c') → (left c' < left c)%nat.
Proof.
  unfold recv, left. destruct (read_backend_message (reads c)) as [r rd] eqn:E. intros [= -> <-].
  by apply read_message_shorter in E.
Qed.

Section ends.
Context `{CharClass} `{Resp.F64Text} `{Crypto}.

Lemma answer_loop_ends fuel timer a c : (left c < fuel)%nat → ends (answer_loop fuel timer a) c.
Proof.
  revert timer a c. induction fuel as [|fuel IH]; intros timer a c Hf; [lia|].
  destruct timer as [[|k]|]; [done| |]; cbn [answer_loop].
  all: apply ends_bind; [apply ends_recv|]; intros m c' Hm%recv_shorter.
  all: destruct m; try (apply IH; lia); try done; apply ends_bind; try done;
    intros x c'' [= <- <-]; apply IH; change (left c' < fuel)%nat; lia.
Qed.

Definition no_fuel_fault {A} (r : result fault A) : Prop := r ≠ Err OutOfFuel.

Lemma no_fuel_bind {A B} (r : result fault A) (f : A → result fault B) :
  no_fuel_fault r → (∀ x, no_fuel_fault (f x)) → no_fuel_fault (r ≫= f).
Proof. unfold no_fuel_fault. destruct r as [x|e]; [|by destruct e]. intros _ Hf. apply Hf. Qed.
Lemma no_fuel_fmap {A B} (r : result fault A) (f : A → B) : no_fuel_fault r → no_fuel_fault (f <$> r).
Proof. unfold no_fuel_fault. destruct r as [x|[]]; done. Qed.
Lemma no_fuel_mapM {A B} (f : A → result fault B) l :
  (∀ x, no_fuel_fault (f x)) → no_fuel_fault (result_mapM f l).
Proof.
  intros Hf. induction l as [|x l IH]; [done|]. cbn [result_mapM].
  apply no_fuel_bind; [done|]. intros y. by apply no_fuel_bind.
Qed.

Lemma no_fuel_clean_from skip q e l : no_fuel_fault (clean_from skip q e l).
Proof.
  revert skip q e. induction l as [|b l IH]; intros skip q e; [done|]. cbn [clean_from].
  repeat case_match; try done; try apply IH; try by apply no_fuel_fmap.
Qed.
Lemma no_fuel_clean s : no_fuel_fault (clean_agtype_string s).
Proof. apply no_fuel_fmap, no_fuel_clean_from. Qed.

Lemma no_fuel_infer i rs st : no_fuel_fault (infer_column i rs st).
Proof.
  revert st. induction rs as [|r rs IH]; intros st; [done|]. cbn [infer_column].
  destruct (cell i r) as [v|]; [|done]. apply no_fuel_bind; [apply no_fuel_clean|]. done.
Qed.

Lemma no_fuel_batch names rs : no_fuel_fault (rows_to_record_batch names rs).
Proof.
  unfold rows_to_record_batch. destruct names; [done|].
  apply no_fuel_bind; [apply no_fuel_mapM; intros i; apply no_fuel_fmap, no_fuel_infer|]. intros types.
  apply no_fuel_bind; [|done]. apply no_fuel_mapM. intros [i d]. unfold build_column.
  assert (∀ A (read : string → option A) v, no_fuel_fault (entry_of read v)) as He.
  { intros A read [v|]; [|done]. cbn [entry_of]. apply no_fuel_bind; [apply no_fuel_clean|done]. }
  destruct d; try done; apply no_fuel_fmap, no_fuel_mapM; intros v; apply He.
Qed.

Lemma finish_ends elapsed a : no_fuel_fault (finish elapsed a).
Proof. unfold finish. destruct (query_error a); [done|]. by apply no_fuel_bind; [apply no_fuel_batch|]. Qed.

Lemma execute_simple_ends t q c : ends (execute_simple t q) c.
Proof.
  unfold ends, execute_simple. cbv beta zeta.
  set (timer := match _ with Some _ => _ | None => _ end).
  refine (ends_bind _ _ _ _ _).
  - unfold execute_simple_inner. apply ends_bind; [done|]. intros [] c1 [= <-].
    apply ends_bind; [apply answer_loop_ends; unfold left; lia|].
    intros [a|] c2 _; [|done]. apply ends_bind; [apply finish_ends|]. done.
  - intros [r|] c1 _; done.
Qed.

Lemma authenticate_ends nanos req sc c : ends (authenticate nanos req sc) c.
Proof.
  unfold ends, authenticate. destruct (credentials _) as [u p].
  destruct req; try done.
  - by destruct (bool_decide _).
  - destruct sc as [client|]; [|done]. unfold net, mbind, CM_bind, c_result.
    by destruct (process_challenge _ _ _) as [[]|].
  - destruct sc as [client|]; [|done]. unfold net, mbind, CM_bind, c_result.
    by destruct (verify_server_final _ _).
Qed.

Lemma authenticate_reads nanos req sc c x c' : authenticate nanos req sc c = (Ok x, c') → reads c' = reads c.
Proof.
  unfold authenticate. destruct (credentials _) as [u p].
  destruct req; try (by intros [= <- <-]); try done.
  - destruct (bool_decide _); [|done]. by intros [= <- <-].
  - destruct sc as [client|]; [|done]. unfold net, mbind, CM_bind, c_result.
    destruct (process_challenge _ _ _) as [[]|]; [|done]. by intros [= <- <-].
  - destruct sc as [client|]; [|done]. unfold net, mbind, CM_bind, c_result.
    destruct (verify_server_final _ _); [|done]. by intros [= <- <-].
Qed.

Lemma handshake_loop_ends fuel clock sc c : (left c < fuel)%nat → ends (handshake_loop fuel clock sc) c.
Proof.
  revert sc c. induction fuel as [|fuel IH]; intros sc c Hf; [lia|]. cbn [handshake_loop].
  apply ends_bind; [apply ends_recv|]. intros m c' Hm%recv_shorter.
  destruct m; try done; try (apply IH; lia).
  all: apply ends_bind; [done || apply authenticate_ends|].
  - intros sc' c'' E%authenticate_reads. apply IH. unfold left in *. rewrite E. lia.
  - intros x c'' [= <- <-]. apply IH. change (left c' < fuel)%nat. lia.
  - intros x c'' [= <- <-]. apply IH. change (left c' < fuel)%nat. lia.
Qed.

Lemma connect_ends late tcp clock t u : connect late tcp clock t u ≠ Err OutOfFuel.
Proof.
  unfold connect. destruct (decide _); [done|]. destruct late; [done|].
  unfold connect_raw. destruct tcp as [stream|]; [|done]. cbv zeta.
  set (c := mkConn _ _ _ _ _ _ _ _ _).
  assert (ends (handshake clock;; if wants_age u then init_age t else mret tt) c) as He.
  { apply ends_bind.
    - unfold handshake. unfold ends. cbv beta zeta.
      refine (ends_bind _ _ _ _ _); [done|]. intros [] c1 [= <-]. apply handshake_loop_ends. unfold left. lia.
    - intros [] c1 _. destruct (wants_age u); [|done]. unfold ends, init_age.
      destruct (is_age_initialized c1); [done|].
      by refine (ends_bind _ _ _ _ _); [apply execute_simple_ends|]. }
  unfold ends in He. match goal with |- context [match ?r with _ => _ end] => destruct r as [[x|e] c'] end;
    [done|]. cbn in He. congruence.
Qed.

(** Every query and every attempt to connect ends: whatever the server sends and whenever
    the timers fire, the loops over its messages stop, with a result or an error, having read
    no more messages than the socket holds. *)
Theorem operations_end :
  (∀ t q c, (execute_simple t q c).1 ≠ Err OutOfFuel) ∧
  (∀ late tcp clock t u, connect late tcp clock t u ≠ Err OutOfFuel).
Proof. split; [apply execute_simple_ends|apply connect_ends]. Qed.
End ends.

(** ** What an answer says, read off its messages *)

Definition is_ready (m : BackendMessage) : bool := match m with ReadyForQuery _ => true | _ => false end.
Definition columns_in (m : BackendMessage) : option (list string) :=
  match m with RowDescription fields => Some (fd_name <$> fields) | _ => None end.
Definition row_in (m : BackendMessage) : option row := match m with DataRow vals => Some (text_row vals) | _ => None end.
Definition tag_in (m : BackendMessage) : option string := match m with CommandComplete tag => Some tag | _ => None end.
Definition error_in (m : BackendMessage) : option NetError :=
  match m with ErrorResponse d => Some (ProtocolError (format_error d)) | _ => None end.
Definition parameter_in (m : BackendMessage) : option (string * string) :=
  match m with ParameterStatus n v => Some (n, v) | _ => None end.

Definition latest {A} (old : option A) (new : option A) : option A := or_else new old.

Section answers.
Context `{CharClass} `{Resp.F64Text}.

Definition count_tag (s : QuerySummary) (tag : string) : QuerySummary := parse_command_tag tag s.

(** The columns and the error that came last, all the rows, all the counts. *)
Definition answer_of (body : list BackendMessage) : Answer :=
  mkAnswer (default [] (last (omap columns_in body))) (omap row_in body)
    (foldl count_tag QuerySummary_empty (omap tag_in body)) (last (omap error_in body)).

Definition add_parameters (body : list BackendMessage) (ps : gmap string string) : gmap string string :=
  foldl (λ m nv, <[nv.1 := nv.2]> m) ps (omap parameter_in body).

(** ** The loop, message by message *)
Definition absorb (a : Answer) (m : BackendMessage) : Answer :=
  mkAnswer (default (a_columns a) (columns_in m)) (a_rows a ++ option_list (row_in m))
    (default (a_summary a) (count_tag (a_summary a) <$> tag_in m)) (or_else (error_in m) (query_error a)).
Definition note (m : BackendMessage) (c : PostgresConnection) : PostgresConnection :=
  match m with ParameterStatus n v => set_parameter n v c | _ => c end.

Lemma absorb_body body a :
  foldl absorb a body
  = mkAnswer (default (a_columns a) (last (omap columns_in body))) (a_rows a ++ omap row_in body)
      (foldl count_tag (a_summary a) (omap tag_in body)) (or_else (last (omap error_in body)) (query_error a)).
Proof.
  induction body as [|m body IH] using rev_ind; [by destruct a; cbn; rewrite app_nil_r|].
  rewrite foldl_app, IH, !omap_app. cbn [foldl]. unfold absorb; simpl a_columns; simpl a_rows; simpl a_summary; simpl query_error.
  rewrite !foldl_app, app_assoc, !last_app. by destruct m.
Qed.

Lemma absorb_answer body : foldl absorb Answer_new body = answer_of body.
Proof. rewrite absorb_body. unfold answer_of. cbn. by destruct (last (omap error_in body)). Qed.

Definition timer_left (timer : option nat) (n : nat) : option nat := (λ k, (k - n)%nat) <$> timer.
Definition covers (timer : option nat) (n : nat) : Prop := match timer with Some k => (n <= k)%nat | None => True end.

Lemma answer_loop_step fuel timer a c m c1 :
  covers timer 1 → recv c = (Ok m, c1) → is_ready m = false →
  answer_loop (S fuel) timer a c = answer_loop fuel (timer_left timer 1) (absorb a m) (note m c1).
Proof.
  intros Ht Hr Hm. assert (Nat.pred <$> timer = timer_left timer 1) as Hp
    by (destruct timer as [k|]; [cbn; f_equal; lia|done]).
  assert (answer_loop (S fuel) timer a c
          = (msg ← recv; match msg with
             | RowDescription fields => answer_loop fuel (Nat.pred <$> timer)
                 (mkAnswer (fd_name <$> fields) (a_rows a) (a_summary a) (query_error a))
             | DataRow vals => answer_loop fuel (Nat.pred <$> timer)
                 (mkAnswer (a_columns a) (a_rows a ++ [text_row vals]) (a_summary a) (query_error a))
             | CommandComplete tag => answer_loop fuel (Nat.pred <$> timer)
                 (mkAnswer (a_columns a) (a_rows a) (parse_command_tag tag (a_summary a)) (query_error a))
             | ReadyForQuery status => update (set_status status);; mret (Some a)
             | ErrorResponse diag => answer_loop fuel (Nat.pred <$> timer)
                 (mkAnswer (a_columns a) (a_rows a) (a_summary a) (Some (ProtocolError (format_error diag))))
             | ParameterStatus name value =>
                 update (set_parameter name value);; answer_loop fuel (Nat.pred <$> timer) a
             | _ => answer_loop fuel (Nat.pred <$> timer) a
             end) c) as -> by (destruct timer as [[|k]|]; [cbn in Ht; lia|done|done]).
  rewrite Hp. unfold mbind, CM_bind. rewrite Hr. unfold absorb.
  destruct a as [cols rs sm err]. destruct m; try discriminate Hm; cbn; rewrite ?app_nil_r; reflexivity.
Qed.

Lemma recv_message m tail chunks c :
  reads c = socket_of chunks → sendable m = true → nonempty chunks → concat chunks = server_frame m ++ tail →
  ∃ chunks', recv c = (Ok m, set_reads (socket_of chunks') c) ∧ concat chunks' = tail ∧ nonempty chunks'.
Proof.
  intros Hr Hok Hne Hs. destruct (read_message_spec m tail chunks Hok Hne Hs) as (c1 & E & Ht & Hn).
  exists c1. split; [|done]. unfold recv. by rewrite Hr, E.
Qed.

Lemma note_reads r m c : note m (set_reads r c) = set_reads r (note m c).
Proof. by destruct m. Qed.
Lemma notes_reads r ms c : foldl (λ c m, note m c) (set_reads r c) ms = set_reads r (foldl (λ c m, note m c) c ms).
Proof. revert c. induction ms as [|m ms IH]; intros c; [done|]. cbn [foldl]. by rewrite note_reads, IH. Qed.

(** [ms] are read: the loop goes on behind them, with what they said. *)
Lemma answer_loop_reads ms fuel timer a c chunks tail :
  reads c = socket_of chunks → nonempty chunks → concat chunks = flat_map server_frame ms ++ tail →
  forallb sendable ms = true → forallb (negb ∘ is_ready) ms = true → covers timer (length ms) →
  ∃ chunks', concat chunks' = tail ∧ nonempty chunks' ∧
    answer_loop (length ms + fuel) timer a c
    = answer_loop fuel (timer_left timer (length ms)) (foldl absorb a ms)
        (set_reads (socket_of chunks') (foldl (λ c m, note m c) c ms)).
Proof.
  revert timer a c chunks. induction ms as [|m ms IH]; intros timer a c chunks Hr Hne Hs Hok Hnr Ht.
  - exists chunks. split; [done|]. split; [done|].
    assert (timer_left timer 0 = timer) as Ht0 by (destruct timer as [k|]; [cbn; f_equal; lia|done]).
    cbn [length foldl plus]. rewrite Ht0. f_equal. rewrite <- Hr. by destruct c.
  - cbn [forallb flat_map length] in *. unfold compose in Hnr. split_ok. rewrite <- app_assoc in Hs.
    destruct (recv_message m _ chunks c Hr ltac:(done) Hne Hs) as (c1 & E & S1 & N1).
    destruct (IH (timer_left timer 1) (absorb a m) (note m (set_reads (socket_of c1) c)) c1)
      as (c2 & S2 & N2 & E2); try done.
    { by destruct m. }
    { destruct timer as [k|]; [cbn in *; lia|done]. }
    exists c2. split; [done|]. split; [done|]. cbn [plus foldl].
    erewrite answer_loop_step; [|destruct timer; cbn in *; (done || lia)|exact E|by apply negb_true_iff].
    rewrite E2. f_equal; [destruct timer as [k|]; [cbn; f_equal; lia|done]|].
    rewrite note_reads, notes_reads. by destruct (foldl _ _ ms).
Qed.

(** ** One query *)

Lemma notes_fields ms c :
  let c' := foldl (λ c m, note m c) c ms in
  reads c' = reads c ∧ sent c' = sent c ∧ transaction_status c' = transaction_status c ∧
  pg_query_timeout c' = pg_query_timeout c ∧ server_parameters c' = add_parameters ms (server_parameters c).
Proof.
  revert c. induction ms as [|m ms IH]; intros c; [done|]. cbn [foldl].
  destruct (IH (note m c)) as (-> & -> & -> & -> & ->). by destruct m.
Qed.

Lemma frames_length ms : (length ms <= length (flat_map server_frame ms))%nat.
Proof.
  induction ms as [|m ms IH]; [done|]. cbn [flat_map length]. rewrite length_app.
  unfold server_frame at 1. destruct (backend_encode m) as [t p]. cbn [length]. lia.
Qed.

Definition answer_ok (body : list BackendMessage) : Prop :=
  forallb sendable body = true ∧ forallb (negb ∘ is_ready) body = true.

(** What the client makes of an answer and the connection it leaves. *)
Definition after_answer (q : string) (body : list BackendMessage) (status : TransactionStatus) (r : socket)
    (c : PostgresConnection) : PostgresConnection :=
  set_status status (set_reads r (foldl (λ c m, note m c) (set_sent (sent c ++ encode (Query q)) c) body)).

Definition in_time (timeout : option Z) (t : Timing) (n : nat) : Prop :=
  match timeout with Some _ => covers (fst <$> expires t) n | None => True end.

Lemma execute_answered t q c body status chunks tail :
  reads c = socket_of chunks → nonempty chunks →
  concat chunks = flat_map server_frame (body ++ [ReadyForQuery status]) ++ tail →
  answer_ok body → in_time (pg_query_timeout c) t (S (length body)) →
  ∃ chunks', concat chunks' = tail ∧ nonempty chunks' ∧
    execute_simple t q c = (finish (elapsed_ms t) (answer_of body), after_answer q body status (socket_of chunks') c).
Proof.
  intros Hr Hne Hs [Hok Hnr] Ht. rewrite flat_map_app, <- app_assoc in Hs.
  set (c0 := set_sent (sent c ++ encode (Query q)) c).
  set (timer := match pg_query_timeout c with Some _ => fst <$> expires t | None => None end).
  assert (covers timer (S (length body))) as Hc
    by (unfold timer, in_time in *; destruct (pg_query_timeout c); done).
  assert (∃ fuel, S (left c0) = (length body + S fuel)%nat) as [fuel Hf].
  { exists (left c0 - length body)%nat. pose proof (frames_length body).
    enough (length body <= left c0)%nat by lia. unfold left. change (reads c0) with (reads c).
    rewrite Hr, socket_of_bytes, Hs, length_app. lia. }
  destruct (answer_loop_reads body (S fuel) timer Answer_new c0 chunks _ Hr Hne Hs Hok Hnr)
    as (c1 & S1 & N1 & E1); [destruct timer; cbn in *; (done || lia)|].
  cbn [flat_map] in S1. rewrite app_nil_r in S1.
  set (c2 := set_reads (socket_of c1) (foldl (λ c m, note m c) c0 body)) in *.
  destruct (recv_message (ReadyForQuery status) tail c1 c2 eq_refl) as (c3 & E3 & S3 & N3); [by destruct status|done|done|].
  exists c3. split; [done|]. split; [done|].
  assert (answer_loop (S fuel) (timer_left timer (length body)) (answer_of body) c2
          = (Ok (Some (answer_of body)), set_status status (set_reads (socket_of c3) c2))) as E2.
  { destruct timer as [k|]; cbn [timer_left fmap option_fmap option_map].
    - cbn in Hc. replace (k - length body)%nat with (S (k - length body - 1)) by lia.
      cbn [answer_loop]. unfold mbind, CM_bind. by rewrite E3.
    - cbn [answer_loop]. unfold mbind, CM_bind. by rewrite E3. }
  rewrite absorb_answer, E2 in E1. clear E2 E3.
  unfold execute_simple, execute_simple_inner. cbv zeta. fold timer.
  unfold mbind, CM_bind, send, update, write_frontend_message. fold c0.
  unfold with_fuel. fold (left c0). rewrite Hf, E1. unfold c_result.
  destruct (finish (elapsed_ms t) (answer_of body)); done.
Qed.

(** ** A session *)

(** A query, what surrounds it, and the server's answer: its messages and the last status. *)
Record Exchange := mkExchange { x_query : string; x_time : Timing; x_body : list BackendMessage; x_status : TransactionStatus }.

Definition x_bytes (x : Exchange) : list byte := flat_map server_frame (x_body x ++ [ReadyForQuery (x_status x)]).
Definition x_ok (timeout : option Z) (x : Exchange) : Prop :=
  answer_ok (x_body x) ∧ in_time timeout (x_time x) (S (length (x_body x))).
Definition x_result (x : Exchange) : result fault QueryResult := finish (elapsed_ms (x_time x)) (answer_of (x_body x)).

(** The queries of a caller, one after another, whatever comes of them. *)
Fixpoint execute_all (xs : list (string * Timing)) (c : PostgresConnection) :
    list (result fault QueryResult) * PostgresConnection :=
  match xs with
  | [] => ([], c)
  | (q, t) :: xs =>
      let '(r, c) := execute_simple t q c in
      let '(rs, c) := execute_all xs c in (r :: rs, c)
  end.

Lemma after_answer_fields q body status r c :
  let c' := after_answer q body status r c in
  reads c' = r ∧ sent c' = sent c ++ encode (Query q) ∧ transaction_status c' = status ∧
  pg_query_timeout c' = pg_query_timeout c ∧ server_parameters c' = add_parameters body (server_parameters c).
Proof.
  unfold after_answer. destruct (notes_fields body (set_sent (sent c ++ encode (Query q)) c)) as (_ & Es & _ & Et & Ep).
  by split_and!.
Qed.

(** C16: On a connection whose timers do not fire, answers stay with their queries.  However
    many queries are executed, and however the network cuts the server's bytes: the [k]-th query
    returns what the server's [k]-th answer says (the columns described last, all the rows as
    texts, the counters of the command tags, or the error reported last), after an error as after
    a success; what is written is exactly the queries; the transaction status is the server's; the
    server's parameters are those it announced; and nothing behind the last answer is read. *)
Theorem answers_stay_paired xs c chunks tail :
  Forall (x_ok (pg_query_timeout c)) xs → reads c = socket_of chunks → nonempty chunks →
  concat chunks = flat_map x_bytes xs ++ tail →
  ∃ c', execute_all (map (λ x, (x_query x, x_time x)) xs) c = (map x_result xs, c') ∧
    socket_bytes (reads c') = tail ∧
    sent c' = sent c ++ flat_map (λ x, encode (Query (x_query x))) xs ∧
    transaction_status c' = default (transaction_status c) (x_status <$> last xs) ∧
    server_parameters c' = add_parameters (flat_map x_body xs) (server_parameters c).
Proof.
  revert c chunks. induction xs as [|x xs IH]; intros c chunks Hok Hr Hne Hs.
  { exists c. cbn. rewrite Hr, socket_of_bytes, app_nil_r. by split_and!. }
  apply Forall_cons in Hok as [[Hx Ht] Hok]. cbn [flat_map] in Hs. rewrite <- app_assoc in Hs.
  destruct (execute_answered (x_time x) (x_query x) c _ _ chunks _ Hr Hne Hs Hx Ht) as (c1 & S1 & N1 & E1).
  set (c2 := after_answer _ _ _ _ _) in *.
  destruct (after_answer_fields (x_query x) (x_body x) (x_status x) (socket_of c1) c) as (F1 & F2 & F3 & F4 & F5).
  fold c2 in F1, F2, F3, F4, F5. rewrite <- F4 in Hok.
  destruct (IH c2 c1 Hok F1 N1 S1) as (c' & E & R1 & R2 & R3 & R4).
  exists c'. cbn [map execute_all flat_map]. rewrite E1, E. split; [done|]. split; [done|].
  rewrite R2, F2, <- app_assoc, R3, F3, R4, F5. split; [done|]. split.
  - rewrite last_cons. by destruct (last xs).
  - unfold add_parameters. by rewrite omap_app, foldl_app.
Qed.

Lemma skip_none c : skip_bytes 0 c = c.
Proof.
  unfold skip_bytes, read_bytes. assert (∀ rd, read_exact "" 0 rd = Ok ([], rd)) as -> by (by intros []).
  by destruct c.
Qed.

(** A timer that fires leaves the connection one answer behind.  When the answer to a query
    arrives after its timer (here between two messages), the query fails, the connection is not
    valid; but it can be used: the next query, for instance the [ROLLBACK] of the transaction it
    ran in or of [reset], returns the rest of the late answer as its own, takes over the status
    that answer reports, and leaves its own answer to the query that follows.  When that status
    is not a failed transaction the connection counts as valid again. *)
Theorem late_answer_is_misplaced c q1 t1 k q2 t2 body1 status1 rest chunks :
  is_Some (pg_query_timeout c) → expires t1 = Some (k, 0%nat) → (k <= length body1)%nat →
  answer_ok body1 → in_time (pg_query_timeout c) t2 (S (length (drop k body1))) →
  reads c = socket_of chunks → nonempty chunks →
  concat chunks = flat_map server_frame (body1 ++ [ReadyForQuery status1]) ++ rest →
  ∃ msg c1 c2,
    execute_simple t1 q1 c = (Err (Raise (Timeout msg)), c1) ∧ is_valid c1 = false ∧
    execute_simple t2 q2 c1 = (finish (elapsed_ms t2) (answer_of (drop k body1)), c2) ∧
    socket_bytes (reads c2) = rest ∧ is_valid c2 = bool_decide (status1 ≠ FailedTransaction).
Proof.
  intros [d Hd] Ht1 Hk [Hok Hnr] Ht2 Hr Hne Hs.
  rewrite <- (take_drop k body1), <- app_assoc, flat_map_app, <- app_assoc in Hs.
  rewrite <- (take_drop k body1), forallb_app in Hok. rewrite <- (take_drop k body1), forallb_app in Hnr.
  apply andb_true_iff in Hok as [Hok1 Hok2]. apply andb_true_iff in Hnr as [Hnr1 Hnr2].
  set (c0 := set_sent (sent c ++ encode (Query q1)) c).
  assert (length (take k body1) = k) as Hlen by (rewrite length_take; lia).
  assert (∃ fuel, S (left c0) = (length (take k body1) + fuel)%nat) as [fuel Hf].
  { exists (S (left c0) - length (take k body1))%nat. pose proof (frames_length (take k body1)).
    enough (length (take k body1) <= left c0)%nat by lia. unfold left. change (reads c0) with (reads c).
    rewrite Hr, socket_of_bytes, Hs, length_app. lia. }
  destruct (answer_loop_reads (take k body1) fuel (Some k) Answer_new c0 chunks _ Hr Hne Hs Hok1 Hnr1)
    as (ch & S1 & N1 & E1); [cbn; lia|].
  set (c1 := set_reads (socket_of ch) _) in E1. rewrite Hlen in E1.
  replace (timer_left (Some k) k) with (Some 0%nat) in E1 by (cbn; f_equal; lia).
  assert (answer_loop fuel (Some 0%nat) (foldl absorb Answer_new (take k body1)) c1 = (Ok None, c1)) as E0
    by by destruct fuel.
  rewrite E0 in E1. clear E0. rewrite Hlen in Hf.
  set (c1' := set_status FailedTransaction c1).
  assert (pg_query_timeout c1' = pg_query_timeout c) as Hq
    by (unfold c1', c1; cbn; by rewrite (proj1 (proj2 (proj2 (proj2 (notes_fields (take k body1) c0)))))).
  rewrite <- Hq in Ht2.
  destruct (execute_answered t2 q2 c1' (drop k body1) status1 ch rest eq_refl N1 S1) as (ch2 & S2 & N2 & E2);
    [done|done|].
  eexists _, c1', _. split; [|split; [done|split; [exact E2|split]]].
  - unfold execute_simple, execute_simple_inner. rewrite Hd, Ht1. cbn [fmap option_fmap option_map fst].
    unfold mbind, CM_bind, send, update, write_frontend_message. fold c0.
    unfold with_fuel. fold (left c0). rewrite Hf, E1.
    replace c1' with (set_status FailedTransaction (skip_bytes 0 c1)) by (by rewrite skip_none). reflexivity.
  - destruct (after_answer_fields q2 (drop k body1) status1 (socket_of ch2) c1') as (-> & _).
    by rewrite socket_of_bytes.
  - unfold is_valid. by destruct (after_answer_fields q2 (drop k body1) status1 (socket_of ch2) c1') as (_ & _ & -> & _).
Qed.
End answers.

(** ** Concrete sessions *)
#[local] Existing Instance ascii_CharClass.
#[local] Existing Instance Resp.bits_text.

Definition here : ParsedUri := mkUri Postgres "localhost" (Some 5432) NoAuth None Disabled ∅ None "postgres://localhost".
Definition conn_reading (chunks : list (list byte)) : PostgresConnection :=
  mkConn (socket_of chunks) [] here ∅ 0 0 Idle false (Some (from_secs 30)).
Definition prompt : Timing := mkTiming 7 None.
Definition int_field (name : string) : FieldDescription := mkField name 0 0 23 4 (-1) 0.

Definition first_exchange : Exchange :=
  mkExchange "INSERT INTO t VALUES (1), (2);" prompt
    [ParameterStatus "TimeZone" "UTC"; CommandComplete "INSERT 0 2"] Idle.
Definition bad_exchange : Exchange :=
  mkExchange "SELECT;" prompt [ErrorResponse (mkDiagnostic "ERROR" "42601" "syntax error" None None None None None None)] Idle.
Definition select_exchange : Exchange :=
  mkExchange "SELECT n FROM t;" prompt
    [RowDescription [int_field "n"]; DataRow [Some (as_bytes "1")]; DataRow [Some (as_bytes "2")];
     CommandComplete "SELECT 2"] Idle.
Definition session : list Exchange := [first_exchange; bad_exchange; select_exchange].
Definition session_bytes : list byte := flat_map x_bytes session.

Lemma answers_stay_paired_witness :
  (∃ c', execute_all (map (λ x, (x_query x, x_time x)) session)
           (conn_reading [take 11 session_bytes; drop 11 session_bytes])
         = (map x_result session, c') ∧ socket_bytes (reads c') = []) ∧
  map x_result session
  = [Ok (mkResult [] [] (mkSummary 2 0 0 0 0 0 0 0 0 7));
     Err (Raise (ProtocolError "ERROR: syntax error (SQLSTATE 42601)"));
     Ok (mkResult ["n"] [mkBatch [("n", Int64)] [Int64Array [Some 1; Some 2]]] (mkSummary 0 0 0 0 0 0 0 0 0 7))].
Proof.
  split; [|vm_compute; reflexivity].
  destruct (answers_stay_paired session (conn_reading [take 11 session_bytes; drop 11 session_bytes])
              [take 11 session_bytes; drop 11 session_bytes] []) as (c' & E & R & _).
  - repeat constructor.
  - reflexivity.
  - repeat constructor; discriminate.
  - vm_compute. reflexivity.
  - exists c'. split; [exact E|exact R].
Defined.

(** A query times out after the description of its rows; its answer comes after all. *)
Definition late_bytes : list byte := x_bytes select_exchange ++ x_bytes first_exchange.

Lemma late_answer_is_misplaced_witness :
  ∃ msg c1 c2,
    execute_simple (mkTiming 0 (Some (1%nat, 0%nat))) "SELECT n FROM t;" (conn_reading [late_bytes])
    = (Err (Raise (Timeout msg)), c1) ∧ is_valid c1 = false ∧
    execute_simple prompt "INSERT INTO t VALUES (1), (2);" c1
    = (finish 7 (answer_of (drop 1 (x_body select_exchange))), c2) ∧
    socket_bytes (reads c2) = x_bytes first_exchange ∧ is_valid c2 = true.
Proof.
  apply (late_answer_is_misplaced (conn_reading [late_bytes]) "SELECT n FROM t;" (mkTiming 0 (Some (1%nat, 0%nat))) 1
           "INSERT INTO t VALUES (1), (2);" prompt (x_body select_exchange) Idle (x_bytes first_exchange) [late_bytes]).
  - eexists; reflexivity.
  - reflexivity.
  - cbn. lia.
  - split; reflexivity.
  - exact I.
  - reflexivity.
  - repeat constructor; discriminate.
  - vm_compute. reflexivity.
Defined.

(** The same within a transaction: the caller rolls back, the pool resets the connection for it
    reports a transaction, and it is valid and idle again, with one answer still to come: the
    next borrower's query returns what the server answered to the reset. *)
Definition done_with (tag : string) (status : TransactionStatus) : list byte :=
  flat_map server_frame [CommandComplete tag; ReadyForQuery status].

Example stale_answer_reaches_the_next_borrower :
  let late := mkTiming 0 (Some (0%nat, 0%nat)) in
  let c := conn_reading [done_with "BEGIN" InTransaction ++ done_with "UPDATE 1" InTransaction
                         ++ done_with "ROLLBACK" Idle ++ done_with "ROLLBACK" Idle
                         ++ x_bytes select_exchange] in
  let c1 := (execute_simple prompt "BEGIN;" c).2 in
  let c2 := (execute_simple late "UPDATE t SET n = 3;" c1).2 in
  let c3 := (rollback prompt (mkTransaction true QuerySummary_empty) c2).2 in
  let c4 := (reset prompt c3).2 in
  is_valid c2 = false ∧ is_in_transaction c3 = true ∧ (is_valid c4, is_in_transaction c4) = (true, false) ∧
  (execute_simple prompt "SELECT n FROM t;" c4).1 = Ok (mkResult [] [] (mkSummary 0 0 0 0 0 0 0 0 0 7)).
Proof. vm_compute. repeat split. Qed.

(** A transaction that failed is rolled back by the server when it is told to commit; the
    client reports the commit as done. *)
Example failed_commit_is_success :
  let tx := mkTransaction true (mkSummary 5 0 0 0 0 0 0 0 0 9) in
  (commit prompt tx (set_status FailedTransaction (conn_reading [done_with "ROLLBACK" Idle]))).1
  = Ok (summary_accumulator tx).
Proof. vm_compute. reflexivity. Qed.
