(* ===== verification/PgHandshake.v ===== *)
(** * The handshake of the PostgreSQL client

    The connection, the messages, the socket and SCRAM-SHA-256 put together: against
    PostgreSQL's server the handshake succeeds, and what the client insists on, and does not. *)
From S2P Require Import Prelude Bytes F64 Errors Text BoltStream PgMessages PgWire PgStream PgRows.
From S2P Require Import Engine Uri UriSafe PgAuth PgAuthSafe PgConnection PgConnectionSafe.

Open Scope Z_scope.
Open Scope string_scope.
Open Scope list_scope.

(** ** The messages between authentication and the first query *)
Definition is_greeting (m : BackendMessage) : bool :=
  match m with ParameterStatus _ _ | BackendKeyData _ _ | NoticeResponse _ => true | _ => false end.
Definition greet (c : PostgresConnection) (m : BackendMessage) : PostgresConnection :=
  match m with
  | ParameterStatus n v => set_parameter n v c
  | BackendKeyData pid key => set_key_data pid key c
  | _ => c
  end.

Section handshake.
Context `{Crypto} `{SaslPrep}.

Lemma greetings_read ms status : ∀ fuel clock sc c chunks tail,
  reads c = socket_of chunks → nonempty chunks →
  concat chunks = flat_map server_frame (ms ++ [ReadyForQuery status]) ++ tail →
  forallb sendable ms = true → forallb is_greeting ms = true →
  ∃ chunks', concat chunks' = tail ∧ nonempty chunks' ∧
    handshake_loop (length ms + S fuel) clock sc c
    = (Ok tt, set_status status (set_reads (socket_of chunks') (foldl greet c ms))).
Proof.
  induction ms as [|m ms IH]; intros fuel clock sc c chunks tail Hr Hne Hs Hok Hg.
  - cbn [flat_map app] in Hs. rewrite app_nil_r in Hs.
    destruct (recv_message (ReadyForQuery status) tail chunks c Hr) as (c1 & E & S1 & N1); [by destruct status|done|done|].
    exists c1. split; [done|]. split; [done|]. cbn [length plus handshake_loop]. unfold mbind, CM_bind. by rewrite E.
  - cbn [forallb flat_map app] in *. split_ok. rewrite <- app_assoc in Hs.
    destruct (recv_message m _ chunks c Hr ltac:(done) Hne Hs) as (c1 & E & S1 & N1).
    destruct (IH fuel clock sc (greet (set_reads (socket_of c1) c) m) c1 tail) as (c2 & S2 & N2 & E2); try done.
    { by destruct m. }
    exists c2. split; [done|]. split; [done|]. cbn [length plus handshake_loop foldl].
    assert (∀ r d, foldl greet (greet (set_reads r d) m) ms = set_reads r (foldl greet (greet d m) ms)) as Hgr.
    { intros r d. assert (greet (set_reads r d) m = set_reads r (greet d m)) as -> by (by destruct m).
      generalize (greet d m). clear. induction ms as [|m ms IH]; intros d; [done|]. cbn [foldl].
      rewrite <- IH. f_equal. by destruct m. }
    rewrite Hgr in E2. unfold mbind, CM_bind. rewrite E. destruct m; try done; exact E2.
Qed.

Lemma authentication_read req ms sc' fuel clock sc c c' chunks tail :
  reads c = socket_of chunks → nonempty chunks →
  concat chunks = flat_map server_frame (Authentication req :: ms) ++ tail →
  sendable (Authentication req) = true →
  (∀ chunks', concat chunks' = flat_map server_frame ms ++ tail → nonempty chunks' →
     authenticate (clock fuel) req sc (set_reads (socket_of chunks') c)
     = (Ok sc', set_reads (socket_of chunks') c')) →
  ∃ chunks', concat chunks' = flat_map server_frame ms ++ tail ∧ nonempty chunks' ∧
    handshake_loop (S fuel) clock sc c = handshake_loop fuel clock sc' (set_reads (socket_of chunks') c').
Proof.
  intros Hr Hne Hs Hok Ha. cbn [flat_map] in Hs. rewrite <- app_assoc in Hs.
  destruct (recv_message (Authentication req) _ chunks c Hr Hok Hne Hs) as (c1 & E & S1 & N1).
  exists c1. split; [done|]. split; [done|]. cbn [handshake_loop]. unfold mbind, CM_bind.
  rewrite E. by rewrite (Ha c1 S1 N1).
Qed.

Lemma greet_fields ms c :
  let c' := foldl greet c ms in
  reads c' = reads c ∧ sent c' = sent c ∧ server_parameters c' = add_parameters ms (server_parameters c).
Proof.
  revert c. induction ms as [|m ms IH]; intros c; [done|]. cbn [foldl].
  destruct (IH (greet c m)) as (-> & -> & ->). by destruct m.
Qed.

Lemma handshake_fuel (ms : list BackendMessage) c chunks tail :
  reads c = socket_of chunks → concat chunks = flat_map server_frame ms ++ tail →
  ∃ fuel, S (left c) = (length ms + fuel)%nat ∧ (0 < fuel)%nat.
Proof.
  intros Hr Hs. exists (S (left c) - length ms)%nat. pose proof (frames_length ms).
  enough (length ms <= left c)%nat by lia. unfold left. rewrite Hr, socket_of_bytes, Hs, length_app. lia.
Qed.

(** What the server sends last is the signature the client expects. *)
Lemma exchange_agrees nanos password salt n snonce bare nonce first final client' v :
  prepared (as_bytes password) = as_bytes password → 0 <= n <= U32_MAX → forallb printable snonce = true →
  server_first (enroll password salt n) snonce (client_first_message (ScramClient_new nanos)) = Some (bare, nonce, first) →
  process_challenge first password (ScramClient_new nanos) = Ok (final, client') →
  server_final (enroll password salt n) bare nonce first final = Some v →
  ∃ signature, v = as_bytes "v=" ++ as_bytes (base64_encode signature) ∧ server_signature client' = Some signature.
Proof.
  set (client := ScramClient_new nanos). intros Hprep Hi Hsn Hf Hp Hv.
  assert (forallb printable (nonce_with client snonce) = true) as Hn
    by (unfold nonce_with; rewrite forallb_app, Hsn, andb_true_r; apply new_nonce_printable).
  pose proof (server_first_of_client (enroll password salt n) snonce nanos) as Hf'. cbv zeta in Hf'.
  fold client in Hf'. rewrite Hf in Hf'. injection Hf' as -> -> ->.
  pose proof (eq_trans (eq_sym Hp) (process_challenge_ok password salt n _ _ client snonce
    (first_utf8 _ _ _ Hn Hi) (first_parses _ _ _ Hn Hi) eq_refl)) as Hq. cbv zeta in Hq.
  injection Hq as -> ->.
  pose proof (eq_trans (eq_sym Hv) (server_final_ok password salt n _ _ _ Hprep Hn)) as Hw. injection Hw as ->.
  eexists. by split.
Qed.

(** C31: Against a PostgreSQL server that knows the password, one that SASLprep leaves as it is
    (printable ASCII, for one), the handshake with SCRAM-SHA-256 succeeds, whatever the salt, the
    iteration count, the server's nonce, the other mechanisms it offers and the parameters it
    announces, and however the network cuts its messages: the client writes the startup message,
    its SCRAM identity and the proof the server accepts, and nothing else; it is left at the byte
    behind [ReadyForQuery], with the server's parameters and status.  The server is that of
    [scram_mutual]: it normalizes the password, as RFC 5802 asks, which the client does not. *)
Theorem handshake_with_scram nanos name password realm salt n snonce mechanisms
    bare nonce first final client' v c greeting status chunks tail :
  prepared (as_bytes password) = as_bytes password → 0 <= n <= U32_MAX →
  forallb printable snonce = true → "SCRAM-SHA-256" ∈ mechanisms →
  let client := ScramClient_new nanos in
  let cr := enroll password salt n in
  server_first cr snonce (client_first_message client) = Some (bare, nonce, first) →
  process_challenge first password client = Ok (final, client') →
  server_final cr bare nonce first final = Some v →
  auth (pg_uri c) = Basic name password realm → forallb is_greeting greeting = true →
  let msgs := map Authentication [SASL mechanisms; SASLContinue first; SASLFinal v; AuthOk]
              ++ greeting ++ [ReadyForQuery status] in
  forallb sendable msgs = true →
  reads c = socket_of chunks → nonempty chunks → concat chunks = flat_map server_frame msgs ++ tail →
  ∃ c', handshake (λ _, nanos) c = (Ok tt, c') ∧
    sent c' = sent c
      ++ startup_encode (StartupMessage_new name (Some (default "postgres" (database (pg_uri c)))))
      ++ encode (SASLInitialResponse "SCRAM-SHA-256" (Some (client_first_message client)))
      ++ encode (SASLResponse final) ∧
    socket_bytes (reads c') = tail ∧ transaction_status c' = status ∧
    server_parameters c' = add_parameters greeting (server_parameters c).
Proof.
  intros Hprep Hi Hsn Hm client cr Hf Hp Hv Ha Hg msgs Hok Hr Hne Hs.
  destruct (exchange_agrees nanos password salt n snonce bare nonce first final client' v Hprep Hi Hsn Hf Hp Hv)
    as (signature & -> & Hsig).
  subst msgs. cbn [map app forallb] in Hok, Hs. apply andb_true_iff in Hok as [Ok1 Hok]. apply andb_true_iff in Hok as [Ok2 Hok].
  apply andb_true_iff in Hok as [Ok3 Hok]. apply andb_true_iff in Hok as [Ok4 Hok].
  rewrite forallb_app in Hok. apply andb_true_iff in Hok as [Hok _].
  set (sp := startup_encode _).
  set (c0 := set_sent (sent c ++ sp) c).
  destruct (handshake_fuel _ c0 chunks tail Hr Hs) as (fuel & Hfuel & Hpos).
  cbn [length] in Hfuel. rewrite length_app in Hfuel. cbn [length] in Hfuel.
  destruct (authentication_read _ _ (Some client) (3 + (length greeting + S fuel)) (λ _, nanos) None c0
    (set_sent (sent c0 ++ encode (SASLInitialResponse "SCRAM-SHA-256" (Some (client_first_message client)))) c0)
    chunks tail Hr Hne Hs Ok1) as (ch1 & S1 & N1 & E1).
  { intros ch _ _. unfold authenticate. cbn [pg_uri set_reads c0 set_sent]. rewrite Ha. cbn [credentials].
    by rewrite bool_decide_eq_true_2. }
  set (c1 := set_sent _ c0) in *.
  destruct (authentication_read _ _ (Some client') (2 + (length greeting + S fuel)) (λ _, nanos) (Some client)
    (set_reads (socket_of ch1) c1)
    (set_sent (sent c1 ++ encode (SASLResponse final)) c1) ch1 tail eq_refl N1 S1 Ok2) as (ch2 & S2 & N2 & E2).
  { intros ch _ _. unfold authenticate. cbn [pg_uri set_reads c1 c0 set_sent]. rewrite Ha. cbn [credentials].
    unfold net. rewrite Hp. reflexivity. }
  set (c2 := set_sent _ c1) in *.
  destruct (authentication_read _ _ (Some client') (1 + (length greeting + S fuel)) (λ _, nanos) (Some client')
    (set_reads (socket_of ch2) c2) c2 ch2 tail eq_refl N2 S2 Ok3) as (ch3 & S3 & N3 & E3).
  { intros ch _ _. unfold authenticate. cbn [pg_uri set_reads c2 c1 c0 set_sent]. rewrite Ha. cbn [credentials].
    unfold net. by rewrite (signature_accepted signature client' Hsig). }
  destruct (authentication_read _ _ (Some client') (length greeting + S fuel) (λ _, nanos) (Some client')
    (set_reads (socket_of ch3) c2) c2 ch3 tail eq_refl N3 S3 Ok4) as (ch4 & S4 & N4 & E4).
  { intros ch _ _. unfold authenticate. by destruct (credentials _). }
  destruct (greetings_read greeting status fuel (λ _, nanos) (Some client') (set_reads (socket_of ch4) c2) ch4 tail
    eq_refl N4 S4 Hok Hg) as (ch5 & S5 & N5 & E5).
  eexists. split.
  - unfold handshake. rewrite Ha. cbn [credentials fst]. unfold mbind, CM_bind, send_startup, update.
    unfold write_startup_message. fold sp c0. unfold with_fuel. fold (left c0).
    replace (S (left c0)) with (4 + (length greeting + S fuel))%nat by lia.
    exact (eq_trans E1 (eq_trans E2 (eq_trans E3 (eq_trans E4 E5)))).
  - destruct (greet_fields greeting (set_reads (socket_of ch4) c2)) as (_ & Es & Ep).
    cbn [sent set_status set_reads reads transaction_status server_parameters].
    rewrite Es, Ep, socket_of_bytes. split; [|by split_and!].
    cbn [sent set_reads c2 c1 c0 set_sent]. by rewrite <- !app_assoc.
Qed.
End handshake.

(** ** Concrete handshakes *)
#[local] Existing Instance toy_crypto.
#[local] Existing Instance toy_saslprep.
#[local] Existing Instance ascii_CharClass.
#[local] Existing Instance ascii_LowerCase.
#[local] Existing Instance Resp.bits_text.

Definition user_conn (chunks : list (list byte)) : PostgresConnection :=
  mkConn (socket_of chunks) []
    (mkUri Postgres "db" (Some 5432) (Basic "ada" "secret" None) (Some "g") Disabled ∅ None "postgres://db/g")
    ∅ 0 0 Idle false (Some (from_secs 30)).

Definition sample_exchange : list byte * list byte * list byte * list byte * ScramClient * list byte :=
  Eval vm_compute in
  let client := ScramClient_new 1700000000 in
  let cr := enroll "secret" (as_bytes "NaCl") 2 in
  match server_first cr (as_bytes "srv") (client_first_message client) with
  | Some (bare, nonce, first) =>
      match process_challenge first "secret" client with
      | Ok (final, client') => (bare, nonce, first, final, client', default [] (server_final cr bare nonce first final))
      | Err _ => ([], [], [], [], client, [])
      end
  | None => ([], [], [], [], client, [])
  end.
Definition sample_messages : list BackendMessage :=
  let '(bare, nonce, first, final, client', v) := sample_exchange in
  map Authentication [SASL ["SCRAM-SHA-256-PLUS"; "SCRAM-SHA-256"]; SASLContinue first; SASLFinal v; AuthOk]
  ++ [ParameterStatus "TimeZone" "UTC"; BackendKeyData 42 7] ++ [ReadyForQuery Idle].

Lemma handshake_with_scram_witness :
  let bytes := flat_map server_frame sample_messages in
  ∃ c', handshake (λ _, 1700000000) (user_conn [take 30 bytes; drop 30 bytes]) = (Ok tt, c') ∧
    socket_bytes (reads c') = [] ∧ transaction_status c' = Idle ∧
    server_parameters c' = {[ "TimeZone" := "UTC" ]}.
Proof.
  intros bytes. set (x := sample_exchange).
  destruct (handshake_with_scram 1700000000 "ada" "secret" None (as_bytes "NaCl") 2 (as_bytes "srv")
    ["SCRAM-SHA-256-PLUS"; "SCRAM-SHA-256"] x.1.1.1.1.1 x.1.1.1.1.2 x.1.1.1.2 x.1.1.2 x.1.2 x.2
    (user_conn [take 30 bytes; drop 30 bytes])
    [ParameterStatus "TimeZone" "UTC"; BackendKeyData 42 7] Idle [take 30 bytes; drop 30 bytes] []) as (c' & Hc & _ & Hr & Hs & Hp).
  - by apply prepared_ascii.
  - unfold U32_MAX. lia.
  - reflexivity.
  - right. left.
  - vm_compute. reflexivity.
  - vm_compute. reflexivity.
  - vm_compute. reflexivity.
  - reflexivity.
  - reflexivity.
  - vm_compute. reflexivity.
  - reflexivity.
  - repeat constructor; vm_compute; discriminate.
  - vm_compute. reflexivity.
  - exists c'. split; [exact Hc|]. split; [exact Hr|]. split; [exact Hs|]. rewrite Hp. vm_compute. reflexivity.
Defined.

(** The server's signature is checked only if it is sent: a server that does not know the
    password, and accepts the client without a final message, is accepted. *)
Definition impostor_messages : list BackendMessage :=
  map Authentication [SASL ["SCRAM-SHA-256"]; AuthOk] ++ [ReadyForQuery Idle].
Example impostor_is_accepted :
  (handshake (λ _, 1700000000) (user_conn [flat_map server_frame impostor_messages])).1 = Ok tt.
Proof. vm_compute. reflexivity. Qed.

(** Apache AGE is recognised by the scheme of the text that is kept, which a namespace prefix hides. *)
Lemma prefixed_age_is_not_initialised `{CharClass, LowerCase, UrlCrate} p hint u r :
  (p, hint) ∈ namespace_prefixes → plain u → parse (p +:+ u) = Ok r →
  params r !! "graph" = None → params r !! "age" = None → params r !! "dialect" = None → wants_age r = false.
Proof.
  intros Hp Hu Hr Hg Ha Hd. unfold wants_age. destruct (prefixed_raw p hint u r Hp Hu Hr) as [_ ->].
  by rewrite Hg, Ha, Hd.
Qed.
