(* ===== verification/Levenshtein.v ===== *)
(** * Suggestions ([voyager-core/src/schema.rs]: [levenshtein], [find_closest_match])

    The table of edit distances, row by row, and the search for the nearest name.  The
    specification is the least number of edits of a script that turns one text into the
    other. *)
From S2P Require Import Prelude Bytes Errors Text.

Open Scope string_scope.
Open Scope list_scope.
Open Scope nat_scope.

(** ** The code *)

(** [eq_ignore_ascii_case] of texts and of characters. *)
Definition eq_ignore_ascii_case (s t : string) : bool := bool_decide (to_ascii_lowercase s = to_ascii_lowercase t).
Definition char_eq_ignore_ascii_case (c d : char) : bool := bool_decide (map ascii_lower_byte c = map ascii_lower_byte d).

(** The cells of a row behind the first: [prev] is the row above from the column on the left,
    [left] the cell on the left. *)
Fixpoint row_cells (prev : list nat) (left : nat) (a : char) (b_chars : list char) : list nat :=
  match b_chars, prev with
  | b :: b_chars, diag :: ((up :: _) as prev) =>
      let cost := if char_eq_ignore_ascii_case a b then 0 else 1 in
      let cell := (up + 1) `min` (left + 1) `min` (diag + cost) in
      cell :: row_cells prev cell a b_chars
  | _, _ => []
  end.
Definition next_row (b_chars : list char) (st : nat * list nat) (a : char) : nat * list nat :=
  let '(i, prev) := st in (S i, S i :: row_cells prev (S i) a b_chars).

Definition levenshtein (a b : string) : nat :=
  let a_chars := chars (as_bytes a) in
  let b_chars := chars (as_bytes b) in
  List.last (foldl (next_row b_chars) (0, seq 0 (S (length b_chars))) a_chars).2 0.

Fixpoint closest (target : string) (max_dist : nat) (best : option (string * nat)) (candidates : list string) :
    option (string * nat) :=
  match candidates with
  | [] => best
  | cand :: candidates =>
      let dist := levenshtein target cand in
      closest target max_dist
        (if Nat.leb dist max_dist then
           match best with
           | None => Some (cand, dist)
           | Some (_, best_dist) => if Nat.ltb dist best_dist then Some (cand, dist) else best
           end
         else best) candidates
  end.
Definition find_closest_match (target : string) (candidates : list string) (max_dist : nat) : option string :=
  fst <$> closest target max_dist None candidates.

(** ** Edit scripts: [edits k a b] when [k] insertions, deletions and replacements turn [a] into [b] *)
Inductive edits : nat → list char → list char → Prop :=
| edits_nil : edits 0 [] []
| edits_keep k c d a b : char_eq_ignore_ascii_case c d = true → edits k a b → edits k (c :: a) (d :: b)
| edits_replace k c d a b : edits k a b → edits (S k) (c :: a) (d :: b)
| edits_delete k c a b : edits k a b → edits (S k) (c :: a) b
| edits_insert k d a b : edits k a b → edits (S k) a (d :: b).
#[local] Hint Constructors edits : core.

Lemma edits_app k1 a1 b1 k2 a2 b2 : edits k1 a1 b1 → edits k2 a2 b2 → edits (k1 + k2) (a1 ++ a2) (b1 ++ b2).
Proof. induction 1; cbn; eauto. Qed.

Lemma edits_reverse k a b : edits k a b → edits k (reverse a) (reverse b).
Proof.
  induction 1 as [|k c d a b Hcd _ IH|k c d a b _ IH|k c a b _ IH|k d a b _ IH]; rewrite ?reverse_cons; [done|..].
  - rewrite <- (Nat.add_0_r k). eapply edits_app; eauto.
  - rewrite <- Nat.add_1_r. eapply edits_app; eauto.
  - rewrite <- Nat.add_1_r, <- (app_nil_r (reverse b)). eapply edits_app; eauto.
  - rewrite <- Nat.add_1_r, <- (app_nil_r (reverse a)). eapply edits_app; eauto.
Qed.

Lemma edits_sym k a b : edits k a b → edits k b a.
Proof.
  induction 1 as [|k c d a b Hcd _ IH|?????? IH|????? IH|????? IH]; eauto.
  apply edits_keep; [|done]. unfold char_eq_ignore_ascii_case in *. rewrite bool_decide_eq_true in *. done.
Qed.

Lemma edits_insert_all k a pre c : edits k a c → edits (length pre + k) a (pre ++ c).
Proof. intros. induction pre; cbn; eauto. Qed.

(** What a script does with the first character: insertions, then the character is kept,
    replaced or deleted. *)
Lemma edits_cons_inv l y b c :
  edits l (y :: b) c →
  ∃ pre l' c', edits l' b c' ∧
    ((∃ z, c = pre ++ z :: c' ∧ length pre + (if char_eq_ignore_ascii_case y z then 0 else 1) + l' ≤ l) ∨
     (c = pre ++ c' ∧ length pre + S l' ≤ l)).
Proof.
  remember (y :: b) as yb eqn:E. intros H. revert E.
  induction H as [|l y' z b' c Hyz H _|l y' z b' c H _|l y' b' c H _|l z b' c H IH]; intros E; try done;
    [injection E as -> ->..|].
  - exists [], l, c. split; [done|]. left. exists z. split; [done|]. rewrite Hyz. cbn. lia.
  - exists [], l, c. split; [done|]. left. exists z. split; [done|]. cbn. case_match; lia.
  - exists [], l, c. split; [done|]. right. split; [done|]. cbn. lia.
  - destruct (IH E) as (pre & l' & c' & Hb & [(x & -> & Hl)|[-> Hl]]); exists (z :: pre), l', c'; (split; [done|]).
    + left. exists x. split; [done|]. cbn [length]. lia.
    + right. split; [done|]. cbn [length]. lia.
Qed.

Definition within (m : nat) (a c : list char) : Prop := ∃ k, k ≤ m ∧ edits k a c.

Lemma within_insert_all m pre a c n : within m a c → length pre + m ≤ n → within n a (pre ++ c).
Proof. intros (k & ? & ?) ?. exists (length pre + k). split; [lia|by apply edits_insert_all]. Qed.
Lemma within_delete m x a c n : within m a c → m < n → within n (x :: a) c.
Proof. intros (k & ? & ?) ?. exists (S k). split; [lia|eauto]. Qed.
Lemma within_match m x z a c n :
  within m a c → m + (if char_eq_ignore_ascii_case x z then 0 else 1) ≤ n → within n (x :: a) (z :: c).
Proof.
  intros (k & ? & ?) ?. destruct (char_eq_ignore_ascii_case x z) eqn:E; [exists k|exists (S k)]; (split; [lia|eauto]).
Qed.

(** Scripts compose: the distance obeys the triangle inequality. *)
Lemma edits_trans k a b l c : edits k a b → edits l b c → within (k + l) a c.
Proof.
  intros H. revert l c.
  induction H as [|k x y a b Hxy _ IH|k x y a b _ IH|k x a b _ IH|k y a b _ IH]; intros l c Hbc.
  - exists l. split; [lia|done].
  - apply edits_cons_inv in Hbc as (pre & l' & c' & Hb & [(z & -> & Hl)|[-> Hl]]); apply IH in Hb;
      (eapply within_insert_all; [|]).
    + eapply within_match; [exact Hb|]. done.
    + unfold char_eq_ignore_ascii_case in *. rewrite bool_decide_eq_true in Hxy. rewrite Hxy. lia.
    + eapply within_delete; [exact Hb|]. apply Nat.lt_succ_diag_r.
    + lia.
  - apply edits_cons_inv in Hbc as (pre & l' & c' & Hb & [(z & -> & Hl)|[-> Hl]]); apply IH in Hb;
      (eapply within_insert_all; [|]).
    + eapply (within_match _ _ _ _ _ (S (k + l'))); [exact Hb|]. destruct (char_eq_ignore_ascii_case x z); lia.
    + lia.
    + eapply within_delete; [exact Hb|]. apply Nat.lt_succ_diag_r.
    + lia.
  - eapply within_delete; [by apply IH|lia].
  - apply edits_cons_inv in Hbc as (pre & l' & c' & Hb & [(z & -> & Hl)|[-> Hl]]); apply IH in Hb.
    + apply (within_insert_all (S (k + l')) pre); [|lia]. apply (within_insert_all (k + l') [z]); [done|cbn; lia].
    + eapply within_insert_all; [exact Hb|]. lia.
Qed.

(** ** The distance by recursion, and the table *)
Fixpoint dist (a b : list char) : nat :=
  match a with
  | [] => length b
  | c :: a' =>
      (fix dist_c (b : list char) : nat :=
         match b with
         | [] => S (length a')
         | d :: b' => (dist a' b + 1) `min` (dist_c b' + 1)
                      `min` (dist a' b' + (if char_eq_ignore_ascii_case c d then 0 else 1))
         end) b
  end.

Lemma dist_cons c a d b :
  dist (c :: a) (d :: b) = (dist a (d :: b) + 1) `min` (dist (c :: a) b + 1)
                           `min` (dist a b + (if char_eq_ignore_ascii_case c d then 0 else 1)).
Proof. done. Qed.
Lemma dist_nil_r a : dist a [] = length a.
Proof. by destruct a. Qed.

Lemma edits_drop a : edits (length a) a [].
Proof. induction a; cbn; eauto. Qed.

Lemma dist_edits a b : edits (dist a b) a b.
Proof.
  revert b. induction a as [|c a IHa]; intros b; [apply edits_sym, edits_drop|].
  induction b as [|d b IHb]; [rewrite dist_nil_r; apply edits_drop|]. rewrite dist_cons.
  destruct (Nat.min_spec (dist a (d :: b) + 1) (dist (c :: a) b + 1)) as [[_ ->]|[_ ->]];
    match goal with |- edits (?x `min` ?y) _ _ => destruct (Nat.min_spec x y) as [[_ ->]|[_ ->]] end;
    rewrite ?Nat.add_1_r; eauto; destruct (char_eq_ignore_ascii_case c d) eqn:E; rewrite ?Nat.add_0_r, ?Nat.add_1_r; eauto.
Qed.

Lemma dist_cons_l c a b : dist (c :: a) b ≤ S (dist a b).
Proof. destruct b as [|d b]; [by rewrite !dist_nil_r|]. rewrite dist_cons. lia. Qed.
Lemma dist_cons_r a d b : dist a (d :: b) ≤ S (dist a b).
Proof. destruct a as [|c a]; [done|]. rewrite dist_cons. lia. Qed.

Lemma dist_least k a b : edits k a b → dist a b ≤ k.
Proof.
  induction 1 as [|k c d a b E _ IH|k c d a b _ IH|k c a b _ IH|k d a b _ IH]; [done|..].
  - rewrite dist_cons, E. lia.
  - rewrite dist_cons. case_match; lia.
  - pose proof (dist_cons_l c a b). lia.
  - pose proof (dist_cons_r a d b). lia.
Qed.

(** A row of the table: the distances of the text read so far (reversed) from the prefixes. *)
Fixpoint row (pa pb b : list char) : list nat :=
  dist pa pb :: match b with [] => [] | d :: b => row pa (d :: pb) b end.

Lemma row_nil pb b : row [] pb b = seq (length pb) (S (length b)).
Proof. revert pb. induction b as [|d b IH]; intros pb; [done|]. cbn [row]. by rewrite IH. Qed.

Lemma row_cells_row c pa pb b :
  dist (c :: pa) pb :: row_cells (row pa pb b) (dist (c :: pa) pb) c b = row (c :: pa) pb b.
Proof.
  revert pb. induction b as [|d b IH]; intros pb; [done|]. cbn [row].
  rewrite <- (IH (d :: pb)). destruct (row pa (d :: pb) b) as [|up r] eqn:E; [by destruct b|].
  assert (up = dist pa (d :: pb)) as -> by (destruct b; by injection E).
  cbn [row_cells]. by rewrite dist_cons.
Qed.

Lemma rows_spec b a pa :
  foldl (next_row b) (length pa, row pa [] b) a = (length (reverse a ++ pa), row (reverse a ++ pa) [] b).
Proof.
  revert pa. induction a as [|c a IH]; intros pa; [done|].
  cbn [foldl next_row]. pose proof (row_cells_row c pa [] b) as H. rewrite dist_nil_r in H. cbn [length] in H.
  rewrite H. change (S (length pa)) with (length (c :: pa)). rewrite IH.
  by rewrite reverse_cons, <- app_assoc.
Qed.

Lemma row_last pa pb b : List.last (row pa pb b) 0 = dist pa (reverse b ++ pb).
Proof.
  revert pb. induction b as [|d b IH]; intros pb; [done|]. rewrite reverse_cons, <- app_assoc.
  change ([d] ++ pb) with (d :: pb). rewrite <- IH. cbn [row]. by destruct b.
Qed.

(** The table holds the distance. *)
Lemma levenshtein_dist a b :
  levenshtein a b = dist (reverse (chars (as_bytes a))) (reverse (chars (as_bytes b))).
Proof.
  unfold levenshtein. pose proof (rows_spec (chars (as_bytes b)) (chars (as_bytes a)) []) as H.
  rewrite row_nil, !app_nil_r in H. cbn [length] in H. rewrite H. cbn [snd]. by rewrite row_last, app_nil_r.
Qed.

Definition text_edits (k : nat) (s t : string) : Prop := edits k (chars (as_bytes s)) (chars (as_bytes t)).

Lemma levenshtein_edits a b : text_edits (levenshtein a b) a b.
Proof.
  unfold text_edits. rewrite levenshtein_dist. pose proof (dist_edits (reverse (chars (as_bytes a))) (reverse (chars (as_bytes b)))) as H.
  apply edits_reverse in H. by rewrite !reverse_involutive in H.
Qed.
Lemma levenshtein_least k a b : text_edits k a b → levenshtein a b ≤ k.
Proof. intros H%edits_reverse. rewrite levenshtein_dist. by apply dist_least. Qed.
Lemma levenshtein_sym a b : levenshtein a b = levenshtein b a.
Proof. apply Nat.le_antisymm; apply levenshtein_least, edits_sym, levenshtein_edits. Qed.
Lemma levenshtein_triangle a b c : levenshtein a c ≤ levenshtein a b + levenshtein b c.
Proof.
  destruct (edits_trans _ _ _ _ _ (levenshtein_edits a b) (levenshtein_edits b c)) as (m & Hm & H).
  apply levenshtein_least in H. lia.
Qed.

(** ** The nearest name *)

(** [s] is the first of the nearest candidates. *)
Definition best_of (target : string) (max_dist : nat) (seen : list string) (best : option (string * nat)) : Prop :=
  match best with
  | None => ∀ c, c ∈ seen → max_dist < levenshtein target c
  | Some (s, d) => s ∈ seen ∧ d = levenshtein target s ∧ d ≤ max_dist ∧ ∀ c, c ∈ seen → d ≤ levenshtein target c
  end.

Lemma closest_spec target max_dist cands : ∀ seen best,
  best_of target max_dist seen best → best_of target max_dist (seen ++ cands) (closest target max_dist best cands).
Proof.
  induction cands as [|c cands IH]; intros seen best H; [by rewrite app_nil_r|].
  cbn [closest]. change (c :: cands) with ([c] ++ cands). rewrite app_assoc. apply IH. clear IH.
  destruct (Nat.leb_spec (levenshtein target c) max_dist) as [Hd|Hd]; destruct best as [[s d]|]; unfold best_of in *.
  - destruct H as (Hs & Hd' & Hm & Hl). destruct (Nat.ltb_spec (levenshtein target c) d).
    + split; [set_solver|]. split; [done|]. split; [done|]. intros x [Hx|Hx%list_elem_of_singleton]%elem_of_app; [|by subst].
      specialize (Hl x Hx). lia.
    + split; [set_solver|]. split; [done|]. split; [done|]. intros x [Hx|Hx%list_elem_of_singleton]%elem_of_app; [by apply Hl|by subst].
  - split; [set_solver|]. split; [done|]. split; [done|]. intros x [Hx|Hx%list_elem_of_singleton]%elem_of_app; [|by subst].
    specialize (H x Hx). lia.
  - destruct H as (Hs & Hd' & Hm & Hl). split; [set_solver|]. split; [done|]. split; [done|].
    intros x [Hx|Hx%list_elem_of_singleton]%elem_of_app; [by apply Hl|subst; lia].
  - intros x [Hx|Hx%list_elem_of_singleton]%elem_of_app; [by apply H|by subst].
Qed.

(** C36: A suggestion is a registered name that the fewest edits (letter case aside) separate
    from what was written, and there is one exactly if some name is within the bound: the table
    of the program computes the length of the shortest edit script. *)
Theorem suggestion_is_closest target cands max_dist :
  match find_closest_match target cands max_dist with
  | Some s => s ∈ cands ∧ ∃ k, k ≤ max_dist ∧ text_edits k target s ∧
                ∀ c l, c ∈ cands → text_edits l target c → k ≤ l
  | None => ∀ c l, c ∈ cands → text_edits l target c → max_dist < l
  end.
Proof.
  unfold find_closest_match. assert (best_of target max_dist [] None) as H by (intros c Hc; set_solver).
  apply (closest_spec _ _ cands) in H. cbn [app] in H.
  destruct (closest target max_dist None cands) as [[s d]|]; unfold best_of in H; cbn [fmap option_fmap option_map fst].
  - destruct H as (Hs & -> & Hm & Hl). split; [done|]. exists (levenshtein target s). split; [done|].
    split; [apply levenshtein_edits|]. intros c l Hc H%levenshtein_least. specialize (Hl c Hc). lia.
  - intros c l Hc Hl%levenshtein_least. specialize (H c Hc). lia.
Qed.

Example suggests_person : find_closest_match "Persn" ["Movie"; "Person"; "PERSONA"] 3 = Some "Person".
Proof. vm_compute. reflexivity. Qed.
