(* ===== verification/BTree.v ===== *)
(** * [BTreeMap] with text keys

    A sorted association list: insertion, lookup, removal, and iteration in the order of the
    keys' bytes, which is the order of [str]. *)
From Stdlib Require Import Sorting.Sorted.
From S2P Require Import Prelude Bytes.

Open Scope Z_scope.
Open Scope list_scope.

(** ** The order of texts *)
Fixpoint bytes_cmp (l r : list byte) : comparison :=
  match l, r with
  | [], [] => Datatypes.Eq
  | [], _ :: _ => Datatypes.Lt
  | _ :: _, [] => Datatypes.Gt
  | a :: l, b :: r => match u8 a ?= u8 b with Datatypes.Eq => bytes_cmp l r | c => c end
  end.
Definition str_cmp (s t : string) : comparison := bytes_cmp (as_bytes s) (as_bytes t).
Definition str_lt (s t : string) : Prop := str_cmp s t = Datatypes.Lt.

Lemma bytes_cmp_eq l r : bytes_cmp l r = Datatypes.Eq ↔ l = r.
Proof.
  split; [|intros ->; induction r as [|b r IH]; [done|]; cbn; by rewrite Z.compare_refl].
  revert r. induction l as [|a l IH]; intros [|b r]; cbn; try done.
  destruct (Z.compare_spec (u8 a) (u8 b)) as [E| |]; try done.
  intros H%IH. by rewrite (u8_inj _ _ E), H.
Qed.

Lemma bytes_cmp_opp l r : bytes_cmp r l = CompOpp (bytes_cmp l r).
Proof.
  revert r. induction l as [|a l IH]; intros [|b r]; cbn; try done.
  rewrite (Z.compare_antisym (u8 a) (u8 b)). destruct (u8 a ?= u8 b); cbn; try done; apply IH.
Qed.

Lemma bytes_cmp_trans l m r :
  bytes_cmp l m = Datatypes.Lt → bytes_cmp m r = Datatypes.Lt → bytes_cmp l r = Datatypes.Lt.
Proof.
  revert m r. induction l as [|a l IH]; intros [|b m] [|c r]; cbn; try done.
  destruct (Z.compare_spec (u8 a) (u8 b)) as [E1|E1|]; destruct (Z.compare_spec (u8 b) (u8 c)) as [E2|E2|]; try done;
    intros H1 H2; destruct (Z.compare_spec (u8 a) (u8 c)); try lia; try done; by apply (IH m).
Qed.

Lemma str_cmp_eq s t : str_cmp s t = Datatypes.Eq ↔ s = t.
Proof. unfold str_cmp. rewrite bytes_cmp_eq. split; [apply as_bytes_inj|by intros ->]. Qed.
#[export] Instance str_lt_trans : Transitive str_lt.
Proof. intros s t u. apply bytes_cmp_trans. Qed.
Lemma str_lt_irrefl s : ¬ str_lt s s.
Proof. unfold str_lt. by rewrite (proj2 (str_cmp_eq s s) eq_refl). Qed.
Lemma str_cmp_gt s t : str_cmp s t = Datatypes.Gt → str_lt t s.
Proof. unfold str_lt, str_cmp. intros H. by rewrite (bytes_cmp_opp (as_bytes s)), H. Qed.

(** ** Maps *)
Notation btree V := (list (string * V)).

Section btree.
Context {V : Type}.
Implicit Types m : btree V.

Fixpoint bt_insert (k : string) (v : V) m : btree V :=
  match m with
  | [] => [(k, v)]
  | (k', v') :: m' =>
      match str_cmp k k' with
      | Datatypes.Lt => (k, v) :: m
      | Datatypes.Eq => (k, v) :: m'
      | Datatypes.Gt => (k', v') :: bt_insert k v m'
      end
  end.
Fixpoint bt_get (k : string) m : option V :=
  match m with
  | [] => None
  | (k', v) :: m => if decide (k = k') then Some v else bt_get k m
  end.
Definition bt_remove (k : string) m : btree V := filter (λ kv, kv.1 ≠ k) m.
Definition bt_contains (k : string) m : bool := bool_decide (is_Some (bt_get k m)).

(** ** Laws *)
Definition bt_sorted m : Prop := StronglySorted str_lt m.*1.

Lemma bt_insert_keys k v m x : x ∈ (bt_insert k v m).*1 ↔ x = k ∨ x ∈ m.*1.
Proof.
  induction m as [|[k' v'] m IH]; [cbn; set_solver|].
  cbn [bt_insert]. destruct (str_cmp k k') eqn:E; cbn [fmap list_fmap fst]; rewrite !elem_of_cons.
  - apply str_cmp_eq in E. subst. tauto.
  - tauto.
  - cbn [fst] in *. rewrite IH. tauto.
Qed.

Lemma bt_insert_sorted k v m : bt_sorted m → bt_sorted (bt_insert k v m).
Proof.
  unfold bt_sorted. induction m as [|[k' v'] m IH]; [by repeat constructor|].
  cbn [bt_insert fmap list_fmap fst]. intros Hs. inversion Hs as [|? ? Hm Hk]; subst.
  destruct (str_cmp k k') eqn:E; cbn [fmap list_fmap fst].
  - apply str_cmp_eq in E. by subst.
  - constructor; [done|]. constructor; [done|]. eapply Forall_impl; [exact Hk|]. intros x. by apply str_lt_trans.
  - constructor; [by apply IH|]. apply Forall_forall. intros x Hx. apply (bt_insert_keys k v m) in Hx as [->|Hx].
    + by apply str_cmp_gt.
    + rewrite Forall_forall in Hk. by apply Hk.
Qed.

Lemma bt_get_insert k v m x : bt_sorted m → bt_get x (bt_insert k v m) = if decide (x = k) then Some v else bt_get x m.
Proof.
  unfold bt_sorted. induction m as [|[k' v'] m IH]; [done|]. cbn [fmap list_fmap fst]. intros Hs.
  inversion Hs as [|? ? Hm Hk]; subst. cbn [bt_insert]. destruct (str_cmp k k') eqn:E; cbn [bt_get].
  - apply str_cmp_eq in E. subst. by destruct (decide (x = k')).
  - done.
  - destruct (decide (x = k')) as [->|Hx]; [|by apply IH].
    rewrite decide_False; [done|]. intros ->. by rewrite (proj2 (str_cmp_eq k k) eq_refl) in E.
Qed.

Lemma bt_get_elem k v m : bt_sorted m → bt_get k m = Some v ↔ (k, v) ∈ m.
Proof.
  unfold bt_sorted. induction m as [|[k' v'] m IH]; cbn [bt_get]; [set_solver|].
  cbn [fmap list_fmap fst]. intros Hs. inversion Hs as [|? ? Hm Hk]; subst. rewrite elem_of_cons.
  destruct (decide (k = k')) as [->|Hne].
  - split; [intros [= ->]; by left|]. intros [[= ->]|Hin]; [done|]. exfalso.
    rewrite Forall_forall in Hk. apply (str_lt_irrefl k'), Hk. by apply (list_elem_of_fmap_2 fst _ (k', v)).
  - rewrite IH by done. naive_solver.
Qed.

Lemma bt_insert_elem k v m x y : (x, y) ∈ bt_insert k v m → (x, y) = (k, v) ∨ (x, y) ∈ m.
Proof.
  induction m as [|[k' v'] m IH]; [set_solver|]. cbn [bt_insert].
  destruct (str_cmp k k'); rewrite !elem_of_cons; try tauto; set_solver.
Qed.
End btree.
