(* ===== verification/Falkor.v ===== *)
(** * Results of the graph engine on Redis ([voyager-net/src/redis/graph.rs], [resp.rs])

    FalkorDB answers a query with RESP values: [FalkorQueryResult] takes the header, the
    rows and the statistics out of them, nodes and relationships are read from arrays of
    pairs or from maps, and the rows become columns of a type inferred from their cells.
    The accessors of [RespValue] that make texts of values are here too.  The [{:?}] text of
    a value and Arrow's [RecordBatch] are parameters. *)
From Stdlib Require Import SpecFloat.
From S2P Require Import Prelude Bytes F64 Errors Text Resp PgRows Engine.
From S2P Require BoltValue Uri.

Open Scope Z_scope.
Open Scope string_scope.
Open Scope list_scope.

(** ** Texts of values *)

(** [format!("{:?}")] of a [RespValue]. *)
Class RespDebug := resp_debug : RespValue → string.

(** [format!("{}")] of an [f64]. *)
Definition f64_to_string `{F64Text} (f : f64) : string :=
  if is_nan f then "NaN"
  else if is_infinite f then (if f64_ltb F64_ZERO f then "inf" else "-inf")
  else show_f64 f.

(** [f.round() as u64]: halves away from zero, then clamped to the target's range. *)
Definition round_as_u64 (f : f64) : Z :=
  match unpack f with
  | S754_finite false m e =>
      Z.min U64_MAX (if (0 <=? e)%Z then Z.pos m * 2 ^ e else (Z.pos m + 2 ^ (- e - 1)) / 2 ^ (- e))
  | S754_infinity false => U64_MAX
  | _ => 0
  end.

(** [str::split_once] at a byte. *)
Fixpoint split_once (sep : byte) (l : list byte) : option (list byte * list byte) :=
  match l with
  | [] => None
  | b :: l => if decide (b = sep) then Some ([], l)
              else (λ p, (b :: p.1, p.2)) <$> split_once sep l
  end.

Section values.
Context `{F64Text} `{RespDebug} `{LowerCase}.

Fixpoint to_string_lossy (v : RespValue) : string :=
  match v with
  | SimpleString s => s
  | RError e => "ERROR: " +:+ e
  | RInteger i => num i
  | BulkString (Some b) => from_utf8_lossy b
  | BulkString None | RNull => "null"
  | Double f => f64_to_string f
  | RBoolean b => if b then "true" else "false"
  | BigNumber n => n
  | Array (Some arr) => "[" +:+ join ", " (map to_string_lossy arr) +:+ "]"
  | Array None => "null"
  | RMap pairs =>
      "{" +:+ join ", " (map (λ kv, to_string_lossy kv.1 +:+ ": " +:+ to_string_lossy kv.2) pairs) +:+ "}"
  | RSet items => "{" +:+ join ", " (map to_string_lossy items) +:+ "}"
  | _ => resp_debug v
  end.

Definition bool_of_text (s : string) : option bool :=
  let s := to_lowercase s in
  if bool_decide (s ∈ ["true"; "t"; "1"]) then Some true
  else if bool_decide (s ∈ ["false"; "f"; "0"]) then Some false
  else None.

Definition as_bool (v : RespValue) : option bool :=
  match v with
  | RBoolean b => Some b
  | SimpleString s => bool_of_text s
  | BulkString (Some b) => from_utf8 b ≫= bool_of_text
  | RInteger i => Some (negb (bool_decide (i = 0)))
  | _ => None
  end.

(** A [HashMap] is the list of its entries; a later entry replaces an earlier one. *)
Definition to_hashmap (v : RespValue) : list (string * RespValue) :=
  match as_map v with
  | Some pairs => foldl (λ m kv, assoc_insert (to_string_lossy kv.1) kv.2 m) [] pairs
  | None =>
      match as_array v with
      | Some items =>
          foldl (λ m item, match as_array item with
                           | Some (k :: v :: _) => assoc_insert (to_string_lossy k) v m
                           | _ => m
                           end) [] items
      | None => []
      end
  end.

(** ** Statistics *)
Record FalkorStatistics := mkStatistics {
  st_nodes_created : Z;
  st_nodes_deleted : Z;
  st_relationships_created : Z;
  st_relationships_deleted : Z;
  st_properties_set : Z;
  st_labels_added : Z;
  st_labels_removed : Z;
  indices_created : Z;
  indices_deleted : Z;
  cached_execution : bool;
  internal_execution_time_ms : f64;
  raw_stats : list string;
}.
Definition FalkorStatistics_default : FalkorStatistics :=
  mkStatistics 0 0 0 0 0 0 0 0 0 false F64_ZERO [].

Context `{CharClass}.

(** A counter takes the number of the line that has one of its names, zero if it is none. *)
Definition counter (names : list string) (key val : string) (old : Z) : Z :=
  if bool_decide (key ∈ names) then default 0 (Uri.parse_u64 val) else old.
Definition stat_cached (key val : string) (old : bool) : bool :=
  if decide (key = "Cached execution") then bool_decide (val = "1") || bool_decide (val = "true") else old.
Definition stat_time (key val : string) (old : f64) : f64 :=
  if decide (key = "Query internal execution time") then
    match split_whitespace val with num_part :: _ => default F64_ZERO (parse_f64 num_part) | [] => old end
  else old.

Definition stat_entry (key val : string) (s : FalkorStatistics) : FalkorStatistics :=
  mkStatistics
    (counter ["Nodes created"] key val (st_nodes_created s))
    (counter ["Nodes deleted"] key val (st_nodes_deleted s))
    (counter ["Relationships created"] key val (st_relationships_created s))
    (counter ["Relationships deleted"] key val (st_relationships_deleted s))
    (counter ["Properties set"] key val (st_properties_set s))
    (counter ["Labels added"] key val (st_labels_added s))
    (counter ["Labels removed"] key val (st_labels_removed s))
    (counter ["Indices created"; "Indexes added"] key val (indices_created s))
    (counter ["Indices deleted"; "Indexes removed"] key val (indices_deleted s))
    (stat_cached key val (cached_execution s)) (stat_time key val (internal_execution_time_ms s)) (raw_stats s).

Definition stat_line (s : FalkorStatistics) (item : RespValue) : FalkorStatistics :=
  let line := to_string_lossy item in
  let s := mkStatistics (st_nodes_created s) (st_nodes_deleted s) (st_relationships_created s)
             (st_relationships_deleted s) (st_properties_set s) (st_labels_added s) (st_labels_removed s)
             (indices_created s) (indices_deleted s) (cached_execution s) (internal_execution_time_ms s)
             (raw_stats s ++ [line]) in
  match split_once x3a (as_bytes line) with
  | Some (key, val) => stat_entry (trim (of_bytes key)) (trim (of_bytes val)) s
  | None => s
  end.

Definition FalkorStatistics_parse (stats_array : list RespValue) : FalkorStatistics :=
  foldl stat_line FalkorStatistics_default stats_array.

Definition to_query_summary (s : FalkorStatistics) : QuerySummary :=
  mkSummary (st_nodes_created s) (st_nodes_deleted s) (st_relationships_created s) (st_relationships_deleted s)
    (st_properties_set s) (st_labels_added s) (st_labels_removed s) (indices_created s) 0
    (round_as_u64 (internal_execution_time_ms s)).

(** ** Values of the graph *)

Fixpoint resp_to_bolt_value (val : RespValue) : BoltValue.BoltValue :=
  match val with
  | RNull | BulkString None | Array None => BoltValue.Null
  | RBoolean b => BoltValue.Boolean b
  | RInteger i => BoltValue.Integer i
  | Double f => BoltValue.Float f
  | SimpleString s | BigNumber s => BoltValue.String s
  | BulkString (Some b) => BoltValue.String (from_utf8_lossy b)
  | Array (Some arr) | RSet arr | Push arr => BoltValue.List (map resp_to_bolt_value arr)
  | RMap pairs =>
      BoltValue.Map (assoc_of_list (map (λ kv, (to_string_lossy kv.1, resp_to_bolt_value kv.2)) pairs))
  | other => BoltValue.String (to_string_lossy other)
  end.

Definition bolt_props (properties : list (string * RespValue)) : list (string * BoltValue.BoltValue) :=
  foldl (λ m kv, assoc_insert kv.1 (resp_to_bolt_value kv.2) m) [] properties.

Record FalkorNode := mkFalkorNode {
  fn_id : Z; fn_labels : list string; fn_properties : list (string * RespValue) }.

Definition node_field (key : string) (v : RespValue) (n : FalkorNode) : FalkorNode :=
  if decide (key = "id") then mkFalkorNode (default 0 (as_i64 v)) (fn_labels n) (fn_properties n)
  else if decide (key = "labels") then
    match as_array v with
    | Some arr => mkFalkorNode (fn_id n) (map to_string_lossy arr) (fn_properties n)
    | None => n
    end
  else if decide (key = "properties") then mkFalkorNode (fn_id n) (fn_labels n) (to_hashmap v)
  else n.

(** The fields of an entity, from a map or from an array of pairs. *)
Definition entity_fields {N} (field : string → RespValue → N → N) (val : RespValue) (n : N) : option N :=
  match as_map val with
  | Some pairs => Some (foldl (λ n kv, field (default "" (as_str kv.1)) kv.2 n) n pairs)
  | None =>
      match as_array val with
      | Some items =>
          Some (foldl (λ n item, match as_array item with
                                 | Some [k; v] => field (to_string_lossy k) v n
                                 | _ => n
                                 end) n items)
      | None => None
      end
  end.

Definition FalkorNode_parse (val : RespValue) : result NetError FalkorNode :=
  match entity_fields node_field val (mkFalkorNode 0 [] []) with
  | Some n => Ok n
  | None => perr "Expected FalkorDB Node structure, got "
  end.

Definition to_bolt_node (n : FalkorNode) : BoltValue.BoltNode BoltValue.BoltValue :=
  BoltValue.mkNode (fn_id n) (fn_labels n) (bolt_props (fn_properties n)) (Some (num (fn_id n))).

Record FalkorRelationship := mkFalkorRelationship {
  fr_id : Z; fr_type : string; src_node : Z; dest_node : Z; fr_properties : list (string * RespValue) }.

Definition relationship_field (key : string) (v : RespValue) (r : FalkorRelationship) : FalkorRelationship :=
  if decide (key = "id") then
    mkFalkorRelationship (default 0 (as_i64 v)) (fr_type r) (src_node r) (dest_node r) (fr_properties r)
  else if decide (key = "type") then
    mkFalkorRelationship (fr_id r) (to_string_lossy v) (src_node r) (dest_node r) (fr_properties r)
  else if decide (key = "src_node") then
    mkFalkorRelationship (fr_id r) (fr_type r) (default 0 (as_i64 v)) (dest_node r) (fr_properties r)
  else if decide (key = "dest_node") then
    mkFalkorRelationship (fr_id r) (fr_type r) (src_node r) (default 0 (as_i64 v)) (fr_properties r)
  else if decide (key = "properties") then
    mkFalkorRelationship (fr_id r) (fr_type r) (src_node r) (dest_node r) (to_hashmap v)
  else r.

Definition FalkorRelationship_parse (val : RespValue) : result NetError FalkorRelationship :=
  match entity_fields relationship_field val (mkFalkorRelationship 0 "" 0 0 []) with
  | Some r => Ok r
  | None => perr "Expected FalkorDB Relationship structure, got "
  end.

Definition to_bolt_relationship (r : FalkorRelationship) : BoltValue.BoltRelationship BoltValue.BoltValue :=
  BoltValue.mkRelationship (fr_id r) (src_node r) (dest_node r) (fr_type r) (bolt_props (fr_properties r))
    (Some (num (fr_id r))) (Some (num (src_node r))) (Some (num (dest_node r))).

(** ** Columns *)

(** [row.get(col_idx)] where it is there and no null. *)
Definition live_cell (col_idx : nat) (row : list RespValue) : option RespValue :=
  match row !! col_idx with
  | Some c => if is_null c then None else Some c
  | None => None
  end.

Definition note_text (c : RespValue) (s : string) (st : Inferred) : Inferred :=
  mkInferred true (can_be_int st && is_int s) (can_be_float st && is_float s)
    (can_be_bool st && bool_decide (is_Some (as_bool c))).

Definition note_cell (st : Inferred) (c : RespValue) : Inferred :=
  match c with
  | RInteger _ => mkInferred true (can_be_int st) (can_be_float st) false
  | Double _ => mkInferred true false (can_be_float st) false
  | RBoolean _ => mkInferred true false false (can_be_bool st)
  | SimpleString s => note_text c s st
  | BulkString (Some b) =>
      match from_utf8 b with
      | Some s => note_text c s st
      | None => mkInferred true false false false
      end
  | _ => mkInferred true false false false
  end.

Definition falkor_infer_type (rows : list (list RespValue)) (col_idx : nat) : DataType :=
  inferred_type (foldl (λ st row, match live_cell col_idx row with Some c => note_cell st c | None => st end)
                   (mkInferred false true true true) rows).

Definition falkor_build_column (rows : list (list RespValue)) (col_idx : nat) (data_type : DataType) : ArrayRef :=
  let cells := map (live_cell col_idx) rows in
  match data_type with
  | Int64 => Int64Array (map (λ c, c ≫= as_i64) cells)
  | Float64 => Float64Array (map (λ c, c ≫= as_f64) cells)
  | Boolean => BooleanArray (map (λ c, c ≫= as_bool) cells)
  | Utf8 => StringArray (map (λ c, to_string_lossy <$> c) cells)
  end.

(** ** Results *)
Record FalkorQueryResult := mkFalkorResult {
  fq_columns : list string; fq_rows : list (list RespValue); statistics : FalkorStatistics }.

Definition statistics_of (v : RespValue) : FalkorStatistics :=
  match v with Array (Some stats_arr) => FalkorStatistics_parse stats_arr | _ => FalkorStatistics_default end.
Definition columns_of (v : RespValue) : list string :=
  match v with Array (Some cols) => map to_string_lossy cols | _ => [] end.
Definition rows_of (v : RespValue) : list (list RespValue) :=
  match v with Array (Some raw_rows) => omap as_array raw_rows | _ => [] end.

Definition FalkorQueryResult_parse (resp : RespValue) : result NetError FalkorQueryResult :=
  match resp with
  | Array (Some items) =>
      match items with
      | [header; rows; stats] => Ok (mkFalkorResult (columns_of header) (rows_of rows) (statistics_of stats))
      | [stats] => Ok (mkFalkorResult [] [] (statistics_of stats))
      | _ => perr ("Unexpected FalkorDB query response array length: " +:+ num (blen items)
                   +:+ " (expected 1 or 3)")
      end
  | RError err => Err (ExecutionError ("FalkorDB query error: " +:+ err))
  | _ => perr "Expected RESP array from FalkorDB query, got "
  end.
End values.

(** [RecordBatch::try_new]: its documentation asks for at least one column, a field for each
    with its type, and columns of one length; otherwise it is an error. *)
Definition array_type (a : ArrayRef) : DataType :=
  match a with
  | Int64Array _ => Int64 | Float64Array _ => Float64 | BooleanArray _ => Boolean | StringArray _ => Utf8
  end.
Definition batch_ok (fields : list (string * DataType)) (cols : list ArrayRef) : bool :=
  bool_decide (cols ≠ []) && bool_decide (fields.*2 = array_type <$> cols)
  && forallb (λ c, bool_decide (Some (array_len c) = array_len <$> head cols)) cols.
Class ArrowBatches := {
  try_new : list (string * DataType) → list ArrayRef → option RecordBatch;
  try_new_spec fields cols :
    try_new fields cols = if batch_ok fields cols then Some (mkBatch fields cols) else None;
}.

Section batches.
Context `{F64Text} `{RespDebug} `{LowerCase} `{ArrowBatches}.

Definition to_arrow_record_batch (r : FalkorQueryResult) : result NetError RecordBatch :=
  let num_cols := length (fq_columns r) in
  let num_rows := length (fq_rows r) in
  if bool_decide (num_cols = 0%nat) || bool_decide (num_rows = 0%nat) then
    ok_or (try_new (map (λ name, (name, Utf8)) (fq_columns r)) (map (λ _, StringArray []) (fq_columns r)))
      ArrowError
  else
    let inferred_types := map (falkor_infer_type (fq_rows r)) (seq 0 num_cols) in
    ok_or (try_new (combine (fq_columns r) inferred_types)
             (imap (falkor_build_column (fq_rows r)) inferred_types))
      ArrowError.

Definition to_query_result (r : FalkorQueryResult) : result NetError QueryResult :=
  let summary := to_query_summary (statistics r) in
  if bool_decide (fq_columns r = []) then Ok (QueryResult_empty summary)
  else batch ← to_arrow_record_batch r; Ok (mkResult (fq_columns r) [batch] summary).
End batches.
