(* ===== verification/FalkorSafe.v ===== *)
(** * What comes out of a FalkorDB reply

    No cell of the rows is lost in the columns, whatever types are inferred; nodes and
    relationships are read alike from the two shapes the server sends. *)
From S2P Require Import Prelude Bytes F64 Errors Text Resp PgRows Engine Falkor.

Open Scope Z_scope.
Open Scope string_scope.
Open Scope list_scope.

Section columns.
Context `{F64Text} `{RespDebug} `{LowerCase} `{ArrowBatches}.

(** A null or missing cell has a null entry; another one the entry that is read from it. *)
Definition reads_cell {C A} (read : C → option A) (c : option C) (entry : option A) : Prop :=
  match c, entry with
  | None, None => True
  | Some c, Some x => read c = Some x
  | _, _ => False
  end.
Definition holds_replies (cells : list (option RespValue)) (column : ArrayRef) : Prop :=
  match column with
  | Int64Array es => Forall2 (reads_cell as_i64) cells es
  | Float64Array es => Forall2 (reads_cell as_f64) cells es
  | BooleanArray es => Forall2 (reads_cell as_bool) cells es
  | StringArray es => Forall2 (reads_cell (λ c, Some (to_string_lossy c))) cells es
  end.

Definition readable {C A} (read : C → option A) (c : option C) : Prop :=
  match c with Some c => is_Some (read c) | None => True end.

Lemma read_entries {C A} (read : C → option A) cells :
  Forall (readable read) cells → Forall2 (reads_cell read) cells (map (λ c, c ≫= read) cells).
Proof.
  induction 1 as [|c cells Hc _ IH]; [constructor|]. constructor; [|done].
  destruct c as [c|]; [|done]. destruct Hc as [x Hx]. cbn. by rewrite Hx.
Qed.

Lemma text_entries {C} (text : C → string) cells :
  Forall2 (reads_cell (λ c, Some (text c))) cells (map (λ c, text <$> c) cells).
Proof. induction cells as [|[c|] l IH]; constructor; done. Qed.

(** ** The types *)

(** A flag that is set was set before, and the cell can be read that way. *)
Lemma note_cell_sound st c :
  is_null c = false →
  (can_be_int (note_cell st c) = true → can_be_int st = true ∧ is_Some (as_i64 c)) ∧
  (can_be_float (note_cell st c) = true → can_be_float st = true ∧ is_Some (as_f64 c)) ∧
  (can_be_bool (note_cell st c) = true → can_be_bool st = true ∧ is_Some (as_bool c)).
Proof.
  intros Hn. destruct c as [s| |i|[b|]|[l|]| |f|b| | | | | |]; try done; cbn; try by (split_and!; intros ?; eauto).
  - unfold is_int, is_float. split_and!; intros [? Hs%bool_decide_eq_true]%andb_true_iff; done.
  - destruct (from_utf8 b) as [s|] eqn:Eb; cbn; [|done]. unfold is_int, is_float. rewrite Eb.
    split_and!; intros [? Hs%bool_decide_eq_true]%andb_true_iff; done.
Qed.

Lemma infer_sound i rows st :
  let st' := foldl (λ st row, match live_cell i row with Some c => note_cell st c | None => st end) st rows in
  (can_be_int st' = true → can_be_int st = true ∧ Forall (readable as_i64) (map (live_cell i) rows)) ∧
  (can_be_float st' = true → can_be_float st = true ∧ Forall (readable as_f64) (map (live_cell i) rows)) ∧
  (can_be_bool st' = true → can_be_bool st = true ∧ Forall (readable as_bool) (map (live_cell i) rows)).
Proof.
  revert st. induction rows as [|r rows IH]; intros st; cbn [foldl map]; [by repeat split|].
  destruct (live_cell i r) as [c|] eqn:Ec.
  - assert (is_null c = false) as Hn.
    { unfold live_cell in Ec. destruct (r !! i); [|done]. destruct (is_null r0) eqn:E; congruence. }
    destruct (note_cell_sound st c Hn) as (Ni & Nf & Nb). destruct (IH (note_cell st c)) as (Hi & Hf & Hb).
    split_and!; intros E; [apply Hi in E as [E ?]|apply Hf in E as [E ?]|apply Hb in E as [E ?]];
      [apply Ni in E as [??]|apply Nf in E as [??]|apply Nb in E as [??]]; (split; [done|]); by constructor.
  - destruct (IH st) as (Hi & Hf & Hb).
    split_and!; intros E; [apply Hi in E as [??]|apply Hf in E as [??]|apply Hb in E as [??]];
      (split; [done|]); by constructor.
Qed.

Lemma column_holds rows i :
  holds_replies (map (live_cell i) rows) (falkor_build_column rows i (falkor_infer_type rows i)).
Proof.
  unfold falkor_build_column, falkor_infer_type, inferred_type.
  destruct (infer_sound i rows (mkInferred false true true true)) as (Hi & Hf & Hb).
  pose proof (text_entries to_string_lossy (map (live_cell i) rows)) as Hs.
  repeat case_match; try discriminate; try done; cbn; apply read_entries.
  - by apply Hi.
  - by apply Hf.
  - by apply Hb.
Qed.

Lemma column_shape rows i d :
  array_type (falkor_build_column rows i d) = d ∧ array_len (falkor_build_column rows i d) = blen rows.
Proof.
  unfold blen. destruct d; (split; [done|]); unfold array_len, falkor_build_column; by rewrite !length_map.
Qed.

(** ** The batch *)

Lemma try_new_ok fields cols : batch_ok fields cols = true → try_new fields cols = Some (mkBatch fields cols).
Proof. intros E. by rewrite try_new_spec, E. Qed.

Lemma empty_batch_ok (names : list string) :
  names ≠ [] → batch_ok (map (λ name, (name, Utf8)) names) (map (λ _, StringArray []) names) = true.
Proof.
  intros Hne. destruct names as [|n names]; [done|]. unfold batch_ok. apply andb_true_iff. split; [apply andb_true_iff; split|].
  - by apply bool_decide_eq_true.
  - apply bool_decide_eq_true. cbn. f_equal. clear Hne. induction names as [|m names IH]; [done|]. cbn. by rewrite IH.
  - apply forallb_forall. intros c Hc. apply in_map_iff in Hc as (? & <- & _). by apply bool_decide_eq_true.
Qed.

Lemma imap_shape (f : nat → DataType → ArrayRef) types :
  (∀ i d, array_type (f i d) = d) → array_type <$> imap f types = types.
Proof. revert f. induction types as [|d types IH]; intros f Hf; cbn; [done|]. by rewrite Hf, IH by (intros; apply Hf). Qed.

Lemma imap_len_of (f : nat → DataType → ArrayRef) n types :
  (∀ i d, array_len (f i d) = n) → Forall (λ c, array_len c = n) (imap f types).
Proof. revert f. induction types as [|d types IH]; intros f Hf; cbn; constructor; [done|]. apply IH. intros; apply Hf. Qed.

Lemma combine_snd {A B} (l : list A) (k : list B) : length l = length k → (combine l k).*2 = k ∧ (combine l k).*1 = l.
Proof.
  revert k. induction l as [|x l IH]; intros [|y k]; try done. cbn. intros [= E]. destruct (IH k E) as [-> ->]. done.
Qed.

(** C40: the rows of a FalkorDB reply become a record batch without losing a cell.  For a
    result with columns there is a batch; its fields have the names of the columns and the
    types of the arrays; and array [i] holds, row for row, null for a null or missing cell and
    for any other cell the value that is read from it at the column's type, or its text.  The
    type that was inferred never makes a cell unreadable. *)
Theorem falkor_rows_keep_every_cell r :
  fq_columns r ≠ [] →
  ∃ batch, to_arrow_record_batch r = Ok batch
    ∧ (batch_fields batch).*1 = fq_columns r
    ∧ (batch_fields batch).*2 = array_type <$> batch_columns batch
    ∧ Forall2 (λ i column, holds_replies (map (live_cell i) (fq_rows r)) column)
        (seq 0 (length (fq_columns r))) (batch_columns batch).
Proof.
  intros Hne. unfold to_arrow_record_batch. set (n := length (fq_columns r)).
  assert (bool_decide (n = 0%nat) = false) as ->.
  { apply bool_decide_eq_false. unfold n. by destruct (fq_columns r). }
  destruct (decide (length (fq_rows r) = 0%nat)) as [E|E].
  - rewrite bool_decide_true by done. cbn [orb]. rewrite try_new_ok by by apply empty_batch_ok.
    eexists. split; [done|]. destruct (fq_rows r); [|done]. clear -n. subst n.
    cbn [batch_fields batch_columns live_cell]. generalize 0%nat as k.
    induction (fq_columns r) as [|c cs IH]; intros k; cbn; [by repeat split; constructor|].
    destruct (IH (S k)) as (E1 & E2 & E3). split_and!; try by f_equal. constructor; [constructor|done].
  - rewrite bool_decide_false by done. cbn [orb]. set (types := map _ (seq 0 n)).
    assert (length (fq_columns r) = length types) as Hl by (unfold types; by rewrite length_map, length_seq).
    destruct (combine_snd (fq_columns r) types Hl) as [Hc2 Hc1].
    pose proof (imap_shape (falkor_build_column (fq_rows r)) types (λ i d, proj1 (column_shape _ i d))) as Hs.
    rewrite try_new_ok.
    + eexists. split; [done|]. cbn [batch_fields batch_columns]. rewrite Hs, Hc1, Hc2. split_and!; try done.
      apply Forall2_same_length_lookup_2; [by rewrite length_seq, length_imap, <- Hl|].
      intros i j c Hj Hcol. apply lookup_seq in Hj as [-> Hj]. rewrite list_lookup_imap in Hcol.
      unfold types in Hcol. rewrite list_lookup_fmap, lookup_seq_lt in Hcol by done.
      injection Hcol as <-. apply column_holds.
    + unfold batch_ok. rewrite Hs, Hc2, (bool_decide_true (types = types)) by done.
      destruct types as [|d types']; [destruct (fq_columns r); [done|discriminate]|].
      cbn [imap]. rewrite bool_decide_true by done. cbn [andb].
      apply forallb_forall. intros c Hc. apply bool_decide_eq_true. cbn [head fmap option_fmap option_map].
      f_equal. pose proof (imap_len_of (falkor_build_column (fq_rows r)) (blen (fq_rows r)) (d :: types')
        (λ i d, proj2 (column_shape _ i d))) as HF.
      rewrite Forall_forall in HF. rewrite (HF c) by by apply list_elem_of_In.
      by rewrite (proj2 (column_shape _ _ _)).
Qed.
End columns.

(** ** Entities: a map and an array of pairs are read alike *)

Section entities.
Context `{F64Text} `{RespDebug} `{LowerCase} `{CharClass}.

Lemma as_str_lossy k s : as_str k = Some s → to_string_lossy k = s.
Proof.
  destruct k as [t| | |[b|]|[l|]| | | | | | | | |]; cbn; try done; [congruence|].
  intros [Hb Hok]%from_utf8_Some. unfold from_utf8_lossy. unfold str_ok in Hok.
  rewrite <- Hb, lossy_valid by done. by rewrite of_bytes_as_bytes.
Qed.

Lemma entity_forms_agree {N} (field : string → RespValue → N → N) pairs n :
  Forall (λ kv, is_Some (as_str kv.1)) pairs →
  entity_fields field (Array (Some (map (λ kv, Array (Some [kv.1; kv.2])) pairs))) n
  = entity_fields field (RMap pairs) n.
Proof.
  intros HF. unfold entity_fields. cbn [as_map as_array]. f_equal. revert n.
  induction HF as [|kv pairs [s Hs] HF IH]; intros n; [done|]. cbn [map foldl as_array].
  rewrite Hs, (as_str_lossy _ _ Hs). cbn [default]. apply IH.
Qed.

(** What the server sends for a node with distinct property names. *)
Definition bulk (s : string) : RespValue := BulkString (Some (as_bytes s)).
Definition node_reply (id : Z) (labels : list string) (props : list (string * RespValue)) : RespValue :=
  Array (Some [Array (Some [bulk "id"; RInteger id]);
               Array (Some [bulk "labels"; Array (Some (map bulk labels))]);
               Array (Some [bulk "properties"; Array (Some (map (λ kv, Array (Some [bulk kv.1; kv.2])) props))])]).

Lemma lossy_bulk s : str_ok s = true → to_string_lossy (bulk s) = s.
Proof. intros Hs. apply as_str_lossy. cbn. by apply from_utf8_as_bytes. Qed.

Lemma properties_read_back (props : list (string * RespValue)) :
  Forall (λ kv, str_ok kv.1 = true) props → NoDup props.*1 →
  to_hashmap (Array (Some (map (λ kv, Array (Some [bulk kv.1; kv.2])) props))) = props.
Proof.
  intros Hok Hnd. unfold to_hashmap. cbn [as_map as_array].
  transitivity (assoc_of_list props); [|by apply assoc_of_list_NoDup]. unfold assoc_of_list.
  clear Hnd. generalize (@nil (string * RespValue)) as m.
  induction Hok as [|kv props Hs Hok IH]; intros m; [done|]. cbn [map foldl as_array].
  rewrite lossy_bulk by done. apply IH.
Qed.

Lemma node_field_labels arr n :
  node_field "labels" (Array (Some arr)) n = mkFalkorNode (fn_id n) (map to_string_lossy arr) (fn_properties n).
Proof. reflexivity. Qed.

Lemma node_field_properties v n :
  node_field "properties" v n = mkFalkorNode (fn_id n) (fn_labels n) (to_hashmap v).
Proof. reflexivity. Qed.

Lemma node_read_back id labels props :
  Forall (λ l, str_ok l = true) labels → Forall (λ kv, str_ok kv.1 = true) props → NoDup props.*1 →
  FalkorNode_parse (node_reply id labels props) = Ok (mkFalkorNode id labels props).
Proof.
  intros Hl Hp Hnd. unfold FalkorNode_parse, entity_fields, node_reply.
  cbn [as_map as_array foldl]. rewrite !lossy_bulk by reflexivity.
  change (node_field "id" (RInteger id) (mkFalkorNode 0 [] [])) with (mkFalkorNode id [] []).
  rewrite node_field_labels, node_field_properties. cbn [fn_id fn_labels fn_properties].
  rewrite properties_read_back by done. do 2 f_equal. rewrite map_map.
  induction Hl as [|l labels Hok _ IH]; [done|]. cbn [map]. by rewrite lossy_bulk, IH.
Qed.
End entities.

(** ** At replies *)

#[local] Existing Instance Resp.bits_text.
#[local] Existing Instance ascii_CharClass.
#[local] Existing Instance ascii_LowerCase.
#[local] Instance no_resp_debug : RespDebug := λ _, "".
#[local] Instance checked_batches : ArrowBatches.
Proof. refine {| try_new fields cols := if batch_ok fields cols then Some (mkBatch fields cols) else None |}. done. Defined.

Definition people : FalkorQueryResult :=
  mkFalkorResult ["name"; "age"; "alive"]
    [[bulk "Ada"; RInteger 36; bulk "true"]; [bulk "Alan"; RNull; RBoolean false]; [bulk "Kurt"]]
    FalkorStatistics_default.

Lemma falkor_rows_keep_every_cell_witness :
  (∃ batch, to_arrow_record_batch people = Ok batch
    ∧ (batch_fields batch).*1 = fq_columns people
    ∧ (batch_fields batch).*2 = array_type <$> batch_columns batch
    ∧ Forall2 (λ i column, holds_replies (map (live_cell i) (fq_rows people)) column)
        (seq 0 3) (batch_columns batch))
  ∧ to_arrow_record_batch people
    = Ok (mkBatch [("name", Utf8); ("age", Int64); ("alive", Boolean)]
           [StringArray [Some "Ada"; Some "Alan"; Some "Kurt"]; Int64Array [Some 36; None; None];
            BooleanArray [Some true; Some false; None]]).
Proof. split; [|vm_compute; reflexivity]. by apply (falkor_rows_keep_every_cell people). Defined.

(** A text of digits becomes a number, although the server sent a string. *)
Lemma falkor_digits_become_numbers :
  to_arrow_record_batch (mkFalkorResult ["zip"] [[bulk "01234"]] FalkorStatistics_default)
  = Ok (mkBatch [("zip", Int64)] [Int64Array [Some 1234]]).
Proof. vm_compute. reflexivity. Qed.

(** Next to a float an integer is rounded to one: two that differ come out equal. *)
Lemma falkor_integers_are_rounded :
  falkor_build_column [[RInteger 9007199254740993]; [RInteger 9007199254740992]; [Double F64_ZERO]] 0
    (falkor_infer_type [[RInteger 9007199254740993]; [RInteger 9007199254740992]; [Double F64_ZERO]] 0)
  = Float64Array [Some (i64_as_f64 9007199254740992); Some (i64_as_f64 9007199254740992); Some F64_ZERO].
Proof. vm_compute. reflexivity. Qed.

(** The batch of a statement that returns nothing is an error, where an empty one is meant. *)
Lemma no_columns_no_batch s : to_arrow_record_batch (mkFalkorResult [] [] s) = Err ArrowError.
Proof. reflexivity. Qed.

Example falkor_statistics :
  to_query_summary (FalkorStatistics_parse
    [bulk "Nodes created: 2"; bulk "Properties set:  x"; bulk "Indexes added: 1"; bulk "Cached execution: 0"])
  = mkSummary 2 0 0 0 0 0 0 1 0 0.
Proof. vm_compute. reflexivity. Qed.
