(* ===== verification/RedisClient.v ===== *)
(** * Connections and transactions of the Redis client
    ([voyager-net/src/redis/connection.rs], [transaction.rs], [codec.rs])

    A connection is its socket and the fields the code keeps.  An operation returns the
    connection with its result, for a connection outlives the errors of its commands.  The
    socket either takes what is written or refuses it; the timer of a command is an input:
    it fires, if it does, while the client waits for one of the reads of the reply, and what
    was read before stays in the buffer. *)
From S2P Require Import Prelude Bytes F64 Errors Text Resp RespStream Json PgRows Engine BTree Falkor.
From S2P Require PgParams PgConnection.
From S2P Require Import Uri.

Open Scope Z_scope.
Open Scope string_scope.
Open Scope list_scope.

(** ** [format_cypher_with_params] *)
Section format.
Context `{JsonText}.

(** [.replace('\\', "\\\\").replace('\"', "\\\"")]. *)
Definition escape_literal (s : list byte) : list byte :=
  PgParams.replace [x22] [x5c; x22] (PgParams.replace [x5c] [x5c; x5c] s).
Definition quoted_literal (s : string) : string := of_bytes ([x22] ++ escape_literal (as_bytes s) ++ [x22]).

Definition param_literal (v : JsonValue) : string :=
  match v with
  | JString s => quoted_literal s
  | JNumber n => number_text n
  | JBool b => if b then "true" else "false"
  | JNull => "null"
  | other => quoted_literal (json_text other)
  end.

(** [keys.sort()]: the keys are distinct. *)
Definition sort_keys (ks : list string) : list string := (foldr (λ k m, bt_insert k () m) [] ks).*1.

Definition param_part (params : list (string * JsonValue)) (k : string) : string :=
  k +:+ "=" +:+ param_literal (default JNull (assoc_get k params)).

Definition format_cypher_with_params (query : string) (params : list (string * JsonValue)) : string :=
  match params with
  | [] => query
  | _ => "CYPHER " +:+ join " " (map (param_part params) (sort_keys params.*1)) +:+ " " +:+ query
  end.
End format.

(** ** State *)
Record Wire := mkWire {
  reads : list (option (list byte));
  sent : list byte;
  writable : bool;
  buffer : list byte;
}.
Record RedisConnection := mkRedis {
  wire : Wire;
  redis_uri : ParsedUri;
  is_resp3 : bool;
  server_info : gmap string RespValue;
  default_graph : string;
  in_transaction : bool;
  valid : bool;
  query_timeout : option Z;
}.

Definition set_wire (w : Wire) (c : RedisConnection) : RedisConnection :=
  mkRedis w (redis_uri c) (is_resp3 c) (server_info c) (default_graph c) (in_transaction c) (valid c)
    (query_timeout c).
Definition set_greeting (info : gmap string RespValue) (c : RedisConnection) : RedisConnection :=
  mkRedis (wire c) (redis_uri c) true info (default_graph c) (in_transaction c) (valid c) (query_timeout c).
Definition set_default_graph (graph : string) (c : RedisConnection) : RedisConnection :=
  mkRedis (wire c) (redis_uri c) (is_resp3 c) (server_info c) graph (in_transaction c) (valid c) (query_timeout c).
Definition set_in_transaction (in_tx : bool) (c : RedisConnection) : RedisConnection :=
  mkRedis (wire c) (redis_uri c) (is_resp3 c) (server_info c) (default_graph c) in_tx (valid c) (query_timeout c).
Definition set_invalid (c : RedisConnection) : RedisConnection :=
  mkRedis (wire c) (redis_uri c) (is_resp3 c) (server_info c) (default_graph c) (in_transaction c) false
    (query_timeout c).
Definition set_query_timeout (timeout : option Z) (c : RedisConnection) : RedisConnection :=
  mkRedis (wire c) (redis_uri c) (is_resp3 c) (server_info c) (default_graph c) (in_transaction c) (valid c) timeout.
Definition clear_buffer (c : RedisConnection) : RedisConnection :=
  set_wire (mkWire (reads (wire c)) (sent (wire c)) (writable (wire c)) []) c.

(** ** The monad of operations on a connection *)
Definition RM (A : Type) : Type := RedisConnection → result NetError A * RedisConnection.
#[export] Instance RM_ret : MRet RM := λ A x c, (Ok x, c).
#[export] Instance RM_bind : MBind RM :=
  λ A B f m c, match m c with (Ok x, c) => f x c | (Err e, c) => (Err e, c) end.
Definition r_result {A} (r : result NetError A) : RM A := λ c, (r, c).
Definition r_fail {A} (e : NetError) : RM A := r_result (Err e).
Definition r_perr {A} (msg : string) : RM A := r_result (perr msg).
Definition r_update (f : RedisConnection → RedisConnection) : RM () := λ c, (Ok tt, f c).
(** A result the code looks into, or drops. *)
Definition attempt {A} (m : RM A) : RM (option A) := λ c, let '(r, c) := m c in (Ok (result_ok r), c).

Section client.
Context `{F64Text} `{RespDebug} `{LowerCase} `{CharClass} `{ArrowBatches} `{JsonText}.

(** ** Commands and replies *)

Definition write_command (args : list string) : RM () :=
  λ c, let w := wire c in
       if writable w then
         (Ok tt, set_wire (mkWire (reads w) (sent w ++ encode_command args) true (buffer w)) c)
       else (Err (ConnectionFailed "Failed to write RESP command to socket: "), c).

(** [read_resp_value] with what it leaves of buffer and socket in every case; [None]: the timer
    fired before the reads gave a reply. *)
Fixpoint read_reply (timer : option nat) (reads : list (option (list byte))) (buffer : list byte) :
    option (result NetError RespValue) * list (option (list byte)) * list byte :=
  match (match buffer with [] => Ok (None, buffer) | _ => Resp.parse buffer end) with
  | Err e => (Some (Err e), reads, buffer)
  | Ok (Some val, buffer) => (Some (Ok val), reads, buffer)
  | Ok (None, buffer) =>
      if (MAX_RESP_FRAME_SIZE <? blen buffer)%Z then
        (Some (perr ("RESP buffer exceeded maximum limit of " +:+ num MAX_RESP_FRAME_SIZE +:+ " bytes")),
         reads, buffer)
      else
        let eof : result NetError RespValue :=
          match buffer with
          | [] => Err (ConnectionFailed "Connection closed by server while waiting for RESP reply")
          | _ => perr "Unexpected EOF in incomplete RESP frame"
          end in
        match timer, reads with
        | Some O, _ => (None, reads, buffer)
        | _, [] | _, Some [] :: _ => (Some eof, reads, buffer)
        | _, None :: reads => (Some (Err (ConnectionFailed "Failed to read RESP frame from socket: ")), reads, buffer)
        | _, Some chunk :: reads => read_reply (Nat.pred <$> timer) reads (buffer ++ chunk)
        end
  end.

Definition receive (timer : option nat) (c : RedisConnection) :
    option (result NetError RespValue) * RedisConnection :=
  let w := wire c in
  let '(r, rd, buf) := read_reply timer (reads w) (buffer w) in
  (r, set_wire (mkWire rd (sent w) (writable w) buf) c).

(** A read that no timer ends. *)
Definition read_value : RM RespValue :=
  λ c, match receive None c with
       | (Some r, c) => (r, c)
       | (None, c) => (perr "", c)
       end.

Definition execute_raw_inner (timer : option nat) (args : list string) (c : RedisConnection) :
    option (result NetError RespValue) * RedisConnection :=
  match write_command args c with
  | (Ok _, c) => receive timer c
  | (Err e, c) => (Some (Err e), c)
  end.

Definition execute_raw (timer : option nat) (args : list string) : RM RespValue :=
  λ c,
  match query_timeout c with
  | Some to =>
      match execute_raw_inner timer args c with
      | (Some res, c) => (res, c)
      | (None, c) =>
          (Err (Timeout ("Redis command timed out after " +:+ PgConnection.duration_debug to)), set_invalid c)
      end
  | None => (write_command args;; read_value) c
  end.

(** ** Handshake *)

Definition auth_credentials (a : Auth) : option (option string * string) :=
  match a with
  | Basic username password _ => Some (Some username, password)
  | Bearer token => Some (None, token)
  | NoAuth => None
  end.
Definition hello_command (a : Auth) : list string :=
  match auth_credentials a with
  | Some (user, pass) => ["HELLO"; "3"; "AUTH"; default "default" user; pass]
  | None => ["HELLO"; "3"]
  end.

(** [items.chunks(2)], an odd one left out. *)
Fixpoint info_items (items : list RespValue) (info : gmap string RespValue) : gmap string RespValue :=
  match items with
  | k :: v :: items => info_items items (<[to_string_lossy k := v]> info)
  | _ => info
  end.

(** What the reply to [HELLO] says; [true] if it switched the protocol. *)
Definition greet (resp : RespValue) : RM bool :=
  λ c,
  match resp with
  | RMap pairs =>
      (Ok true, set_greeting (foldl (λ m kv, <[to_string_lossy kv.1 := kv.2]> m) (server_info c) pairs) c)
  | Array (Some items) => (Ok true, set_greeting (info_items items (server_info c)) c)
  | _ => (Ok false, c)
  end.

Definition say_hello (a : Auth) : RM bool :=
  written ← attempt (write_command (hello_command a));
  match written with
  | None => mret false
  | Some _ => resp ← attempt read_value; match resp with Some resp => greet resp | None => mret false end
  end.

Definition login (a : Auth) : RM () :=
  match auth_credentials a with
  | None => mret tt
  | Some (user_opt, pass) =>
      written ← attempt (write_command (match user_opt with Some user => ["AUTH"; user; pass] | None => ["AUTH"; pass] end));
      match written with
      | None => mret tt
      | Some _ =>
          resp ← read_value;
          match resp with
          | SimpleString s =>
              if decide (s = "OK") then mret tt else r_perr "Unexpected authentication response: "
          | RError err => r_fail (AuthenticationFailed ("Redis authentication failed: " +:+ err))
          | _ => r_perr "Unexpected authentication response: "
          end
      end
  end.

Definition select_db (ps : gmap string string) : RM () :=
  match ps !! "db" ≫= λ db_str, parse_unsigned U32_MAX (as_bytes db_str) with
  | None => mret tt
  | Some db_idx =>
      write_command ["SELECT"; num db_idx];;
      resp ← read_value;
      match resp with
      | RError err => r_fail (ExecutionError ("Failed to SELECT Redis db " +:+ num db_idx +:+ ": " +:+ err))
      | _ => mret tt
      end
  end.

Definition handshake : RM () :=
  λ c,
  (switched_to_resp3 ← say_hello (auth (redis_uri c));
   (if switched_to_resp3 : bool then mret tt else login (auth (redis_uri c)));;
   select_db (params (redis_uri c))) c.

(** ** Opening a connection

    [tcp] is what [TcpStream::connect] gives, what can be read and whether it takes writes;
    [late] says that the connect timer fires first. *)
Definition graph_of (u : ParsedUri) : string :=
  match database u with
  | Some db => db
  | None => default "voyager_graph" (params u !! "graph")
  end.

Definition connect_raw (tcp : result string (list (option (list byte)) * bool)) (u : ParsedUri) :
    result NetError RedisConnection :=
  match tcp with
  | Err e =>
      Err (ConnectionFailed ("Failed to connect to Redis/FalkorDB host at " +:+ socket_addr u +:+ ": " +:+ e))
  | Ok (rd, takes) =>
      let timeout := or_else (from_secs <$> seconds_param "query_timeout" u) (Some (from_secs 30)) in
      match handshake (mkRedis (mkWire rd [] takes []) u false ∅ (graph_of u) false true timeout) with
      | (Ok _, conn) => Ok conn
      | (Err e, _) => Err e
      end
  end.

Definition connect (late : bool) (tcp : result string (list (option (list byte)) * bool)) (u : ParsedUri) :
    result NetError RedisConnection :=
  if decide (tls u ≠ Disabled) then
    Err (TlsError ("TLS encryption requested for Redis/FalkorDB endpoint '" +:+ host u +:+ "', but native TLS transport is not enabled. Plaintext downgrade rejected."))
  else
    let timeout_dur := from_secs (default 5 (seconds_param "connect_timeout" u)) in
    if late then
      Err (Timeout ("Connection or handshake to Redis/FalkorDB host at " +:+ socket_addr u
                    +:+ " timed out after " +:+ PgConnection.duration_debug timeout_dur))
    else connect_raw tcp u.

(** ** Queries *)

Notation json_params := (list (string * JsonValue)).

Definition graph_query (timer : option nat) (graph query : string) (ps : json_params) : RM FalkorQueryResult :=
  resp ← execute_raw timer ["GRAPH.QUERY"; graph; format_cypher_with_params query ps];
  r_result (FalkorQueryResult_parse resp).
Definition graph_ro_query (timer : option nat) (graph query : string) (ps : json_params) : RM FalkorQueryResult :=
  resp ← execute_raw timer ["GRAPH.RO_QUERY"; graph; format_cypher_with_params query ps];
  r_result (FalkorQueryResult_parse resp).

Definition graph_delete (timer : option nat) (graph : string) : RM () :=
  resp ← execute_raw timer ["GRAPH.DELETE"; graph];
  match resp with
  | RError e =>
      if str_contains e "does not exist" || str_contains e "Graph key" then mret tt
      else r_fail (ExecutionError ("Failed to delete graph '" +:+ graph +:+ "': " +:+ e))
  | _ => mret tt
  end.

(** ** The connection interface of the pool ([AsyncConnection]) *)

Definition execute (timer : option nat) (query : string) (ps : json_params) : RM QueryResult :=
  λ c, (falkor_res ← graph_query timer (default_graph c) query ps; r_result (to_query_result falkor_res)) c.

Definition ping (timer : option nat) : RM () :=
  resp ← execute_raw timer ["PING"];
  match resp with
  | SimpleString s => if decide (s = "PONG") then mret tt else r_perr "Unexpected PING response: "
  | BulkString (Some b) =>
      if decide (b = as_bytes "PONG") then mret tt else r_perr "Unexpected PING response: "
  | RError err => r_fail (ExecutionError ("PING failed: " +:+ err))
  | _ => r_perr "Unexpected PING response: "
  end.

Definition reset (timer : option nat) : RM () :=
  λ c,
  ((if in_transaction c then attempt (execute_raw timer ["DISCARD"]);; r_update (set_in_transaction false)
    else mret tt);;
   r_update clear_buffer) c.

Definition close : RM () := attempt (write_command ["QUIT"]);; r_update set_invalid.

(** ** Transactions: the borrowed connection is the monad's state *)

Record RedisTransaction := mkTransaction {
  is_active : bool; queued_count : Z; accumulated_summary : QuerySummary }.

Definition begin (timer : option nat) : RM RedisTransaction :=
  resp ← execute_raw timer ["MULTI"];
  match resp with
  | SimpleString s =>
      if decide (s = "OK") then
        r_update (set_in_transaction true);; mret (mkTransaction true 0 QuerySummary_empty)
      else r_perr "Unexpected response to MULTI: "
  | RError err => r_fail (TransactionError ("Failed to begin Redis transaction (MULTI): " +:+ err))
  | _ => r_perr "Unexpected response to MULTI: "
  end.

Definition tx_execute (timer : option nat) (query : string) (ps : json_params) (tx : RedisTransaction) :
    RM (QueryResult * RedisTransaction) :=
  λ c,
  (if is_active tx then
     resp ← execute_raw timer ["GRAPH.QUERY"; default_graph c; format_cypher_with_params query ps];
     match resp with
     | SimpleString s =>
         if decide (s = "QUEUED") then
           mret (QueryResult_empty QuerySummary_empty,
                 mkTransaction true (add_u64 (queued_count tx) 1) (accumulated_summary tx))
         else r_perr "Expected +QUEUED in transaction, got "
     | RError err => r_fail (ExecutionError ("Failed to queue query in transaction: " +:+ err))
     | _ => r_perr "Expected +QUEUED in transaction, got "
     end
   else r_fail (TransactionError "Cannot execute query on inactive transaction")) c.

Definition add_summary (total s : QuerySummary) : QuerySummary :=
  mkSummary (add_u64 (nodes_created total) (nodes_created s))
    (add_u64 (nodes_deleted total) (nodes_deleted s))
    (add_u64 (relationships_created total) (relationships_created s))
    (add_u64 (relationships_deleted total) (relationships_deleted s))
    (add_u64 (properties_set total) (properties_set s))
    (add_u64 (labels_added total) (labels_added s))
    (add_u64 (labels_removed total) (labels_removed s))
    (add_u64 (indexes_added total) (indexes_added s))
    (constraints_added total)
    (add_u64 (execution_time_ms total) (execution_time_ms s)).

Definition add_item (total : QuerySummary) (item : RespValue) : QuerySummary :=
  match FalkorQueryResult_parse item with
  | Ok res => add_summary total (to_query_summary (statistics res))
  | Err _ => total
  end.

Definition commit (timer : option nat) (tx : RedisTransaction) : RM QuerySummary :=
  if is_active tx then
    resp ← execute_raw timer ["EXEC"];
    r_update (set_in_transaction false);;
    match resp with
    | Array (Some results) => mret (foldl add_item (accumulated_summary tx) results)
    | Array None => r_fail (TransactionError "Transaction was aborted (EXEC returned null)")
    | RError err => r_fail (TransactionError ("Transaction EXEC failed: " +:+ err))
    | _ => r_perr "Unexpected response to EXEC: "
    end
  else r_fail (TransactionError "Transaction is already completed").

Definition rollback (timer : option nat) (tx : RedisTransaction) : RM () :=
  if is_active tx then
    resp ← execute_raw timer ["DISCARD"];
    r_update (set_in_transaction false);;
    match resp with
    | SimpleString s => if decide (s = "OK") then mret tt else r_perr "Unexpected response to DISCARD: "
    | RError err => r_fail (TransactionError ("Failed to discard transaction: " +:+ err))
    | _ => r_perr "Unexpected response to DISCARD: "
    end
  else mret tt.
End client.
