(* ===== verification/RedisClientSafe.v ===== *)
(** * The Redis client against a server

    Parameters are read back from the text they are sent in; a transaction sends its queries
    between [MULTI] and [EXEC] and returns the sum of what they did. *)
From S2P Require Import Prelude Bytes F64 Errors Text Resp RespStream Json PgRows Engine BTree Falkor FalkorSafe.
From S2P Require PgParams.
From S2P Require Import Uri RedisClient.

Open Scope Z_scope.
Open Scope string_scope.
Open Scope list_scope.

(** ** Reading the parameters back

    The header of a FalkorDB query: [CYPHER], then for each parameter a name, [=] and a literal
    of openCypher, with a space behind it; the query begins where no further [name =] does.
    The reader is told nothing about what was written. *)
Inductive CypherValue := CNull | CBool (b : bool) | CNumber (text : list byte) | CText (text : list byte).

(** The character behind a backslash. *)
Definition unescape (b : byte) : option byte :=
  match b with
  | x5c | x22 | x27 => Some b
  | x62 => Some x08 | x66 => Some x0c | x6e => Some x0a | x72 => Some x0d | x74 => Some x09
  | _ => None
  end.

(** A quoted literal ends at the first quote that is not escaped. *)
Fixpoint read_quoted (l : list byte) : option (list byte * list byte) :=
  match l with
  | [] => None
  | b :: l =>
      if decide (b = x22) then Some ([], l)
      else if decide (b = x5c) then
        match l with
        | c :: l => c ← unescape c; (λ p, (c :: p.1, p.2)) <$> read_quoted l
        | [] => None
        end
      else (λ p, (b :: p.1, p.2)) <$> read_quoted l
  end.

Definition begins_number (t : list byte) : bool :=
  match t with b :: _ => byte_in 48 57 b || bool_decide (b = x2d) | [] => false end.
Definition word_value (t : list byte) : option CypherValue :=
  if decide (t = as_bytes "null") then Some CNull
  else if decide (t = as_bytes "true") then Some (CBool true)
  else if decide (t = as_bytes "false") then Some (CBool false)
  else if begins_number t then Some (CNumber t) else None.

Definition read_literal (l : list byte) : option (CypherValue * list byte) :=
  match l with
  | x22 :: l => p ← read_quoted l; match p.2 with x20 :: rest => Some (CText p.1, rest) | _ => None end
  | _ => p ← split_once x20 l; v ← word_value p.1; Some (v, p.2)
  end.

Definition name_byte (b : byte) : bool :=
  byte_in 48 57 b || byte_in 65 90 b || byte_in 97 122 b || bool_decide (b = x5f).
Definition is_name (l : list byte) : bool :=
  match l with b :: _ => forallb name_byte l && negb (byte_in 48 57 b) | [] => false end.
Fixpoint name_span (l : list byte) : list byte * list byte :=
  match l with
  | b :: l' => if name_byte b then let '(k, r) := name_span l' in (b :: k, r) else ([], l)
  | [] => ([], [])
  end.
Fixpoint skip_spaces (l : list byte) : list byte := match l with x20 :: l => skip_spaces l | _ => l end.

(** [name =] at the head of a text, and what follows. *)
Definition parameter_head (l : list byte) : option (list byte * list byte) :=
  let '(k, r) := name_span (skip_spaces l) in
  match is_name k, skip_spaces r with true, x3d :: r => Some (k, skip_spaces r) | _, _ => None end.

Fixpoint read_parameters (fuel : nat) (l : list byte) : option (list (list byte * CypherValue) * list byte) :=
  match fuel, parameter_head l with
  | S fuel, Some (k, r) => v ← read_literal r; ps ← read_parameters fuel v.2; Some ((k, v.1) :: ps.1, ps.2)
  | _, _ => Some ([], l)
  end.

(** A parameter takes a character at least. *)
Definition read_header (l : list byte) : option (list (list byte * CypherValue) * list byte) :=
  l ← strip_bytes (as_bytes "CYPHER ") l; read_parameters (length l) l.

Section parameters.
Context `{JsonText}.

(** The value a parameter is to have; a list or a map is its JSON text. *)
Definition cypher_value (v : JsonValue) : CypherValue :=
  match v with
  | JNull => CNull
  | JBool b => CBool b
  | JNumber n => CNumber (as_bytes (number_text n))
  | JString s => CText (as_bytes s)
  | JArray _ | JObject _ => CText (as_bytes (json_text v))
  end.

Lemma replace_byte a to l :
  PgParams.replace [a] to l = flat_map (λ b, if decide (a = b) then to else [b]) l.
Proof.
  unfold PgParams.replace. induction l as [|b l IH]; [done|]. cbn.
  destruct (decide (a = b)) as [->|Hne].
  - rewrite bool_decide_true by done. cbn. by rewrite IH.
  - rewrite bool_decide_false by done. cbn. by rewrite IH.
Qed.

Definition escape_byte (b : byte) : list byte :=
  if decide (b = x5c) then [x5c; x5c] else if decide (b = x22) then [x5c; x22] else [b].

Lemma escape_literal_bytes s : escape_literal s = flat_map escape_byte s.
Proof.
  unfold escape_literal. rewrite !replace_byte. induction s as [|b s IH]; [done|].
  cbn [flat_map]. rewrite flat_map_app, IH. f_equal. unfold escape_byte.
  destruct (decide (x5c = b)) as [<-|Hb]; [done|]. rewrite (decide_False (P := b = x5c)) by congruence.
  cbn. destruct (decide (x22 = b)) as [<-|Hq]; [done|]. by rewrite decide_False by congruence.
Qed.

Lemma read_quoted_escape s rest : read_quoted (escape_literal s ++ x22 :: rest) = Some (s, rest).
Proof.
  rewrite escape_literal_bytes. induction s as [|b s IH]; [done|]. cbn [flat_map]. rewrite <- app_assoc.
  unfold escape_byte at 1.
  destruct (decide (b = x5c)) as [->|Hb]; [cbn; by rewrite IH|].
  destruct (decide (b = x22)) as [->|Hq]; [cbn; by rewrite IH|].
  cbn. rewrite decide_False by done. rewrite decide_False by done. by rewrite IH.
Qed.

Lemma split_once_app sep a l : sep ∉ a → split_once sep (a ++ sep :: l) = Some (a, l).
Proof.
  induction a as [|b a IH]; cbn; [by rewrite decide_True|].
  rewrite not_elem_of_cons. intros [Hb Ha]. rewrite decide_False by congruence. by rewrite IH.
Qed.

(** [serde_json] writes a number as JSON has it: a digit or a minus first, and no space. *)
Hypothesis number_texts : ∀ n, begins_number (as_bytes (number_text n)) = true ∧ x20 ∉ as_bytes (number_text n).

Lemma read_word w v rest : head w ≠ Some x22 → x20 ∉ w → word_value w = Some v → read_literal (w ++ x20 :: rest) = Some (v, rest).
Proof.
  intros Hq Hs Hv. destruct w as [|b w]; [done|].
  transitivity (p ← split_once x20 ((b :: w) ++ x20 :: rest); v ← word_value p.1; Some (v, p.2)).
  { cbn [app]. unfold read_literal. by destruct b. }
  rewrite split_once_app by done. cbn [mbind option_bind fst snd]. by rewrite Hv.
Qed.

Lemma word_value_number w : begins_number w = true → word_value w = Some (CNumber w).
Proof.
  intros Hw. unfold word_value. rewrite !decide_False by (intros ->; discriminate Hw). by rewrite Hw.
Qed.

Lemma read_quoted_literal s rest :
  read_literal (as_bytes (quoted_literal s) ++ x20 :: rest) = Some (CText (as_bytes s), rest).
Proof.
  unfold quoted_literal. rewrite as_bytes_of_bytes, <- !app_assoc. cbn [app read_literal].
  by rewrite read_quoted_escape.
Qed.

Lemma read_param_literal v rest :
  read_literal (as_bytes (param_literal v) ++ x20 :: rest) = Some (cypher_value v, rest).
Proof.
  destruct v as [|[]|n|s|items|entries]; cbn [param_literal cypher_value]; try apply read_quoted_literal.
  - apply read_word; vm_compute; [done|set_solver|done].
  - apply read_word; vm_compute; [done|set_solver|done].
  - apply read_word; vm_compute; [done|set_solver|done].
  - destruct (number_texts n) as [Hn Hs]. apply read_word; [|done|by apply word_value_number].
    intros Hq. destruct (as_bytes (number_text n)) as [|b l]; [done|]. injection Hq as ->. discriminate Hn.
Qed.

(** *** Names *)
Lemma name_span_app k b r : forallb name_byte k = true → name_byte b = false → name_span (k ++ b :: r) = (k, b :: r).
Proof.
  intros Hk Hb. induction k as [|c k IH]; cbn in *; [by rewrite Hb|].
  apply andb_true_iff in Hk as [Hc Hk]. by rewrite Hc, IH.
Qed.

Lemma skip_spaces_here b l : b ≠ x20 → skip_spaces (b :: l) = b :: l.
Proof. by destruct b. Qed.

Lemma parameter_head_here k v r : is_name k = true → skip_spaces (v ++ r) = v ++ r → parameter_head (k ++ x3d :: v ++ r) = Some (k, v ++ r).
Proof.
  intros Hk Hv. unfold parameter_head. pose proof Hk as Hk'. destruct k as [|b k]; [done|].
  apply andb_true_iff in Hk' as [Hall _]. pose proof Hall as [Hb _]%andb_true_iff.
  pose proof (name_span_app (b :: k) x3d (v ++ r) Hall eq_refl) as Hs. cbn [app] in *.
  rewrite skip_spaces_here by (intros ->; discriminate Hb). rewrite Hs, Hk. cbn [skip_spaces]. by rewrite Hv.
Qed.

Lemma param_literal_head v : ∃ b l, as_bytes (param_literal v) = b :: l ∧ b ≠ x20.
Proof.
  destruct v as [|[]|n|s|items|entries]; cbn [param_literal];
    try (eexists _, _; split; [reflexivity|done]);
    try (unfold quoted_literal; rewrite as_bytes_of_bytes; by eexists _, _).
  destruct (number_texts n) as [Hn Hs]. destruct (as_bytes (number_text n)) as [|b l]; [done|].
  exists b, l. split; [done|]. intros ->. apply Hs. by left.
Qed.

(** ** The order of the parameters *)

Lemma bt_insert_perm {V} k (v : V) m : k ∉ m.*1 → (bt_insert k v m).*1 ≡ₚ k :: m.*1.
Proof.
  induction m as [|[k' v'] m IH]; [done|]. cbn [fmap list_fmap fst bt_insert].
  rewrite not_elem_of_cons. intros [Hne Hk]. destruct (str_cmp k k') eqn:E.
  - by apply str_cmp_eq in E.
  - done.
  - cbn [fmap list_fmap fst]. rewrite (IH Hk). by constructor.
Qed.

Lemma sort_keys_perm ks : NoDup ks → sort_keys ks ≡ₚ ks.
Proof.
  unfold sort_keys. induction 1 as [|k ks Hk _ IH]; [done|]. cbn [foldr].
  rewrite bt_insert_perm; [by constructor|]. by rewrite IH.
Qed.

Lemma assoc_get_here {K V} `{EqDecision K} (m : list (K * V)) d :
  NoDup m.*1 → map (λ k, (k, default d (assoc_get k m))) m.*1 = m.
Proof.
  induction m as [|[k v] m IH]; csimpl; [done|]. intros [Hk Hnd]%NoDup_cons.
  rewrite decide_True by done. f_equal. rewrite <- IH at 2 by done. apply map_ext_in.
  intros k' Hk'. rewrite decide_False; [done|]. intros ->. by apply Hk, list_elem_of_In.
Qed.

(** ** The header *)

Lemma join_bytes parts query :
  parts ≠ [] →
  as_bytes (join " " parts +:+ " " +:+ query) = flat_map (λ p, as_bytes p ++ [x20]) parts ++ as_bytes query.
Proof.
  induction parts as [|p [|q parts] IH]; [done| |]; intros _.
  - cbn [join flat_map]. rewrite !as_bytes_app, app_nil_r. cbn. by rewrite <- app_assoc.
  - change (join " " (p :: q :: parts)) with (p +:+ " " +:+ join " " (q :: parts)).
    rewrite !string_app_assoc, !as_bytes_app. rewrite !as_bytes_app in IH. rewrite IH by done.
    cbn [flat_map]. by rewrite <- !app_assoc.
Qed.

Lemma read_parameters_parts params ks rest fuel :
  Forall (λ k, is_name (as_bytes k) = true) ks → (length ks <= fuel)%nat → parameter_head rest = None →
  read_parameters fuel (flat_map (λ p, as_bytes p ++ [x20]) (map (param_part params) ks) ++ rest)
  = Some (map (λ k, (as_bytes k, cypher_value (default JNull (assoc_get k params)))) ks, rest).
Proof.
  intros Hks Hf Hr. revert fuel Hf. induction Hks as [|k ks Hk _ IH]; intros fuel Hf.
  { cbn [map flat_map app]. destruct fuel; [done|]. cbn [read_parameters]. by rewrite Hr. }
  destruct fuel as [|fuel]; [cbn in Hf; lia|]. cbn [map flat_map]. unfold param_part at 1.
  rewrite !as_bytes_app, <- !app_assoc. change (as_bytes "=" ++ ?l) with (x3d :: l).
  set (v := default JNull (assoc_get k params)). destruct (param_literal_head v) as (b & l & Ev & Hb).
  cbn [read_parameters]. rewrite parameter_head_here; [|done|rewrite Ev; cbn [app]; by apply skip_spaces_here].
  change ([x20] ++ ?l) with (x20 :: l). rewrite read_param_literal. cbn [mbind option_bind fst snd].
  rewrite IH by (cbn in Hf; lia). done.
Qed.

(** C35: what a FalkorDB server reads out of a query is the parameters that were passed and
    the query.  If the names are distinct identifiers (which the code does not check) and the
    query does not itself begin with [name =], a reader of the [CYPHER] header, who knows
    nothing of what was written, finds the names in order, each with its value: null, the
    truth value, the number, the text, or for a list or a map the text of its JSON; and behind
    the last one the query unchanged.  No value ends its own literal, whatever it holds. *)
Theorem redis_parameters_read_back query params :
  params ≠ [] → NoDup params.*1 → Forall (λ k, is_name (as_bytes k) = true) params.*1 →
  parameter_head (as_bytes query) = None →
  ∃ order, order ≡ₚ params
    ∧ read_header (as_bytes (format_cypher_with_params query params))
      = Some (map (λ kv, (as_bytes kv.1, cypher_value kv.2)) order, as_bytes query).
Proof.
  intros Hne Hnd Hk Hq. pose proof (sort_keys_perm _ Hnd) as Hp.
  exists (map (λ k, (k, default JNull (assoc_get k params))) (sort_keys params.*1)). split.
  { rewrite Hp. by rewrite assoc_get_here. }
  unfold read_header, format_cypher_with_params. rewrite map_map.
  destruct params as [|kv params]; [done|]. set (ps := kv :: params) in *.
  rewrite as_bytes_app, strip_bytes_app. cbn [mbind option_bind].
  rewrite join_bytes.
  - rewrite read_parameters_parts; [done|by rewrite Hp| |done].
    rewrite length_app. set (ks := sort_keys _). clear. enough (length ks <= length (flat_map (λ p, as_bytes p ++ [x20]) (map (param_part ps) ks)))%nat by lia.
    induction ks as [|k ks IH]; [done|]. cbn [map flat_map length]. rewrite !length_app. cbn [length]. lia.
  - intros E%map_eq_nil. rewrite E in Hp. by apply Permutation_nil in Hp.
Qed.
End parameters.

(** ** Commands and their replies *)

Section exchanges.
Context `{F64Text} `{RespDebug} `{LowerCase} `{CharClass} `{ArrowBatches} `{JsonText}.

Lemma read_reply_agrees rd buf v b rest :
  read_resp_value rd buf = Ok (v, b, rest) → read_reply None rd buf = (Some (Ok v), rest, b).
Proof.
  revert buf. induction rd as [|r rd IH]; intros buf; cbn [read_resp_value read_reply];
    (destruct (match buf with [] => Ok (None, buf) | _ => Resp.parse buf end) as [[[val|] buf']|e];
     cbn [mbind result_bind]; [congruence| |done]);
    (destruct (MAX_RESP_FRAME_SIZE <? blen buf')%Z; [done|]).
  - by destruct buf'.
  - destruct r as [[|x chunk]|]; [by destruct buf'| |done]. apply IH.
Qed.

(** What is still to be read, on the socket and in the buffer, is the replies [vs] and [tail]. *)
Definition awaiting (vs : list RespValue) (tail : list byte) (c : RedisConnection) : Prop :=
  writable (wire c) = true ∧
  ∃ chunks, reads (wire c) = map Some chunks ∧ Forall (λ x, x ≠ []) chunks
    ∧ buffer (wire c) ++ concat chunks = flat_map encode vs ++ tail
    ∧ blen (buffer (wire c) ++ concat chunks) <= MAX_RESP_FRAME_SIZE.

Lemma awaiting_mono_len v vs tail b cs :
  b ++ concat cs = flat_map encode vs ++ tail →
  blen (flat_map encode (v :: vs) ++ tail) <= MAX_RESP_FRAME_SIZE → blen (b ++ concat cs) <= MAX_RESP_FRAME_SIZE.
Proof.
  intros ->. cbn [flat_map]. rewrite <- app_assoc, blen_app. pose proof (blen_nonneg (encode v)). lia.
Qed.

(** A command gets the next reply, whatever way the socket cuts it, and no more. *)
Lemma raw_answer args v vs tail c :
  sendable v → awaiting (v :: vs) tail c →
  ∃ w, execute_raw None args c = (Ok v, set_wire w c)
    ∧ awaiting vs tail (set_wire w c) ∧ sent w = sent (wire c) ++ encode_command args.
Proof.
  intros Hv (Hw & chunks & Hrd & Hne & E & Hlen).
  assert (E' := E). cbn [flat_map] in E'. rewrite <- app_assoc in E'.
  destruct (read_one v _ chunks _ Hv Hne E' Hlen) as (b & cs & Hr & Hb & Hne').
  apply read_reply_agrees in Hr.
  exists (mkWire (map Some cs) (sent (wire c) ++ encode_command args) true b). split; [|split; [|done]].
  - unfold execute_raw, execute_raw_inner, write_command, read_value, receive. cbn. rewrite ?Hw.
    destruct (query_timeout c); unfold mbind, RM_bind; cbn; rewrite ?Hw; cbn; rewrite Hrd, Hr; done.
  - split; [done|]. exists cs. cbn. split; [done|]. split; [done|]. split; [done|].
    eapply awaiting_mono_len; [exact Hb|]. by rewrite <- E.
Qed.

(** ** A transaction *)

Notation query := (string * list (string * JsonValue))%type.

Fixpoint run_queries (qs : list query) (tx : RedisTransaction) : RM RedisTransaction :=
  match qs with
  | [] => mret tx
  | q :: qs => r ← tx_execute None q.1 q.2 tx; run_queries qs r.2
  end.
Definition transaction (qs : list query) : RM QuerySummary :=
  tx ← begin None; tx ← run_queries qs tx; commit None tx.

Definition query_command (graph : string) (q : query) : list string :=
  ["GRAPH.QUERY"; graph; format_cypher_with_params q.1 q.2].

Lemma simple_sendable s : wf_line s → sendable (SimpleString s).
Proof. intros Hs. split; [done|]. cbn. unfold MAX_RESP_DEPTH. lia. Qed.

Lemma begin_answered vs tail c :
  awaiting (SimpleString "OK" :: vs) tail c →
  ∃ w, begin None c = (Ok (mkTransaction true 0 QuerySummary_empty), set_in_transaction true (set_wire w c))
    ∧ awaiting vs tail (set_wire w c) ∧ sent w = sent (wire c) ++ encode_command ["MULTI"].
Proof.
  intros Hc. destruct (raw_answer ["MULTI"] (SimpleString "OK") vs tail c) as (w & E & Hw); [|done|].
  { by apply simple_sendable. }
  exists w. split; [|done]. unfold begin, mbind, RM_bind. by rewrite E.
Qed.

Lemma run_queries_answered qs : ∀ tx vs tail c,
  is_active tx = true →
  awaiting (replicate (length qs) (SimpleString "QUEUED") ++ vs) tail c →
  ∃ w tx', run_queries qs tx c = (Ok tx', set_wire w c)
    ∧ is_active tx' = true ∧ accumulated_summary tx' = accumulated_summary tx
    ∧ awaiting vs tail (set_wire w c)
    ∧ sent w = sent (wire c) ++ flat_map encode_command (map (query_command (default_graph c)) qs).
Proof.
  induction qs as [|q qs IH]; intros tx vs tail c Htx Hc.
  { exists (wire c), tx. cbn. rewrite app_nil_r. by destruct c. }
  destruct (raw_answer (query_command (default_graph c) q) (SimpleString "QUEUED")
              (replicate (length qs) (SimpleString "QUEUED") ++ vs) tail c) as (w & E & Hw & Hs); [|exact Hc|].
  { by apply simple_sendable. }
  destruct (IH (mkTransaction true (add_u64 (queued_count tx) 1) (accumulated_summary tx)) vs tail _ eq_refl Hw)
    as (w' & tx' & E' & Ha & Hsum & Hw' & Hs').
  exists w', tx'. split; [|split; [done|]; split; [done|]; split; [done|]].
  - cbn [run_queries]. unfold mbind at 1, RM_bind at 1. unfold tx_execute. rewrite Htx.
    unfold mbind at 1, RM_bind at 1. unfold query_command in E. rewrite E. cbn. done.
  - rewrite Hs'. cbn [set_wire wire default_graph map flat_map]. rewrite Hs. by rewrite <- app_assoc.
Qed.

Lemma commit_answered results tx vs tail c :
  is_active tx = true → sendable (Array (Some results)) → awaiting (Array (Some results) :: vs) tail c →
  ∃ w, commit None tx c
       = (Ok (foldl add_item (accumulated_summary tx) results), set_in_transaction false (set_wire w c))
    ∧ awaiting vs tail (set_wire w c) ∧ sent w = sent (wire c) ++ encode_command ["EXEC"].
Proof.
  intros Htx Hv Hc. destruct (raw_answer ["EXEC"] _ vs tail c Hv Hc) as (w & E & Hw).
  exists w. split; [|done]. unfold commit. rewrite Htx. unfold mbind, RM_bind. by rewrite E.
Qed.

(** ** The sum of the summaries *)

Definition counters : list (QuerySummary → Z) :=
  [nodes_created; nodes_deleted; relationships_created; relationships_deleted; properties_set;
   labels_added; labels_removed; indexes_added; execution_time_ms].

(** What a query of the transaction counted; nothing if its result is none. *)
Definition item_count (f : QuerySummary → Z) (item : RespValue) : Z :=
  match FalkorQueryResult_parse item with Ok res => f (to_query_summary (statistics res)) | Err _ => 0 end.
Definition total (l : list Z) : Z := foldr Z.add 0 l.

Lemma add_summary_counter f t s : f ∈ counters → f (add_summary t s) = add_u64 (f t) (f s).
Proof. intros Hf. repeat (apply elem_of_cons in Hf as [->|Hf]; [done|]). by apply elem_of_nil in Hf. Qed.

Lemma add_items_counter f results t :
  f ∈ counters → 0 <= f t < 2 ^ 64 →
  f (foldl add_item t results) = (f t + total (map (item_count f) results)) mod 2 ^ 64.
Proof.
  intros Hf. revert t. induction results as [|item results IH]; intros t Ht; cbn [foldl map total foldr].
  { rewrite Z.add_0_r. by rewrite Z.mod_small. }
  fold (total (map (item_count f) results)). unfold add_item, item_count at 1.
  destruct (FalkorQueryResult_parse item) as [res|e]; [|by apply IH].
  assert (f (add_summary t (to_query_summary (statistics res)))
          = (f t + f (to_query_summary (statistics res))) mod 2 ^ 64) as Hadd by by apply add_summary_counter.
  rewrite IH, Hadd; [|rewrite Hadd; apply Z.mod_pos_bound; lia].
  rewrite Zplus_mod_idemp_l. f_equal. lia.
Qed.

Lemma add_items_constraints results t : constraints_added (foldl add_item t results) = constraints_added t.
Proof.
  revert t. induction results as [|item results IH]; intros t; [done|]. cbn [foldl]. rewrite IH.
  unfold add_item. by case_match.
Qed.

(** A transaction on Redis is what its queries are.  If a server answers [OK], then
    [QUEUED] for each query and at last the array of their results, in whatever pieces the
    socket delivers it, then the transaction succeeds; what was sent is [MULTI], the queries
    on the connection's graph in order, and [EXEC], nothing else; each counter of the
    returned summary is the sum of the counters of the results, at 64 bits; the connection is
    out of the transaction and no byte of another reply was touched. *)
Theorem redis_transaction_commits qs results tail c :
  sendable (Array (Some results)) →
  awaiting (SimpleString "OK" :: replicate (length qs) (SimpleString "QUEUED") ++ [Array (Some results)]) tail c →
  ∃ w s, transaction qs c = (Ok s, set_in_transaction false (set_wire w c))
    ∧ awaiting [] tail (set_wire w c)
    ∧ sent w = sent (wire c)
               ++ flat_map encode_command (["MULTI"] :: map (query_command (default_graph c)) qs ++ [["EXEC"]])
    ∧ Forall (λ f, f s = total (map (item_count f) results) mod 2 ^ 64) counters
    ∧ constraints_added s = 0.
Proof.
  intros Hv Hc.
  destruct (begin_answered _ tail c Hc) as (w1 & E1 & A1 & S1).
  destruct (run_queries_answered qs (mkTransaction true 0 QuerySummary_empty) [Array (Some results)] tail
              (set_in_transaction true (set_wire w1 c)) eq_refl A1) as (w2 & tx & E2 & Ha & Hsum & A2 & S2).
  destruct (commit_answered results tx [] tail _ Ha Hv A2) as (w3 & E3 & A3 & S3).
  exists w3. eexists. split; [|split; [exact A3|split; [|split]]].
  - unfold transaction, mbind, RM_bind. rewrite E1. rewrite E2. rewrite E3. reflexivity.
  - rewrite S3. cbn [set_wire set_in_transaction wire]. rewrite S2. cbn [set_wire set_in_transaction wire default_graph].
    rewrite S1. cbn [flat_map]. rewrite flat_map_app. cbn [flat_map]. by rewrite app_nil_r, <- !app_assoc.
  - rewrite Hsum. cbn [accumulated_summary]. apply Forall_forall. intros f Hf.
    assert (f QuerySummary_empty = 0) as Hz.
    { repeat (apply elem_of_cons in Hf as [->|Hf]; [done|]). by apply elem_of_nil in Hf. }
    rewrite add_items_counter by (done || (rewrite Hz; lia)). by rewrite Hz.
  - by rewrite Hsum, add_items_constraints.
Qed.
End exchanges.

(** ** At a server *)

#[local] Existing Instance bits_text.
#[local] Existing Instance ascii_CharClass.
#[local] Existing Instance ascii_LowerCase.
#[local] Instance no_resp_debug : RespDebug := λ _, "".
#[local] Instance checked_batches : ArrowBatches.
Proof. refine {| try_new fields cols := if batch_ok fields cols then Some (mkBatch fields cols) else None |}. done. Defined.
#[local] Instance one_number : JsonNumbers :=
  {| json_number := (); number_as_i64 _ := Some 7; number_as_f64 _ := None; number_text _ := "7" |}.
#[local] Instance no_json_text : JsonText := λ _, "[7]".

Definition tricky : string := of_bytes [x61; x22; x20; x5c].
Definition some_params : list (string * JsonValue) := [("s", JString tricky); ("n", JNumber ())].

Lemma redis_parameters_read_back_witness :
  (∃ order, order ≡ₚ some_params
    ∧ read_header (as_bytes (format_cypher_with_params "RETURN $s, $n" some_params))
      = Some (map (λ kv, (as_bytes kv.1, cypher_value kv.2)) order, as_bytes "RETURN $s, $n"))
  ∧ read_header (as_bytes (format_cypher_with_params "RETURN $s, $n" some_params))
    = Some ([([x6e], CNumber [x37]); ([x73], CText [x61; x22; x20; x5c])], as_bytes "RETURN $s, $n").
Proof.
  split; [|vm_compute; reflexivity]. apply (redis_parameters_read_back).
  - intros []. vm_compute. split; [done|]. intros Hin. repeat (apply elem_of_cons in Hin as [Hin|Hin]; [done|]). by apply elem_of_nil in Hin.
  - done.
  - apply (bool_decide_unpack _). vm_compute. done.
  - by repeat constructor.
  - reflexivity.
Defined.

(** A name goes into the text as it is: it can set a parameter of its own. *)
Lemma parameter_name_injects :
  format_cypher_with_params "RETURN $a" [("a=1 b", JNull)] = "CYPHER a=1 b=null RETURN $a" ∧
  read_header (as_bytes "CYPHER a=1 b=null RETURN $a")
  = Some ([([x61], CNumber [x31]); ([x62], CNull)], as_bytes "RETURN $a").
Proof. vm_compute. done. Qed.

(** A list arrives as the text of its JSON, not as a list. *)
Lemma list_parameter_is_a_text items : cypher_value (JArray items) = CText (as_bytes "[7]").
Proof. reflexivity. Qed.

Definition redis_at (rd : list (option (list byte))) : RedisConnection :=
  mkRedis (mkWire rd [] true []) (mkUri Redis "localhost" None NoAuth None Disabled ∅ None "") false ∅ "g" false true
    (Some 30000000000).
Definition script (vs : list RespValue) : list (option (list byte)) := [Some (flat_map encode vs)].

Definition created_two : RespValue := Array (Some [Array (Some [bulk "Nodes created: 2"])]).

Lemma redis_transaction_commits_witness :
  ∃ w s, transaction [("CREATE (:A)", [])] (redis_at (script [SimpleString "OK"; SimpleString "QUEUED"; Array (Some [created_two])]))
         = (Ok s, set_in_transaction false (set_wire w (redis_at (script [SimpleString "OK"; SimpleString "QUEUED"; Array (Some [created_two])]))))
    ∧ awaiting [] [] (set_wire w (redis_at (script [SimpleString "OK"; SimpleString "QUEUED"; Array (Some [created_two])])))
    ∧ sent w = [] ++ flat_map encode_command (["MULTI"] :: [query_command "g" ("CREATE (:A)", [])] ++ [["EXEC"]])
    ∧ Forall (λ f, f s = total (map (item_count f) [created_two]) mod 2 ^ 64) counters
    ∧ constraints_added s = 0.
Proof.
  apply (redis_transaction_commits [("CREATE (:A)", [])] [created_two] []).
  - vm_compute. repeat split; discriminate.
  - split; [done|]. exists [flat_map encode [SimpleString "OK"; SimpleString "QUEUED"; Array (Some [created_two])]].
    split; [done|]. split; [by repeat constructor|]. split; [done|]. by vm_compute.
Defined.

(** A query that fails inside of [EXEC] answers with an error in the array; [commit] leaves it
    out of the sum and succeeds. *)
Lemma commit_hides_errors :
  (transaction [("CREATE (:A)", [])]
     (redis_at (script [SimpleString "OK"; SimpleString "QUEUED"; Array (Some [RError "errMsg: type mismatch"])]))).1
  = Ok QuerySummary_empty.
Proof. vm_compute. reflexivity. Qed.

(** The timer of a query fires before [QUEUED] has come.  The transaction goes on; its [EXEC]
    is carried out by the server, but [commit] reads the late [QUEUED] as its reply and says
    that it failed. *)
Lemma late_reply_hides_commit :
  let c := redis_at [Some (encode (SimpleString "OK"));
                     Some (flat_map encode [SimpleString "QUEUED"; Array (Some [created_two])])] in
  let tx := mkTransaction true 0 QuerySummary_empty in
  let c1 := (begin None c).2 in
  let c2 := (tx_execute (Some 0%nat) "CREATE (:A)" [] tx c1).2 in
  (begin None c).1 = Ok tx
  ∧ (tx_execute (Some 0%nat) "CREATE (:A)" [] tx c1).1 = Err (Timeout "Redis command timed out after 30s")
  ∧ (commit None tx c2).1 = Err (ProtocolError "Unexpected response to EXEC: ")
  ∧ sent (wire (commit None tx c2).2)
    = flat_map encode_command [["MULTI"]; query_command "g" ("CREATE (:A)", []); ["EXEC"]].
Proof. vm_compute. repeat split. Qed.

(** Without credentials no reply to [HELLO] is needed: a server that hangs up at once, or
    refuses to talk before a login, counts as connected. *)
Lemma connected_to_nobody :
  match connect false (Ok ([], true)) (redis_uri (redis_at [])) with
  | Ok c => (ping None c).1 = Err (ConnectionFailed "Connection closed by server while waiting for RESP reply")
  | Err _ => False
  end.
Proof. vm_compute. reflexivity. Qed.

(** The interface itself: a query and a reply, cut in two by the socket. *)
Example execute_a_query :
  (execute None "RETURN $n" some_params
     (redis_at [Some (take 20 (encode (Array (Some [Array (Some [bulk "n"]); Array (Some [Array (Some [RInteger 7])]); Array (Some [bulk "Cached execution: 1"])]))));
                Some (drop 20 (encode (Array (Some [Array (Some [bulk "n"]); Array (Some [Array (Some [RInteger 7])]); Array (Some [bulk "Cached execution: 1"])]))))])).1
  = Ok (mkResult ["n"] [mkBatch [("n", Int64)] [Int64Array [Some 7]]] QuerySummary_empty).
Proof. vm_compute. reflexivity. Qed.
