(* ===== verification/BoltClient.v ===== *)
(** * Connections of the Bolt client ([voyager-net/src/bolt/connection.rs])

    A connection is its stream, the buffer of bytes read too far, and the fields the code
    keeps.  An operation returns the connection with its result.  The timer of a query is an
    input: it fires, if it does, while the client waits for one of its reads; the future is
    then dropped where it waits, and with it the chunks of a message that is not complete.
    A peer sends a finite number of times; then it either hangs up or stays silent with the
    connection open, and a read waits until a timer fires, or for good.  A write is taken or
    refused at once.
    The crate's version and the target's operating system are parameters, as are the text of
    a value as JSON and Arrow's [RecordBatch]. *)
From S2P Require Import Prelude Bytes F64 Errors Text Json PgRows Engine Falkor.
From S2P Require Import BoltValue PackStream BoltStream BoltMessages Calendar.
From S2P Require Uri PgConnection.

Open Scope Z_scope.
Open Scope string_scope.
Open Scope list_scope.

Definition BOLT_MAGIC_PREAMBLE : list byte := [x60; x60; xb0; x17].
Definition BOLT_PROPOSED_VERSIONS : list byte :=
  [x00; x00; x04; x05; x00; x00; x00; x05; x00; x00; x04; x04; x00; x00; x02; x04].

Record BoltVersion := mkVersion { major : Z; minor : Z }.

(** ** State *)
Record Stream := mkStream {
  reads : socket;
  sent : list byte;
  writable : bool;
  timer : option nat;
  read_buf : list byte;
  stays_open : bool;
}.
Record BoltConnection := mkBolt {
  stream : Stream;
  version : BoltVersion;
  is_valid : bool;
  in_transaction : bool;
  server_agent : option string;
  last_bookmark : option string;
  last_metadata : option BoltMap;
  query_timeout : option Z;
}.

Definition set_timer (t : option nat) (s : Stream) : Stream :=
  mkStream (reads s) (sent s) (writable s) t (read_buf s) (stays_open s).
Definition set_stream (s : Stream) (c : BoltConnection) : BoltConnection :=
  mkBolt s (version c) (is_valid c) (in_transaction c) (server_agent c) (last_bookmark c) (last_metadata c)
    (query_timeout c).
Definition set_invalid (c : BoltConnection) : BoltConnection :=
  mkBolt (stream c) (version c) false (in_transaction c) (server_agent c) (last_bookmark c) (last_metadata c)
    (query_timeout c).
Definition set_in_transaction (b : bool) (c : BoltConnection) : BoltConnection :=
  mkBolt (stream c) (version c) (is_valid c) b (server_agent c) (last_bookmark c) (last_metadata c)
    (query_timeout c).
Definition set_server_agent (agent : string) (c : BoltConnection) : BoltConnection :=
  mkBolt (stream c) (version c) (is_valid c) (in_transaction c) (Some agent) (last_bookmark c) (last_metadata c)
    (query_timeout c).
Definition set_bookmark (bm : string) (c : BoltConnection) : BoltConnection :=
  mkBolt (stream c) (version c) (is_valid c) (in_transaction c) (server_agent c) (Some bm) (last_metadata c)
    (query_timeout c).
Definition set_metadata (m : BoltMap) (c : BoltConnection) : BoltConnection :=
  mkBolt (stream c) (version c) (is_valid c) (in_transaction c) (server_agent c) (last_bookmark c) (Some m)
    (query_timeout c).
Definition set_query_timeout (timeout : option Z) (c : BoltConnection) : BoltConnection :=
  mkBolt (stream c) (version c) (is_valid c) (in_transaction c) (server_agent c) (last_bookmark c) (last_metadata c)
    timeout.

(** ** The monad of operations on a connection

    An operation ends in an error of its own, with its future dropped by the timer, or, which
    no operation does, without fuel; or it does not end: it waits for a silent peer. *)
Inductive halt := Raise (e : NetError) | Late | Waiting | OutOfFuel.

Definition KM (A : Type) : Type := BoltConnection → result halt A * BoltConnection.
#[export] Instance KM_ret : MRet KM := λ A x c, (Ok x, c).
#[export] Instance KM_bind : MBind KM :=
  λ A B f m c, match m c with (Ok x, c) => f x c | (Err e, c) => (Err e, c) end.
Definition k_result {A} (r : result halt A) : KM A := λ c, (r, c).
Definition k_fail {A} (e : NetError) : KM A := k_result (Err (Raise e)).
Definition k_net {A} (r : result NetError A) : KM A :=
  k_result match r with Ok x => Ok x | Err e => Err (Raise e) end.
Definition k_update (f : BoltConnection → BoltConnection) : KM () := λ c, (Ok tt, f c).
(** [let _ = m.await]. *)
Definition ignore {A} (m : KM A) : KM () :=
  λ c, match m c with
       | (Ok _, c) | (Err (Raise _), c) => (Ok tt, c)
       | (Err e, c) => (Err e, c)
       end.
(** [timeout(to, m).await], the timer firing after [fires] of its reads, and at the latest when
    the rest is waiting. *)
Definition with_timer {A} (fires : option nat) (late : KM A) (m : KM A) : KM A :=
  λ c,
  let stop c := set_stream (set_timer None (stream c)) c in
  match m (set_stream (set_timer fires (stream c)) c) with
  | (Err Late, c) | (Err Waiting, c) => late (stop c)
  | (r, c) => (r, stop c)
  end.

(** ** Messages *)

Definition write_message_frame (buf : list byte) : KM () :=
  λ c, let s := stream c in
       if writable s then
         (Ok tt, set_stream (mkStream (reads s) (sent s ++ buf) true (timer s) (read_buf s) (stays_open s)) c)
       else (Err (Raise (ConnectionFailed "Failed to write chunk frame: ")), c).

Definition send_request (request : BoltRequest) : KM () :=
  write_message_frame (encode_chunks (request_encode request)).

(** [BoltStream.fill] and [BoltStream.frame_loop] with what they leave of the stream in every
    case. *)
Fixpoint fill_stream (io_error eof : string) (n : Z) (stays_open : bool) (reads : socket) (timer : option nat)
    (read_buf : list byte) : result halt () * (socket * option nat * list byte) :=
  if (n <=? blen read_buf)%Z then (Ok tt, (reads, timer, read_buf))
  else match timer, reads with
       | Some O, _ => (Err Late, (reads, timer, read_buf))
       | _, [] =>
           (Err (if stays_open then Waiting else Raise (ConnectionFailed eof)), (reads, timer, read_buf))
       | _, Some [] :: _ => (Err (Raise (ConnectionFailed eof)), (reads, timer, read_buf))
       | _, None :: reads => (Err (Raise (ConnectionFailed io_error)), (reads, timer, read_buf))
       | _, Some chunk :: reads => fill_stream io_error eof n stays_open reads (Nat.pred <$> timer) (read_buf ++ chunk)
       end.

Definition fill_to (io_error eof : string) (n : Z) (s : Stream) : result halt () * Stream :=
  let '(r, (rd, t, buf)) := fill_stream io_error eof n (stays_open s) (reads s) (timer s) (read_buf s) in
  (r, mkStream rd (sent s) (writable s) t buf (stays_open s)).

Definition advance (n : nat) (s : Stream) : Stream :=
  mkStream (reads s) (sent s) (writable s) (timer s) (drop n (read_buf s)) (stays_open s).

Fixpoint frame_stream (fuel : nat) (message_buf : list byte) (s : Stream) : result halt (list byte) * Stream :=
  match fuel with
  | O => (Err OutOfFuel, s)
  | S fuel =>
      match fill_to "Failed to read chunk header: " "Connection closed by peer while waiting for chunk header" 2 s with
      | (Err e, s) => (Err e, s)
      | (Ok _, s) =>
          let chunk_size := get_be (take 2 (read_buf s)) in
          let s := advance 2 s in
          if (chunk_size =? 0)%Z then (Ok message_buf, s)
          else if (MAX_BOLT_MESSAGE_SIZE <? blen message_buf + chunk_size)%Z then
            (match too_big with Ok x => Ok x | Err e => Err (Raise e) end, s)
          else match fill_to "Failed to read chunk payload: " "Connection closed by peer mid-chunk payload"
                       chunk_size s with
               | (Err e, s) => (Err e, s)
               | (Ok _, s) =>
                   let k := Z.to_nat chunk_size in
                   frame_stream fuel (message_buf ++ take k (read_buf s)) (advance k s)
               end
      end
  end.

(** A chunk takes two bytes at least. *)
Definition bytes_left (c : BoltConnection) : nat := stream_length (reads (stream c)) (read_buf (stream c)).

Definition receive_response : KM BoltResponse :=
  λ c,
  match frame_stream (S (bytes_left c)) [] (stream c) with
  | (Ok frame_bytes, s) =>
      (match response_decode frame_bytes with Ok (r, _) => Ok r | Err e => Err (Raise e) end, set_stream s c)
  | (Err e, s) => (Err e, set_stream s c)
  end.

(** ** Metadata *)

(** [.get(key).and_then(|v| v.as_str()).unwrap_or(d)]. *)
Definition meta_text (key d : string) (metadata : BoltMap) : string :=
  default d (v ← assoc_get key metadata; as_str v).
(** [format!("{}: {}", code, msg)]. *)
Definition code_and_message (code msg : string) (metadata : BoltMap) : string :=
  meta_text "code" code metadata +:+ ": " +:+ meta_text "message" msg metadata.

Definition note_bookmark (metadata : BoltMap) : KM () :=
  match assoc_get "bookmark" metadata with
  | Some (String bm) => k_update (set_bookmark bm)
  | _ =>
      match assoc_get "bookmarks" metadata with
      | Some (List bms) => match last bms with Some (String bm) => k_update (set_bookmark bm) | _ => mret tt end
      | _ => mret tt
      end
  end.

Definition metric (key : string) (stats : BoltMap) : Z :=
  match assoc_get key stats with Some (Integer n) => as_unsigned 64 n | _ => 0 end.

Definition parse_summary_metrics (metadata : BoltMap) : QuerySummary :=
  let stats := match assoc_get "stats" metadata with Some (Map stats) => stats | _ => [] end in
  let time := match assoc_get "t_last" metadata with Some v => Some v | None => assoc_get "t_first" metadata end in
  mkSummary (metric "nodes-created" stats) (metric "nodes-deleted" stats) (metric "relationships-created" stats)
    (metric "relationships-deleted" stats) (metric "properties-set" stats) (metric "labels-added" stats)
    (metric "labels-removed" stats) (metric "indexes-added" stats) (metric "constraints-added" stats)
    (match time with Some (Integer time) => as_unsigned 64 time | _ => 0 end).

(** [metadata.get("fields")] as texts; others are left out. *)
Definition field_names (metadata : BoltMap) : list string :=
  match assoc_get "fields" metadata with Some (List l) => omap as_str l | _ => [] end.

(** ** Columns *)

(** [serde_json::to_string] of a value, or its [{:?}] text. *)
Class BoltJson := bolt_json : BoltValue → string.

Section columns.
Context `{Resp.F64Text} `{BoltJson} `{ArrowBatches}.

Definition record_cell (col_idx : nat) (row : list BoltValue) : option BoltValue :=
  match row !! col_idx with Some Null | None => None | Some v => Some v end.

Definition read_float (v : BoltValue) : option f64 := match v with Float f => Some f | _ => None end.
Definition read_number (v : BoltValue) : option f64 :=
  match v with Float f => Some f | Integer i => Some (i64_as_f64 i) | _ => None end.

Definition cell_text (v : BoltValue) : string :=
  match v with
  | String s => s
  | Integer i => Text.num i
  | Float f => f64_to_string f
  | Boolean b => if b then "true" else "false"
  | Date d => BoltDate_to_iso_string d
  | Time t => BoltTime_to_iso_string t
  | LocalTime lt => BoltLocalTime_to_iso_string lt
  | DateTime dt => BoltDateTime_to_iso_string dt
  | LocalDateTime ldt => BoltLocalDateTime_to_iso_string ldt
  | DateTimeZoneId dtz => BoltDateTimeZoneId_to_iso_string dtz
  | Duration dur => BoltDuration_to_iso_string dur
  | other => bolt_json other
  end.

Definition count_if (f : BoltValue → bool) (cells : list (option BoltValue)) : nat :=
  length (List.filter (λ c, match c with Some v => f v | None => false end) cells).
Definition is_integer (v : BoltValue) : bool := match v with Integer _ => true | _ => false end.
Definition is_float_value (v : BoltValue) : bool := match v with Float _ => true | _ => false end.
Definition is_boolean (v : BoltValue) : bool := match v with Boolean _ => true | _ => false end.

Definition build_bolt_column (cells : list (option BoltValue)) : ArrayRef :=
  let int_count := count_if is_integer cells in
  let float_count := count_if is_float_value cells in
  let bool_count := count_if is_boolean cells in
  let non_null_count := count_if (λ _, true) cells in
  if bool_decide (0 < non_null_count)%nat && bool_decide (int_count = non_null_count) then
    Int64Array (map (λ c, c ≫= as_i64) cells)
  else if bool_decide (0 < non_null_count)%nat && bool_decide (float_count = non_null_count) then
    Float64Array (map (λ c, c ≫= read_float) cells)
  else if bool_decide (0 < non_null_count)%nat && bool_decide (int_count + float_count = non_null_count)%nat
          && bool_decide (0 < int_count)%nat && bool_decide (0 < float_count)%nat then
    Float64Array (map (λ c, c ≫= read_number) cells)
  else if bool_decide (0 < non_null_count)%nat && bool_decide (bool_count = non_null_count) then
    BooleanArray (map (λ c, c ≫= as_bool) cells)
  else StringArray (map (λ c, cell_text <$> c) cells).

Definition build_record_batch (columns : list string) (records : list (list BoltValue)) :
    result NetError RecordBatch :=
  match columns with
  | [] => Ok (mkBatch [] [])
  | _ =>
      let arrow_arrays := map (λ col_idx, build_bolt_column (map (record_cell col_idx) records))
                            (seq 0 (length columns)) in
      ok_or (try_new (combine columns (map array_type arrow_arrays)) arrow_arrays) ArrowError
  end.
End columns.

(** ** Opening a connection *)

Section client.
Context (CARGO_PKG_VERSION OS : string).
Context `{CharClass} `{Resp.F64Text} `{BoltJson} `{ArrowBatches} `{JsonNumbers}.

Definition user_agent : string := "Voyager-OGM/" +:+ CARGO_PKG_VERSION.

(** The reply to [HELLO] or [LOGON]; [fail] makes the error of a failure. *)
Definition handshake_reply (what : string) (fail : string → NetError) (code msg : string) : KM BoltMap :=
  resp ← receive_response;
  match resp with
  | Success metadata => mret metadata
  | Failure metadata => k_update set_invalid;; k_fail (fail (code_and_message code msg metadata))
  | _ => k_update set_invalid;; k_fail (ProtocolError ("Unexpected response to " +:+ what +:+ ": "))
  end.

Definition note_agent (metadata : BoltMap) : KM () :=
  match (v ← assoc_get "server" metadata; as_str v) with
  | Some agent => k_update (set_server_agent agent)
  | None => mret tt
  end.

Definition is_v51_or_higher (v : BoltVersion) : bool :=
  (5 <? major v)%Z || ((major v =? 5)%Z && (1 <=? minor v)%Z).

Definition say_hello (v : BoltVersion) (auth_pair : option (string * string)) (db : option string) : KM () :=
  if is_v51_or_higher v then
    send_request (hello_v51 CARGO_PKG_VERSION OS user_agent None);;
    metadata ← handshake_reply "HELLO" ProtocolError "HelloError" "Handshake failed";
    note_agent metadata;;
    send_request (logon auth_pair);;
    handshake_reply "LOGON" AuthenticationFailed "AuthError" "Authentication failed";;
    mret tt
  else
    send_request (hello_legacy CARGO_PKG_VERSION OS user_agent auth_pair db);;
    metadata ← handshake_reply "HELLO" AuthenticationFailed "AuthError" "Authentication failed";
    note_agent metadata.

Definition basic_pair (a : Uri.Auth) : option (string * string) :=
  match a with Uri.Basic username password _ => Some (username, password) | _ => None end.
Definition auth_pair_of (config : Uri.ConnectionConfig) (u : Uri.ParsedUri) : option (string * string) :=
  match basic_pair (Uri.cc_auth config) with Some p => Some p | None => basic_pair (Uri.auth u) end.

(** [read_exact] fails for want of data only. *)
Definition all_data (rd : socket) : bool :=
  forallb (λ r, match r with Some (_ :: _) => true | _ => false end) rd.

(** [tcp] is what [TcpStream::connect] gives: what can be read, whether it takes writes, and
    whether the peer then stays silent. *)
Definition connect_raw (tcp : result string (socket * bool * bool)) (config : Uri.ConnectionConfig) (u : Uri.ParsedUri) :
    result halt BoltConnection :=
  match tcp with
  | Err e => Err (Raise (ConnectionFailed ("Failed to connect to " +:+ Uri.socket_addr u +:+ ": " +:+ e)))
  | Ok (rd, takes, silent) =>
      if negb takes then Err (Raise (ConnectionFailed "Failed to write Bolt handshake: "))
      else
        match read_exact "Failed to read Bolt version response: " 4 rd with
        | Err e => Err (if silent && all_data rd then Waiting else Raise e)
        | Ok (version_resp, rd) =>
            if bool_decide (version_resp = [x00; x00; x00; x00]) then
              Err (Raise (ProtocolError "Bolt server rejected proposed protocol versions"))
            else
              let v := mkVersion (u8 (nth 3 version_resp x00)) (u8 (nth 2 version_resp x00)) in
              let db := Uri.or_else (Uri.cc_database config) (Uri.database u) in
              let s := mkStream rd (BOLT_MAGIC_PREAMBLE ++ BOLT_PROPOSED_VERSIONS) true None [] silent in
              let conn := mkBolt s v true false None None None (Uri.query_timeout config) in
              match say_hello v (auth_pair_of config u) db conn with
              | (Ok _, conn) => Ok conn
              | (Err e, _) => Err e
              end
        end
  end.

(** [late]: the connect timer fires first; it does when the rest is waiting. *)
Definition connect `{LowerCase, Uri.UrlCrate} (late : bool) (tcp : result string (socket * bool * bool))
    (config : Uri.ConnectionConfig) : result halt BoltConnection :=
  match Uri.parse (Uri.uri config) with
  | Err e => Err (Raise e)
  | Ok u =>
      match Uri.cc_tls config, Uri.tls u with
      | Uri.Disabled, Uri.Disabled =>
          let timed_out :=
            Err (Raise (Timeout ("Connection or handshake to Bolt server at " +:+ Uri.socket_addr u
                                 +:+ " timed out after " +:+ PgConnection.duration_debug (Uri.connect_timeout config)))) in
          if late then timed_out
          else match connect_raw tcp config u with Err Waiting => timed_out | r => r end
      | _, _ =>
          Err (Raise (TlsError ("TLS encryption requested for Bolt endpoint '" +:+ Uri.host u +:+ "', but native TLS transport is not enabled. Plaintext downgrade rejected.")))
      end
  end.

Definition from_stream (s : Stream) (v : BoltVersion) : BoltConnection :=
  mkBolt s v true false None None None None.

(** ** Reset *)

Definition reset : KM () :=
  send_request Reset;;
  resp ← receive_response;
  match resp with
  | Success _ => k_update (set_in_transaction false)
  | Failure metadata =>
      k_update set_invalid;;
      k_fail (ProtocolError ("RESET failed: " +:+ meta_text "message" "Reset failed" metadata))
  | _ => k_update set_invalid;; k_fail (ProtocolError "Unexpected RESET response: ")
  end.

(** ** Queries *)

(** [RUN] and [PULL] in one write. *)
Definition send_run (query : string) (ps extra : BoltMap) : KM () :=
  write_message_frame (encode_chunks (request_encode (Run query ps extra))
                       ++ encode_chunks (request_encode pull_all)).

(** The reply to [RUN]; on a failure, the ignored [PULL] is taken and the state reset. *)
Definition run_reply (code : string) : KM BoltMap :=
  run_resp ← receive_response;
  match run_resp with
  | Success metadata => mret metadata
  | Failure metadata =>
      ignore receive_response;;
      ignore reset;;
      k_fail (ProtocolError (code_and_message code "Query failed" metadata))
  | _ => k_fail (ProtocolError "Unexpected RUN response: ")
  end.

(** How the stream of records ends. *)
Inductive ending := Finished (metadata : BoltMap) | Broken (metadata : BoltMap).

Fixpoint record_loop (fuel : nat) (records : list (list BoltValue)) : KM (list (list BoltValue) * ending) :=
  match fuel with
  | O => k_result (Err OutOfFuel)
  | S fuel =>
      resp ← receive_response;
      match resp with
      | Record_ fields => record_loop fuel (records ++ [fields])
      | Success metadata => mret (records, Finished metadata)
      | Failure metadata => ignore reset;; mret (records, Broken metadata)
      | Ignored _ => k_fail (ProtocolError "Unexpected stream response: ")
      end
  end.

(** Every message takes bytes from the stream, so this many turns are enough. *)
Definition read_records : KM (list (list BoltValue) * ending) := λ c, record_loop (S (bytes_left c)) [] c.

Definition stream_error (metadata : BoltMap) : string * string :=
  (meta_text "code" "StreamError" metadata, meta_text "message" "Stream record failed" metadata).

Definition closed_error {A} : KM A := k_fail (Closed "Bolt connection is closed or broken").

(** *** The interface of the pool *)

(** [BoltValue::from] of a JSON value. *)
Fixpoint bolt_of_json (json : JsonValue) : BoltValue :=
  match json with
  | JNull => Null
  | JBool b => Boolean b
  | JNumber n =>
      match number_as_i64 n with
      | Some i => Integer i
      | None => match number_as_f64 n with Some f => Float f | None => Null end
      end
  | JString s => String s
  | JArray arr => List (map bolt_of_json arr)
  | JObject obj => Map (assoc_of_list (map (λ kv, (kv.1, bolt_of_json kv.2)) obj))
  end.

Definition as_millis_i64 (nanos : Z) : Z := as_signed 64 (nanos / 1000000).

Definition timeout_extra (timeout : option Z) : BoltMap :=
  match timeout with Some to => [("tx_timeout", Integer (as_millis_i64 to))] | None => [] end.

Definition execute_inner (query : string) (ps : list (string * JsonValue)) : KM QueryResult :=
  λ c,
  (if negb (is_valid c) then closed_error
   else
     send_run query (map (λ kv, (kv.1, bolt_of_json kv.2)) ps) (timeout_extra (query_timeout c));;
     metadata ← run_reply "QueryError";
     let columns := field_names metadata in
     r ← read_records;
     match r.2 with
     | Broken metadata =>
         k_fail (ProtocolError ((stream_error metadata).1 +:+ ": " +:+ (stream_error metadata).2))
     | Finished metadata =>
         batch ← k_net (build_record_batch columns r.1);
         mret (mkResult columns
                 (if (0 <? num_rows batch)%Z || negb (bool_decide (columns = [])) then [batch] else [])
                 (parse_summary_metrics metadata))
     end) c.

(** A query that the timer ends leaves the connection invalid. *)
Definition timed_out {A} (to : Z) : KM A :=
  k_update set_invalid;;
  k_fail (Timeout ("Query execution timed out after " +:+ PgConnection.duration_debug to)).

Definition execute (fires : option nat) (query : string) (ps : list (string * JsonValue)) : KM QueryResult :=
  λ c, match query_timeout c with
       | Some to => with_timer fires (timed_out to) (execute_inner query ps) c
       | None => execute_inner query ps c
       end.

Definition ping : KM () :=
  λ c, (if negb (is_valid c) then k_fail (Closed "Connection is closed") else reset) c.

Definition close : KM () :=
  λ c, (if is_valid c then ignore (send_request Goodbye);; k_update set_invalid else mret tt) c.

(** *** Raw records *)

(** [HashMap::extend]. *)
Definition extend (m more : BoltMap) : BoltMap := foldl (λ m kv, assoc_insert kv.1 kv.2 m) m more.

Definition raw_answer : Type :=
  list string * list (list BoltValue) * QuerySummary * option (string * string).

Definition execute_raw_records_inner (query : string) (ps extra : BoltMap) : KM raw_answer :=
  send_run query ps extra;;
  run_metadata ← run_reply "Neo.ClientError.Statement.SyntaxError";
  r ← read_records;
  match r.2 with
  | Finished metadata =>
      note_bookmark metadata;;
      k_update (set_metadata (extend (extend [] run_metadata) metadata));;
      mret (field_names run_metadata, r.1, parse_summary_metrics metadata, None)
  | Broken metadata => mret (field_names run_metadata, r.1, QuerySummary_empty, Some (stream_error metadata))
  end.

Definition insert_some {A} (key : string) (f : A → BoltValue) (o : option A) (m : BoltMap) : BoltMap :=
  match o with Some x => assoc_insert key (f x) m | None => m end.

Definition bookmark_list (bms : list string) : BoltValue := List (map String bms).

(** The timeout of the call, if it is positive, or that of the connection: what the server is
    told, and the client's own, in nanoseconds. *)
Definition effective_timeout (timeout_ms : option Z) (c : BoltConnection) : option Z * option Z :=
  match timeout_ms with
  | Some timeout =>
      if (0 <? timeout)%Z then (Some timeout, Some (timeout * 1000000))
      else (as_millis_i64 <$> query_timeout c, query_timeout c)
  | None => (as_millis_i64 <$> query_timeout c, query_timeout c)
  end.

Definition execute_raw_records_with_options (fires : option nat) (query : string) (ps : BoltMap)
    (database : option string) (tx_meta : option BoltMap) (timeout_ms : option Z) (bookmarks : option (list string)) :
    KM raw_answer :=
  λ c,
  (if negb (is_valid c) then closed_error
   else
     let '(told, own) := effective_timeout timeout_ms c in
     let extra := insert_some "bookmarks" bookmark_list bookmarks
                    (insert_some "tx_timeout" Integer told
                       (insert_some "tx_metadata" Map tx_meta (insert_some "db" String database []))) in
     match own with
     | Some to => with_timer fires (timed_out to) (execute_raw_records_inner query ps extra)
     | None => execute_raw_records_inner query ps extra
     end) c.

Definition execute_raw_records (fires : option nat) (query : string) (ps : BoltMap) :
    KM (list string * list (list BoltValue) * QuerySummary) :=
  r ← execute_raw_records_with_options fires query ps None None None None;
  let '(columns, records, summary, stream_err) := r in
  match stream_err with
  | Some (code, msg) => k_fail (ProtocolError (code +:+ ": " +:+ msg))
  | None => mret (columns, records, summary)
  end.

(** ** Transactions *)

Definition begin_tx_with_options (database : option string) (tx_meta : option BoltMap) (timeout_ms : option Z)
    (bookmarks : option (list string)) : KM () :=
  let extra := insert_some "bookmarks" bookmark_list bookmarks
                 (insert_some "tx_timeout" Integer timeout_ms
                    (insert_some "tx_metadata" Map tx_meta (insert_some "db" String database []))) in
  send_request (Begin extra);;
  resp ← receive_response;
  match resp with
  | Success _ => k_update (set_in_transaction true)
  | Failure metadata =>
      ignore reset;;
      k_fail (ProtocolError (code_and_message "Neo.ClientError.Transaction.InvalidBookmark"
                               "Begin transaction failed" metadata))
  | _ => k_fail (ProtocolError "Unexpected BEGIN response: ")
  end.
Definition begin_tx (database : option string) : KM () := begin_tx_with_options database None None None.

(** What [COMMIT] and [ROLLBACK] have in common; [done] is what a success does. *)
Definition end_tx (request : BoltRequest) (what msg : string) (on_success : BoltMap → KM ()) : KM () :=
  send_request request;;
  resp ← receive_response;
  match resp with
  | Success metadata => k_update (set_in_transaction false);; on_success metadata
  | Failure metadata =>
      k_update (set_in_transaction false);;
      ignore reset;;
      k_fail (ProtocolError (code_and_message "Neo.ClientError.Transaction.TransactionHookFailed" msg metadata))
  | _ =>
      k_update (set_in_transaction false);;
      k_fail (ProtocolError ("Unexpected " +:+ what +:+ " response: "))
  end.
Definition commit_tx : KM () := end_tx Commit "COMMIT" "Commit transaction failed" note_bookmark.
Definition rollback_tx : KM () := end_tx Rollback "ROLLBACK" "Rollback transaction failed" (λ _, mret tt).
End client.
