(* ===== verification/BoltClientSafe.v ===== *)
(** * The Bolt client against a server

    Replies are read whole and in order, whatever way the socket cuts them; a query gets the
    replies to its own [RUN] and [PULL], and after a failure the connection is brought back to
    where the next query's replies begin; reading ends on every stream. *)
From S2P Require Import Prelude Bytes F64 Errors Text Json PgRows Engine Falkor FalkorSafe.
From S2P Require Import BoltValue PackStream BoltStream BoltMessages Calendar BoltClient.
From S2P Require Uri.

Open Scope Z_scope.
Open Scope string_scope.
Open Scope list_scope.

(** ** Reading, with what it leaves *)

Lemma fill_stream_agrees e1 e2 n open rd buf buf' rd' :
  fill e1 e2 n rd buf = Ok (buf', rd') → fill_stream e1 e2 n open rd None buf = (Ok tt, (rd', None, buf')).
Proof.
  revert buf. induction rd as [|r rd IH]; intros buf; cbn [fill fill_stream];
    (destruct (n <=? blen buf)%Z; [congruence|]); [done|].
  destruct r as [[|b chunk]|]; try done. apply IH.
Qed.

Lemma frame_stream_agrees fuel rd out w open buf message m buf' rd' :
  frame_loop fuel rd buf message = Some (Ok (m, buf', rd')) →
  frame_stream fuel message (mkStream rd out w None buf open) = (Ok m, mkStream rd' out w None buf' open).
Proof.
  revert rd buf message. induction fuel as [|fuel IH]; intros rd buf message; [done|].
  cbn [frame_loop frame_stream]. unfold fill_to. cbn [BoltClient.reads timer BoltClient.read_buf sent writable stays_open].
  destruct (fill _ _ 2 rd buf) as [[b1 r1]|] eqn:E1; [|done]. rewrite (fill_stream_agrees _ _ _ _ _ _ _ _ E1).
  unfold advance. cbn [BoltClient.reads timer BoltClient.read_buf sent writable stays_open].
  destruct (get_be (take 2 b1) =? 0)%Z; [by intros [= -> -> ->]|].
  destruct (MAX_BOLT_MESSAGE_SIZE <? _)%Z; [done|].
  destruct (fill _ _ _ r1 (drop 2 b1)) as [[b2 r2]|] eqn:E2; [|done].
  rewrite (fill_stream_agrees _ _ _ _ _ _ _ _ E2). apply IH.
Qed.

(** ** What is still to be read *)

(** A response that can be sent, and its bytes on the wire. *)
Definition deliverable (r : BoltResponse) : Prop :=
  sendable_structure (response_structure r)
  ∧ blen (PackStream.encode (response_structure r)) <= MAX_BOLT_MESSAGE_SIZE.
Definition wire_of (r : BoltResponse) : list byte := encode_chunks (PackStream.encode (response_structure r)).

(** The stream takes writes and holds the responses [rs] and [tail], in any pieces. *)
Definition awaiting (rs : list BoltResponse) (tail : list byte) (c : BoltConnection) : Prop :=
  Forall deliverable rs ∧ writable (stream c) = true ∧ timer (stream c) = None ∧
  ∃ chunks, reads (stream c) = socket_of chunks ∧ nonempty chunks
    ∧ BoltClient.read_buf (stream c) ++ concat chunks = flat_map wire_of rs ++ tail.

Lemma receive_one r rs tail c :
  awaiting (r :: rs) tail c →
  ∃ s, receive_response c = (Ok r, set_stream s c) ∧ awaiting rs tail (set_stream s c) ∧ sent s = sent (stream c).
Proof.
  intros ([[Hs Hlen] Hrs]%Forall_cons & Hw & Ht & chunks & Hrd & Hne & E).
  cbn [flat_map] in E. rewrite <- app_assoc in E.
  destruct (framing_next _ _ _ chunks Hlen Hne E) as (b & cs & Hf & Hb & Hcs).
  exists (mkStream (socket_of cs) (sent (stream c)) true None b (stays_open (stream c))). split; [|split; [|done]].
  - unfold receive_response, bytes_left. unfold read_message_frame_buffered in Hf. rewrite Hrd.
    destruct (stream c) as [rd out w t buf open]. cbn [BoltClient.reads BoltClient.read_buf writable timer sent stays_open] in *. subst rd w t.
    rewrite (frame_stream_agrees _ _ _ _ _ _ _ _ _ _ Hf).
    pose proof (response_decode_encode r [] Hs) as Hd. rewrite app_nil_r in Hd. by rewrite Hd.
  - split; [done|]. split; [done|]. split; [done|]. by exists cs.
Qed.

(** ** Exchanges

    A field of the connection other than its stream is changed. *)
Record local (f : BoltConnection → BoltConnection) : Prop := {
  local_stream c : stream (f c) = stream c;
  local_set s c : f (set_stream s c) = set_stream s (f c);
}.

Lemma local_id : local id. Proof. done. Qed.
Lemma local_compose f g : local f → local g → local (g ∘ f).
Proof.
  intros Hf Hg. split; intros; unfold compose.
  - by rewrite (local_stream _ Hg), (local_stream _ Hf).
  - by rewrite (local_set _ Hf), (local_set _ Hg).
Qed.
Lemma local_in_transaction b : local (set_in_transaction b). Proof. done. Qed.
Lemma local_invalid : local set_invalid. Proof. done. Qed.
Lemma local_bookmark bm : local (set_bookmark bm). Proof. done. Qed.
Lemma local_metadata m : local (set_metadata m). Proof. done. Qed.

(** [m] takes exactly the responses [rs], writes [out], ends in [r] and changes fields by [f]. *)
Definition performs {A} (m : KM A) (rs : list BoltResponse) (out : list byte) (r : result halt A)
    (f : BoltConnection → BoltConnection) : Prop :=
  local f ∧ ∀ c rest tail, awaiting (rs ++ rest) tail c →
  ∃ s, m c = (r, f (set_stream s c)) ∧ awaiting rest tail (set_stream s c) ∧ sent s = sent (stream c) ++ out.

Lemma awaiting_local f rs tail c : local f → awaiting rs tail (f c) ↔ awaiting rs tail c.
Proof. intros Hf. unfold awaiting. by rewrite (local_stream _ Hf). Qed.

Lemma performs_ret {A} (x : A) : performs (mret x) [] [] (Ok x) id.
Proof.
  split; [done|]. intros c rest tail Hc. exists (stream c). rewrite app_nil_r. by destruct c.
Qed.

Lemma performs_result {A} (r : result halt A) : performs (k_result r) [] [] r id.
Proof.
  split; [done|]. intros c rest tail Hc. exists (stream c). rewrite app_nil_r. by destruct c.
Qed.

Lemma performs_update f : local f → performs (k_update f) [] [] (Ok tt) f.
Proof.
  intros Hf. split; [done|]. intros c rest tail Hc. exists (stream c). rewrite app_nil_r. by destruct c.
Qed.

Lemma performs_write buf : performs (write_message_frame buf) [] buf (Ok tt) id.
Proof.
  split; [done|]. intros c rest tail (Hrs & Hw & Ht & Hr). unfold write_message_frame. rewrite Hw.
  eexists. split; [done|]. split; [|done]. by split.
Qed.

Lemma performs_receive r : performs receive_response [r] [] (Ok r) id.
Proof.
  split; [done|]. intros c rest tail Hc. destruct (receive_one r rest tail c Hc) as (s & E & Hs & Hout).
  exists s. rewrite app_nil_r. done.
Qed.

Lemma performs_bind {A B} (m : KM A) (k : A → KM B) rs1 rs2 out1 out2 x r f1 f2 :
  performs m rs1 out1 (Ok x) f1 → performs (k x) rs2 out2 r f2 →
  performs (m ≫= k) (rs1 ++ rs2) (out1 ++ out2) r (f2 ∘ f1).
Proof.
  intros [L1 H1] [L2 H2]. split; [by apply local_compose|]. intros c rest tail Hc. rewrite <- app_assoc in Hc.
  destruct (H1 c _ tail Hc) as (s1 & E1 & A1 & S1).
  destruct (H2 (f1 (set_stream s1 c)) rest tail) as (s2 & E2 & A2 & S2); [by apply awaiting_local|].
  exists s2. unfold mbind, KM_bind. rewrite E1, E2. split; [|split].
  - unfold compose. rewrite <- (local_set _ L1). done.
  - rewrite <- (local_set _ L1) in A2. exact (proj1 (awaiting_local f1 _ _ _ L1) A2).
  - rewrite S2, (local_stream _ L1). cbn [stream set_stream]. by rewrite S1, app_assoc.
Qed.

Lemma performs_bind_err {A B} (m : KM A) (k : A → KM B) rs out e f :
  performs m rs out (Err e) f → performs (m ≫= k) rs out (Err e) f.
Proof.
  intros [L1 H1]. split; [done|]. intros c rest tail Hc. destruct (H1 c _ tail Hc) as (s1 & E1 & A1).
  exists s1. unfold mbind, KM_bind. by rewrite E1.
Qed.

Lemma performs_ignore {A} (m : KM A) rs out x f : performs m rs out (Ok x) f → performs (ignore m) rs out (Ok tt) f.
Proof.
  intros [L1 H1]. split; [done|]. intros c rest tail Hc. destruct (H1 c _ tail Hc) as (s1 & E1 & A1).
  exists s1. unfold ignore. by rewrite E1.
Qed.

Lemma performs_eq {A} (m : KM A) rs rs' out out' r f f' :
  performs m rs out r f → rs = rs' → out = out' → (∀ c, f c = f' c) → local f' → performs m rs' out' r f'.
Proof.
  intros [_ H] <- <- Hf Hl. split; [done|]. intros c rest tail Hc. destruct (H c rest tail Hc) as (s & E & Hs).
  exists s. by rewrite E, Hf.
Qed.

Lemma performs_timer {A} (late m : KM A) rs out r f :
  performs m rs out r f → r ≠ Err Late → r ≠ Err Waiting → performs (with_timer None late m) rs out r f.
Proof.
  intros [L H] Hr Hr'. split; [done|]. intros c rest tail Hc.
  assert (∀ c rs', awaiting rs' tail c → set_timer None (stream c) = stream c) as Hstop.
  { intros c' rs' (_ & _ & Ht & _). destruct (stream c') as [rd o w t buf open]. cbn in Ht. by subst t. }
  assert (set_stream (set_timer None (stream c)) c = c) as Hstart.
  { rewrite (Hstop c _ Hc). by destruct c. }
  destruct (H c rest tail Hc) as (s & E & Hs & Hout). exists s. split; [|done].
  unfold with_timer. rewrite Hstart, E.
  assert (set_stream (set_timer None (stream (f (set_stream s c)))) (f (set_stream s c)) = f (set_stream s c)) as Hend.
  { rewrite (local_stream _ L), (Hstop _ _ Hs), <- (local_set _ L). done. }
  destruct r as [x|[| | |]]; try done; by rewrite Hend.
Qed.

(** A response takes bytes of the stream. *)
Lemma awaiting_bytes rs tail c : awaiting rs tail c → (length rs <= bytes_left c)%nat.
Proof.
  intros (_ & _ & _ & chunks & Hrd & _ & E). unfold bytes_left. rewrite Hrd, stream_length_app, E, length_app.
  assert (length rs <= length (flat_map wire_of rs))%nat; [|lia]. clear.
  induction rs as [|r rs IH]; [done|]. cbn [flat_map length]. rewrite length_app.
  assert (0 < length (wire_of r))%nat; [|lia].
  pose proof (encode_chunks_length _ (PackStream.encode (response_structure r)) (le_n _)).
  unfold wire_of, encode_chunks. lia.
Qed.

(** ** Queries and their answers *)

Section queries.
Context `{CharClass} `{Resp.F64Text} `{BoltJson} `{ArrowBatches} `{JsonNumbers}.

(** What a server answers to a query: records between two successes; a failure, with the
    ignored [PULL] behind it; or a failure in the midst of the records.  A failure is followed
    by the reply to the [RESET] that the client sends. *)
Inductive answer :=
| Answered (metadata : BoltMap) (records : list (list BoltValue)) (summary : BoltMap)
| Refused (failure ignored reset_reply : BoltMap)
| Interrupted (metadata : BoltMap) (records : list (list BoltValue)) (failure reset_reply : BoltMap).

Definition responses (a : answer) : list BoltResponse :=
  match a with
  | Answered m records s => Success m :: map Record_ records ++ [Success s]
  | Refused f i ok => [Failure f; Ignored i; Success ok]
  | Interrupted m records f ok => Success m :: map Record_ records ++ [Failure f; Success ok]
  end.

Definition query : Type := string * list (string * JsonValue).
Definition requests (timeout : option Z) (q : query) (a : answer) : list byte :=
  encode_chunks (request_encode (Run q.1 (map (λ kv, (kv.1, bolt_of_json kv.2)) q.2) (timeout_extra timeout)))
  ++ encode_chunks (request_encode pull_all)
  ++ match a with Answered _ _ _ => [] | _ => encode_chunks (request_encode Reset) end.

(** The result of a query is a function of its own answer. *)
Definition outcome_of (a : answer) : result halt QueryResult :=
  match a with
  | Answered m records s =>
      match build_record_batch (field_names m) records with
      | Ok batch =>
          Ok (mkResult (field_names m)
                (if (0 <? num_rows batch)%Z || negb (bool_decide (field_names m = [])) then [batch] else [])
                (parse_summary_metrics s))
      | Err e => Err (Raise e)
      end
  | Refused f _ _ => Err (Raise (ProtocolError (code_and_message "QueryError" "Query failed" f)))
  | Interrupted _ _ f _ =>
      Err (Raise (ProtocolError ((stream_error f).1 +:+ ": " +:+ (stream_error f).2)))
  end.
Definition after (a : answer) : BoltConnection → BoltConnection :=
  match a with Answered _ _ _ => id | _ => set_in_transaction false end.

Lemma performs_request {A} req (k : () → KM A) rs out r f :
  performs (k tt) rs out r f →
  performs (send_request req ≫= k) rs (encode_chunks (request_encode req) ++ out) r f.
Proof.
  intros Hk. eapply performs_eq; [eapply performs_bind; [apply performs_write|exact Hk]|done..|apply Hk].
Qed.

Lemma performs_expect {A} x (k : BoltResponse → KM A) rs out r f :
  performs (k x) rs out r f → performs (receive_response ≫= k) (x :: rs) out r f.
Proof.
  intros Hk. eapply performs_eq; [eapply performs_bind; [apply performs_receive|exact Hk]|done..|apply Hk].
Qed.

Lemma performs_then {A B} (m : KM A) (k : A → KM B) rs1 rs2 out1 out2 x r f1 f2 rs out f :
  performs m rs1 out1 (Ok x) f1 → performs (k x) rs2 out2 r f2 →
  rs = rs1 ++ rs2 → out = out1 ++ out2 → (∀ c, f2 (f1 c) = f c) → local f →
  performs (m ≫= k) rs out r f.
Proof. intros Hm Hk -> -> Hf Hl. eapply performs_eq; [by eapply performs_bind|done..]. Qed.

Lemma reset_performs ok :
  performs reset [Success ok] (encode_chunks (request_encode Reset)) (Ok tt) (set_in_transaction false).
Proof.
  rewrite <- (app_nil_r (encode_chunks (request_encode Reset))). apply performs_request, performs_expect.
  apply performs_update, local_in_transaction.
Qed.

Lemma record_loop_finishes m records : ∀ fuel acc,
  (length records < fuel)%nat →
  performs (record_loop fuel acc) (map Record_ records ++ [Success m]) [] (Ok (acc ++ records, Finished m)) id.
Proof.
  induction records as [|x records IH]; intros [|fuel] acc Hf; cbn [length] in Hf; try lia; cbn [map app record_loop];
    apply performs_expect.
  - rewrite app_nil_r. apply performs_ret.
  - pose proof (IH fuel (acc ++ [x]) ltac:(lia)) as P. by rewrite <- app_assoc in P.
Qed.

Lemma record_loop_breaks f ok records : ∀ fuel acc,
  (length records < fuel)%nat →
  performs (record_loop fuel acc) (map Record_ records ++ [Failure f; Success ok])
    (encode_chunks (request_encode Reset)) (Ok (acc ++ records, Broken f)) (set_in_transaction false).
Proof.
  induction records as [|x records IH]; intros [|fuel] acc Hf; cbn [length] in Hf; try lia; cbn [map app record_loop];
    apply performs_expect.
  - rewrite app_nil_r. eapply performs_then; [eapply performs_ignore, (reset_performs ok)|apply performs_ret|..]; try done.
  - pose proof (IH fuel (acc ++ [x]) ltac:(lia)) as P. by rewrite <- app_assoc in P.
Qed.

Lemma read_records_performs rs out x f :
  (∀ fuel, (length rs <= fuel)%nat → performs (record_loop (S fuel) []) rs out (Ok x) f) →
  performs read_records rs out (Ok x) f.
Proof.
  intros Hl. split; [apply (Hl (length rs)); lia|]. intros c rest tail Hc. unfold read_records.
  apply Hl; [|done]. apply awaiting_bytes in Hc. rewrite length_app in Hc. lia.
Qed.

Lemma run_succeeds code m : performs (run_reply code) [Success m] [] (Ok m) id.
Proof. apply performs_expect, performs_ret. Qed.

Lemma run_fails code f i ok :
  performs (run_reply code) [Failure f; Ignored i; Success ok] (encode_chunks (request_encode Reset))
    (Err (Raise (ProtocolError (code_and_message code "Query failed" f)))) (set_in_transaction false).
Proof.
  apply performs_expect.
  eapply performs_then; [eapply performs_ignore, performs_receive| |reflexivity|reflexivity|done|done].
  eapply performs_then; [eapply performs_ignore, (reset_performs ok)|apply performs_result|..]; done.
Qed.

(** The body of a query on a connection that is valid. *)
Lemma query_performs q ps extra a :
  performs
    (send_run q ps extra;;
     metadata ← run_reply "QueryError";
     let columns := field_names metadata in
     r ← read_records;
     match r.2 with
     | Broken metadata => k_fail (ProtocolError ((stream_error metadata).1 +:+ ": " +:+ (stream_error metadata).2))
     | Finished metadata =>
         batch ← k_net (build_record_batch columns r.1);
         mret (mkResult columns
                 (if (0 <? num_rows batch)%Z || negb (bool_decide (columns = [])) then [batch] else [])
                 (parse_summary_metrics metadata))
     end)
    (responses a)
    (encode_chunks (request_encode (Run q ps extra)) ++ encode_chunks (request_encode pull_all)
     ++ match a with Answered _ _ _ => [] | _ => encode_chunks (request_encode Reset) end)
    (outcome_of a) (after a).
Proof.
  destruct a as [m records s|f i ok|m records f ok]; cbn [responses outcome_of after].
  - eapply performs_then; [apply performs_write| |reflexivity|by rewrite app_assoc|done|done].
    eapply performs_then; [apply run_succeeds| |reflexivity|reflexivity|done|done].
    eapply performs_then; [apply read_records_performs; intros fuel Hf; apply (record_loop_finishes s records)| |..];
      [rewrite length_app, length_map in Hf; cbn in Hf; lia| |by rewrite app_nil_r|reflexivity|done|done].
    cbn [snd fst app]. unfold k_net. destruct (build_record_batch _ _) as [batch|e].
    + eapply performs_then; [apply performs_result|apply performs_ret|done..].
    + apply performs_bind_err, performs_result.
  - eapply performs_then; [apply performs_write| |reflexivity|by rewrite app_assoc|done|done].
    apply performs_bind_err, run_fails.
  - eapply performs_then; [apply performs_write| |reflexivity|by rewrite app_assoc|done|done].
    eapply performs_then; [apply run_succeeds| |reflexivity|reflexivity|done|done].
    eapply performs_then; [apply read_records_performs; intros fuel Hf; apply (record_loop_breaks f ok records)| |..];
      [rewrite length_app, length_map in Hf; cbn in Hf; lia|apply performs_result|by rewrite app_nil_r|by rewrite app_nil_r|done|done].
Qed.

Lemma outcome_ends a : outcome_of a ≠ Err Late ∧ outcome_of a ≠ Err Waiting.
Proof. destruct a; cbn; [by destruct (build_record_batch _ _)|done|done]. Qed.

Lemma bolt_execute_answered q a c rest tail :
  is_valid c = true → awaiting (responses a ++ rest) tail c →
  ∃ s, execute None q.1 q.2 c = (outcome_of a, after a (set_stream s c))
    ∧ awaiting rest tail (set_stream s c) ∧ sent s = sent (stream c) ++ requests (query_timeout c) q a.
Proof.
  intros Hv Hc.
  pose proof (query_performs q.1 (map (λ kv, (kv.1, bolt_of_json kv.2)) q.2) (timeout_extra (query_timeout c)) a) as P.
  unfold execute. destruct (query_timeout c) as [to|] eqn:Et.
  - apply (performs_timer (timed_out to) _ _ _ _ _) in P; [|apply outcome_ends..].
    destruct (proj2 P c rest tail Hc) as (s & Es & Hs). exists s. split; [|exact Hs]. rewrite <- Es.
    unfold with_timer, execute_inner. cbn [set_stream is_valid query_timeout]. by rewrite Hv, Et.
  - destruct (proj2 P c rest tail Hc) as (s & Es & Hs). exists s. split; [|exact Hs]. rewrite <- Es.
    unfold execute_inner. by rewrite Hv, Et.
Qed.

Fixpoint run_all (qs : list query) (c : BoltConnection) : list (result halt QueryResult) * BoltConnection :=
  match qs with
  | [] => ([], c)
  | q :: qs =>
      let '(r, c) := execute None q.1 q.2 c in
      let '(rs, c) := run_all qs c in (r :: rs, c)
  end.

(** C29: each query of a Bolt connection gets the answer to itself.  Let a server answer any
    queries one after the other, some with records, some with a failure at once, some with a
    failure amid the records, and let the socket cut what it sends in any way: then the result
    of each query is that of its own answer, the columns, rows and counters or the failure's
    code and message; what is sent is [RUN] and [PULL] for each query, with a [RESET] after
    each failure; and at the end the connection is valid and stands where the next answer
    begins. *)
Theorem bolt_answers_stay_paired qs answers c tail :
  length qs = length answers → is_valid c = true → awaiting (flat_map responses answers) tail c →
  ∃ c', run_all qs c = (map outcome_of answers, c')
    ∧ awaiting [] tail c' ∧ is_valid c' = true
    ∧ sent (stream c') = sent (stream c) ++ concat (zip_with (requests (query_timeout c)) qs answers).
Proof.
  revert answers c. induction qs as [|q qs IH]; intros [|a answers] c Hl Hv Hc; try done.
  { exists c. cbn. by rewrite app_nil_r. }
  cbn [flat_map] in Hc. destruct (bolt_execute_answered q a c _ tail Hv Hc) as (s & E & Hs & Hout).
  set (c1 := after a (set_stream s c)) in *.
  assert (local (after a)) as La by by destruct a.
  assert (stream c1 = s) as Hs1 by (unfold c1; by rewrite (local_stream _ La)).
  assert (is_valid c1 = true ∧ query_timeout c1 = query_timeout c) as [Hv1 Ht1] by by destruct a.
  destruct (IH answers c1) as (c' & Er & Ha & Hv' & Hout'); [by injection Hl|done|by apply awaiting_local|].
  exists c'. cbn [run_all map zip_with concat]. rewrite E. fold c1. rewrite Er. split; [done|]. split; [done|].
  split; [done|]. by rewrite Hout', Hs1, Hout, Ht1, <- app_assoc.
Qed.
End queries.

(** ** Every operation returns

    Reading takes bytes off the stream, so fuel does not run out; without a timer no future is
    dropped, and only a silent peer is waited for. *)
Definition left (s : Stream) : nat := stream_length (reads s) (BoltClient.read_buf s).

Record steps {A} (s : Stream) (r : result halt A) (s' : Stream) : Prop := {
  steps_fuel : r ≠ Err OutOfFuel;
  steps_left : (left s' <= left s)%nat;
  steps_timer : timer s = None → r ≠ Err Late ∧ timer s' = None;
  steps_open : stays_open s' = stays_open s ∧ (r = Err Waiting → stays_open s = true);
}.

Lemma fill_stream_steps e1 e2 n open rd t buf r rd' t' buf' :
  fill_stream e1 e2 n open rd t buf = (r, (rd', t', buf')) →
  r ≠ Err OutOfFuel ∧ stream_length rd' buf' = stream_length rd buf ∧ (t = None → r ≠ Err Late ∧ t' = None)
  ∧ (r = Err Waiting → open = true) ∧ (r = Ok tt → n <= blen buf').
Proof.
  revert t buf. induction rd as [|c rd IH]; intros t buf; cbn [fill_stream];
    (destruct (Z.leb_spec n (blen buf)); [by intros [= <- <- <- <-]|]).
  - destruct t as [[|t]|]; destruct open; by intros [= <- <- <- <-].
  - assert (∀ b, stream_length rd (buf ++ b) = (length buf + (length b + length (socket_bytes rd)))%nat) as Hb.
    { intros b. unfold stream_length. rewrite length_app. lia. }
    destruct t as [[|t]|]; [by intros [= <- <- <- <-]| |]; destruct c as [[|b c]|]; try by intros [= <- <- <- <-].
    + intros E. apply IH in E as (H1 & H2 & H3 & H4). split; [done|]. split; [|by split].
      rewrite H2, Hb. unfold stream_length. cbn. rewrite length_app. done.
    + intros E. apply IH in E as (H1 & H2 & H3 & H4). split; [done|]. split; [|by split].
      rewrite H2, Hb. unfold stream_length. cbn. rewrite length_app. done.
Qed.

(** A step that fails fails the rest; one that succeeds is followed by it. *)
Lemma steps_err {A B} (s s' : Stream) e : @steps A s (Err e) s' → @steps B s (Err e) s'.
Proof.
  intros [F L T [O W]]. split; [congruence|done| |split; [done|intros [= ->]; by apply W]].
  intros Ht. destruct (T Ht). split; [congruence|done].
Qed.
Lemma steps_then {A B} (s1 s2 s3 : Stream) (x : A) (r : result halt B) :
  steps s1 (Ok x) s2 → steps s2 r s3 → steps s1 r s3.
Proof.
  intros [_ L1 T1 [O1 _]] [F L T [O W]]. split; [done|lia| |split; [congruence|rewrite <- O1; done]].
  intros Ht. by apply T, T1.
Qed.

Lemma fill_to_steps e1 e2 n s r s' :
  fill_to e1 e2 n s = (r, s') → steps s r s' ∧ left s' = left s ∧ (r = Ok tt → n <= blen (BoltClient.read_buf s')).
Proof.
  unfold fill_to. destruct (fill_stream _ _ _ _ _ _ _) as [r0 [[rd t] buf]] eqn:E. intros [= <- <-].
  apply fill_stream_steps in E as (H1 & H2 & H3 & H4 & H5).
  assert (left (mkStream rd (sent s) (writable s) t buf (stays_open s)) = left s) as Hl by exact H2.
  split; [|done]. split; [done|by rewrite Hl|done|done].
Qed.

Lemma advance_left n s : Z.of_nat n <= blen (BoltClient.read_buf s) → (left (advance n s) + n)%nat = left s.
Proof.
  unfold left, stream_length, advance, blen. cbn [BoltClient.reads BoltClient.read_buf]. rewrite length_drop. lia.
Qed.

Lemma advance_steps n s : steps s (Ok tt) (advance n s).
Proof.
  split; [done| |done|done]. unfold left, stream_length, advance. cbn [BoltClient.reads BoltClient.read_buf].
  rewrite length_drop. lia.
Qed.

Lemma frame_stream_steps fuel message s r s' :
  (left s < fuel)%nat → frame_stream fuel message s = (r, s') →
  steps s r s' ∧ (∀ m, r = Ok m → (left s' < left s)%nat).
Proof.
  revert message s. induction fuel as [|fuel IH]; intros message s Hf; [lia|]. cbn [frame_stream].
  destruct (fill_to _ _ 2 s) as [r1 s1] eqn:E1. apply fill_to_steps in E1 as (S1 & L1 & N1).
  destruct r1 as [[]|e]; [|intros [= <- <-]; split; [by eapply steps_err|done]].
  pose proof (advance_left 2 s1 (N1 eq_refl)) as A1. cbv zeta.
  pose proof (steps_then _ _ _ _ _ S1 (advance_steps 2 s1)) as S1'.
  destruct (get_be _ =? 0)%Z.
  { intros [= <- <-]. split; [by eapply steps_then|]. intros _ _. lia. }
  destruct (MAX_BOLT_MESSAGE_SIZE <? _)%Z; [intros [= <- <-]; split; [by eapply steps_then|done]|].
  destruct (fill_to _ _ _ (advance 2 s1)) as [r2 s2] eqn:E2. apply fill_to_steps in E2 as (S2 & L2 & N2).
  destruct r2 as [[]|e].
  2:{ intros [= <- <-]. split; [|done]. eapply steps_then; [exact S1'|by eapply steps_err]. }
  specialize (N2 eq_refl). pose proof (get_be_range (take 2 (BoltClient.read_buf s1))) as Hr.
  pose proof (advance_left (Z.to_nat (get_be (take 2 (BoltClient.read_buf s1)))) s2 ltac:(lia)) as A2.
  intros E. apply IH in E as [S3 Lt]; [|lia]. split.
  - eapply steps_then; [exact S1'|]. eapply steps_then; [exact S2|]. eapply steps_then; [apply advance_steps|exact S3].
  - intros m Hm. specialize (Lt m Hm). lia.
Qed.

(** An operation that ends, takes bytes off the stream or none, and leaves no timer behind. *)
Definition steady {A} (m : KM A) : Prop :=
  ∀ c r c', m c = (r, c') → steps (stream c) r (stream c').

(** What an operation may end in by itself. *)
Definition settled {A} (r : result halt A) : Prop := r ≠ Err OutOfFuel ∧ r ≠ Err Late ∧ r ≠ Err Waiting.

Lemma steps_refl {A} (s : Stream) (r : result halt A) : settled r → steps s r s.
Proof. by intros (? & ? & ?). Qed.

Lemma steady_result {A} (r : result halt A) : settled r → steady (k_result r).
Proof. intros ? c r' c' [= <- <-]. by apply steps_refl. Qed.
Lemma steady_ret {A} (x : A) : steady (mret x).
Proof. intros c r c' [= <- <-]. by apply steps_refl. Qed.
Lemma steady_fail {A} e : steady (@k_fail A e).
Proof. by apply steady_result. Qed.
Lemma steady_net {A} (r : result NetError A) : steady (k_net r).
Proof. apply steady_result; by destruct r. Qed.
Lemma steady_update f : local f → steady (k_update f).
Proof. intros Hf c r c' [= <- <-]. rewrite (local_stream _ Hf). by apply steps_refl. Qed.

Lemma steady_bind {A B} (m : KM A) (k : A → KM B) : steady m → (∀ x, steady (k x)) → steady (m ≫= k).
Proof.
  intros Hm Hk c r c'. unfold mbind, KM_bind. destruct (m c) as [[x|e] c1] eqn:E1; intros E2.
  - eapply steps_then; [by apply Hm|by eapply Hk].
  - injection E2 as <- <-. eapply steps_err. by apply Hm.
Qed.

Lemma steady_ignore {A} (m : KM A) : steady m → steady (ignore m).
Proof.
  intros Hm c r c'. unfold ignore. destruct (m c) as [[x|[e| | |]] c1] eqn:E; intros [= <- <-];
    apply Hm in E; try (by eapply steps_err); destruct E as [F L T [O W]]; (split; [done|done| |done]);
    intros Ht; by destruct (T Ht).
Qed.

Lemma steady_write buf : steady (write_message_frame buf).
Proof.
  intros c r c'. unfold write_message_frame. destruct (writable (stream c)); intros [= <- <-]; by split.
Qed.

Lemma receive_steps c r c' :
  receive_response c = (r, c') →
  steps (stream c) r (stream c') ∧ (∀ x, r = Ok x → (bytes_left c' < bytes_left c)%nat).
Proof.
  unfold receive_response, bytes_left.
  destruct (frame_stream _ [] (stream c)) as [[m|e] s] eqn:E; apply frame_stream_steps in E as [S Lt];
    try (unfold left; lia); intros [= <- <-]; cbn [stream set_stream].
  - split; [|intros x _; by apply (Lt m)]. eapply steps_then; [exact S|]. apply steps_refl.
    by destruct (response_decode m) as [[??]|].
  - split; [by eapply steps_err|done].
Qed.

Lemma steady_receive : steady receive_response.
Proof. intros c r c' E. by apply receive_steps in E as [? _]. Qed.

(** Under a timer nothing is waited for. *)
Lemma steady_with_timer {A} fires (late m : KM A) :
  steady m → steady late → (∀ c, (late c).1 ≠ Err Waiting) →
  steady (with_timer fires late m) ∧ ∀ c, (with_timer fires late m c).1 ≠ Err Waiting.
Proof.
  intros Hm Hl Hw. unfold with_timer. split.
  - intros c r c'.
    destruct (m (set_stream (set_timer fires (stream c)) c)) as [r1 c1] eqn:E. apply Hm in E as [F L _ [O W]].
    change (left (stream (set_stream (set_timer fires (stream c)) c))) with (left (stream c)) in L.
    change (stays_open (stream (set_stream (set_timer fires (stream c)) c))) with (stays_open (stream c)) in O, W.
    intros E2. assert (r1 = Err Late ∨ r1 = Err Waiting ∨ settled r1) as Hr1.
    { destruct r1 as [x|[e| | |]]; [by right; right; split_and!|by right; right; split_and!|by left|by right; left|done]. }
    assert (steps (set_timer None (stream c1)) r (stream c')) as [F2 L2 T2 [O2 W2]].
    { destruct r1 as [x|[e| | |]]; try (by apply Hl in E2); injection E2 as <- <-; by apply steps_refl. }
    change (left (set_timer None (stream c1))) with (left (stream c1)) in L2.
    change (stays_open (set_timer None (stream c1))) with (stays_open (stream c1)) in O2, W2.
    split; [done|lia|intros _; by apply T2|]. split; [congruence|rewrite <- O; done].
  - intros c. destruct (m (set_stream (set_timer fires (stream c)) c)) as [[x|[e| | |]] c1]; cbn; done || apply Hw.
Qed.

Create HintDb steady.
#[local] Hint Resolve steady_ret steady_fail steady_net steady_write steady_receive : steady.

(** Walks through an operation: its calls by the hints, its cases one by one. *)
Ltac steady :=
  repeat (intros; first [ solve [auto 2 with steady nocore] | apply steady_update; by split
                        | apply steady_ignore | apply steady_bind | case_match ]).

Section returning.
Context (CARGO_PKG_VERSION OS : string).
Context `{CharClass} `{Resp.F64Text} `{BoltJson} `{ArrowBatches} `{JsonNumbers}.

Lemma steady_request req : steady (send_request req).
Proof. apply steady_write. Qed.
#[local] Hint Resolve steady_request : steady.

Lemma steady_reset : steady reset.
Proof. unfold reset. steady. Qed.
#[local] Hint Resolve steady_reset : steady.

Lemma record_loop_steps fuel acc c r c' :
  (bytes_left c < fuel)%nat → record_loop fuel acc c = (r, c') → steps (stream c) r (stream c').
Proof.
  revert acc c. induction fuel as [|fuel IH]; intros acc c Hf; [lia|]. cbn [record_loop].
  unfold mbind at 1, KM_bind at 1. destruct (receive_response c) as [[x|e] c1] eqn:E1;
    apply receive_steps in E1 as [S1 Lt].
  - intros E2. specialize (Lt x eq_refl). eapply steps_then; [exact S1|]. destruct x as [m|fields|m|m].
    + by apply (steady_ret (acc, Finished m)) in E2.
    + apply IH in E2; [done|lia].
    + revert E2. apply (steady_bind (ignore reset)); steady.
    + by apply steady_fail in E2.
  - intros [= <- <-]. by eapply steps_err.
Qed.

Lemma steady_read_records : steady read_records.
Proof. intros c r c'. unfold read_records. apply record_loop_steps. lia. Qed.
#[local] Hint Resolve steady_read_records : steady.

Lemma steady_run_reply code : steady (run_reply code).
Proof. unfold run_reply. steady. Qed.
#[local] Hint Resolve steady_run_reply : steady.

(** What an operation does may depend on the connection it starts from. *)
Lemma steady_at {A} (m : BoltConnection → KM A) : (∀ c, steady (m c)) → steady (λ c, m c c).
Proof. intros Hm c r c' E. by apply (Hm c) in E. Qed.

Lemma steady_execute_inner q ps : steady (execute_inner q ps).
Proof.
  apply (steady_at (λ c, if negb (is_valid c) then closed_error else _)). intros c. destruct (negb (is_valid c)); [apply steady_fail|].
  unfold send_run. steady.
Qed.

Lemma timed_ends {A} fires to (m : KM A) :
  steady m → steady (with_timer fires (timed_out to) m) ∧ ∀ c, (with_timer fires (timed_out to) m c).1 ≠ Err Waiting.
Proof. intros Hm. apply steady_with_timer; [done| |done]. unfold timed_out. steady. Qed.

Lemma steady_execute fires q ps : steady (execute fires q ps).
Proof.
  intros c r c'. unfold execute. destruct (query_timeout c); [apply timed_ends|]; apply steady_execute_inner.
Qed.

Lemma steady_bookmark m : steady (note_bookmark m).
Proof. unfold note_bookmark. steady. Qed.
#[local] Hint Resolve steady_bookmark : steady.

Lemma steady_raw_inner q ps extra : steady (execute_raw_records_inner q ps extra).
Proof. unfold execute_raw_records_inner, send_run. steady. Qed.

Lemma steady_raw fires q ps db meta ms bms : steady (execute_raw_records_with_options fires q ps db meta ms bms).
Proof.
  intros c r c'. unfold execute_raw_records_with_options. destruct (negb (is_valid c)); [apply steady_fail|].
  destruct (effective_timeout ms c) as [told [own|]]; [apply timed_ends|]; apply steady_raw_inner.
Qed.

Lemma steady_begin db meta ms bms : steady (begin_tx_with_options db meta ms bms).
Proof. unfold begin_tx_with_options. steady. Qed.

Lemma steady_end request what msg k : (∀ m, steady (k m)) → steady (end_tx request what msg k).
Proof. intros Hk. unfold end_tx. steady. Qed.

Lemma steady_ping : steady ping.
Proof. intros c r c'. unfold ping. by destruct (negb (is_valid c)); [apply steady_fail|apply steady_reset]. Qed.

Lemma steady_close : steady close.
Proof.
  intros c r c'. unfold close. destruct (is_valid c); [|apply (steady_ret tt)].
  apply (steady_bind (ignore (send_request Goodbye))); steady.
Qed.

(** An operation returns, in a value or in an error of the client; or it waits for a peer that
    stays silent. *)
Definition returns {A} (m : KM A) (c : BoltConnection) : Prop :=
  (∃ x, (m c).1 = Ok x) ∨ (∃ e, (m c).1 = Err (Raise e)).
Definition returns_unless_silent {A} (m : KM A) (c : BoltConnection) : Prop :=
  returns m c ∨ (m c).1 = Err Waiting ∧ stays_open (stream c) = true.

Lemma steady_returns {A} (m : KM A) c : steady m → timer (stream c) = None → returns_unless_silent m c.
Proof.
  intros Hm Ht. unfold returns_unless_silent, returns. destruct (m c) as [r c'] eqn:E.
  apply Hm in E as [F _ T [_ W]]. destruct (T Ht) as [L _]. destruct r as [x|[e| | |]]; eauto; done.
Qed.
Lemma steady_returns_timed {A} (m : KM A) c :
  steady m → timer (stream c) = None → (m c).1 ≠ Err Waiting → returns m c.
Proof. intros Hm Ht Hw. by destruct (steady_returns m c Hm Ht) as [?|[? _]]. Qed.

Lemma close_ends c : (close c).1 ≠ Err Waiting.
Proof.
  unfold close. destruct (is_valid c); [|done]. unfold mbind, KM_bind, ignore, send_request.
  generalize (encode_chunks (request_encode Goodbye)). intros buf. unfold write_message_frame.
  by destruct (writable (stream c)).
Qed.

(** C38: Whatever a server sends, and whenever it hangs up, falls silent or the timer fires: a
    query with a timeout, plain or for raw records, returns in a value or an error after
    finitely many reads, and so does closing.  Without a timeout - which [begin], [commit],
    [rollback], [reset] and [ping] never have - an operation returns too, unless the peer falls
    silent with the connection open, and then it waits.  No loop over chunks or records runs on,
    and no dropped future escapes. *)
Theorem bolt_operations_return c :
  timer (stream c) = None →
  (∀ fires q ps, query_timeout c ≠ None → returns (execute fires q ps) c)
  ∧ (∀ fires q ps db meta ms bms, (effective_timeout ms c).2 ≠ None →
       returns (execute_raw_records_with_options fires q ps db meta ms bms) c)
  ∧ returns close c
  ∧ (∀ fires q ps, returns_unless_silent (execute fires q ps) c)
  ∧ (∀ fires q ps db meta ms bms, returns_unless_silent (execute_raw_records_with_options fires q ps db meta ms bms) c)
  ∧ (∀ db meta ms bms, returns_unless_silent (begin_tx_with_options db meta ms bms) c)
  ∧ returns_unless_silent commit_tx c ∧ returns_unless_silent rollback_tx c
  ∧ returns_unless_silent reset c ∧ returns_unless_silent ping c.
Proof.
  intros Ht. split_and!; intros.
  - apply steady_returns_timed; [apply steady_execute|exact Ht|].
    unfold execute. destruct (query_timeout c); [apply timed_ends, steady_execute_inner|done].
  - apply steady_returns_timed; [apply steady_raw|exact Ht|].
    unfold execute_raw_records_with_options. destruct (negb (is_valid c)); [done|].
    destruct (effective_timeout ms c) as [told [own|]]; [apply timed_ends, steady_raw_inner|done].
  - apply steady_returns_timed; [apply steady_close|exact Ht|]. apply close_ends.
  - apply steady_returns; [apply steady_execute|exact Ht].
  - apply steady_returns; [apply steady_raw|exact Ht].
  - apply steady_returns; [apply steady_begin|exact Ht].
  - apply steady_returns; [|exact Ht]. apply steady_end, steady_bookmark.
  - apply steady_returns; [|exact Ht]. apply steady_end. intros; apply steady_ret.
  - apply steady_returns; [apply steady_reset|exact Ht].
  - apply steady_returns; [apply steady_ping|exact Ht].
Qed.

(** And it does wait: before a peer that is silent from now on, a request is never answered. *)
Definition silent (c : BoltConnection) : Prop :=
  writable (stream c) = true ∧ reads (stream c) = [] ∧ BoltClient.read_buf (stream c) = [] ∧
  stays_open (stream c) = true ∧ timer (stream c) = None.

Lemma silent_request {A} req (k : BoltResponse → KM A) c :
  silent c → ((send_request req;; resp ← receive_response; k resp) c).1 = Err Waiting.
Proof.
  destruct c as [[rd out w t buf open] v valid tx agent bm meta to]. intros (Hw & Hr & Hb & Ho & Ht).
  cbn in Hw, Hr, Hb, Ho, Ht. subst w rd buf open t. unfold send_request.
  by generalize (encode_chunks (request_encode req)).
Qed.

Lemma silent_peer_is_waited_for c db :
  silent c →
  (reset c).1 = Err Waiting ∧ (is_valid c = true → (ping c).1 = Err Waiting) ∧ (begin_tx db c).1 = Err Waiting
  ∧ (commit_tx c).1 = Err Waiting ∧ (rollback_tx c).1 = Err Waiting.
Proof.
  intros Hc. split_and!; try by apply silent_request.
  unfold ping. intros ->. by apply silent_request.
Qed.
End returning.

(** ** Columns *)

Section columns.
Context `{Resp.F64Text} `{BoltJson} `{ArrowBatches}.

(** Each cell has its entry: null for a null or missing one, else what is read from it. *)
Definition holds_values (cells : list (option BoltValue)) (column : ArrayRef) : Prop :=
  match column with
  | Int64Array es => Forall2 (reads_cell as_i64) cells es
  | Float64Array es => Forall2 (reads_cell read_number) cells es
  | BooleanArray es => Forall2 (reads_cell as_bool) cells es
  | StringArray es => Forall2 (reads_cell (λ v, Some (cell_text v))) cells es
  end.

Lemma count_le f g cells : (∀ v, f v = true → g v = true) → (count_if f cells <= count_if g cells)%nat.
Proof.
  intros Hfg. unfold count_if. induction cells as [|[v|] cells IH]; cbn; try done.
  destruct (f v) eqn:E; [rewrite (Hfg v E); cbn; lia|]. destruct (g v); cbn; lia.
Qed.

Lemma count_all {A} f (read : BoltValue → option A) cells :
  (∀ v, f v = true → is_Some (read v)) → count_if f cells = count_if (λ _, true) cells →
  Forall (readable read) cells.
Proof.
  intros Hf. induction cells as [|[v|] cells IH]; intros E; constructor; try done.
  - cbn. apply Hf. destruct (f v) eqn:Ev; [done|]. exfalso. unfold count_if in E. cbn in E. rewrite Ev in E.
    pose proof (count_le f (λ _, true) cells ltac:(done)). unfold count_if in *. lia.
  - apply IH. unfold count_if in *. cbn in E. destruct (f v) eqn:Ev; cbn in E; [lia|].
    pose proof (count_le f (λ _, true) cells ltac:(done)). unfold count_if in *. lia.
  - apply IH, E.
Qed.

Lemma count_sum cells :
  count_if (λ v, is_integer v || is_float_value v) cells = (count_if is_integer cells + count_if is_float_value cells)%nat.
Proof. unfold count_if. induction cells as [|[v|] cells IH]; cbn; try done. destruct v; cbn; lia. Qed.

Lemma float_is_number cells : Forall (readable read_float) cells →
  map (λ c, c ≫= read_float) cells = map (λ c, c ≫= read_number) cells.
Proof.
  induction 1 as [|[v|] cells Hc _ IH]; cbn [map]; [done| |by rewrite IH].
  rewrite IH. f_equal. destruct v; cbn in *; by destruct Hc.
Qed.

(** No value of a column is lost, whatever the mixture of types: integers next to floats are
    rounded to floats, and any other mixture becomes text. *)
Lemma bolt_column_keeps_cells cells : holds_values cells (build_bolt_column cells).
Proof.
  unfold build_bolt_column.
  destruct (bool_decide (0 < _)%nat && bool_decide (count_if is_integer cells = _)) eqn:E1.
  { apply andb_true_iff in E1 as [_ E%bool_decide_eq_true]. apply read_entries.
    eapply count_all; [|exact E]. by intros []. }
  destruct (bool_decide (0 < _)%nat && bool_decide (count_if is_float_value cells = _)) eqn:E2.
  { apply andb_true_iff in E2 as [_ E%bool_decide_eq_true].
    rewrite float_is_number by (eapply count_all; [|exact E]; by intros []).
    apply read_entries. eapply count_all; [|exact E]. by intros []. }
  destruct (bool_decide (0 < _)%nat && _ && _ && _) eqn:E3.
  { apply andb_true_iff in E3 as [E3 _]. apply andb_true_iff in E3 as [E3 _].
    apply andb_true_iff in E3 as [_ E%bool_decide_eq_true]. rewrite <- count_sum in E.
    apply read_entries. eapply count_all; [|exact E]. by intros []. }
  destruct (bool_decide (0 < _)%nat && bool_decide (count_if is_boolean cells = _)) eqn:E4.
  { apply andb_true_iff in E4 as [_ E%bool_decide_eq_true]. apply read_entries.
    eapply count_all; [|exact E]. by intros []. }
  apply text_entries.
Qed.
End columns.

(** ** At a server *)

#[local] Existing Instance Resp.bits_text.
#[local] Existing Instance ascii_CharClass.
#[local] Instance no_bolt_json : BoltJson := λ _, "{}".
#[local] Instance bolt_batches : ArrowBatches.
Proof. refine {| try_new fields cols := if batch_ok fields cols then Some (mkBatch fields cols) else None |}. done. Defined.
#[local] Instance no_numbers : JsonNumbers :=
  {| json_number := (); number_as_i64 _ := None; number_as_f64 _ := None; number_text _ := "0" |}.

Definition v54 : BoltVersion := mkVersion 5 4.
(** A peer that plays these reads and hangs up, or stays. *)
Definition played (rd : socket) (v : BoltVersion) : BoltConnection := from_stream (mkStream rd [] true None [] false) v.
Definition stalled (timeout : option Z) : BoltConnection :=
  set_query_timeout timeout (from_stream (mkStream [] [] true None [] true) v54).
Definition names : BoltMap := [("fields", List [String "n"])].
Definition one_row : answer := Answered names [[Integer 7]] [("t_last", Integer 3)].
Definition refusal : answer :=
  Refused [("code", String "Neo.ClientError.Statement.SyntaxError"); ("message", String "no")] [] [].
Definition serve (answers : list answer) : socket := [Some (flat_map wire_of (flat_map responses answers))].

Ltac deliver :=
  split; [split; [cbn; unfold wf_int, wf_string, I64_MIN, I64_MAX, U32_MAX;
                  repeat match goal with |- _ ∧ _ => split end;
                  first [done | lia | apply NoDup_singleton | apply (bool_decide_unpack _); by vm_compute | by vm_compute]
                 | by vm_compute]
         | by vm_compute].

Lemma bolt_answers_stay_paired_witness :
  (∃ c', run_all [("RETURN 7 AS n", []); ("RETRUN 8", [])] (played (serve [refusal; one_row]) v54)
         = (map outcome_of [refusal; one_row], c')
    ∧ awaiting [] [] c' ∧ is_valid c' = true
    ∧ sent (stream c') = [] ++ concat (zip_with (requests None) [("RETURN 7 AS n", []); ("RETRUN 8", [])] [refusal; one_row]))
  ∧ map outcome_of [refusal; one_row]
    = [Err (Raise (ProtocolError "Neo.ClientError.Statement.SyntaxError: no"));
       Ok (mkResult ["n"] [mkBatch [("n", Int64)] [Int64Array [Some 7]]] (mkSummary 0 0 0 0 0 0 0 0 0 3))].
Proof.
  split; [|vm_compute; reflexivity].
  apply (bolt_answers_stay_paired [("RETURN 7 AS n", []); ("RETRUN 8", [])] [refusal; one_row]
           (played (serve [refusal; one_row]) v54) []); [done|done|].
  split; [repeat (apply List.Forall_cons; [deliver|]); apply List.Forall_nil|].
  split; [done|]. split; [done|]. exists [flat_map wire_of (flat_map responses [refusal; one_row])].
  split; [done|]. split; [by repeat constructor; vm_compute|]. by rewrite app_nil_r.
Defined.

Lemma bolt_operations_return_witness :
  returns (execute None "RETURN 1" []) (stalled (Some 1000000000)) ∧
  returns_unless_silent reset (stalled (Some 1000000000)) ∧
  (execute None "RETURN 1" [] (stalled (Some 1000000000))).1 = Err (Raise (Timeout "Query execution timed out after 1s")) ∧
  (reset (stalled (Some 1000000000))).1 = Err Waiting.
Proof.
  destruct (bolt_operations_return (stalled (Some 1000000000)) eq_refl) as (He & _ & _ & _ & _ & _ & _ & _ & Hr & _).
  split; [by apply He|]. split; [exact Hr|]. split; vm_compute; reflexivity.
Defined.

(** ** Where the client does less than it means to *)

(** From Bolt 5.1 on the database of the address is not sent: the handshake does not depend on
    it, and neither does any query. *)
Lemma database_is_ignored cpv os v auth db db' :
  is_v51_or_higher v = true → say_hello cpv os v auth db = say_hello cpv os v auth db'.
Proof. unfold say_hello. by intros ->. Qed.

(** A bearer token is dropped: the login has the scheme [none]. *)
Lemma bearer_token_is_dropped token :
  logon (basic_pair (Uri.Bearer token)) = Logon [("scheme", String "none")].
Proof. reflexivity. Qed.

(** An empty chunk between messages, which keeps a connection alive, is taken for an empty
    message, and its decoding fails. *)
Lemma noop_chunk_is_an_error :
  match (receive_response (played [Some ([x00; x00] ++ wire_of (Success []))] v54)).1 with
  | Err (Raise (ProtocolError _)) => True
  | _ => False
  end.
Proof. vm_compute. done. Qed.

Definition plain_uri : Uri.ParsedUri := Uri.mkUri Uri.Bolt "localhost" None Uri.NoAuth None Uri.Disabled ∅ None "".

(** Any version the server names is taken, also one that was not proposed. *)
Lemma unproposed_version_is_accepted :
  match connect_raw "1" "linux" (Ok ([Some ([x00; x00; x07; x03] ++ wire_of (Success []))], true, false))
          (Uri.mkConnectionConfig "" Uri.NoAuth None Uri.Disabled 0 None (Uri.pool Uri.ConnectionConfig_default)) plain_uri with
  | Ok c => version c = mkVersion 3 7
  | Err _ => False
  end.
Proof. vm_compute. done. Qed.

(** A failed query of a transaction resets the connection: the transaction is gone, and what
    its owner runs next is a transaction of its own. *)
Lemma failed_query_ends_transaction :
  let c := played [Some (wire_of (Success []) ++ flat_map wire_of (responses refusal ++ responses one_row))] v54 in
  let c1 := (begin_tx None c).2 in
  let c2 := (execute None "RETRUN 8" [] c1).2 in
  in_transaction c1 = true ∧ in_transaction c2 = false
  ∧ (execute None "CREATE (:A)" [] c2).1 = outcome_of one_row.
Proof. vm_compute. repeat split. Qed.

(** A message amid the records that cannot be read fails the query but leaves the connection
    valid, with the rest of the answer unread: the next query takes the old summary for the
    reply to its [RUN] and its own one for the end of its records, and succeeds without a row. *)
Lemma stale_summary_answers_the_next_query :
  let c := played [Some (wire_of (Success names) ++ encode_chunks (PackStream.encode (Structure x55 []))
                              ++ wire_of (Success []) ++ flat_map wire_of (responses one_row))] v54 in
  let c1 := (execute None "RETURN 7 AS n" [] c).2 in
  is_valid c1 = true
  ∧ (execute None "RETURN 7 AS n" [] c1).1 = Ok (mkResult [] [] QuerySummary_empty).
Proof. vm_compute. repeat split. Qed.
