(* ===== verification/Transaction.v ===== *)
(** * Units of work and their transactions ([voyager-core/src/transaction.rs])

    A unit of work records the changes of entities; a transaction remembers how long the
    arena and the record were at its start and at its savepoints, and cuts both back.  The
    theorem says that cutting back restores what was there. *)
From Stdlib Require Import Sorting.Sorted.
From S2P Require Import Prelude Bytes F64 Errors Ast BTree.

Open Scope Z_scope.
Open Scope string_scope.
Open Scope list_scope.

(** ** Data *)
Inductive TransactionState := Active | Committed | RolledBack.
#[export] Instance TransactionState_eq_dec : EqDecision TransactionState.
Proof. solve_decision. Defined.

Inductive EntityMutation :=
| InsertNode (temp_id : Z) (labels : list string) (properties : btree LiteralValue)
| UpdateNode (node_id : Z) (old_properties new_properties : btree LiteralValue)
| DeleteNode (node_id : Z) (old_labels : list string) (old_properties : btree LiteralValue)
| InsertEdge (temp_id source_id target_id : Z) (edge_type : string) (properties : btree LiteralValue)
| DeleteEdge (edge_id source_id target_id : Z) (edge_type : string) (old_properties : btree LiteralValue).

Record CheckpointState := mkCheckpoint { arena_length : Z; mutation_count : Z }.
Record Savepoint := mkSavepoint { sp_name : string; sp_checkpoint : CheckpointState }.

Record UnitOfWork := mkUow { mutations : list EntityMutation; next_temp_id : Z }.
Definition UnitOfWork_new : UnitOfWork := mkUow [] 1.
Definition UnitOfWork_default : UnitOfWork := mkUow [] 0.

(** ** Recording changes *)
Definition push_mutation (m : EntityMutation) (u : UnitOfWork) : UnitOfWork := mkUow (mutations u ++ [m]) (next_temp_id u).
(** The next temporary identifier; in the release profile the counter wraps. *)
Definition take_temp_id (u : UnitOfWork) : Z * UnitOfWork :=
  (next_temp_id u, mkUow (mutations u) (as_unsigned 64 (next_temp_id u + 1))).

Definition register_new_node (labels : list string) (properties : btree LiteralValue) (u : UnitOfWork) : Z * UnitOfWork :=
  let '(temp_id, u) := take_temp_id u in (temp_id, push_mutation (InsertNode temp_id labels properties) u).
Definition register_dirty_node (node_id : Z) (old_properties new_properties : btree LiteralValue) (u : UnitOfWork) : UnitOfWork :=
  push_mutation (UpdateNode node_id old_properties new_properties) u.
Definition register_deleted_node (node_id : Z) (old_labels : list string) (old_properties : btree LiteralValue)
    (u : UnitOfWork) : UnitOfWork := push_mutation (DeleteNode node_id old_labels old_properties) u.
Definition register_new_edge (source_id target_id : Z) (edge_type : string) (properties : btree LiteralValue)
    (u : UnitOfWork) : Z * UnitOfWork :=
  let '(temp_id, u) := take_temp_id u in
  (temp_id, push_mutation (InsertEdge temp_id source_id target_id edge_type properties) u).
Definition register_deleted_edge (edge_id source_id target_id : Z) (edge_type : string)
    (old_properties : btree LiteralValue) (u : UnitOfWork) : UnitOfWork :=
  push_mutation (DeleteEdge edge_id source_id target_id edge_type old_properties) u.

Definition pending_mutations (u : UnitOfWork) : list EntityMutation := mutations u.
Definition uow_len (u : UnitOfWork) : Z := blen (mutations u).
Definition uow_is_empty (u : UnitOfWork) : bool := bool_decide (mutations u = []).

Definition uow_checkpoint (a : QueryAstArena) (u : UnitOfWork) : CheckpointState :=
  mkCheckpoint (blen (nodes a)) (blen (mutations u)).
Definition uow_rollback_to (c : CheckpointState) (a : QueryAstArena) (u : UnitOfWork) : QueryAstArena * UnitOfWork :=
  (rollback_to a (arena_length c),
   if (mutation_count c <? blen (mutations u))%Z then mkUow (take (Z.to_nat (mutation_count c)) (mutations u)) (next_temp_id u)
   else u).
Definition uow_clear (u : UnitOfWork) : UnitOfWork := mkUow [] (next_temp_id u).

(** ** Transactions *)
Record Transaction := mkTransaction {
  tx_id : Z; tx_state : TransactionState; initial_checkpoint : CheckpointState; savepoints : list Savepoint }.
Definition Transaction_new (id : Z) (u : UnitOfWork) (a : QueryAstArena) : Transaction :=
  mkTransaction id Active (uow_checkpoint a u) [].
Definition is_active (t : Transaction) : bool := bool_decide (tx_state t = Active).
Definition set_savepoints (sps : list Savepoint) (t : Transaction) : Transaction :=
  mkTransaction (tx_id t) (tx_state t) (initial_checkpoint t) sps.
Definition finish (s : TransactionState) (t : Transaction) : Transaction := mkTransaction (tx_id t) s (initial_checkpoint t) [].
Definition tx_error (msg : string) : CoreErr := CoreTransactionError msg.

Definition savepoint (name : string) (u : UnitOfWork) (a : QueryAstArena) (t : Transaction) : result CoreErr Transaction :=
  if is_active t then Ok (set_savepoints (savepoints t ++ [mkSavepoint name (uow_checkpoint a u)]) t)
  else Err (tx_error "Cannot create savepoint on inactive transaction").

(** [rposition]: the last savepoint of the name. *)
Fixpoint rposition (name : string) (sps : list Savepoint) : option nat :=
  match sps with
  | [] => None
  | sp :: sps => match rposition name sps with
                 | Some i => Some (S i)
                 | None => if bool_decide (sp_name sp = name) then Some 0%nat else None
                 end
  end.
Definition find_savepoint (name : string) (t : Transaction) : result CoreErr (nat * Savepoint) :=
  match rposition name (savepoints t) with
  | Some pos => match savepoints t !! pos with
                | Some sp => Ok (pos, sp)
                | None => Err (tx_error "")
                end
  | None => Err (tx_error ("Savepoint '" +:+ name +:+ "' not found in transaction"))
  end.
Definition rollback_to_savepoint (name : string) (u : UnitOfWork) (a : QueryAstArena) (t : Transaction) :
    result CoreErr (QueryAstArena * UnitOfWork * Transaction) :=
  if is_active t then
    '(pos, sp) ← find_savepoint name t;
    Ok (uow_rollback_to (sp_checkpoint sp) a u, set_savepoints (take (S pos) (savepoints t)) t)
  else Err (tx_error "Cannot rollback savepoint on inactive transaction").
Definition release_savepoint (name : string) (t : Transaction) : result CoreErr Transaction :=
  if is_active t then
    '(pos, _) ← find_savepoint name t;
    Ok (set_savepoints (delete pos (savepoints t)) t)
  else Err (tx_error "Cannot release savepoint on inactive transaction").
Definition tx_commit (u : UnitOfWork) (t : Transaction) : result CoreErr (UnitOfWork * Transaction) :=
  if is_active t then Ok (uow_clear u, finish Committed t)
  else Err (tx_error "Cannot commit inactive transaction").
Definition tx_rollback (u : UnitOfWork) (a : QueryAstArena) (t : Transaction) :
    result CoreErr (QueryAstArena * UnitOfWork * Transaction) :=
  if is_active t then Ok (uow_rollback_to (initial_checkpoint t) a u, finish RolledBack t)
  else Err (tx_error "Cannot rollback inactive transaction").

(** ** Sequences of calls

    What a program does with the arena, the record and the transaction: besides the calls above
    it allocates nodes, writes one through [get_mut], or all of them through [nodes_mut]. *)
Inductive Action :=
| AAlloc (node : AstNode)
| AWrite (handle : NodeHandle) (node : AstNode)
| AWriteAll (f : nat → AstNode → AstNode)
| ANewNode (labels : list string) (properties : btree LiteralValue)
| ADirtyNode (node_id : Z) (old_properties new_properties : btree LiteralValue)
| ADeletedNode (node_id : Z) (old_labels : list string) (old_properties : btree LiteralValue)
| ANewEdge (source_id target_id : Z) (edge_type : string) (properties : btree LiteralValue)
| ADeletedEdge (edge_id source_id target_id : Z) (edge_type : string) (old_properties : btree LiteralValue)
| ASavepoint (name : string) | ARollbackTo (name : string) | ARelease (name : string) | ACommit | ARollback.

Record World := mkWorld { w_arena : QueryAstArena; w_uow : UnitOfWork; w_tx : Transaction }.

(** The answer of a call: nothing, a handle or a temporary identifier, or an error. *)
Notation reply := (result CoreErr (option Z)).
Definition replied (w : World) (r : result CoreErr (option Z * World)) : reply * World :=
  match r with Ok (x, w') => (Ok x, w') | Err e => (Err e, w) end.

Definition act (x : Action) (w : World) : reply * World :=
  let '(mkWorld a u t) := w in
  replied w match x with
  | AAlloc node => let '(h, a) := arena_alloc node a in Ok (Some h, mkWorld a u t)
  | AWrite h node => (λ _, (None, mkWorld (arena_set a h node) u t)) <$> arena_get a h
  | AWriteAll f => Ok (None, mkWorld (mkArena (imap f (nodes a))) u t)
  | ANewNode labels ps => let '(id, u) := register_new_node labels ps u in Ok (Some id, mkWorld a u t)
  | ADirtyNode id old new => Ok (None, mkWorld a (register_dirty_node id old new u) t)
  | ADeletedNode id labels old => Ok (None, mkWorld a (register_deleted_node id labels old u) t)
  | ANewEdge s d ty ps => let '(id, u) := register_new_edge s d ty ps u in Ok (Some id, mkWorld a u t)
  | ADeletedEdge id s d ty old => Ok (None, mkWorld a (register_deleted_edge id s d ty old u) t)
  | ASavepoint name => (λ t, (None, mkWorld a u t)) <$> savepoint name u a t
  | ARollbackTo name => (λ '(a, u, t), (None, mkWorld a u t)) <$> rollback_to_savepoint name u a t
  | ARelease name => (λ t, (None, mkWorld a u t)) <$> release_savepoint name t
  | ACommit => (λ '(u, t), (None, mkWorld a u t)) <$> tx_commit u t
  | ARollback => (λ '(a, u, t), (None, mkWorld a u t)) <$> tx_rollback u a t
  end.
Fixpoint acts (xs : list Action) (w : World) : list reply * World :=
  match xs with
  | [] => ([], w)
  | x :: xs => let '(r, w) := act x w in let '(rs, w) := acts xs w in (r :: rs, w)
  end.

(** ** The specification: whole copies instead of lengths

    [s_written] are the places of the arena that were written since they were allocated: what
    is there is not restored. *)
Record Snap := mkSnap { snap_ast : list AstNode; snap_log : list EntityMutation }.
Record Spec := mkSpec { s_state : TransactionState; s_start : Snap; s_saved : list (string * Snap); s_now : Snap;
                        s_next : Z; s_written : gset nat }.
Definition below (n : nat) (written : gset nat) : gset nat := filter (λ i, i < n)%nat written.

(** What an action adds to the record. *)
Definition logged (x : Action) (next : Z) : list EntityMutation :=
  match x with
  | ANewNode labels ps => [InsertNode next labels ps]
  | ADirtyNode id old new => [UpdateNode id old new]
  | ADeletedNode id labels old => [DeleteNode id labels old]
  | ANewEdge s d ty ps => [InsertEdge next s d ty ps]
  | ADeletedEdge id s d ty old => [DeleteEdge id s d ty old]
  | _ => []
  end.
Definition numbers (x : Action) : bool := match x with ANewNode _ _ | ANewEdge _ _ _ _ => true | _ => false end.
Definition records (x : Action) : bool :=
  match x with ANewNode _ _ | ADirtyNode _ _ _ | ADeletedNode _ _ _ | ANewEdge _ _ _ _ | ADeletedEdge _ _ _ _ _ => true | _ => false end.
Definition refusal (x : Action) : option string :=
  match x with
  | ASavepoint _ => Some "Cannot create savepoint on inactive transaction"
  | ARollbackTo _ => Some "Cannot rollback savepoint on inactive transaction"
  | ARelease _ => Some "Cannot release savepoint on inactive transaction"
  | ACommit => Some "Cannot commit inactive transaction"
  | ARollback => Some "Cannot rollback inactive transaction"
  | _ => None
  end.

(** The last saved copy of a name. *)
Definition last_saved (name : string) (saved l1 : list (string * Snap)) (s : Snap) (l2 : list (string * Snap)) : Prop :=
  saved = l1 ++ (name, s) :: l2 ∧ name ∉ l2.*1.
Definition no_savepoint (name : string) : CoreErr := tx_error ("Savepoint '" +:+ name +:+ "' not found in transaction").

Inductive spec_act : Action → Spec → reply → Spec → Prop :=
| spec_alloc node st i sv n k wr :
    spec_act (AAlloc node) (mkSpec st i sv n k wr) (Ok (Some (as_unsigned 32 (blen (snap_ast n)))))
      (mkSpec st i sv (mkSnap (snap_ast n ++ [node]) (snap_log n)) k wr)
| spec_write h node st i sv n k wr :
    (Z.to_nat h < length (snap_ast n))%nat →
    spec_act (AWrite h node) (mkSpec st i sv n k wr) (Ok None)
      (mkSpec st i sv (mkSnap (<[Z.to_nat h := node]> (snap_ast n)) (snap_log n)) k ({[Z.to_nat h]} ∪ wr))
| spec_no_node h node st i sv n k wr :
    (length (snap_ast n) <= Z.to_nat h)%nat →
    spec_act (AWrite h node) (mkSpec st i sv n k wr) (Err (InvalidNodeHandle h)) (mkSpec st i sv n k wr)
| spec_write_all f st i sv n k wr :
    spec_act (AWriteAll f) (mkSpec st i sv n k wr) (Ok None)
      (mkSpec st i sv (mkSnap (imap f (snap_ast n)) (snap_log n)) k (list_to_set (seq 0 (length (snap_ast n))) ∪ wr))
| spec_record x st i sv n k wr :
    records x = true →
    spec_act x (mkSpec st i sv n k wr) (Ok (if numbers x then Some k else None))
      (mkSpec st i sv (mkSnap (snap_ast n) (snap_log n ++ logged x k)) (if numbers x then as_unsigned 64 (k + 1) else k) wr)
| spec_refused x msg st i sv n k wr :
    refusal x = Some msg → st ≠ Active → spec_act x (mkSpec st i sv n k wr) (Err (tx_error msg)) (mkSpec st i sv n k wr)
| spec_savepoint name i sv n k wr :
    spec_act (ASavepoint name) (mkSpec Active i sv n k wr) (Ok None) (mkSpec Active i (sv ++ [(name, n)]) n k wr)
| spec_rollback_to name i l1 s l2 sv n k wr :
    last_saved name sv l1 s l2 →
    spec_act (ARollbackTo name) (mkSpec Active i sv n k wr) (Ok None)
      (mkSpec Active i (l1 ++ [(name, s)]) s k (below (length (snap_ast s)) wr))
| spec_release name i l1 s l2 sv n k wr :
    last_saved name sv l1 s l2 →
    spec_act (ARelease name) (mkSpec Active i sv n k wr) (Ok None) (mkSpec Active i (l1 ++ l2) n k wr)
| spec_unknown x name i sv n k wr :
    x = ARollbackTo name ∨ x = ARelease name → name ∉ sv.*1 →
    spec_act x (mkSpec Active i sv n k wr) (Err (no_savepoint name)) (mkSpec Active i sv n k wr)
| spec_commit i sv n k wr :
    spec_act ACommit (mkSpec Active i sv n k wr) (Ok None) (mkSpec Committed i [] (mkSnap (snap_ast n) []) k wr)
| spec_rollback i sv n k wr :
    spec_act ARollback (mkSpec Active i sv n k wr) (Ok None)
      (mkSpec RolledBack i [] i k (below (length (snap_ast i)) wr)).

(** ** The simulation *)
Definition length_of (s : Snap) : CheckpointState := mkCheckpoint (blen (snap_ast s)) (blen (snap_log s)).
Definition snap_prefix (s s' : Snap) : Prop :=
  (length (snap_ast s) <= length (snap_ast s'))%nat ∧ snap_log s `prefix_of` snap_log s'.
#[local] Instance snap_prefix_preorder : PreOrder snap_prefix.
Proof. split; [intros s; split; done|intros s s' s'' [] []; split; [lia|by etransitivity]]. Qed.

Definition now_of (w : World) : Snap := mkSnap (nodes (w_arena w)) (mutations (w_uow w)).

(** The nodes of [l] are in [l'], but for what was written. *)
Definition within (written : gset nat) (l l' : list AstNode) : Prop :=
  (length l <= length l')%nat ∧ ∀ i, (i < length l)%nat → i ∉ written → l !! i = l' !! i.
(** Two arenas of one length are the same but for what was written. *)
Definition same_but (written : gset nat) (l l' : list AstNode) : Prop := length l = length l' ∧ within written l l'.

(** Each copy is what its lengths cut out of a later one. *)
Record shows (w : World) (s : Spec) : Prop := {
  sh_state : tx_state (w_tx w) = s_state s;
  sh_log : mutations (w_uow w) = snap_log (s_now s);
  sh_ast : same_but (s_written s) (nodes (w_arena w)) (snap_ast (s_now s));
  sh_start : initial_checkpoint (w_tx w) = length_of (s_start s);
  sh_saved : savepoints (w_tx w) = (λ p, mkSavepoint p.1 (length_of p.2)) <$> s_saved s;
  sh_next : next_temp_id (w_uow w) = s_next s;
  sh_chain : s_state s = Active → StronglySorted snap_prefix (s_start s :: (s_saved s).*2 ++ [s_now s]);
  sh_within : s_state s = Active →
    Forall (λ x, within (s_written s) (snap_ast x) (nodes (w_arena w))) (s_start s :: (s_saved s).*2);
}.

Lemma within_same wr l l' : same_but wr l l' → within wr l' l.
Proof. intros [E [_ H]]. split; [lia|]. intros i Hi Hw. symmetry. apply H; [lia|done]. Qed.
Lemma same_but_sym wr l l' : same_but wr l l' → same_but wr l' l.
Proof. intros H. split; [by destruct H|by apply within_same]. Qed.
Lemma within_app wr l l' k : within wr l l' → within wr l (l' ++ k).
Proof.
  intros [E H]. split; [rewrite length_app; lia|]. intros i Hi Hw. rewrite lookup_app_l by lia. by apply H.
Qed.
Lemma same_but_app wr l l' k : same_but wr l l' → same_but wr (l ++ k) (l' ++ k).
Proof.
  intros [E [_ H]]. split; [rewrite !length_app; lia|]. split; [rewrite !length_app; lia|]. intros i Hi Hw.
  destruct (decide (i < length l)%nat) as [Hl|Hl]; [rewrite !lookup_app_l by lia; by apply H|].
  by rewrite !lookup_app_r, E by lia.
Qed.

(** Writing a place, on both sides or behind the copies. *)
Lemma within_write wr i node l l' : within wr l l' → within ({[i]} ∪ wr) l (<[i := node]> l').
Proof.
  intros [E H]. split; [by rewrite length_insert|]. intros j Hj Hw. rewrite list_lookup_insert_ne by set_solver.
  apply H; set_solver.
Qed.
Lemma same_but_write wr i node l l' : same_but wr l l' → same_but ({[i]} ∪ wr) (<[i := node]> l) (<[i := node]> l').
Proof.
  intros [E [_ H]]. split; [by rewrite !length_insert|]. split; [by rewrite !length_insert, E|].
  intros j Hj Hw. rewrite length_insert in Hj. rewrite !list_lookup_insert_ne by set_solver. apply H; set_solver.
Qed.
Lemma within_all wr n l k : (length l <= n)%nat → (length l <= length k)%nat → within (list_to_set (seq 0 n) ∪ wr) l k.
Proof.
  intros Hn Hk. split; [done|]. intros i Hi Hw. exfalso. apply Hw, elem_of_union_l, elem_of_list_to_set.
  apply elem_of_seq. lia.
Qed.

(** Cutting back to a copy. *)
Lemma same_but_cut wr l l' : within wr l l' → same_but (below (length l) wr) (take (length l) l') l.
Proof.
  intros [E H]. apply same_but_sym. split; [rewrite length_take; lia|]. split; [rewrite length_take; lia|].
  intros i Hi Hw. rewrite lookup_take_lt by done. apply H; [done|]. intros Hin. apply Hw.
  apply elem_of_filter. done.
Qed.
Lemma within_cut wr l l' k n : (length l <= n)%nat → within wr l l' → k = take n l' → within (below n wr) l k.
Proof.
  intros Hn [E H] ->. split; [rewrite length_take; lia|]. intros i Hi Hw. rewrite lookup_take_lt by lia.
  apply H; [done|]. intros Hin. apply Hw, elem_of_filter. split; [lia|done].
Qed.

Lemma cut_list {A} (l l' : list A) :
  l `prefix_of` l' → (if (blen l <? blen l')%Z then take (Z.to_nat (blen l)) l' else l') = l.
Proof.
  intros [k ->]. rewrite blen_app. unfold blen. rewrite Nat2Z.id. destruct (Z.ltb_spec (Z.of_nat (length l)) (Z.of_nat (length l) + Z.of_nat (length k))) as [|Hk].
  - rewrite take_app_length. done.
  - destruct k; [by rewrite app_nil_r|cbn in Hk; lia].
Qed.

Lemma cut_back s a u :
  (length (snap_ast s) <= length (nodes a))%nat → snap_log s `prefix_of` mutations u →
  uow_rollback_to (length_of s) a u = (mkArena (take (length (snap_ast s)) (nodes a)), mkUow (snap_log s) (next_temp_id u)).
Proof.
  intros Ha Hu. unfold uow_rollback_to, rollback_to, arena_len. cbn [arena_length mutation_count length_of].
  apply cut_list in Hu. destruct a as [ns], u as [ms k]. cbn [nodes mutations next_temp_id] in *. f_equal.
  - unfold blen. rewrite Nat2Z.id. destruct (Z.ltb_spec (Z.of_nat (length (snap_ast s))) (Z.of_nat (length ns))); [done|].
    by rewrite take_ge by lia.
  - destruct (blen (snap_log s) <? blen ms)%Z; by rewrite Hu.
Qed.

Lemma rposition_saved name (sv : list (string * Snap)) :
  match rposition name ((λ p, mkSavepoint p.1 (length_of p.2)) <$> sv) with
  | Some pos => ∃ l1 s l2, last_saved name sv l1 s l2 ∧ length l1 = pos
  | None => name ∉ sv.*1
  end.
Proof.
  induction sv as [|[k s] sv IH]; cbn; [by apply not_elem_of_nil|].
  destruct (rposition name _) as [pos|].
  - destruct IH as (l1 & s' & l2 & [-> Hl] & <-). by exists ((k, s) :: l1), s', l2.
  - case_bool_decide as Hk; cbn in *; [subst; by exists [], s, sv|]. by apply not_elem_of_cons.
Qed.

Lemma find_savepoint_spec name w s :
  shows w s →
  match find_savepoint name (w_tx w) with
  | Ok (pos, sp) => ∃ l1 sn l2, last_saved name (s_saved s) l1 sn l2 ∧ length l1 = pos ∧ sp = mkSavepoint name (length_of sn)
  | Err e => name ∉ (s_saved s).*1 ∧ e = no_savepoint name
  end.
Proof.
  intros H. unfold find_savepoint. rewrite (sh_saved _ _ H). pose proof (rposition_saved name (s_saved s)) as Hp.
  destruct (rposition name _) as [pos|]; [|done]. destruct Hp as (l1 & sn & l2 & [E Hl] & <-).
  rewrite list_lookup_fmap, E, list_lookup_middle by done. by exists l1, sn, l2.
Qed.

Lemma chain_app (l k : list Snap) : StronglySorted snap_prefix (l ++ k) → StronglySorted snap_prefix l ∧
  StronglySorted snap_prefix k ∧ ∀ s s', s ∈ l → s' ∈ k → snap_prefix s s'.
Proof.
  induction l as [|x l IH]; cbn; intros H; [split; [constructor|split; [done|set_solver]]|].
  inversion H as [|? ? Hl Hx]; subst. destruct (IH Hl) as (H1 & H2 & H3). apply Forall_app in Hx as [Hx1 Hx2].
  split; [by constructor|]. split; [done|]. intros s s' [->|Hs]%elem_of_cons Hs'; [|by apply H3].
  rewrite Forall_forall in Hx2. by apply Hx2.
Qed.
Lemma chain_join (l k : list Snap) :
  StronglySorted snap_prefix l → StronglySorted snap_prefix k → (∀ s s', s ∈ l → s' ∈ k → snap_prefix s s') →
  StronglySorted snap_prefix (l ++ k).
Proof.
  intros Hl Hk H. induction Hl as [|x l Hl IH Hx]; [done|]. cbn. constructor; [apply IH; set_solver|].
  apply Forall_app. split; [done|]. apply Forall_forall. intros s' Hs'. apply H; [set_solver|done].
Qed.
(** The present moves on: everything kept is still cut out of it. *)
Lemma chain_grow l s s' :
  StronglySorted snap_prefix (l ++ [s]) → snap_prefix s s' → StronglySorted snap_prefix (l ++ [s']).
Proof.
  intros (Hl & _ & H)%chain_app Hs. apply chain_join; [done|by repeat constructor|].
  intros x y Hx ->%list_elem_of_singleton. etransitivity; [apply (H x s); [done|by apply list_elem_of_singleton]|done].
Qed.

Lemma chain_prefix l s : StronglySorted snap_prefix (l ++ [s]) → ∀ x, x ∈ l → snap_prefix x s.
Proof. intros (_ & _ & H)%chain_app x Hx. apply H; [done|by apply list_elem_of_singleton]. Qed.

Lemma chain_cut l s k : StronglySorted snap_prefix (l ++ s :: k) → StronglySorted snap_prefix ((l ++ [s]) ++ [s]).
Proof.
  intros (Hl & _ & H)%chain_app. apply chain_join; [|by repeat constructor|].
  - apply chain_join; [done|by repeat constructor|]. intros x y Hx ->%list_elem_of_singleton. apply H; set_solver.
  - intros x y Hx ->%list_elem_of_singleton. apply elem_of_app in Hx as [Hx| ->%list_elem_of_singleton]; [apply H; set_solver|done].
Qed.
Lemma chain_drop l s k : StronglySorted snap_prefix (l ++ s :: k) → StronglySorted snap_prefix (l ++ k).
Proof.
  intros (Hl & Hk & H)%chain_app. inversion Hk; subst. apply chain_join; [done|done|]. intros x y Hx Hy. apply H; set_solver.
Qed.

(** A step that adds to the present keeps the chain. *)
Lemma grows_shows w w' s now wr k :
  shows w s → w_tx w' = w_tx w → snap_prefix (s_now s) now →
  mutations (w_uow w') = snap_log now → same_but wr (nodes (w_arena w')) (snap_ast now) → next_temp_id (w_uow w') = k →
  (∀ l, within (s_written s) l (nodes (w_arena w)) → within wr l (nodes (w_arena w'))) →
  shows w' (mkSpec (s_state s) (s_start s) (s_saved s) now k wr).
Proof.
  intros [H1 H2 H3 H4 H5 H6 H7 H8] Ht Hn Hl Ha Hk Hw. split; cbn; try congruence.
  - intros Hs. apply (chain_grow (_ :: _) (s_now s)); [by apply H7|done].
  - intros Hs. eapply Forall_impl; [by apply H8|]. intros x. apply Hw.
Qed.

Lemma record_acts x a u t :
  records x = true →
  ∃ u', act x (mkWorld a u t) = (Ok (if numbers x then Some (next_temp_id u) else None), mkWorld a u' t) ∧
        mutations u' = mutations u ++ logged x (next_temp_id u) ∧
        next_temp_id u' = if numbers x then as_unsigned 64 (next_temp_id u + 1) else next_temp_id u.
Proof. destruct u as [ms k]. by destruct x; try discriminate; eexists. Qed.

Lemma appending_shows x w s : shows w s → refusal x = None → ∃ s', spec_act x s (act x w).1 s' ∧ shows (act x w).2 s'.
Proof.
  intros H Hx. pose proof H as [_ Hl Ha _ _ Hk _ _]. pose proof Ha as [Hlen _].
  destruct w as [[ns] u t], s as [st i sv [sns sms] k wr]. cbn in Hl, Ha, Hk, Hlen.
  destruct (records x) eqn:Hr.
  { destruct (record_acts x (mkArena ns) u t Hr) as (u' & -> & Hl' & Hk'). rewrite Hk in *. eexists. split; [by apply spec_record|].
    cbn [snd]. apply (grows_shows _ _ _ _ wr _ H); try done; cbn; [split; [done|by apply prefix_app_r]|by rewrite Hl', Hl]. }
  destruct x as [node|h node|f| | | | | | | | | |]; try discriminate Hx; try discriminate Hr; cbn [act].
  - eexists. split.
    + cbn. unfold arena_len, blen. cbn. rewrite Hlen. apply spec_alloc.
    + apply (grows_shows _ _ _ _ wr k H); try done; cbn; [split; cbn; [rewrite length_app; lia|done]|by apply same_but_app|].
      intros l. apply within_app.
  - unfold arena_get. cbn [nodes]. destruct (ns !! Z.to_nat h) as [old|] eqn:E; cbn.
    + apply lookup_lt_Some in E as E'. eexists. split; [apply spec_write; cbn; lia|].
      apply (grows_shows _ _ _ _ ({[Z.to_nat h]} ∪ wr) k H); try done; cbn;
        [split; cbn; [by rewrite length_insert|done]|by apply same_but_write|].
      intros l. apply within_write.
    + apply lookup_ge_None in E. eexists. split; [apply spec_no_node; cbn; lia|done].
  - eexists. split; [apply spec_write_all|].
    apply (grows_shows _ _ _ _ (list_to_set (seq 0 (length sns)) ∪ wr) k H); try done; cbn.
    + split; cbn; [by rewrite length_imap|done].
    + split; [by rewrite !length_imap|]. apply within_all; rewrite !length_imap; lia.
    + intros l [Hin _]. apply within_all; rewrite ?length_imap; cbn in Hin; lia.
Qed.

Lemma inactive_shows x msg w s :
  shows w s → refusal x = Some msg → s_state s ≠ Active → act x w = (Err (tx_error msg), w).
Proof.
  intros H Hx Hs. assert (is_active (w_tx w) = false) as Hi by (apply bool_decide_eq_false; by rewrite (sh_state _ _ H)).
  destruct w as [a u t]. cbn in Hi. destruct x; try discriminate Hx; injection Hx as <-; cbn;
    unfold savepoint, rollback_to_savepoint, release_savepoint, tx_commit, tx_rollback; by rewrite Hi.
Qed.

(** Going back to a copy, with the copies kept before it. *)
Lemma back_shows w w' s st saved sn wr :
  shows w s → s_state s = Active → sn ∈ s_start s :: (s_saved s).*2 →
  (st = Active → StronglySorted snap_prefix (s_start s :: saved.*2 ++ [sn]) ∧ saved.*2 ⊆ (s_saved s).*2) →
  tx_state (w_tx w') = st → initial_checkpoint (w_tx w') = initial_checkpoint (w_tx w) →
  savepoints (w_tx w') = (λ p, mkSavepoint p.1 (length_of p.2)) <$> saved →
  nodes (w_arena w') = take (length (snap_ast sn)) (nodes (w_arena w)) → mutations (w_uow w') = snap_log sn →
  next_temp_id (w_uow w') = next_temp_id (w_uow w) → wr = below (length (snap_ast sn)) (s_written s) →
  shows w' (mkSpec st (s_start s) saved sn (s_next s) wr).
Proof.
  intros [_ _ _ H4 _ H6 _ H8] Hs Hin Hch Hst Hi Hsv Hn Hm Hk ->. specialize (H8 Hs).
  assert (within (s_written s) (snap_ast sn) (nodes (w_arena w))) as Hw by (by eapply Forall_forall in H8).
  split; cbn; try congruence.
  - rewrite Hn. by apply same_but_cut.
  - intros Ha. by apply Hch.
  - intros Ha. destruct (Hch Ha) as [Hch1 Hsub]. rewrite Forall_forall. intros x Hx. rewrite Hn.
    assert (x ∈ s_start s :: (s_saved s).*2) as Hx' by set_solver.
    assert (within (s_written s) (snap_ast x) (nodes (w_arena w))) as Hwx by (by eapply Forall_forall in H8).
    eapply within_cut; [|exact Hwx|reflexivity].
    destruct (chain_prefix (_ :: _) _ Hch1 x Hx) as [Hle _]. exact Hle.
Qed.

Lemma act_shows x w s :
  shows w s → ∃ s', spec_act x s (act x w).1 s' ∧ shows (act x w).2 s'.
Proof.
  intros H. destruct (refusal x) as [msg|] eqn:Hx; [|by apply appending_shows].
  destruct (decide (s_state s = Active)) as [Ha|Ha].
  2:{ rewrite (inactive_shows x msg w s H Hx Ha). exists s. split; [|done]. destruct s. by constructor. }
  assert (is_active (w_tx w) = true) as Hi by (apply bool_decide_eq_true; by rewrite (sh_state _ _ H)).
  pose proof H as [H1 H2 H3 H4 H5 H6 H7 H8]. specialize (H7 Ha). specialize (H8 Ha).
  pose proof (chain_prefix (_ :: _) _ H7) as Hp.
  assert (∀ sn, sn ∈ s_start s :: (s_saved s).*2 →
    uow_rollback_to (length_of sn) (w_arena w) (w_uow w)
    = (mkArena (take (length (snap_ast sn)) (nodes (w_arena w))), mkUow (snap_log sn) (next_temp_id (w_uow w)))) as Hcut.
  { intros sn Hsn. destruct (Hp sn Hsn) as [Hle Hpre]. apply cut_back; [destruct H3 as [E _]; lia|by rewrite H2]. }
  destruct w as [a u t], s as [st i sv n k wr]. cbn in *. subst st.
  destruct x as [| | | | | | | |name|name|name| |]; try discriminate Hx; cbn [act].
  - unfold savepoint. rewrite Hi. cbn. eexists. split; [apply spec_savepoint|]. split; cbn; try done.
    + rewrite H5, fmap_app. cbn. do 3 f_equal. unfold uow_checkpoint, length_of, blen. by rewrite H2, (proj1 H3).
    + intros _. rewrite fmap_app. apply (chain_join (i :: sv.*2 ++ [_]) [_]); [done|by repeat constructor|].
      intros y z Hy ->%list_elem_of_singleton. change (i :: sv.*2 ++ [?x]) with ((i :: sv.*2) ++ [x]) in Hy.
      apply elem_of_app in Hy as [Hy|Hy%list_elem_of_singleton]; [by apply Hp|by subst].
    + intros _. rewrite fmap_app. change (i :: sv.*2 ++ ?l) with ((i :: sv.*2) ++ l). apply Forall_app.
      split; [done|]. constructor; [by apply within_same|constructor].
  - unfold rollback_to_savepoint. rewrite Hi. pose proof (find_savepoint_spec name _ _ H) as Hf. cbn in Hf.
    destruct (find_savepoint name t) as [[pos sp]|e]; cbn [mbind result_bind].
    + destruct Hf as (l1 & sn & l2 & [-> Hl] & <- & ->). cbn [sp_checkpoint].
      assert (sn ∈ i :: (l1 ++ (name, sn) :: l2).*2) as Hin by set_solver. rewrite (Hcut sn Hin). cbn [fmap result_fmap replied fst snd].
      eexists. split; [by apply (spec_rollback_to name i l1 sn l2)|].
      apply (back_shows _ _ _ _ _ _ _ H); try done.
      * intros _. cbn. rewrite !fmap_app in H7 |- *. cbn in H7 |- *. split; [|set_solver].
        rewrite <- app_assoc in H7. by apply (chain_cut (i :: l1.*2)) in H7.
      * cbn. rewrite H5, !fmap_app, take_app_ge; rewrite length_fmap; [|lia]. by replace (S (length l1) - length l1)%nat with 1%nat by lia.
    + destruct Hf as [Hf ->]. eexists. split; [apply (spec_unknown _ name); auto|done].
  - unfold release_savepoint. rewrite Hi. pose proof (find_savepoint_spec name _ _ H) as Hf. cbn in Hf.
    destruct (find_savepoint name t) as [[pos sp]|e]; cbn.
    + destruct Hf as (l1 & sn & l2 & [-> Hl] & <- & ->). cbn.
      eexists. split; [by apply (spec_release name _ l1 sn l2)|]. split; cbn; try done.
      * rewrite H5, !fmap_app, <- (length_fmap (λ p, mkSavepoint p.1 (length_of p.2)) l1). apply delete_middle.
      * intros _. rewrite fmap_app in H7 |- *. cbn in H7. rewrite <- app_assoc in H7 |- *. by apply (chain_drop (i :: l1.*2)) in H7.
      * intros _. rewrite Forall_forall in H8 |- *. intros y Hy. apply H8. set_solver.
    + destruct Hf as [Hf ->]. eexists. split; [apply (spec_unknown _ name); auto|done].
  - unfold tx_commit. rewrite Hi. cbn. eexists. split; [apply spec_commit|]. by split.
  - unfold tx_rollback. rewrite Hi, H4, (Hcut i) by by left. cbn [fmap result_fmap replied fst snd].
    eexists. split; [apply spec_rollback|]. apply (back_shows _ _ _ _ _ _ _ H); try done. by left.
Qed.

Inductive spec_acts : list Action → Spec → list reply → Spec → Prop :=
| spec_done s : spec_acts [] s [] s
| spec_more x xs s r s1 rs s2 : spec_act x s r s1 → spec_acts xs s1 rs s2 → spec_acts (x :: xs) s (r :: rs) s2.

Lemma acts_shows xs : ∀ w s, shows w s →
  ∃ s', spec_acts xs s (acts xs w).1 s' ∧ shows (acts xs w).2 s'.
Proof.
  induction xs as [|x xs IH]; intros w s H; [exists s; split; [constructor|done]|].
  destruct (act_shows x w s H) as (s1 & Hs1 & H1). cbn [acts]. destruct (act x w) as [r w1]. cbn [fst snd] in *.
  destruct (IH w1 s1 H1) as (s2 & Hs2 & Hn). destruct (acts xs w1) as [rs w2]. cbn [fst snd] in *.
  exists s2. split; [by econstructor|done].
Qed.

(** Without writes nothing counts as written. *)
Definition writes (x : Action) : bool := match x with AWrite _ _ | AWriteAll _ => true | _ => false end.
Lemma unwritten xs s rs s' :
  spec_acts xs s rs s' → Forall (λ x, writes x = false) xs → s_written s = ∅ → s_written s' = ∅.
Proof.
  induction 1 as [|x xs s r s1 rs s2 Hx _ IH]; [done|]. intros [Hw Hws]%Forall_cons Hs. apply IH; [done|].
  destruct Hx; cbn in *; try done; unfold below; set_solver.
Qed.

Definition begun (id : Z) (a : QueryAstArena) (u : UnitOfWork) : World := mkWorld a u (Transaction_new id u a).

(** C25: A transaction restores what it says it does.  Over any sequence of calls (nodes
    allocated, written in place one by one or all at once, changes recorded, savepoints set,
    released and returned to, names reused, commit, rollback) the record, the state and every
    answer, the handles and the temporary identifiers among them, are those of a transaction
    that keeps whole copies of what there was at its start and at its savepoints and puts them
    back; and so is the arena, but for the nodes that were written in place, which no rollback
    restores: without such writes it is exactly the copy. *)
Theorem transaction_restores id a u xs :
  ∃ s, spec_acts xs (mkSpec Active (now_of (begun id a u)) [] (now_of (begun id a u)) (next_temp_id u) ∅)
         (acts xs (begun id a u)).1 s ∧
       mutations (w_uow (acts xs (begun id a u)).2) = snap_log (s_now s) ∧
       tx_state (w_tx (acts xs (begun id a u)).2) = s_state s ∧
       same_but (s_written s) (nodes (w_arena (acts xs (begun id a u)).2)) (snap_ast (s_now s)) ∧
       (Forall (λ x, writes x = false) xs → nodes (w_arena (acts xs (begun id a u)).2) = snap_ast (s_now s)).
Proof.
  assert (shows (begun id a u) (mkSpec Active (now_of (begun id a u)) [] (now_of (begun id a u)) (next_temp_id u) ∅)) as H.
  { split; try done.
    - intros _. apply (chain_join [_] [_]); [by repeat constructor..|].
      by intros x y ->%list_elem_of_singleton ->%list_elem_of_singleton.
    - intros _. repeat constructor. }
  destruct (acts_shows xs _ _ H) as (s & Hs & [H1 H2 H3 _ _ _ _ _]). exists s. split_and!; try done.
  intros Hw%(unwritten _ _ _ _ Hs); [|done]. destruct H3 as [E [_ H3]]. rewrite Hw in H3.
  apply list_eq. intros i. destruct (decide (i < length (nodes (w_arena (acts xs (begun id a u)).2)))%nat) as [Hi|Hi].
  - by apply H3; [|set_solver].
  - rewrite !lookup_ge_None_2 by lia. done.
Qed.

(** A write is what a rollback leaves behind. *)
Example changed_node_stays :
  let a := mkArena [Identifier "x"] in
  (λ w, (nodes (w_arena w), tx_state (w_tx w))) (acts [AWrite 0 (Identifier "y"); ARollback] (begun 1 a UnitOfWork_new)).2
  = ([Identifier "y"], RolledBack).
Proof. reflexivity. Qed.
