(* ===== verification/Schema.v ===== *)
(** * Schemas and their registry ([voyager-core/src/schema.rs])

    Field types, the descriptions of fields, nodes and relationships, and the registry that
    holds them by name.  A lock that a panicking thread has poisoned is a flag of the
    registry's state. *)
From S2P Require Import Prelude Bytes F64 Errors Ast Text BTree Levenshtein.

Open Scope Z_scope.
Open Scope string_scope.
Open Scope list_scope.

(** ** Types of fields *)
Inductive FieldType :=
| FT_String | FT_Int64 | FT_Float64 | FT_Boolean | FT_DateTime | FT_Date | FT_Duration
| FT_List (item : FieldType) | FT_Map | FT_Any | FT_Custom (s : string).

Definition FieldType_as_str (t : FieldType) : string :=
  match t with
  | FT_String => "STRING" | FT_Int64 => "INTEGER" | FT_Float64 => "FLOAT" | FT_Boolean => "BOOLEAN"
  | FT_DateTime => "DATETIME" | FT_Date => "DATE" | FT_Duration => "DURATION" | FT_List _ => "LIST"
  | FT_Map => "MAP" | FT_Any => "ANY" | FT_Custom s => s
  end.

(** A [match] on a text: the first row that lists it. *)
Fixpoint match_str {A} (s : string) (rows : list (list string * A)) : option A :=
  match rows with
  | [] => None
  | (pats, v) :: rows => if bool_decide (s ∈ pats) then Some v else match_str s rows
  end.

Definition FieldType_parse_str `{CharClass} (s : string) : FieldType :=
  let other := to_ascii_uppercase (trim s) in
  default (FT_Custom other) (match_str other
    [(["STR"; "STRING"; "TEXT"; "VARCHAR"], FT_String); (["INT"; "INT64"; "INTEGER"; "BIGINT"], FT_Int64);
     (["FLOAT"; "FLOAT64"; "DOUBLE"; "REAL"], FT_Float64); (["BOOL"; "BOOLEAN"], FT_Boolean);
     (["DATETIME"; "TIMESTAMP"], FT_DateTime); (["DATE"], FT_Date); (["DURATION"; "INTERVAL"], FT_Duration);
     (["LIST"; "ARRAY"], FT_List FT_Any); (["MAP"; "DICT"; "OBJECT"], FT_Map); (["ANY"], FT_Any)]).

Definition matches_literal (t : FieldType) (lit : LiteralValue) : bool :=
  match t, lit with
  | _, LNull | _, LParameterRef _ | FT_Any, _ | FT_String, LString _ | FT_Int64, LInt64 _
  | FT_Float64, (LFloat64 _ | LInt64 _) | FT_Boolean, LBool _ | (FT_DateTime | FT_Date | FT_Duration), LString _
  | FT_List _, LList _ | FT_Map, LMap _ | FT_Custom _, _ => true
  | _, _ => false
  end.

(** ** Constraints, indexes, dialects *)
Inductive ConstraintType := CT_Unique | CT_NotNull | CT_NodeKey.
Definition ConstraintType_as_str (c : ConstraintType) : string :=
  match c with CT_Unique => "UNIQUE" | CT_NotNull => "NOT_NULL" | CT_NodeKey => "NODE_KEY" end.
Definition ConstraintType_parse_str `{CharClass} (s : string) : option ConstraintType :=
  match_str (to_ascii_uppercase (trim s))
    [(["UNIQUE"], CT_Unique); (["NOT_NULL"; "NOT NULL"; "MANDATORY"], CT_NotNull);
     (["NODE_KEY"; "NODE KEY"; "KEY"; "PRIMARY_KEY"; "PRIMARY KEY"], CT_NodeKey)].

Inductive IndexType := IT_BTree | IT_Text | IT_Point | IT_Vector.
#[export] Instance IndexType_eq_dec : EqDecision IndexType.
Proof. solve_decision. Defined.
Definition IndexType_as_str (i : IndexType) : string :=
  match i with IT_BTree => "BTREE" | IT_Text => "TEXT" | IT_Point => "POINT" | IT_Vector => "VECTOR" end.
Definition IndexType_parse_str `{CharClass} (s : string) : option IndexType :=
  match_str (to_ascii_uppercase (trim s))
    [(["BTREE"; "RANGE"; "DEFAULT"], IT_BTree); (["TEXT"; "FULLTEXT"], IT_Text); (["POINT"; "SPATIAL"], IT_Point);
     (["VECTOR"], IT_Vector)].

Inductive DdlDialect := DD_Cypher | DD_Sql | DD_FalkorDb | DD_Age | DD_Memgraph | DD_DuckDb.
Definition DdlDialect_parse_str `{CharClass} (s : string) : option DdlDialect :=
  match_str (to_ascii_lowercase (trim s))
    [(["cypher"; "opencypher"; "neo4j"], DD_Cypher); (["sql"; "postgres"; "postgresql"; "sql_pgq"; "pgq"], DD_Sql);
     (["falkordb"; "falkor"], DD_FalkorDb); (["age"; "apache_age"], DD_Age); (["memgraph"], DD_Memgraph);
     (["duckdb"; "duckpgq"], DD_DuckDb)].

Definition DEFAULT_VECTOR_DIMENSIONS : Z := 1536.
Definition DEFAULT_MEMGRAPH_VECTOR_CAPACITY : Z := 10000.

Definition canonical_vector_index_name (label prop : string) (dialect : DdlDialect) : string :=
  let lbl := to_ascii_lowercase label in
  let prp := to_ascii_lowercase prop in
  match dialect with
  | DD_Cypher | DD_Memgraph | DD_FalkorDb => "index_" +:+ lbl +:+ "_" +:+ prp
  | DD_DuckDb | DD_Sql | DD_Age => "idx_" +:+ lbl +:+ "_" +:+ prp +:+ "_vector"
  end.
Definition canonical_fulltext_index_name (label_or_type : string) (properties : list string) (dialect : DdlDialect) : string :=
  let lbl := to_ascii_lowercase label_or_type in
  let props := join "_" (to_ascii_lowercase <$> properties) in
  let suffix := if bool_decide (props = "") then "fulltext" else props in
  match dialect with
  | DD_Cypher | DD_Memgraph | DD_FalkorDb => "index_" +:+ lbl +:+ "_" +:+ suffix
  | DD_DuckDb | DD_Sql | DD_Age => "idx_" +:+ lbl +:+ "_" +:+ suffix +:+ "_fts"
  end.

Record FullTextIndexConfig := mkFullText {
  ft_name : string; ft_properties : list string; ft_analyzer : option string }.
Definition FullTextIndexConfig_new (name : string) (properties : list string) : FullTextIndexConfig :=
  mkFullText name properties None.
Definition with_analyzer (analyzer : string) (c : FullTextIndexConfig) : FullTextIndexConfig :=
  mkFullText (ft_name c) (ft_properties c) (Some analyzer).

Inductive VectorSimilarity := Cosine | Euclidean | Dot.
Definition VectorSimilarity_default : VectorSimilarity := Cosine.
Definition VectorSimilarity_parse_str `{CharClass} (s : string) : option VectorSimilarity :=
  match_str (to_ascii_lowercase (trim s))
    [(["cosine"], Cosine); (["euclidean"; "l2"], Euclidean); (["dot"; "inner_product"; "ip"], Dot)].
Definition VectorSimilarity_as_str (v : VectorSimilarity) : string :=
  match v with Cosine => "cosine" | Euclidean => "euclidean" | Dot => "dot" end.
Definition metric_for (v : VectorSimilarity) (dialect : DdlDialect) : string :=
  match dialect, v with
  | DD_Cypher, (Cosine | Dot) => "cosine" | DD_Cypher, Euclidean => "euclidean"
  | DD_FalkorDb, Cosine => "cosine" | DD_FalkorDb, Euclidean => "euclidean" | DD_FalkorDb, Dot => "ip"
  | DD_Memgraph, Cosine => "cos" | DD_Memgraph, Euclidean => "l2" | DD_Memgraph, Dot => "ip"
  | DD_DuckDb, Cosine => "cosine" | DD_DuckDb, Euclidean => "l2sq" | DD_DuckDb, Dot => "ip"
  | (DD_Sql | DD_Age), Cosine => "vector_cosine_ops" | (DD_Sql | DD_Age), Euclidean => "vector_l2_ops"
  | (DD_Sql | DD_Age), Dot => "vector_ip_ops"
  end.

Record VectorIndexConfig := mkVectorConfig { vc_dimensions : Z; vc_similarity : VectorSimilarity; vc_index_name : option string }.
Definition VectorIndexConfig_new (dimensions : Z) (similarity : VectorSimilarity) : VectorIndexConfig :=
  mkVectorConfig dimensions similarity None.
Definition with_index_name (name : string) (c : VectorIndexConfig) : VectorIndexConfig :=
  mkVectorConfig (vc_dimensions c) (vc_similarity c) (Some name).

(** ** Fields *)
Record FieldDescriptor := mkField {
  fd_name : string;
  fd_field_type : FieldType;
  fd_nullable : bool;
  fd_primary_key : bool;
  fd_unique : bool;
  fd_indexed : bool;
  fd_index_type : option IndexType;
  fd_default_value : option LiteralValue;
  fd_vector_config : option VectorIndexConfig;
}.
Definition FieldDescriptor_new (name : string) (field_type : FieldType) : FieldDescriptor :=
  mkField name field_type true false false false None None None.
Definition primary_key (f : FieldDescriptor) : FieldDescriptor :=
  mkField (fd_name f) (fd_field_type f) false true true (fd_indexed f) (fd_index_type f) (fd_default_value f) (fd_vector_config f).
Definition unique (f : FieldDescriptor) : FieldDescriptor :=
  mkField (fd_name f) (fd_field_type f) (fd_nullable f) (fd_primary_key f) true (fd_indexed f) (fd_index_type f)
    (fd_default_value f) (fd_vector_config f).
Definition nullable (b : bool) (f : FieldDescriptor) : FieldDescriptor :=
  mkField (fd_name f) (fd_field_type f) b (fd_primary_key f) (fd_unique f) (fd_indexed f) (fd_index_type f)
    (fd_default_value f) (fd_vector_config f).
Definition with_index_type (t : IndexType) (f : FieldDescriptor) : FieldDescriptor :=
  mkField (fd_name f) (fd_field_type f) (fd_nullable f) (fd_primary_key f) (fd_unique f) true (Some t)
    (fd_default_value f) (fd_vector_config f).
Definition indexed (f : FieldDescriptor) : FieldDescriptor := with_index_type IT_BTree f.
Definition with_default (v : LiteralValue) (f : FieldDescriptor) : FieldDescriptor :=
  mkField (fd_name f) (fd_field_type f) (fd_nullable f) (fd_primary_key f) (fd_unique f) (fd_indexed f) (fd_index_type f)
    (Some v) (fd_vector_config f).
Definition with_vector_index (dimensions : Z) (similarity : VectorSimilarity) (index_name : option string)
    (f : FieldDescriptor) : FieldDescriptor :=
  mkField (fd_name f) (fd_field_type f) (fd_nullable f) (fd_primary_key f) (fd_unique f) true (Some IT_Vector)
    (fd_default_value f) (Some (mkVectorConfig dimensions similarity index_name)).
Definition is_vector_index (f : FieldDescriptor) : bool := fd_indexed f && bool_decide (fd_index_type f = Some IT_Vector).

(** ** Nodes and relationships *)
Record NodeSchema := mkNodeSchema {
  ns_name : string;
  ns_labels : list string;
  ns_fields : btree FieldDescriptor;
  ns_primary_key : option string;
  ns_fulltext_indexes : list FullTextIndexConfig;
}.
Definition NodeSchema_new (name : string) (labels : list string) : NodeSchema := mkNodeSchema name labels [] None [].
Definition ns_with_field (field : FieldDescriptor) (n : NodeSchema) : NodeSchema :=
  mkNodeSchema (ns_name n) (ns_labels n) (bt_insert (fd_name field) field (ns_fields n))
    (if fd_primary_key field then Some (fd_name field) else ns_primary_key n) (ns_fulltext_indexes n).
Definition ns_with_fulltext_index (config : FullTextIndexConfig) (n : NodeSchema) : NodeSchema :=
  mkNodeSchema (ns_name n) (ns_labels n) (ns_fields n) (ns_primary_key n) (ns_fulltext_indexes n ++ [config]).
Definition primary_label (n : NodeSchema) : string := default (ns_name n) (head (ns_labels n)).
Definition primary_key_field (n : NodeSchema) : option FieldDescriptor := pk ← ns_primary_key n; bt_get pk (ns_fields n).
Definition unique_fields (n : NodeSchema) : list FieldDescriptor :=
  filter (λ f, fd_unique f || fd_primary_key f) (ns_fields n).*2.
Definition indexed_fields (n : NodeSchema) : list FieldDescriptor :=
  filter (λ f, fd_indexed f && negb (fd_primary_key f) && negb (fd_unique f)) (ns_fields n).*2.

Record RelationshipSchema := mkRelSchema {
  rs_name : string;
  rs_type_name : string;
  rs_source_labels : list string;
  rs_target_labels : list string;
  rs_fields : btree FieldDescriptor;
  rs_directed : bool;
  rs_fulltext_indexes : list FullTextIndexConfig;
}.
Definition RelationshipSchema_new (name type_name : string) : RelationshipSchema := mkRelSchema name type_name [] [] [] true [].
Definition with_endpoints (source_labels target_labels : list string) (r : RelationshipSchema) : RelationshipSchema :=
  mkRelSchema (rs_name r) (rs_type_name r) source_labels target_labels (rs_fields r) (rs_directed r) (rs_fulltext_indexes r).
Definition rs_with_field (field : FieldDescriptor) (r : RelationshipSchema) : RelationshipSchema :=
  mkRelSchema (rs_name r) (rs_type_name r) (rs_source_labels r) (rs_target_labels r)
    (bt_insert (fd_name field) field (rs_fields r)) (rs_directed r) (rs_fulltext_indexes r).
Definition rs_with_fulltext_index (config : FullTextIndexConfig) (r : RelationshipSchema) : RelationshipSchema :=
  mkRelSchema (rs_name r) (rs_type_name r) (rs_source_labels r) (rs_target_labels r) (rs_fields r) (rs_directed r)
    (rs_fulltext_indexes r ++ [config]).
Definition directed (b : bool) (r : RelationshipSchema) : RelationshipSchema :=
  mkRelSchema (rs_name r) (rs_type_name r) (rs_source_labels r) (rs_target_labels r) (rs_fields r) b (rs_fulltext_indexes r).
Definition required_fields (r : RelationshipSchema) : list FieldDescriptor :=
  filter (λ f, negb (fd_nullable f) || fd_unique f || fd_primary_key f) (rs_fields r).*2.

(** One end of a relationship: nothing is declared, nothing is known, or one label is allowed. *)
Definition end_allowed (declared labels : list string) : bool :=
  bool_decide (declared = []) || bool_decide (labels = [])
  || existsb (λ l, existsb (λ sl, eq_ignore_ascii_case sl l) declared) labels.
Definition allows_endpoints (r : RelationshipSchema) (src_labels tgt_labels : list string) : bool :=
  end_allowed (rs_source_labels r) src_labels && end_allowed (rs_target_labels r) tgt_labels.

(** ** The registry *)
Record SchemaRegistry := mkRegistry {
  sr_nodes : btree NodeSchema;
  sr_nodes_poisoned : bool;
  sr_relationships : btree RelationshipSchema;
  sr_relationships_poisoned : bool;
}.
Definition SchemaRegistry_new : SchemaRegistry := mkRegistry [] false [] false.

(** [PoisonError]'s text. *)
Definition poison_text : string := "poisoned lock: another task failed inside".
Definition node_lock_error : CoreErr := SchemaError ("SchemaRegistry node lock poisoned: " +:+ poison_text).
Definition rel_lock_error : CoreErr := SchemaError ("SchemaRegistry relationship lock poisoned: " +:+ poison_text).

Definition set_nodes (nodes : btree NodeSchema) (s : SchemaRegistry) : SchemaRegistry :=
  mkRegistry nodes (sr_nodes_poisoned s) (sr_relationships s) (sr_relationships_poisoned s).
Definition set_relationships (rels : btree RelationshipSchema) (s : SchemaRegistry) : SchemaRegistry :=
  mkRegistry (sr_nodes s) (sr_nodes_poisoned s) rels (sr_relationships_poisoned s).

(** [.read().ok()]: the maps behind the locks. *)
Definition read_nodes (s : SchemaRegistry) : option (btree NodeSchema) :=
  if sr_nodes_poisoned s then None else Some (sr_nodes s).
Definition read_relationships (s : SchemaRegistry) : option (btree RelationshipSchema) :=
  if sr_relationships_poisoned s then None else Some (sr_relationships s).

Definition register_node (schema : NodeSchema) (s : SchemaRegistry) : result CoreErr () * SchemaRegistry :=
  match read_nodes s with
  | Some nodes => (Ok (), set_nodes (bt_insert (ns_name schema) schema nodes) s)
  | None => (Err node_lock_error, s)
  end.
Definition register_relationship (schema : RelationshipSchema) (s : SchemaRegistry) : result CoreErr () * SchemaRegistry :=
  match read_relationships s with
  | Some rels => (Ok (), set_relationships (bt_insert (rs_name schema) schema rels) s)
  | None => (Err rel_lock_error, s)
  end.

Definition get_node (name : string) (s : SchemaRegistry) : option NodeSchema := nodes ← read_nodes s; bt_get name nodes.
Definition node_has_label (label : string) (n : NodeSchema) : bool := existsb (λ l, eq_ignore_ascii_case l label) (ns_labels n).
Definition get_node_by_label (label : string) (s : SchemaRegistry) : option NodeSchema :=
  nodes ← read_nodes s; List.find (node_has_label label) nodes.*2.
Definition get_relationship (name : string) (s : SchemaRegistry) : option RelationshipSchema :=
  rels ← read_relationships s; bt_get name rels.
Definition rel_has_type (type_name : string) (r : RelationshipSchema) : bool := eq_ignore_ascii_case (rs_type_name r) type_name.
Definition get_relationship_by_type (type_name : string) (s : SchemaRegistry) : option RelationshipSchema :=
  rels ← read_relationships s;
  match bt_get type_name rels with
  | Some rel => if rel_has_type type_name rel then Some rel else List.find (rel_has_type type_name) rels.*2
  | None => List.find (rel_has_type type_name) rels.*2
  end.
Definition has_node (name : string) (s : SchemaRegistry) : bool := default false (bt_contains name <$> read_nodes s).
Definition has_relationship (name : string) (s : SchemaRegistry) : bool :=
  default false (bt_contains name <$> read_relationships s).
Definition node_schemas (s : SchemaRegistry) : list NodeSchema := (default [] (read_nodes s)).*2.
Definition relationship_schemas (s : SchemaRegistry) : list RelationshipSchema := (default [] (read_relationships s)).*2.

Definition clear (s : SchemaRegistry) : SchemaRegistry :=
  let s := if read_nodes s then set_nodes [] s else s in
  if read_relationships s then set_relationships [] s else s.
Definition remove_node (name : string) (s : SchemaRegistry) : option NodeSchema * SchemaRegistry :=
  match read_nodes s with
  | Some nodes => (bt_get name nodes, set_nodes (bt_remove name nodes) s)
  | None => (None, s)
  end.
Definition remove_relationship (name : string) (s : SchemaRegistry) : option RelationshipSchema * SchemaRegistry :=
  match read_relationships s with
  | Some rels => (bt_get name rels, set_relationships (bt_remove name rels) s)
  | None => (None, s)
  end.
Definition registry_len (s : SchemaRegistry) : Z :=
  Z.of_nat (default 0%nat (length <$> read_nodes s) + default 0%nat (length <$> read_relationships s)).
Definition registry_is_empty (s : SchemaRegistry) : bool := (registry_len s =? 0)%Z.

Record SchemaSnapshot := mkSnapshot { snap_nodes : btree NodeSchema; snap_relationships : btree RelationshipSchema }.
Definition snapshot (s : SchemaRegistry) : SchemaSnapshot :=
  mkSnapshot (default [] (read_nodes s)) (default [] (read_relationships s)).
Definition restore (snap : SchemaSnapshot) (s : SchemaRegistry) : result CoreErr () * SchemaRegistry :=
  match read_nodes s, read_relationships s with
  | None, _ => (Err node_lock_error, s)
  | _, None => (Err rel_lock_error, s)
  | Some _, Some _ => (Ok (), set_relationships (snap_relationships snap) (set_nodes (snap_nodes snap) s))
  end.

Definition model_node (names : list string) (n : NodeSchema) : bool :=
  bool_decide (ns_name n ∈ names) || existsb (λ m, node_has_label m n) names.
Definition model_relationship (names : list string) (r : RelationshipSchema) : bool :=
  bool_decide (rs_name r ∈ names) || existsb (λ m, rel_has_type m r) names.
Definition filter_models (all_nodes : list NodeSchema) (all_rels : list RelationshipSchema)
    (model_names : option (list string)) : list NodeSchema * list RelationshipSchema :=
  match model_names with
  | Some names => (filter (model_node names) all_nodes, filter (model_relationship names) all_rels)
  | None => (all_nodes, all_rels)
  end.
