(* ===== verification/SchemaSafe.v ===== *)
(** * The registry as two finite maps

    Over any sequence of calls the registry answers as a pair of finite maps from model names
    would, and lists schemas in the order of these names. *)
From S2P Require Import Prelude Bytes F64 Errors Ast Text BTree Levenshtein Schema.

Open Scope Z_scope.
Open Scope string_scope.
Open Scope list_scope.

(** ** Sorted lists as finite maps *)
Definition bt_map {V} (m : btree V) : gmap string V := list_to_map m.

Section maps.
Context {V : Type}.
Implicit Types m : btree V.

Lemma bt_map_lookup m k : bt_map m !! k = bt_get k m.
Proof.
  induction m as [|[k' v] m IH]; [done|]. unfold bt_map in *. cbn.
  destruct (decide (k = k')) as [->|Hne]; [by rewrite lookup_insert_eq|by rewrite lookup_insert_ne].
Qed.

Lemma bt_map_insert k v m : bt_sorted m → bt_map (bt_insert k v m) = <[k := v]> (bt_map m).
Proof.
  intros Hs. apply map_eq. intros x. rewrite bt_map_lookup, bt_get_insert by done.
  destruct (decide (x = k)) as [->|Hne]; [by rewrite lookup_insert_eq|by rewrite lookup_insert_ne, bt_map_lookup].
Qed.

Lemma bt_get_remove k m x : bt_get x (bt_remove k m) = if decide (x = k) then None else bt_get x m.
Proof.
  unfold bt_remove. induction m as [|[k' v] m IH]; [by case_decide|]. destruct (decide (k' = k)) as [->|Hne].
  - rewrite filter_cons_False by (cbn; tauto). rewrite IH. cbn [bt_get]. destruct (decide (x = k)); [done|]. done.
  - rewrite filter_cons_True by done. cbn [bt_get]. destruct (decide (x = k')) as [->|]; [by rewrite decide_False|done].
Qed.

Lemma bt_map_remove k m : bt_map (bt_remove k m) = delete k (bt_map m).
Proof.
  apply map_eq. intros x. rewrite bt_map_lookup, bt_get_remove.
  destruct (decide (x = k)) as [->|Hne]; [by rewrite lookup_delete_eq|by rewrite lookup_delete_ne, bt_map_lookup].
Qed.

Lemma bt_remove_sorted k m : bt_sorted m → bt_sorted (bt_remove k m).
Proof.
  unfold bt_sorted, bt_remove. induction m as [|[k' v] m IH]; [done|]. cbn [fmap list_fmap fst]. intros Hs.
  inversion Hs as [|? ? Hm Hk]; subst. destruct (decide (k' = k)) as [->|Hne].
  - rewrite filter_cons_False by (cbn; tauto). by apply IH.
  - rewrite filter_cons_True by done. cbn. constructor; [by apply IH|]. apply Forall_forall. intros x (kv & -> & Hin)%list_elem_of_fmap.
    apply list_elem_of_filter in Hin as [_ Hin]. rewrite Forall_forall in Hk. by apply Hk, list_elem_of_fmap_2.
Qed.

Lemma bt_sorted_nodup m : bt_sorted m → NoDup m.*1.
Proof.
  unfold bt_sorted. induction (m.*1) as [|k ks IH]; intros Hs; [constructor|].
  inversion Hs as [|? ? Hm Hk]; subst. constructor; [|by apply IH]. intros Hin.
  rewrite Forall_forall in Hk. by apply (str_lt_irrefl k), Hk.
Qed.

Lemma bt_map_size m : bt_sorted m → size (bt_map m) = length m.
Proof. intros Hs. unfold bt_map. rewrite map_size_list_to_map by by apply bt_sorted_nodup. done. Qed.

Lemma bt_map_contains k m : bt_contains k m = bool_decide (is_Some (bt_map m !! k)).
Proof. unfold bt_contains. by rewrite bt_map_lookup. Qed.

(** The values of a map in the order of its keys. *)
Definition in_key_order (g : gmap string V) (l : list V) : Prop := ∃ m, bt_sorted m ∧ bt_map m = g ∧ l = m.*2.

Lemma in_key_order_elem g l v : in_key_order g l → v ∈ l ↔ ∃ k, g !! k = Some v.
Proof.
  intros (m & Hs & <- & ->). setoid_rewrite bt_map_lookup. split.
  - intros ([k v'] & -> & Hin)%list_elem_of_fmap. exists k. by apply bt_get_elem.
  - intros [k Hk]. apply list_elem_of_fmap. exists (k, v). split; [done|]. by apply bt_get_elem.
Qed.
End maps.

(** ** Calls *)
Inductive Call :=
| CRegisterNode (n : NodeSchema) | CRegisterRel (r : RelationshipSchema)
| CGetNode (name : string) | CGetRel (name : string)
| CNodeByLabel (label : string) | CRelByType (type_name : string)
| CHasNode (name : string) | CHasRel (name : string)
| CNodes | CRels | CLen | CClear
| CRemoveNode (name : string) | CRemoveRel (name : string)
| CSnapshot | CRestore (i : nat).

Inductive Reply :=
| RUnit (r : result CoreErr ()) | RNode (n : option NodeSchema) | RRel (r : option RelationshipSchema)
| RBool (b : bool) | RNodes (l : list NodeSchema) | RRels (l : list RelationshipSchema) | RLen (n : Z).

(** A caller that keeps the snapshots it took. *)
Definition call (c : Call) (st : SchemaRegistry * list SchemaSnapshot) : Reply * (SchemaRegistry * list SchemaSnapshot) :=
  let '(s, snaps) := st in
  match c with
  | CRegisterNode n => let '(r, s) := register_node n s in (RUnit r, (s, snaps))
  | CRegisterRel n => let '(r, s) := register_relationship n s in (RUnit r, (s, snaps))
  | CGetNode name => (RNode (get_node name s), st)
  | CGetRel name => (RRel (get_relationship name s), st)
  | CNodeByLabel l => (RNode (get_node_by_label l s), st)
  | CRelByType t => (RRel (get_relationship_by_type t s), st)
  | CHasNode name => (RBool (has_node name s), st)
  | CHasRel name => (RBool (has_relationship name s), st)
  | CNodes => (RNodes (node_schemas s), st)
  | CRels => (RRels (relationship_schemas s), st)
  | CLen => (RLen (registry_len s), st)
  | CClear => (RUnit (Ok ()), (clear s, snaps))
  | CRemoveNode name => let '(r, s) := remove_node name s in (RNode r, (s, snaps))
  | CRemoveRel name => let '(r, s) := remove_relationship name s in (RRel r, (s, snaps))
  | CSnapshot => (RUnit (Ok ()), (s, snaps ++ [snapshot s]))
  | CRestore i => match snaps !! i with
                  | Some snap => let '(r, s) := restore snap s in (RUnit r, (s, snaps))
                  | None => (RUnit (Ok ()), st)
                  end
  end.

(** ** The specification *)
Record Maps := mkMaps { map_nodes : gmap string NodeSchema; map_rels : gmap string RelationshipSchema }.

(** Any schema with the label, if there is one. *)
Definition some_with {V} (P : V → Prop) (g : gmap string V) (o : option V) : Prop :=
  match o with Some v => P v ∧ ∃ k, g !! k = Some v | None => ∀ k v, g !! k = Some v → ¬ P v end.

Definition spec_reply (c : Call) (g : Maps) (saved : list Maps) (r : Reply) : Prop :=
  match c, r with
  | (CRegisterNode _ | CRegisterRel _ | CClear | CSnapshot | CRestore _), RUnit r => r = Ok ()
  | (CGetNode name | CRemoveNode name), RNode o => o = map_nodes g !! name
  | (CGetRel name | CRemoveRel name), RRel o => o = map_rels g !! name
  | CNodeByLabel l, RNode o => some_with (λ n, node_has_label l n = true) (map_nodes g) o
  | CRelByType t, RRel o => some_with (λ n, rel_has_type t n = true) (map_rels g) o
  | CHasNode name, RBool b => b = bool_decide (is_Some (map_nodes g !! name))
  | CHasRel name, RBool b => b = bool_decide (is_Some (map_rels g !! name))
  | CNodes, RNodes l => in_key_order (map_nodes g) l
  | CRels, RRels l => in_key_order (map_rels g) l
  | CLen, RLen n => n = Z.of_nat (size (map_nodes g) + size (map_rels g))
  | _, _ => False
  end.
Definition spec_step (c : Call) (g : Maps) (saved : list Maps) : Maps * list Maps :=
  match c with
  | CRegisterNode n => (mkMaps (<[ns_name n := n]> (map_nodes g)) (map_rels g), saved)
  | CRegisterRel r => (mkMaps (map_nodes g) (<[rs_name r := r]> (map_rels g)), saved)
  | CClear => (mkMaps ∅ ∅, saved)
  | CRemoveNode name => (mkMaps (delete name (map_nodes g)) (map_rels g), saved)
  | CRemoveRel name => (mkMaps (map_nodes g) (delete name (map_rels g)), saved)
  | CSnapshot => (g, saved ++ [g])
  | CRestore i => (default g (saved !! i), saved)
  | _ => (g, saved)
  end.

Fixpoint calls (cs : list Call) (st : SchemaRegistry * list SchemaSnapshot) : list Reply :=
  match cs with [] => [] | c :: cs => let '(r, st) := call c st in r :: calls cs st end.
Fixpoint allowed (cs : list Call) (g : Maps) (saved : list Maps) (rs : list Reply) : Prop :=
  match cs, rs with
  | [], [] => True
  | c :: cs, r :: rs => spec_reply c g saved r ∧ let '(g, saved) := spec_step c g saved in allowed cs g saved rs
  | _, _ => False
  end.

(** ** The simulation *)
Definition represents (nodes : btree NodeSchema) (rels : btree RelationshipSchema) (g : Maps) : Prop :=
  bt_sorted nodes ∧ bt_sorted rels ∧ g = mkMaps (bt_map nodes) (bt_map rels).
Definition simulates (st : SchemaRegistry * list SchemaSnapshot) (g : Maps) (saved : list Maps) : Prop :=
  (∃ nodes rels, st.1 = mkRegistry nodes false rels false ∧ represents nodes rels g) ∧
  Forall2 (λ snap g, represents (snap_nodes snap) (snap_relationships snap) g) st.2 saved.

Lemma find_some_with {V} (f : V → bool) (m : btree V) :
  bt_sorted m → some_with (λ v, f v = true) (bt_map m) (List.find f m.*2).
Proof.
  intros Hs. assert (in_key_order (bt_map m) m.*2) as Ho by by exists m.
  destruct (List.find f m.*2) as [v|] eqn:E; cbn.
  - apply List.find_some in E as [Hin Hf]. split; [done|]. by apply (in_key_order_elem _ _ _ Ho), list_elem_of_In.
  - intros k v Hk Hf. assert (v ∈ m.*2) as Hin by (apply (in_key_order_elem _ _ _ Ho); by exists k).
    apply list_elem_of_In in Hin. apply (List.find_none _ _ E) in Hin. congruence.
Qed.

Lemma by_type_some_with t (m : btree RelationshipSchema) :
  bt_sorted m →
  some_with (λ n, rel_has_type t n = true) (bt_map m)
    match bt_get t m with
    | Some rel => if rel_has_type t rel then Some rel else List.find (rel_has_type t) m.*2
    | None => List.find (rel_has_type t) m.*2
    end.
Proof.
  intros Hs. destruct (bt_get t m) as [rel|] eqn:E; [|by apply find_some_with].
  destruct (rel_has_type t rel) eqn:Et; [|by apply find_some_with].
  split; [done|]. exists t. by rewrite bt_map_lookup.
Qed.

Lemma call_simulates c st g saved :
  simulates st g saved →
  let '(r, st') := call c st in
  spec_reply c g saved r ∧ let '(g', saved') := spec_step c g saved in simulates st' g' saved'.
Proof.
  destruct st as [s snaps]. intros [(nodes & rels & Es & Hn & Hr & ->) Hf]. cbn [fst snd] in *. subst s.
  assert (∀ n r snaps, represents n r (mkMaps (bt_map n) (bt_map r)) → Forall2 (λ snap g, represents (snap_nodes snap) (snap_relationships snap) g) snaps saved →
    simulates (mkRegistry n false r false, snaps) (mkMaps (bt_map n) (bt_map r)) saved) as Hsim
    by (intros n r sn ? ?; split; [by exists n, r|done]).
  assert (represents nodes rels (mkMaps (bt_map nodes) (bt_map rels))) as Hrep by done.
  destruct c as [n|r|name|name|l|t|name|name| | | | |name|name| |i]; cbn.
  - split; [done|]. rewrite <- bt_map_insert by done. apply Hsim; [|done]. split; [by apply bt_insert_sorted|done].
  - split; [done|]. rewrite <- bt_map_insert by done. apply Hsim; [|done]. split; [done|]. split; [by apply bt_insert_sorted|done].
  - split; [by rewrite bt_map_lookup|by apply Hsim].
  - split; [by rewrite bt_map_lookup|by apply Hsim].
  - split; [by apply find_some_with|by apply Hsim].
  - split; [by apply by_type_some_with|by apply Hsim].
  - split; [by rewrite <- bt_map_contains|by apply Hsim].
  - split; [by rewrite <- bt_map_contains|by apply Hsim].
  - split; [by exists nodes|by apply Hsim].
  - split; [by exists rels|by apply Hsim].
  - split; [by rewrite !bt_map_size|by apply Hsim].
  - split; [done|]. apply (Hsim [] []); [|done]. repeat split; constructor.
  - split; [by rewrite bt_map_lookup|]. rewrite <- bt_map_remove. apply Hsim; [|done]. split; [by apply bt_remove_sorted|done].
  - split; [by rewrite bt_map_lookup|]. rewrite <- bt_map_remove. apply Hsim; [|done]. split; [done|]. split; [by apply bt_remove_sorted|done].
  - split; [done|]. split; [by exists nodes, rels|]. apply Forall2_app; [done|]. by repeat constructor.
  - destruct (snaps !! i) as [snap|] eqn:E.
    + destruct (Forall2_lookup_l _ _ _ _ _ Hf E) as (g' & Hg' & (H1 & H2 & ->)). cbn. rewrite Hg'. cbn. split; [done|].
      apply Hsim; [|done]. by split.
    + split; [done|]. assert (saved !! i = None) as ->; [|by apply Hsim].
      apply lookup_ge_None. rewrite <- (Forall2_length _ _ _ Hf). by apply lookup_ge_None.
Qed.

(** C33: Over any sequence of calls (schemas registered and removed, by name, label and type looked
    up, the registry cleared, and put back to snapshots taken before) the registry answers as a
    pair of finite maps from model names does, and lists schemas in the order of their names. *)
Theorem registry_refines_maps cs :
  allowed cs (mkMaps ∅ ∅) [] (calls cs (SchemaRegistry_new, [])).
Proof.
  assert (simulates (SchemaRegistry_new, []) (mkMaps ∅ ∅) []) as Hs.
  { split; [|constructor]. exists [], []. split; [done|]. repeat split; constructor. }
  revert Hs. generalize (SchemaRegistry_new, [] : list SchemaSnapshot) as st, (mkMaps ∅ ∅) as g, ([] : list Maps) as saved.
  induction cs as [|c cs IH]; intros st g saved Hs; [done|]. cbn [calls allowed].
  pose proof (call_simulates c st g saved Hs) as H. destruct (call c st) as [r st'].
  destruct H as [Hr H]. split; [done|]. destruct (spec_step c g saved) as [g' saved']. by apply IH.
Qed.

(** ** Names of indexes *)

(** The index of a field and the full-text index over that field alone get one name: of the two
    [CREATE ... IF NOT EXISTS] statements the second does nothing. *)
Example index_names_collide :
  canonical_vector_index_name "Doc" "body" DD_Cypher = canonical_fulltext_index_name "Doc" ["body"] DD_Cypher.
Proof. vm_compute. reflexivity. Qed.

(** A field that lost its primary key keeps it as the schema's primary key. *)
Example primary_key_outlives_its_field :
  let n := ns_with_field (FieldDescriptor_new "id" FT_Int64)
             (ns_with_field (primary_key (FieldDescriptor_new "id" FT_Int64)) (NodeSchema_new "User" ["User"])) in
  ns_primary_key n = Some "id" ∧ option_map fd_primary_key (primary_key_field n) = Some false.
Proof. vm_compute. done. Qed.
