(* ===== verification/Ddl.v ===== *)
(** * Statements that create and drop schemas ([voyager-core/src/emitters/ddl.rs])

    Constraints and indexes of openCypher, graph types of Cypher 25 and ISO GQL, property
    graphs of SQL/PGQ, and the indexes and constraints of every dialect, together with the
    methods of the registry that call them.  [None] of an outer option is a panic
    ([unreachable!()]). *)
From S2P Require Import Prelude Bytes F64 Errors Ast Text BTree Levenshtein Schema.

Open Scope Z_scope.
Open Scope string_scope.
Open Scope list_scope.

(** ** Names of types *)
Definition neo4j_types : list (list string * string) :=
  [(["STRING"; "STR"; "TEXT"; "VARCHAR"], "STRING"); (["INTEGER"; "INT"; "INT64"; "BIGINT"], "INTEGER");
   (["FLOAT"; "FLOAT64"; "DOUBLE"], "FLOAT"); (["BOOLEAN"; "BOOL"], "BOOLEAN"); (["DATETIME"; "TIMESTAMP"], "DATETIME");
   (["DATE"], "DATE"); (["DURATION"; "INTERVAL"], "DURATION"); (["LIST"; "ARRAY"], "LIST"); (["MAP"; "DICT"], "MAP")].
Definition field_type_to_neo4j (ft : FieldType) : string :=
  match ft with
  | FT_Custom s => default "ANY" (match_str (to_ascii_uppercase s) neo4j_types)
  | ft => FieldType_as_str ft
  end.
Definition gql_types : list (list string * string) :=
  [(["STRING"; "STR"; "TEXT"; "VARCHAR"], "STRING"); (["INTEGER"; "INT"; "INT64"; "BIGINT"], "INTEGER");
   (["FLOAT"; "FLOAT64"; "DOUBLE"], "FLOAT"); (["BOOLEAN"; "BOOL"], "BOOLEAN"); (["DATETIME"; "TIMESTAMP"], "DATETIME");
   (["DATE"], "DATE"); (["DURATION"; "INTERVAL"], "DURATION"); (["LIST"; "ARRAY"], "LIST")].
Definition field_type_to_gql (ft : FieldType) : string :=
  match ft with
  | FT_Custom s => default "ANY" (match_str (to_ascii_uppercase s) gql_types)
  | ft => FieldType_as_str ft
  end.
Definition pgq_types : list (list string * string) :=
  [(["STRING"; "STR"; "TEXT"; "VARCHAR"], "VARCHAR"); (["INTEGER"; "INT"; "INT64"; "BIGINT"], "BIGINT");
   (["FLOAT"; "FLOAT64"; "DOUBLE"], "DOUBLE PRECISION"); (["BOOLEAN"; "BOOL"], "BOOLEAN");
   (["DATETIME"; "TIMESTAMP"], "TIMESTAMP WITH TIME ZONE"); (["DATE"], "DATE"); (["DURATION"; "INTERVAL"], "INTERVAL");
   (["LIST"; "ARRAY"], "ARRAY"); (["MAP"; "JSON"; "JSONB"], "JSON")].
Definition field_type_to_pgq (ft : FieldType) : string :=
  match ft with
  | FT_String => "VARCHAR" | FT_Int64 => "BIGINT" | FT_Float64 => "DOUBLE PRECISION" | FT_Boolean => "BOOLEAN"
  | FT_DateTime => "TIMESTAMP WITH TIME ZONE" | FT_Date => "DATE" | FT_Duration => "INTERVAL" | FT_List _ => "ARRAY"
  | FT_Map => "JSON" | FT_Any => "VARCHAR"
  | FT_Custom s => default "VARCHAR" (match_str (to_ascii_uppercase s) pgq_types)
  end.

(** ** Names of constraints and indexes *)
Definition cypher_constraint_name (label prop kind : string) : string :=
  "constraint_" +:+ to_ascii_lowercase label +:+ "_" +:+ to_ascii_lowercase prop +:+ "_" +:+ kind.
Definition cypher_rel_constraint_name (rel_type prop kind : string) : string :=
  "constraint_rel_" +:+ to_ascii_lowercase rel_type +:+ "_" +:+ to_ascii_lowercase prop +:+ "_" +:+ kind.
Definition cypher_index_name (label prop : string) : string :=
  "index_" +:+ to_ascii_lowercase label +:+ "_" +:+ to_ascii_lowercase prop.
Definition cypher_rel_index_name (rel_type prop : string) : string :=
  "index_rel_" +:+ to_ascii_lowercase rel_type +:+ "_" +:+ to_ascii_lowercase prop.

Definition is_pure_index_field (f : FieldDescriptor) : bool := fd_indexed f && negb (fd_unique f) && negb (fd_primary_key f).
Definition is_vector (f : FieldDescriptor) : bool := bool_decide (fd_index_type f = Some IT_Vector).
(** The name a vector configuration gives. *)
Definition custom_name (f : FieldDescriptor) : option string := vc ← fd_vector_config f; vc_index_name vc.
Definition vector_name (label : string) (f : FieldDescriptor) (d : DdlDialect) : string :=
  default (canonical_vector_index_name label (fd_name f) d) (custom_name f).
Definition vector_settings (f : FieldDescriptor) (d : DdlDialect) : Z * string :=
  match fd_vector_config f with
  | Some vc => (vc_dimensions vc, metric_for (vc_similarity vc) d)
  | None => (DEFAULT_VECTOR_DIMENSIONS, metric_for Cosine d)
  end.
Definition cypher_field_index_name (label : string) (f : FieldDescriptor) : string :=
  default (if is_vector f then canonical_vector_index_name label (fd_name f) DD_Cypher else cypher_index_name label (fd_name f))
    (custom_name f).
Definition fulltext_name (label : string) (ft : FullTextIndexConfig) (d : DdlDialect) : string :=
  if bool_decide (ft_name ft = "") then canonical_fulltext_index_name label (ft_properties ft) d else ft_name ft.

Definition when (b : bool) (s : string) : list string := if b then [s] else [].
Definition nl : string := of_bytes [x0a].
Definition dq : string := of_bytes [x22].

(** ** openCypher *)
(** [(n:Label)] and [()-[r:TYPE]-()], and the variable of either. *)
Definition for_node (label : string) : string := "(n:" +:+ label +:+ ")".
Definition for_rel (type_name : string) : string := "()-[r:" +:+ type_name +:+ "]-()".

Definition create_constraint (name pattern requirement : string) : string :=
  "CREATE CONSTRAINT " +:+ name +:+ " IF NOT EXISTS FOR " +:+ pattern +:+ " REQUIRE " +:+ requirement.
Definition create_index (kind name pattern on : string) : string :=
  "CREATE " +:+ kind +:+ "INDEX " +:+ name +:+ " IF NOT EXISTS FOR " +:+ pattern +:+ " ON " +:+ on.
Definition drop_constraint (name : string) : string := "DROP CONSTRAINT " +:+ name +:+ " IF EXISTS".
Definition drop_index (name : string) : string := "DROP INDEX " +:+ name +:+ " IF EXISTS".

Definition cypher_field_index (label : string) (f : FieldDescriptor) : string :=
  let create kind rest := create_index kind (cypher_field_index_name label f) (for_node label) ("(n." +:+ fd_name f +:+ ")" +:+ rest) in
  match fd_index_type f with
  | Some IT_Text => create "TEXT " ""
  | Some IT_Point => create "POINT " ""
  | Some IT_Vector =>
      let '(dims, sim) := vector_settings f DD_Cypher in
      create "VECTOR " (" OPTIONS {indexConfig: {`vector.dimensions`: " +:+ num dims +:+ ", `vector.similarity_function`: '" +:+ sim +:+ "'}}")
  | _ => create "" ""
  end.
Definition cypher_fulltext (label pattern var : string) (ft : FullTextIndexConfig) : string :=
  create_index "FULLTEXT " (fulltext_name label ft DD_Cypher) pattern
    ("EACH [" +:+ join ", " ((λ p, var +:+ "." +:+ p) <$> ft_properties ft) +:+ "]"
     +:+ match ft_analyzer ft with
         | Some analyzer => " OPTIONS {indexConfig: {`fulltext.analyzer`: '" +:+ analyzer +:+ "'}}"
         | None => ""
         end).

Definition emit_cypher_node_ddl (node : NodeSchema) (include_type_constraints : bool) : list string :=
  let label := primary_label node in
  let constraint f kind req :=
    create_constraint (cypher_constraint_name label (fd_name f) kind) (for_node label) ("n." +:+ fd_name f +:+ req) in
  ((ns_fields node).*2 ≫= λ f,
     when (negb (fd_nullable f)) (constraint f "not_null" " IS NOT NULL")
     ++ when (fd_unique f || fd_primary_key f) (constraint f "unique" " IS UNIQUE")
     ++ when (is_pure_index_field f) (cypher_field_index label f)
     ++ when include_type_constraints (constraint f "type" (" :: " +:+ field_type_to_neo4j (fd_field_type f))))
  ++ (cypher_fulltext label (for_node label) "n" <$> ns_fulltext_indexes node).

Definition rel_required (f : FieldDescriptor) : bool := fd_primary_key f || fd_unique f || negb (fd_nullable f).
Definition cypher_rel_index (ty : string) (f : FieldDescriptor) : string :=
  create_index "" (cypher_rel_index_name ty (fd_name f)) (for_rel ty) ("(r." +:+ fd_name f +:+ ")").
Definition emit_cypher_rel_ddl (rel : RelationshipSchema) (include_type_constraints : bool) : list string :=
  let ty := rs_type_name rel in
  let constraint f kind req :=
    create_constraint (cypher_rel_constraint_name ty (fd_name f) kind) (for_rel ty) ("r." +:+ fd_name f +:+ req) in
  ((rs_fields rel).*2 ≫= λ f,
     when (rel_required f) (constraint f "not_null" " IS NOT NULL")
     ++ when (is_pure_index_field f) (cypher_rel_index ty f)
     ++ when include_type_constraints (constraint f "type" (" :: " +:+ field_type_to_neo4j (fd_field_type f))))
  ++ (cypher_fulltext ty (for_rel ty) "r" <$> rs_fulltext_indexes rel).

Definition emit_cypher_drop_node_ddl (node : NodeSchema) (include_type_constraints : bool) : list string :=
  let label := primary_label node in
  let constraint f kind := drop_constraint (cypher_constraint_name label (fd_name f) kind) in
  ((ns_fields node).*2 ≫= λ f,
     when (negb (fd_nullable f)) (constraint f "not_null")
     ++ when (fd_unique f || fd_primary_key f) (constraint f "unique")
     ++ when (fd_indexed f) (drop_index (cypher_field_index_name label f))
     ++ when include_type_constraints (constraint f "type"))
  ++ ((λ ft, drop_index (fulltext_name label ft DD_Cypher)) <$> ns_fulltext_indexes node).
Definition emit_cypher_drop_rel_ddl (rel : RelationshipSchema) (include_type_constraints : bool) : list string :=
  let ty := rs_type_name rel in
  let constraint f kind := drop_constraint (cypher_rel_constraint_name ty (fd_name f) kind) in
  ((rs_fields rel).*2 ≫= λ f,
     when (rel_required f) (constraint f "not_null")
     ++ when (is_pure_index_field f) (drop_index (cypher_rel_index_name ty (fd_name f)))
     ++ when include_type_constraints (constraint f "type"))
  ++ ((λ ft, drop_index (fulltext_name ty ft DD_Cypher)) <$> rs_fulltext_indexes rel).

(** ** Graph types: Cypher 25 and ISO GQL *)
(** [String::new()] of an empty list, or the definitions between brackets. *)
Definition bracketed (open close : string) (defs : list string) : string :=
  if bool_decide (defs = []) then "" else open +:+ join ", " defs +:+ close.
Definition endpoint (label : option string) : string :=
  match label with
  | Some s => if bool_decide (s = "") then "()" else "(:" +:+ s +:+ ")"
  | None => "()"
  end.

Definition cypher25_property (f : FieldDescriptor) : string :=
  fd_name f +:+ " :: " +:+ field_type_to_neo4j (fd_field_type f)
  +:+ (if fd_primary_key f then " IS KEY"
       else (if fd_nullable f then "" else " NOT NULL") +:+ (if fd_unique f then " IS UNIQUE" else "")).
Definition cypher25_node (node : NodeSchema) : string :=
  let label := primary_label node in
  let implied := drop 1 (ns_labels node) in
  let implied_str := if bool_decide (implied = []) then "" else ":" +:+ join "&" implied in
  let props_str := bracketed " {" "}" (cypher25_property <$> (ns_fields node).*2) in
  if bool_decide (implied_str = "") then
    if bool_decide (props_str = "") then "    (:" +:+ label +:+ ")" else "    (:" +:+ label +:+ " =>" +:+ props_str +:+ ")"
  else "    (:" +:+ label +:+ " => " +:+ implied_str +:+ props_str +:+ ")".
Definition cypher25_rel (rel : RelationshipSchema) : string :=
  let props_str := bracketed " {" "}" (cypher25_property <$> (rs_fields rel).*2) in
  let src := endpoint (head (rs_source_labels rel)) in
  let tgt := endpoint (head (rs_target_labels rel)) in
  if bool_decide (props_str = "") then "    " +:+ src +:+ "-[:" +:+ rs_type_name rel +:+ "]->" +:+ tgt
  else "    " +:+ src +:+ "-[:" +:+ rs_type_name rel +:+ " =>" +:+ props_str +:+ "]->" +:+ tgt.
Definition emit_cypher25_graph_type_ddl (nodes : list NodeSchema) (relationships : list RelationshipSchema) : string :=
  "ALTER CURRENT GRAPH TYPE SET {" +:+ nl
  +:+ join ("," +:+ nl) ((cypher25_node <$> nodes) ++ (cypher25_rel <$> relationships)) +:+ nl +:+ "}".
Definition emit_cypher25_drop_graph_type_ddl : string := "ALTER CURRENT GRAPH TYPE SET {}".

Definition gql_property (f : FieldDescriptor) : string :=
  fd_name f +:+ " " +:+ field_type_to_gql (fd_field_type f)
  +:+ (if negb (fd_nullable f) || fd_primary_key f then " NOT NULL" else "").
Definition gql_node (node : NodeSchema) : string :=
  "    NODE " +:+ primary_label node +:+ bracketed " (" ")" (gql_property <$> (ns_fields node).*2)
  +:+ match ns_primary_key node with Some pk => " KEY (" +:+ pk +:+ ")" | None => "" end.
Definition gql_rel (rel : RelationshipSchema) : string :=
  let connecting_str :=
    match head (rs_source_labels rel), head (rs_target_labels rel) with
    | Some s, Some t => if bool_decide (s = "") || bool_decide (t = "") then ""
                        else " CONNECTING (" +:+ s +:+ " TO " +:+ t +:+ ")"
    | _, _ => ""
    end in
  "    EDGE " +:+ rs_type_name rel +:+ connecting_str +:+ bracketed " (" ")" (gql_property <$> (rs_fields rel).*2).
Definition emit_gql_graph_type_ddl (graph_type_name : string) (nodes : list NodeSchema)
    (relationships : list RelationshipSchema) : string :=
  "CREATE GRAPH TYPE " +:+ graph_type_name +:+ " AS {" +:+ nl
  +:+ join ("," +:+ nl) ((gql_node <$> nodes) ++ (gql_rel <$> relationships)) +:+ nl +:+ "}".
Definition emit_gql_alter_node_ddl (node : NodeSchema) : string :=
  let property f :=
    fd_name f +:+ " :: " +:+ field_type_to_gql (fd_field_type f)
    +:+ (if fd_primary_key f || fd_unique f || negb (fd_nullable f) then "" else "?") in
  "ALTER CURRENT GRAPH TYPE ADD NODE TYPE (:" +:+ primary_label node
  +:+ bracketed " {" "}" (property <$> (ns_fields node).*2) +:+ ")".
Definition emit_gql_alter_rel_ddl (rel : RelationshipSchema) (source_label target_label : option string) : string :=
  let property f := fd_name f +:+ " :: " +:+ field_type_to_gql (fd_field_type f) in
  let or_else (o o' : option string) := match o with Some _ => o | None => o' end in
  "ALTER CURRENT GRAPH TYPE ADD RELATIONSHIP TYPE " +:+ endpoint (or_else source_label (head (rs_source_labels rel)))
  +:+ "-[:" +:+ rs_type_name rel +:+ bracketed " {" "}" (property <$> (rs_fields rel).*2) +:+ "]->"
  +:+ endpoint (or_else target_label (head (rs_target_labels rel))).
Definition emit_gql_drop_graph_type_ddl (graph_type_name : string) : string :=
  "DROP GRAPH TYPE " +:+ graph_type_name +:+ " IF EXISTS".

(** ** SQL/PGQ property graphs *)
Definition pgq_properties (fields : btree FieldDescriptor) : string := bracketed " PROPERTIES (" ")" fields.*1.
Definition pgq_vertex (node : NodeSchema) : string :=
  "    " +:+ to_ascii_lowercase (ns_name node)
  +:+ match ns_primary_key node with Some pk => " KEY (" +:+ pk +:+ ")" | None => "" end
  +:+ " LABEL " +:+ primary_label node +:+ pgq_properties (ns_fields node).

(** The first label of one side, which must be there and not empty. *)
Definition pgq_endpoint (rel : RelationshipSchema) (side which : string) (labels : list string) : result CoreErr string :=
  match head labels with
  | Some s => if bool_decide (s = "") then Err (SchemaError
                ("Relationship '" +:+ rs_name rel +:+ "' is missing " +:+ side
                 +:+ ". SQL:2023 PGQ EDGE TABLES require explicit vertex " +:+ which +:+ " endpoints.")) else Ok s
  | None => Err (SchemaError
                ("Relationship '" +:+ rs_name rel +:+ "' is missing " +:+ side
                 +:+ ". SQL:2023 PGQ EDGE TABLES require explicit vertex " +:+ which +:+ " endpoints."))
  end.
(** The column of a vertex table an edge refers to. *)
Definition pgq_ref_col (nodes : list NodeSchema) (label key : string) : string :=
  default key (n ← List.find (λ n, bool_decide (label ∈ ns_labels n) || bool_decide (ns_name n = label)) nodes;
               ns_primary_key n).
Definition pgq_edge (nodes : list NodeSchema) (rel : RelationshipSchema) : result CoreErr string :=
  src_label ← pgq_endpoint rel "source_labels" "source" (rs_source_labels rel);
  tgt_label ← pgq_endpoint rel "target_labels" "target" (rs_target_labels rel);
  let src_table := to_ascii_lowercase src_label in
  let tgt_table := to_ascii_lowercase tgt_label in
  let src_key := src_table +:+ "_id" in
  let tgt_key := tgt_table +:+ "_id" in
  Ok ("    " +:+ to_ascii_lowercase (rs_name rel) +:+ nl
      +:+ "      SOURCE KEY (" +:+ src_key +:+ ") REFERENCES " +:+ src_table +:+ " (" +:+ pgq_ref_col nodes src_label src_key +:+ ")" +:+ nl
      +:+ "      DESTINATION KEY (" +:+ tgt_key +:+ ") REFERENCES " +:+ tgt_table +:+ " (" +:+ pgq_ref_col nodes tgt_label tgt_key +:+ ")" +:+ nl
      +:+ "      LABEL " +:+ rs_type_name rel +:+ pgq_properties (rs_fields rel)).
Definition emit_pgq_property_graph_ddl (graph_name : string) (nodes : list NodeSchema)
    (relationships : list RelationshipSchema) : result CoreErr string :=
  e_clauses ← mapM (pgq_edge nodes) relationships;
  let vertices_block := join ("," +:+ nl) (pgq_vertex <$> nodes) in
  let edges_block := join ("," +:+ nl) e_clauses in
  Ok ("CREATE PROPERTY GRAPH " +:+ graph_name +:+ nl
      +:+ (if bool_decide (vertices_block = "") then "" else "  VERTEX TABLES (" +:+ nl +:+ vertices_block +:+ nl +:+ "  )" +:+ nl)
      +:+ (if bool_decide (edges_block = "") then "" else "  EDGE TABLES (" +:+ nl +:+ edges_block +:+ nl +:+ "  )")
      +:+ ";").
Definition emit_pgq_drop_property_graph_ddl (graph_name : string) : string :=
  "DROP PROPERTY GRAPH IF EXISTS " +:+ graph_name +:+ ";".

(** ** Dialects *)
Definition escape_sql_ident (ident : string) : string :=
  dq +:+ of_bytes (as_bytes ident ≫= λ b, if bool_decide (b = x22) then [b; b] else [b]) +:+ dq.

Inductive DdlOp := CreateIndex | CreateConstraint | DropIndex | DropConstraint.
Definition DdlOp_name (op : DdlOp) : string :=
  match op with
  | CreateIndex => "CREATE INDEX" | CreateConstraint => "CREATE CONSTRAINT"
  | DropIndex => "DROP INDEX" | DropConstraint => "DROP CONSTRAINT"
  end.

Definition age_error (feature : string) : CoreErr := UnsupportedDialect "Apache AGE" feature.
Definition falkor_error (feature : string) : CoreErr := UnsupportedDialect "FalkorDB" feature.

Definition ensure_ddl_supported (dialect : string) (op : DdlOp) : result CoreErr DdlDialect :=
  let norm := to_ascii_lowercase dialect in
  if bool_decide (norm = "memgraph") then Ok DD_Memgraph
  else if bool_decide (norm ∈ ["duckdb"; "duckpgq"]) then Ok DD_DuckDb
  else if bool_decide (norm ∈ ["age"; "apache_age"]) then
    match op with
    | CreateIndex | DropIndex => Ok DD_Age
    | _ => Err (age_error ("Cypher '" +:+ DdlOp_name op +:+ "' queries. Indexes and constraints in Apache AGE must be defined directly on the underlying PostgreSQL relational tables (e.g. CREATE INDEX ON {graph}."
                           +:+ dq +:+ "Label" +:+ dq +:+ " USING gin (properties))."))
    end
  else if bool_decide (norm ∈ ["falkordb"; "falkor"]) then
    match op with
    | CreateConstraint | DropConstraint =>
        Err (falkor_error "openCypher constraint queries in GRAPH.QUERY. Constraints in FalkorDB must be managed via native Redis commands ('GRAPH.CONSTRAINT CREATE/DROP <graph_name> UNIQUE NODE <label> PROPERTIES 1 <prop>').")
    | _ => Ok DD_FalkorDb
    end
  else if bool_decide (norm ∈ ["sql"; "postgres"; "postgresql"; "sql_pgq"; "pgq"]) then Ok DD_Sql
  else Ok DD_Cypher.

(** ** Indexes *)
Definition single_quoted (s : string) : string := "'" +:+ s +:+ "'".
Definition sql_table (label : string) : string := to_ascii_lowercase label.
Definition sql_index_name (label : string) (f : FieldDescriptor) : string := "idx_" +:+ sql_table label +:+ "_" +:+ fd_name f.
Definition pure_fields (fields : btree FieldDescriptor) : list FieldDescriptor := filter is_pure_index_field fields.*2.

Definition memgraph_index (label : string) (f : FieldDescriptor) : string :=
  if is_vector f then
    let '(dims, metric) := vector_settings f DD_Memgraph in
    "CREATE VECTOR INDEX " +:+ vector_name label f DD_Memgraph +:+ " ON :" +:+ label +:+ "(" +:+ fd_name f +:+ ") WITH CONFIG {"
    +:+ dq +:+ "dimension" +:+ dq +:+ ": " +:+ num dims +:+ ", " +:+ dq +:+ "capacity" +:+ dq +:+ ": "
    +:+ num DEFAULT_MEMGRAPH_VECTOR_CAPACITY +:+ ", " +:+ dq +:+ "metric" +:+ dq +:+ ": " +:+ dq +:+ metric +:+ dq +:+ "};"
  else "CREATE INDEX ON :" +:+ label +:+ "(" +:+ fd_name f +:+ ");".
Definition memgraph_fulltext (kind label : string) (ft : FullTextIndexConfig) : string :=
  "CREATE TEXT " +:+ kind +:+ "INDEX " +:+ fulltext_name label ft DD_Memgraph +:+ " ON :" +:+ label
  +:+ "(" +:+ join ", " (ft_properties ft) +:+ ");".

(** [{q_col}] for DuckDB, [{q_col} {opclass}] for PostgreSQL. *)
Definition sql_create (name table rest : string) : string :=
  "CREATE INDEX IF NOT EXISTS " +:+ name +:+ " ON " +:+ table +:+ rest +:+ ";".
Definition sql_plain_index (label : string) (f : FieldDescriptor) : string :=
  sql_create (sql_index_name label f) (escape_sql_ident (sql_table label)) (" (" +:+ escape_sql_ident (fd_name f) +:+ ")").
Definition duckdb_index (label : string) (f : FieldDescriptor) : string :=
  if is_vector f then
    sql_create (vector_name label f DD_DuckDb) (escape_sql_ident (sql_table label))
      (" USING HNSW (" +:+ escape_sql_ident (fd_name f) +:+ ") WITH (metric = '" +:+ (vector_settings f DD_DuckDb).2 +:+ "')")
  else sql_plain_index label f.
Definition sql_index (label : string) (f : FieldDescriptor) : string :=
  if is_vector f then
    sql_create (vector_name label f DD_Sql) (escape_sql_ident (sql_table label))
      (" USING hnsw (" +:+ escape_sql_ident (fd_name f) +:+ " " +:+ (vector_settings f DD_Sql).2 +:+ ")")
  else sql_plain_index label f.
Definition duckdb_fulltext (label pk : string) (ft : FullTextIndexConfig) : string :=
  "PRAGMA create_fts_index('" +:+ sql_table label +:+ "', '" +:+ pk +:+ "', "
  +:+ join ", " (single_quoted <$> ft_properties ft) +:+ ");".
Definition sql_fulltext (label : string) (ft : FullTextIndexConfig) : string :=
  sql_create (fulltext_name label ft DD_Sql) (escape_sql_ident (sql_table label))
    (" USING gin (to_tsvector('" +:+ default "english" (ft_analyzer ft) +:+ "', "
     +:+ join " || ' ' || " (escape_sql_ident <$> ft_properties ft) +:+ "))").

Definition falkor_index (label : string) (f : FieldDescriptor) : string :=
  if is_vector f then
    let '(dims, sim) := vector_settings f DD_FalkorDb in
    "CREATE VECTOR INDEX FOR " +:+ for_node label +:+ " ON (n." +:+ fd_name f +:+ ") OPTIONS {dimension: " +:+ num dims
    +:+ ", similarityFunction: '" +:+ sim +:+ "'}"
  else "CREATE INDEX FOR " +:+ for_node label +:+ " ON (n." +:+ fd_name f +:+ ")".
Definition falkor_fulltext (label : string) (ft : FullTextIndexConfig) : string :=
  "CALL db.idx.fulltext.createNodeIndex('" +:+ label +:+ "', " +:+ join ", " (single_quoted <$> ft_properties ft) +:+ ")".

Definition age_table (label : string) : string := "ag_catalog." +:+ dq +:+ label +:+ dq.
Definition age_index (label : string) (f : FieldDescriptor) : string :=
  sql_create (vector_name label f DD_Age) (age_table label)
    (" USING hnsw (" +:+ fd_name f +:+ " " +:+ (vector_settings f DD_Age).2 +:+ ")").
Definition age_fulltext (label : string) (ft : FullTextIndexConfig) : string :=
  sql_create (fulltext_name label ft DD_Age) (age_table label)
    (" USING gin (to_tsvector('" +:+ default "english" (ft_analyzer ft) +:+ "', "
     +:+ join " || ' ' || " ((λ p, "(properties->>'" +:+ p +:+ "')") <$> ft_properties ft) +:+ "))").
(** Apache AGE has nothing to do without a vector field or a full-text index. *)
Definition age_has_indexes (node : NodeSchema) : bool :=
  existsb is_vector (ns_fields node).*2 || negb (bool_decide (ns_fulltext_indexes node = [])).

Definition emit_node_index_ddl (node : NodeSchema) (dialect : string) : result CoreErr (list string) :=
  ddl_dialect ← ensure_ddl_supported dialect CreateIndex;
  let label := primary_label node in
  let fields := pure_fields (ns_fields node) in
  let fulltext := ns_fulltext_indexes node in
  match ddl_dialect with
  | DD_Memgraph => Ok ((memgraph_index label <$> fields) ++ (memgraph_fulltext "" label <$> fulltext))
  | DD_DuckDb =>
      Ok ((duckdb_index label <$> fields) ++ (duckdb_fulltext label (default "id" (ns_primary_key node)) <$> fulltext))
  | DD_FalkorDb => Ok ((falkor_index label <$> fields) ++ (falkor_fulltext label <$> fulltext))
  | DD_Age =>
      if age_has_indexes node then Ok ((age_index label <$> filter is_vector fields) ++ (age_fulltext label <$> fulltext))
      else Err (age_error ("Cypher 'CREATE INDEX' queries. Indexes and constraints in Apache AGE must be defined directly on the underlying PostgreSQL relational tables (e.g. CREATE INDEX ON {graph}."
                           +:+ dq +:+ "Label" +:+ dq +:+ " USING gin (properties))."))
  | DD_Sql => Ok ((sql_index label <$> fields) ++ (sql_fulltext label <$> fulltext))
  | DD_Cypher => Ok ((cypher_field_index label <$> fields) ++ (cypher_fulltext label (for_node label) "n" <$> fulltext))
  end.

Definition memgraph_edge_index (verb ty : string) (f : FieldDescriptor) : string :=
  verb +:+ " EDGE INDEX ON :" +:+ ty +:+ "(" +:+ fd_name f +:+ ");".
Definition falkor_rel_index (verb ty : string) (f : FieldDescriptor) : string :=
  verb +:+ " INDEX FOR " +:+ for_rel ty +:+ " ON (r." +:+ fd_name f +:+ ")".
Definition emit_rel_index_ddl (rel : RelationshipSchema) (dialect : string) : result CoreErr (list string) :=
  ddl_dialect ← ensure_ddl_supported dialect CreateIndex;
  let ty := rs_type_name rel in
  let fields := pure_fields (rs_fields rel) in
  let fulltext := rs_fulltext_indexes rel in
  match ddl_dialect with
  | DD_Memgraph => Ok ((memgraph_edge_index "CREATE" ty <$> fields) ++ (memgraph_fulltext "EDGE " ty <$> fulltext))
  | DD_DuckDb => Ok ((sql_plain_index ty <$> fields) ++ (duckdb_fulltext ty "id" <$> fulltext))
  | DD_FalkorDb =>
      if bool_decide (fulltext = []) then Ok (falkor_rel_index "CREATE" ty <$> fields)
      else Err (falkor_error "Full-text index creation on relationships. FalkorDB only supports db.idx.fulltext.createNodeIndex for nodes.")
  | DD_Age => Err (age_error "Cypher 'CREATE INDEX' queries on relationships. Indexes in Apache AGE must be defined directly on the underlying PostgreSQL relational tables.")
  | DD_Sql => Ok ((sql_plain_index ty <$> fields) ++ (sql_fulltext ty <$> fulltext))
  | DD_Cypher => Ok ((cypher_rel_index ty <$> fields) ++ (cypher_fulltext ty (for_rel ty) "r" <$> fulltext))
  end.

Definition sql_drop (name : string) : string := "DROP INDEX IF EXISTS " +:+ name +:+ ";".
Definition sql_dropped_name (label : string) (f : FieldDescriptor) (d : DdlDialect) : string :=
  default (if is_vector f then canonical_vector_index_name label (fd_name f) d else sql_index_name label f) (custom_name f).
Definition memgraph_drop_index (label : string) (f : FieldDescriptor) : string :=
  if is_vector f then "DROP VECTOR INDEX " +:+ vector_name label f DD_Memgraph +:+ ";"
  else "DROP INDEX ON :" +:+ label +:+ "(" +:+ fd_name f +:+ ");".
Definition falkor_drop_index (label : string) (f : FieldDescriptor) : string :=
  "DROP " +:+ (if is_vector f then "VECTOR " else "") +:+ "INDEX FOR " +:+ for_node label +:+ " ON (n." +:+ fd_name f +:+ ")".
Definition memgraph_drop_fulltext (label : string) (ft : FullTextIndexConfig) : string :=
  "DROP TEXT INDEX " +:+ fulltext_name label ft DD_Memgraph +:+ ";".
Definition duckdb_drop_fulltext (label : string) : string := "PRAGMA drop_fts_index('" +:+ sql_table label +:+ "');".

Definition emit_node_drop_index_ddl (node : NodeSchema) (dialect : string) : result CoreErr (list string) :=
  ddl_dialect ← ensure_ddl_supported dialect DropIndex;
  let label := primary_label node in
  let fields := pure_fields (ns_fields node) in
  let fulltext := ns_fulltext_indexes node in
  match ddl_dialect with
  | DD_Memgraph => Ok ((memgraph_drop_index label <$> fields) ++ (memgraph_drop_fulltext label <$> fulltext))
  | DD_DuckDb =>
      Ok (((λ f, sql_drop (sql_dropped_name label f DD_DuckDb)) <$> fields) ++ ((λ _, duckdb_drop_fulltext label) <$> fulltext))
  | DD_FalkorDb =>
      Ok ((falkor_drop_index label <$> fields) ++ ((λ _, "CALL db.idx.fulltext.drop('" +:+ label +:+ "')") <$> fulltext))
  | DD_Age =>
      if age_has_indexes node then
        Ok (((λ f, sql_drop (vector_name label f DD_Age)) <$> filter is_vector fields)
            ++ ((λ ft, sql_drop (fulltext_name label ft DD_Age)) <$> fulltext))
      else Err (age_error "Cypher 'DROP INDEX' queries. Indexes and constraints in Apache AGE must be defined directly on the underlying PostgreSQL relational tables.")
  | DD_Sql =>
      Ok (((λ f, sql_drop (sql_dropped_name label f DD_Sql)) <$> fields)
          ++ ((λ ft, sql_drop (fulltext_name label ft DD_Sql)) <$> fulltext))
  | DD_Cypher =>
      Ok (((λ f, drop_index (cypher_field_index_name label f)) <$> fields)
          ++ ((λ ft, drop_index (fulltext_name label ft DD_Cypher)) <$> fulltext))
  end.
Definition emit_rel_drop_index_ddl (rel : RelationshipSchema) (dialect : string) : result CoreErr (list string) :=
  ddl_dialect ← ensure_ddl_supported dialect DropIndex;
  let ty := rs_type_name rel in
  let fields := pure_fields (rs_fields rel) in
  let fulltext := rs_fulltext_indexes rel in
  match ddl_dialect with
  | DD_Memgraph => Ok ((memgraph_edge_index "DROP" ty <$> fields) ++ (memgraph_drop_fulltext ty <$> fulltext))
  | DD_DuckDb => Ok (((λ f, sql_drop (sql_index_name ty f)) <$> fields) ++ ((λ _, duckdb_drop_fulltext ty) <$> fulltext))
  | DD_FalkorDb =>
      if bool_decide (fulltext = []) then Ok (falkor_rel_index "DROP" ty <$> fields)
      else Err (falkor_error "Full-text indexes on relationships are not supported by FalkorDB.")
  | DD_Age => Err (age_error "Cypher 'DROP INDEX' queries on relationships. Indexes in Apache AGE must be defined directly on the underlying PostgreSQL relational tables.")
  | DD_Sql =>
      Ok (((λ f, sql_drop (sql_index_name ty f)) <$> fields) ++ ((λ ft, sql_drop (fulltext_name ty ft DD_Sql)) <$> fulltext))
  | DD_Cypher =>
      Ok (((λ f, drop_index (cypher_rel_index_name ty (fd_name f))) <$> fields)
          ++ ((λ ft, drop_index (fulltext_name ty ft DD_Cypher)) <$> fulltext))
  end.

(** ** Constraints *)
Definition memgraph_constraints (verb label : string) (f : FieldDescriptor) : list string :=
  when (negb (fd_nullable f)) (verb +:+ " CONSTRAINT ON " +:+ for_node label +:+ " ASSERT EXISTS (n." +:+ fd_name f +:+ ");")
  ++ when (fd_unique f || fd_primary_key f) (verb +:+ " CONSTRAINT ON " +:+ for_node label +:+ " ASSERT n." +:+ fd_name f +:+ " IS UNIQUE;").
Definition sql_constraint (action label : string) (f : FieldDescriptor) (rest : string) : list string :=
  when (fd_unique f && negb (fd_primary_key f))
    ("ALTER TABLE " +:+ escape_sql_ident (sql_table label) +:+ action +:+ "uq_" +:+ sql_table label +:+ "_" +:+ fd_name f +:+ rest +:+ ";").
Definition sql_add_constraint (label : string) (f : FieldDescriptor) : list string :=
  sql_constraint " ADD CONSTRAINT " label f (" UNIQUE (" +:+ escape_sql_ident (fd_name f) +:+ ")").
Definition sql_drop_constraint (label : string) (f : FieldDescriptor) : list string :=
  sql_constraint " DROP CONSTRAINT IF EXISTS " label f "".

Definition emit_node_constraint_ddl (node : NodeSchema) (dialect : string) (include_type_constraints : bool) :
    option (result CoreErr (list string)) :=
  let label := primary_label node in
  let fields := (ns_fields node).*2 in
  match ensure_ddl_supported dialect CreateConstraint with
  | Err e => Some (Err e)
  | Ok (DD_FalkorDb | DD_Age) => None
  | Ok DD_Memgraph => Some (Ok (fields ≫= memgraph_constraints "CREATE" label))
  | Ok (DD_Sql | DD_DuckDb) => Some (Ok (fields ≫= sql_add_constraint label))
  | Ok DD_Cypher =>
      let constraint f kind req :=
        create_constraint (cypher_constraint_name label (fd_name f) kind) (for_node label) ("n." +:+ fd_name f +:+ req) in
      Some (Ok (fields ≫= λ f,
        when (negb (fd_nullable f)) (constraint f "not_null" " IS NOT NULL")
        ++ when (fd_unique f || fd_primary_key f) (constraint f "unique" " IS UNIQUE")
        ++ when include_type_constraints (constraint f "type" (" :: " +:+ field_type_to_neo4j (fd_field_type f)))))
  end.
Definition emit_rel_constraint_ddl (rel : RelationshipSchema) (dialect : string) (include_type_constraints : bool) :
    option (result CoreErr (list string)) :=
  let ty := rs_type_name rel in
  let fields := (rs_fields rel).*2 in
  match ensure_ddl_supported dialect CreateConstraint with
  | Err e => Some (Err e)
  | Ok (DD_FalkorDb | DD_Age) => None
  | Ok DD_Memgraph => Some (Ok [])
  | Ok (DD_Sql | DD_DuckDb) => Some (Ok (fields ≫= sql_add_constraint ty))
  | Ok DD_Cypher =>
      let constraint f kind req :=
        create_constraint (cypher_rel_constraint_name ty (fd_name f) kind) (for_rel ty) ("r." +:+ fd_name f +:+ req) in
      Some (Ok (fields ≫= λ f,
        when (rel_required f) (constraint f "not_null" " IS NOT NULL")
        ++ when include_type_constraints (constraint f "type" (" :: " +:+ field_type_to_neo4j (fd_field_type f)))))
  end.
Definition emit_node_drop_constraint_ddl (node : NodeSchema) (dialect : string) (include_type_constraints : bool) :
    option (result CoreErr (list string)) :=
  let label := primary_label node in
  let fields := (ns_fields node).*2 in
  match ensure_ddl_supported dialect DropConstraint with
  | Err e => Some (Err e)
  | Ok (DD_FalkorDb | DD_Age) => None
  | Ok DD_Memgraph => Some (Ok (fields ≫= memgraph_constraints "DROP" label))
  | Ok (DD_Sql | DD_DuckDb) => Some (Ok (fields ≫= sql_drop_constraint label))
  | Ok DD_Cypher =>
      let constraint f kind := drop_constraint (cypher_constraint_name label (fd_name f) kind) in
      Some (Ok (fields ≫= λ f,
        when (negb (fd_nullable f)) (constraint f "not_null")
        ++ when (fd_unique f || fd_primary_key f) (constraint f "unique")
        ++ when include_type_constraints (constraint f "type")))
  end.
Definition emit_rel_drop_constraint_ddl (rel : RelationshipSchema) (dialect : string) (include_type_constraints : bool) :
    option (result CoreErr (list string)) :=
  let ty := rs_type_name rel in
  let fields := (rs_fields rel).*2 in
  match ensure_ddl_supported dialect DropConstraint with
  | Err e => Some (Err e)
  | Ok (DD_FalkorDb | DD_Age) => None
  | Ok DD_Memgraph => Some (Ok [])
  | Ok (DD_Sql | DD_DuckDb) => Some (Ok (fields ≫= sql_drop_constraint ty))
  | Ok DD_Cypher =>
      let constraint f kind := drop_constraint (cypher_rel_constraint_name ty (fd_name f) kind) in
      Some (Ok (fields ≫= λ f,
        when (rel_required f) (constraint f "not_null")
        ++ when include_type_constraints (constraint f "type")))
  end.

(** ** The registry's statements *)
Definition generate_cypher_ddl (include_type_constraints : bool) (s : SchemaRegistry) : list string :=
  (node_schemas s ≫= λ n, emit_cypher_node_ddl n include_type_constraints)
  ++ (relationship_schemas s ≫= λ r, emit_cypher_rel_ddl r include_type_constraints).
Definition generate_cypher_drop_ddl (include_type_constraints : bool) (s : SchemaRegistry) : list string :=
  (node_schemas s ≫= λ n, emit_cypher_drop_node_ddl n include_type_constraints)
  ++ (relationship_schemas s ≫= λ r, emit_cypher_drop_rel_ddl r include_type_constraints).

(** By model name, or else by label or type. *)
Definition node_of (name : string) (s : SchemaRegistry) : option NodeSchema :=
  match get_node name s with Some n => Some n | None => get_node_by_label name s end.
Definition rel_of (name : string) (s : SchemaRegistry) : option RelationshipSchema :=
  match get_relationship name s with Some r => Some r | None => get_relationship_by_type name s end.
Definition generate_node_cypher_ddl (name : string) (types : bool) (s : SchemaRegistry) : option (list string) :=
  n ← node_of name s; Some (emit_cypher_node_ddl n types).
Definition generate_rel_cypher_ddl (name : string) (types : bool) (s : SchemaRegistry) : option (list string) :=
  r ← rel_of name s; Some (emit_cypher_rel_ddl r types).
Definition generate_node_cypher_drop_ddl (name : string) (types : bool) (s : SchemaRegistry) : option (list string) :=
  n ← node_of name s; Some (emit_cypher_drop_node_ddl n types).
Definition generate_rel_cypher_drop_ddl (name : string) (types : bool) (s : SchemaRegistry) : option (list string) :=
  r ← rel_of name s; Some (emit_cypher_drop_rel_ddl r types).

Definition models (model_names : option (list string)) (s : SchemaRegistry) : list NodeSchema * list RelationshipSchema :=
  filter_models (node_schemas s) (relationship_schemas s) model_names.
Definition generate_gql_graph_type_ddl (graph_type_name : string) (s : SchemaRegistry) : string :=
  emit_gql_graph_type_ddl graph_type_name (node_schemas s) (relationship_schemas s).
Definition generate_gql_graph_type_ddl_for (graph_type_name : string) (names : list string) (s : SchemaRegistry) : string :=
  let '(nodes, rels) := models (Some names) s in emit_gql_graph_type_ddl graph_type_name nodes rels.
Definition generate_gql_alter_node_ddl (name : string) (s : SchemaRegistry) : option string :=
  n ← node_of name s; Some (emit_gql_alter_node_ddl n).
Definition generate_gql_alter_rel_ddl (name : string) (source_label target_label : option string) (s : SchemaRegistry) :
    option string := r ← rel_of name s; Some (emit_gql_alter_rel_ddl r source_label target_label).
Definition generate_cypher25_graph_type_ddl (s : SchemaRegistry) : string :=
  emit_cypher25_graph_type_ddl (node_schemas s) (relationship_schemas s).
Definition generate_cypher25_graph_type_ddl_for (names : list string) (s : SchemaRegistry) : string :=
  let '(nodes, rels) := models (Some names) s in emit_cypher25_graph_type_ddl nodes rels.
Definition generate_pgq_ddl (graph_name : string) (s : SchemaRegistry) : result CoreErr string :=
  emit_pgq_property_graph_ddl graph_name (node_schemas s) (relationship_schemas s).
Definition generate_pgq_ddl_for (graph_name : string) (names : list string) (s : SchemaRegistry) : result CoreErr string :=
  let '(nodes, rels) := models (Some names) s in emit_pgq_property_graph_ddl graph_name nodes rels.

(** [stmts.extend(..?)] for each schema: the first error ends it; [None] is a panic. *)
Fixpoint extend_each {A} (f : A → option (result CoreErr (list string))) (l : list A) (stmts : list string) :
    option (result CoreErr (list string)) :=
  match l with
  | [] => Some (Ok stmts)
  | x :: l => match f x with
              | None => None
              | Some (Err e) => Some (Err e)
              | Some (Ok more) => extend_each f l (stmts ++ more)
              end
  end.
Definition extend_models (f : NodeSchema → option (result CoreErr (list string)))
    (g : RelationshipSchema → option (result CoreErr (list string))) (model_names : option (list string))
    (s : SchemaRegistry) : option (result CoreErr (list string)) :=
  let '(nodes, rels) := models model_names s in
  match extend_each f nodes [] with
  | Some (Ok stmts) => extend_each g rels stmts
  | r => r
  end.
Definition generate_index_ddl (dialect : string) (model_names : option (list string)) (s : SchemaRegistry) :=
  extend_models (λ n, Some (emit_node_index_ddl n dialect)) (λ r, Some (emit_rel_index_ddl r dialect)) model_names s.
Definition generate_constraint_ddl (dialect : string) (model_names : option (list string)) (types : bool) (s : SchemaRegistry) :=
  extend_models (λ n, emit_node_constraint_ddl n dialect types) (λ r, emit_rel_constraint_ddl r dialect types) model_names s.
Definition generate_drop_index_ddl (dialect : string) (model_names : option (list string)) (s : SchemaRegistry) :=
  extend_models (λ n, Some (emit_node_drop_index_ddl n dialect)) (λ r, Some (emit_rel_drop_index_ddl r dialect)) model_names s.
Definition generate_drop_constraint_ddl (dialect : string) (model_names : option (list string)) (types : bool) (s : SchemaRegistry) :=
  extend_models (λ n, emit_node_drop_constraint_ddl n dialect types) (λ r, emit_rel_drop_constraint_ddl r dialect types) model_names s.
