(* ===== verification/DdlSafe.v ===== *)
(** * What the schema statements do together

    The statements that drop a schema undo those that create it, one by one and in every
    dialect; quoting identifiers is faithful; the branches that cannot happen do not happen. *)
From S2P Require Import Prelude Bytes F64 Errors Ast Text BTree Levenshtein Schema Ddl.

Open Scope Z_scope.
Open Scope string_scope.
Open Scope list_scope.

(** ** Statements that undo others

    The relation looks at the texts alone: what is created under a name, or on a label and a
    property, is dropped under that name, or there. *)
Inductive undoes : string → string → Prop :=
| undo_named_index kind name rest :
    undoes ("CREATE " +:+ kind +:+ "INDEX " +:+ name +:+ " IF NOT EXISTS FOR " +:+ rest) ("DROP INDEX " +:+ name +:+ " IF EXISTS")
| undo_named_constraint name rest :
    undoes ("CREATE CONSTRAINT " +:+ name +:+ " IF NOT EXISTS FOR " +:+ rest) ("DROP CONSTRAINT " +:+ name +:+ " IF EXISTS")
| undo_sql_index name table rest :
    undoes ("CREATE INDEX IF NOT EXISTS " +:+ name +:+ " ON " +:+ table +:+ rest +:+ ";") ("DROP INDEX IF EXISTS " +:+ name +:+ ";")
| undo_sql_constraint table name rest :
    undoes ("ALTER TABLE " +:+ table +:+ " ADD CONSTRAINT " +:+ name +:+ " UNIQUE (" +:+ rest)
           ("ALTER TABLE " +:+ table +:+ " DROP CONSTRAINT IF EXISTS " +:+ name +:+ ";")
| undo_fts_index table rest :
    undoes ("PRAGMA create_fts_index('" +:+ table +:+ "', " +:+ rest) ("PRAGMA drop_fts_index('" +:+ table +:+ "');")
| undo_memgraph_named kind kind' name rest :
    (kind', kind) ∈ [("VECTOR ", "VECTOR "); ("TEXT ", "TEXT "); ("TEXT EDGE ", "TEXT ")] →
    undoes ("CREATE " +:+ kind' +:+ "INDEX " +:+ name +:+ " ON :" +:+ rest) ("DROP " +:+ kind +:+ "INDEX " +:+ name +:+ ";")
| undo_memgraph kind target :
    kind ∈ ["INDEX ON :"; "EDGE INDEX ON :"; "CONSTRAINT ON "] →
    undoes ("CREATE " +:+ kind +:+ target) ("DROP " +:+ kind +:+ target)
| undo_falkor kind target rest :
    kind ∈ [""; "VECTOR "] →
    undoes ("CREATE " +:+ kind +:+ "INDEX FOR " +:+ target +:+ ")" +:+ rest) ("DROP " +:+ kind +:+ "INDEX FOR " +:+ target +:+ ")")
| undo_falkor_fulltext label rest :
    undoes ("CALL db.idx.fulltext.createNodeIndex('" +:+ label +:+ "', " +:+ rest) ("CALL db.idx.fulltext.drop('" +:+ label +:+ "')").

(** Two statement lists, one undoing the other; or both errors, where nothing is created. *)
Definition undone (create drop : result CoreErr (list string)) : Prop :=
  match create, drop with
  | Ok creates, Ok drops => Forall2 undoes creates drops
  | Err _, Err _ => True
  | _, _ => False
  end.

Lemma undoes_map {A} (f f' : A → string) l : (∀ x, x ∈ l → undoes (f x) (f' x)) → Forall2 undoes (f <$> l) (f' <$> l).
Proof.
  induction l as [|x l IH]; intros H; [constructor|]. cbn. constructor; [apply H; set_solver|apply IH; set_solver].
Qed.
Lemma undoes_maps {A B} (f f' : A → string) (g g' : B → string) l k :
  (∀ x, x ∈ l → undoes (f x) (f' x)) → (∀ y, undoes (g y) (g' y)) →
  Forall2 undoes ((f <$> l) ++ (g <$> k)) ((f' <$> l) ++ (g' <$> k)).
Proof. intros Hf Hg. apply Forall2_app; apply undoes_map; auto. Qed.
Lemma undoes_bind {A} (f f' : A → list string) l : (∀ x, Forall2 undoes (f x) (f' x)) → Forall2 undoes (l ≫= f) (l ≫= f').
Proof. intros H. induction l as [|x l IH]; [constructor|]. cbn. by apply Forall2_app. Qed.
Lemma undoes_when b s s' : undoes s s' → Forall2 undoes (when b s) (when b s').
Proof. destruct b; cbn; repeat constructor; done. Qed.

(** ** One statement each *)
Lemma undo_create_index kind name pattern on : undoes (create_index kind name pattern on) (drop_index name).
Proof. exact (undo_named_index kind name (pattern +:+ " ON " +:+ on)). Qed.
Lemma undo_create_constraint name pattern req : undoes (create_constraint name pattern req) (drop_constraint name).
Proof. exact (undo_named_constraint name (pattern +:+ " REQUIRE " +:+ req)). Qed.
Lemma undo_sql_create name table rest : undoes (sql_create name table rest) (sql_drop name).
Proof. exact (undo_sql_index name table rest). Qed.
Lemma undo_cypher_field label f : undoes (cypher_field_index label f) (drop_index (cypher_field_index_name label f)).
Proof. unfold cypher_field_index. destruct (vector_settings f DD_Cypher). destruct (fd_index_type f) as [[]|]; apply undo_create_index. Qed.
(** The name of an index is given by a configuration only for a vector index. *)
Definition named_as_vector (f : FieldDescriptor) : Prop := custom_name f ≠ None → is_vector f = true.

Lemma dropped_name label f d :
  named_as_vector f → sql_dropped_name label f d = if is_vector f then vector_name label f d else sql_index_name label f.
Proof.
  unfold named_as_vector, sql_dropped_name, vector_name. destruct (custom_name f); [|by destruct (is_vector f)].
  intros ->; done.
Qed.
Lemma undo_duckdb_field label f :
  named_as_vector f → undoes (duckdb_index label f) (sql_drop (sql_dropped_name label f DD_DuckDb)).
Proof. intros ->%(dropped_name label _ DD_DuckDb). unfold duckdb_index. destruct (is_vector f); apply undo_sql_create. Qed.
Lemma undo_sql_field label f :
  named_as_vector f → undoes (sql_index label f) (sql_drop (sql_dropped_name label f DD_Sql)).
Proof. intros ->%(dropped_name label _ DD_Sql). unfold sql_index. destruct (is_vector f); apply undo_sql_create. Qed.

Lemma undo_memgraph_field label f : undoes (memgraph_index label f) (memgraph_drop_index label f).
Proof.
  unfold memgraph_index, memgraph_drop_index. destruct (is_vector f).
  - destruct (vector_settings f DD_Memgraph) as [dims metric].
    apply (undo_memgraph_named "VECTOR " "VECTOR "). set_solver.
  - apply (undo_memgraph "INDEX ON :"). set_solver.
Qed.
Lemma undo_memgraph_fulltext kind label ft :
  kind ∈ [""; "EDGE "] → undoes (memgraph_fulltext kind label ft) (memgraph_drop_fulltext label ft).
Proof.
  intros Hk. repeat setoid_rewrite elem_of_cons in Hk.
  destruct Hk as [->|[->|Hk]]; [..|by apply not_elem_of_nil in Hk];
    [apply (undo_memgraph_named "TEXT " "TEXT ")|apply (undo_memgraph_named "TEXT " "TEXT EDGE ")]; set_solver.
Qed.
Lemma undo_falkor_field label f : undoes (falkor_index label f) (falkor_drop_index label f).
Proof.
  unfold falkor_index, falkor_drop_index. destruct (is_vector f).
  - destruct (vector_settings f DD_FalkorDb) as [dims metric].
    pose proof (undo_falkor "VECTOR " (for_node label +:+ " ON (n." +:+ fd_name f)
      (" OPTIONS {dimension: " +:+ num dims +:+ ", similarityFunction: '" +:+ metric +:+ "'}") ltac:(set_solver)) as H.
    rewrite !string_app_assoc in H. exact H.
  - pose proof (undo_falkor "" (for_node label +:+ " ON (n." +:+ fd_name f) "" ltac:(set_solver)) as H.
    rewrite !string_app_assoc in H. exact H.
Qed.
Lemma undo_falkor_rel ty f : undoes (falkor_rel_index "CREATE" ty f) (falkor_rel_index "DROP" ty f).
Proof.
  pose proof (undo_falkor "" (for_rel ty +:+ " ON (r." +:+ fd_name f) "" ltac:(set_solver)) as H.
  rewrite !string_app_assoc in H. exact H.
Qed.
Lemma undo_sql_constraints label f : Forall2 undoes (sql_add_constraint label f) (sql_drop_constraint label f).
Proof.
  unfold sql_add_constraint, sql_drop_constraint, sql_constraint. apply undoes_when.
  pose proof (undo_sql_constraint (escape_sql_ident (sql_table label)) ("uq_" +:+ sql_table label +:+ "_" +:+ fd_name f)
    (escape_sql_ident (fd_name f) +:+ ");")) as H.
  rewrite !string_app_assoc in H. rewrite !string_app_assoc. exact H.
Qed.
Lemma undo_memgraph_constraints label f :
  Forall2 undoes (memgraph_constraints "CREATE" label f) (memgraph_constraints "DROP" label f).
Proof. apply Forall2_app; apply undoes_when; apply (undo_memgraph "CONSTRAINT ON "); set_solver. Qed.
Lemma undo_edge_index ty f : undoes (memgraph_edge_index "CREATE" ty f) (memgraph_edge_index "DROP" ty f).
Proof. apply (undo_memgraph "EDGE INDEX ON :"). set_solver. Qed.
Lemma undo_cypher_fulltext label pattern var ft :
  undoes (cypher_fulltext label pattern var ft) (drop_index (fulltext_name label ft DD_Cypher)).
Proof. apply undo_create_index. Qed.
Lemma undo_sql_fulltext label ft : undoes (sql_fulltext label ft) (sql_drop (fulltext_name label ft DD_Sql)).
Proof. apply undo_sql_create. Qed.
Lemma undo_duckdb_fulltext label pk ft : undoes (duckdb_fulltext label pk ft) (duckdb_drop_fulltext label).
Proof. apply undo_fts_index. Qed.
Lemma undo_falkor_call label ft :
  undoes (falkor_fulltext label ft) ("CALL db.idx.fulltext.drop('" +:+ label +:+ "')").
Proof. apply undo_falkor_fulltext. Qed.
Lemma undo_sql_plain label f : undoes (sql_plain_index label f) (sql_drop (sql_index_name label f)).
Proof. apply undo_sql_create. Qed.
Lemma undo_cypher_rel ty f : undoes (cypher_rel_index ty f) (drop_index (cypher_rel_index_name ty (fd_name f))).
Proof. apply undo_create_index. Qed.
#[local] Hint Resolve undo_cypher_fulltext undo_sql_fulltext undo_duckdb_fulltext undo_falkor_call undo_sql_plain
  undo_cypher_rel : undoes.
#[local] Hint Extern 1 (undoes (memgraph_fulltext _ _ _) _) => apply undo_memgraph_fulltext; set_solver : undoes.
#[local] Hint Resolve undo_create_index undo_create_constraint undo_sql_create undo_cypher_field undo_duckdb_field undo_sql_field
  undo_memgraph_field undo_falkor_field undo_falkor_rel undo_edge_index undoes_when undo_sql_constraints
  undo_memgraph_constraints : undoes.

(** ** One schema each *)
Definition named_as_vectors (fields : btree FieldDescriptor) : Prop := ∀ f, f ∈ fields.*2 → named_as_vector f.

Lemma pure_fields_named fields f : named_as_vectors fields → f ∈ pure_fields fields → named_as_vector f.
Proof. intros Hn [_ Hin]%list_elem_of_filter. by apply Hn. Qed.

(** The four operations agree on what a dialect supports. *)
Lemma supported_same dialect :
  ensure_ddl_supported dialect CreateIndex = ensure_ddl_supported dialect DropIndex ∧
  ∃ d, ensure_ddl_supported dialect CreateIndex = Ok d ∧
    match d with
    | DD_Age | DD_FalkorDb => ∃ e e', ensure_ddl_supported dialect CreateConstraint = Err e ∧
                                      ensure_ddl_supported dialect DropConstraint = Err e'
    | _ => ensure_ddl_supported dialect CreateConstraint = Ok d ∧ ensure_ddl_supported dialect DropConstraint = Ok d
    end.
Proof. unfold ensure_ddl_supported. repeat case_bool_decide; (split; [done|]); eexists; (split; [reflexivity|]);
  first [split; reflexivity|do 2 eexists; split; reflexivity].
Qed.

Lemma node_indexes_undone node dialect :
  named_as_vectors (ns_fields node) → undone (emit_node_index_ddl node dialect) (emit_node_drop_index_ddl node dialect).
Proof.
  intros Hn. unfold emit_node_index_ddl, emit_node_drop_index_ddl.
  destruct (supported_same dialect) as (<- & d & -> & _). cbn [mbind result_bind].
  pose proof (λ f, pure_fields_named _ f Hn) as Hp.
  destruct d; cbn [undone]; try (apply undoes_maps; intros; auto with undoes).
  destruct (age_has_indexes node); [|done]. apply undoes_maps; intros; apply undo_sql_create.
Qed.
Lemma rel_indexes_undone rel dialect : undone (emit_rel_index_ddl rel dialect) (emit_rel_drop_index_ddl rel dialect).
Proof.
  unfold emit_rel_index_ddl, emit_rel_drop_index_ddl.
  destruct (supported_same dialect) as (<- & d & -> & _). cbn [mbind result_bind].
  destruct d; cbn [undone]; try done; try (apply undoes_maps; intros; auto with undoes).
  case_bool_decide; [|done]. apply undoes_map. auto with undoes.
Qed.

Lemma node_constraints_undone node dialect types :
  ∃ c d, emit_node_constraint_ddl node dialect types = Some c ∧ emit_node_drop_constraint_ddl node dialect types = Some d ∧
    undone c d.
Proof.
  unfold emit_node_constraint_ddl, emit_node_drop_constraint_ddl.
  destruct (supported_same dialect) as (_ & d & _ & Hc).
  destruct d; first [destruct Hc as [-> ->]|destruct Hc as (? & ? & -> & ->)]; do 2 eexists; (split; [reflexivity|]); (split; [reflexivity|]); cbn [undone]; try done;
    apply undoes_bind; intros f; auto with undoes.
  repeat apply Forall2_app; auto with undoes.
Qed.
Lemma rel_constraints_undone rel dialect types :
  ∃ c d, emit_rel_constraint_ddl rel dialect types = Some c ∧ emit_rel_drop_constraint_ddl rel dialect types = Some d ∧
    undone c d.
Proof.
  unfold emit_rel_constraint_ddl, emit_rel_drop_constraint_ddl.
  destruct (supported_same dialect) as (_ & d & _ & Hc).
  destruct d; first [destruct Hc as [-> ->]|destruct Hc as (? & ? & -> & ->)]; do 2 eexists; (split; [reflexivity|]); (split; [reflexivity|]); cbn [undone]; try done;
    apply undoes_bind; intros f; auto with undoes.
  repeat apply Forall2_app; auto with undoes.
Qed.

(** ** The registry *)
Definition undone_run (c d : option (result CoreErr (list string))) : Prop :=
  ∃ creates drops, c = Some creates ∧ d = Some drops ∧ undone creates drops.

Lemma extend_each_undone {A} (f g : A → option (result CoreErr (list string))) l : ∀ creates drops,
  (∀ x, x ∈ l → undone_run (f x) (g x)) → Forall2 undoes creates drops →
  undone_run (extend_each f l creates) (extend_each g l drops).
Proof.
  induction l as [|x l IH]; intros creates drops Hx Ha; cbn [extend_each]; [by do 2 eexists|].
  destruct (Hx x) as ([c|e] & [d|e'] & -> & -> & Hu); [set_solver|..]; try done.
  - apply IH; [set_solver|]. by apply Forall2_app.
  - by do 2 eexists.
Qed.

Lemma models_subset names s :
  (models names s).1 ⊆ node_schemas s ∧ (models names s).2 ⊆ relationship_schemas s.
Proof. unfold models, filter_models. destruct names; [|done]. split; intros x [_ Hx]%list_elem_of_filter; done. Qed.

Lemma extend_models_undone f f' g g' names s :
  (∀ n, n ∈ node_schemas s → undone_run (f n) (f' n)) → (∀ r, undone_run (g r) (g' r)) →
  undone_run (extend_models f g names s) (extend_models f' g' names s).
Proof.
  intros Hn Hr. unfold extend_models. destruct (models_subset names s) as [Hs _]. destruct (models names s) as [nodes rels].
  cbn [fst] in Hs. destruct (extend_each_undone f f' nodes [] []) as ([c|e] & [d|e'] & -> & -> & Hu); try done.
  - intros n Hin. by apply Hn, Hs.
  - by apply extend_each_undone.
  - by do 2 eexists.
Qed.

(** Every statement of the first list is undone by some statement of the second. *)
Definition covered (creates drops : list string) : Prop := Forall (λ c, Exists (undoes c) drops) creates.

Lemma covered_app c c' d d' : covered c d → covered c' d' → covered (c ++ c') (d ++ d').
Proof.
  intros H H'. apply Forall_app. split; (eapply Forall_impl; [eassumption|]); intros x Hx; apply Exists_app; auto.
Qed.
Lemma covered_bind {A} (f g : A → list string) l : (∀ x, covered (f x) (g x)) → covered (l ≫= f) (l ≫= g).
Proof. intros H. induction l as [|x l IH]; [constructor|]. cbn. by apply covered_app. Qed.
Lemma covered_when b b' c d : (b = true → b' = true) → undoes c d → covered (when b c) (when b' d).
Proof. intros Hb Hu. destruct b; [rewrite Hb by done|]; cbn; repeat constructor; done. Qed.
Lemma covered_map {A} (f g : A → string) l : (∀ x, undoes (f x) (g x)) → covered (f <$> l) (g <$> l).
Proof.
  intros H. induction l as [|x l IH]; [constructor|]. cbn. constructor; [by constructor|].
  eapply Forall_impl; [exact IH|]. intros c Hc. by apply Exists_cons_tl.
Qed.

Lemma cypher_node_covered node types : covered (emit_cypher_node_ddl node types) (emit_cypher_drop_node_ddl node types).
Proof.
  apply covered_app; [|apply covered_map; auto with undoes]. apply covered_bind. intros f.
  repeat apply covered_app; apply covered_when; auto with undoes.
  unfold is_pure_index_field. by intros [[? _]%andb_true_iff _]%andb_true_iff.
Qed.
Lemma cypher_rel_covered rel types : covered (emit_cypher_rel_ddl rel types) (emit_cypher_drop_rel_ddl rel types).
Proof.
  apply covered_app; [|apply covered_map; auto with undoes]. apply covered_bind. intros f.
  repeat apply covered_app; apply covered_when; auto with undoes.
Qed.

(** C28: Where the node fields with an index name of their own are vector indexes, as
    [with_vector_index] makes them: in every dialect, for all models or some of them, the
    generated statements that drop indexes and constraints undo one by one those that create
    them, or both lists are refused; nothing panics.  The full openCypher script that drops a
    schema undoes each statement of the one that creates it.  A named index that is given another
    type afterwards is created under one name and dropped under another
    ([retyped_index_is_not_dropped]). *)
Theorem drop_undoes_create s dialect names types :
  (∀ n, n ∈ node_schemas s → named_as_vectors (ns_fields n)) →
  undone_run (generate_index_ddl dialect names s) (generate_drop_index_ddl dialect names s) ∧
  undone_run (generate_constraint_ddl dialect names types s) (generate_drop_constraint_ddl dialect names types s) ∧
  covered (generate_cypher_ddl types s) (generate_cypher_drop_ddl types s).
Proof.
  intros Hn. split; [|split].
  - apply extend_models_undone.
    + intros n Hin. do 2 eexists. split; [done|]. split; [done|]. by apply node_indexes_undone, Hn.
    + intros r. do 2 eexists. split; [done|]. split; [done|]. apply rel_indexes_undone.
  - apply extend_models_undone; intros; [apply node_constraints_undone|apply rel_constraints_undone].
  - apply covered_app; apply covered_bind; intros; [apply cypher_node_covered|apply cypher_rel_covered].
Qed.

(** ** Identifiers *)

(** What a SQL server reads of a quoted identifier: a doubled quote is a quote, a single one ends it. *)
Fixpoint read_quoted (l : list byte) : option (list byte * list byte) :=
  match l with
  | [] => None
  | x22 :: x22 :: l => '(id, rest) ← read_quoted l; Some (x22 :: id, rest)
  | x22 :: l => Some ([], l)
  | b :: l => '(id, rest) ← read_quoted l; Some (b :: id, rest)
  end.
Definition read_ident (l : list byte) : option (list byte * list byte) :=
  match l with x22 :: l => read_quoted l | _ => None end.

Lemma read_quoted_other b l : b ≠ x22 → read_quoted (b :: l) = ('(id, rest) ← read_quoted l; Some (b :: id, rest)).
Proof. by destruct b. Qed.

(** Any name that is quoted reaches the server as it is, and ends where it should. *)
Lemma quoted_ident_read ident rest :
  head rest ≠ Some x22 → read_ident (as_bytes (escape_sql_ident ident) ++ rest) = Some (as_bytes ident, rest).
Proof.
  intros Hr. unfold escape_sql_ident. rewrite !as_bytes_app, as_bytes_of_bytes. unfold dq. rewrite as_bytes_of_bytes.
  rewrite <- !app_assoc. cbn [app read_ident]. induction (as_bytes ident) as [|b l IH].
  - destruct rest as [|b rest]; [done|]. cbn [app mbind list_bind]. cbn. destruct b; try done.
  - change ((b :: l) ≫= ?f) with (f b ++ (l ≫= f)). cbv beta. case_bool_decide as Hb.
    + subst. cbn [app]. cbn [read_quoted]. by rewrite IH.
    + cbn [app]. rewrite read_quoted_other by done. by rewrite IH.
Qed.

(** ** Concrete schemas *)
Definition docs : SchemaRegistry :=
  (register_node
     (ns_with_fulltext_index (FullTextIndexConfig_new "" ["title"; "body"])
        (ns_with_field (with_vector_index 384 Dot (Some "doc_vec") (FieldDescriptor_new "vec" (FT_List FT_Float64)))
           (ns_with_field (primary_key (FieldDescriptor_new "id" FT_Int64))
              (ns_with_field (indexed (FieldDescriptor_new "title" FT_String)) (NodeSchema_new "Doc" ["Doc"])))))
     SchemaRegistry_new).2.

Example docs_created :
  generate_cypher_ddl false docs =
    ["CREATE CONSTRAINT constraint_doc_id_not_null IF NOT EXISTS FOR (n:Doc) REQUIRE n.id IS NOT NULL";
     "CREATE CONSTRAINT constraint_doc_id_unique IF NOT EXISTS FOR (n:Doc) REQUIRE n.id IS UNIQUE";
     "CREATE INDEX index_doc_title IF NOT EXISTS FOR (n:Doc) ON (n.title)";
     "CREATE VECTOR INDEX doc_vec IF NOT EXISTS FOR (n:Doc) ON (n.vec) OPTIONS {indexConfig: {`vector.dimensions`: 384, `vector.similarity_function`: 'cosine'}}";
     "CREATE FULLTEXT INDEX index_doc_title_body IF NOT EXISTS FOR (n:Doc) ON EACH [n.title, n.body]"].
Proof. vm_compute. reflexivity. Qed.

Example docs_created_in_sql :
  generate_drop_index_ddl "postgres" None docs =
    Some (Ok ["DROP INDEX IF EXISTS idx_doc_title;"; "DROP INDEX IF EXISTS doc_vec;"; "DROP INDEX IF EXISTS idx_doc_title_body_fts;"]).
Proof. vm_compute. reflexivity. Qed.

Lemma docs_named n : n ∈ node_schemas docs → named_as_vectors (ns_fields n).
Proof.
  intros Hn. vm_compute in Hn. apply list_elem_of_singleton in Hn as ->. intros f Hf. cbn in Hf.
  repeat (apply elem_of_cons in Hf as [->|Hf]; [by intros Hc; vm_compute in Hc |- *|]). set_solver.
Qed.

Lemma drop_undoes_create_witness :
  undone_run (generate_index_ddl "postgres" None docs) (generate_drop_index_ddl "postgres" None docs) ∧
  length (generate_cypher_ddl true docs) = 8%nat.
Proof. split; [apply (drop_undoes_create docs "postgres" None true docs_named)|reflexivity]. Defined.

(** A vector index that is turned into a plain one keeps its configuration: created under one
    name, dropped under another. *)
Example retyped_index_is_not_dropped :
  let s := (register_node
    (ns_with_field (indexed (with_vector_index 8 Cosine (Some "vecs") (FieldDescriptor_new "v" FT_Any))) (NodeSchema_new "Doc" ["Doc"]))
    SchemaRegistry_new).2 in
  generate_index_ddl "duckdb" None s
    = Some (Ok ["CREATE INDEX IF NOT EXISTS idx_doc_v ON " +:+ dq +:+ "doc" +:+ dq +:+ " (" +:+ dq +:+ "v" +:+ dq +:+ ");"]) ∧
  generate_drop_index_ddl "duckdb" None s = Some (Ok ["DROP INDEX IF EXISTS vecs;"]).
Proof. vm_compute. done. Qed.

(** Vertex tables are named after models, edge tables refer to labels: with a model [UserModel]
    of the label [User] the edge refers to a table that is not there. *)
Example property_graph_dangles :
  emit_pgq_property_graph_ddl "g"
    [ns_with_field (primary_key (FieldDescriptor_new "uid" FT_Int64)) (NodeSchema_new "UserModel" ["User"])]
    [with_endpoints ["User"] ["User"] (RelationshipSchema_new "Knows" "KNOWS")]
  = Ok ("CREATE PROPERTY GRAPH g" +:+ nl +:+ "  VERTEX TABLES (" +:+ nl +:+ "    usermodel KEY (uid) LABEL User PROPERTIES (uid)" +:+ nl
        +:+ "  )" +:+ nl +:+ "  EDGE TABLES (" +:+ nl +:+ "    knows" +:+ nl
        +:+ "      SOURCE KEY (user_id) REFERENCES user (uid)" +:+ nl
        +:+ "      DESTINATION KEY (user_id) REFERENCES user (uid)" +:+ nl +:+ "      LABEL KNOWS" +:+ nl +:+ "  );").
Proof. vm_compute. reflexivity. Qed.

(** Two constraints of one name: the second [CREATE .. IF NOT EXISTS] does nothing. *)
Example constraint_names_collide :
  cypher_constraint_name "User" "group_id" "unique" = cypher_constraint_name "User_Group" "id" "unique".
Proof. reflexivity. Qed.

(** A label reaches the table name of Apache AGE as it is. *)
Example age_table_is_not_quoted :
  age_table ("x" +:+ dq +:+ "; DROP TABLE t; --") = "ag_catalog." +:+ dq +:+ "x" +:+ dq +:+ "; DROP TABLE t; --" +:+ dq.
Proof. reflexivity. Qed.
