(* ===== verification/Topology.v ===== *)
(** * The topology of a query ([voyager-core/src/topology.rs], from an arena)

    [from_arena] walks the patterns of a query and collects its nodes and edges.  The walk
    is recursive over handles: [None] is the end of its fuel, which is no result of the
    program.  The parser of query texts ([from_query_str]) is in [TopologyText]. *)
From S2P Require Import Prelude Bytes F64 Errors Ast Text BTree.

Open Scope Z_scope.
Open Scope string_scope.
Open Scope list_scope.

(** ** Data *)
Record TopologyNode := mkTNode {
  tn_id : string;
  tn_label : string;
  tn_labels : list string;
  tn_group : string;
  tn_size : Z;
  tn_properties : btree LiteralValue;
  tn_data : btree LiteralValue;
  tn_label_expression : option LabelExpression;
}.

Definition TopologyNode_new (id label : string) : TopologyNode :=
  mkTNode id label (if bool_decide (label = "") then [] else [label])
    (if bool_decide (label = "") then "Entity" else label) 11 [] []
    (if bool_decide (label = "") then None else Some (LabelName label)).

Record TopologyEdge := mkTEdge {
  te_id : string;
  te_source : string;
  te_target : string;
  te_label : string;
  te_types : list string;
  te_direction : Direction;
  te_color : string;
  te_min_hops : option Z;
  te_max_hops : option Z;
  te_properties : btree LiteralValue;
  te_data : btree LiteralValue;
  te_label_expression : option LabelExpression;
}.

Definition TopologyEdge_new (id source target label : string) (direction : Direction) : TopologyEdge :=
  mkTEdge id source target (if bool_decide (label = "") then "CONNECTED_TO" else label)
    (if bool_decide (label = "") then [] else [label]) direction "#64748b" None None [] []
    (if bool_decide (label = "") then None else Some (LabelName label)).

Record GraphTopology := mkTopology { t_version : Z; t_nodes : list TopologyNode; t_edges : list TopologyEdge }.
Definition GraphTopology_new : GraphTopology := mkTopology 1 [] [].

(** ** The walk: the paths and the filters of a query, in the order they are found *)
Inductive Found := FoundPath (h : NodeHandle) | FoundWhere (h : NodeHandle).

Definition found_path (f : Found) : option NodeHandle := match f with FoundPath h => Some h | _ => None end.
Definition found_where (f : Found) : option NodeHandle := match f with FoundWhere h => Some h | _ => None end.

(** Both parts, and a loop, of which each may run out of fuel. *)
Definition both {A} (l r : option (list A)) : option (list A) := x ← l; y ← r; Some (x ++ y).
Fixpoint each {A B} (f : A → option (list B)) (l : list A) : option (list B) :=
  match l with [] => Some [] | x :: l => both (f x) (each f l) end.
Definition maybe {A B} (f : A → option (list B)) (o : option A) : option (list B) :=
  match o with Some x => f x | None => Some [] end.

Section walk.
Context (arena : QueryAstArena).

Fixpoint collect_paths_and_wheres_from_root (fuel : nat) (root : NodeHandle) : option (list Found) :=
  match fuel with
  | O => None
  | S fuel =>
      let collect := collect_paths_and_wheres_from_root fuel in
      let descend := descend_expression_for_subqueries fuel in
      let filter_of wh := both (Some [FoundWhere wh]) (descend wh) in
      match arena_get arena root with
      | Ok (QueryStatement _ _ _ matches _ with_clauses mutations _) =>
          both (each collect matches)
            (both (each collect mutations)
               (each (λ with_h, match arena_get arena with_h with
                                | Ok (WithClause _ _ _ _ _ (Some wh)) => filter_of wh
                                | _ => Some []
                                end) with_clauses))
      | Ok (MatchClause _ match_paths where_clause) =>
          both (Some (FoundPath <$> match_paths)) (maybe filter_of where_clause)
      | Ok (CreateClause create_paths) => Some (FoundPath <$> create_paths)
      | Ok (MergeClause path _ _) => Some [FoundPath path]
      | Ok (PathChain _ _ _ _) | Ok (NodePattern _ _ _) => Some [FoundPath root]
      | Ok (WhereClause root_predicate) => both (Some [FoundWhere root]) (descend root_predicate)
      | Ok (ExistsSubquery subquery) | Ok (CountSubquery subquery) => collect subquery
      | _ => Some []
      end
  end
with descend_expression_for_subqueries (fuel : nat) (handle : NodeHandle) : option (list Found) :=
  match fuel with
  | O => None
  | S fuel =>
      let collect := collect_paths_and_wheres_from_root fuel in
      let descend := descend_expression_for_subqueries fuel in
      match arena_get arena handle with
      | Ok (WhereClause root_predicate) => descend root_predicate
      | Ok (BinaryExpression l _ r) => both (descend l) (descend r)
      | Ok (UnaryExpression _ operand) => descend operand
      | Ok (FunctionCall _ arguments) => each descend arguments
      | Ok (ListLiteral items) => each descend items
      | Ok (CaseExpression operand branches else_branch) =>
          both (maybe descend operand)
            (both (each (λ wt, both (descend wt.1) (descend wt.2)) branches) (maybe descend else_branch))
      | Ok (ListComprehension _ list_expression where_filter map_expression) =>
          both (descend list_expression) (both (maybe descend where_filter) (maybe descend map_expression))
      | Ok (PatternComprehension path where_filter projection) =>
          both (collect path) (both (maybe descend where_filter) (descend projection))
      | Ok (PropertyAccess target _) => descend target
      | Ok (SetItem _ value _) => descend value
      | Ok (UnwindClause expression _) => descend expression
      | Ok (ProcedureCall _ _ _ arguments _) => each descend arguments
      | Ok (ExistsSubquery subquery) | Ok (CountSubquery subquery) => collect subquery
      | _ => Some []
      end
  end.

(** Without a root every clause of the arena is inspected. *)
Definition collect_all : list Found :=
  concat (zip_with (λ idx node,
    let h := as_unsigned 32 (Z.of_nat idx) in
    match node with
    | MatchClause _ paths where_clause => (FoundPath <$> paths) ++ (FoundWhere <$> option_list where_clause)
    | CreateClause paths => FoundPath <$> paths
    | MergeClause path _ _ => [FoundPath path]
    | PathChain _ _ _ _ => [FoundPath h]
    | WhereClause _ => [FoundWhere h]
    | _ => []
    end) (seq 0 (length (nodes arena))) (nodes arena)).

(** ** Nodes and edges *)

(** The state of the extraction. *)
Record Extraction := mkExtraction {
  nodes_map : gmap string TopologyNode;
  nodes_order : list string;
  x_edges : list TopologyEdge;
  node_counter : Z;
  edge_counter : Z;
}.
Definition Extraction_new : Extraction := mkExtraction ∅ [] [] 0 0.

Definition set_map (m : gmap string TopologyNode) (x : Extraction) : Extraction :=
  mkExtraction m (nodes_order x) (x_edges x) (node_counter x) (edge_counter x).
Definition push_node (id : string) (n : TopologyNode) (x : Extraction) : Extraction :=
  mkExtraction (<[id := n]> (nodes_map x)) (nodes_order x ++ [id]) (x_edges x) (node_counter x) (edge_counter x).
Definition count_node (x : Extraction) : Extraction :=
  mkExtraction (nodes_map x) (nodes_order x) (x_edges x) (node_counter x + 1) (edge_counter x).
Definition count_edge (x : Extraction) : Extraction :=
  mkExtraction (nodes_map x) (nodes_order x) (x_edges x) (node_counter x) (edge_counter x + 1).
Definition set_edges (es : list TopologyEdge) (x : Extraction) : Extraction :=
  mkExtraction (nodes_map x) (nodes_order x) es (node_counter x) (edge_counter x).

(** A property compared with a literal, on either side. *)
Definition equality_of (p_h : NodeHandle) : option (string * LiteralValue) :=
  match arena_get arena p_h with
  | Ok (BinaryExpression l Eq r) =>
      match arena_get arena l, arena_get arena r with
      | Ok (PropertyAccess _ property), Ok (Literal lit) => Some (property, lit)
      | Ok (Literal lit), Ok (PropertyAccess _ property) => Some (property, lit)
      | _, _ => None
      end
  | _ => None
  end.
Definition extract_predicates_to_props (predicates : list NodeHandle) : btree LiteralValue :=
  foldl (λ props p_h, match equality_of p_h with Some (k, v) => bt_insert k v props | None => props end) [] predicates.

Definition insert_all (kvs m : btree LiteralValue) : btree LiteralValue := foldl (λ m kv, bt_insert kv.1 kv.2 m) m kvs.
Definition labels_of (e : option LabelExpression) : list string := default [] (collect_labels <$> e).
Definition push_labels (new old : list string) : list string := foldl (λ acc l, push_new l acc) old new.
Definition or_expression (old new : option LabelExpression) : option LabelExpression :=
  match old with Some _ => old | None => new end.
Definition with_variable (v : option string) (data : btree LiteralValue) : btree LiteralValue :=
  match v with Some v => bt_insert "variable" (LString v) data | None => data end.

(** The name of a node without a variable, or with an empty one. *)
Definition generated_id `{LowerCase} (primary_label : option string) (counter : Z) : string :=
  match primary_label with
  | Some lbl => to_lowercase lbl +:+ "_" +:+ num counter
  | None => "n" +:+ num counter
  end.

Definition extract_node_pattern `{LowerCase} (variable : option string) (label_expression : option LabelExpression)
    (predicates : list NodeHandle) (x : Extraction) : string * Extraction :=
  let labels := labels_of label_expression in
  let primary_label := head labels in
  let node_id :=
    match variable with
    | Some v => if bool_decide (v = "") then generated_id primary_label (node_counter x) else v
    | None => generated_id primary_label (node_counter x)
    end in
  let props := extract_predicates_to_props predicates in
  (node_id,
   match nodes_map x !! node_id with
   | Some node =>
       set_map (<[node_id := mkTNode (tn_id node) (tn_label node) (push_labels labels (tn_labels node))
                  (tn_group node) (tn_size node) (insert_all props (tn_properties node))
                  (insert_all props (tn_data node))
                  (or_expression (tn_label_expression node) label_expression)]> (nodes_map x)) x
   | None =>
       let display_label := default node_id (match primary_label with Some l => Some l | None => variable end) in
       push_node node_id
         (mkTNode node_id display_label labels (default "Entity" primary_label) 11 props
            (with_variable variable props) label_expression) x
   end).

(** A handle that is no node pattern still stands for a node. *)
Definition extract_placeholder (x : Extraction) : string * Extraction :=
  let id := "n" +:+ num (node_counter x) in
  (id, if bool_decide (is_Some (nodes_map x !! id)) then x else push_node id (TopologyNode_new id id) x).

Definition extract_node_from_handle `{LowerCase} (handle : NodeHandle) (x : Extraction) : string * Extraction :=
  match arena_get arena handle with
  | Ok (NodePattern variable label_expression predicates) =>
      extract_node_pattern variable label_expression predicates (count_node x)
  | _ => extract_placeholder (count_node x)
  end.

(** [edges.iter_mut().find(|e| e.id == id)]: the first edge of this name is changed. *)
Fixpoint update_edge (id : string) (f : TopologyEdge → TopologyEdge) (es : list TopologyEdge) :
    option (list TopologyEdge) :=
  match es with
  | [] => None
  | e :: es => if decide (te_id e = id) then Some (f e :: es) else cons e <$> update_edge id f es
  end.

Definition merge_edge (types : list string) (label_expression : option LabelExpression)
    (props : btree LiteralValue) (e : TopologyEdge) : TopologyEdge :=
  mkTEdge (te_id e) (te_source e) (te_target e) (te_label e) (push_labels types (te_types e)) (te_direction e)
    (te_color e) (te_min_hops e) (te_max_hops e) (insert_all props (te_properties e))
    (insert_all props (te_data e)) (or_expression (te_label_expression e) label_expression).

(** One hop: from [current_id] over the edge pattern at [edge_h]; the node it leads to. *)
Definition extract_hop `{LowerCase} (st : string * Extraction) (edge_h : NodeHandle) : string * Extraction :=
  let '(current_id, x) := st in
  match arena_get arena edge_h with
  | Ok (EdgePattern variable label_expression direction min_hops max_hops predicates target_node) =>
      let '(next_id, x) := extract_node_from_handle target_node x in
      let x := count_edge x in
      let edge_id := default ("rel_" +:+ num (edge_counter x)) variable in
      let edge_types := labels_of label_expression in
      let primary_label := default "CONNECTED_TO" (head edge_types) in
      let '(src, tgt) := match direction with
                         | DirOutgoing | DirUndirected => (current_id, next_id)
                         | DirIncoming => (next_id, current_id)
                         end in
      let edge_props := extract_predicates_to_props predicates in
      let edge_data := with_variable variable edge_props in
      (next_id,
       set_edges
         (match update_edge edge_id (merge_edge edge_types label_expression edge_props) (x_edges x) with
          | Some es => es
          | None => x_edges x ++ [mkTEdge edge_id src tgt primary_label edge_types direction "#64748b" min_hops
                                    max_hops edge_props edge_data label_expression]
          end) x)
  | _ => (current_id, x)
  end.

Definition extract_path `{LowerCase} (x : Extraction) (path_h : NodeHandle) : Extraction :=
  match arena_get arena path_h with
  | Ok (NodePattern _ _ _) => (extract_node_from_handle path_h x).2
  | Ok (PathChain _ _ start_node edge_handles) =>
      (foldl extract_hop (extract_node_from_handle start_node x) edge_handles).2
  | _ => x
  end.

(** ** Filters *)
Definition extract_eq_predicate (l r : NodeHandle) (m : gmap string TopologyNode) : gmap string TopologyNode :=
  let assign target property lit :=
    match arena_get arena target with
    | Ok (Identifier var) =>
        match m !! var with
        | Some n => <[var := mkTNode (tn_id n) (tn_label n) (tn_labels n) (tn_group n) (tn_size n)
                              (bt_insert property lit (tn_properties n)) (bt_insert property lit (tn_data n))
                              (tn_label_expression n)]> m
        | None => m
        end
    | _ => m
    end in
  match arena_get arena l, arena_get arena r with
  | Ok (PropertyAccess target property), Ok (Literal lit) => assign target property lit
  | Ok (Literal lit), Ok (PropertyAccess target property) => assign target property lit
  | _, _ => m
  end.

Fixpoint extract_where_predicates_to_nodes (fuel : nat) (handle : NodeHandle) (m : gmap string TopologyNode) :
    option (gmap string TopologyNode) :=
  match fuel with
  | O => None
  | S fuel =>
      match arena_get arena handle with
      | Ok (WhereClause root_predicate) => extract_where_predicates_to_nodes fuel root_predicate m
      | Ok (BinaryExpression l And r) =>
          m ← extract_where_predicates_to_nodes fuel l m;
          extract_where_predicates_to_nodes fuel r m
      | Ok (BinaryExpression l Eq r) => Some (extract_eq_predicate l r m)
      | _ => Some m
      end
  end.

Fixpoint apply_wheres (fuel : nat) (wheres : list NodeHandle) (m : gmap string TopologyNode) :
    option (gmap string TopologyNode) :=
  match wheres with
  | [] => Some m
  | wh :: wheres => m ← extract_where_predicates_to_nodes fuel wh m; apply_wheres fuel wheres m
  end.

(** ** [GraphTopology::from_arena] *)

(** [path_handles.retain]: a handle seen before is dropped. *)
Fixpoint first_occurrences (seen l : list NodeHandle) : list NodeHandle :=
  match l with
  | [] => []
  | h :: l => if decide (h ∈ seen) then first_occurrences seen l else h :: first_occurrences (h :: seen) l
  end.

(** [nodes_order.into_iter().filter_map(|id| nodes_map.remove(&id))]. *)
Fixpoint take_nodes (order : list string) (m : gmap string TopologyNode) : list TopologyNode :=
  match order with
  | [] => []
  | id :: order => match m !! id with
                   | Some n => n :: take_nodes order (delete id m)
                   | None => take_nodes order m
                   end
  end.

(** The deepest chain of calls visits each node at most once in an arena without cycles. *)
Definition walk_fuel : nat := S (S (length (nodes arena))).

Definition from_arena `{LowerCase} (root : option NodeHandle) : option GraphTopology :=
  found ← match root with
          | Some r => collect_paths_and_wheres_from_root walk_fuel r
          | None => Some collect_all
          end;
  let path_handles := first_occurrences [] (omap found_path found) in
  let x := foldl extract_path Extraction_new path_handles in
  m ← apply_wheres walk_fuel (omap found_where found) (nodes_map x);
  Some (mkTopology 1 (take_nodes (nodes_order x) m) (x_edges x)).
End walk.
