(* ===== verification/TopologySafe.v ===== *)
(** * What [from_arena] extracts

    The walk ends on every arena without cycles; the topology is well formed, and no label or
    type of a pattern in a clause of the statement is lost. *)
From S2P Require Import Prelude Bytes F64 Errors Ast Text BTree ArenaShape Topology.

Open Scope Z_scope.
Open Scope string_scope.
Open Scope list_scope.

(** ** The walk ends *)
Lemma both_some {A} (l r : option (list A)) : is_Some l → is_Some r → is_Some (both l r).
Proof. intros [x ->] [y ->]. by eexists. Qed.
Lemma each_some {A B} (f : A → option (list B)) l : (∀ x, x ∈ l → is_Some (f x)) → is_Some (each f l).
Proof.
  induction l as [|x l IH]; [by eexists|]. intros Hf. cbn [each]. apply both_some; [apply Hf; by left|].
  apply IH. intros y Hy. apply Hf. by right.
Qed.
Lemma maybe_some {A B} (f : A → option (list B)) o : (∀ x, o = Some x → is_Some (f x)) → is_Some (maybe f o).
Proof. destruct o; [|by eexists]. intros Hf. by apply Hf. Qed.

Section ends.
Context (arena : QueryAstArena) (rank : nat → nat) (Hrank : ranked arena rank).

(** Enough fuel for a handle: more than its rank, and some for a handle that points nowhere. *)
Definition enough (fuel : nat) (h : NodeHandle) : Prop :=
  (0 < fuel)%nat ∧ (is_Some (nodes arena !! Z.to_nat h) → (rank (Z.to_nat h) < fuel)%nat).

Lemma enough_child fuel h n c :
  enough (S fuel) h → arena_get arena h = Ok n → c ∈ children n → enough fuel c.
Proof.
  intros [_ He] Hn Hc. unfold arena_get, ok_or in Hn.
  destruct (nodes arena !! Z.to_nat h) as [n'|] eqn:E; [|done]. injection Hn as ->.
  specialize (He (ex_intro _ _ eq_refl)). pose proof (Hrank _ _ _ E Hc). split; [lia|]. intros _. lia.
Qed.

Lemma enough_grandchild fuel h n c n' g :
  enough (S fuel) h → arena_get arena h = Ok n → c ∈ children n →
  arena_get arena c = Ok n' → g ∈ children n' → enough fuel g.
Proof.
  intros He Hn Hc Hn' Hg. pose proof (enough_child _ _ _ _ He Hn Hc) as He'.
  assert (enough fuel c → enough fuel g) as H; [|by apply H].
  intros [H0 Hr]. unfold arena_get, ok_or in Hn'.
  destruct (nodes arena !! Z.to_nat c) as [m|] eqn:E; [|done]. injection Hn' as ->.
  specialize (Hr (ex_intro _ _ eq_refl)). pose proof (Hrank _ _ _ E Hg). split; [done|]. intros _. lia.
Qed.

Lemma walk_ends fuel :
  (∀ h, enough fuel h → is_Some (collect_paths_and_wheres_from_root arena fuel h)) ∧
  (∀ h, enough fuel h → is_Some (descend_expression_for_subqueries arena fuel h)).
Proof.
  induction fuel as [|fuel [IHc IHd]]; [by split; intros h [H _]; lia|].
  split; intros h He;
    cbn [collect_paths_and_wheres_from_root descend_expression_for_subqueries];
    destruct (arena_get arena h) as [n|] eqn:Hn; try by eexists.
  all: pose proof (λ c, enough_child fuel h n c He Hn) as Hc.
  all: destruct n; try (by eexists); try (apply IHc, Hc; cbn; set_solver); try (apply IHd, Hc; cbn; set_solver).
  all: repeat (apply both_some || (apply each_some; intros ? ?) || (apply maybe_some; intros ? ->)); try by eexists.
  all: try (apply IHc, Hc; cbn; set_solver).
  all: try (apply IHd, Hc; cbn; set_solver).
  destruct (arena_get arena x) as [[]|] eqn:Hx; try by eexists. case_match; [|by eexists]. subst.
  apply both_some; [by eexists|]. apply IHd. eapply enough_grandchild; [exact He|exact Hn| |exact Hx|]; cbn; set_solver.
Qed.

Lemma filters_end fuel h m : enough fuel h → is_Some (extract_where_predicates_to_nodes arena fuel h m).
Proof.
  revert h m. induction fuel as [|fuel IH]; intros h m He; [by destruct He; lia|].
  cbn [extract_where_predicates_to_nodes]. destruct (arena_get arena h) as [n|] eqn:Hn; [|by eexists].
  pose proof (λ c, enough_child fuel h n c He Hn) as Hc.
  destruct n; try (by eexists); [|apply IH, Hc; cbn; set_solver].
  destruct op; try (by eexists).
  destruct (IH left m) as [m' ->]; [apply Hc; cbn; set_solver|]. apply IH, Hc. cbn; set_solver.
Qed.
Lemma wheres_end fuel hs m : (∀ h, enough fuel h) → is_Some (apply_wheres arena fuel hs m).
Proof.
  intros He. revert m. induction hs as [|h hs IH]; intros m; [by eexists|]. cbn [apply_wheres].
  destruct (filters_end fuel h m (He h)) as [m' ->]. apply IH.
Qed.
End ends.

Lemma walk_fuel_enough a : acyclic a → ∃ rank, ranked a rank ∧ ∀ h, enough a rank (walk_fuel a) h.
Proof.
  intros (rank & Hr & Hb). exists rank. split; [done|]. intros h. unfold walk_fuel. split; [lia|].
  intros _. specialize (Hb (Z.to_nat h)). lia.
Qed.

(** ** Extraction, step by step *)
Section extraction.
Context `{LowerCase} (a : QueryAstArena).

(** What holds of the state: entries are under their names, edges have names of their own and
    join nodes that are there; *)
Record entries_ok (x : Extraction) : Prop := {
  entry_keys : ∀ id, is_Some (nodes_map x !! id) ↔ id ∈ nodes_order x;
  entry_ids : ∀ id n, nodes_map x !! id = Some n → tn_id n = id;
  entry_edges : NoDup (te_id <$> x_edges x);
  entry_ends : ∀ e, e ∈ x_edges x → te_source e ∈ nodes_order x ∧ te_target e ∈ nodes_order x;
}.

(** and each node is entered once. *)
Record extraction_ok (x : Extraction) : Prop := {
  ok_order : NoDup (nodes_order x);
  ok_entries : entries_ok x;
}.
Lemma ok_keys x : extraction_ok x → ∀ id, is_Some (nodes_map x !! id) ↔ id ∈ nodes_order x.
Proof. intros Hx. apply entry_keys, ok_entries, Hx. Qed.
Lemma ok_ids x : extraction_ok x → ∀ id n, nodes_map x !! id = Some n → tn_id n = id.
Proof. intros Hx. apply entry_ids, ok_entries, Hx. Qed.

(** What a step keeps: no node, edge, label or type disappears. *)
Record grows (x x' : Extraction) : Prop := {
  grows_order : nodes_order x ⊆ nodes_order x';
  grows_nodes : ∀ id n, nodes_map x !! id = Some n →
    ∃ n', nodes_map x' !! id = Some n' ∧ tn_labels n ⊆ tn_labels n';
  grows_edges : ∀ e, e ∈ x_edges x → ∃ e', e' ∈ x_edges x' ∧ te_types e ⊆ te_types e';
}.

Lemma grows_refl x : grows x x.
Proof. split; [done|intros id n Hn; by exists n|intros e He; by exists e]. Qed.
Lemma arena_grows_trans x y z : grows x y → grows y z → grows x z.
Proof.
  intros [O1 N1 E1] [O2 N2 E2]. split; [set_solver| |].
  - intros id n Hn. destruct (N1 id n Hn) as (n' & Hn' & Hs). destruct (N2 id n' Hn') as (n'' & ? & ?).
    exists n''. split; [done|set_solver].
  - intros e He. destruct (E1 e He) as (e' & He' & Hs). destruct (E2 e' He') as (e'' & ? & ?).
    exists e''. split; [done|set_solver].
Qed.

Lemma push_labels_spec new old : old ⊆ push_labels new old ∧ new ⊆ push_labels new old.
Proof.
  unfold push_labels. revert old. induction new as [|l new IH]; intros old; [split; [done|apply list_subseteq_nil]|].
  cbn [foldl]. destruct (IH (push_new l old)) as [H1 H2].
  assert (old ⊆ push_new l old ∧ l ∈ push_new l old) as [H3 H4]
    by (unfold push_new; destruct (decide (l ∈ old)); set_solver).
  set_solver.
Qed.

Lemma count_entries x : entries_ok x → entries_ok (count_node x) ∧ entries_ok (count_edge x).
Proof. intros [H1 H2 H3 H4]. split; by split. Qed.
Lemma count_ok x : extraction_ok x → extraction_ok (count_node x) ∧ extraction_ok (count_edge x).
Proof. intros [H1 H2%count_entries]. split; split; try done; by apply H2. Qed.

Lemma push_node_entries id n x : entries_ok x → tn_id n = id → entries_ok (push_node id n x).
Proof.
  intros [Hk Hi He Hd] Hn. split; cbn [nodes_map nodes_order x_edges push_node]; try done.
  - intros y. rewrite elem_of_app, list_elem_of_singleton, <- Hk. destruct (decide (y = id)) as [->|Hne].
    + rewrite lookup_insert_eq. naive_solver.
    + rewrite lookup_insert_ne by done. naive_solver.
  - intros y m. destruct (decide (y = id)) as [->|Hne]; [rewrite lookup_insert_eq; by intros [= <-]|].
    rewrite lookup_insert_ne by done. apply Hi.
  - intros e Hin. destruct (Hd e Hin). set_solver.
Qed.

Lemma push_node_ok id n x :
  extraction_ok x → nodes_map x !! id = None → tn_id n = id →
  extraction_ok (push_node id n x) ∧ grows x (push_node id n x).
Proof.
  intros [Ho Hx] Hid Hn.
  assert (id ∉ nodes_order x) as Hnew by (rewrite <- (entry_keys _ Hx), Hid; by intros [? ?]).
  split; split; cbn [nodes_map nodes_order x_edges push_node]; [|by apply push_node_entries|..].
  - apply NoDup_app. split; [done|]. split; [|apply NoDup_singleton]. intros y Hy. set_solver.
  - set_solver.
  - intros y m Hm. exists m. split; [|done]. rewrite lookup_insert_ne; [done|]. intros ->. by rewrite Hid in Hm.
  - intros e Hin. by exists e.
Qed.

Lemma set_node_entries id n n' x :
  entries_ok x → nodes_map x !! id = Some n → tn_id n' = tn_id n →
  entries_ok (set_map (<[id := n']> (nodes_map x)) x).
Proof.
  intros [Hk Hi He Hd] Hid Hn. split; cbn [nodes_map nodes_order x_edges set_map]; try done.
  - intros y. rewrite <- Hk. destruct (decide (y = id)) as [->|Hne]; [rewrite lookup_insert_eq, Hid; naive_solver|].
    by rewrite lookup_insert_ne.
  - intros y m. destruct (decide (y = id)) as [->|Hne]; [|rewrite lookup_insert_ne by done; apply Hi].
    rewrite lookup_insert_eq. intros [= <-]. rewrite Hn. by apply Hi.
Qed.

Lemma set_node_ok id n n' x :
  extraction_ok x → nodes_map x !! id = Some n → tn_id n' = tn_id n → tn_labels n ⊆ tn_labels n' →
  extraction_ok (set_map (<[id := n']> (nodes_map x)) x) ∧ grows x (set_map (<[id := n']> (nodes_map x)) x).
Proof.
  intros [Ho Hx] Hid Hn Hl.
  split; split; cbn [nodes_map nodes_order x_edges set_map]; [done|by eapply set_node_entries|done|..].
  - intros y m Hm. destruct (decide (y = id)) as [->|Hne].
    + exists n'. rewrite lookup_insert_eq. split; [done|]. rewrite Hid in Hm. by injection Hm as <-.
    + exists m. by rewrite lookup_insert_ne.
  - intros e Hin. by exists e.
Qed.

(** A pattern's labels are among those of a node, or of an edge. *)
Definition node_covers (x : Extraction) (n : AstNode) : Prop :=
  ∃ id tn, nodes_map x !! id = Some tn ∧ node_labels n ⊆ tn_labels tn.
Definition edge_covers (x : Extraction) (n : AstNode) : Prop :=
  ∃ e, e ∈ x_edges x ∧ edge_types n ⊆ te_types e.

Lemma node_covers_grows x x' n : grows x x' → node_covers x n → node_covers x' n.
Proof. intros [_ Hn _] (id & tn & Hm & Hl). destruct (Hn id tn Hm) as (tn' & ? & ?). exists id, tn'. set_solver. Qed.
Lemma edge_covers_grows x x' n : grows x x' → edge_covers x n → edge_covers x' n.
Proof. intros [_ _ He] (e & Hm & Hl). destruct (He e Hm) as (e' & ? & ?). exists e'. set_solver. Qed.

Lemma node_labels_of v e ps : node_labels (NodePattern v e ps) = labels_of e.
Proof. by destruct e. Qed.
Lemma edge_types_of v e d mi ma ps t : edge_types (EdgePattern v e d mi ma ps t) = labels_of e.
Proof. by destruct e. Qed.

Definition node_step (x : Extraction) (r : string * Extraction) : Prop :=
  extraction_ok r.2 ∧ grows x r.2 ∧ r.1 ∈ nodes_order r.2 ∧ x_edges r.2 = x_edges x.

Lemma pushed_step i tn x :
  extraction_ok x → nodes_map x !! i = None → tn_id tn = i → node_step x (i, push_node i tn x).
Proof.
  intros Hx Hn Hi. destruct (push_node_ok i tn x Hx Hn Hi) as [H1 H2].
  split; [done|]. split; [done|]. split; [cbn; set_solver|done].
Qed.

Lemma node_pattern_step v e ps x :
  extraction_ok x →
  node_step x (extract_node_pattern a v e ps x) ∧
  node_covers (extract_node_pattern a v e ps x).2 (NodePattern v e ps).
Proof.
  intros Hx. unfold extract_node_pattern. cbv zeta. set (node_id := match v with Some _ => _ | None => _ end).
  unfold node_covers. rewrite node_labels_of. cbn [snd].
  destruct (nodes_map x !! node_id) as [node|] eqn:E.
  - match goal with |- context [<[node_id := ?n']> _] => set (tn := n') end.
    destruct (push_labels_spec (labels_of e) (tn_labels node)) as [H1 H2].
    destruct (set_node_ok node_id node tn x Hx E eq_refl H1) as [H3 H4].
    split; [|exists node_id, tn; split; [apply lookup_insert_eq|done]].
    split; [done|]. split; [done|]. split; [|done]. apply (ok_keys _ Hx). by eexists.
  - split; [by apply pushed_step|]. eexists node_id, _. split; [apply lookup_insert_eq|done].
Qed.

Lemma placeholder_step x :
  extraction_ok x →
  node_step x (extract_placeholder x) ∧ ∀ n, node_labels n = [] → node_covers (extract_placeholder x).2 n.
Proof.
  intros Hx. unfold extract_placeholder. cbv zeta. set (i := "n" +:+ num (node_counter x)).
  unfold node_covers. cbn [snd]. case_bool_decide as E.
  - split; [split; [done|split; [apply grows_refl|split; [by apply (ok_keys _ Hx)|done]]]|].
    intros n ->. destruct E as [tn E]. exists i, tn. split; [done|apply list_subseteq_nil].
  - split; [apply pushed_step; [done|by apply eq_None_not_Some|done]|].
    intros n ->. eexists i, _. split; [apply lookup_insert_eq|apply list_subseteq_nil].
Qed.

Lemma count_grows x : grows x (count_node x) ∧ grows x (count_edge x).
Proof. split; (split; [done|intros id n Hn; by exists n|intros e He; by exists e]). Qed.

Lemma extract_node_step h x :
  extraction_ok x →
  node_step x (extract_node_from_handle a h x) ∧
  ∀ n, arena_get a h = Ok n → node_covers (extract_node_from_handle a h x).2 n.
Proof.
  intros Hx. destruct (count_ok x Hx) as [Hc _]. unfold extract_node_from_handle.
  assert (∀ r, node_step (count_node x) r → node_step x r) as Hs.
  { intros r (H1 & H2 & H3 & H4). split; [done|]. split; [|split; [exact H3|exact H4]].
    eapply arena_grows_trans; [exact (proj1 (count_grows x))|done]. }
  destruct (placeholder_step (count_node x) Hc) as [Hp Hpl].
  destruct (arena_get a h) as [n|] eqn:E; [|by split; [apply Hs|]].
  destruct n; try (split; [by apply Hs|]; intros n [= <-]; by apply Hpl).
  destruct (node_pattern_step variable label_expression predicates (count_node x) Hc) as [H1 H2].
  split; [by apply Hs|]. by intros n [= <-].
Qed.

(** ** Edges *)
Lemma update_edge_spec id f es es' :
  (∀ e, te_id (f e) = te_id e) → update_edge id f es = Some es' →
  te_id <$> es' = te_id <$> es ∧
  (∀ e', e' ∈ es' → e' ∈ es ∨ ∃ e, e ∈ es ∧ e' = f e) ∧
  (∀ e, e ∈ es → e ∈ es' ∨ f e ∈ es') ∧ ∃ e, e ∈ es ∧ f e ∈ es'.
Proof.
  intros Hf. revert es'. induction es as [|e es IH]; [done|]. intros es'. cbn [update_edge].
  destruct (decide (te_id e = id)) as [He|He].
  - intros [= <-]. cbn [fmap list_fmap]. rewrite Hf. split; [done|].
    split; [intros e'; rewrite !elem_of_cons; intros [->|Hin]; [right; exists e; set_solver|set_solver]|].
    split; [intros e'; rewrite !elem_of_cons; intros [->|Hin]; set_solver|]. exists e. set_solver.
  - destruct (update_edge id f es) as [es2|] eqn:E; [|done]. intros [= <-].
    destruct (IH es2 eq_refl) as (H1 & H2 & H3 & e0 & H4 & H5). cbn [fmap list_fmap]. rewrite H1. split; [done|].
    split; [intros e'; rewrite !elem_of_cons; intros [->|Hin]; [by left; left|]|].
    { destruct (H2 e' Hin) as [?|(e1 & ? & ?)]; [by left; right|]. right. exists e1. set_solver. }
    split; [intros e'; rewrite !elem_of_cons; intros [->|Hin]; [by left; left|destruct (H3 e' Hin); set_solver]|].
    exists e0. set_solver.
Qed.

Lemma update_edge_none id f es : update_edge id f es = None → id ∉ (te_id <$> es).
Proof.
  induction es as [|e es IH]; [set_solver|]. cbn [update_edge fmap list_fmap].
  destruct (decide (te_id e = id)) as [He|He]; [done|]. destruct (update_edge id f es); [done|].
  intros _. rewrite not_elem_of_cons. split; [done|]. by apply IH.
Qed.

Lemma set_edges_merged_entries id f x es :
  entries_ok x → (∀ e, te_id (f e) = te_id e ∧ te_source (f e) = te_source e ∧ te_target (f e) = te_target e) →
  update_edge id f (x_edges x) = Some es → entries_ok (set_edges es x).
Proof.
  intros [Hk Hi He Hd] Hf Hu. destruct (update_edge_spec id f _ _ (λ e, proj1 (Hf e)) Hu) as (H1 & H2 & _ & _).
  split; cbn [nodes_map nodes_order x_edges set_edges]; try done; [by rewrite H1|].
  intros e' Hin. destruct (H2 e' Hin) as [Hin'|(e & Hin' & ->)]; [by apply Hd|].
  destruct (Hf e) as (_ & -> & ->). by apply Hd.
Qed.

Lemma set_edges_merged id f x es :
  extraction_ok x → (∀ e, te_id (f e) = te_id e ∧ te_source (f e) = te_source e ∧ te_target (f e) = te_target e ∧ te_types e ⊆ te_types (f e)) →
  update_edge id f (x_edges x) = Some es →
  extraction_ok (set_edges es x) ∧ grows x (set_edges es x) ∧ ∃ e, e ∈ x_edges x ∧ f e ∈ es.
Proof.
  intros [Ho Hx] Hf Hu.
  destruct (update_edge_spec id f _ _ (λ e, proj1 (Hf e)) Hu) as (_ & _ & H3 & H4).
  split; [|split; [|done]].
  - split; [done|]. eapply set_edges_merged_entries; [done| |done]. intros e. by destruct (Hf e) as (? & ? & ? & _).
  - split; cbn [nodes_map nodes_order x_edges set_edges]; [done|intros y n Hn; by exists n|].
    intros e Hin. destruct (H3 e Hin) as [?|?]; [by exists e|]. exists (f e). split; [done|]. apply Hf.
Qed.

Lemma set_edges_pushed_entries e x :
  entries_ok x → te_id e ∉ (te_id <$> x_edges x) → te_source e ∈ nodes_order x → te_target e ∈ nodes_order x →
  entries_ok (set_edges (x_edges x ++ [e]) x).
Proof.
  intros [Hk Hi He Hd] Hnew Hs Ht. split; cbn [nodes_map nodes_order x_edges set_edges]; try done.
  - rewrite fmap_app. apply NoDup_app. split; [done|]. split; [|apply NoDup_singleton].
    intros y Hy Hin. apply Hnew. apply list_elem_of_singleton in Hin. by subst.
  - intros e'. rewrite elem_of_app, list_elem_of_singleton. intros [Hin| ->]; [by apply Hd|done].
Qed.

Lemma set_edges_pushed e x :
  extraction_ok x → te_id e ∉ (te_id <$> x_edges x) → te_source e ∈ nodes_order x → te_target e ∈ nodes_order x →
  extraction_ok (set_edges (x_edges x ++ [e]) x) ∧ grows x (set_edges (x_edges x ++ [e]) x).
Proof.
  intros [Ho Hx] Hnew Hs Ht.
  split; split; cbn [nodes_map nodes_order x_edges set_edges]; [done|by apply set_edges_pushed_entries|done|..].
  - intros y n Hn. by exists n.
  - intros e' Hin. exists e'. split; [set_solver|done].
Qed.

(** One hop keeps all this, and both its patterns are in. *)
Lemma extract_hop_step edge_h cur x :
  extraction_ok x → cur ∈ nodes_order x →
  let r := extract_hop a (cur, x) edge_h in
  extraction_ok r.2 ∧ grows x r.2 ∧ r.1 ∈ nodes_order r.2 ∧
  ∀ v e d mi ma ps t, arena_get a edge_h = Ok (EdgePattern v e d mi ma ps t) →
    edge_covers r.2 (EdgePattern v e d mi ma ps t) ∧ ∀ n, arena_get a t = Ok n → node_covers r.2 n.
Proof.
  intros Hx Hcur. unfold extract_hop.
  assert (extraction_ok x ∧ grows x x ∧ cur ∈ nodes_order x) as Hsame by (split; [done|split; [apply grows_refl|done]]).
  destruct (arena_get a edge_h) as [n|] eqn:Hn; [|by destruct Hsame as (?&?&?); split_and!].
  destruct n; try (by destruct Hsame as (?&?&?); split_and!). clear Hsame.
  destruct (extract_node_step target_node x Hx) as [(H1 & H2 & H3 & H4) H5].
  destruct (extract_node_from_handle a target_node x) as [next x1]. cbn [fst snd] in *.
  destruct (count_ok x1 H1) as [_ H6]. set (x2 := count_edge x1) in *.
  assert (grows x x2) as Hg by (eapply arena_grows_trans; [exact H2|exact (proj2 (count_grows x1))]).
  set (edge_id := default _ variable). set (types := labels_of label_expression).
  set (props := extract_predicates_to_props a predicates).
  assert (cur ∈ nodes_order x2 ∧ next ∈ nodes_order x2) as [Hc Hnx] by (split; [by apply (grows_order _ _ H2)|done]).
  destruct (match direction with DirOutgoing | DirUndirected => (cur, next) | DirIncoming => (next, cur) end)
    as [src tgt] eqn:Hst.
  assert (src ∈ nodes_order x2 ∧ tgt ∈ nodes_order x2) as [Hsrc Htgt] by (destruct direction; injection Hst as <- <-; done).
  clear Hst.
  assert (∀ x3, grows x2 x3 → grows x x3 ∧ next ∈ nodes_order x3 ∧ ∀ n, arena_get a target_node = Ok n → node_covers x3 n) as Hfin.
  { intros x3 Hg3. split; [by eapply arena_grows_trans|]. split; [by apply (grows_order _ _ Hg3)|].
    intros n Hn'. eapply node_covers_grows; [exact Hg3|]. eapply node_covers_grows; [exact (proj2 (count_grows x1))|]. by apply H5. }
  destruct (update_edge edge_id (merge_edge types label_expression props) (x_edges x2)) as [es|] eqn:Eu.
  - destruct (set_edges_merged edge_id (merge_edge types label_expression props) x2 es H6) as (H7 & H8 & e & H9 & H10); [|exact Eu|].
    { intros e. split; [done|]. split; [done|]. split; [done|]. apply push_labels_spec. }
    destruct (Hfin _ H8) as (Hf1 & Hf2 & Hf3). split; [done|]. split; [done|]. split; [done|].
    intros v0 e0 d mi ma ps t [= <- <- <- <- <- <- <-]. split; [|done]. eexists. split; [exact H10|].
    rewrite edge_types_of. cbn [te_types merge_edge]. apply push_labels_spec.
  - match goal with |- context [x_edges x2 ++ [?e]] => set (ne := e) end.
    destruct (set_edges_pushed ne x2 H6 (update_edge_none _ _ _ Eu) Hsrc Htgt) as [H7 H8].
    destruct (Hfin _ H8) as (Hf1 & Hf2 & Hf3). split; [done|]. split; [done|]. split; [done|].
    intros v0 e0 d mi ma ps t [= <- <- <- <- <- <- <-]. split; [|done]. exists ne. split; [cbn; set_solver|].
    by rewrite edge_types_of.
Qed.

(** ** Paths *)

(** The patterns of a path: nodes, and each edge with the node it leads to. *)
Inductive PatternAt := NodeAt (h : NodeHandle) | EdgeAt (h : NodeHandle).
Definition hop_patterns (edge_h : NodeHandle) : list PatternAt :=
  match arena_get a edge_h with Ok (EdgePattern _ _ _ _ _ _ t) => [EdgeAt edge_h; NodeAt t] | _ => [] end.
Definition path_patterns (path_h : NodeHandle) : list PatternAt :=
  match arena_get a path_h with
  | Ok (NodePattern _ _ _) => [NodeAt path_h]
  | Ok (PathChain _ _ start_node edge_handles) => NodeAt start_node :: flat_map hop_patterns edge_handles
  | _ => []
  end.

(** The labels or types written in a pattern are kept. *)
Definition kept (x : Extraction) (p : PatternAt) : Prop :=
  match p with
  | NodeAt h => ∀ n, arena_get a h = Ok n → node_covers x n
  | EdgeAt h => ∀ n, arena_get a h = Ok n → edge_covers x n
  end.

Lemma kept_grows x x' p : grows x x' → kept x p → kept x' p.
Proof.
  intros Hg. destruct p; intros Hk n Hn; specialize (Hk n Hn); [by eapply node_covers_grows|by eapply edge_covers_grows].
Qed.

Definition path_step (x x' : Extraction) (ps : list PatternAt) : Prop :=
  extraction_ok x' ∧ grows x x' ∧ Forall (kept x') ps.

Lemma path_step_app x x' x'' l k : path_step x x' l → path_step x' x'' k → path_step x x'' (l ++ k).
Proof.
  intros (H1 & H2 & H3) (H4 & H5 & H6). split; [done|]. split; [by eapply arena_grows_trans|].
  apply Forall_app. split; [|done]. eapply Forall_impl; [exact H3|]. intros h. by apply kept_grows.
Qed.

Lemma extract_hops_step es : ∀ cur x,
  extraction_ok x → cur ∈ nodes_order x → path_step x (foldl (extract_hop a) (cur, x) es).2 (flat_map hop_patterns es).
Proof.
  induction es as [|e es IH]; intros cur x Hx Hc; [split; [done|split; [apply grows_refl|constructor]]|].
  cbn [foldl flat_map]. destruct (extract_hop_step e cur x Hx Hc) as (H1 & H2 & H3 & H4).
  destruct (extract_hop a (cur, x) e) as [next x1]. cbn [fst snd] in *.
  eapply path_step_app; [|by apply IH]. split; [done|]. split; [done|].
  unfold hop_patterns. destruct (arena_get a e) as [n|] eqn:E; [|constructor].
  destruct n; try constructor; [|constructor; [|constructor]]; destruct (H4 _ _ _ _ _ _ _ eq_refl) as [H5 H6].
  - intros n. rewrite E. by intros [= <-].
  - exact H6.
Qed.

Lemma extract_path_step x h : extraction_ok x → path_step x (extract_path a x h) (path_patterns h).
Proof.
  intros Hx. unfold extract_path, path_patterns.
  assert (path_step x x []) as Hsame by (split; [done|split; [apply grows_refl|constructor]]).
  destruct (arena_get a h) as [n|] eqn:E; [|done]. destruct n; try done.
  - destruct (extract_node_step h x Hx) as [(H1 & H2 & H3 & H4) H5].
    split; [done|]. split; [done|]. by repeat constructor.
  - destruct (extract_node_step start_node x Hx) as [(H1 & H2 & H3 & H4) H5].
    destruct (extract_node_from_handle a start_node x) as [id x1]. cbn [fst snd] in *.
    apply (path_step_app x x1 _ [NodeAt start_node]); [|by apply extract_hops_step].
    split; [done|]. split; [done|]. by repeat constructor.
Qed.

Lemma extract_paths_step hs : ∀ x,
  extraction_ok x → path_step x (foldl (extract_path a) x hs) (flat_map path_patterns hs).
Proof.
  induction hs as [|h hs IH]; intros x Hx; [split; [done|split; [apply grows_refl|constructor]]|].
  cbn [foldl flat_map]. destruct (extract_path_step x h Hx) as (H1 & H2 & H3).
  eapply path_step_app; [by split|]. by apply IH.
Qed.

Lemma extraction_new_ok : extraction_ok Extraction_new.
Proof.
  split; [constructor|]. split; cbn; [intros id; rewrite lookup_empty; set_solver|by intros id n; rewrite lookup_empty|constructor|set_solver].
Qed.

(** ** Filters change properties only *)
Definition same_nodes (m m' : gmap string TopologyNode) : Prop :=
  ∀ id, (λ n, (tn_id n, tn_labels n)) <$> m' !! id = (λ n, (tn_id n, tn_labels n)) <$> m !! id.

Lemma eq_predicate_same l r m : same_nodes m (extract_eq_predicate a l r m).
Proof.
  unfold extract_eq_predicate.
  assert (∀ var n n', m !! var = Some n → tn_id n' = tn_id n → tn_labels n' = tn_labels n →
    same_nodes m (<[var := n']> m)) as Hs.
  { intros var n n' Hv Hi Hl id. destruct (decide (id = var)) as [->|]; [|by rewrite lookup_insert_ne].
    rewrite lookup_insert_eq, Hv. cbn. by rewrite Hi, Hl. }
  repeat case_match; try done; by eapply Hs.
Qed.

Lemma filters_same fuel h m m' : extract_where_predicates_to_nodes a fuel h m = Some m' → same_nodes m m'.
Proof.
  revert h m m'. induction fuel as [|fuel IH]; [done|]. intros h m m'. cbn [extract_where_predicates_to_nodes].
  destruct (arena_get a h) as [n|]; [|by intros [= <-]]. destruct n; try (by intros [= <-]); [|by apply IH].
  destruct op; try (by intros [= <-]); [intros [= <-]; apply eq_predicate_same|].
  destruct (extract_where_predicates_to_nodes a fuel left m) as [m1|] eqn:E1; [|done].
  intros E2 id. transitivity ((λ n, (tn_id n, tn_labels n)) <$> m1 !! id); [by eapply IH|by eapply IH].
Qed.

Lemma wheres_same fuel hs m m' : apply_wheres a fuel hs m = Some m' → same_nodes m m'.
Proof.
  revert m. induction hs as [|h hs IH]; intros m; cbn [apply_wheres]; [by intros [= <-]|].
  destruct (extract_where_predicates_to_nodes a fuel h m) as [m1|] eqn:E1; [|done].
  intros E2 id. transitivity ((λ n, (tn_id n, tn_labels n)) <$> m1 !! id); [by eapply IH|by eapply filters_same].
Qed.

(** Whatever the order repeats, each entry is taken once. *)
Lemma take_nodes_once order : ∀ m,
  (∀ id n, m !! id = Some n → tn_id n = id) →
  NoDup (tn_id <$> take_nodes order m) ∧
  ∀ i, i ∈ (tn_id <$> take_nodes order m) ↔ i ∈ order ∧ is_Some (m !! i).
Proof.
  induction order as [|j order IH]; intros m Hi; [split; [constructor|cbn; set_solver]|]. cbn [take_nodes].
  destruct (m !! j) as [n|] eqn:En.
  - destruct (IH (delete j m)) as [Hn Hs].
    { intros id n' Hn'. apply lookup_delete_Some in Hn' as [_ Hn']. by apply Hi. }
    cbn [fmap list_fmap]. rewrite (Hi j n En). split.
    + apply NoDup_cons. split; [|done]. rewrite Hs, lookup_delete_eq. by intros [_ [? ?]].
    + intros i. rewrite !elem_of_cons, Hs. destruct (decide (i = j)) as [->|Hne].
      * split; [intros _; split; [by left|by exists n]|by left].
      * rewrite lookup_delete_ne by done. naive_solver.
  - destruct (IH m Hi) as [Hn Hs]. split; [done|]. intros i. rewrite Hs, elem_of_cons. split; [naive_solver|].
    intros [[->|?] Hm]; [|done]. destruct Hm. congruence.
Qed.

Lemma take_nodes_spec order : ∀ m,
  NoDup order → (∀ id, id ∈ order → is_Some (m !! id)) → (∀ id n, m !! id = Some n → tn_id n = id) →
  tn_id <$> take_nodes order m = order ∧ ∀ id n, id ∈ order → m !! id = Some n → n ∈ take_nodes order m.
Proof.
  induction order as [|i order IH]; intros m Hn Hs Hi; [split; [done|set_solver]|].
  apply NoDup_cons in Hn as [Hni Hn]. cbn [take_nodes]. destruct (Hs i) as [n En]; [by left|]. rewrite En.
  destruct (IH (delete i m) Hn) as [H1 H2].
  - intros id Hid. rewrite lookup_delete_ne; [apply Hs; by right|]. by intros ->.
  - intros id n' Hn'. apply lookup_delete_Some in Hn' as [_ Hn']. by apply Hi.
  - cbn [fmap list_fmap]. rewrite (Hi i n En). split; [by f_equal|]. intros id n' Hid Hn'.
    destruct (decide (id = i)) as [->|Hne]; [rewrite En in Hn'; injection Hn' as <-; by left|].
    right. apply (H2 id); [set_solver|]. by rewrite lookup_delete_ne.
Qed.
End extraction.

(** ** The topology of a query *)

Definition topology_ok (t : GraphTopology) : Prop :=
  t_version t = 1 ∧ NoDup (tn_id <$> t_nodes t) ∧ NoDup (te_id <$> t_edges t) ∧
  ∀ e, e ∈ t_edges t → te_source e ∈ (tn_id <$> t_nodes t) ∧ te_target e ∈ (tn_id <$> t_nodes t).

Definition pattern_in (a : QueryAstArena) (t : GraphTopology) (p : PatternAt) : Prop :=
  match p with
  | NodeAt h => ∀ n, arena_get a h = Ok n → ∃ tn, tn ∈ t_nodes t ∧ node_labels n ⊆ tn_labels tn
  | EdgeAt h => ∀ n, arena_get a h = Ok n → ∃ e, e ∈ t_edges t ∧ edge_types n ⊆ te_types e
  end.

Definition found_in (a : QueryAstArena) (root : option NodeHandle) : option (list Found) :=
  match root with
  | Some r => collect_paths_and_wheres_from_root a (walk_fuel a) r
  | None => Some (collect_all a)
  end.

Lemma elem_first_occurrences seen l h : h ∈ l → h ∈ seen ∨ h ∈ first_occurrences seen l.
Proof.
  revert seen. induction l as [|x l IH]; intros seen; [set_solver|]. cbn [first_occurrences].
  rewrite elem_of_cons. intros [->|Hin].
  - destruct (decide (x ∈ seen)); [by left|]. right. by left.
  - destruct (decide (x ∈ seen)); [by apply IH|]. destruct (IH (x :: seen) Hin) as [Hs|Hs]; [|right; by right].
    apply elem_of_cons in Hs as [->|Hs]; [right; by left|by left].
Qed.

Section topology.
Context `{LowerCase}.

Lemma from_arena_extracts a root :
  acyclic a →
  ∃ found t, found_in a root = Some found ∧ from_arena a root = Some t ∧ topology_ok t ∧
    ∀ path p, path ∈ omap found_path found → p ∈ path_patterns a path → pattern_in a t p.
Proof.
  intros Hac. destruct (walk_fuel_enough a Hac) as (rank & Hr & Hf).
  assert (is_Some (found_in a root)) as [found Hfound]
    by (destruct root as [r|]; [by apply (walk_ends a rank Hr)|by eexists]).
  set (hs := first_occurrences [] (omap found_path found)).
  destruct (extract_paths_step a hs Extraction_new extraction_new_ok) as (H1 & _ & H3).
  set (x := foldl (extract_path a) Extraction_new hs) in *.
  destruct (wheres_end a rank Hr (walk_fuel a) (omap found_where found) (nodes_map x) Hf) as [m Hm].
  pose proof (wheres_same a _ _ _ _ Hm) as Hsame.
  assert (∀ id, is_Some (m !! id) ↔ id ∈ nodes_order x) as Hk.
  { intros id. rewrite <- (ok_keys _ H1). specialize (Hsame id). destruct (m !! id), (nodes_map x !! id); naive_solver. }
  assert (∀ id n, m !! id = Some n → tn_id n = id) as Hi.
  { intros id n Hn. specialize (Hsame id). rewrite Hn in Hsame. destruct (nodes_map x !! id) as [n'|] eqn:E; [|done].
    injection Hsame as Hid _. rewrite Hid. by apply (ok_ids _ H1). }
  destruct (take_nodes_spec (nodes_order x) m (ok_order _ H1) (λ id Hid, proj2 (Hk id) Hid) Hi) as [Hids Hin].
  exists found, (mkTopology 1 (take_nodes (nodes_order x) m) (x_edges x)).
  split; [done|]. split; [|split].
  - unfold from_arena. fold (found_in a root). rewrite Hfound. cbn [mbind option_bind]. fold hs x. by rewrite Hm.
  - split; [done|]. cbn [t_nodes t_edges]. rewrite Hids. split; [apply (ok_order _ H1)|].
    split; [apply (entry_edges _ (ok_entries _ H1))|apply (entry_ends _ (ok_entries _ H1))].
  - intros path p Hpath Hp. rewrite Forall_forall in H3.
    assert (kept a x p) as Hkept.
    { apply H3, list_elem_of_In, in_flat_map. exists path. split; [|by apply list_elem_of_In].
      apply list_elem_of_In. by destruct (elem_first_occurrences [] _ _ Hpath) as [Hs|]; [set_solver|]. }
    destruct p as [h|h]; intros n Hn; specialize (Hkept n Hn); [|done].
    destruct Hkept as (id & tn & Ht & Hl). specialize (Hsame id). rewrite Ht in Hsame.
    destruct (m !! id) as [tn'|] eqn:E; [|done]. injection Hsame as Htid Htl. exists tn'.
    split; [|by rewrite Htl]. apply (Hin id); [|done]. apply Hk. by eexists.
Qed.

(** C30: The topology of any query without cyclic handles exists and is well formed, whatever the
    root and whatever the query's patterns share: nodes and edges have distinct names, and every
    edge joins two nodes that are there. *)
Theorem from_arena_well_formed a root :
  acyclic a → ∃ t, from_arena a root = Some t ∧ topology_ok t.
Proof. intros Ha. destruct (from_arena_extracts a root Ha) as (found & t & _ & Ht & Hok & _). by exists t. Qed.

(** The paths a clause of a statement writes. *)
Definition clause_paths (a : QueryAstArena) (h : NodeHandle) : list NodeHandle :=
  match arena_get a h with
  | Ok (MatchClause _ paths _) => paths
  | Ok (CreateClause paths) => paths
  | Ok (MergeClause path _ _) => [path]
  | _ => []
  end.

Lemma both_inv {A} (l r : option (list A)) z :
  both l r = Some z → ∃ x y, l = Some x ∧ r = Some y ∧ z = x ++ y.
Proof. destruct l as [x|], r as [y|]; try done. intros [= <-]. by exists x, y. Qed.

Lemma each_inv {A B} (f : A → option (list B)) l z x : each f l = Some z → x ∈ l → ∃ y, f x = Some y ∧ y ⊆ z.
Proof.
  revert z. induction l as [|x' l IH]; [set_solver|]. intros z (y1 & y2 & E1 & E2 & ->)%both_inv.
  rewrite elem_of_cons. intros [->|Hx]; [exists y1; set_solver|]. destruct (IH y2 E2 Hx) as (y & ? & ?). exists y. set_solver.
Qed.

Lemma omap_paths (hs : list NodeHandle) : omap found_path (FoundPath <$> hs) = hs.
Proof. induction hs as [|h hs IH]; [done|]. cbn. by rewrite IH. Qed.

Lemma collect_clause a fuel h found :
  collect_paths_and_wheres_from_root a fuel h = Some found → clause_paths a h ⊆ omap found_path found.
Proof.
  destruct fuel as [|fuel]; [done|]. cbn [collect_paths_and_wheres_from_root]. unfold clause_paths.
  destruct (arena_get a h) as [n|]; [|intros _; apply list_subseteq_nil].
  destruct n; try (intros _; apply list_subseteq_nil).
  - intros (x & y & [= <-] & _ & ->)%both_inv. rewrite omap_app, omap_paths. set_solver.
  - intros [= <-]. by rewrite omap_paths.
  - intros [= <-]. done.
Qed.

Lemma omap_subseteq {A B} (f : A → option B) (l k : list A) : l ⊆ k → omap f l ⊆ omap f k.
Proof. intros Hs y. rewrite !list_elem_of_omap. intros (x & Hx & Hf). exists x. split; [by apply Hs|done]. Qed.

Lemma statement_paths a fuel root mode csv unwinds matches linear withs mutations ret found clause :
  arena_get a root = Ok (QueryStatement mode csv unwinds matches linear withs mutations ret) →
  collect_paths_and_wheres_from_root a fuel root = Some found → clause ∈ matches ++ mutations →
  clause_paths a clause ⊆ omap found_path found.
Proof.
  intros Hr. destruct fuel as [|fuel]; [done|]. cbn [collect_paths_and_wheres_from_root]. rewrite Hr.
  intros (x & y & E1 & (y1 & y2 & E2 & _ & ->)%both_inv & ->)%both_inv Hc.
  apply elem_of_app in Hc as [Hc|Hc].
  - destruct (each_inv _ _ _ _ E1 Hc) as (z & Ez & Hz). apply collect_clause in Ez.
    etransitivity; [exact Ez|]. apply omap_subseteq. set_solver.
  - destruct (each_inv _ _ _ _ E2 Hc) as (z & Ez & Hz). apply collect_clause in Ez.
    etransitivity; [exact Ez|]. apply omap_subseteq. set_solver.
Qed.

(** Nothing a statement writes is lost to validation: each label and each relationship type
    of a pattern in its MATCH, CREATE and MERGE clauses is a label of a node, or a type of an
    edge, of its topology, also where several patterns name the same variable. *)
Theorem topology_keeps_labels a root mode csv unwinds matches linear withs mutations ret t clause path p :
  acyclic a → arena_get a root = Ok (QueryStatement mode csv unwinds matches linear withs mutations ret) →
  from_arena a (Some root) = Some t → clause ∈ matches ++ mutations → path ∈ clause_paths a clause →
  p ∈ path_patterns a path → pattern_in a t p.
Proof.
  intros Ha Hr Ht Hc Hp Hpp. destruct (from_arena_extracts a (Some root) Ha) as (found & t' & Hf & Ht' & _ & Hk).
  assert (t' = t) as -> by congruence. eapply Hk; [|exact Hpp]. by eapply statement_paths.
Qed.
End topology.

(** ** Concrete queries *)
#[local] Existing Instance ascii_LowerCase.

(** [MATCH (p:Person)-[r:KNOWS]->(q:Person:Robot) WHERE p.name = "Ada"]. *)
Definition friends : QueryAstArena := mkArena [
  Literal (LString "Ada");
  Identifier "p";
  PropertyAccess 1 "name";
  BinaryExpression 2 Eq 0;
  NodePattern (Some "p") (Some (LabelName "Person")) [];
  NodePattern (Some "q") (Some (LabelAnd (LabelName "Person") (LabelName "Robot"))) [];
  EdgePattern (Some "r") (Some (LabelName "KNOWS")) DirIncoming None None [] 5;
  PathChain None PMNone 4 [6];
  WhereClause 3;
  MatchClause false [7] (Some 8);
  QueryStatement Normal None [] [9] [] [] [] None].

Example friends_topology :
  option_map (λ t, ((λ n, (tn_id n, tn_labels n, tn_properties n)) <$> t_nodes t,
                    (λ e, (te_id e, te_source e, te_target e, te_types e)) <$> t_edges t))
    (from_arena friends (Some 10))
  = Some ([("p", ["Person"], [("name", LString "Ada")]); ("q", ["Person"; "Robot"], [])],
          [("r", "q", "p", ["KNOWS"])]).
Proof. vm_compute. reflexivity. Qed.

Lemma friends_acyclic : acyclic friends.
Proof. by apply ordered_acyclic, orderedb_ordered. Qed.

Lemma from_arena_well_formed_witness :
  acyclic friends ∧ ∃ t, from_arena friends (Some 10) = Some t ∧ topology_ok t.
Proof. split; [exact friends_acyclic|]. apply (from_arena_well_formed friends (Some 10) friends_acyclic). Defined.

Lemma topology_keeps_labels_witness :
  ∃ t, from_arena friends (Some 10) = Some t ∧ pattern_in friends t (NodeAt 5) ∧ pattern_in friends t (EdgeAt 6).
Proof.
  destruct (from_arena friends (Some 10)) as [t|] eqn:E; [|exfalso; revert E; vm_compute; discriminate].
  exists t. split; [reflexivity|].
  split; eapply (topology_keeps_labels friends 10 Normal None [] [9] [] [] [] None t 9 7);
    try exact friends_acyclic; try exact E; try reflexivity; vm_compute; repeat first [left; reflexivity|right].
Defined.

(** [MATCH (n2:Person)-->()]: the node without a name gets the name [n2], and the topology is
    one person that is connected to itself. *)
Example generated_name_collides :
  option_map (λ t, (tn_id <$> t_nodes t, (λ e, (te_source e, te_target e)) <$> t_edges t))
    (from_arena (mkArena [
       NodePattern (Some "n2") (Some (LabelName "Person")) [];
       NodePattern None None [];
       EdgePattern None None DirOutgoing None None [] 1;
       PathChain None PMNone 0 [2];
       MatchClause false [3] None;
       QueryStatement Normal None [] [4] [] [] [] None]) (Some 5))
  = Some (["n2"], [("n2", "n2")]).
Proof. vm_compute. reflexivity. Qed.

(** [MATCH (p:Person) RETURN EXISTS { MATCH (x:Ghost) }]: a subquery outside a filter is not walked. *)
Example returned_subquery_is_missed :
  option_map (λ t, tn_labels <$> t_nodes t)
    (from_arena (mkArena [
       NodePattern (Some "p") (Some (LabelName "Person")) [];
       MatchClause false [0] None;
       NodePattern (Some "x") (Some (LabelName "Ghost")) [];
       MatchClause false [2] None;
       QueryStatement Normal None [] [3] [] [] [] None;
       ExistsSubquery 4;
       ReturnClause false [mkProjection 5 None None] [] None None;
       QueryStatement Normal None [] [1] [] [] [] (Some 6)]) (Some 7))
  = Some [["Person"]].
Proof. vm_compute. reflexivity. Qed.
