(* ===== verification/Conformance.v ===== *)
(** * Validation of queries ([voyager-core/src/schema.rs]: [validate_topology])

    A topology is checked against the registered schemas; every disagreement is a diagnostic
    of the report, and errors make the report invalid.  The [Debug] texts that messages quote
    are a parameter. *)
From S2P Require Import Prelude Bytes F64 Errors Ast Text BTree Levenshtein Schema Topology.

Open Scope Z_scope.
Open Scope string_scope.
Open Scope list_scope.

(** [{:?}] of a list of texts and of a literal. *)
Class DebugText := { debug_texts : list string → string; debug_literal : LiteralValue → string }.

(** ** Diagnostics and reports *)
Inductive DiagnosticSeverity := SevError | SevWarning | SevInfo.
#[export] Instance DiagnosticSeverity_eq_dec : EqDecision DiagnosticSeverity.
Proof. solve_decision. Defined.
Definition DiagnosticSeverity_as_str (s : DiagnosticSeverity) : string :=
  match s with SevError => "ERROR" | SevWarning => "WARNING" | SevInfo => "INFO" end.

Record ConformanceDiagnostic := mkDiagnostic {
  d_severity : DiagnosticSeverity;
  d_code : string;
  d_message : string;
  d_entity_id : option string;
  d_suggestion : option string;
}.
Record ConformanceReport := mkReport { is_valid : bool; diagnostics : list ConformanceDiagnostic }.
Definition ConformanceReport_new : ConformanceReport := mkReport true [].
Definition add (diag : ConformanceDiagnostic) (r : ConformanceReport) : ConformanceReport :=
  mkReport (if bool_decide (d_severity diag = SevError) then false else is_valid r) (diagnostics r ++ [diag]).

Definition diagnostic_text (d : ConformanceDiagnostic) : string :=
  match d_suggestion d with Some s => d_message d +:+ " (" +:+ s +:+ ")" | None => d_message d end.
Definition error_messages (r : ConformanceReport) : list string :=
  diagnostic_text <$> filter (λ d, d_severity d = SevError) (diagnostics r).
Definition warning_messages (r : ConformanceReport) : list string :=
  diagnostic_text <$> filter (λ d, d_severity d = SevWarning) (diagnostics r).

(** [for x in l { .. report .. }]. *)
Definition for_each {A} (f : A → ConformanceReport → ConformanceReport) (l : list A) (r : ConformanceReport) : ConformanceReport :=
  foldl (λ r x, f x r) r l.

Definition did_you_mean (what : string) (name : option string) : option string :=
  (λ s, "Did you mean " +:+ what +:+ " '" +:+ s +:+ "'?") <$> name.

Section validate.
Context `{DebugText} (all_nodes : list NodeSchema) (all_rels : list RelationshipSchema).

(** ** Nodes *)
Definition node_named (label : string) (n : NodeSchema) : bool :=
  node_has_label label n || eq_ignore_ascii_case (ns_name n) label.
Definition find_node (label : string) : option NodeSchema := List.find (node_named label) all_nodes.

(** The labels of a node: the schemas that were recognized, and the report. *)
Definition check_label (node : TopologyNode) (label : string) (st : list NodeSchema * ConformanceReport) :
    list NodeSchema * ConformanceReport :=
  let '(recognized_schemas, report) := st in
  match find_node label with
  | Some ns => (recognized_schemas ++ [ns], report)
  | None =>
      if bool_decide (all_nodes = []) then st
      else
        let known_labels := all_nodes ≫= ns_labels in
        (recognized_schemas,
         add (mkDiagnostic SevError "UNKNOWN_NODE_LABEL"
                ("Node label '" +:+ label +:+ "' is not registered in SchemaRegistry") (Some (tn_id node))
                (did_you_mean "label" (find_closest_match label known_labels 3))) report)
  end.
Definition check_labels (node : TopologyNode) (report : ConformanceReport) : list NodeSchema * ConformanceReport :=
  foldl (λ st label, check_label node label st) ([], report) (tn_labels node).

(** The first recognized schema that declares the property. *)
Fixpoint declaring (prop_name : string) (schemas : list NodeSchema) : option (NodeSchema * FieldDescriptor) :=
  match schemas with
  | [] => None
  | ns :: schemas => match bt_get prop_name (ns_fields ns) with
                     | Some field_desc => Some (ns, field_desc)
                     | None => declaring prop_name schemas
                     end
  end.

Definition check_node_property (node : TopologyNode) (recognized_schemas : list NodeSchema)
    (prop : string * LiteralValue) (report : ConformanceReport) : ConformanceReport :=
  let '(prop_name, lit_val) := prop in
  if bool_decide (recognized_schemas = []) then report
  else match declaring prop_name recognized_schemas with
       | Some (ns, field_desc) =>
           if matches_literal (fd_field_type field_desc) lit_val then report
           else add (mkDiagnostic SevError "PROPERTY_TYPE_MISMATCH"
                  ("Property '" +:+ primary_label ns +:+ "." +:+ prop_name +:+ "' expects type "
                   +:+ FieldType_as_str (fd_field_type field_desc) +:+ ", but received value " +:+ debug_literal lit_val)
                  (Some (tn_id node)) None) report
       | None =>
           let known_fields := recognized_schemas ≫= (λ ns, (ns_fields ns).*1) in
           add (mkDiagnostic SevWarning "UNDECLARED_PROPERTY"
                  ("Property '" +:+ prop_name +:+ "' is not declared on node entity with label(s) "
                   +:+ debug_texts (tn_labels node))
                  (Some (tn_id node)) (did_you_mean "property" (find_closest_match prop_name known_fields 2))) report
       end.

Definition check_node (node : TopologyNode) (report : ConformanceReport) : ConformanceReport :=
  let '(recognized_schemas, report) := check_labels node report in
  for_each (check_node_property node recognized_schemas) (tn_properties node) report.

(** ** Relationships *)
Definition rel_named (rel_type : string) (r : RelationshipSchema) : bool :=
  eq_ignore_ascii_case (rs_type_name r) rel_type || eq_ignore_ascii_case (rs_name r) rel_type.
Definition find_rel (rel_type : string) : option RelationshipSchema := List.find (rel_named rel_type) all_rels.

Definition endpoints_ok (rs : RelationshipSchema) (direction : Direction) (src_labels tgt_labels : list string) : bool :=
  match direction with
  | DirUndirected => allows_endpoints rs src_labels tgt_labels || allows_endpoints rs tgt_labels src_labels
  | _ => allows_endpoints rs src_labels tgt_labels
  end.

Definition check_endpoints (edge : TopologyEdge) (rel_type : string) (rs : RelationshipSchema)
    (src_labels tgt_labels : list string) (report : ConformanceReport) : ConformanceReport :=
  if negb (endpoints_ok rs (te_direction edge) src_labels tgt_labels)
     && (negb (bool_decide (src_labels = [])) || negb (bool_decide (tgt_labels = []))) then
    add (mkDiagnostic SevError "INCOMPATIBLE_ENDPOINTS"
           ("Relationship '" +:+ rel_type +:+ "' cannot connect source label(s) " +:+ debug_texts src_labels
            +:+ " to target label(s) " +:+ debug_texts tgt_labels +:+ ". Allowed source(s): "
            +:+ debug_texts (rs_source_labels rs) +:+ ", target(s): " +:+ debug_texts (rs_target_labels rs))
           (Some (te_id edge)) None) report
  else report.

Definition check_direction (edge : TopologyEdge) (rel_type : string) (rs : RelationshipSchema)
    (report : ConformanceReport) : ConformanceReport :=
  match te_direction edge with
  | DirUndirected =>
      if rs_directed rs then
        add (mkDiagnostic SevWarning "UNDIRECTED_TRAVERSAL"
               ("Relationship '" +:+ rel_type +:+ "' is defined as directed in schema, but traversed undirected")
               (Some (te_id edge)) (Some "Specify traversal direction (-> or <-)")) report
      else report
  | _ => report
  end.

Definition check_rel_property (edge : TopologyEdge) (rel_type : string) (rs : RelationshipSchema)
    (prop : string * LiteralValue) (report : ConformanceReport) : ConformanceReport :=
  let '(prop_name, lit_val) := prop in
  match bt_get prop_name (rs_fields rs) with
  | Some field_desc =>
      if matches_literal (fd_field_type field_desc) lit_val then report
      else add (mkDiagnostic SevError "PROPERTY_TYPE_MISMATCH"
             ("Relationship property '" +:+ rel_type +:+ "." +:+ prop_name +:+ "' expects type "
              +:+ FieldType_as_str (fd_field_type field_desc) +:+ ", but received " +:+ debug_literal lit_val)
             (Some (te_id edge)) None) report
  | None =>
      add (mkDiagnostic SevWarning "UNDECLARED_PROPERTY"
             ("Property '" +:+ prop_name +:+ "' is not declared on relationship '" +:+ rel_type +:+ "'")
             (Some (te_id edge)) (did_you_mean "property" (find_closest_match prop_name (rs_fields rs).*1 2))) report
  end.

Definition check_rel_type (edge : TopologyEdge) (src_labels tgt_labels : list string) (rel_type : string)
    (report : ConformanceReport) : ConformanceReport :=
  if bool_decide (rel_type = "") then report
  else match find_rel rel_type with
       | Some rs =>
           for_each (check_rel_property edge rel_type rs) (te_properties edge)
             (check_direction edge rel_type rs (check_endpoints edge rel_type rs src_labels tgt_labels report))
       | None =>
           if bool_decide (all_rels = []) then report
           else add (mkDiagnostic SevError "UNKNOWN_RELATIONSHIP_TYPE"
                       ("Relationship type '" +:+ rel_type +:+ "' is not registered in SchemaRegistry")
                       (Some (te_id edge))
                       (did_you_mean "relationship" (find_closest_match rel_type (rs_type_name <$> all_rels) 3))) report
       end.

Definition labels_at (nodes : list TopologyNode) (id : string) : list string :=
  default [] (tn_labels <$> List.find (λ n, bool_decide (tn_id n = id)) nodes).
Definition check_edge (nodes : list TopologyNode) (edge : TopologyEdge) (report : ConformanceReport) : ConformanceReport :=
  for_each (check_rel_type edge (labels_at nodes (te_source edge)) (labels_at nodes (te_target edge))) (te_types edge) report.
End validate.

Definition validate_topology `{DebugText} (s : SchemaRegistry) (topology : GraphTopology) : ConformanceReport :=
  if bool_decide (t_version topology ≠ 1) then
    add (mkDiagnostic SevError "UNSUPPORTED_TOPOLOGY_VERSION"
           ("Unsupported topology schema version: " +:+ num (t_version topology) +:+ ". Supported major versions: 1.")
           None (Some "Ensure the topology payload has version: 1")) ConformanceReport_new
  else
    let all_nodes := node_schemas s in
    let all_rels := relationship_schemas s in
    if bool_decide (all_nodes = []) && bool_decide (all_rels = []) then ConformanceReport_new
    else for_each (check_edge all_rels (t_nodes topology)) (t_edges topology)
           (for_each (check_node all_nodes) (t_nodes topology) ConformanceReport_new).
