(* ===== verification/ConformanceSafe.v ===== *)
(** * What a valid report says

    [validate_topology] accepts exactly the topologies that conform to the registered
    schemas, stated without reports, and a statement that is accepted only uses labels and
    relationship types of the registry. *)
From S2P Require Import Prelude Bytes F64 Errors Ast ArenaShape Text BTree Levenshtein Schema Topology TopologySafe Conformance.

Open Scope Z_scope.
Open Scope string_scope.
Open Scope list_scope.

(** ** Reports *)

(** A check makes a report invalid exactly when [P] fails, and what is invalid has an error. *)
Definition reports (f : ConformanceReport → ConformanceReport) (P : Prop) : Prop :=
  ∀ r, is_valid (f r) = true ↔ is_valid r = true ∧ P.
Definition truthful (r : ConformanceReport) : Prop := is_valid r = true ↔ error_messages r = [].
Definition keeps_truth (f : ConformanceReport → ConformanceReport) : Prop := ∀ r, truthful r → truthful (f r).

Lemma error_messages_add d r :
  error_messages (add d r) = error_messages r ++ (if decide (d_severity d = SevError) then [diagnostic_text d] else []).
Proof.
  unfold error_messages. cbn [diagnostics add]. rewrite filter_app, fmap_app. f_equal.
  destruct (decide (d_severity d = SevError)) as [E|E]; [by rewrite filter_cons_True|by rewrite filter_cons_False].
Qed.

Lemma add_truth d : keeps_truth (add d).
Proof.
  intros r Hr. unfold truthful. rewrite error_messages_add. cbn [is_valid add]. unfold truthful in Hr.
  destruct (decide (d_severity d = SevError)) as [E|E].
  - rewrite bool_decide_true by done. split; [done|]. by intros [_ ?]%app_nil.
  - rewrite bool_decide_false, app_nil_r by done. done.
Qed.
Lemma for_each_truth {A} (f : A → ConformanceReport → ConformanceReport) l :
  (∀ x, keeps_truth (f x)) → keeps_truth (for_each f l).
Proof. intros Hf. unfold for_each. induction l as [|x l IH]; intros r Hr; [done|]. cbn. by apply IH, Hf. Qed.

Lemma reports_id (P : Prop) : P → reports id P.
Proof. intros HP r. unfold id. tauto. Qed.
Lemma reports_none (f : ConformanceReport → ConformanceReport) (P : Prop) : (∀ r, f r = r) → P → reports f P.
Proof. intros Hf HP r. rewrite Hf. tauto. Qed.
Lemma reports_error f d (P : Prop) : (∀ r, f r = add d r) → d_severity d = SevError → ¬ P → reports f P.
Proof. intros Hf Hd HP r. rewrite Hf. cbn [is_valid add]. rewrite bool_decide_true by done. naive_solver. Qed.
Lemma reports_warning f d (P : Prop) : (∀ r, f r = add d r) → d_severity d ≠ SevError → P → reports f P.
Proof. intros Hf Hd HP r. rewrite Hf. cbn [is_valid add]. rewrite bool_decide_false by done. tauto. Qed.
Lemma reports_for_each {A} (f : A → ConformanceReport → ConformanceReport) (P : A → Prop) l :
  (∀ x, reports (f x) (P x)) → reports (for_each f l) (∀ x, x ∈ l → P x).
Proof.
  intros Hf. unfold for_each. induction l as [|x l IH]; intros r; [split; [|tauto]; intros; split; [done|set_solver]|].
  cbn. pose proof (IH (f x r)) as IH'. cbv beta in IH'. rewrite IH', (Hf x r). set_solver.
Qed.
Lemma reports_then f g (P Q : Prop) : reports f P → reports g Q → reports (λ r, g (f r)) (P ∧ Q).
Proof. intros Hf Hg r. rewrite (Hg (f r)), (Hf r). tauto. Qed.
Lemma reports_iff f (P Q : Prop) : reports f P → (P ↔ Q) → reports f Q.
Proof. intros Hf HPQ r. rewrite (Hf r). tauto. Qed.

#[export] Instance reports_proper f : Proper (iff ==> iff) (reports f).
Proof. intros P Q HPQ. split; intros Hf; (eapply reports_iff; [exact Hf|tauto]). Qed.

(** ** Conformance, without reports *)
Definition ic (s t : string) : Prop := to_ascii_lowercase s = to_ascii_lowercase t.
#[local] Notation "s ≈ t" := (ic s t) (at level 70).

Lemma eq_ignore_ascii_case_ic s t : eq_ignore_ascii_case s t = true ↔ s ≈ t.
Proof. apply bool_decide_eq_true. Qed.

(** A label belongs to a schema, or is the name of its model. *)
Definition names_node (label : string) (n : NodeSchema) : Prop := (∃ l, l ∈ ns_labels n ∧ l ≈ label) ∨ ns_name n ≈ label.
Definition names_rel (ty : string) (r : RelationshipSchema) : Prop := rs_type_name r ≈ ty ∨ rs_name r ≈ ty.

Lemma existsb_elem {A} (f : A → bool) l : existsb f l = true ↔ ∃ x, x ∈ l ∧ f x = true.
Proof. rewrite existsb_exists. by setoid_rewrite <- list_elem_of_In. Qed.

Lemma node_named_iff label n : node_named label n = true ↔ names_node label n.
Proof.
  unfold node_named, node_has_label, names_node. rewrite orb_true_iff, existsb_elem, eq_ignore_ascii_case_ic.
  by setoid_rewrite eq_ignore_ascii_case_ic.
Qed.
Lemma rel_named_iff ty r : rel_named ty r = true ↔ names_rel ty r.
Proof. unfold rel_named, names_rel. by rewrite orb_true_iff, !eq_ignore_ascii_case_ic. Qed.

(** The first schema of a list that satisfies a test. *)
Definition first_with {A} (P : A → Prop) (l : list A) (x : A) : Prop :=
  ∃ l1 l2, l = l1 ++ x :: l2 ∧ P x ∧ ∀ y, y ∈ l1 → ¬ P y.

Lemma find_first {A} (f : A → bool) (P : A → Prop) l x :
  (∀ y, f y = true ↔ P y) → List.find f l = Some x ↔ first_with P l x.
Proof.
  intros Hf. split.
  - induction l as [|y l IH]; [done|]. cbn. destruct (f y) eqn:E.
    + intros [= <-]. exists [], l. split; [done|]. split; [by apply Hf|set_solver].
    + intros H. destruct (IH H) as (l1 & l2 & -> & Hx & Hl). exists (y :: l1), l2. split; [done|]. split; [done|].
      intros z [->|Hz]%elem_of_cons; [rewrite <- Hf; by rewrite E|by apply Hl].
  - intros (l1 & l2 & -> & Hx & Hl). induction l1 as [|y l1 IH]; cbn.
    + by rewrite (proj2 (Hf x) Hx).
    + destruct (f y) eqn:E; [|apply IH; set_solver]. exfalso. apply (Hl y); [set_solver|by apply Hf].
Qed.

Lemma find_some {A} (f : A → bool) (P : A → Prop) l :
  (∀ y, f y = true ↔ P y) → is_Some (List.find f l) ↔ ∃ x, x ∈ l ∧ P x.
Proof.
  intros Hf. split.
  - intros [x (Hin & Hx)%List.find_some]. exists x. split; [by apply list_elem_of_In|by apply Hf].
  - intros (x & Hin & Hx). destruct (List.find f l) eqn:E; [done|]. exfalso.
    apply list_elem_of_In in Hin. apply (List.find_none _ _ E) in Hin. apply Hf in Hx. by rewrite Hx in Hin.
Qed.

Section conforms.
Context (all_nodes : list NodeSchema) (all_rels : list RelationshipSchema).

(** The schemas of a node's labels, in the order of the labels. *)
Definition schemas_of (labels : list string) : list NodeSchema := omap (find_node all_nodes) labels.

(** The declaration of a property: that of the first of these schemas that has one. *)
Definition declares (schemas : list NodeSchema) (k : string) (fd : FieldDescriptor) : Prop :=
  ∃ ns, first_with (λ ns, is_Some (bt_get k (ns_fields ns))) schemas ns ∧ bt_get k (ns_fields ns) = Some fd.

Record node_conforms (n : TopologyNode) : Prop := {
  labels_known : all_nodes ≠ [] → ∀ label, label ∈ tn_labels n → ∃ ns, ns ∈ all_nodes ∧ names_node label ns;
  properties_typed : ∀ k v fd, (k, v) ∈ tn_properties n → declares (schemas_of (tn_labels n)) k fd →
    matches_literal (fd_field_type fd) v = true;
}.

(** One end of an edge may have these labels. *)
Definition end_meets (declared labels : list string) : Prop :=
  declared = [] ∨ labels = [] ∨ ∃ l sl, l ∈ labels ∧ sl ∈ declared ∧ sl ≈ l.
Definition meets (rs : RelationshipSchema) (src tgt : list string) : Prop :=
  end_meets (rs_source_labels rs) src ∧ end_meets (rs_target_labels rs) tgt.

Record type_conforms (e : TopologyEdge) (src tgt : list string) (ty : string) (rs : RelationshipSchema) : Prop := {
  ends_meet : meets rs src tgt ∨ te_direction e = DirUndirected ∧ meets rs tgt src;
  rel_properties_typed : ∀ k v fd, (k, v) ∈ te_properties e → bt_get k (rs_fields rs) = Some fd →
    matches_literal (fd_field_type fd) v = true;
}.

(** The labels of the node an edge names. *)
Definition edge_conforms (nodes : list TopologyNode) (e : TopologyEdge) : Prop :=
  ∀ ty, ty ∈ te_types e → ty ≠ "" →
    (all_rels ≠ [] → ∃ rs, rs ∈ all_rels ∧ names_rel ty rs) ∧
    ∀ rs, first_with (names_rel ty) all_rels rs →
      type_conforms e (labels_at nodes (te_source e)) (labels_at nodes (te_target e)) ty rs.
End conforms.

Record conforms (s : SchemaRegistry) (t : GraphTopology) : Prop := {
  version_known : t_version t = 1;
  nodes_conform : ∀ n, n ∈ t_nodes t → node_conforms (node_schemas s) n;
  edges_conform : ∀ e, e ∈ t_edges t → edge_conforms (relationship_schemas s) (t_nodes t) e;
}.

(** ** The checks *)
Section checks.
Context `{DebugText} (all_nodes : list NodeSchema) (all_rels : list RelationshipSchema).

Lemma find_node_known label : is_Some (find_node all_nodes label) ↔ ∃ ns, ns ∈ all_nodes ∧ names_node label ns.
Proof. apply find_some, node_named_iff. Qed.
Lemma find_rel_known ty : is_Some (find_rel all_rels ty) ↔ ∃ rs, rs ∈ all_rels ∧ names_rel ty rs.
Proof. apply find_some, rel_named_iff. Qed.

(** Labels: the schemas that are recognized, and the labels that are not. *)
Lemma check_labels_spec n r :
  (check_labels all_nodes n r).1 = schemas_of all_nodes (tn_labels n) ∧
  (is_valid (check_labels all_nodes n r).2 = true ↔
     is_valid r = true ∧ (all_nodes ≠ [] → ∀ label, label ∈ tn_labels n → is_Some (find_node all_nodes label))) ∧
  (truthful r → truthful (check_labels all_nodes n r).2).
Proof.
  unfold check_labels, schemas_of. generalize (tn_labels n) as labels. intros labels.
  assert (∀ rec r, let st := foldl (λ st label, check_label all_nodes n label st) (rec, r) labels in
    st.1 = rec ++ omap (find_node all_nodes) labels ∧
    (is_valid st.2 = true ↔ is_valid r = true ∧
       (all_nodes ≠ [] → ∀ label, label ∈ labels → is_Some (find_node all_nodes label))) ∧
    (truthful r → truthful st.2)) as Hgen; [|apply (Hgen [] r)].
  clear r. induction labels as [|label labels IH]; intros rec r st.
  - cbn. rewrite app_nil_r. split; [done|]. split; [|done]. split; [|tauto]. intros Hr. split; [done|]. intros _ l Hl. set_solver.
  - subst st. cbn [foldl omap list_omap]. unfold check_label at 2 4 6.
    destruct (find_node all_nodes label) as [ns|] eqn:E.
    + destruct (IH (rec ++ [ns]) r) as (H1 & H2 & H3). rewrite H1, H2. split; [by rewrite <- app_assoc|].
      split; [|done]. set_unfold. split; [|naive_solver]. intros [Hr Hl]. split; [done|].
      intros Ha l [->|Hin]; [by rewrite E|by apply Hl].
    + case_bool_decide as Ea.
      * destruct (IH rec r) as (H1 & H2 & H3). rewrite H1, H2. split; [done|]. split; [|done]. naive_solver.
      * match goal with |- context [add ?d r] => set (diag := d) end.
        destruct (IH rec (add diag r)) as (H1 & H2 & H3). rewrite H1, H2. split; [done|].
        split; [|intros Hr; by apply H3, add_truth]. cbn [is_valid add]. rewrite bool_decide_true by done.
        split; [naive_solver|]. intros [_ Hl]. destruct (Hl Ea label) as [? Hx]; [set_solver|]. by rewrite Hx in E.
Qed.

Lemma declaring_iff k schemas fd :
  (∃ ns, declaring k schemas = Some (ns, fd)) ↔ declares schemas k fd.
Proof.
  unfold declares, first_with. split.
  - intros (ns & Hd). induction schemas as [|ns' schemas IH]; [done|]. cbn in Hd.
    destruct (bt_get k (ns_fields ns')) as [fd'|] eqn:E.
    + injection Hd as -> ->. exists ns. split; [|done]. exists [], schemas. split; [done|]. split; [by rewrite E|set_solver].
    + destruct (IH Hd) as (ns0 & (l1 & l2 & -> & Hx & Hl) & Hg). exists ns0. split; [|done].
      exists (ns' :: l1), l2. split; [done|]. split; [done|]. intros y [->|Hy]%elem_of_cons; [by rewrite E; intros []|by apply Hl].
  - intros (ns & (l1 & l2 & -> & _ & Hl) & Hg). exists ns. induction l1 as [|y l1 IH]; cbn; [by rewrite Hg|].
    destruct (bt_get k (ns_fields y)) eqn:E; [|apply IH; set_solver]. exfalso. apply (Hl y); [set_solver|by rewrite E].
Qed.

(** Properties of nodes. *)
Lemma check_node_property_reports n rec prop :
  reports (check_node_property n rec prop)
    (∀ fd, declares rec prop.1 fd → matches_literal (fd_field_type fd) prop.2 = true) ∧
  keeps_truth (check_node_property n rec prop).
Proof.
  destruct prop as [k v]. cbn [fst snd]. unfold check_node_property.
  case_bool_decide as Er; [split; [|by intros r]|].
  { apply reports_id. intros fd (ns & (l1 & l2 & Hl & _) & _). subst. by destruct l1. }
  destruct (declaring k rec) as [[ns fd]|] eqn:E.
  - assert (∀ fd', declares rec k fd' → fd' = fd) as Hone by (intros fd' (ns' & Hd)%declaring_iff; congruence).
    destruct (matches_literal (fd_field_type fd) v) eqn:Em; (split; [|first [by intros r|apply add_truth]]).
    + apply reports_id. intros fd' Hd. by rewrite (Hone fd' Hd).
    + eapply reports_error; [done|done|]. intros Hall. rewrite (Hall fd) in Em; [done|].
      apply declaring_iff. by exists ns.
  - split; [|apply add_truth]. eapply reports_warning; [done|done|].
    intros fd (ns & Hd)%declaring_iff. congruence.
Qed.

Lemma check_node_reports n : reports (check_node all_nodes n) (node_conforms all_nodes n) ∧ keeps_truth (check_node all_nodes n).
Proof.
  split.
  - intros r. unfold check_node. destruct (check_labels_spec n r) as (H1 & H2 & _).
    destruct (check_labels all_nodes n r) as [rec r']. cbn [fst snd] in *. subst rec.
    rewrite (reports_for_each _ _ _ (λ p, proj1 (check_node_property_reports n (schemas_of all_nodes (tn_labels n)) p)) r'), H2.
    setoid_rewrite find_node_known. split.
    + intros [[Hr Hl] Hp]. split; [done|]. split; [done|]. intros k v fd Hin. by apply (Hp (k, v)).
    + intros [Hr [Hl Hp]]. split; [done|]. intros [k v] Hin fd. by apply Hp.
  - intros r Hr. unfold check_node. destruct (check_labels_spec n r) as (_ & _ & H3).
    destruct (check_labels all_nodes n r) as [rec r']. apply for_each_truth; [|by apply H3].
    intros p. apply check_node_property_reports.
Qed.

(** Relationships. *)
Lemma end_allowed_iff declared labels : end_allowed declared labels = true ↔ end_meets declared labels.
Proof.
  unfold end_allowed, end_meets. rewrite !orb_true_iff, !bool_decide_eq_true, existsb_elem.
  setoid_rewrite existsb_elem. setoid_rewrite eq_ignore_ascii_case_ic. naive_solver.
Qed.
Lemma allows_endpoints_iff rs src tgt : allows_endpoints rs src tgt = true ↔ meets rs src tgt.
Proof. unfold allows_endpoints, meets. by rewrite andb_true_iff, !end_allowed_iff. Qed.
Lemma endpoints_ok_iff rs d src tgt :
  endpoints_ok rs d src tgt = true ↔ meets rs src tgt ∨ d = DirUndirected ∧ meets rs tgt src.
Proof. destruct d; cbn; rewrite ?orb_true_iff, !allows_endpoints_iff; naive_solver. Qed.

Lemma check_endpoints_reports e ty rs src tgt :
  reports (check_endpoints e ty rs src tgt) (meets rs src tgt ∨ te_direction e = DirUndirected ∧ meets rs tgt src) ∧
  keeps_truth (check_endpoints e ty rs src tgt).
Proof.
  unfold check_endpoints. rewrite <- endpoints_ok_iff.
  destruct (endpoints_ok rs (te_direction e) src tgt) eqn:E; cbn [negb andb]; [by split; [apply reports_id|intros r]|].
  destruct (negb (bool_decide (src = [])) || negb (bool_decide (tgt = []))) eqn:El; cbn [negb andb orb].
  - split; [by eapply reports_error|apply add_truth].
  - exfalso. apply orb_false_iff in El as [->%negb_false_iff%bool_decide_eq_true ->%negb_false_iff%bool_decide_eq_true].
    apply not_true_iff_false in E. apply E, endpoints_ok_iff. left. split; right; by left.
Qed.

Lemma check_direction_reports e ty rs : reports (check_direction e ty rs) True ∧ keeps_truth (check_direction e ty rs).
Proof.
  unfold check_direction. destruct (te_direction e); [by split; [apply reports_id|intros r]..|].
  destruct (rs_directed rs); [|by split; [apply reports_id|intros r]].
  split; [by eapply reports_warning|apply add_truth].
Qed.

Lemma check_rel_property_reports e ty rs prop :
  reports (check_rel_property e ty rs prop)
    (∀ fd, bt_get prop.1 (rs_fields rs) = Some fd → matches_literal (fd_field_type fd) prop.2 = true) ∧
  keeps_truth (check_rel_property e ty rs prop).
Proof.
  destruct prop as [k v]. cbn [fst snd]. unfold check_rel_property.
  destruct (bt_get k (rs_fields rs)) as [fd|].
  - destruct (matches_literal (fd_field_type fd) v) eqn:Em; (split; [|first [by intros r|apply add_truth]]).
    + apply reports_id. by intros fd' [= <-].
    + eapply reports_error; [done|done|]. intros Hall. by rewrite (Hall fd) in Em.
  - split; [by eapply reports_warning|apply add_truth].
Qed.

Lemma check_rel_type_reports e src tgt ty :
  reports (check_rel_type all_rels e src tgt ty)
    (ty ≠ "" → (all_rels ≠ [] → ∃ rs, rs ∈ all_rels ∧ names_rel ty rs) ∧
       ∀ rs, first_with (names_rel ty) all_rels rs → type_conforms e src tgt ty rs) ∧
  keeps_truth (check_rel_type all_rels e src tgt ty).
Proof.
  unfold check_rel_type. case_bool_decide as Ety; [by split; [apply reports_id|intros r]|].
  setoid_rewrite <- (λ rs, find_first _ _ all_rels rs (rel_named_iff ty)). setoid_rewrite <- find_rel_known.
  unfold find_rel. destruct (List.find (rel_named ty) all_rels) as [rs|] eqn:E.
  - pose proof (check_endpoints_reports e ty rs src tgt) as [H1 T1].
    pose proof (check_direction_reports e ty rs) as [H2 T2]. split.
    + eapply reports_iff.
      * apply (reports_then (λ r, check_direction e ty rs (check_endpoints e ty rs src tgt r)));
          [apply (reports_then _ _ _ _ H1 H2)|apply reports_for_each; intros p; apply check_rel_property_reports].
      * split.
        -- intros [[Hm _] Hp] _. split; [by eexists|]. intros rs' [= <-]. split; [done|].
           intros k v fd Hin. by apply (Hp (k, v)).
        -- intros Hc. destruct (Hc Ety) as [_ Hc']. destruct (Hc' rs eq_refl) as [Hm Hp]. split; [done|].
           intros [k v] Hin fd. by apply Hp.
    + intros r Hr. apply for_each_truth; [intros p; apply check_rel_property_reports|]. by apply T2, T1.
  - case_bool_decide as Ea; [split; [|by intros r]|split; [|apply add_truth]].
    + apply reports_id. intros _. split; [done|]. by intros rs.
    + eapply reports_error; [done|done|]. intros Hc. destruct (Hc Ety) as [Hk _]. by destruct (Hk Ea).
Qed.

Lemma check_edge_reports nodes e :
  reports (check_edge all_rels nodes e) (edge_conforms all_rels nodes e) ∧ keeps_truth (check_edge all_rels nodes e).
Proof.
  split; [|apply for_each_truth; intros ty; apply check_rel_type_reports].
  apply reports_for_each. intros ty. apply check_rel_type_reports.
Qed.
End checks.

(** ** The report of a topology *)
Section report.
Context `{DebugText}.

Lemma empty_conforms n : node_conforms [] n.
Proof.
  split; [done|]. intros k v fd _ (ns & (l1 & l2 & Hl & _) & _).
  unfold schemas_of in Hl. assert (omap (find_node []) (tn_labels n) = []) as E
    by (clear; induction (tn_labels n) as [|l ls IH]; [reflexivity|exact IH]).
  rewrite E in Hl. by destruct l1.
Qed.
Lemma empty_edge_conforms nodes e : edge_conforms [] nodes e.
Proof. intros ty _ _. split; [done|]. intros rs (l1 & l2 & Hl & _). by destruct l1. Qed.

Lemma new_truthful : truthful ConformanceReport_new.
Proof. done. Qed.

Lemma validate_spec s t :
  (is_valid (validate_topology s t) = true ↔ conforms s t) ∧ truthful (validate_topology s t).
Proof.
  unfold validate_topology. case_bool_decide as Hv.
  { split; [|apply add_truth, new_truthful]. cbn [is_valid add d_severity]. rewrite bool_decide_true by done.
    split; [done|]. by intros [Hv' _ _]. }
  destruct (bool_decide (node_schemas s = []) && bool_decide (relationship_schemas s = [])) eqn:Ee.
  - apply andb_true_iff in Ee as [En%bool_decide_eq_true Er%bool_decide_eq_true].
    split; [|apply new_truthful]. split; [|done]. intros _. split; [done|..].
    + intros n _. rewrite En. apply empty_conforms.
    + intros e _. rewrite Er. apply empty_edge_conforms.
  - split.
    + rewrite (reports_for_each _ _ (t_edges t) (λ e, proj1 (check_edge_reports (relationship_schemas s) (t_nodes t) e)) _),
        (reports_for_each _ _ (t_nodes t) (λ n, proj1 (check_node_reports (node_schemas s) n)) _).
      split; [intros [[_ Hn] He]; by split|intros [_ Hn He]; done].
    + apply for_each_truth; [intros e; apply check_edge_reports|].
      apply for_each_truth; [intros n; apply check_node_reports|]. apply new_truthful.
Qed.

(** C18: Validation accepts exactly the topologies that conform to the registered schemas: known
    labels and relationship types, properties of their declared types, ends that may be
    connected; and a topology that is not accepted comes with at least one error message. *)
Theorem validation_decides_conformance s t :
  (is_valid (validate_topology s t) = true ↔ conforms s t) ∧
  (is_valid (validate_topology s t) = true ↔ error_messages (validate_topology s t) = []).
Proof. exact (validate_spec s t). Qed.

(** C11: A statement that validation accepts names only what is registered: each label of a
    pattern in its MATCH, CREATE and MERGE clauses belongs to a registered node schema, and each
    relationship type to a registered relationship schema, letter case aside, as long as any
    schema of that kind is registered. *)
Theorem accepted_statement_is_registered `{LowerCase} a root mode csv unwinds matches linear withs mutations ret t s
    clause path p :
  acyclic a → arena_get a root = Ok (QueryStatement mode csv unwinds matches linear withs mutations ret) →
  from_arena a (Some root) = Some t → is_valid (validate_topology s t) = true →
  clause ∈ matches ++ mutations → path ∈ clause_paths a clause → p ∈ path_patterns a path →
  match p with
  | NodeAt h => ∀ n l, arena_get a h = Ok n → l ∈ node_labels n → node_schemas s ≠ [] →
      ∃ ns, ns ∈ node_schemas s ∧ names_node l ns
  | EdgeAt h => ∀ n ty, arena_get a h = Ok n → ty ∈ edge_types n → ty ≠ "" → relationship_schemas s ≠ [] →
      ∃ rs, rs ∈ relationship_schemas s ∧ names_rel ty rs
  end.
Proof.
  intros Ha Hr Ht Hv Hc Hp Hpp. apply validate_spec in Hv as [_ Hnodes Hedges].
  pose proof (topology_keeps_labels a root mode csv unwinds matches linear withs mutations ret t clause path p
                Ha Hr Ht Hc Hp Hpp) as Hkept.
  destruct p as [h|h]; intros n l Hn Hl.
  - intros Hne. destruct (Hkept n Hn) as (tn & Hin & Hsub).
    by apply (labels_known _ _ (Hnodes tn Hin) Hne), Hsub.
  - intros Hl' Hne. destruct (Hkept n Hn) as (te & Hin & Hsub).
    by apply (Hedges te Hin l (Hsub l Hl) Hl').
Qed.
End report.

(** ** Concrete reports *)
#[local] Existing Instance ascii_LowerCase.
#[local] Instance toy_debug : DebugText := {| debug_texts := join ", "; debug_literal _ := "<literal>" |}.

Definition people : SchemaRegistry :=
  (register_relationship (with_endpoints ["Person"] ["Person"] (RelationshipSchema_new "Knows" "KNOWS"))
     (register_node (ns_with_field (FieldDescriptor_new "name" FT_String) (NodeSchema_new "Person" ["Person"; "Robot"]))
        SchemaRegistry_new).2).2.

Example friends_conform :
  option_map (λ t, validate_topology people t) (from_arena friends (Some 10)) = Some ConformanceReport_new.
Proof. vm_compute. reflexivity. Qed.

Lemma accepted_statement_is_registered_witness :
  ∃ ns, ns ∈ node_schemas people ∧ names_node "Robot" ns.
Proof.
  destruct (from_arena friends (Some 10)) as [t|] eqn:E; [|exfalso; revert E; vm_compute; discriminate].
  refine (accepted_statement_is_registered friends 10 Normal None [] [9] [] [] [] None t people 9 7 (NodeAt 5)
            friends_acyclic eq_refl E _ _ _ _ _ "Robot" eq_refl _ _).
  - pose proof friends_conform as Hc. rewrite E in Hc. cbn [option_map] in Hc. injection Hc as Hc. by rewrite Hc.
  - vm_compute. left.
  - vm_compute. left.
  - vm_compute. right. right. left.
  - vm_compute. right. left.
  - vm_compute. discriminate.
Defined.

(** [MATCH (p:Persn {nme: 1})]: an unknown label is reported with the nearest one. *)
Example typo_is_reported :
  error_messages (validate_topology people
    (mkTopology 1 [mkTNode "p" "Persn" ["Persn"] "Persn" 11 [] [] None] []))
  = ["Node label 'Persn' is not registered in SchemaRegistry (Did you mean label 'Person'?)"].
Proof. vm_compute. reflexivity. Qed.

(** Properties of a node whose labels are all unknown, or that has none, are not checked. *)
Example unlabelled_properties_are_unchecked :
  validate_topology people
    (mkTopology 1 [mkTNode "p" "p" [] "Entity" 11 [("nme", LInt64 1)] [] None] []) = ConformanceReport_new.
Proof. vm_compute. reflexivity. Qed.

(** [MATCH (n:!Internal)]: a label that is excluded counts as a label of the node. *)
Example negated_label_is_reported :
  option_map (λ t, error_messages (validate_topology people t))
    (from_arena (mkArena [
       NodePattern (Some "n") (Some (LabelNot (LabelName "Internal"))) [];
       MatchClause false [0] None;
       QueryStatement Normal None [] [1] [] [] [] None]) (Some 2))
  = Some ["Node label 'Internal' is not registered in SchemaRegistry"].
Proof. vm_compute. reflexivity. Qed.
