(* ===== verification/Builder.v ===== *)
(** * The query builder ([voyager-core/src/builder.rs])

    [QueryBuilder] collects clauses and the path being written; its methods are
    computations in [BM] over its fields.  A method that returns [&mut Self] has
    result [()], one that allocates a node returns its handle.  [impl Into<String>]
    and [impl Into<LiteralValue>] arguments are the converted values. *)
From S2P Require Import Prelude Bytes F64 Errors Text Ast Label.
From coqutil Require Import Datatypes.RecordSetters.
Import TriangleBracketNotations.

Open Scope Z_scope.
Open Scope string_scope.
Open Scope list_scope.

Record PendingEdge := mkPending {
  pe_direction : Direction;
  pe_label_expression : option LabelExpression;
  pe_variable : option string;
  pe_min_hops : option Z;
  pe_max_hops : option Z;
}.

Inductive ClauseMode := CMMatch | CMOptionalMatch | CMCreate | CMMerge | CMWith.

Record QueryBuilder := mkBuilder {
  arena : QueryAstArena;
  b_execution_mode : ExecutionMode;
  b_load_csv : option NodeHandle;
  unwind_clauses : list NodeHandle;
  match_clauses : list NodeHandle;
  linear_clauses : list NodeHandle;
  with_clauses : list NodeHandle;
  mutation_clauses : list NodeHandle;
  procedure_call : option NodeHandle;
  clause_mode : option ClauseMode;
  is_optional_match : bool;
  current_path_start : option NodeHandle;
  current_path_mode : PathMode;
  current_path_variable : option string;
  current_edges : list NodeHandle;
  current_match_paths : list NodeHandle;
  pending_edge : option PendingEdge;
  current_where_predicates : list NodeHandle;
  current_on_create_set : list NodeHandle;
  current_on_match_set : list NodeHandle;
  current_set_items : list NodeHandle;
  projections : list ProjectionItem;
  order_bys : list (NodeHandle * bool);
  b_distinct : bool;
  b_limit : option Z;
  b_skip : option Z;
}.

Definition QueryBuilder_new : QueryBuilder :=
  mkBuilder arena_new Normal None [] [] [] [] [] None None false None PMNone None [] [] None [] [] [] []
    [] [] false None None.

(** ** Computations on a builder *)

Definition BM (A : Type) : Type := QueryBuilder → A * QueryBuilder.

#[export] Instance BM_ret : MRet BM := λ A x b, (x, b).
#[export] Instance BM_bind : MBind BM := λ A B f m b, let '(x, b) := m b in f x b.

Definition gets {A} (f : QueryBuilder → A) : BM A := λ b, (f b, b).
Definition modify (f : QueryBuilder → QueryBuilder) : BM () := λ b, (tt, f b).

(** [self.arena.alloc(node)]. *)
Definition b_alloc (node : AstNode) : BM NodeHandle :=
  λ b, let '(h, a) := arena_alloc node (arena b) in (h, b <| arena := a |>).

(** [if let Ok(node) = self.arena.get_mut(h) { .. }]. *)
Definition b_update (h : NodeHandle) (f : AstNode → AstNode) : BM () :=
  λ b, match arena_get (arena b) h with
       | Ok n => (tt, b <| arena := arena_set (arena b) h (f n) |>)
       | Err _ => (tt, b)
       end.

Fixpoint b_map {A B} (f : A → BM B) (l : list A) : BM (list B) :=
  match l with
  | [] => mret []
  | x :: l => y ← f x; ys ← b_map f l; mret (y :: ys)
  end.

(** ** Flushing the path and the clause being written *)

Definition is_mutation (m : option ClauseMode) : bool :=
  match m with Some CMCreate | Some CMMerge => true | _ => false end.

Fixpoint conjoin_predicates (combined : NodeHandle) (preds : list NodeHandle) : BM NodeHandle :=
  match preds with
  | [] => mret combined
  | next_pred :: preds =>
      combined ← b_alloc (BinaryExpression combined And next_pred);
      conjoin_predicates combined preds
  end.

(** The WHERE clause of the collected predicates, which are taken. *)
Definition take_where_clause : BM (option NodeHandle) :=
  preds ← gets current_where_predicates;
  match preds with
  | [] => mret None
  | first :: rest =>
      _ ← modify (λ b, b <| current_where_predicates := [] |>);
      root_pred ← conjoin_predicates first rest;
      h ← b_alloc (WhereClause root_pred);
      mret (Some h)
  end.

(** The path being written, when it has a start: the same lines of [pattern] and of
    [flush_current_path]. *)
Definition take_path : BM (option NodeHandle) :=
  start ← gets current_path_start;
  match start with
  | None => mret None
  | Some start_node =>
      mode ← gets clause_mode;
      mode_set ← gets current_path_mode;
      variable_set ← gets current_path_variable;
      edges ← gets current_edges;
      let path_mode := if is_mutation mode then PMNone else mode_set in
      let path_variable := if is_mutation mode then None else variable_set in
      _ ← modify (λ b, b <| current_path_start := None |> <| current_path_mode := PMNone |>
                         <| current_path_variable := None |>);
      match edges, path_mode, path_variable with
      | [], PMNone, None => mret (Some start_node)
      | _, _, _ =>
          _ ← modify (λ b, b <| current_edges := [] |>);
          h ← b_alloc (PathChain path_variable path_mode start_node edges);
          mret (Some h)
      end
  end.

Definition pattern : BM () :=
  p ← take_path;
  match p with
  | None => mret tt
  | Some path_handle => modify (λ b, b <| current_match_paths ::= λ l, l ++ [path_handle] |>)
  end.

Definition flush_with : BM () :=
  items ← gets projections;
  _ ← modify (λ b, b <| projections := [] |>);
  _ ← match items with
      | [] => modify (λ b, b <| current_where_predicates := [] |>)
      | _ =>
          where_clause ← take_where_clause;
          order_by ← gets order_bys;
          distinct ← gets b_distinct;
          skip ← gets b_skip;
          limit ← gets b_limit;
          with_handle ← b_alloc (WithClause distinct items order_by skip limit where_clause);
          modify (λ b, b <| with_clauses ::= λ l, l ++ [with_handle] |>)
      end;
  modify (λ b, b <| order_bys := [] |> <| b_distinct := false |> <| b_skip := None |>
                 <| b_limit := None |> <| clause_mode := None |>).

Definition flush_paths (paths : list NodeHandle) : BM () :=
  mode ← gets clause_mode;
  match paths, mode with
  | [], _ => mret tt
  | _, Some CMCreate =>
      create_handle ← b_alloc (CreateClause paths);
      modify (λ b, b <| mutation_clauses ::= λ l, l ++ [create_handle] |>)
  | path :: _, Some CMMerge =>
      on_create_set ← gets current_on_create_set;
      on_match_set ← gets current_on_match_set;
      _ ← modify (λ b, b <| current_on_create_set := [] |> <| current_on_match_set := [] |>);
      merge_handle ← b_alloc (MergeClause path on_create_set on_match_set);
      modify (λ b, b <| mutation_clauses ::= λ l, l ++ [merge_handle] |>)
  | _, _ =>
      where_clause ← take_where_clause;
      optional ← gets is_optional_match;
      match_handle ← b_alloc (MatchClause optional paths where_clause);
      modify (λ b, b <| match_clauses ::= λ l, l ++ [match_handle] |>)
  end.

Definition flush_set_items : BM () :=
  items ← gets current_set_items;
  match items with
  | [] => mret tt
  | _ =>
      _ ← modify (λ b, b <| current_set_items := [] |>);
      set_clause ← b_alloc (SetClause items);
      modify (λ b, b <| mutation_clauses ::= λ l, l ++ [set_clause] |>)
  end.

Definition flush_current_path : BM () :=
  mode ← gets clause_mode;
  match mode with
  | Some CMWith => flush_with
  | _ =>
      paths ← gets current_match_paths;
      _ ← modify (λ b, b <| current_match_paths := [] |>);
      p ← take_path;
      _ ← flush_paths (paths ++ option_list p);
      flush_set_items
  end.

(** ** Nodes *)

Definition ident (name : string) : BM NodeHandle := b_alloc (Identifier name).
Definition literal (val : LiteralValue) : BM NodeHandle := b_alloc (Literal val).
Definition prop (var_name property : string) : BM NodeHandle :=
  target ← ident var_name; b_alloc (PropertyAccess target property).
Definition binary_expr (l : NodeHandle) (op : BinaryOp) (r : NodeHandle) : BM NodeHandle :=
  b_alloc (BinaryExpression l op r).
Definition math_expr : NodeHandle → BinaryOp → NodeHandle → BM NodeHandle := binary_expr.
Definition unary_expr (op : UnaryOp) (operand : NodeHandle) : BM NodeHandle :=
  b_alloc (UnaryExpression op operand).
Definition not_expr (operand : NodeHandle) : BM NodeHandle := unary_expr Not operand.
Definition neg_expr (operand : NodeHandle) : BM NodeHandle := unary_expr Neg operand.
Definition is_null_expr (operand : NodeHandle) : BM NodeHandle := unary_expr IsNull operand.
Definition is_not_null_expr (operand : NodeHandle) : BM NodeHandle := unary_expr IsNotNull operand.
Definition function (name : string) (arguments : list NodeHandle) : BM NodeHandle :=
  b_alloc (FunctionCall name arguments).
Definition case_when (operand : option NodeHandle) (branches : list (NodeHandle * NodeHandle))
    (else_branch : option NodeHandle) : BM NodeHandle :=
  b_alloc (CaseExpression operand branches else_branch).
Definition list_comprehension (variable : string) (list_expression : NodeHandle)
    (where_filter map_expression : option NodeHandle) : BM NodeHandle :=
  b_alloc (ListComprehension variable list_expression where_filter map_expression).
Definition pattern_comprehension (path : NodeHandle) (where_filter : option NodeHandle)
    (projection : NodeHandle) : BM NodeHandle :=
  b_alloc (PatternComprehension path where_filter projection).
Definition exists_subquery (subquery : NodeHandle) : BM NodeHandle := b_alloc (ExistsSubquery subquery).
Definition count_subquery (subquery : NodeHandle) : BM NodeHandle := b_alloc (CountSubquery subquery).
Definition list_literal (items : list NodeHandle) : BM NodeHandle := b_alloc (ListLiteral items).
Definition param (name : string) : BM NodeHandle := b_alloc (ParameterNode name).

(** ** Modes *)

Definition explain : BM () := modify (λ b, b <| b_execution_mode ::= with_explain |>).
Definition profile : BM () := modify (λ b, b <| b_execution_mode ::= with_profile |>).
Definition set_execution_mode (mode : ExecutionMode) : BM () :=
  modify (λ b, b <| b_execution_mode := mode |>).

(** ** Clauses that come before the patterns *)

Definition unwind (e : NodeHandle) (alias : string) : BM () :=
  _ ← flush_current_path;
  unwind ← b_alloc (UnwindClause e alias);
  modify (λ b, b <| unwind_clauses ::= λ l, l ++ [unwind] |>).

Definition unwind_param (param_name alias : string) : BM () :=
  _ ← flush_current_path;
  e ← param param_name;
  unwind ← b_alloc (UnwindClause e alias);
  modify (λ b, b <| unwind_clauses ::= λ l, l ++ [unwind] |>).

Definition load_csv (url : string) (with_headers : bool) (alias : string) : BM () :=
  _ ← flush_current_path;
  url_expr ← literal (LString url);
  clause ← b_alloc (LoadCsvClause url_expr with_headers alias);
  modify (λ b, b <| b_load_csv := Some clause |>).

(** [rfind('.')]: the text before the last dot and after it. *)
Fixpoint rsplit_dot (s : list byte) : option (list byte * list byte) :=
  match s with
  | [] => None
  | c :: s' =>
      match rsplit_dot s' with
      | Some (before, after) => Some (c :: before, after)
      | None => if decide (c = x2e) then Some ([], s') else None
      end
  end.

Definition call_procedure (procedure_name : string) (arguments : list NodeHandle) : BM () :=
  _ ← flush_current_path;
  mode ← gets b_execution_mode;
  let '(namespace, procedure) := match rsplit_dot (as_bytes procedure_name) with
                                 | Some (before, after) => (Some (of_bytes before), of_bytes after)
                                 | None => (None, procedure_name)
                                 end in
  call_handle ← b_alloc (ProcedureCall mode namespace procedure arguments []);
  modify (λ b, b <| procedure_call := Some call_handle |>).

Definition set_yield_items (items : list string) (n : AstNode) : AstNode :=
  match n with
  | ProcedureCall mode namespace procedure arguments _ =>
      ProcedureCall mode namespace procedure arguments items
  | n => n
  end.
Definition yield_items (items : list string) : BM () :=
  call ← gets procedure_call;
  match call with
  | Some h => b_update h (set_yield_items items)
  | None => mret tt
  end.

(** ** Starting clauses *)

Definition match_ : BM () :=
  _ ← flush_current_path;
  modify (λ b, b <| clause_mode := Some CMMatch |> <| is_optional_match := false |>).
Definition optional_match : BM () :=
  _ ← flush_current_path;
  modify (λ b, b <| clause_mode := Some CMOptionalMatch |> <| is_optional_match := true |>).
Definition create : BM () :=
  _ ← flush_current_path; modify (λ b, b <| clause_mode := Some CMCreate |>).
Definition merge_ : BM () :=
  _ ← flush_current_path; modify (λ b, b <| clause_mode := Some CMMerge |>).
Definition with_ : BM () :=
  _ ← flush_current_path;
  modify (λ b, b <| clause_mode := Some CMWith |> <| projections := [] |> <| order_bys := [] |>
                 <| b_distinct := false |> <| b_skip := None |> <| b_limit := None |>).
Definition return_ : BM () := flush_current_path.

Definition with_clause (distinct : bool) (items : list ProjectionItem) (order_by : list (NodeHandle * bool))
    (skip limit : option Z) (where_clause : option NodeHandle) : BM () :=
  _ ← flush_current_path;
  with_handle ← b_alloc (WithClause distinct items order_by skip limit where_clause);
  modify (λ b, b <| with_clauses ::= λ l, l ++ [with_handle] |>).

(** ** Assignments and deletions *)

Definition on_create_set_expr (var property : string) (e : NodeHandle) : BM () :=
  target ← prop var property;
  item ← b_alloc (SetItem target e false);
  modify (λ b, b <| current_on_create_set ::= λ l, l ++ [item] |>).
Definition on_create_set (var property : string) (val : LiteralValue) : BM () :=
  value ← literal val; on_create_set_expr var property value.

Definition on_match_set_expr (var property : string) (e : NodeHandle) : BM () :=
  target ← prop var property;
  item ← b_alloc (SetItem target e false);
  modify (λ b, b <| current_on_match_set ::= λ l, l ++ [item] |>).
Definition on_match_set (var property : string) (val : LiteralValue) : BM () :=
  value ← literal val; on_match_set_expr var property value.

Definition set_property_expr (var property : string) (e : NodeHandle) : BM () :=
  target ← prop var property;
  item ← b_alloc (SetItem target e false);
  modify (λ b, b <| current_set_items ::= λ l, l ++ [item] |>).
Definition set_property (var property : string) (val : LiteralValue) : BM () :=
  value ← literal val; set_property_expr var property value.
Definition set_merge (var : string) (val_map : LiteralValue) : BM () :=
  target ← ident var;
  value ← literal val_map;
  item ← b_alloc (SetItem target value true);
  modify (λ b, b <| current_set_items ::= λ l, l ++ [item] |>).

(** [delete] and [detach_delete], which differ in the flag. *)
Definition delete_clause (detach : bool) (targets : list string) : BM () :=
  _ ← flush_current_path;
  target_handles ← b_map ident targets;
  del ← b_alloc (DeleteClause detach target_handles);
  modify (λ b, b <| mutation_clauses ::= λ l, l ++ [del] |>).
Definition delete_ : list string → BM () := delete_clause false.
Definition detach_delete : list string → BM () := delete_clause true.

Definition remove_property (var property : string) : BM () :=
  _ ← flush_current_path;
  target ← prop var property;
  rem ← b_alloc (RemoveClause [target]);
  modify (λ b, b <| mutation_clauses ::= λ l, l ++ [rem] |>).

(** ** Patterns *)

Definition node_pattern_internal (variable : option string) (label_expression : option LabelExpression) :
    BM () :=
  node_handle ← b_alloc (NodePattern variable label_expression []);
  pending ← gets pending_edge;
  _ ← modify (λ b, b <| pending_edge := None |>);
  match pending with
  | Some p =>
      edge_handle ← b_alloc (EdgePattern (pe_variable p) (pe_label_expression p) (pe_direction p)
                               (pe_min_hops p) (pe_max_hops p) [] node_handle);
      modify (λ b, b <| current_edges ::= λ l, l ++ [edge_handle] |>)
  | None =>
      start ← gets current_path_start;
      _ ← match start with Some _ => flush_current_path | None => mret tt end;
      modify (λ b, b <| current_path_start := Some node_handle |>)
  end.

Section labels.
Context `{CharClass}.

Definition node_ (variable : option string) (labels : list string) : BM () :=
  node_pattern_internal variable (from_labels labels).
Definition node_expr (variable : option string) (e : LabelExpression) : BM () :=
  node_pattern_internal variable (Some e).
Definition match_node : option string → list string → BM () := node_.
Definition node_label (label : string) : BM () := node_ None [label].
Definition node_var (variable : string) : BM () := node_ (Some variable) [].
Definition node_alias : string → BM () := node_var.
Definition node_empty : BM () := node_ None [].

Definition set_pending (direction : Direction) (e : option LabelExpression) (variable : option string) :
    BM () :=
  modify (λ b, b <| pending_edge := Some (mkPending direction e variable None None) |>).
Definition to_expr_opt : option LabelExpression → option string → BM () := set_pending DirOutgoing.
Definition from_expr_opt : option LabelExpression → option string → BM () := set_pending DirIncoming.
Definition edge_expr_opt : option LabelExpression → option string → BM () := set_pending DirUndirected.
Definition to_expr (e : LabelExpression) : option string → BM () := to_expr_opt (Some e).
Definition from_expr (e : LabelExpression) : option string → BM () := from_expr_opt (Some e).
Definition edge_expr (e : LabelExpression) : option string → BM () := edge_expr_opt (Some e).

Definition to_ (edge_types : list string) : option string → BM () := to_expr_opt (from_edge_types edge_types).
Definition from_ (edge_types : list string) : option string → BM () :=
  from_expr_opt (from_edge_types edge_types).
Definition edge (edge_types : list string) : option string → BM () :=
  edge_expr_opt (from_edge_types edge_types).
Definition to_types (edge_types : list string) : BM () := to_ edge_types None.
Definition from_types (edge_types : list string) : BM () := from_ edge_types None.
Definition out_edge : list string → option string → BM () := to_.
Definition in_edge : list string → option string → BM () := from_.

Definition to_edge (direction : Direction) (edge_types : list string) (variable target_variable : option string)
    (target_labels : list string) : BM () :=
  _ ← match direction with
      | DirOutgoing => to_ edge_types variable
      | DirIncoming => from_ edge_types variable
      | DirUndirected => edge edge_types variable
      end;
  node_ target_variable target_labels.
End labels.

Definition set_hops (min max : Z) (n : AstNode) : AstNode :=
  match n with
  | EdgePattern v l d _ _ ps t => EdgePattern v l d (Some min) (Some max) ps t
  | n => n
  end.
Definition hops (min max : Z) : BM () :=
  pending ← gets pending_edge;
  edges ← gets current_edges;
  match pending, last edges with
  | Some p, _ =>
      modify (λ b, b <| pending_edge := Some (mkPending (pe_direction p) (pe_label_expression p)
                                                (pe_variable p) (Some min) (Some max)) |>)
  | None, Some edge_handle => b_update edge_handle (set_hops min max)
  | None, None => mret tt
  end.

Definition path_mode (mode : PathMode) : BM () := modify (λ b, b <| current_path_mode := mode |>).
Definition apply_path_mode : PathMode → BM () := path_mode.
Definition trail : BM () := apply_path_mode Trail.
Definition simple : BM () := apply_path_mode Simple.
Definition acyclic_ : BM () := apply_path_mode Acyclic.
Definition walk : BM () := apply_path_mode Walk.
Definition path_variable (variable : string) : BM () :=
  modify (λ b, b <| current_path_variable := Some variable |>).

Definition chain_mode (b : QueryBuilder) (p_h : NodeHandle) : option string :=
  match arena_get (arena b) p_h with
  | Ok (PathChain _ mode _ _) => match mode with PMNone => None | m => Some (path_mode_str m) end
  | _ => None
  end.
Definition get_path_mode (b : QueryBuilder) : option string :=
  match current_path_mode b with
  | PMNone =>
      head (omap (chain_mode b) (current_match_paths b ++
        concat (map (λ m_h, match arena_get (arena b) m_h with
                            | Ok (MatchClause _ paths _) => paths
                            | _ => []
                            end) (match_clauses b))))
  | m => Some (path_mode_str m)
  end.

(** ** Predicates *)

Definition where_predicate (predicate : NodeHandle) : BM () :=
  modify (λ b, b <| current_where_predicates ::= λ l, l ++ [predicate] |>).
Definition where_ : NodeHandle → BM () := where_predicate.
Definition where_expr : NodeHandle → BM () := where_predicate.
Definition filter : NodeHandle → BM () := where_predicate.

Definition where_property (var property : string) (op : BinaryOp) (value : LiteralValue) : BM () :=
  l ← prop var property;
  r ← literal value;
  e ← binary_expr l op r;
  where_predicate e.
Definition where_field : string → string → BinaryOp → LiteralValue → BM () := where_property.
Definition where_eq (var property : string) : LiteralValue → BM () := where_property var property Eq.
Definition where_gt (var property : string) : LiteralValue → BM () := where_property var property Gt.
Definition where_gte (var property : string) : LiteralValue → BM () := where_property var property Gte.
Definition where_lt (var property : string) : LiteralValue → BM () := where_property var property Lt.
Definition where_lte (var property : string) : LiteralValue → BM () := where_property var property Lte.
Definition where_contains (var property : string) : LiteralValue → BM () :=
  where_property var property Contains.

(** ** Projections, order and pages *)

Definition select (items : list ProjectionItem) : BM () :=
  modify (λ b, b <| projections ::= λ l, l ++ items |>).
Definition project : list ProjectionItem → BM () := select.
Definition select_expr (expression : NodeHandle) (alias : option string) : BM () :=
  select [mkProjection expression alias None].
Definition custom_expr : NodeHandle → option string → BM () := select_expr.
Definition select_property (var property : string) (alias : option string) : BM () :=
  e ← prop var property; select_expr e alias.
Definition field : string → string → option string → BM () := select_property.
Definition select_aggregate (expression : NodeHandle) (func : AggregationFunc) (alias : option string) :
    BM () :=
  select [mkProjection expression alias (Some func)].
Definition select_property_aggregate (var property : string) (func : AggregationFunc)
    (alias : option string) : BM () :=
  e ← prop var property; select_aggregate e func alias.
Definition distinct (is_distinct : bool) : BM () := modify (λ b, b <| b_distinct := is_distinct |>).

Definition order_by (e : NodeHandle) (ascending : bool) : BM () :=
  modify (λ b, b <| order_bys ::= λ l, l ++ [(e, ascending)] |>).
Definition order_by_property (var property : string) (ascending : bool) : BM () :=
  e ← prop var property; order_by e ascending.
Definition order_by_asc (var property : string) : BM () := order_by_property var property true.
Definition order_by_desc (var property : string) : BM () := order_by_property var property false.
Definition limit (n : Z) : BM () := modify (λ b, b <| b_limit := Some n |>).
Definition skip (n : Z) : BM () := modify (λ b, b <| b_skip := Some n |>).
Definition offset : Z → BM () := skip.

Definition let_ (variable : string) (expression : NodeHandle) : BM () :=
  _ ← flush_current_path;
  let_h ← b_alloc (LetClause variable expression);
  modify (λ b, b <| linear_clauses ::= λ l, l ++ [let_h] |>).
Definition filter_ (predicate : NodeHandle) : BM () :=
  _ ← flush_current_path;
  filter_h ← b_alloc (FilterClause predicate);
  modify (λ b, b <| linear_clauses ::= λ l, l ++ [filter_h] |>).

Definition has_mutations (b : QueryBuilder) : bool :=
  negb (bool_decide (mutation_clauses b = [])) || negb (bool_decide (current_set_items b = []))
  || negb (bool_decide (current_on_create_set b = [])) || negb (bool_decide (current_on_match_set b = []))
  || is_mutation (clause_mode b).

(** ** Moving nodes to another arena *)

Definition remap_handle (h : NodeHandle) (off : Z) : NodeHandle :=
  if handle_is_null h then h else as_unsigned 32 (h + off).

Definition remap_ast_node (n : AstNode) (off : Z) : AstNode :=
  let r h := remap_handle h off in
  let rs := map r in
  let ro := option_map r in
  let rp := map (λ p, mkProjection (r (proj_expression p)) (proj_alias p) (proj_aggregation p)) in
  let rb := map (λ eb : NodeHandle * bool, (r eb.1, eb.2)) in
  match n with
  | NodePattern v l predicates => NodePattern v l (rs predicates)
  | EdgePattern v l d mn mx predicates target => EdgePattern v l d mn mx (rs predicates) (r target)
  | PathChain v m start edges => PathChain v m (r start) (rs edges)
  | BinaryExpression x op y => BinaryExpression (r x) op (r y)
  | UnaryExpression op operand => UnaryExpression op (r operand)
  | FunctionCall name arguments => FunctionCall name (rs arguments)
  | CaseExpression operand branches else_branch =>
      CaseExpression (ro operand) (map (λ wt, (r wt.1, r wt.2)) branches) (ro else_branch)
  | ListComprehension v l wh m => ListComprehension v (r l) (ro wh) (ro m)
  | PatternComprehension path wh projection => PatternComprehension (r path) (ro wh) (r projection)
  | ExistsSubquery subquery => ExistsSubquery (r subquery)
  | CountSubquery subquery => CountSubquery (r subquery)
  | ListLiteral items => ListLiteral (rs items)
  | PropertyAccess target property => PropertyAccess (r target) property
  | UnwindClause e alias => UnwindClause (r e) alias
  | WhereClause root_predicate => WhereClause (r root_predicate)
  | MatchClause optional paths wh => MatchClause optional (rs paths) (ro wh)
  | ReturnClause d ps order s l => ReturnClause d (rp ps) (rb order) s l
  | ProcedureCall mode ns name arguments items => ProcedureCall mode ns name (rs arguments) items
  | CreateClause paths => CreateClause (rs paths)
  | MergeClause path on_create on_match => MergeClause (r path) (rs on_create) (rs on_match)
  | SetClause items => SetClause (rs items)
  | SetItem target value is_merge => SetItem (r target) (r value) is_merge
  | DeleteClause detach targets => DeleteClause detach (rs targets)
  | RemoveClause items => RemoveClause (rs items)
  | LoadCsvClause url headers alias => LoadCsvClause (r url) headers alias
  | WithClause d ps order s l wh => WithClause d (rp ps) (rb order) s l (ro wh)
  | LetClause v e => LetClause v (r e)
  | FilterClause predicate => FilterClause (r predicate)
  | QueryStatement mode csv unwinds matches linear withs mutations ret =>
      QueryStatement mode (ro csv) (rs unwinds) (rs matches) (rs linear) (rs withs) (rs mutations) (ro ret)
  | Literal _ | Identifier _ | ParameterNode _ => n
  end.

Fixpoint alloc_all (l : list AstNode) : BM () :=
  match l with
  | [] => mret tt
  | n :: l => _ ← b_alloc n; alloc_all l
  end.

(** The offset of what is allocated next. *)
Definition next_offset : BM Z := gets (λ b, as_unsigned 32 (arena_len (arena b))).

Definition import_subarena (sub_arena : QueryAstArena) (sub_root : NodeHandle) : BM NodeHandle :=
  off ← next_offset;
  _ ← alloc_all (map (λ n, remap_ast_node n off) (nodes sub_arena));
  mret (remap_handle sub_root off).

(** ** Finishing *)

Definition set_mode (mode : ExecutionMode) (n : AstNode) : AstNode :=
  match n with
  | ProcedureCall _ namespace procedure arguments items =>
      ProcedureCall mode namespace procedure arguments items
  | n => n
  end.

Definition build_m : BM NodeHandle :=
  call ← gets procedure_call;
  mode ← gets b_execution_mode;
  match call with
  | Some proc_handle => _ ← b_update proc_handle (set_mode mode); mret proc_handle
  | None =>
      _ ← flush_current_path;
      items ← gets projections;
      order ← gets order_bys;
      is_distinct ← gets b_distinct;
      s ← gets b_skip;
      l ← gets b_limit;
      return_clause ← match items with
                      | [] => mret None
                      | _ => ret ← b_alloc (ReturnClause is_distinct items order s l); mret (Some ret)
                      end;
      csv ← gets b_load_csv;
      unwinds ← gets unwind_clauses;
      matches ← gets match_clauses;
      linear ← gets linear_clauses;
      withs ← gets with_clauses;
      mutations ← gets mutation_clauses;
      b_alloc (QueryStatement mode csv unwinds matches linear withs mutations return_clause)
  end.
Definition build (b : QueryBuilder) : QueryAstArena * NodeHandle :=
  let '(root, b) := build_m b in (arena b, root).

Definition subquery (f : BM ()) : BM NodeHandle :=
  let '(sub_arena, sub_handle) := build (f QueryBuilder_new).2 in
  import_subarena sub_arena sub_handle.

(** ** Importing the patterns of another builder *)

Section import.
Variable other : QueryBuilder.

(** A variable seen before is written without its labels. *)
Definition declare_var (seen_vars : list string) (variable : option string)
    (label_expression : option LabelExpression) : option LabelExpression * list string :=
  match variable with
  | Some v => if decide (v ∈ seen_vars) then (None, seen_vars) else (label_expression, v :: seen_vars)
  | None => (label_expression, seen_vars)
  end.

(** The pattern of a node handle of [other]; another node is skipped. *)
Definition import_node (seen_vars : list string) (h : NodeHandle) : BM (list string) :=
  match arena_get (arena other) h with
  | Ok (NodePattern variable label_expression _) =>
      let '(e, seen_vars) := declare_var seen_vars variable label_expression in
      _ ← node_pattern_internal variable e;
      mret seen_vars
  | _ => mret seen_vars
  end.

Definition import_edge (seen_vars : list string) (edge_h : NodeHandle) : BM (list string) :=
  match arena_get (arena other) edge_h with
  | Ok (EdgePattern variable label_expression direction min_hops max_hops _ target_node) =>
      let seen_vars := match variable with
                       | Some v => if decide (v ∈ seen_vars) then seen_vars else v :: seen_vars
                       | None => seen_vars
                       end in
      _ ← set_pending direction label_expression variable;
      _ ← match min_hops, max_hops with
          | None, None => mret tt
          | _, _ => let min := default 1 min_hops in hops min (default min max_hops)
          end;
      import_node seen_vars target_node
  | _ => mret seen_vars
  end.

Fixpoint import_edges (seen_vars : list string) (edges : list NodeHandle) : BM (list string) :=
  match edges with
  | [] => mret seen_vars
  | e :: edges => seen_vars ← import_edge seen_vars e; import_edges seen_vars edges
  end.

Definition import_path (seen_vars : list string) (path_handle : NodeHandle) : BM (list string) :=
  start ← gets current_path_start;
  paths ← gets current_match_paths;
  _ ← match start, paths with None, [] => mret tt | _, _ => pattern end;
  match arena_get (arena other) path_handle with
  | Ok (NodePattern _ _ _) => import_node seen_vars path_handle
  | Ok (PathChain _ _ start_node edges) =>
      seen_vars ← import_node seen_vars start_node;
      import_edges seen_vars edges
  | _ => mret seen_vars
  end.

Fixpoint import_paths (seen_vars : list string) (paths : list NodeHandle) : BM (list string) :=
  match paths with
  | [] => mret seen_vars
  | p :: paths => seen_vars ← import_path seen_vars p; import_paths seen_vars paths
  end.

(** The WHERE of an imported clause comes with a copy of the whole arena. *)
Definition import_where (where_clause : option NodeHandle) : BM () :=
  match where_clause with
  | Some wh_handle =>
      match arena_get (arena other) wh_handle with
      | Ok (WhereClause pred) =>
          off ← next_offset;
          _ ← alloc_all (map (λ n, remap_ast_node n off) (nodes (arena other)));
          where_expr (remap_handle pred off)
      | _ => mret tt
      end
  | None => mret tt
  end.

Fixpoint import_matches (seen_vars : list string) (clauses : list NodeHandle) : BM (list string) :=
  match clauses with
  | [] => mret seen_vars
  | match_handle :: clauses =>
      seen_vars ← match arena_get (arena other) match_handle with
                  | Ok (MatchClause _ paths where_clause) =>
                      seen_vars ← import_paths seen_vars paths;
                      _ ← import_where where_clause;
                      mret seen_vars
                  | _ => mret seen_vars
                  end;
      import_matches seen_vars clauses
  end.
End import.

(** The other builder is flushed; the variables seen come back with it. *)
Definition import_match_patterns (other : QueryBuilder) (seen_vars : list string) :
    BM (QueryBuilder * list string) :=
  let other := (flush_current_path other).2 in
  mode ← gets clause_mode;
  _ ← match mode with None => match_ | Some _ => mret tt end;
  seen_vars ← import_matches other seen_vars (match_clauses other);
  mret (other, seen_vars).
