(* ===== verification/BuilderSafe.v ===== *)
(** * What the builder makes

    The arena of a builder stays ordered, and every handle the builder holds points
    into it: a small logic for the computations of [Builder], whose judgements say
    which handles a computation may be given and which it gives back. *)
From S2P Require Import Prelude Bytes F64 Errors Text Ast ArenaShape Label Builder.
From coqutil Require Import Datatypes.RecordSetters.
Import TriangleBracketNotations.

Open Scope Z_scope.
Open Scope string_scope.
Open Scope list_scope.

(** ** Well-formed builders *)

Definition points (a : QueryAstArena) (h : NodeHandle) : Prop := 0 <= h < arena_len a.

(** Every handle in a field of the builder. *)
Definition held (b : QueryBuilder) : list NodeHandle :=
  option_list (b_load_csv b) ++ unwind_clauses b ++ match_clauses b ++ linear_clauses b ++ with_clauses b
    ++ mutation_clauses b ++ option_list (procedure_call b) ++ option_list (current_path_start b)
    ++ current_edges b ++ current_match_paths b ++ current_where_predicates b ++ current_on_create_set b
    ++ current_on_match_set b ++ current_set_items b ++ projection_handles (projections b) ++ (order_bys b).*1.

Definition wf (b : QueryBuilder) : Prop := ordered (arena b) ∧ Forall (points (arena b)) (held b).

(** Fewer nodes than there are handles. *)
Definition bounded (b : QueryBuilder) : Prop := arena_len (arena b) <= U32_MAX.
Definition good (b : QueryBuilder) : Prop := bounded b → wf b.

(** Given handles [hs] of the arena, [m] keeps the builder well formed, and the handles
    [Q x] of its result point into the new arena. *)
Definition spec {A} (hs : list NodeHandle) (m : BM A) (Q : A → list NodeHandle) : Prop :=
  ∀ b, arena_len (arena b) <= arena_len (arena (m b).2)
       ∧ (bounded (m b).2 → wf b → Forall (points (arena b)) hs →
          wf (m b).2 ∧ Forall (points (arena (m b).2)) (Q (m b).1)).

Lemma points_mono a a' hs : arena_len a <= arena_len a' → Forall (points a) hs → Forall (points a') hs.
Proof. intros Hle H. eapply Forall_impl; [exact H|]. unfold points. intros h ?. lia. Qed.

Lemma Forall_sub {A} (P : A → Prop) (l k : list A) : l ⊆ k → Forall P k → Forall P l.
Proof. rewrite !Forall_forall. auto. Qed.

Lemma spec_ret {A} hs (x : A) (Q : A → list NodeHandle) : Q x ⊆ hs → spec hs (mret x) Q.
Proof. intros HQ b. split; [done|]. intros _ Hwf Hhs. split; [done|]. by eapply Forall_sub. Qed.

Lemma spec_bind {A B} hs m (k : A → BM B) Q R :
  spec hs m Q → (∀ x, spec (Q x ++ hs) (k x) R) → spec hs (m ≫= k) R.
Proof.
  intros Hm Hk b. unfold mbind, BM_bind. specialize (Hm b). destruct (m b) as [x b'] eqn:E. cbn in *.
  destruct Hm as [Hle Hm], (Hk x b') as [Hle' Hk']. split; [lia|]. intros Hb Hwf Hhs.
  assert (Hb' : bounded b') by (unfold bounded in *; lia). destruct (Hm Hb' Hwf Hhs) as [Hwf' HQ].
  apply Hk'; [done..|]. apply Forall_app. split; [done|]. by eapply points_mono.
Qed.

Lemma spec_weaken {A} hs hs' (m : BM A) Q : spec hs m Q → hs ⊆ hs' → spec hs' m Q.
Proof.
  intros Hm Hsub b. destruct (Hm b) as [Hle H]. split; [done|]. intros Hb Hwf Hhs.
  apply H; [done..|]. by eapply Forall_sub.
Qed.

Lemma spec_gets {A} hs (f : QueryBuilder → A) (Q : A → list NodeHandle) :
  (∀ b, Q (f b) ⊆ held b) → spec hs (gets f) Q.
Proof. intros HQ b. split; [done|]. intros _ Hwf _. split; [done|]. destruct Hwf. cbn. eapply Forall_sub; [apply HQ|done]. Qed.

Lemma spec_modify hs g :
  (∀ b, arena (g b) = arena b ∧ held (g b) ⊆ hs ++ held b) → spec hs (modify g) (λ _, []).
Proof.
  intros Hg b. destruct (Hg b) as [Ha Hh]. cbn. rewrite Ha. split; [done|]. intros _ [Ho Hf] Hhs.
  unfold wf. rewrite Ha. split_and!; [done| |done]. eapply Forall_sub; [done|]. by apply Forall_app.
Qed.

Lemma arena_len_alloc n a : arena_len (arena_alloc n a).2 = arena_len a + 1.
Proof. unfold arena_len. cbn. by rewrite blen_app. Qed.

Lemma ordered_snoc a n :
  ordered a → Forall (points a) (children n) → ordered (mkArena (nodes a ++ [n])).
Proof.
  intros Ho Hn i n' h Hi Hh. cbn in Hi. apply lookup_snoc_Some in Hi as [[_ Hi]|[-> <-]].
  - by eapply Ho.
  - rewrite Forall_forall in Hn. apply Hn in Hh. unfold points, arena_len, blen in Hh. lia.
Qed.

Lemma spec_alloc hs n : children n ⊆ hs → spec hs (b_alloc n) (λ h, [h]).
Proof.
  intros Hn b. unfold b_alloc. destruct (arena_alloc n (arena b)) as [h a] eqn:E.
  pose proof (arena_len_alloc n (arena b)) as Hlen. rewrite E in Hlen. cbn in Hlen.
  change (arena (h, b <| arena := a |>).2) with a. split; [lia|]. intros Hb [Ho Hf] Hhs.
  unfold bounded in Hb. change (arena (h, b <| arena := a |>).2) with a in Hb. unfold wf.
  change (arena (h, b <| arena := a |>).2) with a. change (held (h, b <| arena := a |>).2) with (held b).
  injection E as <- <-. split_and!.
  - apply ordered_snoc; [done|]. by eapply Forall_sub.
  - eapply points_mono; [|done]. lia.
  - cbn [fst]. constructor; [|done]. unfold points. rewrite Hlen. unfold as_unsigned.
    rewrite Z.mod_small; unfold U32_MAX, arena_len, blen in *; lia.
Qed.

Lemma arena_len_set a h n : arena_len (arena_set a h n) = arena_len a.
Proof. unfold arena_len, blen, arena_set. cbn. by rewrite length_insert. Qed.

Lemma spec_update hs h f :
  (∀ n, children (f n) = children n) → spec hs (b_update h f) (λ _, []).
Proof.
  intros Hf b. unfold b_update. unfold arena_get.
  destruct (nodes (arena b) !! Z.to_nat h) as [n|] eqn:E; cbn [ok_or]; [|by split].
  change (arena (tt, b <| arena := arena_set (arena b) h (f n) |>).2) with (arena_set (arena b) h (f n)).
  rewrite arena_len_set. split; [done|]. intros _ [Ho Hh] _. split; [|done]. split.
  - intros i n' h' Hi Hin.
    change (arena (tt, b <| arena := arena_set (arena b) h (f n) |>).2) with (arena_set (arena b) h (f n)) in Hi.
    unfold arena_set in Hi. cbn in Hi. apply list_lookup_insert_Some in Hi as [(<- & <- & _)|[_ Hi]].
    + rewrite Hf in Hin. by eapply Ho.
    + by eapply Ho.
  - eapply points_mono; [|exact Hh]. by rewrite <- (arena_len_set (arena b) h (f n)).
Qed.

(** ** The walk through a method *)

Create HintDb builder.

(** Inclusions between the handles of fields, results and arguments. *)
Section inclusion.
Context {A : Type}.
Implicit Types l k : list A.
Lemma incl_refl l : l ⊆ l.
Proof. done. Qed.
Lemma incl_nil k : [] ⊆ k.
Proof. intros x Hx. by apply elem_of_nil in Hx. Qed.
Lemma incl_app l1 l2 k : l1 ⊆ k → l2 ⊆ k → l1 ++ l2 ⊆ k.
Proof. intros H1 H2 x [Hx|Hx]%elem_of_app; auto. Qed.
Lemma incl_cons x l k : [x] ⊆ k → l ⊆ k → x :: l ⊆ k.
Proof. intros H1 H2 y [->|Hy]%elem_of_cons; [|auto]. apply H1. by apply list_elem_of_singleton. Qed.
Lemma incl_l l k1 k2 : l ⊆ k1 → l ⊆ k1 ++ k2.
Proof. intros H x Hx. apply elem_of_app. auto. Qed.
Lemma incl_r l k1 k2 : l ⊆ k2 → l ⊆ k1 ++ k2.
Proof. intros H x Hx. apply elem_of_app. auto. Qed.
Lemma incl_hd x k : [x] ⊆ x :: k.
Proof. intros y ->%list_elem_of_singleton. apply list_elem_of_here. Qed.
Lemma incl_tl l x k : l ⊆ k → l ⊆ x :: k.
Proof. intros H y Hy. apply list_elem_of_further. auto. Qed.
End inclusion.

Ltac find_incl :=
  first [ apply incl_refl | apply incl_hd
        | lazymatch goal with
          | |- _ ⊆ _ ++ _ => first [apply incl_l; find_incl | apply incl_r; find_incl]
          | |- _ ⊆ _ :: _ => apply incl_tl; find_incl
          end ].
Ltac split_incl :=
  lazymatch goal with
  | |- [] ⊆ _ => apply incl_nil
  | |- _ ++ _ ⊆ _ => apply incl_app; split_incl
  | |- [_] ⊆ _ => find_incl
  | |- _ :: _ ⊆ _ => apply incl_cons; split_incl
  | |- _ ⊆ _ => find_incl
  end.
Ltac inlist :=
  cbn [children option_list option_rect app fst snd option_map]; unfold projection_handles;
  rewrite ?fmap_app, ?fmap_cons, ?fmap_nil; cbn [app fst snd proj_expression]; split_incl.
Ltac held_step :=
  let b := fresh "b" in
  intros b; destruct b; split; [reflexivity|]; unfold held; cbn -[projection_handles]; unfold constant; inlist.
Ltac spec_step :=
  lazymatch goal with
  | |- spec _ (mret _) _ => apply spec_ret; inlist
  | |- spec _ (gets _) _ => idtac
  | |- spec _ (modify _) _ => apply spec_modify; held_step
  | |- spec _ (b_alloc _) _ => apply spec_alloc; inlist
  | |- spec _ (b_update _ _) _ => apply spec_update; by intros []
  | |- spec _ (gets ?f ≫= _) _ => eapply (spec_bind _ (gets f)); [|intros ?; cbn beta]
  | |- spec _ (_ ≫= _) _ => eapply spec_bind; [|intros ?; cbn beta]
  | |- spec _ (match ?x with _ => _ end) _ => destruct x eqn:?
  | |- spec _ ((match ?x with _ => _ end) _) _ => destruct x eqn:?
  | |- spec _ _ _ => solve [eauto with builder | eapply spec_weaken; [solve [eauto with builder]|inlist]]
  end.

Lemma spec_get_handles hs (f : QueryBuilder → list NodeHandle) :
  (∀ b, f b ⊆ held b) → spec hs (gets f) id.
Proof. intros. by apply spec_gets. Qed.
Lemma spec_get_handle hs (f : QueryBuilder → option NodeHandle) :
  (∀ b, option_list (f b) ⊆ held b) → spec hs (gets f) option_list.
Proof. intros. by apply spec_gets. Qed.
Lemma spec_get_data {A} hs (f : QueryBuilder → A) : spec hs (gets f) (λ _, []).
Proof. apply spec_gets. intros b h Hh. by apply elem_of_nil in Hh. Qed.
Lemma spec_get_projections hs : spec hs (gets projections) projection_handles.
Proof. apply spec_gets. intros b. unfold held. inlist. Qed.
Lemma spec_get_orders hs : spec hs (gets order_bys) (λ l, l.*1).
Proof. apply spec_gets. intros b. unfold held. inlist. Qed.

Ltac spec_gets_step :=
  first [ apply spec_get_projections | apply spec_get_orders
        | apply spec_get_handles; intros ?; unfold held; solve [inlist]
        | apply spec_get_handle; intros ?; unfold held; solve [inlist]
        | apply spec_get_data ].
Ltac walk_spec :=
  repeat (spec_step; unfold id in *; try match goal with |- spec _ (gets _) _ => spec_gets_step end).

Lemma b_conjoin_spec preds : ∀ combined hs,
  spec (combined :: preds ++ hs) (conjoin_predicates combined preds) (λ h, [h]).
Proof.
  induction preds as [|p preds IH]; intros combined hs; cbn [conjoin_predicates]; [spec_step|].
  eapply spec_bind; [spec_step|]. intros h. cbn. eapply spec_weaken; [apply (IH h hs)|]. inlist.
Qed.
#[export] Hint Resolve b_conjoin_spec : builder.

Lemma take_where_clause_spec : spec [] take_where_clause option_list.
Proof. unfold take_where_clause. walk_spec. Qed.
#[export] Hint Resolve take_where_clause_spec : builder.

Lemma take_path_spec : spec [] take_path option_list.
Proof. unfold take_path. walk_spec. Qed.
#[export] Hint Resolve take_path_spec : builder.

Lemma pattern_spec : spec [] pattern (λ _, []).
Proof. unfold pattern. walk_spec. Qed.

Lemma flush_with_spec : spec [] flush_with (λ _, []).
Proof. unfold flush_with. walk_spec. Qed.
#[export] Hint Resolve pattern_spec flush_with_spec : builder.

Lemma flush_paths_spec paths : spec paths (flush_paths paths) (λ _, []).
Proof. unfold flush_paths. walk_spec. Qed.

Lemma flush_set_items_spec : spec [] flush_set_items (λ _, []).
Proof. unfold flush_set_items. walk_spec. Qed.
#[export] Hint Resolve flush_paths_spec flush_set_items_spec : builder.

Lemma flush_spec : spec [] flush_current_path (λ _, []).
Proof. unfold flush_current_path. walk_spec. Qed.
#[export] Hint Resolve flush_spec : builder.

(** ** The methods *)

(** What a caller may do, with the handles that each call passes; the methods that
    are a name for another one at some arguments are left out. *)
Inductive allocates : list NodeHandle → BM NodeHandle → Prop :=
| call_ident name : allocates [] (ident name)
| call_literal val : allocates [] (literal val)
| call_prop v p : allocates [] (prop v p)
| call_binary_expr l op r : allocates [l; r] (binary_expr l op r)
| call_math_expr l op r : allocates [l; r] (math_expr l op r)
| call_unary_expr op h : allocates [h] (unary_expr op h)
| call_not_expr h : allocates [h] (not_expr h)
| call_neg_expr h : allocates [h] (neg_expr h)
| call_is_null_expr h : allocates [h] (is_null_expr h)
| call_is_not_null_expr h : allocates [h] (is_not_null_expr h)
| call_function name args : allocates args (function name args)
| call_case_when o branches e :
    allocates (option_list o ++ branches.*1 ++ branches.*2 ++ option_list e) (case_when o branches e)
| call_list_comprehension v l w m :
    allocates (l :: option_list w ++ option_list m) (list_comprehension v l w m)
| call_pattern_comprehension p w pr :
    allocates (p :: pr :: option_list w) (pattern_comprehension p w pr)
| call_exists_subquery h : allocates [h] (exists_subquery h)
| call_count_subquery h : allocates [h] (count_subquery h)
| call_list_literal items : allocates items (list_literal items)
| call_param name : allocates [] (param name).

Inductive method `{CharClass} : list NodeHandle → BM () → Prop :=
| call_explain : method [] explain
| call_profile : method [] profile
| call_set_execution_mode m : method [] (set_execution_mode m)
| call_unwind e alias : method [e] (unwind e alias)
| call_unwind_param p alias : method [] (unwind_param p alias)
| call_load_csv url headers alias : method [] (load_csv url headers alias)
| call_call_procedure name args : method args (call_procedure name args)
| call_yield_items items : method [] (yield_items items)
| call_match : method [] match_
| call_optional_match : method [] optional_match
| call_create : method [] create
| call_merge : method [] merge_
| call_with : method [] with_
| call_return : method [] return_
| call_with_clause d ps order s l w :
    method (projection_handles ps ++ order.*1 ++ option_list w) (with_clause d ps order s l w)
| call_on_create_set v p val : method [] (on_create_set v p val)
| call_on_create_set_expr v p e : method [e] (on_create_set_expr v p e)
| call_on_match_set v p val : method [] (on_match_set v p val)
| call_on_match_set_expr v p e : method [e] (on_match_set_expr v p e)
| call_set_property v p val : method [] (set_property v p val)
| call_set_property_expr v p e : method [e] (set_property_expr v p e)
| call_set_merge v val : method [] (set_merge v val)
| call_delete targets : method [] (delete_ targets)
| call_detach_delete targets : method [] (detach_delete targets)
| call_remove_property v p : method [] (remove_property v p)
| call_node v labels : method [] (node_ v labels)
| call_node_expr v e : method [] (node_expr v e)
| call_match_node v labels : method [] (match_node v labels)
| call_node_label label : method [] (node_label label)
| call_node_var v : method [] (node_var v)
| call_node_alias v : method [] (node_alias v)
| call_node_empty : method [] node_empty
| call_to types v : method [] (to_ types v)
| call_to_expr e v : method [] (to_expr e v)
| call_to_expr_opt e v : method [] (to_expr_opt e v)
| call_to_types types : method [] (to_types types)
| call_out_edge types v : method [] (out_edge types v)
| call_from types v : method [] (from_ types v)
| call_from_expr e v : method [] (from_expr e v)
| call_from_expr_opt e v : method [] (from_expr_opt e v)
| call_from_types types : method [] (from_types types)
| call_in_edge types v : method [] (in_edge types v)
| call_edge types v : method [] (edge types v)
| call_edge_expr e v : method [] (edge_expr e v)
| call_edge_expr_opt e v : method [] (edge_expr_opt e v)
| call_to_edge d types v tv labels : method [] (to_edge d types v tv labels)
| call_hops min max : method [] (hops min max)
| call_path_mode m : method [] (path_mode m)
| call_path_variable v : method [] (path_variable v)
| call_pattern : method [] pattern
| call_where_predicate h : method [h] (where_predicate h)
| call_where_property v p op val : method [] (where_property v p op val)
| call_select items : method (projection_handles items) (select items)
| call_select_expr e alias : method [e] (select_expr e alias)
| call_select_property v p alias : method [] (select_property v p alias)
| call_select_aggregate e func alias : method [e] (select_aggregate e func alias)
| call_select_property_aggregate v p func alias : method [] (select_property_aggregate v p func alias)
| call_distinct d : method [] (distinct d)
| call_order_by e asc : method [e] (order_by e asc)
| call_order_by_property v p asc : method [] (order_by_property v p asc)
| call_limit n : method [] (limit n)
| call_skip n : method [] (skip n)
| call_let v e : method [e] (let_ v e)
| call_filter h : method [h] (filter_ h).

(** The methods, down to those that have a lemma. *)
Create HintDb methods.
#[export] Hint Unfold math_expr not_expr neg_expr is_null_expr is_not_null_expr unary_expr function case_when
  list_comprehension pattern_comprehension exists_subquery count_subquery list_literal : methods.
#[export] Hint Unfold explain profile set_execution_mode unwind unwind_param load_csv call_procedure yield_items
  match_ optional_match create merge_ with_ return_ with_clause : methods.
#[export] Hint Unfold on_create_set on_match_set set_property set_merge delete_ detach_delete delete_clause
  remove_property : methods.
#[export] Hint Unfold match_node node_label node_var node_alias node_empty node_expr node_ to_types from_types out_edge
  in_edge to_expr from_expr edge_expr to_ from_ edge to_expr_opt from_expr_opt edge_expr_opt to_edge
  path_mode path_variable : methods.
#[export] Hint Unfold where_predicate where_property select_expr select_property select_aggregate
  select_property_aggregate distinct order_by_property limit skip let_ filter_ : methods.

Lemma prop_spec v p : spec [] (prop v p) (λ h, [h]).
Proof. unfold prop, ident. walk_spec. Qed.
#[export] Hint Resolve prop_spec : builder.

Lemma ident_spec name : spec [] (ident name) (λ h, [h]).
Proof. unfold ident. walk_spec. Qed.
Lemma literal_spec val : spec [] (literal val) (λ h, [h]).
Proof. unfold literal. walk_spec. Qed.
Lemma param_spec name : spec [] (param name) (λ h, [h]).
Proof. unfold param. walk_spec. Qed.
Lemma binary_spec l op r : spec [l; r] (binary_expr l op r) (λ h, [h]).
Proof. unfold binary_expr. walk_spec. Qed.
#[export] Hint Resolve ident_spec literal_spec param_spec binary_spec : builder.

Lemma allocates_spec hs m : allocates hs m → spec hs m (λ h, [h]).
Proof. destruct 1; autounfold with methods; walk_spec. Qed.

Lemma idents_spec names : spec [] (b_map ident names) id.
Proof.
  induction names as [|x names IH]; cbn [b_map]; [spec_step|].
  eapply spec_bind; [apply ident_spec|]. intros h. eapply spec_bind; [eapply spec_weaken; [apply IH|]|].
  - inlist.
  - intros hs. unfold id. spec_step.
Qed.
#[export] Hint Resolve idents_spec : builder.

Lemma node_pattern_internal_spec v e : spec [] (node_pattern_internal v e) (λ _, []).
Proof. unfold node_pattern_internal. walk_spec. Qed.
Lemma set_pending_spec d e v : spec [] (set_pending d e v) (λ _, []).
Proof. unfold set_pending. walk_spec. Qed.
#[export] Hint Resolve node_pattern_internal_spec set_pending_spec : builder.

Lemma on_create_spec v p e : spec [e] (on_create_set_expr v p e) (λ _, []).
Proof. unfold on_create_set_expr. walk_spec. Qed.
Lemma on_match_spec v p e : spec [e] (on_match_set_expr v p e) (λ _, []).
Proof. unfold on_match_set_expr. walk_spec. Qed.
Lemma set_property_spec v p e : spec [e] (set_property_expr v p e) (λ _, []).
Proof. unfold set_property_expr. walk_spec. Qed.
#[export] Hint Resolve on_create_spec on_match_spec set_property_spec : builder.
#[export] Hint Opaque on_create_set_expr on_match_set_expr set_property_expr prop flush_current_path
  : builder.

Lemma order_by_spec e asc : spec [e] (order_by e asc) (λ _, []).
Proof. unfold order_by. walk_spec. Qed.
Lemma select_spec items : spec (projection_handles items) (select items) (λ _, []).
Proof. unfold select. walk_spec. Qed.
Lemma hops_spec min max : spec [] (hops min max) (λ _, []).
Proof. unfold hops. walk_spec. Qed.
#[export] Hint Resolve order_by_spec select_spec hops_spec : builder.

Lemma method_spec `{CharClass} hs m : method hs m → spec hs m (λ _, []).
Proof. destruct 1; autounfold with methods; cbv beta; walk_spec. Qed.
