(* ===== verification/BuilderArena.v ===== *)
(** * The arenas of built queries

    Imports of other arenas, the sessions of calls that a caller makes on builders,
    and what [build] then returns. *)
From S2P Require Import Prelude Bytes F64 Errors Text Ast ArenaShape Label Builder BuilderSafe.
From coqutil Require Import Datatypes.RecordSetters.
Import TriangleBracketNotations.

Open Scope Z_scope.
Open Scope string_scope.
Open Scope list_scope.

(** ** Imports *)

Lemma children_remap n off : children (remap_ast_node n off) = map (λ h, remap_handle h off) (children n).
Proof.
  assert (Hp : ∀ ps, projection_handles (map (λ p, mkProjection (remap_handle (proj_expression p) off)
      (proj_alias p) (proj_aggregation p)) ps) = map (λ h, remap_handle h off) (projection_handles ps)).
  { unfold projection_handles. intros ps. change (@map ?A ?B) with (@fmap list _ A B).
    by rewrite <- !list_fmap_compose. }
  assert (Ho : ∀ l : list (NodeHandle * bool), (map (λ eb, (remap_handle eb.1 off, eb.2)) l).*1
                    = map (λ h, remap_handle h off) l.*1).
  { intros l. change (@map ?A ?B) with (@fmap list _ A B). by rewrite <- !list_fmap_compose. }
  assert (Hb : ∀ l : list (NodeHandle * NodeHandle), let l' := map (λ wt, (remap_handle wt.1 off, remap_handle wt.2 off)) l in
      l'.*1 = map (λ h, remap_handle h off) l.*1 ∧ l'.*2 = map (λ h, remap_handle h off) l.*2).
  { intros l. change (@map ?A ?B) with (@fmap list _ A B). cbn zeta. by rewrite <- !list_fmap_compose. }
  destruct n; cbn [children remap_ast_node];
    repeat match goal with l : list (NodeHandle * NodeHandle) |- _ => destruct (Hb l) as [-> ->]; clear Hb end; rewrite ?map_app, ?Hp, ?Ho; cbn [map]; rewrite ?map_app;
    repeat match goal with o : option NodeHandle |- _ => destruct o end; try done.
Qed.

Lemma alloc_all_eq l b : alloc_all l b = (tt, b <| arena := mkArena (nodes (arena b) ++ l) |>).
Proof.
  revert b. induction l as [|n l IH]; intros b; cbn [alloc_all].
  - rewrite app_nil_r. by destruct b as [[ns]].
  - unfold mbind, BM_bind. cbn. rewrite IH. destruct b as [[ns]]. cbn. unfold constant. cbn.
    by rewrite <- app_assoc.
Qed.

Lemma remap_points a h off :
  points a h → off + arena_len a <= U32_MAX → 0 <= off → remap_handle h off = h + off.
Proof.
  unfold points, remap_handle, handle_is_null, as_unsigned. intros Hh Hle Hoff.
  destruct (Z.eqb_spec h U32_MAX); [lia|]. rewrite Z.mod_small; unfold U32_MAX in *; lia.
Qed.

Lemma ordered_import a sub :
  ordered a → ordered sub → arena_len a + arena_len sub <= U32_MAX →
  ordered (mkArena (nodes a ++ map (λ n, remap_ast_node n (arena_len a)) (nodes sub))).
Proof.
  intros Ha Hs Hle i n h Hi Hh. cbn in Hi. apply lookup_app_Some in Hi as [Hi|[Hlen Hi]].
  - by eapply Ha.
  - change (@map ?A ?B) with (@fmap list _ A B) in Hi. rewrite list_lookup_fmap in Hi.
    apply fmap_Some in Hi as (n' & Hn' & ->). rewrite children_remap in Hh.
    change (@map ?A ?B) with (@fmap list _ A B) in Hh. apply list_elem_of_fmap in Hh as (c & -> & Hc).
    pose proof (Hs _ _ _ Hn' Hc) as Hb. apply lookup_lt_Some in Hn'.
    rewrite (remap_points sub); unfold points, arena_len, blen in *; lia.
Qed.

(** Copying all of an ordered arena. *)
Lemma import_spec sub b h :
  bounded (alloc_all (map (λ n, remap_ast_node n (as_unsigned 32 (arena_len (arena b)))) (nodes sub)) b).2 →
  wf b → ordered sub → points sub h →
  let b' := (alloc_all (map (λ n, remap_ast_node n (as_unsigned 32 (arena_len (arena b)))) (nodes sub)) b).2 in
  wf b' ∧ points (arena b') (remap_handle h (as_unsigned 32 (arena_len (arena b)))).
Proof.
  rewrite alloc_all_eq. cbn zeta. cbn [snd]. set (off := as_unsigned 32 (arena_len (arena b))).
  set (ns := nodes (arena b) ++ _).
  change (arena (b <| arena := mkArena ns |>)) with (mkArena ns).
  unfold bounded. change (arena (b <| arena := mkArena ns |>)) with (mkArena ns).
  intros Hle [Ho Hh] Hs Hp.
  assert (Hlen : arena_len (mkArena ns) = arena_len (arena b) + arena_len sub).
  { unfold arena_len, ns. cbn. rewrite blen_app. unfold blen. by rewrite length_map. }
  assert (Hoff : off = arena_len (arena b)).
  { unfold off, as_unsigned. rewrite Z.mod_small; [done|].
    unfold points, arena_len, U32_MAX, blen in *. lia. }
  unfold wf. change (arena (b <| arena := mkArena ns |>)) with (mkArena ns).
  change (held (b <| arena := mkArena ns |>)) with (held b). split_and!.
  - unfold ns. rewrite Hoff. apply ordered_import; [done..|]. by rewrite <- Hlen.
  - eapply points_mono; [|done]. unfold arena_len, blen in *. lia.
  - rewrite (remap_points sub); [|done|rewrite Hoff; lia|rewrite Hoff; unfold arena_len, blen; lia].
    unfold points in *. rewrite Hoff, Hlen. unfold arena_len, blen in *. lia.
Qed.

(** Copying grows the arena by all of the copied one. *)
Lemma alloc_all_len l b : arena_len (arena (alloc_all l b).2) = arena_len (arena b) + blen l.
Proof. rewrite alloc_all_eq. cbn [snd]. unfold arena_len. by rewrite <- blen_app. Qed.

Lemma import_subarena_spec sub root :
  (arena_len sub <= U32_MAX → ordered sub ∧ points sub root) →
  spec [] (import_subarena sub root) (λ h, [h]).
Proof.
  intros Hsub b. unfold import_subarena, next_offset, gets, mbind, BM_bind.
  set (l := map _ (nodes sub)). pose proof (alloc_all_len l b) as Hlen.
  pose proof (import_spec sub b root) as Hi. cbn zeta in Hi. fold l in Hi.
  assert (Hl : blen l = arena_len sub) by (unfold l, arena_len, blen; by rewrite length_map).
  destruct (alloc_all l b) as [[] b'] eqn:E. cbn [snd fst mret BM_ret] in *.
  split; [unfold blen in *; lia|]. intros Hb Hwf _. destruct Hsub as [Ho Hp].
  { unfold bounded, arena_len, blen in *. lia. }
  destruct Hi as [Hwf' Hp']; [done..|]. split; [done|]. by constructor.
Qed.

Lemma build_spec_handles : spec [] build_m (λ h, [h]).
Proof. unfold build_m. walk_spec. all: walk_spec. Qed.

Lemma QueryBuilder_new_wf : wf QueryBuilder_new.
Proof. split; [|by constructor]. intros i n h Hi. cbn in Hi. by rewrite lookup_nil in Hi. Qed.

(** Calls on a good builder leave it good. *)
Lemma spec_good {A} hs (m : BM A) Q b :
  spec hs m Q → good b → (bounded b → Forall (points (arena b)) hs) → good (m b).2.
Proof.
  intros Hm Hg Hhs Hb. destruct (Hm b) as [Hle H].
  assert (Hb' : bounded b) by (unfold bounded in *; lia). by apply H; auto.
Qed.

Lemma build_good b :
  good b → arena_len (build b).1 <= U32_MAX → ordered (build b).1 ∧ points (build b).1 (build b).2.
Proof.
  intros Hg. destruct (build_spec_handles b) as [Hle H]. unfold build.
  destruct (build_m b) as [root b'] eqn:E. cbn in *. intros Hb.
  destruct H as [[Ho _] Hp]; [done| |done|].
  - apply Hg. unfold bounded. lia.
  - split; [done|]. by apply Forall_cons_1 in Hp as [Hp _].
Qed.

Lemma spec_ext {A} hs (m m' : BM A) Q : (∀ b, m b = m' b) → spec hs m Q → spec hs m' Q.
Proof. intros E Hm b. rewrite <- E. apply Hm. Qed.

Section import.
Context (other : QueryBuilder) (Hother : good other).

Lemma import_node_spec seen h : spec [] (import_node other seen h) (λ _, []).
Proof.
  unfold import_node. destruct (arena_get _ _) as [[]|]; try spec_step.
  destruct (declare_var _ _ _) as [e seen']. eapply spec_bind; [apply node_pattern_internal_spec|].
  intros []. spec_step.
Qed.
Hint Resolve import_node_spec : builder.

Lemma import_edge_spec seen h : spec [] (import_edge other seen h) (λ _, []).
Proof. unfold import_edge. walk_spec. Qed.
Hint Resolve import_edge_spec : builder.

Lemma import_edges_spec edges : ∀ seen, spec [] (import_edges other seen edges) (λ _, []).
Proof. induction edges as [|e edges IH]; intros seen; cbn [import_edges]; walk_spec. Qed.
Hint Resolve import_edges_spec : builder.

Lemma import_path_spec seen h : spec [] (import_path other seen h) (λ _, []).
Proof. unfold import_path. walk_spec. all: walk_spec. Qed.
Hint Resolve import_path_spec : builder.

Lemma import_paths_spec paths : ∀ seen, spec [] (import_paths other seen paths) (λ _, []).
Proof. induction paths as [|p paths IH]; intros seen; cbn [import_paths]; walk_spec. Qed.

Lemma where_points a h pred :
  ordered a → arena_get a h = Ok (WhereClause pred) → points a pred.
Proof.
  unfold arena_get. intros Ho H. apply ok_or_Ok in H. pose proof (Ho _ _ _ H (list_elem_of_here _ _)).
  apply lookup_lt_Some in H. unfold points, arena_len, blen. lia.
Qed.

Lemma import_where_spec wh : spec [] (import_where other wh) (λ _, []).
Proof.
  unfold import_where. destruct wh as [h|]; [|spec_step].
  destruct (arena_get (arena other) h) as [n|] eqn:Eh; [|spec_step]. destruct n; try (apply spec_ret; inlist).
  eapply (spec_weaken []); [|inlist].
  apply (spec_ext _ (import_subarena (arena other) root_predicate ≫= where_expr)).
  { intros b. unfold import_subarena, next_offset, gets, mbind, BM_bind. by destruct (alloc_all _ b). }
  eapply (spec_bind _ (import_subarena (arena other) root_predicate) where_expr).
  - apply import_subarena_spec. intros Hle. destruct (Hother Hle) as [Ho _]. split; [done|].
    by eapply where_points.
  - intros h'. unfold where_expr, where_predicate. spec_step.
Qed.
Hint Resolve import_paths_spec import_where_spec : builder.

Lemma import_matches_spec clauses : ∀ seen, spec [] (import_matches other seen clauses) (λ _, []).
Proof. induction clauses as [|m clauses IH]; intros seen; cbn [import_matches]; walk_spec. Qed.
End import.

Lemma import_match_patterns_spec other seen :
  good other → spec [] (import_match_patterns other seen) (λ _, []).
Proof.
  intros Hg. unfold import_match_patterns.
  assert (Hf : good (flush_current_path other).2).
  { apply (spec_good [] _ (λ _, [])); [apply flush_spec|done|by constructor]. }
  eapply spec_bind; [apply spec_get_data|]. intros mode. eapply (spec_bind _ _ _ (λ _, [])); [|intros []].
  - destruct mode; [spec_step|]. unfold match_. walk_spec.
  - eapply spec_bind; [eapply spec_weaken; [by apply import_matches_spec|inlist]|]. intros seen'. spec_step.
Qed.

(** ** Sessions *)

Section sessions.
Context `{CharClass}.

(** Builders that calls make out of new ones.  The handles passed to a call are handles
    of the builder; [subquery] runs calls on a new builder and imports what it builds. *)
Inductive session : QueryBuilder → Prop :=
| session_new : session QueryBuilder_new
| session_alloc b hs m : session b → allocates hs m → Forall (points (arena b)) hs → session (m b).2
| session_call b hs m : session b → method hs m → Forall (points (arena b)) hs → session (m b).2
| session_subquery b sub :
    session b → session sub → session (import_subarena (build sub).1 (build sub).2 b).2
| session_import b other seen :
    session b → session other → session (import_match_patterns other seen b).2.

Lemma session_good b : session b → good b.
Proof.
  induction 1 as [|b hs m _ IH Hm Hhs|b hs m _ IH Hm Hhs|b sub _ IHb _ IHs|b other seen _ IHb _ IHo].
  - intros _. apply QueryBuilder_new_wf.
  - by eapply (spec_good _ _ _ _ (allocates_spec _ _ Hm)).
  - by eapply (spec_good _ _ _ _ (method_spec _ _ Hm)).
  - eapply (spec_good [] _ _ _); [|done|by constructor]. apply import_subarena_spec. by apply build_good.
  - eapply (spec_good [] _ _ _); [|done|by constructor]. by apply import_match_patterns_spec.
Qed.

Lemma session_do b m (k : () → BM ()) :
  (session (m b).2 → session (k tt (m b).2).2) → session b → method [] m → session ((m ≫= k) b).2.
Proof.
  intros Hk Hb Hm. unfold mbind, BM_bind.
  assert (Hs : session (m b).2) by (by eapply session_call).
  apply Hk in Hs. by destruct (m b) as [[] b'].
Qed.

(** C10: what a caller builds is a well-formed query.  After any sequence of calls on a
    builder, subqueries and imported patterns included, that pass it its own handles:
    in the arena [build] returns, every node refers only to nodes allocated before
    it, and the root is a node (as long as the nodes have 32-bit handles). *)
Theorem built_arena_ordered b :
  session b → arena_len (build b).1 <= U32_MAX → ordered (build b).1 ∧ points (build b).1 (build b).2.
Proof. intros Hs. by apply build_good, session_good. Qed.
End sessions.

(** ** The properties at a query *)

#[local] Existing Instance ascii_CharClass.

(** [match().node("p", ["Person"]).to(["KNOWS"], "r").node("f", []).where_gt("p", "age", 21)
    .return().field("f", "name", None)]. *)
Definition friends : BM () :=
  _ ← match_;
  _ ← node_ (Some "p") ["Person"];
  _ ← to_ ["KNOWS"] (Some "r");
  _ ← node_ (Some "f") [];
  _ ← where_gt "p" "age" (LInt64 21);
  _ ← return_;
  field "f" "name" None.

Ltac so_far := match goal with H : session _ |- _ => exact H end.
Lemma friends_session : session (friends QueryBuilder_new).2.
Proof.
  unfold friends.
  apply session_do; [intros ?; cbn beta|apply session_new|apply call_match].
  apply session_do; [intros ?; cbn beta|so_far|apply call_node].
  apply session_do; [intros ?; cbn beta|so_far|apply call_to].
  apply session_do; [intros ?; cbn beta|so_far|apply call_node].
  apply session_do; [intros ?; cbn beta|so_far|apply (call_where_property _ _ Gt)].
  apply session_do; [intros ?; cbn beta|so_far|apply call_return].
  eapply session_call; [so_far|apply call_select_property|constructor].
Qed.

Lemma built_arena_ordered_witness :
  ordered (build (friends QueryBuilder_new).2).1
  ∧ points (build (friends QueryBuilder_new).2).1 (build (friends QueryBuilder_new).2).2.
Proof. apply built_arena_ordered; [apply friends_session|vm_compute; discriminate]. Defined.
