(* ===== verification/Queries.v ===== *)
(** * From calls to text

    Builder and emitters together: what a caller builds, compiles; a chain of
    patterns is written as it was called for; and the orders of calls in which a
    condition gets lost. *)
From S2P Require Import Prelude Bytes F64 Errors Text Ast ArenaShape Label Emit EmitRel EmitParams Dialects.
From S2P Require Import Builder BuilderSafe BuilderArena.
From S2P Require Cypher Gql Age.

Open Scope Z_scope.
Open Scope string_scope.
Open Scope list_scope.

(** ** Built queries compile *)

(** C22: whatever calls made a query, every dialect compiles it to a statement or
    refuses it for what it says: compilation ends, and never on a handle that points
    nowhere. *)
Theorem built_queries_compile `{CharClass} `{LiteralDebug} d b :
  session b → arena_len (build b).1 <= U32_MAX →
  ∃ r, compile d (build b).1 (build b).2 = r ∧ r ≠ Err OutOfFuel ∧ ∀ h, r ≠ Err (Fail (InvalidNodeHandle h)).
Proof.
  intros Hs Hb. destruct (build_good b (session_good b Hs) Hb) as [Ho Hp].
  eexists. split; [done|]. split; [by apply comp_ends, ordered_acyclic|].
  intros h Hc. eapply comp_valid; [by apply ordered_acyclic|by apply ordered_complete| |exact Hc|by exists h].
  apply lookup_lt_is_Some. unfold points, arena_len, blen in Hp. lia.
Qed.

#[local] Existing Instance ascii_CharClass.
#[local] Existing Instance no_debug.

Lemma built_queries_compile_witness :
  ∃ r, compile (IsoGql Emitter_new) (build (friends QueryBuilder_new).2).1 (build (friends QueryBuilder_new).2).2 = r
       ∧ r ≠ Err OutOfFuel ∧ ∀ h, r ≠ Err (Fail (InvalidNodeHandle h)).
Proof. apply built_queries_compile; [apply friends_session|vm_compute; discriminate]. Defined.

Lemma friends_text :
  compile (IsoGql Emitter_new) (build (friends QueryBuilder_new).2).1 (build (friends QueryBuilder_new).2).2
  = Ok (with_columns "MATCH (p:Person)-[r:KNOWS]->(f) WHERE p.age > $p0 RETURN f.name" [("p0", LInt64 21)]
          Normal [mkColumn "f.name" None]).
Proof. vm_compute. reflexivity. Qed.

(** ** Chains of patterns *)

(** One relationship and the node it leads to. *)
Record hop := mkHop {
  hop_direction : Direction;
  hop_types : list string;
  hop_variable : option string;
  hop_node : option string;
  hop_labels : list string;
}.

Section chains.
Context `{CharClass} `{LiteralDebug}.

Fixpoint chain_calls (hops : list hop) : BM () :=
  match hops with
  | [] => mret tt
  | x :: hops =>
      _ ← to_edge (hop_direction x) (hop_types x) (hop_variable x) (hop_node x) (hop_labels x);
      chain_calls hops
  end.
Definition match_chain (v : option string) (labels : list string) (hops : list hop) : BM () :=
  _ ← match_; _ ← node_ v labels; chain_calls hops.

(** The openCypher text of the chain. *)
Definition node_text (v : option string) (labels : list string) : string :=
  "(" +:+ default "" v +:+ emit_cypher_node_labels (from_labels labels) +:+ ")".
Definition hop_text (x : hop) : string :=
  match hop_direction x with DirIncoming => "<-[" | _ => "-[" end
  +:+ default "" (hop_variable x) +:+ emit_cypher_edge_labels (from_edge_types (hop_types x))
  +:+ match hop_direction x with DirOutgoing => "]->" | _ => "]-" end
  +:+ node_text (hop_node x) (hop_labels x).
Definition chain_text (v : option string) (labels : list string) (hops : list hop) : string :=
  node_text v labels +:+ foldr (λ x t, hop_text x +:+ t) "" hops.

(** The builder while the chain is written. *)
Definition writing (ns : list AstNode) (start : NodeHandle) (edges : list NodeHandle) : QueryBuilder :=
  mkBuilder (mkArena ns) Normal None [] [] [] [] [] None (Some CMMatch) false (Some start) PMNone None edges []
    None [] [] [] [] [] [] false None None.

Definition is_node (ns : list AstNode) (h : NodeHandle) (v : option string) (labels : list string) : Prop :=
  ns !! Z.to_nat h = Some (NodePattern v (from_labels labels) []).
Definition is_hop (ns : list AstNode) (e : NodeHandle) (x : hop) : Prop :=
  ∃ target, ns !! Z.to_nat e = Some (EdgePattern (hop_variable x) (from_edge_types (hop_types x))
                                      (hop_direction x) None None [] target)
            ∧ is_node ns target (hop_node x) (hop_labels x).

Lemma is_node_app ns ms h v labels : is_node ns h v labels → is_node (ns ++ ms) h v labels.
Proof. unfold is_node. intros Hn. by rewrite (lookup_app_l_Some _ _ _ _ Hn). Qed.
Lemma is_hop_app ns ms e x : is_hop ns e x → is_hop (ns ++ ms) e x.
Proof.
  intros (t & He & Ht). exists t. split; [by apply lookup_app_l_Some|by apply is_node_app].
Qed.

(** The handle of the next node. *)
Lemma next_handle (ns : list AstNode) k :
  blen ns + k < 2 ^ 32 → 0 <= k → Z.to_nat (as_unsigned 32 (blen ns + k)) = (length ns + Z.to_nat k)%nat.
Proof. intros Hlt Hk. unfold as_unsigned. rewrite Z.mod_small; unfold blen in *; lia. Qed.

Lemma hop_written x ns start edges :
  blen ns + 2 < 2 ^ 32 →
  ∃ ms e, to_edge (hop_direction x) (hop_types x) (hop_variable x) (hop_node x) (hop_labels x)
            (writing ns start edges) = (tt, writing (ns ++ ms) start (edges ++ [e]))
          ∧ blen ms = 2 ∧ is_hop (ns ++ ms) e x.
Proof.
  intros Hlt. set (t := as_unsigned 32 (blen ns)).
  set (n := NodePattern (hop_node x) (from_labels (hop_labels x)) []).
  set (ed := EdgePattern (hop_variable x) (from_edge_types (hop_types x)) (hop_direction x) None None [] t).
  exists [n; ed], (as_unsigned 32 (blen (ns ++ [n]))). split_and!.
  - unfold to_edge, to_, from_, edge, to_expr_opt, from_expr_opt, edge_expr_opt, set_pending, node_.
    unfold ed. rewrite (app_assoc ns [n] [_] : ns ++ [n; _] = _).
    destruct (hop_direction x); reflexivity.
  - done.
  - exists t. pose proof (next_handle ns 1 ltac:(lia) ltac:(lia)) as H1.
    pose proof (next_handle ns 0 ltac:(lia) ltac:(lia)) as Hz. rewrite Z.add_0_r in Hz. fold t in Hz.
    split.
    + rewrite blen_app. change (blen [n]) with 1. rewrite H1, lookup_app_r by lia.
      by replace (length ns + Z.to_nat 1 - length ns)%nat with 1%nat by lia.
    + unfold is_node. rewrite Hz, lookup_app_r by lia.
      by replace (length ns + Z.to_nat 0 - length ns)%nat with 0%nat by lia.
Qed.

Lemma chain_written hops : ∀ ns start edges,
  blen ns + 2 * blen hops < 2 ^ 32 →
  ∃ ms es, chain_calls hops (writing ns start edges) = (tt, writing (ns ++ ms) start (edges ++ es))
           ∧ blen ms = 2 * blen hops ∧ Forall2 (is_hop (ns ++ ms)) es hops.
Proof.
  induction hops as [|x hops IH]; intros ns start edges Hlt.
  - exists [], []. rewrite !app_nil_r. by split_and!.
  - assert (Hlen : blen (x :: hops) = 1 + blen hops) by (unfold blen; simpl; lia).
    pose proof (blen_nonneg hops). rewrite Hlen in Hlt.
    destruct (hop_written x ns start edges) as (ms & e & Hx & Hms & He); [lia|].
    destruct (IH (ns ++ ms) start (edges ++ [e])) as (ms' & es & Hc & Hms' & Hes); [rewrite blen_app; lia|].
    exists (ms ++ ms'), (e :: es). cbn [chain_calls]. unfold mbind, BM_bind. rewrite Hx, Hc.
    rewrite app_assoc, <- (app_assoc edges [e] es). split_and!; [done|rewrite blen_app; lia|].
    constructor; [by apply is_hop_app|done].
Qed.

(** ** The text of a chain *)

Section emission.
Context (a : QueryAstArena) (c : Calls).
#[local] Arguments String.append : simpl never.

Ltac text := unfold push_str, pushed; cbn; rewrite ?string_app_assoc; reflexivity.

Lemma node_emitted h v labels s :
  is_node (nodes a) h v labels → Cypher.emit_node_pattern a c h s = Ok (tt, pushed (node_text v labels) s).
Proof.
  unfold is_node. intros Hn. unfold Cypher.emit_node_pattern, node, arena_get, mbind, EM_bind. rewrite Hn.
  unfold node_text. destruct v; text.
Qed.

Lemma hop_emitted e x s :
  is_hop (nodes a) e x → Cypher.emit_edge_pattern a c e s = Ok (tt, pushed (hop_text x) s).
Proof.
  intros (t & He & Ht). unfold Cypher.emit_edge_pattern, node, arena_get, mbind at 1, EM_bind at 1. rewrite He.
  cbn [ok_or]. unfold hop_text.
  destruct (hop_direction x), (hop_variable x); unfold mbind, EM_bind; cbn;
    rewrite (node_emitted _ _ _ _ Ht); text.
Qed.

Lemma hops_emitted es hops : Forall2 (is_hop (nodes a)) es hops → ∀ s,
  e_each (Cypher.emit_edge_pattern a c) es s = Ok (tt, pushed (foldr (λ x t, hop_text x +:+ t) "" hops) s).
Proof.
  induction 1 as [|e x es hops Hx _ IH]; intros s; cbn [e_each].
  - unfold pushed. cbn. rewrite string_app_nil. by destruct s.
  - unfold mbind, EM_bind. rewrite (hop_emitted _ _ _ Hx), IH. text.
Qed.
End emission.

(** What [build] adds after a chain. *)
Definition chain_path (start : NodeHandle) (es : list NodeHandle) : list AstNode :=
  match es with [] => [] | _ => [PathChain None PMNone start es] end.

Lemma chain_built ns start es :
  blen ns + 3 < 2 ^ 32 → ∃ p m root,
    build (writing ns start es)
    = (mkArena (ns ++ chain_path start es ++ [MatchClause false [p] None;
                 QueryStatement Normal None [] [m] [] [] [] None]), root)
    ∧ let ns' := ns ++ chain_path start es ++ [MatchClause false [p] None;
                   QueryStatement Normal None [] [m] [] [] [] None] in
      ns' !! Z.to_nat root = Some (QueryStatement Normal None [] [m] [] [] [] None)
      ∧ ns' !! Z.to_nat m = Some (MatchClause false [p] None)
      ∧ match es with
        | [] => p = start
        | _ => ns' !! Z.to_nat p = Some (PathChain None PMNone start es)
        end.
Proof.
  intros Hlt.
  pose proof (next_handle ns 0 ltac:(lia) ltac:(lia)) as Hz. rewrite Z.add_0_r in Hz.
  pose proof (next_handle ns 1 ltac:(lia) ltac:(lia)) as H1.
  pose proof (next_handle ns 2 ltac:(lia) ltac:(lia)) as H2.
  assert (Hlook : ∀ (l : list AstNode) k, (ns ++ l) !! (length ns + k)%nat = l !! k).
  { intros l k. rewrite lookup_app_r by lia. by replace (length ns + k - length ns)%nat with k by lia. }
  destruct es as [|e es].
  - exists start, (as_unsigned 32 (blen ns)), (as_unsigned 32 (blen (ns ++ [MatchClause false [start] None]))).
    split; [cbn [chain_path app]; by rewrite (app_assoc ns [_] [_] : ns ++ [_; _] = _)|].
    rewrite blen_app. change (blen [_]) with 1. cbn zeta. cbn [chain_path app].
    rewrite Hz, H1. split_and!; by rewrite ?Hlook.
  - set (pc := PathChain None PMNone start (e :: es)). set (p := as_unsigned 32 (blen ns)).
    exists p, (as_unsigned 32 (blen (ns ++ [pc]))),
      (as_unsigned 32 (blen ((ns ++ [pc]) ++ [MatchClause false [p] None]))).
    split; [cbn [chain_path app]; rewrite (app_assoc ns [_] [_; _] : ns ++ [_; _; _] = _);
            by rewrite (app_assoc (ns ++ [_]) [_] [_] : (ns ++ [_]) ++ [_; _] = _)|].
    assert (Hone : ∀ x : AstNode, blen [x] = 1) by done.
    rewrite !blen_app, !Hone, <- Z.add_assoc. change (1 + 1) with 2.
    cbn zeta. cbn [chain_path app]. unfold p. rewrite Hz, H1, H2. split_and!; by rewrite Hlook.
Qed.

(** The path of a chain is written by [emit_path], whatever follows it in the arena. *)
Lemma path_emitted a c p start v labels es hops s :
  is_node (nodes a) start v labels → Forall2 (is_hop (nodes a)) es hops →
  match es with [] => p = start | _ => nodes a !! Z.to_nat p = Some (PathChain None PMNone start es) end →
  Cypher.emit_path a c p s = Ok (tt, pushed (chain_text v labels hops) s).
Proof.
  intros Hn Hes Hp. unfold Cypher.emit_path, node, arena_get, mbind at 1, EM_bind at 1. unfold chain_text.
  destruct es as [|e es].
  - subst p. apply Forall2_nil_inv_l in Hes as ->. pose proof (node_emitted a c _ _ _ s Hn) as Hnode.
    unfold is_node in Hn. rewrite Hn. cbn [ok_or foldr]. by rewrite Hnode, string_app_nil.
  - rewrite Hp. cbn [ok_or]. unfold mbind, EM_bind. cbn [e_option mret EM_ret].
    rewrite (node_emitted a c _ _ _ s Hn), (hops_emitted a c _ _ Hes). unfold pushed. cbn [buffer param_counter
      parameters ignore_execution_mode]. by rewrite string_app_assoc.
Qed.

(** A statement that is one MATCH of one path. *)
Lemma match_emitted a c m p t s :
  nodes a !! Z.to_nat m = Some (MatchClause false [p] None) → (∀ s, path_ c p s = Ok (tt, pushed t s)) →
  Cypher.emit_match a c m s = Ok (tt, pushed ("MATCH " +:+ t) s).
Proof.
  intros Hm Hp. unfold Cypher.emit_match, node, arena_get, mbind, EM_bind. rewrite Hm. cbn [ok_or].
  unfold Cypher.emit_match_clause, mbind, EM_bind. cbn [push_str separated each_after e_option].
  unfold mbind, EM_bind, push_str, mret, EM_ret. rewrite Hp. unfold pushed.
  cbn [buffer param_counter parameters ignore_execution_mode]. by rewrite string_app_assoc.
Qed.

Lemma statement_emitted a c root m t s :
  nodes a !! Z.to_nat root = Some (QueryStatement Normal None [] [m] [] [] [] None) →
  (∀ s, Cypher.emit_match a c m s = Ok (tt, pushed t s)) →
  fst <$> Cypher.visit_query a c root s = Ok (with_columns t [] Normal []).
Proof.
  intros Hroot Hm. unfold Cypher.visit_query, node, arena_get, mbind, EM_bind. cbn. rewrite Hroot.
  destruct (ignore_execution_mode s); cbn; unfold mbind, EM_bind; cbn; rewrite Hm; reflexivity.
Qed.

(** The arena of a chain: a statement of one MATCH of one path, with the chain's patterns. *)
Definition chain_shape (v : option string) (labels : list string) (hops : list hop) (a : QueryAstArena) (root : NodeHandle) : Prop :=
  ∃ p m es,
    nodes a !! Z.to_nat root = Some (QueryStatement Normal None [] [m] [] [] [] None) ∧
    nodes a !! Z.to_nat m = Some (MatchClause false [p] None) ∧
    match es with [] => p = 0 | _ => nodes a !! Z.to_nat p = Some (PathChain None PMNone 0 es) end ∧
    is_node (nodes a) 0 v labels ∧ Forall2 (is_hop (nodes a)) es hops.

Lemma chain_shaped v labels hops :
  2 * blen hops + 4 < 2 ^ 32 →
  let q := build (match_chain v labels hops QueryBuilder_new).2 in chain_shape v labels hops q.1 q.2.
Proof.
  intros Hlt. cbv zeta. pose proof (blen_nonneg hops).
  set (n := NodePattern v (from_labels labels) []).
  destruct (chain_written hops [n] 0 []) as (ms & es & Hc & Hms & Hes); [change (blen [n]) with 1; lia|].
  assert (Hrun : (match_chain v labels hops QueryBuilder_new).2 = writing ([n] ++ ms) 0 es).
  { change (match_chain v labels hops QueryBuilder_new) with (chain_calls hops (writing [n] 0 [])).
    by rewrite Hc. }
  rewrite Hrun. destruct (chain_built ([n] ++ ms) 0 es) as (p & m & root & -> & Hroot & Hm & Hp).
  { rewrite blen_app. change (blen [n]) with 1. lia. }
  exists p, m, es. cbn [fst snd nodes]. split; [done|]. split; [done|]. split; [done|]. split; [done|].
  eapply Forall2_impl; [exact Hes|]. intros x y Hx. by apply is_hop_app.
Qed.

Lemma shape_compiles v labels hops a root e :
  chain_shape v labels hops a root →
  compile (OpenCypher e) a root = Ok (with_columns ("MATCH " +:+ chain_text v labels hops) [] Normal []).
Proof.
  intros (p & m & es & Hroot & Hm & Hp & Hstart & Hall). cbn [compile]. unfold Cypher.cypher_compile, Cypher.cypher_visit.
  assert (Hlen : ∃ k, length (nodes a) = S k) by (destruct (nodes a); [done|by eexists]). destruct Hlen as [k ->].
  cbn [Cypher.cypher_calls query]. apply (statement_emitted _ _ _ m); [done|]. intros s.
  apply (match_emitted _ _ _ p); [done|]. intros s'. by apply (path_emitted _ _ p 0 v labels es hops).
Qed.

(** C6: a chain of calls is the query it reads as.  For any first node and any number
    of relationships and nodes called for after [match()], the built query compiles to
    the openCypher statement of exactly that chain: every node with its variable and
    labels, every relationship with its direction, variable and types, in order; and
    nothing else. *)
Theorem chain_compiles v labels hops e :
  2 * blen hops + 4 < 2 ^ 32 →
  compile (OpenCypher e) (build (match_chain v labels hops QueryBuilder_new).2).1
    (build (match_chain v labels hops QueryBuilder_new).2).2
  = Ok (with_columns ("MATCH " +:+ chain_text v labels hops) [] Normal []).
Proof. intros Hlt. by apply shape_compiles, chain_shaped. Qed.
End chains.

(** ** Calls without effect *)

(** A condition is kept only while a pattern is being written.  After a call that
    ends the pattern ([return], [delete], [remove], [unwind], ...), a WHERE predicate
    leaves no trace in the built query: not in the arena, not in the statement. *)
Theorem late_predicate_is_lost h b :
  current_path_start b = None → current_match_paths b = [] → clause_mode b ≠ Some CMWith →
  build (where_predicate h b).2 = build b.
Proof.
  destruct b as [a mode csv us ms ls ws mu call cm opt start pm pv es mps pe wh oc om items ps os d l s].
  cbn [current_path_start current_match_paths clause_mode]. intros -> -> Hcm.
  destruct call as [n|].
  - unfold build, build_m, where_predicate, modify, gets, mbind, BM_bind, b_update, arena_get. cbn.
    destruct (nodes a !! Z.to_nat n) eqn:E; cbn; rewrite ?E; reflexivity.
  - by destruct cm as [[]|], items, ps.
Qed.

(** The query of the witness deletes every user. *)
Definition delete_user : BM () :=
  _ ← match_;
  _ ← node_ (Some "u") ["User"];
  _ ← detach_delete ["u"];
  where_eq "u" "id" (LInt64 7).

Lemma late_predicate_is_lost_witness :
  compile (OpenCypher Emitter_new) (build (delete_user QueryBuilder_new).2).1 (build (delete_user QueryBuilder_new).2).2
  = Ok (with_columns "MATCH (u:User) DETACH DELETE u" [] Normal [])
  ∧ let b := (where_eq "u" "id" (LInt64 7) QueryBuilder_new).2 in
    build (where_predicate 3 b).2 = build b.
Proof.
  split; [vm_compute; reflexivity|].
  apply late_predicate_is_lost; [reflexivity|reflexivity|discriminate].
Defined.

(** A MERGE keeps the first of its patterns. *)
Lemma merge_keeps_one_pattern :
  let q := _ ← merge_; _ ← node_ (Some "a") []; _ ← pattern; node_ (Some "b") [] in
  compile (OpenCypher Emitter_new) (build (q QueryBuilder_new).2).1 (build (q QueryBuilder_new).2).2
  = Ok (with_columns "MERGE (a)" [] Normal []).
Proof. vm_compute. reflexivity. Qed.

(** The chain [(a:A)-[:R]->()<-[s:S]-(b)]. *)
Definition two_hops : list hop :=
  [mkHop DirOutgoing ["R"] None None []; mkHop DirIncoming ["S"] (Some "s") (Some "b") []].
Lemma chain_compiles_witness :
  compile (OpenCypher Emitter_new) (build (match_chain (Some "a") ["A"] two_hops QueryBuilder_new).2).1
    (build (match_chain (Some "a") ["A"] two_hops QueryBuilder_new).2).2
  = Ok (with_columns "MATCH (a:A)-[:R]->()<-[s:S]-(b)" [] Normal []).
Proof.
  rewrite (chain_compiles (Some "a") ["A"] two_hops Emitter_new) by (vm_compute; reflexivity).
  vm_compute. reflexivity.
Defined.
