(* ===== verification/Bulk.v ===== *)
(** * Bulk statements ([voyager-core/src/bulk.rs])

    Statements that create, merge or connect a batch of rows: the arena each function
    allocates, node by node, and the emitter it hands the arena to.  The theorem says which
    openCypher text the first one gives, for any list of properties. *)
From S2P Require Import Prelude Bytes F64 Errors Ast Text ArenaShape Label Emit EmitRel EmitParams Dialects Queries.
From S2P Require Cypher Gql.

Open Scope Z_scope.
Open Scope string_scope.
Open Scope list_scope.

(** ** The functions *)
Definition AS (A : Type) : Type := QueryAstArena → A * QueryAstArena.
#[export] Instance AS_ret : MRet AS := λ A x a, (x, a).
#[export] Instance AS_bind : MBind AS := λ A B f m a, let '(x, a) := m a in f x a.
Definition alloc_ (n : AstNode) : AS NodeHandle := arena_alloc n.

Fixpoint alloc_each {A} (f : A → AS NodeHandle) (l : list A) : AS (list NodeHandle) :=
  match l with
  | [] => mret []
  | x :: l => h ← f x; hs ← alloc_each f l; mret (h :: hs)
  end.

(** [target.prop = row.prop]. *)
Definition alloc_set_item (target_ident row_ident : NodeHandle) (prop : string) : AS NodeHandle :=
  target_prop ← alloc_ (PropertyAccess target_ident prop);
  row_prop ← alloc_ (PropertyAccess row_ident prop);
  alloc_ (SetItem target_prop row_prop false).
Definition alloc_unwind (batch_param row_alias : string) : AS NodeHandle :=
  batch_param_handle ← alloc_ (ParameterNode batch_param);
  alloc_ (UnwindClause batch_param_handle row_alias).
(** [target.key = row.row_key]. *)
Definition alloc_key (target_ident row_ident : NodeHandle) (key row_key : string) : AS NodeHandle :=
  key_prop ← alloc_ (PropertyAccess target_ident key);
  row_key_prop ← alloc_ (PropertyAccess row_ident row_key);
  alloc_ (BinaryExpression key_prop Eq row_key_prop).
(** The mutations with a SET clause, if there is anything to set. *)
Definition alloc_set (set_items : list NodeHandle) (mutations : list NodeHandle) : AS (list NodeHandle) :=
  match set_items with
  | [] => mret mutations
  | _ => set_clause ← alloc_ (SetClause set_items); mret (mutations ++ [set_clause])
  end.
Definition alloc_root (unwind : NodeHandle) (matches mutations : list NodeHandle) : AS NodeHandle :=
  alloc_ (QueryStatement Normal None [unwind] matches [] [] mutations None).

Section bulk.
Context `{LowerCase}.

Definition bulk_create (label : string) (properties : list string) (batch_param row_alias : string) : AS NodeHandle :=
  let node_var := "_" +:+ to_lowercase label +:+ "_0" in
  unwind_handle ← alloc_unwind batch_param row_alias;
  node_pattern_handle ← alloc_ (NodePattern (Some node_var) (Some (LabelName label)) []);
  create_handle ← alloc_ (CreateClause [node_pattern_handle]);
  node_var_ident ← alloc_ (Identifier node_var);
  row_alias_ident ← alloc_ (Identifier row_alias);
  set_items ← alloc_each (alloc_set_item node_var_ident row_alias_ident) properties;
  mutations ← alloc_set set_items [create_handle];
  alloc_root unwind_handle [] mutations.

Definition bulk_merge (label key_property : string) (properties : list string) (batch_param row_alias : string) :
    AS NodeHandle :=
  let node_var := "_" +:+ to_lowercase label +:+ "_0" in
  unwind_handle ← alloc_unwind batch_param row_alias;
  node_var_ident ← alloc_ (Identifier node_var);
  row_alias_ident ← alloc_ (Identifier row_alias);
  key_pred ← alloc_key node_var_ident row_alias_ident key_property key_property;
  node_pattern_handle ← alloc_ (NodePattern (Some node_var) (Some (LabelName label)) [key_pred]);
  items ← alloc_each (alloc_set_item node_var_ident row_alias_ident) properties;
  merge_handle ← alloc_ (MergeClause node_pattern_handle items items);
  alloc_root unwind_handle [] [merge_handle].

Definition bulk_create_rel (rel_type : string) (properties : list string) (from_label from_key to_label to_key : string)
    (batch_param row_alias : string) : AS NodeHandle :=
  let from_var := "_from_" +:+ to_lowercase from_label +:+ "_0" in
  let to_var := "_to_" +:+ to_lowercase to_label +:+ "_0" in
  let rel_var := "_" +:+ to_lowercase rel_type +:+ "_0" in
  unwind_handle ← alloc_unwind batch_param row_alias;
  from_var_ident ← alloc_ (Identifier from_var);
  to_var_ident ← alloc_ (Identifier to_var);
  row_alias_ident ← alloc_ (Identifier row_alias);
  from_pred ← alloc_key from_var_ident row_alias_ident from_key ("from_" +:+ from_key);
  from_node_handle ← alloc_ (NodePattern (Some from_var) (Some (LabelName from_label)) [from_pred]);
  to_pred ← alloc_key to_var_ident row_alias_ident to_key ("to_" +:+ to_key);
  to_node_handle ← alloc_ (NodePattern (Some to_var) (Some (LabelName to_label)) [to_pred]);
  match_handle ← alloc_ (MatchClause false [from_node_handle; to_node_handle] None);
  dest_node_ref ← alloc_ (NodePattern (Some to_var) None []);
  edge_pattern ← alloc_ (EdgePattern (Some rel_var) (Some (LabelName rel_type)) DirOutgoing None None [] dest_node_ref);
  src_node_ref ← alloc_ (NodePattern (Some from_var) None []);
  path_chain ← alloc_ (PathChain None PMNone src_node_ref [edge_pattern]);
  create_handle ← alloc_ (CreateClause [path_chain]);
  rel_var_ident ← alloc_ (Identifier rel_var);
  set_items ← alloc_each (alloc_set_item rel_var_ident row_alias_ident) properties;
  mutations ← alloc_set set_items [create_handle];
  alloc_root unwind_handle [match_handle] mutations.

(** The emitter of a dialect's name: ISO GQL, or else openCypher. *)
Definition bulk_compile `{LiteralDebug} (dialect : string) (m : AS NodeHandle) : result stop CompiledQuery :=
  let '(root, a) := m arena_new in
  if bool_decide (to_lowercase dialect ∈ ["iso_gql"; "gql"]) then compile (IsoGql Emitter_new) a root
  else compile (OpenCypher Emitter_new) a root.
Definition compile_bulk_create `{LiteralDebug} (label : string) (properties : list string)
    (batch_param row_alias dialect : string) := bulk_compile dialect (bulk_create label properties batch_param row_alias).
Definition compile_bulk_merge `{LiteralDebug} (label key_property : string) (properties : list string)
    (batch_param row_alias dialect : string) := bulk_compile dialect (bulk_merge label key_property properties batch_param row_alias).
Definition compile_bulk_create_rel `{LiteralDebug} (rel_type : string) (properties : list string)
    (from_label from_key to_label to_key batch_param row_alias dialect : string) :=
  bulk_compile dialect (bulk_create_rel rel_type properties from_label from_key to_label to_key batch_param row_alias).
End bulk.

(** ** The text of a bulk creation *)
Section text.
Context `{LowerCase} `{LiteralDebug}.
#[local] Arguments String.append : simpl never.

(** [target.prop], as the emitters write it. *)
Definition access_text (target prop : string) : string := if bool_decide (prop = "") then target else target +:+ "." +:+ prop.
Definition set_text (var row prop : string) : string := access_text var prop +:+ " = " +:+ access_text row prop.
Definition bulk_create_text (label : string) (properties : list string) (batch_param row_alias : string) : string :=
  let var := "_" +:+ to_lowercase label +:+ "_0" in
  "UNWIND $" +:+ batch_param +:+ " AS " +:+ row_alias
  +:+ " CREATE (" +:+ var +:+ emit_cypher_node_labels (Some (LabelName label)) +:+ ")"
  +:+ (if bool_decide (properties = []) then "" else " SET " +:+ join ", " (set_text var row_alias <$> properties)).

(** A computation that only writes. *)
Definition writes (m : EM ()) (t : string) : Prop := ∀ s, m s = Ok (tt, pushed t s).

Lemma pushed_pushed t u s : pushed u (pushed t s) = pushed (t +:+ u) s.
Proof. unfold pushed. cbn. by rewrite string_app_assoc. Qed.
Lemma writes_str t : writes (push_str t) t.
Proof. done. Qed.
Lemma writes_bind m k t u : writes m t → writes k u → writes (_ ← m; k) (t +:+ u).
Proof. intros Hm Hk s. unfold mbind, EM_bind. rewrite Hm. by rewrite Hk, pushed_pushed. Qed.
Lemma writes_none : writes (mret tt) "".
Proof. intros s. unfold mret, EM_ret, pushed. rewrite string_app_nil. by destruct s. Qed.
Lemma writes_eq m t u : writes m t → t = u → writes m u.
Proof. by intros ? ->. Qed.
Lemma writes_node a h n m t : nodes a !! Z.to_nat h = Some n → writes (m n) t → writes (n ← node a h; m n) t.
Proof. intros Hn Hm s. unfold node, arena_get, mbind, EM_bind. rewrite Hn. apply Hm. Qed.

Lemma writes_separated {A} sep (f : A → EM ()) (l : list A) (ts : list string) :
  Forall2 (λ x t, writes (f x) t) l ts → writes (separated sep f l) (join sep ts).
Proof.
  intros Hl. destruct Hl as [|x t l ts Hx Hl]; [apply writes_none|]. cbn [separated].
  assert (∀ u, join sep (u :: ts) = u +:+ foldr (λ t r, sep +:+ t +:+ r) "" ts) as E.
  { clear. induction ts as [|t ts IH]; intros u; [by rewrite string_app_nil|].
    change (join sep (u :: t :: ts)) with (u +:+ sep +:+ join sep (t :: ts)). by rewrite IH. }
  rewrite E. apply writes_bind; [done|]. clear E Hx. induction Hl as [|y t' l ts Hy Hl IH]; [apply writes_none|].
  cbn [each_after foldr]. apply writes_bind; [apply writes_str|]. by apply writes_bind.
Qed.

(** *** The arena *)
Definition is_set_item (ns : list AstNode) (t r : NodeHandle) (h : NodeHandle) (prop : string) : Prop :=
  ∃ x y, ns !! Z.to_nat h = Some (SetItem x y false) ∧
    ns !! Z.to_nat x = Some (PropertyAccess t prop) ∧ ns !! Z.to_nat y = Some (PropertyAccess r prop).

Lemma is_set_item_app ns ms t r h prop : is_set_item ns t r h prop → is_set_item (ns ++ ms) t r h prop.
Proof. intros (x & y & Hh & Hx & Hy). exists x, y. split_and!; by apply lookup_app_l_Some. Qed.

Lemma set_item_allocated t r prop ns :
  blen ns + 3 < 2 ^ 32 →
  ∃ ms h, alloc_set_item t r prop (mkArena ns) = (h, mkArena (ns ++ ms)) ∧ blen ms = 3 ∧ is_set_item (ns ++ ms) t r h prop.
Proof.
  intros Hlt. set (x := as_unsigned 32 (blen ns)). set (y := as_unsigned 32 (blen ns + 1)).
  exists [PropertyAccess t prop; PropertyAccess r prop; SetItem x y false], (as_unsigned 32 (blen ns + 2)).
  assert (Hone : ∀ z : AstNode, blen [z] = 1) by done.
  assert (Hlook : ∀ (l : list AstNode) k, (ns ++ l) !! (length ns + k)%nat = l !! k).
  { intros l k. rewrite lookup_app_r by lia. by replace (length ns + k - length ns)%nat with k by lia. }
  split_and!; [|done|].
  - unfold alloc_set_item, alloc_, arena_alloc, mbind, AS_bind, arena_len. cbn [nodes].
    rewrite !blen_app, !Hone, <- !app_assoc, <- Z.add_assoc. done.
  - exists x, y. pose proof (next_handle ns 0 ltac:(lia) ltac:(lia)) as Hx. rewrite Z.add_0_r in Hx.
    pose proof (next_handle ns 1 ltac:(lia) ltac:(lia)) as Hy. pose proof (next_handle ns 2 ltac:(lia) ltac:(lia)) as Hh.
    fold x in Hx. fold y in Hy. by rewrite Hx, Hy, Hh, !Hlook.
Qed.

Lemma set_items_allocated t r props : ∀ ns,
  blen ns + 3 * blen props < 2 ^ 32 →
  ∃ ms hs, alloc_each (alloc_set_item t r) props (mkArena ns) = (hs, mkArena (ns ++ ms)) ∧ blen ms = 3 * blen props ∧
    Forall2 (is_set_item (ns ++ ms) t r) hs props.
Proof.
  induction props as [|p props IH]; intros ns Hlt.
  - exists [], []. rewrite app_nil_r. by split_and!.
  - assert (Hlen : blen (p :: props) = 1 + blen props) by (unfold blen; simpl; lia). pose proof (blen_nonneg props).
    destruct (set_item_allocated t r p ns) as (ms & h & E & Hms & Hh); [lia|].
    destruct (IH (ns ++ ms)) as (ms' & hs & E' & Hms' & Hhs); [rewrite blen_app; lia|].
    exists (ms ++ ms'), (h :: hs). cbn [alloc_each]. unfold mbind, AS_bind. rewrite E, E'. rewrite app_assoc.
    split_and!; [done|rewrite blen_app; lia|]. constructor; [by apply is_set_item_app|done].
Qed.

(** *** The text *)
Section emission.
Context (a : QueryAstArena).

Lemma ident_written k h x nested : nodes a !! Z.to_nat h = Some (Identifier x) → writes (expr (Cypher.cypher_calls a (S k)) h nested) x.
Proof. intros Hh. cbn [Cypher.cypher_calls expr]. unfold Cypher.emit_expression. by eapply writes_node. Qed.

Lemma access_written k h t x prop nested :
  nodes a !! Z.to_nat h = Some (PropertyAccess t prop) → nodes a !! Z.to_nat t = Some (Identifier x) →
  writes (expr (Cypher.cypher_calls a (S (S k))) h nested) (access_text x prop).
Proof.
  intros Hh Ht. cbn [Cypher.cypher_calls expr]. unfold Cypher.emit_expression at 1. eapply writes_node; [exact Hh|]. cbn beta iota.
  unfold access_text. case_bool_decide; cbn [negb e_when].
  - eapply writes_eq; [apply writes_bind; [by apply (ident_written k)|apply writes_none]|apply string_app_nil].
  - apply writes_bind; [by apply (ident_written k)|]. apply writes_bind; apply writes_str.
Qed.

Lemma set_item_written k t r x y h prop :
  nodes a !! Z.to_nat t = Some (Identifier x) → nodes a !! Z.to_nat r = Some (Identifier y) →
  is_set_item (nodes a) t r h prop →
  writes (Cypher.emit_set_item a (Cypher.cypher_calls a (S (S k))) h) (set_text x y prop).
Proof.
  intros Ht Hr (u & w & Hh & Hu & Hw). unfold Cypher.emit_set_item. eapply writes_node; [exact Hh|]. cbn beta iota.
  apply writes_bind; [by eapply access_written|]. apply writes_bind; [apply writes_str|by eapply access_written].
Qed.

Lemma spaced_written {A} (f : A → EM ()) l ts : Forall2 (λ x t, writes (f x) t) l ts →
  ∀ s, spaced f l true s = Ok (true, pushed (foldr (λ t r, " " +:+ t +:+ r) "" ts) s).
Proof.
  induction 1 as [|x t l ts Hx _ IH]; intros s; cbn [spaced foldr].
  - unfold mret, EM_ret, pushed. rewrite string_app_nil. by destruct s.
  - unfold mbind, EM_bind. cbn [e_when]. rewrite writes_str, Hx, IH. by rewrite !pushed_pushed, ?string_app_assoc.
Qed.

Lemma batch_written c root u muts t ts :
  nodes a !! Z.to_nat root = Some (QueryStatement Normal None [u] [] [] [] muts None) →
  writes (Cypher.emit_unwind a c u) t → Forall2 (λ m t, writes (Cypher.emit_mutation a c m) t) muts ts →
  fst <$> Cypher.visit_query a c root Emitter_new
    = Ok (with_columns (t +:+ foldr (λ t r, " " +:+ t +:+ r) "" ts) [] Normal []).
Proof.
  intros Hroot Hu Hm. unfold Cypher.visit_query, node, arena_get, mbind, EM_bind. cbn. rewrite Hroot.
  cbn. unfold mbind, EM_bind. cbn. rewrite Hu. cbn. unfold mret, EM_ret. rewrite (spaced_written _ _ _ Hm). reflexivity.
Qed.
End emission.

(** What every bulk creation begins with, and its texts. *)
Definition batch_nodes (label batch_param row_alias : string) : list AstNode :=
  let var := "_" +:+ to_lowercase label +:+ "_0" in
  [ParameterNode batch_param; UnwindClause 0 row_alias; NodePattern (Some var) (Some (LabelName label)) [];
   CreateClause [2]; Identifier var; Identifier row_alias].

Lemma batch_heads label batch_param row_alias rest k :
  let a := mkArena (batch_nodes label batch_param row_alias ++ rest) in
  let c := Cypher.cypher_calls a (S (S k)) in
  writes (Cypher.emit_unwind a c 1) ("UNWIND $" +:+ batch_param +:+ " AS " +:+ row_alias) ∧
  writes (Cypher.emit_mutation a c 3)
    ("CREATE (_" +:+ to_lowercase label +:+ "_0" +:+ emit_cypher_node_labels (Some (LabelName label)) +:+ ")").
Proof.
  split.
  - unfold Cypher.emit_unwind. eapply writes_node; [reflexivity|]. cbn beta iota. apply (writes_bind _ _ "UNWIND "); [apply writes_str|].
    apply (writes_bind _ _ ("$" +:+ batch_param)); [|apply writes_bind; apply writes_str].
    cbn [Cypher.cypher_calls expr]. unfold Cypher.emit_expression. eapply writes_node; [reflexivity|]. apply writes_bind; apply writes_str.
  - unfold Cypher.emit_mutation. eapply writes_node; [reflexivity|]. cbn beta iota. unfold Cypher.emit_create.
    eapply writes_node; [reflexivity|]. cbn beta iota. apply (writes_bind _ _ "CREATE "); [apply writes_str|].
    apply (writes_separated ", " _ [2] [_]). constructor; [|constructor].
    cbn [Cypher.cypher_calls path_]. unfold Cypher.emit_path. eapply writes_node; [reflexivity|]. cbn beta iota.
    unfold Cypher.emit_node_pattern. eapply writes_node; [reflexivity|]. cbn beta iota.
    intros s. unfold mbind, EM_bind. cbn. unfold push_str, pushed. cbn. by rewrite !string_app_assoc.
Qed.

Lemma set_clause_written a t r x y h hs props k :
  nodes a !! Z.to_nat t = Some (Identifier x) → nodes a !! Z.to_nat r = Some (Identifier y) →
  nodes a !! Z.to_nat h = Some (SetClause hs) → Forall2 (is_set_item (nodes a) t r) hs props →
  writes (Cypher.emit_mutation a (Cypher.cypher_calls a (S (S k))) h) ("SET " +:+ join ", " (set_text x y <$> props)).
Proof.
  intros Ht Hr Hh Hi. unfold Cypher.emit_mutation. eapply writes_node; [exact Hh|]. cbn beta iota. unfold Cypher.emit_set.
  eapply writes_node; [exact Hh|]. cbn beta iota. apply writes_bind; [apply writes_str|]. apply writes_separated.
  apply Forall2_fmap_r. eapply Forall2_impl; [exact Hi|]. intros u p Hu. by eapply set_item_written.
Qed.

(** For any label, any properties and any names of batch and row, the bulk creation compiles
    to the openCypher template: unwind the batch, create one node, set each property, in order,
    from the row's property of the same name; nothing else, and no parameter but the batch. *)
Theorem bulk_create_compiles label properties batch_param row_alias dialect :
  to_lowercase dialect ∉ ["iso_gql"; "gql"] → 3 * blen properties + 8 < 2 ^ 32 →
  compile_bulk_create label properties batch_param row_alias dialect
  = Ok (with_columns (bulk_create_text label properties batch_param row_alias) [] Normal []).
Proof.
  intros Hd Hlt. unfold compile_bulk_create, bulk_compile. rewrite bool_decide_false by done.
  set (ns := batch_nodes label batch_param row_alias).
  destruct (set_items_allocated 4 5 properties ns) as (ms & hs & E & Hms & Hhs); [change (blen ns) with 6; lia|].
  assert (bulk_create label properties batch_param row_alias arena_new
          = (let '(mutations, a) := alloc_set hs [3] (mkArena (ns ++ ms)) in alloc_root 1 [] mutations a)) as ->.
  { transitivity (let '(hs, a) := alloc_each (alloc_set_item 4 5) properties (mkArena ns) in
                  let '(mutations, a) := alloc_set hs [3] a in alloc_root 1 [] mutations a);
      [reflexivity|by rewrite E]. }
  set (extra := match hs with [] => [] | _ => [SetClause hs] end).
  set (h := as_unsigned 32 (blen (ns ++ ms))). set (muts := match hs with [] => [3] | _ => [3; h] end).
  set (q := QueryStatement Normal None [1] [] [] [] muts None).
  set (root := as_unsigned 32 (blen (ns ++ ms ++ extra))).
  assert ((let '(mutations, a) := alloc_set hs [3] (mkArena (ns ++ ms)) in alloc_root 1 [] mutations a)
          = (root, mkArena (ns ++ ms ++ extra ++ [q]))) as ->.
  { unfold root, q, muts, extra, h, alloc_root, alloc_, arena_alloc, arena_len. destruct hs as [|h0 hs]; cbn [alloc_set].
    - unfold mret, AS_ret. cbn [nodes]. by rewrite app_nil_r, <- app_assoc.
    - unfold mbind, AS_bind, mret, AS_ret, alloc_, arena_alloc, arena_len. cbn [nodes]. by rewrite <- !app_assoc. }
  cbn [compile]. unfold Cypher.cypher_compile, Cypher.cypher_visit. cbn [Cypher.cypher_calls query nodes].
  set (a := mkArena (ns ++ ms ++ extra ++ [q])).
  assert (Hb : blen (ns ++ ms ++ extra) + 1 < 2 ^ 32).
  { rewrite !blen_app, Hms. change (blen ns) with 6. assert (blen extra <= 1) by (unfold extra; by destruct hs). lia. }
  assert (Hroot : nodes a !! Z.to_nat root = Some q).
  { unfold root. rewrite <- (Z.add_0_r (blen _)), next_handle by lia. unfold a. cbn [nodes].
    rewrite !app_assoc, lookup_app_r, <- !app_assoc by (rewrite <- !app_assoc; lia).
    by replace (length (ns ++ ms ++ extra) + Z.to_nat 0 - length (ns ++ ms ++ extra))%nat with 0%nat by lia. }
  destruct (length (ns ++ ms ++ extra ++ [q])) as [|[|k]] eqn:Hk; [done|by rewrite length_app in Hk|].
  destruct (batch_heads label batch_param row_alias (ms ++ extra ++ [q]) k) as [Hu Hc].
  assert (Hsets : hs ≠ [] → writes (Cypher.emit_mutation a (Cypher.cypher_calls a (S (S k))) h)
    ("SET " +:+ join ", " (set_text ("_" +:+ to_lowercase label +:+ "_0") row_alias <$> properties))).
  { intros Hne. apply (set_clause_written a 4 5 _ _ h hs); [reflexivity|reflexivity| |].
    - unfold a, extra, h. cbn [nodes]. rewrite <- (Z.add_0_r (blen _)), next_handle by (rewrite !blen_app in *; pose proof (blen_nonneg extra); lia).
      rewrite app_assoc, lookup_app_r by lia.
      replace (length (ns ++ ms) + Z.to_nat 0 - length (ns ++ ms))%nat with 0%nat by lia. by destruct hs.
    - eapply Forall2_impl; [exact Hhs|]. intros x p Hx. unfold a. cbn [nodes]. rewrite app_assoc. by apply is_set_item_app. }
  unfold bulk_create_text. pose proof (Forall2_length _ _ _ Hhs) as Hlen.
  destruct properties as [|p properties], hs as [|h0 hs]; try discriminate Hlen.
  - erewrite batch_written; [|exact Hroot|exact Hu|constructor; [exact Hc|constructor]].
    cbn [foldr]. rewrite bool_decide_true by done. by rewrite !string_app_nil, !string_app_assoc.
  - erewrite batch_written; [|exact Hroot|exact Hu|constructor; [exact Hc|constructor; [by apply Hsets|constructor]]].
    cbn [foldr]. rewrite bool_decide_false by done. by rewrite !string_app_nil, !string_app_assoc.
Qed.
End text.

#[local] Existing Instance ascii_LowerCase.
#[local] Existing Instance no_debug.

Lemma bulk_create_compiles_witness :
  compile_bulk_create "Person" ["name"; "age"] "batch" "row" "cypher"
  = Ok (with_columns "UNWIND $batch AS row CREATE (_person_0:Person) SET _person_0.name = row.name, _person_0.age = row.age"
          [] Normal []).
Proof.
  rewrite (bulk_create_compiles "Person" ["name"; "age"] "batch" "row" "cypher");
    [reflexivity|by apply (bool_decide_unpack _)|reflexivity].
Defined.

Example bulk_merge_text :
  statement <$> compile_bulk_merge "Person" "id" ["name"] "batch" "row" "cypher"
  = Ok "UNWIND $batch AS row MERGE (_person_0:Person {id: row.id}) ON CREATE SET _person_0.name = row.name ON MATCH SET _person_0.name = row.name".
Proof. vm_compute. reflexivity. Qed.

Example bulk_create_rel_text :
  statement <$> compile_bulk_create_rel "KNOWS" ["since"] "Person" "id" "City" "id" "batch" "row" "cypher"
  = Ok "UNWIND $batch AS row MATCH (_from_person_0:Person {id: row.from_id}), (_to_city_0:City {id: row.to_id}) CREATE (_from_person_0)-[_knows_0:KNOWS]->(_to_city_0) SET _knows_0.since = row.since".
Proof. vm_compute. reflexivity. Qed.

(** In ISO GQL the upsert sets each property twice: the items stand for creation and for match. *)
Example gql_merge_sets_twice :
  statement <$> compile_bulk_merge "Person" "id" ["name"] "batch" "row" "gql"
  = Ok "UNWIND $batch AS row UPSERT (_person_0:Person {id: row.id}) SET _person_0.name = row.name, _person_0.name = row.name".
Proof. vm_compute. reflexivity. Qed.

(** The generated variables of a relationship type and of its source's label can be one. *)
Example bulk_variables_collide :
  statement <$> compile_bulk_create_rel "FROM_PERSON" [] "Person" "id" "City" "id" "batch" "row" "cypher"
  = Ok "UNWIND $batch AS row MATCH (_from_person_0:Person {id: row.from_id}), (_to_city_0:City {id: row.to_id}) CREATE (_from_person_0)-[_from_person_0:FROM_PERSON]->(_to_city_0)".
Proof. vm_compute. reflexivity. Qed.
