(* ===== verification/QueryText.v ===== *)
(** * Reading query texts ([voyager-core/src/topology.rs], the helpers)

    The parser of query texts mixes positions of bytes and of characters.  A text that is cut is
    a list of bytes; a cut inside a character and an index past the end are panics
    ([Panics]).  [Endless] is the end of a loop's fuel, which is no result of the program. *)
From S2P Require Import Prelude Bytes F64 Errors Text Ast Resp Levenshtein.

Open Scope Z_scope.
Open Scope string_scope.
Open Scope list_scope.

Variant halt := Panics | Endless.
#[export] Instance halt_eq_dec : EqDecision halt.
Proof. solve_decision. Defined.

(** [str::to_uppercase]; beyond ASCII it may change the length of a text. *)
Class UpperCase := {
  to_uppercase : string → string;
  to_uppercase_ascii s : str_is_ascii s = true → to_uppercase s = to_ascii_uppercase s;
}.

(** The ASCII restriction is one such function. *)
Definition ascii_UpperCase : UpperCase :=
  {| to_uppercase := to_ascii_uppercase; to_uppercase_ascii s _ := eq_refl |}.

(** ** Slices *)

Definition is_char_boundary (l : list byte) (i : nat) : bool := (i <=? length l)%nat && starts_char (drop i l).
Definition slice_from (l : list byte) (i : nat) : result halt (list byte) :=
  if is_char_boundary l i then Ok (drop i l) else Err Panics.
Definition slice (l : list byte) (i j : nat) : result halt (list byte) :=
  if (i <=? j)%nat && is_char_boundary l i && is_char_boundary l j then Ok (take (j - i) (drop i l)) else Err Panics.
Definition byte_at (l : list byte) (i : nat) : result halt byte := ok_or (l !! i) Panics.

(** ** Searches: [str::starts_with], [find], [rfind], [split], [split_once] *)

Definition begins (pat l : list byte) : bool := bool_decide (take (length pat) l = pat).
Fixpoint find_sub (pat l : list byte) : option nat :=
  if begins pat l then Some 0%nat else match l with [] => None | _ :: l => S <$> find_sub pat l end.
Fixpoint rfind_byte (b : byte) (l : list byte) : option nat :=
  match l with
  | [] => None
  | c :: l => match rfind_byte b l with
              | Some i => Some (S i)
              | None => if decide (c = b) then Some 0%nat else None
              end
  end.

Definition contains (b : byte) (l : list byte) : bool := bool_decide (b ∈ l).

(** The pieces between the bytes that [sep] accepts. *)
Fixpoint split_at (sep : byte → bool) (l : list byte) : list (list byte) :=
  match l with
  | [] => [[]]
  | b :: l => if sep b then [] :: split_at sep l
              else match split_at sep l with p :: ps => (b :: p) :: ps | [] => [[b]] end
  end.
Definition is_byte (b c : byte) : bool := bool_decide (c = b).

(** The pieces between the occurrences of a text; [skip] counts what is left of one. *)
Fixpoint split_text (pat : list byte) (skip : nat) (l : list byte) : list (list byte) :=
  match l with
  | [] => [[]]
  | b :: l' =>
      match skip with
      | S skip => split_text pat skip l'
      | O =>
          if begins pat l then [] :: split_text pat (length pat - 1) l'
          else match split_text pat 0 l' with p :: ps => (b :: p) :: ps | [] => [[b]] end
      end
  end.

Definition split_once_text (pat l : list byte) : option (list byte * list byte) :=
  (λ i, (take i l, drop (i + length pat) l)) <$> find_sub pat l.

(** ** Trimming *)
Definition trim_bytes `{CharClass} (l : list byte) : list byte := as_bytes (trim (of_bytes l)).
Fixpoint trim_start_bytes (f : byte → bool) (l : list byte) : list byte :=
  match l with b :: l' => if f b then trim_start_bytes f l' else l | [] => [] end.
Definition trim_end_bytes (f : byte → bool) (l : list byte) : list byte := reverse (trim_start_bytes f (reverse l)).
Definition trim_matches (b : byte) (l : list byte) : list byte := trim_end_bytes (is_byte b) (trim_start_bytes (is_byte b) l).

(** ** [strip_query_comments] *)

Fixpoint skip_line (cs : list char) : list char :=
  match cs with
  | c :: cs' => if bool_decide (c = [x0a]) || bool_decide (c = [x0d]) then cs else skip_line cs'
  | [] => []
  end.
(** An open comment reaches to the end. *)
Fixpoint skip_block (cs : list char) : list char :=
  match cs with
  | [x2a] :: (([x2f] :: cs'') as cs') => cs''
  | _ :: cs' => skip_block cs'
  | [] => []
  end.

Fixpoint strip_chars (fuel : nat) (in_single in_double in_backtick : bool) (cs : list char) : result halt (list char) :=
  match fuel with
  | O => Err Endless
  | S fuel =>
      match cs with
      | [] => Ok []
      | ch :: cs' =>
          if bool_decide (ch = [x60]) && negb in_single && negb in_double then
            cons ch <$> strip_chars fuel in_single in_double (negb in_backtick) cs'
          else if bool_decide (ch = [x27]) && negb in_double && negb in_backtick then
            cons ch <$> strip_chars fuel (negb in_single) in_double in_backtick cs'
          else if bool_decide (ch = [x22]) && negb in_single && negb in_backtick then
            cons ch <$> strip_chars fuel in_single (negb in_double) in_backtick cs'
          else
            let outside := negb in_single && negb in_double && negb in_backtick in
            match ch, cs' with
            | [x2f], [x2f] :: rest | [x2d], [x2d] :: rest =>
                if outside then strip_chars fuel in_single in_double in_backtick (skip_line rest)
                else cons ch <$> strip_chars fuel in_single in_double in_backtick cs'
            | [x2f], [x2a] :: rest =>
                if outside then strip_chars fuel in_single in_double in_backtick (skip_block rest)
                else cons ch <$> strip_chars fuel in_single in_double in_backtick cs'
            | _, _ => cons ch <$> strip_chars fuel in_single in_double in_backtick cs'
            end
      end
  end.

Definition strip_query_comments (raw : string) : result halt string :=
  (λ out, of_bytes (unchars out))
    <$> strip_chars (S (length (chars (as_bytes raw)))) false false false (chars (as_bytes raw)).

(** ** [parse_simple_literal] *)
Definition quoted (q : byte) (l : list byte) : bool :=
  bool_decide (head l = Some q) && bool_decide (last l = Some q) && (2 <=? length l)%nat.

Definition parse_simple_literal `{CharClass} `{F64Text} (l : list byte) : option LiteralValue :=
  let trimmed := trim_bytes l in
  if quoted x27 trimmed || quoted x22 trimmed then
    Some (LString (of_bytes (take (length trimmed - 2) (drop 1 trimmed))))
  else match parse_i64 trimmed with
  | Some i => Some (LInt64 i)
  | None =>
  match parse_f64 (of_bytes trimmed) with
  | Some f => Some (LFloat64 f)
  | None =>
      let is_word w := eq_ignore_ascii_case (of_bytes trimmed) w in
      if is_word "true" then Some (LBool true)
      else if is_word "false" then Some (LBool false)
      else if is_word "null" then Some LNull
      else None
  end end.

(** ** Keywords *)

Definition is_ascii_alphanumeric (b : byte) : bool := byte_in 48 57 b || byte_in 65 90 b || byte_in 97 122 b.

(** The bytes on both sides of a keyword end words; [limit] is where the text is taken to end. *)
Definition word_before (query : list byte) (i : nat) : result halt bool :=
  match i with O => Ok true | S i => b ← byte_at query i; Ok (negb (is_ascii_alphanumeric b)) end.
Definition word_after (query : list byte) (limit i : nat) : result halt bool :=
  if (limit <=? i)%nat then Ok true else b ← byte_at query i; Ok (negb (is_ascii_alphanumeric b)).
Definition whole_word (query : list byte) (limit pos len : nat) : result halt bool :=
  prev_ok ← word_before query pos;
  next_ok ← word_after query limit (pos + len)%nat;
  Ok (prev_ok && next_ok).

(** The first occurrence of a keyword, if it is a word of its own. *)
Definition keyword_after (query upper : list byte) (pos : nat) (kw : list byte) : result halt (option nat) :=
  rest ← slice_from upper pos;
  match find_sub kw rest with
  | Some p =>
      let abs_pos := (pos + p)%nat in
      ok ← whole_word query (length query) abs_pos (length kw);
      Ok (if (ok : bool) then Some abs_pos else None)
  | None => Ok None
  end.

(** ** [extract_pattern_sections] *)
Definition keywords : list (list byte) :=
  map as_bytes ["OPTIONAL MATCH"; "MATCH"; "INSERT"; "UPSERT"; "CREATE"; "MERGE"].
Definition stop_keywords : list (list byte) :=
  map as_bytes ["WHERE"; "RETURN"; "WITH"; "SET"; "DELETE"; "DETACH DELETE"; "REMOVE"; "ORDER BY"; "SKIP"; "LIMIT";
                "OFFSET"; "COLUMNS"; "YIELD"].

Fixpoint earliest_match (query upper : list byte) (search_pos : nat) (kws : list (list byte))
    (best : option (nat * nat)) : result halt (option (nat * nat)) :=
  match kws with
  | [] => Ok best
  | kw :: kws =>
      found ← keyword_after query upper search_pos kw;
      earliest_match query upper search_pos kws
        (match found, best with
         | Some abs_pos, Some (best_pos, _) => if (abs_pos <? best_pos)%nat then Some (abs_pos, length kw) else best
         | Some abs_pos, None => Some (abs_pos, length kw)
         | None, _ => best
         end)
  end.

Fixpoint any_keyword (query remaining : list byte) (len pos : nat) (kws : list (list byte)) : result halt bool :=
  match kws with
  | [] => Ok false
  | skw :: kws =>
      if begins skw remaining then
        ok ← whole_word query len pos (length skw);
        if (ok : bool) then Ok true else any_keyword query remaining len pos kws
      else any_keyword query remaining len pos kws
  end.

(** Where the section that is being read stops; [len] counts characters. *)
Fixpoint stop_position (query upper : list byte) (len pos paren_depth bracket_depth : nat) (cs : list char) : result halt nat :=
  match cs with
  | [] => Ok len
  | ch :: cs =>
      if bool_decide (ch = [x28]) then stop_position query upper len (S pos) (S paren_depth) bracket_depth cs
      else if bool_decide (ch = [x29]) then stop_position query upper len (S pos) (paren_depth - 1) bracket_depth cs
      else if bool_decide (ch = [x5b]) then stop_position query upper len (S pos) paren_depth (S bracket_depth) cs
      else if bool_decide (ch = [x5d]) then stop_position query upper len (S pos) paren_depth (bracket_depth - 1) cs
      else if (paren_depth =? 0)%nat && (bracket_depth =? 0)%nat then
        remaining ← slice_from upper pos;
        is_stop ← any_keyword query remaining len pos stop_keywords;
        is_start ← any_keyword query remaining len pos keywords;
        if is_stop || is_start then Ok pos
        else stop_position query upper len (S pos) paren_depth bracket_depth cs
      else stop_position query upper len (S pos) paren_depth bracket_depth cs
  end.

Section sections.
Context `{CharClass} `{UpperCase}.

Fixpoint sections_from (fuel : nat) (query upper : list byte) (cs : list char) (search_pos : nat) :
    result halt (list (list byte)) :=
  match fuel with
  | O => Err Endless
  | S fuel =>
      if (search_pos <? length cs)%nat then
        found ← earliest_match query upper search_pos keywords None;
        match found with
        | None => Ok []
        | Some (kw_start, kw_len) =>
            let content_start := (kw_start + kw_len)%nat in
            stop_pos ← stop_position query upper (length cs) content_start 0 0 (drop content_start cs);
            section ← slice query content_start stop_pos;
            let section := trim_bytes section in
            rest ← sections_from fuel query upper cs stop_pos;
            Ok (if bool_decide (section = []) then rest else section :: rest)
        end
      else Ok []
  end.

(** Each turn passes a keyword. *)
Definition extract_pattern_sections (query : list byte) : result halt (list (list byte)) :=
  let upper := as_bytes (to_uppercase (of_bytes query)) in
  sections ← sections_from (S (length (chars query))) query upper (chars query) 0;
  Ok (if bool_decide (sections = []) && contains x28 query && contains x29 query then [query] else sections).
End sections.
