(* ===== verification/TopologyText.v ===== *)
(** * The topology of a query text ([voyager-core/src/topology.rs], [from_query_str])

    The heuristic parser of query texts: the patterns between keywords, their nodes, edges and
    property maps, and the equalities of the filters.  The state is the one of the topology of a
    parsed query ([Topology.Extraction]). *)
From S2P Require Import Prelude Bytes F64 Errors Ast Text Resp Levenshtein BTree Label Topology QueryText.

Open Scope Z_scope.
Open Scope string_scope.
Open Scope list_scope.

Section parser.
Context `{CharClass} `{Resp.F64Text} `{LowerCase} `{UpperCase}.

(** ** [parse_inline_properties] *)

Definition property_pair (props : btree LiteralValue) (pair : list byte) : btree LiteralValue :=
  match split_once_text [x3a] pair with
  | Some (k, v) =>
      let key := trim_matches x22 (trim_matches x27 (trim_matches x60 (trim_bytes k))) in
      match parse_simple_literal v with
      | Some lit => if bool_decide (key = []) then props else bt_insert (of_bytes key) lit props
      | None => props
      end
  | None => props
  end.

Definition parse_inline_properties (props_str : list byte) : btree LiteralValue :=
  let trimmed := trim_bytes props_str in
  if begins [x7b] trimmed then
    let end_idx := default (length trimmed) (rfind_byte x7d trimmed) in
    foldl property_pair [] (split_at (is_byte x2c) (take (end_idx - 1) (drop 1 trimmed)))
  else [].

(** ** [parse_node_body] *)

(** The pattern and its filter, cut at the positions of the text in capitals. *)
Definition inline_where_of (trimmed : list byte) : result halt (list byte * option (list byte)) :=
  match find_sub (as_bytes " WHERE ") (as_bytes (to_uppercase (of_bytes trimmed))) with
  | Some w_pos =>
      node_spec ← slice trimmed 0 w_pos;
      inline_where ← slice_from trimmed (w_pos + 7)%nat;
      Ok (node_spec, Some inline_where)
  | None => Ok (trimmed, None)
  end.

Definition is_comparison (b : byte) : bool := bool_decide (b ∈ [x3e; x3c; x21; x3d]).
Definition is_newline (b : byte) : bool := is_byte x0a b || is_byte x0d b.

Definition property_name (p : list byte) : list byte := trim_bytes (trim_end_bytes is_comparison (trim_bytes p)).

Definition inline_equality (props : btree LiteralValue) (expr : list byte) : btree LiteralValue :=
  match split_once_text [x3d] expr with
  | Some (l, r) =>
      let prop :=
        match split_once_text [x2e] (trim_bytes l), split_once_text [x2e] (trim_bytes r) with
        | Some (_, p), _ => property_name p
        | None, Some (_, p) => property_name p
        | None, None => property_name l
        end in
      match parse_simple_literal (if contains x2e l then trim_bytes r else trim_bytes l) with
      | Some lit => if bool_decide (prop = []) then props else bt_insert (of_bytes prop) lit props
      | None => props
      end
  | None => props
  end.

Definition inline_equalities (wh : list byte) (props : btree LiteralValue) : btree LiteralValue :=
  foldl (λ props part,
    foldl inline_equality props
      (flat_map (split_text (as_bytes " and ") 0) (split_text (as_bytes " AND ") 0 part)))
    props (split_at is_newline wh).

(** The variable and the names behind it. *)
Definition variable_of (part : list byte) : option string :=
  let var_candidate := trim_bytes part in
  if bool_decide (var_candidate = []) then None else Some (of_bytes (trim_matches x60 var_candidate)).
Definition names_of (keep : list byte → bool) (sep : byte → bool) (parts : list (list byte)) : list string :=
  of_bytes <$> List.filter keep (flat_map (λ p, (λ sub, trim_matches x60 (trim_bytes sub)) <$> split_at sep p) parts).
Definition is_label (l : list byte) : bool := negb (bool_decide (l = [])) && negb (begins [x21] l).
Definition is_type (l : list byte) : bool := negb (bool_decide (l = [])).

Definition identifiers (keep : list byte → bool) (sep : byte → bool) (ident_part : list byte) : option string * list string :=
  if bool_decide (ident_part = []) then (None, [])
  else match split_at (is_byte x3a) ident_part with
       | var :: parts => (variable_of var, names_of keep sep parts)
       | [] => (None, [])
       end.

(** A node under its name: a new one, or more properties and labels of one that is there. *)
Definition enter_node (variable : option string) (labels : list string) (inline_props : btree LiteralValue)
    (x : Extraction) : string * Extraction :=
  let primary_label := head labels in
  let node_id :=
    match variable with
    | Some v => if bool_decide (v = "") then generated_id primary_label (node_counter x) else v
    | None => generated_id primary_label (node_counter x)
    end in
  (node_id,
   match nodes_map x !! node_id with
   | Some node =>
       set_map (<[node_id := mkTNode (tn_id node) (tn_label node) (push_labels labels (tn_labels node))
                  (tn_group node) (tn_size node) (insert_all inline_props (tn_properties node))
                  (insert_all inline_props (tn_data node)) (tn_label_expression node)]> (nodes_map x)) x
   | None =>
       let display_label := default node_id (match primary_label with Some l => Some l | None => variable end) in
       push_node node_id
         (mkTNode node_id display_label labels (default "Entity" primary_label) 11 inline_props
            (insert_all inline_props (with_variable variable [])) (from_labels labels)) x
   end).

Definition parse_node_body (body : list byte) (x : Extraction) : result halt (string * Extraction) :=
  let trimmed := trim_bytes body in
  spec ← inline_where_of trimmed;
  let '(node_spec, inline_where) := spec in
  let '(ident_part, props_part) :=
    match find_sub [x7b] node_spec with
    | Some idx => (take idx node_spec, Some (drop idx node_spec))
    | None => (node_spec, None)
    end in
  let inline_props := default [] (parse_inline_properties <$> props_part) in
  let inline_props := match inline_where with Some wh => inline_equalities wh inline_props | None => inline_props end in
  let '(variable, labels) := identifiers is_label (λ b, is_byte x26 b || is_byte x7c b) ident_part in
  Ok (enter_node variable labels inline_props (count_node x)).

(** ** [parse_edge_body] *)

Definition parse_u32 (l : list byte) : option Z := parse_unsigned U32_MAX l.

(** [{low, high}] and [{n}]. *)
Definition hop_range (inner : list byte) : option (option Z * option Z) :=
  match split_once_text [x2c] inner with
  | Some (low, high) => Some (parse_u32 (trim_bytes low), parse_u32 (trim_bytes high))
  | None => (λ n, (Some n, Some n)) <$> parse_u32 (trim_bytes inner)
  end.

(** The characters of a group up to the one that closes it, or to the end. *)
Fixpoint group_length (opening closing : char) (depth : nat) (cs : list char) : nat :=
  match cs with
  | [] => 0
  | c :: cs =>
      if decide (c = opening) then S (group_length opening closing (S depth) cs)
      else if decide (c = closing) then
        match depth with
        | S (S depth) => S (group_length opening closing (S depth) cs)
        | _ => 1
        end
      else S (group_length opening closing depth cs)
  end.

Record EdgeBody := mkEdgeBody {
  eb_variable : option string; eb_types : list string; eb_min : option Z; eb_max : option Z;
  eb_props : btree LiteralValue }.

(** What is outside of the braces, the hops and the properties that are inside. *)
Record Braces := mkBraces { bare : list byte; b_min : option Z; b_max : option Z; b_props : btree LiteralValue }.

Definition brace_block (block : list byte) (st : Braces) : result halt Braces :=
  inner ← (if (2 <=? length block)%nat then trim_bytes <$> slice block 1 (length block - 1) else Ok []);
  Ok
    (if negb (contains x3a inner) && (contains x2c inner || forallb is_digit inner) && negb (bool_decide (inner = []))
     then match hop_range inner with
          | Some (lo, hi) => mkBraces (bare st) lo hi (b_props st)
          | None => st
          end
     else mkBraces (bare st) (b_min st) (b_max st) (insert_all (parse_inline_properties block) (b_props st))).

(** [skip] counts the characters of a block that are still to be passed over. *)
Fixpoint brace_blocks (skip : nat) (cs : list char) (st : Braces) : result halt Braces :=
  match cs with
  | [] => Ok st
  | c :: cs =>
      match skip with
      | S skip => brace_blocks skip cs st
      | O =>
          if decide (c = [x7b]) then
            let n := group_length [x7b] [x7d] 1 cs in
            st ← brace_block (unchars (c :: take n cs)) st;
            brace_blocks n cs st
          else brace_blocks 0 cs (mkBraces (bare st ++ c) (b_min st) (b_max st) (b_props st))
      end
  end.

(** [*low..high], [*n] and [*], when the braces said nothing. *)
Definition star_hops (hops : list byte) (st : Braces) : option Z * option Z :=
  let h_trim := trim_bytes hops in
  if bool_decide (h_trim = []) then (Some 1, b_max st)
  else match split_once_text (as_bytes "..") h_trim with
       | Some (low, high) => (parse_u32 (trim_bytes low), parse_u32 (trim_bytes high))
       | None => match parse_u32 h_trim with Some n => (Some n, Some n) | None => (b_min st, b_max st) end
       end.

Definition parse_edge_body (body : list byte) : result halt EdgeBody :=
  let trimmed := trim_bytes body in
  if bool_decide (trimmed = []) then Ok (mkEdgeBody None [] None None [])
  else
    st ← brace_blocks 0 (chars trimmed) (mkBraces [] None None []);
    let '(ident_clean, hop_part) :=
      match find_sub [x2a] (bare st) with
      | Some star_idx => (take star_idx (bare st), Some (drop (S star_idx) (bare st)))
      | None => (bare st, None)
      end in
    let '(min_hops, max_hops) :=
      match b_min st, b_max st, hop_part with
      | None, None, Some hops => star_hops hops st
      | _, _, _ => (b_min st, b_max st)
      end in
    let '(variable, types) := identifiers is_type (is_byte x7c) ident_clean in
    Ok (mkEdgeBody variable types min_hops max_hops (b_props st)).

(** ** [parse_path_sequence] *)

(** Commas end a chain. *)
Fixpoint skip_separators (last_node_id : option string) (cs : list char) : option string * list char :=
  match cs with
  | c :: cs' =>
      if is_whitespace c || bool_decide (c = [x2c])
      then skip_separators (if bool_decide (c = [x2c]) then None else last_node_id) cs'
      else (last_node_id, cs)
  | [] => (last_node_id, [])
  end.

(** What is between the brackets and what is behind them; an open bracket loses the last
    character of the text, and at the end of the text there is none. *)
Definition group (opening closing : char) (cs : list char) : result halt (list byte * list char) :=
  match group_length opening closing 1 cs with
  | O => Err Panics
  | S n => Ok (unchars (take n cs), drop (S n) cs)
  end.

Definition skip_char (c : char) (cs : list char) : bool * list char :=
  match cs with d :: cs' => if decide (d = c) then (true, cs') else (false, cs) | [] => (false, []) end.

Definition quantifier (cs : list char) : result halt (option (option Z * option Z) * list char) :=
  match skip_char [x7b] cs with
  | (true, cs') =>
      g ← group [x7b] [x7d] cs';
      let '(inner, rest) := g in
      Ok (if negb (contains x3a inner) && (contains x2c inner || forallb is_digit (trim_bytes inner))
          then (hop_range inner, rest) else (None, cs))
  | (false, _) => Ok (None, cs)
  end.

(** The edge between two nodes: a new one, or more types and properties of one of its name. *)
Definition enter_edge (body : EdgeBody) (min_hops max_hops : option Z) (direction : Direction) (prev_id next_id : string)
    (x : Extraction) : Extraction :=
  let edge_id := default ("rel_" +:+ num (edge_counter x)) (eb_variable body) in
  let '(src, tgt) := match direction with
                     | DirOutgoing | DirUndirected => (prev_id, next_id)
                     | DirIncoming => (next_id, prev_id)
                     end in
  set_edges
    (match update_edge edge_id (merge_edge (eb_types body) (from_edge_types (eb_types body)) (eb_props body)) (x_edges x) with
     | Some es => es
     | None =>
         x_edges x ++ [mkTEdge edge_id src tgt (default "CONNECTED_TO" (head (eb_types body))) (eb_types body) direction
                         "#64748b" min_hops max_hops (eb_props body)
                         (insert_all (eb_props body) (with_variable (eb_variable body) []))
                         (from_edge_types (eb_types body))]
     end) x.

(** A chain that begins with an edge begins at a node of its own. *)
Definition synthetic_node (x : Extraction) : string * Extraction :=
  let id := "n" +:+ num (node_counter x) in (id, push_node id (TopologyNode_new id id) x).

(** Behind the first dash: the edge, and the node it leads to; no node, no edge. *)
Definition parse_hop (left_arrow : bool) (last_node_id : option string) (cs : list char) (x : Extraction) :
    result halt (option string * list char * Extraction) :=
  g ← match skip_char [x5b] cs with (true, cs') => group [x5b] [x5d] cs' | (false, _) => Ok ([], cs) end;
  let '(edge_body, cs) := g in
  q ← quantifier cs;
  let '(before_dash, cs) := q in
  let cs := (skip_char [x2d] cs).2 in
  let '(right_arrow, cs) := skip_char [x3e] cs in
  q ← match before_dash with Some _ => Ok (before_dash, cs) | None => quantifier cs end;
  let '(gql_quantifier, cs) := q in
  let direction := if left_arrow then DirIncoming else if (right_arrow : bool) then DirOutgoing else DirUndirected in
  body ← parse_edge_body edge_body;
  let '(min_h, max_h) := default (eb_min body, eb_max body) gql_quantifier in
  match skip_char [x28] (trim_start cs) with
  | (true, cs) =>
      g ← group [x28] [x29] cs;
      let '(next_node_body, cs) := g in
      n ← parse_node_body next_node_body x;
      let '(next_id, x) := n in
      let x := count_edge x in
      let '(prev_id, x) := match last_node_id with Some id => (id, x) | None => synthetic_node (count_node x) end in
      Ok (Some next_id, cs, enter_edge body min_h max_h direction prev_id next_id x)
  | (false, cs) => Ok (last_node_id, drop 1 cs, x)
  end.

Fixpoint parse_path (fuel : nat) (last_node_id : option string) (cs : list char) (x : Extraction) : result halt Extraction :=
  match fuel with
  | O => Err Endless
  | S fuel =>
      let '(last_node_id, cs) := skip_separators last_node_id cs in
      match cs with
      | [] => Ok x
      | c :: cs' =>
          if decide (c = [x28]) then
            g ← group [x28] [x29] cs';
            let '(node_body, cs) := g in
            n ← parse_node_body node_body x;
            let '(id, x) := n in parse_path fuel (Some id) cs x
          else if decide (c = [x3c]) then
            match skip_char [x2d] cs' with
            | (true, cs) =>
                h ← parse_hop true last_node_id cs x;
                let '(last_node_id, cs, x) := h in parse_path fuel last_node_id cs x
            | (false, cs) => parse_path fuel last_node_id (drop 1 cs) x
            end
          else if decide (c = [x2d]) then
            h ← parse_hop false last_node_id cs' x;
            let '(last_node_id, cs, x) := h in parse_path fuel last_node_id cs x
          else parse_path fuel last_node_id cs' x
      end
  end.

(** Each turn takes a character at least. *)
Definition parse_path_sequence (text : list byte) (x : Extraction) : result halt Extraction :=
  parse_path (S (length (chars text))) None (chars text) x.

(** ** Filters *)

(** The sides of the first [=] or [==] outside of quotes; [seen] is what is before. *)
Fixpoint split_eq_from (in_single in_double : bool) (seen l : list byte) : option (list byte * list byte) :=
  match l with
  | [] => None
  | b :: l' =>
      let go s d := split_eq_from s d (seen ++ [b]) l' in
      if decide (b = x27) then go (if in_double then in_single else negb in_single) in_double
      else if decide (b = x22) then go in_single (if in_single then in_double else negb in_double)
      else if negb in_single && negb in_double && bool_decide (b = x3d) then
        Some (trim_bytes seen, trim_bytes (match l' with x3d :: l'' => l'' | _ => l' end))
      else go in_single in_double
  end.
Definition split_eq_outside_quotes (s : list byte) : option (list byte * list byte) := split_eq_from false false [] s.

(** The pieces between [ AND ]s outside of quotes.  Each position outside is tried, and cutting
    five bytes from there panics inside a character; [last] is where the piece began. *)
Fixpoint split_and_from (s : list byte) (in_single in_double : bool) (skip i last : nat) (l : list byte) :
    result halt (list (list byte)) :=
  match l with
  | [] => Ok [drop last s]
  | b :: l =>
      let go s_ d k last := split_and_from s s_ d k (S i) last l in
      match skip with
      | S skip => go in_single in_double skip last
      | O =>
          if bool_decide (b = x27) && negb in_double then go (negb in_single) in_double 0%nat last
          else if bool_decide (b = x22) && negb in_single then go in_single (negb in_double) 0%nat last
          else if negb in_single && negb in_double && (i + 5 <=? length s)%nat then
            chunk ← slice s i (i + 5)%nat;
            if eq_ignore_ascii_case (of_bytes chunk) " AND " then
              piece ← slice s last i;
              cons piece <$> go in_single in_double 4%nat (i + 5)%nat
            else go in_single in_double 0%nat last
          else go in_single in_double 0%nat last
      end
  end.
Definition split_and_outside_quotes (s : list byte) : result halt (list (list byte)) :=
  split_and_from s false false 0 0 0 s.

Definition node_property (var prop : string) (lit : LiteralValue) (m : gmap string TopologyNode) : gmap string TopologyNode :=
  match m !! var with
  | Some n => <[var := mkTNode (tn_id n) (tn_label n) (tn_labels n) (tn_group n) (tn_size n)
                        (bt_insert prop lit (tn_properties n)) (bt_insert prop lit (tn_data n))
                        (tn_label_expression n)]> m
  | None => m
  end.

Definition apply_equality (m : gmap string TopologyNode) (expr : list byte) : gmap string TopologyNode :=
  match split_eq_outside_quotes (trim_bytes expr) with
  | None => m
  | Some (lhs, rhs) =>
      let target := match split_once_text [x2e] lhs with
                    | Some vp => Some vp
                    | None => split_once_text [x2e] rhs
                    end in
      match target with
      | None => m
      | Some (v, p) =>
          match parse_simple_literal (if contains x2e lhs then rhs else lhs) with
          | Some lit => node_property (of_bytes (trim_bytes v)) (of_bytes (trim_bytes p)) lit m
          | None => m
          end
      end
  end.

Fixpoint where_parts (parts : list (list byte)) (m : gmap string TopologyNode) : result halt (gmap string TopologyNode) :=
  match parts with
  | [] => Ok m
  | part :: parts =>
      exprs ← split_and_outside_quotes part;
      where_parts parts (foldl apply_equality m exprs)
  end.
Definition parse_where_predicates_body (body : list byte) (m : gmap string TopologyNode) :
    result halt (gmap string TopologyNode) := where_parts (split_at is_newline body) m.

Definition where_stops : list (list byte) :=
  map as_bytes ["RETURN"; "WITH"; "ORDER BY"; "SKIP"; "LIMIT"; "SET"; "DELETE"; "REMOVE"; "MATCH"; "CREATE"; "MERGE"].

Fixpoint nearest_stop (query upper : list byte) (content_start : nat) (kws : list (list byte)) (stop_pos : nat) :
    result halt nat :=
  match kws with
  | [] => Ok stop_pos
  | skw :: kws =>
      found ← keyword_after query upper content_start skw;
      nearest_stop query upper content_start kws
        (match found with Some abs_pos => if (abs_pos <? stop_pos)%nat then abs_pos else stop_pos | None => stop_pos end)
  end.

Fixpoint wheres_from (fuel : nat) (query upper : list byte) (search_pos : nat) (m : gmap string TopologyNode) :
    result halt (gmap string TopologyNode) :=
  match fuel with
  | O => Err Endless
  | S fuel =>
      rest ← slice_from upper search_pos;
      match find_sub (as_bytes "WHERE") rest with
      | None => Ok m
      | Some where_pos =>
          let abs_where := (search_pos + where_pos)%nat in
          let next_idx := (abs_where + 5)%nat in
          ok ← whole_word query (length query) abs_where 5;
          if (ok : bool) then
            stop_pos ← nearest_stop query upper next_idx where_stops (length query);
            where_body ← slice query next_idx stop_pos;
            m ← parse_where_predicates_body where_body m;
            wheres_from fuel query upper stop_pos m
          else wheres_from fuel query upper next_idx m
      end
  end.

(** Each turn passes a keyword. *)
Definition extract_and_apply_where_predicates (query : list byte) (m : gmap string TopologyNode) :
    result halt (gmap string TopologyNode) :=
  let upper := as_bytes (to_uppercase (of_bytes query)) in
  wheres_from (S (length upper)) query upper 0 m.

(** ** [GraphTopology::from_query_str] *)
Fixpoint parse_sections (sections : list (list byte)) (x : Extraction) : result halt Extraction :=
  match sections with
  | [] => Ok x
  | section :: sections => x ← parse_path_sequence section x; parse_sections sections x
  end.

Definition from_query_str (query : string) : result halt GraphTopology :=
  clean ← strip_query_comments query;
  pattern_sections ← extract_pattern_sections (as_bytes clean);
  x ← parse_sections pattern_sections Extraction_new;
  m ← extract_and_apply_where_predicates (as_bytes clean) (nodes_map x);
  Ok (mkTopology 1 (take_nodes (nodes_order x) m) (x_edges x)).
End parser.
