(* ===== verification/TopologyTextSafe.v ===== *)
(** * The parser of query texts ends, and builds well-formed topologies

    One pass over the parser shows, for any condition [panics], that no loop runs out of fuel,
    that a panic needs the condition, and that what is returned is well formed.  The condition
    is then taken to be that the text has a character outside of ASCII or a section that ends
    with an opening bracket. *)
From S2P Require Import Prelude Bytes F64 Errors Ast Text Resp Levenshtein BTree Label Topology TopologySafe QueryText TopologyText.

Open Scope Z_scope.
Open Scope string_scope.
Open Scope list_scope.

(** What a computation returns satisfies [P]; it may panic only when [panics] holds. *)
Definition fine {A} (panics : Prop) (P : A → Prop) (r : result halt A) : Prop :=
  match r with Ok a => P a | Err Panics => panics | Err Endless => False end.

Lemma fine_bind {A B} p (P : A → Prop) (Q : B → Prop) r f :
  fine p P r → (∀ a, P a → fine p Q (f a)) → fine p Q (r ≫= f).
Proof. destruct r as [a|[]]; cbn; auto. Qed.
Lemma fine_fmap {A B} p (P : A → Prop) (Q : B → Prop) (f : A → B) r :
  fine p P r → (∀ a, P a → Q (f a)) → fine p Q (f <$> r).
Proof. destruct r as [a|[]]; cbn; auto. Qed.
Lemma fine_weaken {A} p (P Q : A → Prop) r : fine p P r → (∀ a, P a → Q a) → fine p Q r.
Proof. destruct r as [a|[]]; cbn; auto. Qed.

(** ** ASCII texts *)
Definition ascii (l : list byte) : Prop := Forall (λ b, is_ascii b = true) l.
Definition ascii_chars (cs : list char) : Prop := Forall (λ c, ∃ b, is_ascii b = true ∧ c = [b]) cs.

Lemma chars_ascii l : ascii l → chars l = map (λ b, [b]) l.
Proof.
  induction 1 as [|b l Hb Hl IH]; [done|]. rewrite chars_ascii_cons; [by rewrite IH|done|].
  destruct Hl as [|c l Hc _]; [done|]. cbn. by rewrite (u8_cont_ascii c Hc).
Qed.
Lemma chars_ascii_chars l : ascii l → ascii_chars (chars l).
Proof. intros Hl. rewrite chars_ascii by done. induction Hl; constructor; eauto. Qed.
Lemma ascii_unchars cs : ascii_chars cs → ascii (unchars cs).
Proof. induction 1 as [|c cs (b & Hb & ->) _ IH]; [constructor|]. by constructor. Qed.
Lemma length_chars_ascii l : ascii l → length (chars l) = length l.
Proof. intros Hl. rewrite chars_ascii by done. apply length_map. Qed.

(** Trimming and searching. *)
Lemma trim_chars_Forall `{CharClass} (P : char → Prop) cs : Forall P cs → Forall P (trim_chars cs).
Proof.
  assert (∀ cs, Forall P cs → Forall P (trim_start cs)) as Ht.
  { clear. intros cs Hcs. destruct (trim_start_suffix cs) as [k E]. rewrite E in Hcs. by apply Forall_app in Hcs as [_ ?]. }
  intros Hcs. apply Forall_reverse, Ht, Forall_reverse, Ht, Hcs.
Qed.

Lemma trim_bytes_ascii `{CharClass} l : ascii l → ascii (trim_bytes l).
Proof.
  intros Hl. unfold trim_bytes, trim. rewrite !as_bytes_of_bytes.
  apply ascii_unchars, trim_chars_Forall, chars_ascii_chars, Hl.
Qed.

Lemma trim_bytes_subseteq `{CharClass} l : trim_bytes l ⊆ l.
Proof.
  intros b. unfold trim_bytes, trim. rewrite !as_bytes_of_bytes. intros Hb.
  assert (Forall (λ c, c ⊆ l) (trim_chars (chars l))) as Hc.
  { apply trim_chars_Forall, Forall_forall. intros c Hc d Hd. rewrite <- (unchars_chars l). unfold unchars.
    apply list_elem_of_In, in_concat. exists c. by rewrite <- !list_elem_of_In. }
  unfold unchars in Hb. apply list_elem_of_In, in_concat in Hb as (c & Hin & Hb). apply list_elem_of_In in Hin, Hb.
  rewrite Forall_forall in Hc. by apply (Hc c Hin).
Qed.

Lemma begins_length pat l : begins pat l = true → (length pat <= length l)%nat.
Proof. unfold begins. intros E%bool_decide_eq_true. rewrite <- E. rewrite length_take. lia. Qed.

Lemma find_sub_spec pat l i :
  find_sub pat l = Some i → (i + length pat <= length l)%nat ∧ begins pat (drop i l) = true.
Proof.
  revert i. induction l as [|b l IH]; intros i; cbn [find_sub]; destruct (begins pat _) eqn:E.
  - intros [= <-]. apply begins_length in E as Hl. cbn [drop]. split; [lia|done].
  - done.
  - intros [= <-]. apply begins_length in E as Hl. cbn [drop]. split; [lia|done].
  - destruct (find_sub pat l) as [j|] eqn:Ej; [|done]. intros [= <-]. destruct (IH j eq_refl) as [H1 H2].
    cbn [length drop]. split; [lia|done].
Qed.

Lemma to_uppercase_bytes `{UpperCase} l :
  ascii l → let u := as_bytes (to_uppercase (of_bytes l)) in ascii u ∧ length u = length l.
Proof.
  intros Hl. cbv zeta. rewrite to_uppercase_ascii.
  - unfold to_ascii_uppercase. rewrite !as_bytes_of_bytes. split; [|apply length_map].
    induction Hl as [|b l Hb Hl IH]; constructor; [|done]. unfold ascii_upper_byte.
    destruct (byte_in 97 122 b) eqn:E; [|done]. unfold byte_in in E. unfold is_ascii. bool_to_prop.
    rewrite u8_to_u8_small by lia. apply Z.ltb_lt. lia.
  - unfold str_is_ascii. rewrite as_bytes_of_bytes. apply forallb_forall. intros b Hb%list_elem_of_In.
    by apply (proj1 (Forall_forall _ _) Hl).
Qed.

(** ** Slices *)

Lemma ascii_take n l : ascii l → ascii (take n l).
Proof. apply Forall_take. Qed.
Lemma ascii_drop n l : ascii l → ascii (drop n l).
Proof. apply Forall_drop. Qed.

Lemma is_char_boundary_ascii l i : ascii l → (i <= length l)%nat → is_char_boundary l i = true.
Proof.
  intros Hl Hi. unfold is_char_boundary. rewrite (proj2 (Nat.leb_le _ _) Hi). cbn [andb].
  pose proof (ascii_drop i l Hl) as Hd. destruct Hd as [|b r Hb _]; [done|]. cbn. by rewrite (u8_cont_ascii b Hb).
Qed.

Section slices.
Context (p : Prop).

Lemma slice_from_fine l i :
  p ∨ (ascii l ∧ (i <= length l)%nat) → fine p (λ r, r = drop i l ∧ (i <= length l)%nat) (slice_from l i).
Proof.
  intros Hl. unfold slice_from. destruct (is_char_boundary l i) eqn:E; cbn.
  - unfold is_char_boundary in E. apply andb_true_iff in E as [E%Nat.leb_le _]. done.
  - destruct Hl as [|[Ha Hi]]; [done|]. by rewrite is_char_boundary_ascii in E.
Qed.

Lemma slice_fine l i j :
  p ∨ (ascii l ∧ (i <= j <= length l)%nat) →
  fine p (λ r, r = take (j - i) (drop i l) ∧ (i <= j <= length l)%nat) (slice l i j).
Proof.
  intros Hl. unfold slice. destruct (_ && _) eqn:E; cbn.
  - unfold is_char_boundary in E. bool_to_prop. split; [done|]. rewrite ?Nat.leb_le in *. lia.
  - destruct Hl as [|[Ha Hi]]; [done|]. rewrite !is_char_boundary_ascii in E by (done || lia).
    apply andb_false_iff in E as [E|E]; [|done]. apply andb_false_iff in E as [E%Nat.leb_gt|E]; [lia|done].
Qed.

Lemma byte_at_fine l i : p ∨ (i < length l)%nat → fine p (λ _, True) (byte_at l i).
Proof.
  intros Hl. unfold byte_at. destruct (l !! i) eqn:E; [done|]. apply lookup_ge_None in E.
  destruct Hl; [done|lia].
Qed.

Lemma whole_word_fine query limit pos len :
  p ∨ ((pos <= length query)%nat ∧ (limit <= length query)%nat) → fine p (λ _, True) (whole_word query limit pos len).
Proof.
  intros Hq. unfold whole_word. apply (fine_bind p (λ _, True)).
  - unfold word_before. destruct pos as [|i]; [done|]. eapply fine_bind; [apply byte_at_fine; destruct Hq; [by left|right; lia]|done].
  - intros prev _. apply (fine_bind p (λ _, True)); [|done].
    unfold word_after. destruct (Nat.leb_spec limit (pos + len)); [done|].
    eapply fine_bind; [apply byte_at_fine; destruct Hq; [by left|right; lia]|done].
Qed.

(** The text in capitals is as long as the text. *)
Definition aligned (query upper : list byte) : Prop := ascii upper ∧ length upper = length query.

Lemma keyword_after_fine query upper pos kw :
  p ∨ (aligned query upper ∧ (pos <= length upper)%nat) →
  fine p (λ r, ∀ i, r = Some i → (pos <= i)%nat ∧ (i + length kw <= length upper)%nat) (keyword_after query upper pos kw).
Proof.
  intros Hq. unfold keyword_after. eapply fine_bind; [apply slice_from_fine; unfold aligned in Hq; tauto|].
  intros rest [-> Hpos]. destruct (find_sub kw (drop pos upper)) as [i|] eqn:E; [|by intros i].
  apply find_sub_spec in E as [E _]. rewrite length_drop in E.
  eapply fine_bind; [apply whole_word_fine; unfold aligned in Hq; destruct Hq as [|[[_ Hl] _]]; [by left|right; lia]|].
  intros ok _. cbn. intros j. destruct ok; [|done]. intros [= <-]. lia.
Qed.
End slices.

(** ** Comments *)

Lemma skip_line_length cs : (length (skip_line cs) <= length cs)%nat.
Proof. induction cs as [|c cs IH]; [done|]. cbn [skip_line]. case_match; cbn [length]; lia. Qed.
Lemma skip_block_length cs : (length (skip_block cs) <= length cs)%nat.
Proof.
  assert (∀ n cs, (length cs <= n)%nat → (length (skip_block cs) <= length cs)%nat) as Hn; [|by apply (Hn (length cs))].
  clear. induction n as [|n IH]; intros [|c cs] Hl; cbn [length] in Hl; [done|lia|done|]. cbn [skip_block].
  assert ((length (skip_block cs) <= S (length cs))%nat) as Hs by (specialize (IH cs); lia).
  repeat (case_match; try exact Hs). subst. cbn [length]. lia.
Qed.

Lemma skip_line_Forall (P : char → Prop) cs : Forall P cs → Forall P (skip_line cs).
Proof. induction 1 as [|c cs Hc Hcs IH]; [constructor|]. cbn [skip_line]. case_match; [by constructor|done]. Qed.
Lemma skip_block_suffix cs : skip_block cs `suffix_of` cs.
Proof.
  assert (∀ n cs, (length cs <= n)%nat → skip_block cs `suffix_of` cs) as Hn; [|by apply (Hn (length cs))].
  clear. induction n as [|n IH]; intros [|c cs] Hl; cbn [length] in Hl; [done|lia|done|]. cbn [skip_block].
  assert (skip_block cs `suffix_of` c :: cs) as Hs by (apply suffix_cons_r, IH; lia).
  repeat (case_match; try exact Hs). subst. apply suffix_cons_r, suffix_cons_r. done.
Qed.

(** Comments are taken out of every text, and nothing is put in. *)
Lemma strip_chars_total (P : char → Prop) fuel : ∀ s d b cs, (length cs < fuel)%nat → Forall P cs →
  ∃ out, strip_chars fuel s d b cs = Ok out ∧ Forall P out.
Proof.
  induction fuel as [|fuel IH]; intros s d b cs Hl HP; [lia|]. cbn [strip_chars].
  destruct cs as [|c cs]; [by exists []|]. cbn [length] in Hl. apply Forall_cons in HP as [Hc HP].
  assert (∀ s d b, ∃ out, (cons c <$> strip_chars fuel s d b cs) = Ok out ∧ Forall P out) as Hcons.
  { intros s' d' b'. destruct (IH s' d' b' cs ltac:(lia) HP) as (out & -> & Ho). exists (c :: out). by split; [|constructor]. }
  assert (∀ r, (length (skip_line r) <= length r)%nat ∧ (length (skip_block r) <= length r)%nat ∧
               (Forall P r → Forall P (skip_line r) ∧ Forall P (skip_block r))) as Hskip.
  { intros r. split; [apply skip_line_length|]. split; [apply skip_block_length|]. intros Hr.
    split; [by apply skip_line_Forall|]. destruct (skip_block_suffix r) as [k E]. rewrite E in Hr. by apply Forall_app in Hr as [_ ?]. }
  do 3 (case_match; [apply Hcons|]).
  repeat (case_match; try apply Hcons); subst; apply Forall_cons in HP as [_ HP]; cbn [length] in Hl;
    match goal with |- context [strip_chars _ _ _ _ (_ ?r)] => destruct (Hskip r) as (Hsl & Hsb & Hsf) end;
    apply IH; try (by apply Hsf); lia.
Qed.

Lemma strip_query_comments_ok query :
  ∃ clean, strip_query_comments query = Ok clean ∧ (ascii (as_bytes query) → ascii (as_bytes clean)).
Proof.
  unfold strip_query_comments. set (cs := chars (as_bytes query)).
  destruct (strip_chars_total (λ c, c ∈ cs) (S (length cs)) false false false cs) as (out & -> & Ho); [lia|by apply Forall_forall|].
  eexists. split; [reflexivity|]. intros Ha. rewrite as_bytes_of_bytes. apply ascii_unchars.
  apply chars_ascii_chars in Ha. unfold ascii_chars in *. rewrite Forall_forall in Ha, Ho. apply Forall_forall.
  intros c Hc. by apply Ha, Ho.
Qed.

(** ** Sections *)
Section section_spec.
Context (p : Prop) `{CharClass} `{UpperCase}.

Lemma earliest_match_fine query upper pos kws : ∀ best,
  p ∨ (aligned query upper ∧ (pos <= length upper)%nat) → Forall (λ kw, kw ≠ []) kws →
  let ok (r : option (nat * nat)) := ∀ i n, r = Some (i, n) → (pos <= i ∧ 0 < n ∧ i + n <= length upper)%nat in
  ok best → fine p ok (earliest_match query upper pos kws best).
Proof.
  induction kws as [|kw kws IH]; intros best Hq Hkw ok Hb; [done|]. cbn [earliest_match].
  apply Forall_cons in Hkw as [Hk Hkw]. eapply fine_bind; [by apply keyword_after_fine|].
  intros found Hf. apply IH; [done|done|]. destruct kw as [|b kw]; [done|].
  destruct found as [i|]; [|done]. destruct (Hf i eq_refl) as [H1 H2].
  assert (ok (Some (i, length (b :: kw)))) as Hnew by (intros ? ? [= <- <-]; cbn [length] in *; lia).
  destruct best as [[j n]|]; [|done]. by case_match.
Qed.

Lemma any_keyword_fine query remaining len pos kws :
  p ∨ ((pos <= length query)%nat ∧ (len <= length query)%nat) → fine p (λ _, True) (any_keyword query remaining len pos kws).
Proof.
  intros Hq. induction kws as [|kw kws IH]; [done|]. cbn [any_keyword]. case_match; [|done].
  eapply fine_bind; [by apply whole_word_fine|]. intros [] _; done.
Qed.

Lemma stop_position_fine query upper len cs : ∀ pos paren bracket,
  p ∨ (aligned query upper ∧ len = length query ∧ (pos + length cs = len)%nat) →
  fine p (λ r, p ∨ (pos <= r <= len)%nat) (stop_position query upper len pos paren bracket cs).
Proof.
  induction cs as [|c cs IH]; intros pos paren bracket Hq; cbn [stop_position length] in *; [cbn; destruct Hq; [by left|right; lia]|].
  assert (∀ paren bracket, fine p (λ r, p ∨ (pos <= r <= len)%nat) (stop_position query upper len (S pos) paren bracket cs)) as Hnext.
  { intros paren' bracket'. eapply fine_weaken; [apply IH; destruct Hq as [|(? & ? & ?)]; [by left|right; split; [done|lia]]|].
    intros r [?|?]; [by left|right; lia]. }
  do 4 (case_match; [apply Hnext|]). case_match; [|apply Hnext].
  eapply fine_bind; [apply slice_from_fine; unfold aligned in Hq; destruct Hq as [|((? & ?) & ? & ?)]; [by left|right; split; [done|lia]]|].
  intros remaining _.
  assert (p ∨ ((pos <= length query)%nat ∧ (len <= length query)%nat)) as Hw
    by (destruct Hq as [|(? & ? & ?)]; [by left|right; lia]).
  eapply fine_bind; [by apply any_keyword_fine|]. intros is_stop _.
  eapply fine_bind; [by apply any_keyword_fine|]. intros is_start _.
  case_match; [|apply Hnext]. cbn. destruct Hq as [|(_ & _ & ?)]; [by left|right; lia].
Qed.

Lemma sections_from_fine query upper cs fuel : ∀ pos,
  cs = chars query → p ∨ (aligned query upper ∧ ascii query ∧ (pos <= length query)%nat) → (length cs - pos < fuel)%nat →
  fine p (Forall (λ s, p ∨ ascii s)) (sections_from fuel query upper cs pos).
Proof.
  induction fuel as [|fuel IH]; intros pos Hcs Hq Hf; [lia|]. cbn [sections_from].
  destruct (Nat.ltb_spec pos (length cs)) as [Hlt|]; [|constructor].
  eapply fine_bind; [apply earliest_match_fine; [|by repeat constructor|done]|].
  { destruct Hq as [|([? Hl] & ? & ?)]; [by left|right; split; [done|lia]]. }
  intros [[kw_start kw_len]|] Hfound; [|constructor]. destruct (Hfound _ _ eq_refl) as (H1 & H2 & H3).
  eapply fine_bind; [apply stop_position_fine|].
  { destruct Hq as [|([? Hl] & Ha & ?)]; [by left|right]. subst cs. rewrite length_drop, length_chars_ascii by done.
    split; [done|lia]. }
  intros stop Hstop. eapply fine_bind; [apply slice_fine|].
  { destruct Hstop as [|Hstop]; [by left|]. destruct Hq as [|([? Hl] & Ha & ?)]; [by left|right].
    subst cs. rewrite length_chars_ascii in Hstop by done. split; [done|lia]. }
  intros section [-> Hle]. eapply fine_bind; [apply IH; [done| |lia]|].
  { destruct Hq as [|([? Hl] & Ha & ?)]; [by left|right]. split; [done|]. split; [done|lia]. }
  intros rest Hrest. cbn. case_match; [done|]. constructor; [|done].
  destruct Hq as [|(_ & Ha & _)]; [by left|right]. by apply trim_bytes_ascii, ascii_take, ascii_drop.
Qed.

Lemma extract_pattern_sections_fine query :
  p ∨ ascii query → fine p (Forall (λ s, p ∨ ascii s)) (extract_pattern_sections query).
Proof.
  intros Hq. unfold extract_pattern_sections. eapply fine_bind; [apply sections_from_fine; [done| |lia]|].
  { destruct Hq as [|Ha]; [by left|right]. destruct (to_uppercase_bytes query Ha) as [H1 H2].
    split; [done|]. split; [done|lia]. }
  intros sections Hs. cbn. case_match; [|done]. constructor; [exact Hq|constructor].
Qed.
End section_spec.

(** ** Nodes and edges *)
Section parse_spec.
Context (p : Prop) `{CharClass} `{Resp.F64Text} `{LowerCase} `{UpperCase}.

Lemma inline_where_fine trimmed : p ∨ ascii trimmed → fine p (λ _, True) (inline_where_of trimmed).
Proof.
  intros Ht. unfold inline_where_of. destruct (find_sub _ _) as [w|] eqn:E; [|done].
  apply find_sub_spec in E as [E _]. change (length (as_bytes " WHERE ")) with 7%nat in E.
  assert (p ∨ (ascii trimmed ∧ (w + 7 <= length trimmed)%nat)) as Hw.
  { destruct Ht as [|Ha]; [by left|right]. destruct (to_uppercase_bytes trimmed Ha) as [_ Hl]. split; [done|lia]. }
  eapply fine_bind; [apply slice_fine; destruct Hw as [|[? ?]]; [by left|right; split; [done|lia]]|]. intros spec _.
  eapply fine_bind; [apply slice_from_fine; destruct Hw as [|[? ?]]; [by left|right; split; [done|lia]]|]. done.
Qed.

(** A node is in, under the name that is answered, and nothing has gone. *)
Definition entered (x : Extraction) (r : string * Extraction) : Prop :=
  entries_ok r.2 ∧ r.1 ∈ nodes_order r.2 ∧ nodes_order x ⊆ nodes_order r.2.

Lemma enter_node_entries v ls ps x : entries_ok x → entered x (enter_node v ls ps x).
Proof.
  intros Hx. unfold enter_node, entered. cbv zeta. set (id := match v with Some _ => _ | None => _ end). cbn [fst snd].
  destruct (nodes_map x !! id) as [n|] eqn:E.
  - split; [by eapply set_node_entries|]. split; [|done]. apply (entry_keys _ Hx). by eexists.
  - split; [by apply push_node_entries|]. cbn. split; [set_solver|]. set_solver.
Qed.

Lemma parse_node_fine body x :
  p ∨ ascii body → entries_ok x → fine p (entered x) (parse_node_body body x).
Proof.
  intros Hb Hx. unfold parse_node_body. eapply fine_bind.
  { apply inline_where_fine. destruct Hb; [by left|right; by apply trim_bytes_ascii]. }
  intros [spec wh] _. cbv zeta. destruct (match find_sub _ spec with Some _ => _ | None => _ end) as [ident ps].
  destruct (identifiers _ _ ident) as [v ls]. cbn [fine].
  exact (enter_node_entries v ls _ _ (proj1 (count_entries x Hx))).
Qed.

Lemma synthetic_entries x : entries_ok x → entered x (synthetic_node x).
Proof.
  intros Hx. unfold synthetic_node, entered. split; [by apply push_node_entries|]. cbn. split; set_solver.
Qed.

Lemma enter_edge_entries b lo hi d prev next x :
  entries_ok x → prev ∈ nodes_order x → next ∈ nodes_order x → entries_ok (enter_edge b lo hi d prev next x).
Proof.
  intros Hx Hp Hn. unfold enter_edge.
  destruct (match d with DirOutgoing | DirUndirected => (prev, next) | DirIncoming => (next, prev) end) as [src tgt] eqn:Hst.
  assert (src ∈ nodes_order x ∧ tgt ∈ nodes_order x) as [Hs Ht] by (destruct d; injection Hst as <- <-; done).
  destruct (update_edge _ _ (x_edges x)) as [es|] eqn:Eu.
  - eapply set_edges_merged_entries; [done| |exact Eu]. done.
  - apply set_edges_pushed_entries; [done|by apply (update_edge_none _ _ _ Eu)|done|done].
Qed.

Lemma enter_edge_order b lo hi d prev next x : nodes_order (enter_edge b lo hi d prev next x) = nodes_order x.
Proof. unfold enter_edge. by destruct d. Qed.

(** ** Groups of characters *)

(** ASCII characters that do not end with an opening bracket. *)
Definition openers : list char := [[x28]; [x5b]; [x7b]].
Ltac opener := unfold openers; set_solver.
Definition closed_chars (cs : list char) : Prop := ascii_chars cs ∧ ∀ c, last cs = Some c → c ∉ openers.

Lemma closed_suffix cs cs' : cs' `suffix_of` cs → closed_chars cs → closed_chars cs'.
Proof.
  intros [pre ->] [Ha Hl]. apply Forall_app in Ha as [_ Ha]. split; [done|]. destruct cs' as [|c cs']; [done|].
  intros d Hd. apply Hl. by rewrite last_app_cons.
Qed.

Lemma closed_behind c cs : c ∈ openers → closed_chars (c :: cs) → cs ≠ [].
Proof. intros Hc [_ Hl] ->. by apply (Hl c). Qed.

Lemma group_length_pos o c depth cs : cs ≠ [] → (1 <= group_length o c depth cs <= length cs)%nat.
Proof.
  assert (∀ cs depth, (group_length o c depth cs <= length cs)%nat) as Hle.
  { clear. induction cs as [|d cs IH]; intros depth; [done|]. cbn [group_length length].
    destruct (decide (d = o)); [specialize (IH (S depth)); lia|].
    destruct (decide (d = c)); [|specialize (IH depth); lia].
    destruct depth as [|[|depth]]; [lia|lia|specialize (IH (S depth)); lia]. }
  intros Hcs. split; [|apply Hle]. destruct cs as [|d cs]; [done|]. cbn [group_length].
  destruct (decide (d = o)); [lia|]. destruct (decide (d = c)); [|lia]. destruct depth as [|[|?]]; lia.
Qed.

Lemma group_fine o c cs :
  p ∨ cs ≠ [] →
  fine p (λ r, (ascii_chars cs → ascii r.1) ∧ r.2 `suffix_of` cs) (group o c cs).
Proof.
  intros Hcs. unfold group. destruct (group_length o c 1 cs) as [|n] eqn:E; cbn.
  - destruct Hcs as [|Hcs]; [done|]. pose proof (group_length_pos o c 1 cs Hcs). lia.
  - split; [|apply suffix_drop]. intros Ha. by apply ascii_unchars, Forall_take.
Qed.

Lemma skip_char_suffix c cs : (skip_char c cs).2 `suffix_of` cs.
Proof. unfold skip_char. destruct cs as [|d cs]; [done|]. case_decide; [by apply suffix_cons_r|done]. Qed.

Lemma skip_char_true c cs cs' : skip_char c cs = (true, cs') → cs = c :: cs'.
Proof. unfold skip_char. destruct cs as [|d cs]; [done|]. case_decide; [|done]. intros [= <-]. by subst. Qed.

Lemma skip_separators_spec l cs :
  let r := skip_separators l cs in r.2 `suffix_of` cs ∧ (r.1 = l ∨ r.1 = None).
Proof.
  revert l. induction cs as [|c cs IH]; intros l; cbn [skip_separators]; [by split; [|left]|].
  case_match; [|by split; [|left]]. destruct (IH (if bool_decide (c = [x2c]) then None else l)) as [Hs Hn].
  split; [by apply suffix_cons_r|]. case_bool_decide; [right; by destruct Hn|done].
Qed.

(** A bracket at the head: what is behind it is not empty. *)
Lemma opened_group o c cs cs' :
  o ∈ openers → p ∨ closed_chars cs → cs = o :: cs' →
  fine p (λ r, (p ∨ ascii r.1) ∧ r.2 `suffix_of` cs') (group o c cs').
Proof.
  intros Ho Hcs ->. eapply fine_weaken; [apply group_fine; destruct Hcs as [|Hc]; [by left|right; by eapply closed_behind]|].
  intros r [H3 H4]. split; [|done]. destruct Hcs as [|[Ha _]]; [by left|right]. apply Forall_cons in Ha as [_ Ha]. auto.
Qed.

Lemma quantifier_fine cs : p ∨ closed_chars cs → fine p (λ r, r.2 `suffix_of` cs) (quantifier cs).
Proof.
  intros Hcs. unfold quantifier. destruct (skip_char [x7b] cs) as [[] cs'] eqn:E; [|by cbn].
  apply skip_char_true in E as ->. eapply fine_bind; [by eapply opened_group; [opener|exact Hcs|]|].
  intros [inner rest] [_ Hr]. cbn in *. case_match; [by apply suffix_cons_r|done].
Qed.

Lemma ascii_parts cs n : ascii_chars cs → ascii (unchars (take n cs)).
Proof. intros Ha. by apply ascii_unchars, Forall_take. Qed.

Lemma brace_blocks_fine cs : ∀ skip st, p ∨ ascii_chars cs → fine p (λ _, True) (brace_blocks skip cs st).
Proof.
  induction cs as [|c cs IH]; intros skip st Ha; [done|]. cbn [brace_blocks].
  assert (p ∨ ascii_chars cs) as Ha' by (destruct Ha as [|Ha]; [by left|right; by apply Forall_cons in Ha as [_ ?]]).
  destruct skip as [|skip]; [|by apply IH]. case_decide; [|by apply IH].
  eapply (fine_bind p (λ _, True)); [|intros; by apply IH]. unfold brace_block.
  eapply (fine_bind p (λ _, True)); [|done]. destruct (Nat.leb_spec 2 (length (unchars (c :: take (group_length [x7b] [x7d] 1 cs) cs)))); [|done].
  eapply fine_fmap; [|done]. apply slice_fine. destruct Ha as [|Ha]; [by left|right]. split; [|lia].
  by apply (ascii_parts (c :: cs) (S _)).
Qed.

Lemma parse_edge_fine body : p ∨ ascii body → fine p (λ _, True) (parse_edge_body body).
Proof.
  intros Hb. unfold parse_edge_body. cbv zeta. case_match; [done|]. eapply fine_bind; [apply brace_blocks_fine|].
  - destruct Hb; [by left|right]. by apply chars_ascii_chars, trim_bytes_ascii.
  - intros st _. destruct (match find_sub _ (bare st) with Some _ => _ | None => _ end) as [ident hops].
    destruct (match b_min st with Some _ => _ | None => _ end) as [lo hi].
    by destruct (identifiers _ _ ident) as [v ts].
Qed.

(** ** Paths *)

(** The node at the end of the chain is in. *)
Definition chained (last_node_id : option string) (x : Extraction) : Prop :=
  entries_ok x ∧ ∀ id, last_node_id = Some id → id ∈ nodes_order x.

Lemma trimmed_closed cs : p ∨ closed_chars cs → p ∨ closed_chars (trim_start cs).
Proof. intros [|Hc]; [by left|right]. eapply closed_suffix; [apply trim_start_suffix|done]. Qed.

Lemma closed_weaken cs cs' : cs' `suffix_of` cs → p ∨ closed_chars cs → p ∨ closed_chars cs'.
Proof. intros Hs [|Hc]; [by left|right]. by eapply closed_suffix. Qed.

Lemma parse_hop_fine left_arrow l cs x :
  p ∨ closed_chars cs → chained l x →
  fine p (λ r, r.1.2 `suffix_of` cs ∧ chained r.1.1 r.2) (parse_hop left_arrow l cs x).
Proof.
  intros Hcs Hx. unfold parse_hop.
  eapply (fine_bind p (λ r : list byte * list char, (p ∨ ascii r.1) ∧ r.2 `suffix_of` cs)).
  { destruct (skip_char [x5b] cs) as [[] cs'] eqn:E.
    - apply skip_char_true in E as E'. eapply fine_weaken; [by eapply opened_group; [opener|exact Hcs|]|].
      intros r [H3 H4]. split; [done|]. rewrite E'. by apply suffix_cons_r.
    - split; [right; constructor|done]. }
  intros [edge_body cs1] [Hbody Hs1]. cbn [fst snd] in *.
  eapply fine_bind; [eapply quantifier_fine, closed_weaken; [exact Hs1|done]|]. intros [before cs2] Hs2. cbn [snd] in Hs2.
  cbv zeta. set (cs3 := (skip_char [x2d] cs2).2).
  assert (cs3 `suffix_of` cs) as Hs3 by (etrans; [apply skip_char_suffix|]; by etrans).
  pose proof (skip_char_suffix [x3e] cs3) as Hs4. destruct (skip_char [x3e] cs3) as [right_arrow cs4]. cbn [snd] in Hs4.
  eapply (fine_bind p (λ r : option (option Z * option Z) * list char, r.2 `suffix_of` cs)).
  { destruct before; [cbn; by etrans|]. eapply fine_weaken; [eapply quantifier_fine, closed_weaken; [|exact Hcs]; by etrans|].
    intros r Hr. etrans; [exact Hr|]. by etrans. }
  intros [q cs5] Hs5. cbn [snd] in Hs5. eapply fine_bind; [by apply parse_edge_fine|]. intros body _.
  destruct (default (eb_min body, eb_max body) q) as [lo hi].
  pose proof (trim_start_suffix cs5) as Hs6. destruct (skip_char [x28] (trim_start cs5)) as [[] cs6] eqn:E.
  - apply skip_char_true in E as E'.
    assert (p ∨ closed_chars (trim_start cs5)) as Hc5 by (eapply closed_weaken; [|exact Hcs]; by etrans).
    eapply fine_bind; [by eapply opened_group; [opener|exact Hc5|]|]. intros [next_body cs7] [Hn Hs7]. cbn [fst snd] in *.
    destruct Hx as [Hx Hl]. eapply fine_bind; [by apply parse_node_fine|]. intros [next x1] (H3 & H4 & H5). cbn [fst snd] in *.
    destruct (count_entries x1 H3) as [_ H6].
    assert (cs7 `suffix_of` cs) as Hs8 by (etrans; [exact Hs7|]; etrans; [apply suffix_cons_r; reflexivity|]; rewrite <- E'; by etrans).
    assert (∃ prev x2, (match l with Some id => (id, count_edge x1) | None => synthetic_node (count_node (count_edge x1)) end) = (prev, x2)
              ∧ entries_ok x2 ∧ prev ∈ nodes_order x2 ∧ next ∈ nodes_order x2) as (prev & x2 & -> & H7 & H8 & H9).
    { destruct l as [id|]; [exists id, (count_edge x1); split_and!; try done; by apply H5, Hl|].
      destruct (synthetic_entries _ (proj1 (count_entries _ H6))) as (H7 & H8 & H9).
      eexists _, _. split; [apply surjective_pairing|]. split_and!; [done|done|]. by apply H9. }
    cbn. split; [done|]. split; [by apply enter_edge_entries|]. intros id [= <-]. by rewrite enter_edge_order.
  - cbn. split; [|done]. etrans; [apply suffix_drop|]. assert (cs6 = trim_start cs5) as ->; [|by etrans].
    unfold skip_char in E. destruct (trim_start cs5) as [|d r]; [by injection E|]. case_decide; [done|by injection E].
Qed.

Lemma parse_path_fine fuel : ∀ l cs x,
  (length cs < fuel)%nat → p ∨ closed_chars cs → chained l x → fine p entries_ok (parse_path fuel l cs x).
Proof.
  induction fuel as [|fuel IH]; intros l cs x Hf Hcs Hx; [lia|]. cbn [parse_path].
  pose proof (skip_separators_spec l cs) as [Hs Hl]. destruct (skip_separators l cs) as [l1 cs1]. cbn [fst snd] in *.
  assert (chained l1 x) as Hx1 by (destruct Hl as [-> | ->]; [done|split; [apply Hx|done]]).
  pose proof (suffix_length _ _ Hs) as Hlen. eapply closed_weaken in Hcs; [|exact Hs]. assert (length cs1 < S fuel)%nat as Hf1 by lia.
  clear l Hx Hl cs Hs Hf Hlen. destruct cs1 as [|c cs]; [apply Hx1|]. cbn [length] in Hf1.
  assert (∀ cs' l' x', cs' `suffix_of` cs → chained l' x' → fine p entries_ok (parse_path fuel l' cs' x')) as Hgo.
  { intros cs' l' x' Hs' Hx'. apply IH; [apply suffix_length in Hs'; lia| |done].
    eapply closed_weaken; [|exact Hcs]. by apply suffix_cons_r. }
  assert (p ∨ closed_chars cs) as Hcs' by (eapply closed_weaken; [|exact Hcs]; by apply suffix_cons_r).
  case_decide as Ec.
  - eapply fine_bind; [eapply opened_group; [|exact Hcs|by rewrite Ec]; opener|]. intros [body cs'] [Hb Hs']. cbn [fst snd] in *.
    eapply fine_bind; [apply parse_node_fine; [done|apply Hx1]|]. intros [id x'] (He & Hi & _). apply Hgo; [done|].
    split; [done|]. by intros ? [= <-].
  - clear Ec. case_decide.
    + pose proof (skip_char_suffix [x2d] cs) as Hs'. destruct (skip_char [x2d] cs) as [[] cs'] eqn:E; cbn [snd] in Hs'.
      * eapply fine_bind; [apply parse_hop_fine; [by eapply closed_weaken|done]|]. intros [[l' cs''] x'] [Hs'' Hx'].
        apply Hgo; [by etrans|done].
      * apply Hgo; [|done]. by etrans; [apply suffix_drop|].
    + case_decide; [|by apply Hgo]. eapply fine_bind; [by apply parse_hop_fine|]. intros [[l' cs''] x'] [Hs'' Hx'].
      by apply Hgo.
Qed.

(** A section that does not end with an opening bracket. *)
Definition closed (s : list byte) : Prop := ascii s ∧ last s ∉ [Some x28; Some x5b; Some x7b].

Lemma closed_text s : closed s → closed_chars (chars s).
Proof.
  intros [Ha Hl]. split; [by apply chars_ascii_chars|]. rewrite chars_ascii by done. intros c Hc.
  change (map (λ b, [b]) s) with ((λ b, [b]) <$> s) in Hc. rewrite fmap_last in Hc.
  destruct (last s) as [b|]; [|done]. injection Hc as <-. unfold openers. set_solver.
Qed.

Lemma parse_sections_fine sections : ∀ x,
  Forall (λ s, p ∨ closed s) sections → entries_ok x → fine p entries_ok (parse_sections sections x).
Proof.
  induction sections as [|s sections IH]; intros x Hs Hx; [done|]. apply Forall_cons in Hs as [Hc Hs].
  cbn [parse_sections]. eapply fine_bind; [|by intros x' Hx'; apply IH].
  apply parse_path_fine; [lia| |by split]. destruct Hc as [|Hc]; [by left|right; by apply closed_text].
Qed.

(** ** Filters *)

Lemma split_and_fine s l : ∀ in_single in_double skip i last,
  p ∨ (ascii s ∧ (last <= i + skip)%nat ∧ (i + length l = length s)%nat ∧ (last <= length s)%nat) →
  fine p (Forall (λ e, e ⊆ s)) (split_and_from s in_single in_double skip i last l).
Proof.
  induction l as [|b l IH]; intros in_single in_double skip i last Hs.
  { constructor; [|constructor]. intros c Hc. by apply subseteq_drop in Hc. }
  cbn [split_and_from length] in *.
  destruct skip as [|skip]; [|apply IH; destruct Hs as [|(? & ? & ? & ?)]; [by left|right; split_and!; [done|lia..]]].
  assert (∀ a d, fine p (Forall (λ e, e ⊆ s)) (split_and_from s a d 0 (S i) last l)) as Hgo
    by (intros a d; apply IH; destruct Hs as [|(? & ? & ? & ?)]; [by left|right; split_and!; [done|lia..]]).
  do 2 (case_match; [apply Hgo|]). destruct (_ && (i + 5 <=? length s)%nat) eqn:E; [|apply Hgo].
  apply andb_true_iff in E as [_ E%Nat.leb_le].
  eapply fine_bind; [apply slice_fine; destruct Hs as [|(? & ? & ? & ?)]; [by left|right; split; [done|lia]]|]. intros chunk _.
  case_match; [|apply Hgo].
  eapply fine_bind; [apply slice_fine; destruct Hs as [|(? & ? & ? & ?)]; [by left|right; split; [done|lia]]|]. intros piece [-> _].
  eapply fine_fmap; [|intros pieces Hp; constructor; [intros c Hc; by apply subseteq_take, subseteq_drop in Hc|exact Hp]].
  apply IH. destruct Hs as [|(? & ? & ? & ?)]; [by left|right; split_and!; [done|lia..]].
Qed.

Lemma split_at_ascii f l : ascii l → Forall ascii (split_at f l).
Proof.
  induction 1 as [|b l Hb Hl IH]; cbn [split_at]; [by repeat constructor|]. destruct (f b); [constructor; [constructor|done]|].
  destruct IH as [|q qs Hq Hqs]; [by repeat constructor|]. constructor; [by constructor|done].
Qed.

Lemma node_property_same var prop lit m : same_nodes m (node_property var prop lit m).
Proof.
  unfold node_property. destruct (m !! var) as [n|] eqn:E; [|done]. intros id. destruct (decide (id = var)) as [->|Hne].
  - by rewrite lookup_insert_eq, E.
  - by rewrite lookup_insert_ne.
Qed.

Lemma same_nodes_trans m1 m2 m3 : same_nodes m1 m2 → same_nodes m2 m3 → same_nodes m1 m3.
Proof. intros H3 H4 id. by rewrite H4. Qed.

Lemma apply_equality_same m expr : same_nodes m (apply_equality m expr).
Proof.
  unfold apply_equality. repeat case_match; first [apply node_property_same|by intros id].
Qed.

(** Without a sign of equality nothing is changed. *)
Lemma split_eq_none l : ∀ in_single in_double seen, x3d ∉ l → split_eq_from in_single in_double seen l = None.
Proof.
  induction l as [|b l IH]; intros in_single in_double seen Hb; [done|]. cbn [split_eq_from].
  apply not_elem_of_cons in Hb as [Hbb Hb]. rewrite !(IH _ _ _ Hb). repeat case_decide; try done.
  rewrite bool_decide_false by congruence. by rewrite andb_false_r.
Qed.

Lemma apply_equality_none m expr : x3d ∉ expr → apply_equality m expr = m.
Proof.
  intros He. unfold apply_equality, split_eq_outside_quotes. rewrite split_eq_none; [done|].
  intros Hin. by apply He, trim_bytes_subseteq.
Qed.

Lemma split_at_subseteq f l : Forall (λ s, s ⊆ l) (split_at f l).
Proof.
  induction l as [|b l IH]; cbn [split_at]; [by repeat constructor|].
  assert (Forall (λ s, s ⊆ b :: l) (split_at f l)) as IH' by (eapply Forall_impl; [exact IH|set_solver]).
  destruct (f b); [constructor; [set_solver|done]|].
  destruct IH as [|q qs Hq Hqs]; [constructor; [set_solver|constructor]|]. apply Forall_cons in IH' as [_ IH'].
  constructor; [set_solver|done].
Qed.

(** Filters keep the nodes, and without a sign of equality their properties. *)
Definition filtered (text : list byte) (m m' : gmap string TopologyNode) : Prop :=
  same_nodes m m' ∧ (x3d ∉ text → m' = m).

Lemma where_body_fine body m : p ∨ ascii body → fine p (filtered body m) (parse_where_predicates_body body m).
Proof.
  intros Hb. unfold parse_where_predicates_body. pose proof (split_at_subseteq is_newline body) as Hsub.
  assert (Forall (λ s, p ∨ ascii s) (split_at is_newline body)) as Hs.
  { destruct Hb; [apply Forall_forall; by left|]. eapply Forall_impl; [by apply split_at_ascii|]. by right. }
  revert m. induction Hs as [|s parts Hs _ IH]; intros m; [by split|]. cbn [where_parts].
  apply Forall_cons in Hsub as [Hsb Hsub].
  eapply fine_bind; [apply split_and_fine; destruct Hs; [by left|right; split_and!; [done|lia..]]|]. intros exprs He.
  eapply fine_weaken; [by apply IH|]. intros m' [Hm' Hid].
  assert (filtered body m (foldl apply_equality m exprs)) as [Hf Hfid].
  { clear -He Hsb. revert m. induction He as [|e exprs He _ IH]; intros m; [by split|]. cbn [foldl].
    destruct (IH (apply_equality m e)) as [H3 H4]. split; [eapply same_nodes_trans; [apply apply_equality_same|done]|].
    intros Hb. rewrite H4 by done. apply apply_equality_none. set_solver. }
  split; [by eapply same_nodes_trans|]. intros Hb'. by rewrite Hid, Hfid.
Qed.

Lemma nearest_stop_fine query upper start kws : ∀ stop,
  p ∨ (aligned query upper ∧ (start <= length upper)%nat) → p ∨ (start <= stop <= length query)%nat →
  fine p (λ r, p ∨ (start <= r <= length query)%nat) (nearest_stop query upper start kws stop).
Proof.
  induction kws as [|kw kws IH]; intros stop Hq Hs; [done|]. cbn [nearest_stop].
  eapply fine_bind; [by apply keyword_after_fine|]. intros found Hf. apply IH; [done|].
  destruct found as [i|]; [|done]. destruct (Hf i eq_refl). case_match; [|done].
  destruct Hq as [|[[_ Hl] _]]; [by left|right; lia].
Qed.

Lemma wheres_from_fine query upper fuel : ∀ pos m,
  p ∨ (aligned query upper ∧ ascii query ∧ (pos <= length upper)%nat) → (pos <= length upper → length upper - pos < fuel)%nat →
  (0 < fuel)%nat → fine p (filtered query m) (wheres_from fuel query upper pos m).
Proof.
  induction fuel as [|fuel IH]; intros pos m Hq Hf Hpos; [lia|]. cbn [wheres_from].
  eapply fine_bind; [apply slice_from_fine; unfold aligned in Hq; tauto|]. intros rest [-> Hle].
  destruct (find_sub _ _) as [i|] eqn:E; [|by split]. apply find_sub_spec in E as [E _].
  change (length (as_bytes "WHERE")) with 5%nat in E. rewrite length_drop in E.
  assert (0 < fuel)%nat as Hfuel by lia.
  eapply fine_bind; [apply whole_word_fine; destruct Hq as [|([_ Hl] & _ & _)]; [by left|right; lia]|].
  intros [] _; [|apply IH; [destruct Hq as [|(? & ? & ?)]; [by left|right; split; [done|split; [done|lia]]]|lia|done]].
  eapply fine_bind; [apply nearest_stop_fine|].
  { destruct Hq as [|(? & ? & ?)]; [by left|right; split; [done|lia]]. }
  { destruct Hq as [|([_ Hl] & ? & ?)]; [by left|right; lia]. }
  intros stop Hstop. eapply fine_bind; [apply slice_fine|].
  { destruct Hq as [|(? & ? & ?)]; [by left|]. destruct Hstop as [|Hstop]; [by left|right; by split]. }
  intros body [-> Hbody]. eapply fine_bind; [apply where_body_fine|].
  { destruct Hq as [|(_ & Ha & _)]; [by left|right; by apply ascii_take, ascii_drop]. }
  intros m' Hm'. eapply fine_weaken; [apply IH|].
  - destruct Hq as [|([Hu Hl] & Ha & _)]; [by left|right]. split; [done|]. split; [done|lia].
  - lia.
  - done.
  - intros m'' [H3 H4]. destruct Hm' as [H5 H6]. split; [by eapply same_nodes_trans|]. intros Hne. rewrite H4 by done.
    apply H6. intros Hin. by apply subseteq_take, subseteq_drop in Hin.
Qed.

Lemma wheres_fine query m :
  p ∨ ascii query → fine p (filtered query m) (extract_and_apply_where_predicates query m).
Proof.
  intros Hq. unfold extract_and_apply_where_predicates. apply wheres_from_fine; [|lia..].
  destruct Hq as [|Ha]; [by left|right]. destruct (to_uppercase_bytes query Ha) as [H3 H4].
  split; [done|]. split; [done|lia].
Qed.
Lemma from_query_fine query clean :
  strip_query_comments query = Ok clean → p ∨ ascii (as_bytes clean) →
  (∀ sections, extract_pattern_sections (as_bytes clean) = Ok sections → Forall (λ s, p ∨ closed s) sections) →
  fine p topology_ok (from_query_str query).
Proof.
  intros Hc Ha Hs. unfold from_query_str. rewrite Hc. rewrite bind_Ok.
  pose proof (extract_pattern_sections_fine p (as_bytes clean) Ha) as Hsec.
  destruct (extract_pattern_sections (as_bytes clean)) as [sections|]; [|by destruct e].
  rewrite bind_Ok. specialize (Hs sections eq_refl).
  eapply fine_bind; [by apply (parse_sections_fine sections Extraction_new), (ok_entries _ extraction_new_ok)|].
  intros x Hx. eapply fine_bind; [by apply wheres_fine|]. intros m [Hm _]. cbn [fine].
  assert (∀ id, is_Some (m !! id) ↔ id ∈ nodes_order x) as Hk.
  { intros id. rewrite <- (entry_keys _ Hx). specialize (Hm id). destruct (m !! id), (nodes_map x !! id); naive_solver. }
  destruct (take_nodes_once (nodes_order x) m) as [Hn Hin].
  { intros id n En. specialize (Hm id). rewrite En in Hm. destruct (nodes_map x !! id) as [n'|] eqn:E; [|done].
    injection Hm as Hid _. rewrite Hid. by apply (entry_ids _ Hx). }
  split; [done|]. cbn [t_nodes t_edges]. split; [done|]. split; [apply (entry_edges _ Hx)|].
  intros e He. destruct (entry_ends _ Hx e He). split; apply Hin; by rewrite Hk.
Qed.
End parse_spec.

(** ** Query texts *)
Section query_text.
Context `{CharClass} `{Resp.F64Text} `{LowerCase} `{UpperCase}.

(** C26: The parser of query texts ends on every text, and what it returns is well formed: nodes
    and edges have names of their own, and every edge joins two nodes that are there.  On an
    ASCII text it finds the sections between the keywords, and unless one of them ends with an
    opening bracket it returns a topology, whatever else the text is. *)
Theorem from_query_str_well_formed query :
  from_query_str query ≠ Err Endless ∧
  (∀ t, from_query_str query = Ok t → topology_ok t) ∧
  (ascii (as_bytes query) → ∃ clean sections,
     strip_query_comments query = Ok clean ∧ extract_pattern_sections (as_bytes clean) = Ok sections ∧
     (Forall (λ s, last s ∉ [Some x28; Some x5b; Some x7b]) sections → ∃ t, from_query_str query = Ok t)).
Proof.
  destruct (strip_query_comments_ok query) as (clean & Hc & Ha).
  assert (fine True topology_ok (from_query_str query)) as Hany.
  { eapply from_query_fine; [done|by left|]. intros sections _. apply Forall_forall. by left. }
  split; [intros E; by rewrite E in Hany|]. split; [intros t E; by rewrite E in Hany|]. intros Hq. specialize (Ha Hq).
  pose proof (extract_pattern_sections_fine False (as_bytes clean) (or_intror Ha)) as Hsec.
  destruct (extract_pattern_sections (as_bytes clean)) as [sections|[]] eqn:Es; [|done|done]. exists clean, sections.
  split; [done|]. split; [done|]. intros Hl. cbn in Hsec.
  assert (fine False topology_ok (from_query_str query)) as Hfin.
  { eapply from_query_fine; [done|by right|]. intros sections' E. rewrite Es in E. injection E as <-.
    rewrite Forall_forall in Hl, Hsec. apply Forall_forall. intros s Hs. right. split; [|by apply Hl]. by destruct (Hsec s Hs). }
  destruct (from_query_str query) as [t|[]]; [by exists t|done|done].
Qed.
End query_text.

(** ** Texts the parser misreads *)
#[local] Existing Instance ascii_CharClass.
#[local] Existing Instance ascii_LowerCase.
#[local] Existing Instance ascii_UpperCase.
#[local] Existing Instance bits_text.

(** The names of nodes and edges of a text, with the properties of the nodes. *)
Definition outline (query : string) : result halt (list (string * btree LiteralValue) * list string) :=
  t ← from_query_str query; Ok ((λ n, (tn_id n, tn_properties n)) <$> t_nodes t, te_id <$> t_edges t).

(** A text that ends with an opening bracket panics, *)
Example open_bracket_panics : from_query_str "MATCH (" = Err Panics.
Proof. vm_compute. reflexivity. Qed.
(** and so does a filter with an accented letter near its quotation mark. *)
Example accented_filter_panics : from_query_str "MATCH (n) WHERE n.city = 'Évreux' RETURN n" = Err Panics.
Proof. vm_compute. reflexivity. Qed.
(** Positions of bytes are compared with counts of characters: the last letters are lost. *)
Example accented_label_is_cut :
  (λ t, tn_labels <$> t_nodes t) <$> from_query_str "CREATE (n:Café)" = Ok [["Caf"]].
Proof. vm_compute. reflexivity. Qed.
(** An edge without brackets is a comment. *)
Example short_edge_is_a_comment : outline "MATCH (a)-->(b) RETURN b" = Ok ([("a", [])], []).
Proof. vm_compute. reflexivity. Qed.
(** A keyword inside of a word hides the same keyword behind it. *)
Example hidden_keyword :
  outline "MATCH (a) SET a.matched = 1 MATCH (b)-[:R]->(c) RETURN c" = Ok ([("a", [])], []).
Proof. vm_compute. reflexivity. Qed.
(** A comparison is an equality of a property that has the operator in its name, *)
Example comparison_is_a_property : outline "MATCH (a) WHERE a.age >= 5 RETURN a" = Ok ([("a", [("age >", LInt64 5)])], []).
Proof. vm_compute. reflexivity. Qed.
(** and inside of a node an equality of the property. *)
Example inline_comparison_is_an_equality :
  outline "MATCH (a WHERE a.age >= 5) RETURN a" = Ok ([("a", [("age", LInt64 5)])], []).
Proof. vm_compute. reflexivity. Qed.
(** A comma inside of quotation marks ends a property. *)
Example comma_in_quotes_loses_the_property : outline "CREATE (a {name: 'x, y', k: 1})" = Ok ([("a", [("k", LInt64 1)])], []).
Proof. vm_compute. reflexivity. Qed.
(** A node of a chain that begins with an edge takes the place of one that has its name. *)
Example synthetic_node_overwrites :
  (λ t, (tn_labels <$> t_nodes t, (λ e, (te_source e, te_target e)) <$> t_edges t)) <$> from_query_str "MATCH -[:R]->(n2:User)"
  = Ok ([["n2"]], [("n2", "n2")]).
Proof. vm_compute. reflexivity. Qed.

Lemma from_query_str_well_formed_witness :
  ∃ t, from_query_str "MATCH (a:User)-[:R]->(b) RETURN b" = Ok t ∧ topology_ok t.
Proof.
  destruct (from_query_str_well_formed "MATCH (a:User)-[:R]->(b) RETURN b") as (_ & Hok & Hret).
  destruct Hret as (clean & sections & Hc & Hs & Ht).
  - by repeat constructor.
  - vm_compute in Hc. injection Hc as <-. vm_compute in Hs. injection Hs as <-. destruct Ht as [t Ht].
    + constructor; [|constructor]. intros Hl. repeat (apply elem_of_cons in Hl as [Hl|Hl]; [discriminate Hl|]).
      by apply not_elem_of_nil in Hl.
    + exists t. split; [exact Ht|by apply Hok].
Defined.
