(* ===== verification/FullText.v ===== *)
(** * Full-text search ([voyager-core/src/schema.rs], [builder.rs])

    A search is a procedure call whose name and arguments depend on the dialect; for Memgraph
    the fields of the query get the prefix [data.].  The scanner is the code's loop over
    characters; what it has passed is kept as the character before the rest.  The
    scanner ends; it changes a query only by the prefix of fields; and a query it has adapted
    stays as it is when it is adapted again. *)
From S2P Require Import Prelude Bytes Errors Text Ast Schema.
From S2P Require Import Builder.

Open Scope Z_scope.
Open Scope string_scope.
Open Scope list_scope.

(** [char::is_alphabetic]; the documentation has [is_alphanumeric] true of alphabetic and of
    numeric characters. *)
Class Alphabetic `{CharClass} := {
  is_alphabetic : char → bool;
  is_alphabetic_ascii b : is_ascii b = true → is_alphabetic [b] = byte_in 65 90 b || byte_in 97 122 b;
  is_alphabetic_alphanumeric c : is_alphabetic c = true → is_alphanumeric c = true;
}.

Definition DOT : char := [x2e].
Definition COLON : char := [x3a].
Definition UNDERSCORE : char := [x5f].
Definition QUOTE : char := [x22].
Definition BACKSLASH : char := [x5c].
Definition same (c d : char) : bool := bool_decide (c = d).

Section adapt.
Context `{Alphabetic}.

Definition word_char (c : char) : bool := is_alphanumeric c || same c UNDERSCORE.
Definition token_char (c : char) : bool := word_char c || same c DOT.
Definition starts_token (c : char) : bool := is_alphabetic c || same c UNDERSCORE.

(** The token at the head of the text, and the rest. *)
Fixpoint span (cs : list char) : list char * list char :=
  match cs with
  | c :: cs' => if token_char c then let '(t, r) := span cs' in (c :: t, r) else ([], cs)
  | [] => ([], [])
  end.

Definition DATA : list char := chars (as_bytes "data.").
Definition already_namespaced (token : list char) : bool := bool_decide (take (length DATA) token = DATA).

(** The names are compared in lower case; without names every token of word characters counts. *)
Definition should_prefix (properties : list string) (token : list char) : bool :=
  if already_namespaced token then false
  else match properties with
       | [] => negb (bool_decide (token = [])) && forallb word_char token
       | _ => bool_decide (to_ascii_lowercase (of_bytes (unchars token)) ∈ map to_ascii_lowercase properties)
       end.

Definition boundary (prev : option char) : bool :=
  match prev with Some p => negb (token_char p) | None => true end.

(** One colon, not two, follows. *)
Definition field_colon (rest : list char) : option (list char) :=
  match rest with
  | c :: rest' =>
      if same c COLON then match rest' with d :: _ => if same d COLON then None else Some rest' | [] => Some rest' end
      else None
  | [] => None
  end.

Fixpoint adapt (properties : list string) (fuel : nat) (prev : option char) (in_quote escaped : bool)
    (cs : list char) : option (list char) :=
  match fuel with
  | O => None
  | S fuel =>
      match cs with
      | [] => Some []
      | c :: cs' =>
          if escaped then cons c <$> adapt properties fuel (Some c) in_quote false cs'
          else if same c BACKSLASH then cons c <$> adapt properties fuel (Some c) in_quote true cs'
          else if same c QUOTE then cons c <$> adapt properties fuel (Some c) (negb in_quote) false cs'
          else if negb in_quote && starts_token c && boundary prev then
            let '(token, rest) := span cs in
            match field_colon rest with
            | Some rest =>
                app ((if should_prefix properties token then DATA else []) ++ token ++ [COLON])
                  <$> adapt properties fuel (Some COLON) false false rest
            | None => app token <$> adapt properties fuel (last token) false false rest
            end
          else cons c <$> adapt properties fuel (Some c) in_quote false cs'
      end
  end.

(** Each turn takes a character at least. *)
Definition adapt_chars (properties : list string) (cs : list char) : option (list char) :=
  adapt properties (S (length cs)) None false false cs.

Definition adapt_tantivy_query (query : string) (properties : list string) : option string :=
  let cs := chars (as_bytes query) in
  if bool_decide (COLON ∈ cs) then (λ out, of_bytes (unchars out)) <$> adapt_chars properties cs
  else Some query.

(** ** Procedure calls *)
Record ResolvedFullTextSearch := mkSearch {
  procedure : string; target_argument : string; query_string : string; yield_entity : string }.

Definition resolve_fulltext_search (dialect : DdlDialect) (is_relationship : bool)
    (target_name falkordb_target query_string : string) (properties : list string) : option ResolvedFullTextSearch :=
  match dialect with
  | DD_Memgraph =>
      let has_colon := bool_decide (COLON ∈ chars (as_bytes query_string)) in
      adapted ← (if has_colon then adapt_tantivy_query query_string properties else Some query_string);
      Some
        (if is_relationship then
           mkSearch (if has_colon then "text_search.search_edges" else "text_search.search_all_edges")
             target_name adapted "edge"
         else
           mkSearch (if has_colon then "text_search.search" else "text_search.search_all") target_name adapted "node")
  | DD_FalkorDb =>
      Some (if is_relationship then
              mkSearch "db.idx.fulltext.queryRelationships" falkordb_target query_string "relationship"
            else mkSearch "db.idx.fulltext.queryNodes" falkordb_target query_string "node")
  | _ =>
      Some (if is_relationship then
              mkSearch "db.index.fulltext.queryRelationships" target_name query_string "relationship"
            else mkSearch "db.index.fulltext.queryNodes" target_name query_string "node")
  end.

Definition search_items (entity : string) (yield_node yield_score : option string) : list string :=
  let y_node := default entity yield_node in
  let y_score := default "score" yield_score in
  [if decide (y_node ≠ entity) then entity +:+ " AS " +:+ y_node else entity;
   if decide (y_score ≠ "score") then "score AS " +:+ y_score else "score"].

Definition search_call (resolved : ResolvedFullTextSearch) (yield_node yield_score : option string) : BM () :=
  arg0 ← literal (LString (target_argument resolved));
  arg1 ← literal (LString (query_string resolved));
  call_procedure (procedure resolved) [arg0; arg1];;
  yield_items (search_items (yield_entity resolved) yield_node yield_score).

Definition fulltext_search (dialect : DdlDialect) (is_relationship : bool)
    (target_name falkordb_target query_string : string) (properties : list string)
    (yield_node yield_score : option string) : option (BM ()) :=
  (λ resolved, search_call resolved yield_node yield_score)
    <$> resolve_fulltext_search dialect is_relationship target_name falkordb_target query_string properties.
End adapt.

(** ** Texts and their characters *)
Definition is_char (c : char) : Prop := match c with b :: g => utf8_cont b = false ∧ forallb utf8_cont g = true | [] => False end.

Lemma chars_one b g : forallb utf8_cont g = true → chars (b :: g) = [b :: g].
Proof.
  revert b. induction g as [|c g IH]; intros b Hg; [done|]. apply andb_true_iff in Hg as [Hc Hg].
  rewrite chars_cons, (IH c Hg). by rewrite Hc.
Qed.

Lemma starts_char_concat cs : Forall is_char cs → starts_char (concat cs) = true.
Proof. destruct 1 as [|c cs Hc _]; [done|]. destruct c as [|b g]; [done|]. destruct Hc as [Hb _]. cbn. by rewrite Hb. Qed.

Lemma chars_unchars cs : Forall is_char cs → chars (unchars cs) = cs.
Proof.
  unfold unchars. induction 1 as [|c cs Hc Hcs IH]; [done|]. destruct c as [|b g]; [done|].
  destruct Hc as [Hb Hg]. cbn [concat].
  rewrite chars_app by by apply starts_char_concat. rewrite chars_one by done. by rewrite IH.
Qed.

Lemma chars_are_chars l : starts_char l = true → Forall is_char (chars l).
Proof.
  assert (∀ l, match chars l with c :: cs => Forall is_char cs ∧ ∃ b g, c = b :: g ∧ forallb utf8_cont g = true | [] => True end) as Hall.
  { clear. induction l as [|b l IH]; [done|]. rewrite chars_cons. destruct (chars l) as [|[|c g] cs].
    - split; [constructor|]. by exists b, [].
    - by destruct IH as (_ & b' & g & [=] & _).
    - destruct IH as (Hcs & b' & g' & [= <- <-] & Hg). destruct (utf8_cont c) eqn:Ec.
      + split; [done|]. exists b, (c :: g). split; [done|]. cbn. by rewrite Ec.
      + split; [by constructor|]. by exists b, []. }
  intros Hl. specialize (Hall l). destruct l as [|b l]; [constructor|].
  destruct (chars_head b l) as (g & cs & E). rewrite E in *. destruct Hall as (Hcs & b' & g' & [= <- <-] & Hg).
  constructor; [|done]. split; [|done]. by apply negb_true_iff in Hl.
Qed.

Section adapt_spec.
Context `{Alphabetic}.

Lemma same_true c d : same c d = true ↔ c = d.
Proof. apply bool_decide_eq_true. Qed.
Lemma same_refl c : same c c = true.
Proof. by apply same_true. Qed.

Lemma alphanumeric_not b c : is_ascii b = true → byte_in 48 57 b || byte_in 65 90 b || byte_in 97 122 b = false →
  is_alphanumeric c = true → c ≠ [b].
Proof. intros Hb Hn Hc ->. rewrite is_alphanumeric_ascii in Hc by done. congruence. Qed.

Lemma token_char_not c : token_char c = true → c ≠ COLON ∧ c ≠ QUOTE ∧ c ≠ BACKSLASH.
Proof.
  unfold token_char, word_char. intros [[Hc|Hc%same_true]%orb_true_iff|Hc%same_true]%orb_true_iff.
  - split_and!; eapply alphanumeric_not; try exact Hc; done.
  - by subst c.
  - by subst c.
Qed.

Lemma starts_token_char c : starts_token c = true → token_char c = true.
Proof.
  unfold starts_token, token_char, word_char. intros [Hc|Hc]%orb_true_iff.
  - by rewrite (is_alphabetic_alphanumeric c Hc).
  - rewrite Hc. by rewrite orb_true_r.
Qed.

Lemma span_spec cs t r : span cs = (t, r) →
  cs = t ++ r ∧ forallb token_char t = true ∧ match r with c :: _ => token_char c = false | [] => True end.
Proof.
  revert t r. induction cs as [|c cs IH]; intros t r; cbn [span]; [by intros [= <- <-]|].
  destruct (token_char c) eqn:Ec; [|by intros [= <- <-]].
  destruct (span cs) as [t' r'] eqn:E. intros [= <- <-]. destruct (IH _ _ eq_refl) as (-> & Ht & Hr).
  split; [done|]. split; [|done]. cbn. by rewrite Ec.
Qed.

Lemma span_app t r :
  forallb token_char t = true → match r with c :: _ => token_char c = false | [] => True end → span (t ++ r) = (t, r).
Proof.
  induction t as [|c t IH]; cbn.
  - intros _ Hr. destruct r as [|c r]; [done|]. cbn. by rewrite Hr.
  - intros [Hc Ht]%andb_true_iff Hr. by rewrite Hc, IH.
Qed.

Lemma token_not_colon : token_char COLON = false.
Proof.
  destruct (token_char COLON) eqn:E; [|done]. by apply token_char_not in E as [? _].
Qed.

Lemma field_colon_spec r r' : field_colon r = Some r' → r = COLON :: r' ∧ head r' ≠ Some COLON.
Proof.
  destruct r as [|c [|d r]]; cbn; [done| |].
  - destruct (same c COLON) eqn:Ec; [|done]. apply same_true in Ec as ->. by intros [= <-].
  - destruct (same c COLON) eqn:Ec; [|done]. apply same_true in Ec as ->.
    destruct (same d COLON) eqn:Ed; [done|]. intros [= <-]. split; [done|]. cbn. intros [= ->]. by rewrite same_refl in Ed.
Qed.

Lemma field_colon_here r : head r ≠ Some COLON → field_colon (COLON :: r) = Some r.
Proof.
  intros Hr. cbn. destruct r as [|d r]; [done|]. destruct (same d COLON) eqn:Ed; [|done].
  apply same_true in Ed as ->. done.
Qed.

(** ** The scanner ends *)

Lemma field_colon_length r r' : field_colon r = Some r' → length r = S (length r').
Proof. by intros [-> _]%field_colon_spec. Qed.

Lemma starts_span c cs t r : starts_token c = true → span (c :: cs) = (t, r) → (length r <= length cs)%nat ∧ t ≠ [].
Proof.
  intros Hc%starts_token_char. cbn [span]. rewrite Hc. destruct (span cs) as [t' r'] eqn:E. intros [= <- <-].
  apply span_spec in E as [-> _]. rewrite length_app. split; [lia|done].
Qed.

Lemma adapt_total props fuel : ∀ prev q e cs, (length cs < fuel)%nat → ∃ out, adapt props fuel prev q e cs = Some out.
Proof.
  induction fuel as [|fuel IH]; intros prev q e cs Hf; [lia|]. cbn [adapt]. destruct cs as [|c cs]; [by eexists|].
  cbn [length] in Hf.
  destruct e; [destruct (IH (Some c) q false cs ltac:(lia)) as [out ->]; by eexists|].
  destruct (same c BACKSLASH); [destruct (IH (Some c) q true cs ltac:(lia)) as [out ->]; by eexists|].
  destruct (same c QUOTE); [destruct (IH (Some c) (negb q) false cs ltac:(lia)) as [out ->]; by eexists|].
  destruct (negb q && starts_token c && boundary prev) eqn:Eb.
  - apply andb_true_iff in Eb as [[_ Hc]%andb_true_iff _]. destruct (span (c :: cs)) as [t r] eqn:Es.
    destruct (starts_span _ _ _ _ Hc Es) as [Hl _]. destruct (field_colon r) as [r'|] eqn:Ef.
    + apply field_colon_length in Ef. destruct (IH (Some COLON) false false r' ltac:(lia)) as [out ->]. by eexists.
    + destruct (IH (last t) false false r ltac:(lia)) as [out ->]. by eexists.
  - destruct (IH (Some c) q false cs ltac:(lia)) as [out ->]. by eexists.
Qed.
(** ** Nothing is lost, and only prefixes are added

    The coarse view, for the characters of the result. *)

Inductive prefixed : list char → list char → Prop :=
  | prefixed_end : prefixed [] []
  | prefixed_keep c cs out : prefixed cs out → prefixed (c :: cs) (c :: out)
  | prefixed_field c cs out : starts_token c = true → prefixed cs out → prefixed (c :: cs) (DATA ++ c :: out).

Lemma prefixed_run t cs out : prefixed cs out → prefixed (t ++ cs) (t ++ out).
Proof. intros Hp. induction t as [|c t IH]; [done|]. by constructor. Qed.

Lemma adapt_prefixed props fuel : ∀ prev q e cs out, adapt props fuel prev q e cs = Some out → prefixed cs out.
Proof.
  induction fuel as [|fuel IH]; intros prev q e cs out; [done|]. cbn [adapt].
  destruct cs as [|c cs]; [intros [= <-]; constructor|].
  assert (∀ q' e', (cons c <$> adapt props fuel (Some c) q' e' cs) = Some out → prefixed (c :: cs) out) as Hcons.
  { intros q' e'. destruct (adapt _ _ _ _ _ cs) as [o|] eqn:E; [|done]. intros [= <-]. constructor. eauto. }
  destruct e; [apply Hcons|]. destruct (same c BACKSLASH); [apply Hcons|]. destruct (same c QUOTE); [apply Hcons|].
  destruct (negb q && starts_token c && boundary prev) eqn:Eb; [|apply Hcons].
  apply andb_true_iff in Eb as [[_ Hc]%andb_true_iff _]. destruct (span (c :: cs)) as [t r] eqn:Es.
  destruct (starts_span _ _ _ _ Hc Es) as [_ Hne]. apply span_spec in Es as (Es & _ & _).
  destruct t as [|c' t]; [done|]. injection Es as <- Es. subst cs.
  destruct (field_colon r) as [r'|] eqn:Ef; destruct (adapt props fuel _ _ _ _) as [o|] eqn:Eo; cbn -[DATA]; try done;
    intros [= <-]; apply IH in Eo.
  - apply field_colon_spec in Ef as [-> _]. rewrite <- app_assoc.
    replace ((c :: t ++ [COLON]) ++ o) with (c :: t ++ COLON :: o) by (cbn; by rewrite <- app_assoc).
    assert (prefixed (t ++ COLON :: r') (t ++ COLON :: o)) by (apply prefixed_run; by constructor).
    destruct (should_prefix _ _); by constructor.
  - constructor. by apply prefixed_run.
Qed.

Lemma prefixed_sublist cs out : prefixed cs out → sublist cs out.
Proof.
  induction 1 as [|c cs out _ IH|c cs out _ _ IH]; [constructor|by constructor|].
  apply sublist_inserts_l. by constructor.
Qed.

Lemma prefixed_Forall (P : char → Prop) cs out : Forall P DATA → prefixed cs out → Forall P cs → Forall P out.
Proof.
  intros HD. induction 1 as [|c cs out _ IH|c cs out _ _ IH]; [done|..]; intros [Hc Hcs]%Forall_cons.
  - constructor; auto.
  - apply Forall_app. split; [done|]. constructor; auto.
Qed.

(** ** What is adapted stays

    The first character of the output is that of the input, but for a prefix. *)
Lemma adapt_head props fuel prev q e cs out :
  adapt props fuel prev q e cs = Some out →
  match cs with
  | [] => out = []
  | c :: _ => ∃ out', out = c :: out' ∨ (out = [x64] :: out' ∧ starts_token c = true ∧ boundary prev = true)
  end.
Proof.
  destruct fuel as [|fuel]; [done|]. cbn [adapt]. destruct cs as [|c cs]; [by intros [= <-]|].
  assert (∀ e' q', (cons c <$> adapt props fuel (Some c) q' e' cs) = Some out → ∃ out', out = c :: out') as Hcons.
  { intros e' q'. destruct (adapt _ _ _ _ _ cs) as [o|]; [|done]. intros [= <-]. by exists o. }
  destruct e; [intros [o ->]%Hcons; exists o; by left|].
  destruct (same c BACKSLASH); [intros [o ->]%Hcons; exists o; by left|].
  destruct (same c QUOTE); [intros [o ->]%Hcons; exists o; by left|].
  destruct (negb q && starts_token c && boundary prev) eqn:Eb; [|intros [o ->]%Hcons; exists o; by left].
  apply andb_true_iff in Eb as [[_ Hc]%andb_true_iff Hp]. destruct (span (c :: cs)) as [t r] eqn:Es.
  destruct (starts_span _ _ _ _ Hc Es) as [_ Ht]. apply span_spec in Es as [Es _].
  destruct t as [|c' t]; [done|]. injection Es as <- Es.
  destruct (field_colon r) as [r'|]; destruct (adapt _ _ _ _ _ _) as [o|]; cbn; try done; intros [= <-].
  - destruct (should_prefix props (c :: t)); [eexists; by right|eexists; by left].
  - eexists; by left.
Qed.

Lemma adapt_head_colon props fuel prev q e cs out :
  adapt props fuel prev q e cs = Some out → head cs ≠ Some COLON → head out ≠ Some COLON.
Proof.
  intros E%adapt_head Hc. destruct cs as [|c cs]; [by subst out|].
  destruct E as [o [->|(-> & _)]]; done.
Qed.

Lemma data_chars : DATA = [[x64]; [x61]; [x74]; [x61]; [x2e]].
Proof. reflexivity. Qed.

Lemma data_tokens : forallb token_char DATA = true ∧ starts_token [x64] = true.
Proof.
  assert (∀ b, is_ascii b = true → byte_in 97 122 b = true → starts_token [b] = true) as Ha.
  { intros b Hb Hr. unfold starts_token. rewrite is_alphabetic_ascii by done. rewrite Hr. by rewrite orb_true_r. }
  split; [|by apply Ha]. rewrite data_chars. cbn [forallb].
  rewrite !(starts_token_char [_]) by by apply Ha. cbn. unfold token_char. by rewrite same_refl, orb_true_r.
Qed.

Lemma namespaced_stays props t : should_prefix props (DATA ++ t) = false.
Proof.
  unfold should_prefix, already_namespaced. rewrite take_app_length. by rewrite bool_decide_true.
Qed.

Lemma starts_not c : starts_token c = true → same c BACKSLASH = false ∧ same c QUOTE = false.
Proof.
  intros Hc%starts_token_char%token_char_not. destruct Hc as (_ & Hq & Hb).
  split; apply bool_decide_eq_false; done.
Qed.

(** One turn of the scanner at a token. *)
Lemma adapt_token props fuel prev c t r :
  starts_token c = true → boundary prev = true → forallb token_char t = true →
  match r with d :: _ => token_char d = false | [] => True end →
  adapt props (S fuel) prev false false (c :: t ++ r)
  = match field_colon r with
    | Some rest =>
        app ((if should_prefix props (c :: t) then DATA else []) ++ (c :: t) ++ [COLON])
          <$> adapt props fuel (Some COLON) false false rest
    | None => app (c :: t) <$> adapt props fuel (last (c :: t)) false false r
    end.
Proof.
  intros Hc Hp Ht Hr. cbn [adapt]. destruct (starts_not c Hc) as [-> ->]. rewrite Hc, Hp. cbn [negb andb].
  change (c :: t ++ r) with ((c :: t) ++ r). rewrite (span_app (c :: t) r); [done| |done].
  cbn. by rewrite (starts_token_char c Hc).
Qed.

(** A colon is passed on; two are no field's. *)
Lemma adapt_colon props fuel prev q cs out :
  adapt props fuel prev q false (COLON :: cs) = Some out →
  ∃ f o, out = COLON :: o ∧ adapt props f (Some COLON) q false cs = Some o.
Proof.
  destruct fuel as [|fuel]; [done|]. cbn [adapt].
  assert (starts_token COLON = false) as ->.
  { destruct (starts_token COLON) eqn:E; [|done]. apply starts_token_char in E. by rewrite token_not_colon in E. }
  rewrite andb_false_r. change (same COLON BACKSLASH) with false. change (same COLON QUOTE) with false. cbn.
  destruct (adapt _ _ _ _ _ cs) as [o|] eqn:E; [|done]. intros [= <-]. by exists fuel, o.
Qed.

Lemma field_colon_twice cs : field_colon (COLON :: cs) = None → ∃ cs', cs = COLON :: cs'.
Proof.
  cbn. destruct cs as [|d cs]; [done|]. destruct (same d COLON) eqn:E; [|done].
  apply same_true in E as ->. by exists cs.
Qed.

Lemma adapt_keeps_colons props fuel prev q cs o :
  field_colon (COLON :: cs) = None → adapt props fuel prev q false (COLON :: cs) = Some (COLON :: o) →
  head o = Some COLON.
Proof.
  intros [cs' ->]%field_colon_twice (f & o' & [= <-] & E)%adapt_colon.
  by apply adapt_colon in E as (? & ? & -> & _).
Qed.

Lemma adapt_stays props fuel : ∀ prev q e cs out fuel',
  adapt props fuel prev q e cs = Some out → (length out < fuel')%nat → adapt props fuel' prev q e out = Some out.
Proof.
  induction fuel as [|fuel IH]; intros prev q e cs out fuel'; [done|]. cbn [adapt].
  destruct cs as [|c cs]; [intros [= <-] Hf; by destruct fuel'; [lia|]|].
  assert (∀ q' e', (cons c <$> adapt props fuel (Some c) q' e' cs) = Some out → (length out < fuel')%nat →
    ∃ o f, out = c :: o ∧ fuel' = S f ∧ adapt props f (Some c) q' e' o = Some o) as Hcons.
  { intros q' e'. destruct (adapt _ _ _ _ _ cs) as [o|] eqn:E; [|done]. intros [= <-] Hf.
    destruct fuel' as [|f]; [lia|]. exists o, f. split; [done|]. split; [done|]. eapply IH; [exact E|].
    cbn [length] in Hf. lia. }
  destruct e; [intros E Hf; destruct (Hcons q false E Hf) as (o & f & -> & -> & Ho); cbn [adapt]; by rewrite Ho|].
  destruct (same c BACKSLASH) eqn:Ebs;
    [intros E Hf; destruct (Hcons q true E Hf) as (o & f & -> & -> & Ho); cbn [adapt]; by rewrite Ebs, Ho|].
  destruct (same c QUOTE) eqn:Eq;
    [intros E Hf; destruct (Hcons (negb q) false E Hf) as (o & f & -> & -> & Ho); cbn [adapt]; by rewrite Ebs, Eq, Ho|].
  destruct (negb q && starts_token c && boundary prev) eqn:Eb;
    [|intros E Hf; destruct (Hcons q false E Hf) as (o & f & -> & -> & Ho); cbn [adapt]; by rewrite Ebs, Eq, Eb, Ho].
  apply andb_true_iff in Eb as [[Hq Hc]%andb_true_iff Hp]. apply negb_true_iff in Hq as ->.
  destruct (span (c :: cs)) as [t r] eqn:Es. destruct (starts_span _ _ _ _ Hc Es) as [_ Hne].
  apply span_spec in Es as (Es & Ht & Hr). destruct t as [|c' t]; [done|]. injection Es as <- Es.
  apply andb_true_iff in Ht as [_ Ht].
  destruct (field_colon r) as [r'|] eqn:Ef; destruct (adapt props fuel _ _ _ _) as [o|] eqn:Eo; cbn -[DATA]; try done;
    intros [= <-] Hf.
  - apply field_colon_spec in Ef as [-> Hh]. pose proof (adapt_head_colon _ _ _ _ _ _ _ Eo Hh) as Hho.
    set (pre := if should_prefix props (c :: t) then DATA else []) in *.
    assert (∃ d ts, pre ++ (c :: t) = d :: ts ∧ starts_token d = true ∧ forallb token_char ts = true
                    ∧ should_prefix props (d :: ts) = false) as (d & ts & Ed & Hd & Hts & Hsp).
    { unfold pre. destruct (should_prefix props (c :: t)) eqn:Esp; [|by exists c, t].
      destruct data_tokens as [Hdt Hd]. exists [x64], (tail DATA ++ c :: t). split; [done|]. split; [done|].
      split; [|by apply (namespaced_stays props (c :: t))].
      rewrite forallb_app. rewrite data_chars in Hdt |- *. cbn [forallb tail] in *.
      apply andb_true_iff in Hdt as [_ Hdt]. rewrite Hdt. cbn. by rewrite (starts_token_char c Hc). }
    assert ((pre ++ c :: t ++ [COLON]) ++ o = d :: ts ++ COLON :: o) as Eout.
    { transitivity ((pre ++ (c :: t)) ++ COLON :: o); [|by rewrite Ed].
      rewrite <- !(app_assoc pre). f_equal. cbn. by rewrite <- app_assoc. }
    rewrite Eout in Hf |- *. destruct fuel' as [|f]; [lia|].
    rewrite (adapt_token props f prev d ts (COLON :: o) Hd Hp Hts token_not_colon), field_colon_here by done.
    rewrite (IH _ _ _ _ _ f Eo); [|cbn [length] in Hf; rewrite length_app in Hf; cbn [length] in Hf; lia].
    cbn. rewrite Hsp. cbn. by rewrite <- app_assoc.
  - assert (match o with d :: _ => token_char d = false | [] => True end) as Hro.
    { pose proof (adapt_head _ _ _ _ _ _ _ Eo) as Hh. destruct r as [|x r]; [by subst o|].
      destruct Hh as [o' [->|(-> & Hx & _)]]; [done|]. apply starts_token_char in Hx. congruence. }
    assert (field_colon o = None) as Hfo.
    { destruct (field_colon o) as [o'|] eqn:E; [|done]. exfalso. apply field_colon_spec in E as [-> Hho].
      pose proof (adapt_head _ _ _ _ _ _ _ Eo) as Hh. destruct r as [|x r]; [done|].
      assert (x = COLON) as ->. { destruct Hh as [o2 [E|(E & _)]]; [by injection E|discriminate E]. }
      by pose proof (adapt_keeps_colons _ _ _ _ _ _ Ef Eo). }
    destruct fuel' as [|f]; [lia|]. rewrite (adapt_token props f prev c t o Hc Hp Ht Hro), Hfo.
    rewrite (IH _ _ _ _ _ f Eo); [done|]. cbn [length] in Hf. rewrite length_app in Hf. lia.
Qed.
(** ** Whole queries *)

Lemma adapted_chars props query out :
  str_ok query = true → adapt_tantivy_query query props = Some out → COLON ∈ chars (as_bytes query) →
  adapt_chars props (chars (as_bytes query)) = Some (chars (as_bytes out)) ∧ prefixed (chars (as_bytes query)) (chars (as_bytes out)).
Proof.
  unfold adapt_tantivy_query. intros Ht%str_ok_starts E Hc. rewrite bool_decide_true in E by done.
  destruct (adapt_chars props _) as [o|] eqn:Eo; [|done]. injection E as <-.
  assert (prefixed (chars (as_bytes query)) o) as Hp by by eapply adapt_prefixed.
  rewrite as_bytes_of_bytes, chars_unchars; [done|].
  eapply prefixed_Forall; [|exact Hp|by apply chars_are_chars]. rewrite data_chars. by repeat constructor.
Qed.

Lemma adapt_tantivy_query_total props query : ∃ out, adapt_tantivy_query query props = Some out.
Proof.
  unfold adapt_tantivy_query, adapt_chars. case_bool_decide; [|by eexists].
  destruct (adapt_total props (S (length (chars (as_bytes query)))) None false false (chars (as_bytes query)))
    as [o ->]; [lia|by eexists].
Qed.

(** ** What the scanner promises, position by position

    Nothing here runs ahead: each character is judged by the text before it, and by the
    token and the colon that begin with it. *)

(** Inside of quotes, and behind a backslash. *)
Definition lexical_step (st : bool * bool) (c : char) : bool * bool :=
  let '(quoted, escaped) := st in
  if escaped then (quoted, false)
  else if decide (c = BACKSLASH) then (quoted, true)
  else if decide (c = QUOTE) then (negb quoted, false)
  else (quoted, false).
Definition lexical (pre : list char) : bool * bool := foldl lexical_step (false, false) pre.

Definition lower (t : list char) : string := to_ascii_lowercase (of_bytes (unchars t)).

(** The characters of words and of tokens, and those a field begins with. *)
Definition in_word (c : char) : Prop := is_alphanumeric c = true ∨ c = UNDERSCORE.
Definition in_token (c : char) : Prop := in_word c ∨ c = DOT.
Definition begins_field (c : char) : Prop := is_alphabetic c = true ∨ c = UNDERSCORE.

(** A token that is to be found under [data.]: it is not yet, and it is one of the properties,
    whatever its case; when none are given, a word without dots. *)
Definition names_field (properties : list string) (token : list char) : Prop :=
  ¬ (DATA `prefix_of` token) ∧
  match properties with
  | [] => Forall in_word token
  | _ => ∃ p, p ∈ properties ∧ to_ascii_lowercase p = lower token
  end.

(** Behind [pre] the text [cs] begins with such a field and its colon. *)
Definition field_at (properties : list string) (pre cs : list char) : Prop :=
  lexical pre = (false, false) ∧
  (∀ p, last pre = Some p → ¬ in_token p) ∧
  ∃ token rest, cs = token ++ COLON :: rest ∧ head rest ≠ Some COLON ∧
    (∃ c, head token = Some c ∧ begins_field c) ∧
    Forall in_token token ∧ names_field properties token.

(** Each field gets the prefix, and nothing else is changed. *)
Inductive adapts_to (properties : list string) : list char → list char → list char → Prop :=
| adapts_end pre : adapts_to properties pre [] []
| adapts_field pre c cs out :
    field_at properties pre (c :: cs) → adapts_to properties (pre ++ [c]) cs out →
    adapts_to properties pre (c :: cs) (DATA ++ c :: out)
| adapts_keep pre c cs out :
    ¬ field_at properties pre (c :: cs) → adapts_to properties (pre ++ [c]) cs out →
    adapts_to properties pre (c :: cs) (c :: out).

Lemma word_char_spec c : word_char c = true ↔ in_word c.
Proof. unfold word_char, in_word. by rewrite orb_true_iff, same_true. Qed.
Lemma token_char_spec c : token_char c = true ↔ in_token c.
Proof. unfold token_char, in_token. by rewrite orb_true_iff, same_true, word_char_spec. Qed.
Lemma starts_token_spec c : starts_token c = true ↔ begins_field c.
Proof. unfold starts_token, begins_field. by rewrite orb_true_iff, same_true. Qed.
Lemma in_token_all t : Forall in_token t ↔ forallb token_char t = true.
Proof.
  rewrite Forall_forall, forallb_forall. setoid_rewrite list_elem_of_In. by setoid_rewrite token_char_spec.
Qed.

Lemma lexical_snoc pre c : lexical (pre ++ [c]) = lexical_step (lexical pre) c.
Proof. unfold lexical. by rewrite foldl_app. Qed.

Lemma token_char_step st c : token_char c = true → st.2 = false → lexical_step st c = st.
Proof.
  intros (_ & Hq & Hb)%token_char_not. destruct st as [q e]. cbn. intros ->. by rewrite !decide_False.
Qed.

Lemma should_prefix_spec props c t :
  should_prefix props (c :: t) = true ↔ names_field props (c :: t).
Proof.
  unfold should_prefix, names_field, already_namespaced.
  assert (take (length DATA) (c :: t) = DATA ↔ DATA `prefix_of` (c :: t)) as <-.
  { split; [intros <-; apply prefix_take|intros [k ->]; apply take_app_length]. }
  case_bool_decide as Hd; [naive_solver|].
  destruct props as [|p props].
  - rewrite (bool_decide_eq_false_2 (c :: t = [])) by done. cbn [negb andb].
    rewrite forallb_forall, Forall_forall. setoid_rewrite list_elem_of_In. setoid_rewrite word_char_spec. naive_solver.
  - rewrite bool_decide_eq_true. unfold lower. split.
    + intros (q & Hq & Hin)%list_elem_of_In%in_map_iff. split; [done|]. exists q. by rewrite list_elem_of_In.
    + intros [_ (q & Hin & Hq)]. apply list_elem_of_In, in_map_iff. exists q. by rewrite <- list_elem_of_In.
Qed.

(** The token at the head of a text is its longest run of token characters. *)
Lemma field_at_here props pre c t r :
  forallb token_char (c :: t) = true → match r with d :: _ => token_char d = false | [] => True end →
  starts_token c = true → lexical pre = (false, false) → boundary (last pre) = true →
  field_at props pre ((c :: t) ++ r)
  ↔ ∃ r', field_colon r = Some r' ∧ should_prefix props (c :: t) = true.
Proof.
  intros Ht Hr Hc Hl Hb. setoid_rewrite should_prefix_spec. split.
  - intros (_ & _ & token & rest & E & Hrest & _ & Htok & Hn).
    assert (span ((c :: t) ++ r) = (c :: t, r)) as Hs1 by by apply span_app.
    assert (span (token ++ COLON :: rest) = (token, COLON :: rest)) as Hs2
      by (apply span_app; [by apply in_token_all|apply token_not_colon]).
    rewrite E, Hs2 in Hs1. injection Hs1 as -> <-. exists rest. split; [by apply field_colon_here|done].
  - intros (r' & [-> Hr']%field_colon_spec & Hn). split; [done|]. split.
    { intros p Hp Hin%token_char_spec. rewrite Hp in Hb. cbn in Hb. by rewrite Hin in Hb. }
    exists (c :: t), r'. split; [done|]. split; [done|]. split; [exists c; by rewrite <- starts_token_spec|].
    split; [by apply in_token_all|done].
Qed.

Lemma field_at_head props pre c cs :
  field_at props pre (c :: cs) →
  lexical pre = (false, false) ∧ boundary (last pre) = true ∧ starts_token c = true.
Proof.
  intros (Hl & Hp & token & rest & E & _ & (d & Hd & Hs%starts_token_spec) & _ & _). split; [done|].
  destruct token as [|d' token]; [done|]. injection Hd as ->. injection E as -> _.
  split; [|done]. destruct (last pre) as [p|]; [|done]. cbn. specialize (Hp p eq_refl).
  rewrite <- token_char_spec in Hp. by destruct (token_char p).
Qed.

Lemma not_field_inside props pre p c cs :
  last pre = Some p → token_char p = true → ¬ field_at props pre (c :: cs).
Proof. intros Hp Ht%token_char_spec (_ & Hb & _). by apply (Hb p Hp). Qed.

(** The rest of a token is kept. *)
Lemma adapts_run props t : ∀ pre p r out,
  last pre = Some p → token_char p = true → forallb token_char t = true →
  adapts_to props (pre ++ t) r out → adapts_to props pre (t ++ r) (t ++ out).
Proof.
  induction t as [|c t IH]; intros pre p r out Hp Hpt Ht Hr; [by rewrite app_nil_r in Hr|].
  apply andb_true_iff in Ht as [Hc Ht]. apply adapts_keep; [by eapply not_field_inside|].
  apply (IH _ c); [by rewrite last_snoc|done|done|]. by rewrite <- app_assoc.
Qed.

Lemma lexical_run t : ∀ pre,
  lexical pre = (false, false) → forallb token_char t = true → lexical (pre ++ t) = (false, false).
Proof.
  induction t as [|c t IH]; intros pre Hp Ht; [by rewrite app_nil_r|]. apply andb_true_iff in Ht as [Hc Ht].
  change (c :: t) with ([c] ++ t). rewrite app_assoc. apply IH; [|done].
  rewrite lexical_snoc, token_char_step by (done || by rewrite Hp). done.
Qed.

Lemma last_run (pre t : list char) c : last (pre ++ c :: t) = last (c :: t).
Proof. by rewrite last_app_cons. Qed.

Lemma adapt_adapts props fuel : ∀ pre q e cs out,
  lexical pre = (q, e) → adapt props fuel (last pre) q e cs = Some out → adapts_to props pre cs out.
Proof.
  induction fuel as [|fuel IH]; intros pre q e cs out Hl; [done|]. cbn [adapt].
  destruct cs as [|c cs]; [intros [= <-]; constructor|].
  assert (∀ q' e', lexical_step (q, e) c = (q', e') → ¬ field_at props pre (c :: cs) →
    (cons c <$> adapt props fuel (Some c) q' e' cs) = Some out → adapts_to props pre (c :: cs) out) as Hcons.
  { intros q' e' Hst Hno. destruct (adapt _ _ _ _ _ cs) as [o|] eqn:E; [|done]. intros [= <-].
    apply adapts_keep; [done|]. apply (IH _ q' e'); [by rewrite lexical_snoc, Hl|by rewrite last_snoc]. }
  pose proof (field_at_head props pre c cs) as Hhead. rewrite Hl in Hhead.
  destruct e; [by apply Hcons; [|naive_solver]|].
  destruct (same c BACKSLASH) eqn:Eb.
  { apply same_true in Eb as ->. apply Hcons; [cbn; by rewrite decide_True|].
    intros (_ & _ & Hs)%Hhead. by apply starts_not in Hs as [? _]. }
  destruct (same c QUOTE) eqn:Eq.
  { apply same_true in Eq as ->. apply Hcons; [cbn; by rewrite decide_False, decide_True|].
    intros (_ & _ & Hs)%Hhead. by apply starts_not in Hs as [_ ?]. }
  assert (lexical_step (q, false) c = (q, false)) as Hst.
  { cbn. apply bool_decide_eq_false in Eb, Eq. by rewrite !decide_False. }
  destruct (negb q && starts_token c && boundary (last pre)) eqn:Et.
  2:{ apply Hcons; [done|]. intros ([= ->] & Hb & Hs)%Hhead. by rewrite Hb, Hs in Et. }
  apply andb_true_iff in Et as [[Hq%negb_true_iff Hc]%andb_true_iff Hb]. subst q.
  destruct (span (c :: cs)) as [t r] eqn:Es.
  destruct (starts_span _ _ _ _ Hc Es) as [_ Hne]. apply span_spec in Es as (Es & Ht & Hr).
  destruct t as [|c' t]; [done|]. injection Es as <- Es. subst cs.
  pose proof (field_at_here props pre c t r Ht Hr Hc Hl Hb) as Hhere.
  pose proof (lexical_run (c :: t) pre Hl Ht) as Hlt. apply andb_true_iff in Ht as [Hct Htt].
  assert (∀ rest o, adapts_to props (pre ++ c :: t) rest o → adapts_to props (pre ++ [c]) (t ++ rest) (t ++ o)) as Hrun.
  { intros rest o Ho. apply (adapts_run _ _ _ c); [by rewrite last_snoc|done|done|]. by rewrite <- app_assoc. }
  change ((c :: t) ++ r) with (c :: t ++ r) in Hhere.
  destruct (field_colon r) as [r'|] eqn:Ef.
  - destruct (adapt props fuel (Some COLON) _ _ r') as [o|] eqn:Eo; cbn -[DATA]; [|done]. intros [= <-].
    apply field_colon_spec in Ef as [-> Hh].
    assert (adapts_to props ((pre ++ c :: t) ++ [COLON]) r' o) as Ho.
    { apply (IH _ false false); [|by rewrite last_snoc]. by rewrite lexical_snoc, Hlt. }
    assert (adapts_to props (pre ++ c :: t) (COLON :: r') (COLON :: o)) as Hcol.
    { apply adapts_keep; [|done]. intros (_ & _ & Hs)%field_at_head. apply starts_token_char in Hs. by rewrite token_not_colon in Hs. }
    apply Hrun in Hcol. rewrite <- app_assoc.
    replace ((c :: t ++ [COLON]) ++ o) with (c :: t ++ COLON :: o) by (cbn; by rewrite <- app_assoc).
    destruct (should_prefix props (c :: t)) eqn:Esp.
    + apply adapts_field; [|done]. apply Hhere. by exists r'.
    + apply adapts_keep; [|done]. by intros (? & _ & ?)%Hhere.
  - destruct (adapt props fuel _ _ _ r) as [o|] eqn:Eo; cbn -[DATA]; [|done]. intros [= <-].
    apply adapts_keep; [by intros (? & ? & _)%Hhere|]. apply Hrun. apply (IH _ false false); [done|].
    by rewrite last_run.
Qed.

(** Without a colon there is no field. *)
Lemma adapts_without_colon props cs : ∀ pre, COLON ∉ cs → adapts_to props pre cs cs.
Proof.
  induction cs as [|c cs IH]; intros pre Hc; [constructor|]. apply adapts_keep; [|apply IH; set_solver].
  intros (_ & _ & token & rest & E & _). apply Hc. rewrite E. set_solver.
Qed.

(** C37: The adaptation of a query for Memgraph ends for every text.  Each character stays, in
    order; the prefix [data.] is put exactly before the fields: outside of quotes and of
    escapes, behind no character of a token, the whole token before a single colon, when the
    token begins with a letter or an underscore, has no [data.] yet and is one of the properties
    in any case (a word without dots, if no properties are given).  The result is settled: it
    is adapted, with the same properties, to itself. *)
Theorem fulltext_query_settles props query :
  str_ok query = true →
  ∃ out, adapt_tantivy_query query props = Some out ∧
         adapts_to props [] (chars (as_bytes query)) (chars (as_bytes out)) ∧
         adapt_tantivy_query out props = Some out.
Proof.
  intros Ht. destruct (decide (COLON ∈ chars (as_bytes query))) as [Hc|Hc].
  - destruct (adapt_tantivy_query_total props query) as [out E].
    destruct (adapted_chars props query out Ht E Hc) as [Ea Hp]. exists out. split; [done|].
    split; [by eapply (adapt_adapts _ _ [])|].
    unfold adapt_tantivy_query. rewrite bool_decide_true by (eapply sublist_subseteq; [by apply prefixed_sublist|done]).
    unfold adapt_chars in *. rewrite (adapt_stays _ _ _ _ _ _ _ (S (length (chars (as_bytes out)))) Ea) by lia.
    cbn. by rewrite unchars_chars, of_bytes_as_bytes.
  - assert (adapt_tantivy_query query props = Some query) as E.
    { unfold adapt_tantivy_query. by rewrite bool_decide_false. }
    exists query. split; [done|]. split; [by apply adapts_without_colon|done].
Qed.

(** Without a colon the query is a search of everything, as it is. *)
Lemma plain_query_is_kept props query : COLON ∉ chars (as_bytes query) → adapt_tantivy_query query props = Some query.
Proof. intros Hc. unfold adapt_tantivy_query. by rewrite bool_decide_false. Qed.

(** Every search resolves; only Memgraph reads the text of the query, and only FalkorDB is given
    the label instead of the index. *)
Lemma search_resolves d rel target falkor query props :
  ∃ r, resolve_fulltext_search d rel target falkor query props = Some r ∧
       target_argument r = match d with DD_FalkorDb => falkor | _ => target end ∧
       (d ≠ DD_Memgraph → query_string r = query).
Proof.
  destruct (adapt_tantivy_query_total props query) as [out E].
  assert (∃ q, (if bool_decide (COLON ∈ chars (as_bytes query)) then adapt_tantivy_query query props else Some query) = Some q)
    as [q Eq] by (case_bool_decide; eauto).
  destruct d; cbn [resolve_fulltext_search]; rewrite ?Eq; destruct rel; (eexists; split; [reflexivity|]); done.
Qed.
End adapt_spec.

(** ** The ASCII restriction *)
#[local] Existing Instance ascii_CharClass.

#[local] Instance ascii_Alphabetic : Alphabetic.
Proof.
  refine {| is_alphabetic c := match c with [b] => byte_in 65 90 b || byte_in 97 122 b | _ => false end |}.
  - by intros.
  - intros [|b [|? ?]]; [done| |done]. cbn. intros [-> | ->]%orb_true_iff; by rewrite ?orb_true_r.
Defined.

Example adapts_a_field : adapt_tantivy_query "title:Rust AND body:x" [] = Some "data.title:Rust AND data.body:x".
Proof. vm_compute. reflexivity. Qed.
Example keeps_quotes_and_escapes :
  adapt_tantivy_query "x\:1 data.title:y a::b rank:2" ["title"] = Some "x\:1 data.title:y a::b rank:2".
Proof. vm_compute. reflexivity. Qed.

Lemma fulltext_query_settles_witness :
  ∃ out, adapt_tantivy_query "title:Rust" ["Title"] = Some out ∧
         adapts_to ["Title"] [] (chars (as_bytes "title:Rust")) (chars (as_bytes out)) ∧
         adapt_tantivy_query out ["Title"] = Some out.
Proof. apply (fulltext_query_settles ["Title"] "title:Rust"). vm_compute. reflexivity. Defined.
