(* ===== verification/TopologyParity.v ===== *)
(** * The two topologies of a chain are one

    The topology that is read out of the compiled text of a chain of patterns is the topology
    that is extracted from the chain itself: builder, emitter, text parser and walk agree. *)
From S2P Require Import Prelude Bytes F64 Errors Ast Text Label LabelText Emit Dialects Builder Queries BTree Resp Levenshtein Topology TopologySafe QueryText TopologyText TopologyTextSafe.

Open Scope Z_scope.
Open Scope string_scope.
Open Scope list_scope.

(** ** Names *)
Definition word_byte (b : byte) : bool := is_ascii_alphanumeric b || bool_decide (b = x5f).
(** A byte of a node's or an edge's text between its brackets. *)
Definition body_byte (b : byte) : bool := word_byte b || bool_decide (b = x3a) || bool_decide (b = x7c).
Definition marks : list byte :=
  [x20; x21; x22; x26; x27; x28; x29; x2a; x2c; x2d; x2e; x2f; x3c; x3d; x3e; x5b; x5d; x60; x7b; x7d].

Lemma body_byte_plain b : body_byte b = true → is_ascii b = true ∧ (byte_in 9 13 b || byte_in 32 32 b) = false ∧ b ∉ marks.
Proof.
  intros Hb. assert (is_ascii b && negb (byte_in 9 13 b || byte_in 32 32 b) && negb (bool_decide (b ∈ marks)) = true) as Ht.
  { destruct b; first [discriminate Hb|reflexivity]. }
  apply andb_true_iff in Ht as [[Ha Hw%negb_true_iff]%andb_true_iff Hm%negb_true_iff].
  split; [done|]. split; [done|]. by apply bool_decide_eq_false in Hm.
Qed.
Lemma word_byte_plain b : word_byte b = true → body_byte b = true ∧ b ≠ x3a ∧ b ≠ x7c.
Proof. intros Hb. split; [unfold body_byte; by rewrite Hb|]. split; intros ->; discriminate Hb. Qed.

(** Letters, digits and underscores, and no operator of label expressions. *)
Definition name (s : string) : Prop :=
  s ≠ "" ∧ Forall (λ b, word_byte b = true) (as_bytes s) ∧ keyword_or_ident s = TIdent s.
Definition body (l : list byte) : Prop := Forall (λ b, body_byte b = true) l.

Lemma name_body s : name s → body (as_bytes s).
Proof. intros (_ & Hs & _). eapply Forall_impl; [exact Hs|]. intros b Hb. by apply word_byte_plain. Qed.
Lemma name_bytes s : name s → as_bytes s ≠ [].
Proof. intros (Hs & _) E. apply Hs. rewrite <- (of_bytes_as_bytes s), E. done. Qed.

Lemma body_ascii l : body l → ascii l.
Proof. intros Hl. eapply Forall_impl; [exact Hl|]. intros b Hb. by apply body_byte_plain. Qed.

Lemma body_without b l : body l → b ∈ marks → b ∉ l.
Proof. intros Hl Hb Hin. unfold body in Hl. rewrite Forall_forall in Hl. by apply (body_byte_plain b (Hl b Hin)). Qed.

(** ** Searches that find nothing *)
Lemma find_sub_absent b pat l : b ∉ l → find_sub (b :: pat) l = None.
Proof.
  induction l as [|c l IH]; intros Hb; [done|]. cbn [find_sub]. apply not_elem_of_cons in Hb as [Hbc Hb].
  unfold begins. rewrite bool_decide_false by (cbn; congruence). by rewrite IH.
Qed.

Lemma contains_absent b l : b ∉ l → contains b l = false.
Proof. apply bool_decide_false. Qed.

Lemma split_at_none f l : Forall (λ b, f b = false) l → split_at f l = [l].
Proof. induction 1 as [|b l Hb _ IH]; [done|]. cbn [split_at]. by rewrite Hb, IH. Qed.
Lemma split_at_sep f b l k :
  Forall (λ b, f b = false) l → f b = true → split_at f (l ++ b :: k) = l :: split_at f k.
Proof. intros Hl Hb. induction Hl as [|c l Hc _ IH]; cbn [split_at app]; [by rewrite Hb|]. by rewrite Hc, IH. Qed.

Section trims.
Context `{CharClass}.

Lemma trim_start_blank cs : Forall (λ c, is_whitespace c = false) cs → trim_start cs = cs.
Proof. destruct 1 as [|c cs Hc _]; [done|]. cbn. by rewrite Hc. Qed.

Lemma trim_chars_blank cs : Forall (λ c, is_whitespace c = false) cs → trim_chars cs = cs.
Proof.
  intros Hcs. unfold trim_chars. rewrite (trim_start_blank cs) by done.
  rewrite trim_start_blank by by apply Forall_reverse. apply reverse_involutive.
Qed.

Lemma trim_bytes_blank l :
  Forall (λ b, is_ascii b = true ∧ (byte_in 9 13 b || byte_in 32 32 b) = false) l → trim_bytes l = l.
Proof.
  intros Hl. unfold trim_bytes, trim. rewrite !as_bytes_of_bytes.
  assert (ascii l) as Ha by (eapply Forall_impl; [exact Hl|naive_solver]).
  rewrite trim_chars_blank; [by rewrite unchars_chars|]. rewrite chars_ascii by done.
  change (map (λ b, [b]) l) with ((λ b, [b]) <$> l). apply Forall_fmap. eapply Forall_impl; [exact Hl|].
  intros b [Hb Hw]. cbn. by rewrite is_whitespace_ascii.
Qed.

Lemma trim_body l : body l → trim_bytes l = l.
Proof. intros Hl. apply trim_bytes_blank. eapply Forall_impl; [exact Hl|]. intros b Hb. by destruct (body_byte_plain b Hb) as (? & ? & _). Qed.

Lemma trim_matches_none b l : b ∉ l → trim_matches b l = l.
Proof.
  intros Hb. unfold trim_matches, trim_end_bytes.
  assert (∀ l, b ∉ l → trim_start_bytes (is_byte b) l = l) as Hs.
  { clear. intros [|c l] Hb; [done|]. cbn. unfold is_byte. rewrite bool_decide_false; [done|]. set_solver. }
  rewrite (Hs l) by done. rewrite Hs by set_solver. apply reverse_involutive.
Qed.

(** ** Label expressions of names *)
Lemma name_plain s : name s → plain s = true.
Proof.
  intros (Hs & Hw & Hk). unfold plain. rewrite (bool_decide_true _ Hk), (bool_decide_true _ Hs), !andb_true_r.
  assert (ascii (as_bytes s)) as Ha by (by apply body_ascii, name_body).
  apply andb_true_iff. split.
  - unfold str_ok. apply utf8_valid_ascii. apply forallb_forall. intros b Hb%list_elem_of_In.
    by apply (proj1 (Forall_forall _ _) Ha).
  - unfold cs. rewrite chars_ascii by done. apply forallb_forall. intros c (b & <- & Hb%list_elem_of_In)%in_map_iff.
    unfold ascii in Ha. rewrite Forall_forall in Hw, Ha. specialize (Hw b Hb). specialize (Ha b Hb). rewrite ident_char_ascii by done.
    unfold word_byte, is_ascii_alphanumeric in Hw. apply orb_true_iff in Hw as [-> |Hw]; [done|].
    apply bool_decide_eq_true in Hw as ->. done.
Qed.

Lemma parse_heuristic_name s : name s → parse_heuristic s = LabelName s.
Proof.
  intros Hs. unfold parse_heuristic.
  assert (trim s = s) as ->.
  { apply as_bytes_inj. pose proof (trim_body (as_bytes s) (name_body s Hs)) as E. unfold trim_bytes in E.
    by rewrite of_bytes_as_bytes in E. }
  destruct (decide (s = "")); [by destruct Hs|]. by rewrite (label_parse_plain s (name_plain s Hs)).
Qed.

(** The expression of a list of names: its names are the list, whatever joins them. *)
Lemma joined_names (node : LabelExpression → LabelExpression → LabelExpression)
    (collect : LabelExpression → list string → list string) (simple : LabelExpression → bool) names :
  (∀ l r acc, collect (node l r) acc = collect r (collect l acc)) →
  (∀ s acc, s ∉ acc → collect (LabelName s) acc = acc ++ [s]) →
  (∀ l r, simple (node l r) = simple l && simple r) → (∀ s, simple (LabelName s) = true) →
  Forall name names → ∀ e acc, simple e = true → NoDup (collect e acc ++ names) →
  collect (foldl (λ e s, node e (parse_heuristic s)) e names) acc = collect e acc ++ names ∧
  simple (foldl (λ e s, node e (parse_heuristic s)) e names) = true.
Proof.
  intros Hc Hn Hs Hsn. induction 1 as [|s names Hname _ IH]; intros e acc He Hnd; cbn [foldl]; [by rewrite app_nil_r|].
  assert (collect (node e (LabelName s)) acc = collect e acc ++ [s]) as Hstep.
  { rewrite Hc. apply Hn. apply NoDup_app in Hnd as (_ & Hnd & _). intros Hin. apply (Hnd s Hin). by left. }
  rewrite parse_heuristic_name by done. destruct (IH (node e (LabelName s)) acc) as [H1 H2].
  - by rewrite Hs, He, Hsn.
  - by rewrite Hstep, <- app_assoc.
  - rewrite H1, Hstep, <- app_assoc. done.
Qed.

Lemma push_new_fresh s acc : s ∉ acc → push_new s acc = acc ++ [s].
Proof. intros Hs. unfold push_new. by rewrite decide_False. Qed.

Lemma from_labels_names labels :
  Forall name labels → NoDup labels →
  labels_of (from_labels labels) = labels ∧
  emit_cypher_node_labels (from_labels labels) = String.concat "" (map (λ l, ":" +:+ l) labels).
Proof.
  intros Hl Hn. destruct labels as [|l labels]; [done|]. apply Forall_cons in Hl as [Hl Hls].
  unfold from_labels. rewrite parse_heuristic_name by done.
  destruct (joined_names LabelAnd collect_labels_into is_simple_conjunction labels) with (e := LabelName l) (acc := @nil string)
    as [H1 _]; try done; [intros; by apply push_new_fresh|].
  destruct (joined_names LabelAnd collect_conjunction_labels is_simple_conjunction labels) with (e := LabelName l) (acc := @nil string)
    as [H2 H3]; try done.
  split; [exact H1|]. unfold emit_cypher_node_labels, to_conjunction_labels. by rewrite H3, H2.
Qed.

Lemma from_edge_types_names types :
  Forall name types → NoDup types →
  labels_of (from_edge_types types) = types ∧
  emit_cypher_edge_labels (from_edge_types types) = match types with [] => "" | _ => ":" +:+ join "|" types end.
Proof.
  intros Hl Hn. destruct types as [|l types]; [done|]. apply Forall_cons in Hl as [Hl Hls].
  unfold from_edge_types. rewrite parse_heuristic_name by done.
  destruct (joined_names LabelOr collect_labels_into is_simple_disjunction types) with (e := LabelName l) (acc := @nil string)
    as [H1 _]; try done; [intros; by apply push_new_fresh|].
  destruct (joined_names LabelOr collect_disjunction_labels is_simple_disjunction types) with (e := LabelName l) (acc := @nil string)
    as [H2 H3]; try done.
  split; [exact H1|]. unfold emit_cypher_edge_labels, to_disjunction_labels. by rewrite H3, H2.
Qed.
End trims.

(** ** The bytes of nodes and edges *)
Definition separated_bytes (b : byte) (names : list string) : list byte := flat_map (λ s, b :: as_bytes s) names.
Definition types_bytes (types : list string) : list byte :=
  match types with [] => [] | t :: ts => x3a :: as_bytes t ++ separated_bytes x7c ts end.
Definition node_bytes (v : option string) (labels : list string) : list byte :=
  as_bytes (default "" v) ++ separated_bytes x3a labels.
Definition edge_bytes (v : option string) (types : list string) : list byte :=
  as_bytes (default "" v) ++ types_bytes types.

Definition name_opt (v : option string) : Prop := match v with Some s => name s | None => True end.

Lemma separated_body b names : body_byte b = true → Forall name names → body (separated_bytes b names).
Proof.
  intros Hb. induction 1 as [|s names Hs _ IH]; [constructor|]. constructor; [done|]. apply Forall_app. split; [by apply name_body|done].
Qed.
Lemma default_body v : name_opt v → body (as_bytes (default "" v)).
Proof. destruct v; [apply name_body|constructor]. Qed.
Lemma node_body v labels : name_opt v → Forall name labels → body (node_bytes v labels).
Proof. intros Hv Hl. apply Forall_app. split; [by apply default_body|by apply separated_body]. Qed.
Lemma edge_body v types : name_opt v → Forall name types → body (edge_bytes v types).
Proof.
  intros Hv Ht. apply Forall_app. split; [by apply default_body|]. destruct Ht as [|t ts Ht Hts]; [constructor|].
  constructor; [done|]. apply Forall_app. split; [by apply name_body|by apply separated_body].
Qed.

(** No name has a separator. *)
Lemma name_separators f s : (∀ b, word_byte b = true → f b = false) → name s → Forall (λ b, f b = false) (as_bytes s).
Proof. intros Hf (_ & Hs & _). eapply Forall_impl; [exact Hs|]. auto. Qed.
Lemma default_separators f v :
  (∀ b, word_byte b = true → f b = false) → name_opt v → Forall (λ b, f b = false) (as_bytes (default "" v)).
Proof. destruct v; [apply name_separators|constructor]. Qed.

Lemma split_separated f b l names :
  f b = true → (∀ c, word_byte c = true → f c = false) → Forall name names → Forall (λ c, f c = false) l →
  split_at f (l ++ separated_bytes b names) = l :: (as_bytes <$> names).
Proof.
  intros Hb Hw Hn. revert l. induction Hn as [|s names Hs _ IH]; intros l Hl.
  - unfold separated_bytes. cbn. rewrite app_nil_r. by apply split_at_none.
  - change (separated_bytes b (s :: names)) with (b :: as_bytes s ++ separated_bytes b names).
    rewrite split_at_sep by done. cbn [fmap list_fmap]. f_equal. apply IH. by apply name_separators.
Qed.

Lemma word_colon b : word_byte b = true → is_byte x3a b = false.
Proof. intros Hb. unfold is_byte. apply bool_decide_false. by apply word_byte_plain. Qed.
Lemma word_bar b : word_byte b = true → is_byte x7c b = false.
Proof. intros Hb. unfold is_byte. apply bool_decide_false. by apply word_byte_plain. Qed.
Lemma word_label_separator b : word_byte b = true → is_byte x26 b || is_byte x7c b = false.
Proof.
  intros Hb. rewrite word_bar, orb_false_r by done. unfold is_byte. apply bool_decide_false. intros ->. discriminate Hb.
Qed.

Section identifiers.
Context `{CharClass}.

Lemma trimmed_name s : name s → trim_matches x60 (trim_bytes (as_bytes s)) = as_bytes s.
Proof.
  intros Hs%name_body. rewrite trim_body by done. apply trim_matches_none, body_without; [done|]. unfold marks. set_solver.
Qed.

Lemma variable_of_name v : name_opt v → variable_of (as_bytes (default "" v)) = v.
Proof.
  unfold variable_of. destruct v as [s|]; cbn [default name_opt]; [|done]. intros Hs. rewrite trim_body by by apply name_body.
  rewrite bool_decide_false by by apply name_bytes. rewrite trim_matches_none; [by rewrite of_bytes_as_bytes|].
  apply body_without; [by apply name_body|]. unfold marks. set_solver.
Qed.

Lemma names_of_names keep sep parts names :
  flat_map (split_at sep) parts = as_bytes <$> names → Forall name names → (∀ s, name s → keep (as_bytes s) = true) →
  names_of keep sep parts = names.
Proof.
  intros Hparts Hn Hk. unfold names_of.
  assert (∀ (f : list byte → list byte) parts, flat_map (λ p, f <$> split_at sep p) parts = f <$> flat_map (split_at sep) parts) as Hf.
  { clear. intros f parts. induction parts as [|q parts IH]; [done|]. cbn [flat_map]. by rewrite fmap_app, IH. }
  rewrite Hf, Hparts. clear parts Hparts Hf. induction Hn as [|s names Hs _ IH]; [done|]. cbn [fmap list_fmap List.filter].
  rewrite trimmed_name, (Hk s Hs) by done. cbn [fmap list_fmap]. rewrite of_bytes_as_bytes. f_equal. exact IH.
Qed.

Lemma is_label_name s : name s → is_label (as_bytes s) = true.
Proof.
  intros Hs. unfold is_label. rewrite bool_decide_false by by apply name_bytes. cbn [negb andb]. apply negb_true_iff.
  unfold begins. apply bool_decide_false. pose proof (body_without x21 _ (name_body s Hs) ltac:(unfold marks; set_solver)) as Hb.
  destruct (as_bytes s) as [|b l]; [done|]. cbn. intros [= ->]. apply Hb. by left.
Qed.
Lemma is_type_name s : name s → is_type (as_bytes s) = true.
Proof. intros Hs. unfold is_type. by rewrite bool_decide_false by by apply name_bytes. Qed.

Lemma node_identifiers v labels :
  name_opt v → Forall name labels →
  identifiers is_label (λ b, is_byte x26 b || is_byte x7c b) (node_bytes v labels) = (v, labels).
Proof.
  intros Hv Hl. unfold identifiers. case_bool_decide as E.
  - apply app_eq_nil in E as [Ev El]. destruct v as [s|]; [by apply name_bytes in Hv|]. by destruct labels.
  - unfold node_bytes. rewrite split_separated; [|done|apply word_colon|done|by apply default_separators, Hv; apply word_colon].
    rewrite variable_of_name by done. f_equal. apply names_of_names; [|done|apply is_label_name].
    clear E. induction Hl as [|s labels Hs _ IH]; [done|]. cbn [fmap list_fmap flat_map].
    rewrite split_at_none by by apply name_separators, Hs; apply word_label_separator. by f_equal.
Qed.

Lemma edge_identifiers v types :
  name_opt v → Forall name types → identifiers is_type (is_byte x7c) (edge_bytes v types) = (v, types).
Proof.
  intros Hv Ht. unfold identifiers. case_bool_decide as E.
  - apply app_eq_nil in E as [Ev Et]. destruct v as [s|]; [by apply name_bytes in Hv|]. by destruct types.
  - unfold edge_bytes. destruct types as [|t ts].
    + cbn [types_bytes]. rewrite app_nil_r. rewrite split_at_none by by apply default_separators, Hv; apply word_colon.
      by rewrite variable_of_name.
    + cbn [types_bytes]. apply Forall_cons in Ht as [Ht Hts].
      rewrite split_at_sep; [|by apply default_separators, Hv; apply word_colon|done]. rewrite variable_of_name by done.
      rewrite split_at_none.
      * f_equal. apply names_of_names; [|by constructor|apply is_type_name]. cbn [flat_map]. rewrite app_nil_r.
        apply split_separated; [done|apply word_bar|done|by apply name_separators, Ht; apply word_bar].
      * apply Forall_app. split; [by apply name_separators, Ht; apply word_colon|]. clear -Hts.
        induction Hts as [|s ts Hs _ IH]; [constructor|]. constructor; [done|]. apply Forall_app. split; [|done].
        by apply name_separators, Hs; apply word_colon.
Qed.
End identifiers.

(** ** Nodes, edges and groups are read back *)

(** The characters of an ASCII text. *)
Definition singles (l : list byte) : list char := (λ b, [b]) <$> l.
Lemma chars_singles l : ascii l → chars l = singles l.
Proof. apply chars_ascii. Qed.
Lemma unchars_singles l : unchars (singles l) = l.
Proof. induction l as [|b l IH]; [done|]. unfold unchars, singles in *. cbn. by rewrite IH. Qed.

Lemma group_length_closed o c l rest :
  o ≠ c → o ∉ l → c ∉ l → group_length [o] [c] 1 (singles l ++ [c] :: rest) = S (length l).
Proof.
  intros Hoc. induction l as [|b l IH]; intros Ho Hc.
  - cbn [singles fmap list_fmap app group_length length]. rewrite decide_False by congruence. by rewrite decide_True.
  - apply not_elem_of_cons in Ho as [Hob Ho]. apply not_elem_of_cons in Hc as [Hcb Hc].
    change (singles (b :: l) ++ [c] :: rest) with ([b] :: (singles l ++ [c] :: rest)). cbn [group_length length].
    rewrite !decide_False by congruence. by rewrite IH.
Qed.

Lemma group_closed o c l rest :
  o ≠ c → o ∉ l → c ∉ l → group [o] [c] (singles l ++ [c] :: rest) = Ok (l, rest).
Proof.
  intros Hoc Ho Hc. unfold group. rewrite group_length_closed by done.
  assert (length (singles l) = length l) as Hl by apply length_fmap.
  rewrite take_app_length' by done. rewrite unchars_singles. do 2 f_equal.
  rewrite drop_app_ge by lia. by replace (S (length l) - length (singles l))%nat with 1%nat by lia.
Qed.

Section pieces.
Context `{CharClass} `{Resp.F64Text} `{LowerCase} `{UpperCase}.

Lemma body_upper l : body l → x20 ∉ as_bytes (to_uppercase (of_bytes l)).
Proof.
  intros Hl. pose proof (body_ascii l Hl) as Ha. rewrite to_uppercase_ascii.
  - unfold to_ascii_uppercase. rewrite !as_bytes_of_bytes. intros (b & Hb & Hin)%list_elem_of_In%in_map_iff.
    apply list_elem_of_In in Hin. unfold body in Hl. rewrite Forall_forall in Hl. specialize (Hl b Hin).
    destruct b; first [discriminate Hl|discriminate Hb].
  - unfold str_is_ascii. rewrite as_bytes_of_bytes. apply forallb_forall. intros b Hb%list_elem_of_In.
    by apply (proj1 (Forall_forall _ _) Ha).
Qed.

Lemma parse_node_written v labels x :
  name_opt v → Forall name labels →
  parse_node_body (node_bytes v labels) x = Ok (enter_node v labels [] (count_node x)).
Proof.
  intros Hv Hl. pose proof (node_body v labels Hv Hl) as Hb. unfold parse_node_body. rewrite trim_body by done.
  unfold inline_where_of. change (as_bytes " WHERE ") with (x20 :: as_bytes "WHERE ").
  rewrite find_sub_absent by by apply body_upper. cbn [mbind result_bind].
  rewrite find_sub_absent by (apply body_without; [done|unfold marks; set_solver]).
  cbn [default]. by rewrite node_identifiers.
Qed.

Lemma brace_blocks_bare l st :
  x7b ∉ l → brace_blocks 0 (singles l) st = Ok (mkBraces (bare st ++ l) (b_min st) (b_max st) (b_props st)).
Proof.
  revert st. induction l as [|b l IH]; intros st Hb; [rewrite app_nil_r; by destruct st|].
  apply not_elem_of_cons in Hb as [Hbb Hb]. change (singles (b :: l)) with ([b] :: singles l). cbn [brace_blocks].
  rewrite decide_False by congruence. rewrite IH by done. cbn. by rewrite <- app_assoc.
Qed.

Lemma parse_edge_written v types :
  name_opt v → Forall name types → parse_edge_body (edge_bytes v types) = Ok (mkEdgeBody v types None None []).
Proof.
  intros Hv Ht. pose proof (edge_body v types Hv Ht) as Hb. unfold parse_edge_body. rewrite trim_body by done.
  case_bool_decide as E.
  - apply app_eq_nil in E as [Ev Et]. destruct v as [s|]; [by apply name_bytes in Hv|]. by destruct types.
  - rewrite chars_singles by by apply body_ascii.
    rewrite brace_blocks_bare by (apply body_without; [done|unfold marks; set_solver]). cbn [bare b_min b_max b_props app].
    cbn [mbind result_bind bare].
    rewrite find_sub_absent by (apply body_without; [done|unfold marks; set_solver]). cbn [b_min b_max b_props].
    by rewrite edge_identifiers.
Qed.

(** ** Hops *)
Definition node_chars (v : option string) (labels : list string) : list char :=
  [x28] :: singles (node_bytes v labels) ++ [[x29]].
Definition left_arrow_of (d : Direction) : bool := match d with DirIncoming => true | _ => false end.
Definition left_chars (d : Direction) : list char := match d with DirIncoming => [[x3c]; [x2d]] | _ => [[x2d]] end.
Definition right_chars (d : Direction) : list char := match d with DirOutgoing => [[x2d]; [x3e]] | _ => [[x2d]] end.
Definition hop_chars (x : hop) : list char :=
  left_chars (hop_direction x) ++ [x5b] :: singles (edge_bytes (hop_variable x) (hop_types x)) ++ [x5d]
  :: right_chars (hop_direction x) ++ node_chars (hop_node x) (hop_labels x).

Definition name_hop (x : hop) : Prop :=
  Forall name (hop_types x) ∧ NoDup (hop_types x) ∧ name_opt (hop_variable x) ∧ name_opt (hop_node x) ∧
  Forall name (hop_labels x) ∧ NoDup (hop_labels x).

(** What a hop does to the extraction. *)
Definition text_hop (st : string * Extraction) (x : hop) : string * Extraction :=
  let '(cur, e) := st in
  let '(next, e) := enter_node (hop_node x) (hop_labels x) [] (count_node e) in
  (next, enter_edge (mkEdgeBody (hop_variable x) (hop_types x) None None []) None None (hop_direction x) cur next
           (count_edge e)).

Lemma node_read v labels x rest :
  name_opt v → Forall name labels →
  group [x28] [x29] (singles (node_bytes v labels) ++ [x29] :: rest) = Ok (node_bytes v labels, rest) ∧
  parse_node_body (node_bytes v labels) x = Ok (enter_node v labels [] (count_node x)).
Proof.
  intros Hv Hl. split; [|by apply parse_node_written]. pose proof (node_body v labels Hv Hl) as Hb.
  apply group_closed; [done| |]; (apply body_without; [done|unfold marks; set_solver]).
Qed.

Lemma skip_char_here c cs : skip_char c (c :: cs) = (true, cs).
Proof. cbn. by rewrite decide_True. Qed.
Lemma skip_char_other c d cs : d ≠ c → skip_char c (d :: cs) = (false, d :: cs).
Proof. intros Hd. cbn. by rewrite decide_False. Qed.
Lemma quantifier_other d cs : d ≠ [x7b] → quantifier (d :: cs) = Ok (None, d :: cs).
Proof. intros Hd. unfold quantifier. by rewrite skip_char_other. Qed.

Lemma parse_hop_written x cur e rest :
  name_hop x →
  parse_hop (left_arrow_of (hop_direction x)) (Some cur)
    ([x5b] :: singles (edge_bytes (hop_variable x) (hop_types x)) ++ [x5d]
     :: right_chars (hop_direction x) ++ node_chars (hop_node x) (hop_labels x) ++ rest) e
  = let '(next, e) := text_hop (cur, e) x in Ok (Some next, rest, e).
Proof.
  intros (Ht & _ & Hv & Hn & Hl & _). pose proof (edge_body _ _ Hv Ht) as Hb.
  destruct (node_read (hop_node x) (hop_labels x) e rest Hn Hl) as [Hg Hp].
  unfold parse_hop. rewrite skip_char_here.
  rewrite group_closed; [|done|apply body_without; [done|unfold marks; set_solver]..]. rewrite bind_Ok.
  assert (trim_start ([x28] :: (singles (node_bytes (hop_node x) (hop_labels x)) ++ [x29] :: rest))
          = [x28] :: (singles (node_bytes (hop_node x) (hop_labels x)) ++ [x29] :: rest)) as Htrim.
  { cbn [trim_start]. by rewrite is_whitespace_ascii. }
  assert (∀ b, quantifier ([x28] :: b) = Ok (None, [x28] :: b)) as Hq by (intros b; by apply quantifier_other).
  unfold node_chars, text_hop. rewrite <- !app_comm_cons, <- app_assoc. cbn [app].
  destruct (enter_node (hop_node x) (hop_labels x) [] (count_node e)) as [next e'] eqn:En.
  destruct (hop_direction x); cbn [right_chars app left_arrow_of];
    rewrite quantifier_other, bind_Ok, skip_char_here by done; cbn [snd];
    rewrite ?skip_char_here, ?skip_char_other by done; rewrite Hq, bind_Ok, parse_edge_written, bind_Ok by done;
    cbn [default eb_min eb_max]; rewrite Htrim, skip_char_here, Hg, bind_Ok, Hp, bind_Ok; reflexivity.
Qed.
End pieces.

(** ** Chains *)
Section chain.
Context `{CharClass} `{Resp.F64Text} `{LowerCase} `{UpperCase}.

Definition chain_chars (v : option string) (labels : list string) (hops : list hop) : list char :=
  node_chars v labels ++ flat_map hop_chars hops.

(** What is extracted from the text of a chain. *)
Definition text_chain (v : option string) (labels : list string) (hops : list hop) : Extraction :=
  (foldl text_hop (enter_node v labels [] (count_node Extraction_new)) hops).2.

Lemma whitespace_at b : is_ascii b = true → (byte_in 9 13 b || byte_in 32 32 b) = false → is_whitespace [b] = false.
Proof. intros Hb Hw. by rewrite is_whitespace_ascii. Qed.

Lemma skip_separators_none l b cs :
  is_ascii b = true → (byte_in 9 13 b || byte_in 32 32 b) = false → b ≠ x2c → skip_separators l ([b] :: cs) = (l, [b] :: cs).
Proof. intros Hb Hw Hc. cbn [skip_separators]. rewrite whitespace_at by done. by rewrite bool_decide_false by congruence. Qed.

Lemma hop_chars_length x : (1 <= length (hop_chars x))%nat.
Proof. unfold hop_chars. by destruct (hop_direction x); cbn; lia. Qed.

Lemma hops_read hops : ∀ cur e fuel,
  Forall name_hop hops → (length (flat_map hop_chars hops) < fuel)%nat →
  parse_path fuel (Some cur) (flat_map hop_chars hops) e = Ok (foldl text_hop (cur, e) hops).2.
Proof.
  induction hops as [|x hops IH]; intros cur e fuel Hn Hf.
  { destruct fuel; [cbn in Hf; lia|done]. }
  apply Forall_cons in Hn as [Hx Hn]. destruct fuel as [|fuel]; [lia|]. cbn [flat_map] in *. rewrite length_app in Hf.
  pose proof (parse_hop_written x cur e (flat_map hop_chars hops) Hx) as Hp.
  assert (length (flat_map hop_chars hops) < fuel)%nat as Hfuel.
  { pose proof (hop_chars_length x). lia. }
  cbn [foldl]. destruct (text_hop (cur, e) x) as [next e'].
  unfold hop_chars at 1. rewrite <- !app_assoc, <- !app_comm_cons, <- !app_assoc, <- !app_comm_cons, <- !app_assoc.
  cbn [parse_path].
  destruct (hop_direction x); cbn [left_chars left_arrow_of] in *; rewrite <- ?app_comm_cons in *; cbn [app];
    rewrite skip_separators_none by done; rewrite !decide_False by done;
    [|rewrite decide_True, skip_char_here by done|]; rewrite ?decide_False, ?decide_True by done;
    rewrite Hp, bind_Ok; apply IH; done.
Qed.

Lemma chain_read v labels hops :
  name_opt v → Forall name labels → Forall name_hop hops →
  parse_path (S (length (chain_chars v labels hops))) None (chain_chars v labels hops) Extraction_new
  = Ok (text_chain v labels hops).
Proof.
  intros Hv Hl Hh. unfold chain_chars, node_chars. rewrite <- app_comm_cons, <- app_assoc. cbn [app].
  destruct (node_read v labels Extraction_new (flat_map hop_chars hops) Hv Hl) as [Hg Hp].
  cbn [parse_path]. rewrite skip_separators_none by done. rewrite decide_True by done.
  rewrite Hg, bind_Ok, Hp, bind_Ok. unfold text_chain.
  destruct (enter_node v labels [] (count_node Extraction_new)) as [id e]. apply hops_read; [done|].
  cbn [length]. rewrite length_app. cbn [length]. lia.
Qed.

(** ** The text of a chain, byte for byte *)
Lemma concat_names b names :
  as_bytes (String.concat "" (map (λ l, of_bytes [b] +:+ l) names)) = separated_bytes b names.
Proof.
  induction names as [|s names IH]; [done|]. cbn [map]. destruct names as [|t names].
  - unfold separated_bytes. cbn [String.concat map flat_map]. by rewrite as_bytes_app, as_bytes_of_bytes, app_nil_r.
  - change (String.concat "" ((of_bytes [b] +:+ s) :: map (λ l, of_bytes [b] +:+ l) (t :: names)))
      with ((of_bytes [b] +:+ s) +:+ "" +:+ String.concat "" (map (λ l, of_bytes [b] +:+ l) (t :: names))).
    rewrite !as_bytes_app, IH, as_bytes_of_bytes. done.
Qed.

Lemma join_names t names : as_bytes (join "|" (t :: names)) = as_bytes t ++ separated_bytes x7c names.
Proof.
  revert t. induction names as [|s names IH]; intros t; [by rewrite app_nil_r|].
  change (join "|" (t :: s :: names)) with (t +:+ "|" +:+ join "|" (s :: names)). by rewrite !as_bytes_app, IH.
Qed.

Lemma node_text_bytes v labels :
  Forall name labels → NoDup labels → as_bytes (node_text v labels) = unchars (node_chars v labels).
Proof.
  intros Hl Hn. unfold node_text, node_chars. rewrite (proj2 (from_labels_names labels Hl Hn)), !as_bytes_app.
  pose proof (concat_names x3a labels) as Hc. change (of_bytes [x3a]) with ":" in Hc. rewrite Hc.
  change ([x28] :: singles (node_bytes v labels) ++ [[x29]]) with ([[x28]] ++ singles (node_bytes v labels) ++ [[x29]]).
  unfold unchars. rewrite !concat_app. fold (unchars (singles (node_bytes v labels))). rewrite unchars_singles.
  unfold node_bytes. by rewrite <- app_assoc.
Qed.

Lemma hop_text_bytes x : name_hop x → as_bytes (hop_text x) = unchars (hop_chars x).
Proof.
  intros (Ht & Htn & _ & _ & Hl & Hln). unfold hop_text, hop_chars.
  rewrite (proj2 (from_edge_types_names _ Ht Htn)), !as_bytes_app, node_text_bytes by done.
  assert (as_bytes (match hop_types x with [] => "" | _ => ":" +:+ join "|" (hop_types x) end) = types_bytes (hop_types x)) as ->.
  { destruct (hop_types x) as [|t ts]; [done|]. by rewrite as_bytes_app, join_names. }
  rewrite app_comm_cons.
  change ([x5b] :: singles (edge_bytes (hop_variable x) (hop_types x)))
    with ([[x5b]] ++ singles (edge_bytes (hop_variable x) (hop_types x))).
  change ([x5d] :: right_chars (hop_direction x) ++ node_chars (hop_node x) (hop_labels x))
    with ([[x5d]] ++ right_chars (hop_direction x) ++ node_chars (hop_node x) (hop_labels x)).
  unfold unchars. rewrite !concat_app.
  fold (unchars (singles (edge_bytes (hop_variable x) (hop_types x)))). rewrite unchars_singles.
  unfold edge_bytes. rewrite <- !app_assoc. by destruct (hop_direction x).
Qed.

Lemma chain_text_bytes v labels hops :
  Forall name labels → NoDup labels → Forall name_hop hops →
  as_bytes (chain_text v labels hops) = unchars (chain_chars v labels hops).
Proof.
  intros Hl Hn Hh. unfold chain_text, chain_chars. rewrite as_bytes_app, node_text_bytes by done.
  unfold unchars. rewrite concat_app. f_equal. induction Hh as [|x hops Hx _ IH]; [done|].
  cbn [foldr flat_map]. rewrite as_bytes_app, hop_text_bytes, IH, concat_app by done. done.
Qed.

(** ** No comments *)
Fixpoint quiet (cs : list char) : Prop :=
  match cs with
  | [] => True
  | c :: cs => c ∉ [[x60]; [x27]; [x22]; [x2f]] ∧ (c = [x2d] → head cs ≠ Some [x2d]) ∧ quiet cs
  end.

Lemma strip_quiet fuel : ∀ cs, (length cs < fuel)%nat → quiet cs → strip_chars fuel false false false cs = Ok cs.
Proof.
  induction fuel as [|fuel IH]; intros cs Hf Hq; [lia|]. cbn [strip_chars]. destruct cs as [|c cs]; [done|].
  destruct Hq as (Hc & Hd & Hq). cbn [length] in Hf.
  rewrite !bool_decide_false by (intros ->; apply Hc; set_solver). cbn [andb negb].
  assert ((cons c <$> strip_chars fuel false false false cs) = Ok (c :: cs)) as Hcons by by rewrite IH by (done || lia).
  destruct c as [|b [|? ?]]; [exact Hcons| |by destruct b].
  destruct b; try exact Hcons; [|exfalso; apply Hc; set_solver]. destruct cs as [|[|d [|? ?]] cs]; try exact Hcons.
  - destruct d; try exact Hcons. exfalso. by apply Hd.
  - by destruct d.
Qed.

Lemma quiet_body l cs : body l → quiet cs → quiet (singles l ++ cs).
Proof.
  intros Hl Hq. induction Hl as [|b l Hb Hl IH]; [done|]. change (singles (b :: l) ++ cs) with ([b] :: singles l ++ cs).
  destruct (body_byte_plain b Hb) as (_ & _ & Hm). cbn [quiet]. split; [|split; [|exact IH]].
  - intros Hin. apply Hm. unfold marks. set_solver.
  - intros [= ->]. exfalso. apply Hm. unfold marks. set_solver.
Qed.

Lemma quiet_cons b cs : b ∉ [x60; x27; x22; x2f; x2d] → quiet cs → quiet ([b] :: cs).
Proof. intros Hb Hq. cbn [quiet]. split; [set_solver|]. split; [|done]. intros [= ->]. exfalso. apply Hb. set_solver. Qed.

Lemma quiet_dash c cs : c ≠ [x2d] → quiet (c :: cs) → quiet ([x2d] :: c :: cs).
Proof. intros Hc Hq. split; [set_solver|]. split; [|exact Hq]. intros _ [= E]. done. Qed.

Lemma quiet_node v labels cs : name_opt v → Forall name labels → quiet cs → quiet (node_chars v labels ++ cs).
Proof.
  intros Hv Hl Hq. unfold node_chars. rewrite <- app_comm_cons, <- app_assoc. apply quiet_cons; [set_solver|].
  apply quiet_body; [by apply node_body|]. apply quiet_cons; [set_solver|done].
Qed.

Lemma quiet_hop x cs : name_hop x → quiet cs → quiet (hop_chars x ++ cs).
Proof.
  intros (Ht & _ & Hv & Hn & Hl & _) Hq. pose proof (quiet_node (hop_node x) (hop_labels x) cs Hn Hl Hq) as Hnode.
  unfold hop_chars. rewrite <- !app_assoc, <- !app_comm_cons, <- !app_assoc, <- !app_comm_cons, <- !app_assoc.
  assert (quiet ([x5b] :: singles (edge_bytes (hop_variable x) (hop_types x)) ++ [x5d] :: right_chars (hop_direction x)
                 ++ node_chars (hop_node x) (hop_labels x) ++ cs)) as Hmid.
  { apply quiet_cons; [set_solver|]. apply quiet_body; [by apply edge_body|]. apply quiet_cons; [set_solver|].
    destruct (hop_direction x); cbn [right_chars app]; (apply quiet_dash; [done|]); [apply quiet_cons; [set_solver|]|..]; exact Hnode. }
  destruct (hop_direction x); cbn [left_chars app] in *; [|apply quiet_cons; [set_solver|]|]; by apply quiet_dash.
Qed.

Lemma quiet_chain v labels hops :
  name_opt v → Forall name labels → Forall name_hop hops → quiet (chain_chars v labels hops).
Proof.
  intros Hv Hl Hh. apply quiet_node; [done..|].
  induction Hh as [|x hops Hx _ IH]; [done|]. by apply quiet_hop.
Qed.

(** ** One section *)

(** Outside of brackets there is no letter. *)
Fixpoint passes (paren bracket : nat) (cs : list char) : Prop :=
  match cs with
  | [] => True
  | c :: cs =>
      if bool_decide (c = [x28]) then passes (S paren) bracket cs
      else if bool_decide (c = [x29]) then passes (paren - 1) bracket cs
      else if bool_decide (c = [x5b]) then passes paren (S bracket) cs
      else if bool_decide (c = [x5d]) then passes paren (bracket - 1) cs
      else ((paren = 0 ∧ bracket = 0)%nat → ∃ b, c = [b] ∧ byte_in 65 90 (ascii_upper_byte b) = false)
           ∧ passes paren bracket cs
  end.

Lemma any_keyword_none query b r len pos kws :
  byte_in 65 90 b = false → Forall (λ kw, ∃ c k, kw = c :: k ∧ byte_in 65 90 c = true) kws →
  any_keyword query (b :: r) len pos kws = Ok false.
Proof.
  intros Hb. induction 1 as [|kw kws (c & k & -> & Hc) _ IH]; [done|]. cbn [any_keyword].
  unfold begins. cbn [length take]. rewrite bool_decide_false by congruence. exact IH.
Qed.

Definition capital (kw : list byte) : Prop := ∃ c k, kw = c :: k ∧ byte_in 65 90 c = true.
Lemma keywords_upper : Forall capital keywords.
Proof. repeat (constructor; [by eexists _, _|]). constructor. Qed.
Lemma stops_upper : Forall capital stop_keywords.
Proof. repeat (constructor; [by eexists _, _|]). constructor. Qed.

Lemma stop_at_end query cs : ∀ pos paren bracket,
  ascii query → drop pos (singles query) = cs → passes paren bracket cs →
  stop_position query (map ascii_upper_byte query) (length query) pos paren bracket cs = Ok (length query).
Proof.
  induction cs as [|c cs IH]; intros pos paren bracket Ha Hd Hp; [done|]. cbn [stop_position passes] in *.
  assert (drop (S pos) (singles query) = cs) as Hd'.
  { replace (S pos) with (pos + 1)%nat by lia. by rewrite <- drop_drop, Hd. }
  assert (∃ b r, c = [b] ∧ drop pos query = b :: r) as (b & r & -> & Hb).
  { unfold singles in Hd. rewrite <- fmap_drop in Hd. destruct (drop pos query) as [|b r]; [done|].
    injection Hd as <- _. by exists b, r. }
  do 4 (case_bool_decide; [by apply IH|]). destruct Hp as [Hz Hp].
  destruct ((paren =? 0)%nat && (bracket =? 0)%nat) eqn:E; [|by apply IH].
  apply andb_true_iff in E as [Ep%Nat.eqb_eq Ek%Nat.eqb_eq]. destruct (Hz (conj Ep Ek)) as (b' & [= <-] & Hup).
  assert (drop pos (map ascii_upper_byte query) = ascii_upper_byte b :: map ascii_upper_byte r) as Hu.
  { change (map ascii_upper_byte query) with (ascii_upper_byte <$> query). rewrite <- fmap_drop, Hb. done. }
  unfold slice_from, is_char_boundary. rewrite Hu, length_map.
  rewrite (proj2 (Nat.leb_le _ _)) by (apply (f_equal length) in Hb; rewrite length_drop in Hb; cbn [length] in Hb; lia).
  assert (starts_char (ascii_upper_byte b :: map ascii_upper_byte r) = true) as ->.
  { assert (is_ascii b = true) as Hab by (apply (ascii_drop pos) in Ha; rewrite Hb in Ha; by apply Forall_cons in Ha as [? _]).
    destruct b; first [discriminate Hab|reflexivity]. }
  cbn [andb]. rewrite bind_Ok, (any_keyword_none _ _ _ _ _ stop_keywords Hup stops_upper), bind_Ok.
  rewrite (any_keyword_none _ _ _ _ _ keywords Hup keywords_upper), bind_Ok. cbn [orb]. by apply IH.
Qed.

Lemma passes_body paren bracket l cs :
  (0 < paren + bracket)%nat → body l → passes paren bracket cs → passes paren bracket (singles l ++ cs).
Proof.
  intros Hpos Hl Hp. induction Hl as [|b l Hb Hl IH]; [done|]. change (singles (b :: l) ++ cs) with ([b] :: singles l ++ cs).
  destruct (body_byte_plain b Hb) as (_ & _ & Hm). unfold marks in Hm. cbn [passes].
  rewrite !bool_decide_false by (intros [= ->]; apply Hm; set_solver). split; [lia|exact IH].
Qed.

Lemma passes_mark b cs :
  b ∉ [x28; x29; x5b; x5d] → byte_in 65 90 (ascii_upper_byte b) = false → passes 0 0 cs → passes 0 0 ([b] :: cs).
Proof.
  intros Hb Hu Hp. cbn [passes]. rewrite !bool_decide_false by (intros [= ->]; apply Hb; set_solver).
  split; [intros _; by exists b|done].
Qed.

Lemma passes_node v labels cs : name_opt v → Forall name labels → passes 0 0 cs → passes 0 0 (node_chars v labels ++ cs).
Proof.
  intros Hv Hl Hp. unfold node_chars. rewrite <- app_comm_cons, <- app_assoc. cbn [passes].
  rewrite bool_decide_true by done. apply passes_body; [lia|by apply node_body|]. cbn [passes app]. exact Hp.
Qed.

Lemma passes_chain v labels hops :
  name_opt v → Forall name labels → Forall name_hop hops → passes 0 0 (chain_chars v labels hops).
Proof.
  intros Hv Hl Hh. apply passes_node; [done..|].
  induction Hh as [|x hops (Ht & _ & Hxv & Hn & Hxl & _) _ IH]; [done|].
  pose proof (passes_node _ _ _ Hn Hxl IH) as Hnode. cbn [flat_map]. unfold hop_chars at 1.
  rewrite <- !app_assoc, <- !app_comm_cons, <- !app_assoc, <- !app_comm_cons, <- !app_assoc.
  assert (passes 0 0 ([x5b] :: singles (edge_bytes (hop_variable x) (hop_types x)) ++ [x5d] :: right_chars (hop_direction x)
            ++ node_chars (hop_node x) (hop_labels x) ++ flat_map hop_chars hops)) as Hmid.
  { cbn [passes]. rewrite !bool_decide_false by done. rewrite bool_decide_true by done.
    apply passes_body; [lia|by apply edge_body|]. cbn [passes Nat.sub].
    rewrite !bool_decide_false by done. rewrite bool_decide_true by done.
    destruct (hop_direction x); cbn [right_chars app]; repeat (apply passes_mark; [set_solver|done|]); exact Hnode. }
  destruct (hop_direction x); cbn [left_chars app] in *; repeat (apply passes_mark; [set_solver|done|]); exact Hmid.
Qed.

(** The bytes of a chain. *)
Definition tame (b : byte) : Prop :=
  is_ascii b = true ∧ (byte_in 9 13 b || byte_in 32 32 b) = false ∧ b ≠ x3d.
Definition tame_chars (cs : list char) : Prop := Forall (λ c, ∃ b, tame b ∧ c = [b]) cs.

Lemma tame_body l : body l → tame_chars (singles l).
Proof.
  intros Hl. apply Forall_fmap. eapply Forall_impl; [exact Hl|]. intros b Hb. exists b. split; [|done].
  destruct (body_byte_plain b Hb) as (H3 & H4 & H5). split; [done|]. split; [done|]. intros ->. apply H5. unfold marks. set_solver.
Qed.

Lemma tame_node v labels : name_opt v → Forall name labels → tame_chars (node_chars v labels).
Proof.
  intros Hv Hl. constructor; [by exists x28|]. apply Forall_app. split; [by apply tame_body, node_body|].
  constructor; [by exists x29|constructor].
Qed.

Lemma tame_arrows d : tame_chars (left_chars d) ∧ tame_chars (right_chars d).
Proof. split; destruct d; repeat (constructor; [eexists; split; [|reflexivity]; done|]); constructor. Qed.

Lemma tame_hop x : name_hop x → tame_chars (hop_chars x).
Proof.
  intros (Ht & _ & Hv & Hn & Hl & _). apply Forall_app. split; [by apply tame_arrows|].
  constructor; [by exists x5b|]. apply Forall_app. split; [by apply tame_body, edge_body|]. constructor; [by exists x5d|].
  apply Forall_app. split; [by apply tame_arrows|by apply tame_node].
Qed.

Lemma tame_chain v labels hops :
  name_opt v → Forall name labels → Forall name_hop hops → tame_chars (chain_chars v labels hops).
Proof.
  intros Hv Hl Hh. apply Forall_app. split; [by apply tame_node|].
  induction Hh as [|x hops Hx _ IH]; [constructor|]. apply Forall_app. split; [by apply tame_hop|done].
Qed.

Lemma tame_singles cs : tame_chars cs → cs = singles (unchars cs) ∧ Forall tame (unchars cs).
Proof.
  induction 1 as [|c cs (b & Hb & ->) _ [IH1 IH2]]; [by split|].
  change (unchars ([b] :: cs)) with (b :: unchars cs). split; [|by constructor].
  change (singles (b :: unchars cs)) with ([b] :: singles (unchars cs)). by rewrite <- IH1.
Qed.

(** The keyword at the head of the text is the first. *)
Lemma earliest_keeps_first query upper kws n :
  aligned query upper → earliest_match query upper 0 kws (Some (0%nat, n)) = Ok (Some (0%nat, n)).
Proof.
  intros Ha. induction kws as [|kw kws IH]; [done|]. cbn [earliest_match].
  pose proof (keyword_after_fine False query upper 0 kw) as Hk.
  destruct (keyword_after query upper 0 kw) as [found|[]];
    [|exfalso; apply Hk; right; split; [done|lia]..]. rewrite bind_Ok.
  destruct found as [i|]; [|exact IH]. rewrite (proj2 (Nat.ltb_ge _ _)) by lia. exact IH.
Qed.

Lemma first_keyword t :
  ascii t → let query := as_bytes "MATCH " ++ t in
  earliest_match query (map ascii_upper_byte query) 0 keywords None = Ok (Some (0%nat, 5%nat)).
Proof.
  intros Ht query. set (upper := map ascii_upper_byte query).
  assert (ascii query) as Hq by (apply Forall_app; split; [by repeat constructor|done]).
  assert (aligned query upper) as Hal.
  { split; [|apply length_map]. clear Ht. unfold upper. induction Hq as [|b l Hb Hl IH]; [constructor|]. constructor; [|done].
    destruct b; first [discriminate Hb|reflexivity]. }
  assert (keyword_after query upper 0 (as_bytes "MATCH") = Ok (Some 0%nat)) as Hm.
  { unfold keyword_after. pose proof (slice_from_fine False upper 0) as Hs. destruct (slice_from upper 0) as [r|[]];
      [|exfalso; apply Hs; right; split; [apply Hal|lia]..].
    destruct Hs as [-> _]; [right; split; [apply Hal|lia]|]. reflexivity. }
  change keywords with (as_bytes "OPTIONAL MATCH" :: as_bytes "MATCH" :: drop 2 keywords).
  cbn [earliest_match]. destruct (keyword_after query upper 0 (as_bytes "OPTIONAL MATCH")) as [found|] eqn:Eo.
  - rewrite bind_Ok, Hm, bind_Ok. destruct found as [[|i]|].
    + exfalso. unfold keyword_after in Eo. destruct (slice_from upper 0) as [r|] eqn:Es; [|done].
      assert (r = upper) as -> by (unfold slice_from in Es; case_match; [by injection Es|done]).
      cbn [mbind result_bind] in Eo. destruct (find_sub _ upper) as [j|] eqn:Ej; [|done].
      destruct (whole_word _ _ _ _) as [[]|]; try done. injection Eo as Ej0. subst j.
      apply find_sub_spec in Ej as [_ Ej]. by vm_compute in Ej.
    + exact (earliest_keeps_first query upper (drop 2 keywords) 5 Hal).
    + exact (earliest_keeps_first query upper (drop 2 keywords) 5 Hal).
  - exfalso. pose proof (keyword_after_fine False query upper 0 (as_bytes "OPTIONAL MATCH")) as Hk. rewrite Eo in Hk.
    assert (fine False (λ _ : option nat, True) (Err e)) as Hf by (eapply fine_weaken; [apply Hk; right; split; [done|lia]|done]).
    by destruct e.
Qed.

Lemma chain_section t :
  Forall tame t → t ≠ [] → passes 0 0 (singles t) → extract_pattern_sections (as_bytes "MATCH " ++ t) = Ok [t].
Proof.
  intros Ht Hne Hp. set (query := as_bytes "MATCH " ++ t).
  assert (ascii t) as Hat by (eapply Forall_impl; [exact Ht|]; by intros b (? & _)).
  assert (ascii query) as Hq by (apply Forall_app; split; [by repeat constructor|done]).
  assert (as_bytes (to_uppercase (of_bytes query)) = map ascii_upper_byte query) as Hu.
  { rewrite to_uppercase_ascii; [unfold to_ascii_uppercase; by rewrite !as_bytes_of_bytes|].
    unfold str_is_ascii. rewrite as_bytes_of_bytes. apply forallb_forall. intros b Hb%list_elem_of_In.
    by apply (proj1 (Forall_forall _ _) Hq). }
  unfold extract_pattern_sections. rewrite Hu, chars_singles by done.
  assert (length (singles query) = length query) as Hl by apply length_fmap.
  assert (length query = 6 + length t)%nat as Hlen by apply length_app.
  assert (sections_from (S (length (singles query))) query (map ascii_upper_byte query) (singles query) 0 = Ok [t]) as ->.
  { rewrite Hl, Hlen. cbn [Nat.add sections_from]. rewrite Hl, (proj2 (Nat.ltb_lt _ _)) by lia.
    pose proof (first_keyword t Hat) as Hfirst. cbv zeta in Hfirst. fold query in Hfirst. rewrite Hfirst, bind_Ok.
    change (0 + 5)%nat with 5%nat.
    rewrite stop_at_end; [|done|done|].
    - rewrite bind_Ok. unfold slice. rewrite !is_char_boundary_ascii by (done || lia).
      rewrite (proj2 (Nat.leb_le _ _)) by lia. cbn [andb]. rewrite bind_Ok.
      change (drop 5 query) with (x20 :: t). rewrite take_ge by (cbn [length]; lia).
      assert (trim_bytes (x20 :: t) = t) as ->.
      { unfold trim_bytes, trim. rewrite !as_bytes_of_bytes. rewrite chars_singles by by constructor.
        assert (Forall (λ c, is_whitespace c = false) (singles t)) as Hblank.
        { apply Forall_fmap. eapply Forall_impl; [exact Ht|]. intros b (H3 & H4 & _). by apply whitespace_at. }
        assert (trim_start (singles (x20 :: t)) = singles t) as Hts.
        { change (singles (x20 :: t)) with ([x20] :: singles t). cbn [trim_start].
          rewrite is_whitespace_ascii by done. by apply trim_start_blank. }
        unfold trim_chars. rewrite Hts, <- (trim_start_blank (singles t)) by done.
        fold (trim_chars (singles t)). rewrite trim_chars_blank by done. apply unchars_singles. }
      rewrite Nat.ltb_irrefl, bind_Ok. by rewrite bool_decide_false.
    - change (drop 5 (singles query)) with ([x20] :: singles t). by apply passes_mark; [set_solver| |]. }
  rewrite bind_Ok. by rewrite bool_decide_false.
Qed.

(** The text of a chain is parsed to what its calls say. *)
Lemma chain_parsed v labels hops :
  name_opt v → Forall name labels → NoDup labels → Forall name_hop hops →
  from_query_str ("MATCH " +:+ chain_text v labels hops)
  = Ok (mkTopology 1 (take_nodes (nodes_order (text_chain v labels hops)) (nodes_map (text_chain v labels hops)))
          (x_edges (text_chain v labels hops))).
Proof.
  intros Hv Hl Hn Hh. pose proof (tame_chain v labels hops Hv Hl Hh) as Htame.
  destruct (tame_singles _ Htame) as [Hs Ht]. set (t := unchars (chain_chars v labels hops)) in *.
  assert (as_bytes ("MATCH " +:+ chain_text v labels hops) = as_bytes "MATCH " ++ t) as Hq
    by (rewrite as_bytes_app; f_equal; by apply chain_text_bytes).
  assert (ascii t) as Hat by (eapply Forall_impl; [exact Ht|]; by intros b (? & _)).
  assert (ascii (as_bytes "MATCH " ++ t)) as Haq by (apply Forall_app; split; [by repeat constructor|done]).
  assert (strip_query_comments ("MATCH " +:+ chain_text v labels hops) = Ok ("MATCH " +:+ chain_text v labels hops)) as Hc.
  { unfold strip_query_comments. rewrite Hq, chars_singles by done.
    assert (singles (as_bytes "MATCH " ++ t) = singles (as_bytes "MATCH ") ++ chain_chars v labels hops) as ->
      by (unfold singles at 1; rewrite fmap_app; fold (singles t); by rewrite <- Hs).
    rewrite strip_quiet; [|lia|].
    - cbn [fmap result_fmap]. f_equal. apply as_bytes_inj. rewrite as_bytes_of_bytes, Hq. unfold unchars. by rewrite concat_app.
    - change (quiet ([x4d] :: [x41] :: [x54] :: [x43] :: [x48] :: [x20] :: chain_chars v labels hops)).
      do 6 (apply quiet_cons; [set_solver|]). by apply quiet_chain. }
  unfold from_query_str. rewrite Hc, bind_Ok, Hq.
  rewrite chain_section; [|done| |].
  - rewrite bind_Ok. cbn [parse_sections]. unfold parse_path_sequence. rewrite chars_singles, <- Hs by done.
    rewrite chain_read by done. rewrite !bind_Ok.
    pose proof (wheres_fine False (as_bytes "MATCH " ++ t) (nodes_map (text_chain v labels hops)) (or_intror Haq)) as Hw.
    destruct (extract_and_apply_where_predicates _ _) as [m|[]]; [|done|done]. destruct Hw as [_ Hw].
    rewrite bind_Ok, Hw; [done|]. rewrite elem_of_app. intros [Hin|Hin]; [cbn in Hin; by repeat (apply elem_of_cons in Hin as [Hin|Hin]; [done|]); apply not_elem_of_nil in Hin|].
    rewrite Forall_forall in Ht. by destruct (Ht _ Hin) as (_ & _ & ?).
  - unfold t. unfold chain_chars, node_chars. done.
  - rewrite <- Hs. by apply passes_chain.
Qed.
End chain.

(** ** The walk over the chain's own arena *)

Section arena.
Context `{CharClass} `{Resp.F64Text} `{LowerCase} `{UpperCase} (a : QueryAstArena).

(** The nodes of a chain: the name each is entered under and the labels it is written with.
    A node without a name is named after its first label and its place in the chain. *)
Definition node_name (counter : Z) (v : option string) (labels : list string) : string :=
  match v with Some s => s | None => generated_id (head labels) counter end.
Definition occurrence (i : nat) (n : option string * list string) : string * list string :=
  (node_name (Z.of_nat i + 1) n.1 n.2, n.2).
Definition occurrences (v : option string) (labels : list string) (hops : list hop) : list (string * list string) :=
  imap occurrence ((v, labels) :: ((λ x, (hop_node x, hop_labels x)) <$> hops)).

(** The labels of the first occurrence of a node, and the first that are any. *)
Definition given (occs : list (string * list string)) (id : string) : list (list string) :=
  snd <$> base.filter (λ o, o.1 = id) occs.
Definition first_given (ls : list (list string)) : list string := default [] (head ls).
Definition first_written (ls : list (list string)) : list string := default [] (head (base.filter (λ l, l ≠ []) ls)).

(** The two topologies differ in one thing, the label expression of a node that is repeated:
    the text's node keeps the expression of its first occurrence, which is none where that
    occurrence has no labels, and the arena's takes the first there is. *)
Definition erase (n : TopologyNode) : TopologyNode :=
  mkTNode (tn_id n) (tn_label n) (tn_labels n) (tn_group n) (tn_size n) (tn_properties n) (tn_data n) None.
Definition agree (occs : list (string * list string)) (n n' : TopologyNode) : Prop :=
  erase n = erase n' ∧
  tn_label_expression n = from_labels (first_given (given occs (tn_id n))) ∧
  tn_label_expression n' = from_labels (first_written (given occs (tn_id n))).

Lemma given_snoc occs id o :
  given (occs ++ [o]) id = given occs id ++ (if decide (o.1 = id) then [o.2] else []).
Proof. unfold given. rewrite filter_app, fmap_app, filter_cons. by destruct (decide _). Qed.
Lemma first_given_snoc ls l : ls ≠ [] → first_given (ls ++ [l]) = first_given ls.
Proof. by destruct ls. Qed.
Lemma first_written_snoc ls l :
  first_written (ls ++ [l]) = match first_written ls with [] => l | _ => first_written ls end.
Proof.
  unfold first_written. induction ls as [|k ls IH]; cbn [app].
  - rewrite filter_cons. destruct (decide _) as [|E%dec_stable]; [by destruct l|by subst].
  - rewrite !filter_cons. destruct (decide (k ≠ [])); [|exact IH]. cbn. by destruct k.
Qed.

Lemma from_labels_none labels : from_labels labels = None → labels = [].
Proof. by destruct labels. Qed.

(** What the arena's extraction [x] and the text's [y] have in common after some nodes. *)
Record alike (occs : list (string * list string)) (x y : Extraction) : Prop := {
  alike_map : ∀ id, option_Forall2 (λ n n', tn_id n = id ∧ agree occs n n') (nodes_map y !! id) (nodes_map x !! id);
  alike_seen : ∀ id, is_Some (nodes_map y !! id) ↔ given occs id ≠ [];
  alike_order : nodes_order x = nodes_order y;
  alike_edges : x_edges x = x_edges y;
  alike_nodes : node_counter x = blen occs ∧ node_counter y = blen occs;
  alike_count : edge_counter x = edge_counter y;
}.

Lemma alike_new : alike [] Extraction_new Extraction_new.
Proof.
  split; try done; intros id; change (nodes_map Extraction_new) with (∅ : gmap string TopologyNode); rewrite lookup_empty.
  - constructor.
  - split; [by intros []|done].
Qed.

Lemma take_nodes_related (P : TopologyNode → TopologyNode → Prop) order : ∀ m m' : gmap string TopologyNode,
  (∀ id, option_Forall2 P (m !! id) (m' !! id)) → Forall2 P (take_nodes order m) (take_nodes order m').
Proof.
  induction order as [|id order IH]; intros m m' Hm; [constructor|]. cbn [take_nodes].
  destruct (Hm id) as [n n' Hn|]; [|by apply IH]. constructor; [done|]. apply IH. intros k.
  destruct (decide (k = id)) as [->|Hk]; [rewrite !lookup_delete_eq; constructor|by rewrite !lookup_delete_ne].
Qed.

(** A node that the maps have for the first time. *)
Lemma node_entered occs id labels (m m' : gmap string TopologyNode) n n' :
  (∀ k, option_Forall2 (λ n n', tn_id n = k ∧ agree occs n n') (m !! k) (m' !! k)) →
  (∀ k, is_Some (m !! k) ↔ given occs k ≠ []) →
  tn_id n = id → agree (occs ++ [(id, labels)]) n n' →
  (∀ k, option_Forall2 (λ n n', tn_id n = k ∧ agree (occs ++ [(id, labels)]) n n') (<[id := n]> m !! k) (<[id := n']> m' !! k)) ∧
  (∀ k, is_Some (<[id := n]> m !! k) ↔ given (occs ++ [(id, labels)]) k ≠ []).
Proof.
  intros Hm Hs Hid Hn. split; intros k; (destruct (decide (k = id)) as [->|Hk];
    [rewrite ?lookup_insert_eq|rewrite ?lookup_insert_ne by done]).
  - by constructor.
  - destruct (Hm k) as [n1 n2 (Hk1 & He & Hf & Hw)|]; constructor. split; [done|].
    unfold agree. rewrite Hk1 in Hf, Hw |- *. rewrite given_snoc. cbn [fst snd].
    by rewrite decide_False, app_nil_r.
  - rewrite given_snoc. cbn [fst snd]. rewrite decide_True by done. split; [|by eexists].
    intros _. by destruct (given occs id).
  - rewrite given_snoc. cbn [fst snd]. by rewrite decide_False, app_nil_r.
Qed.

Lemma nodes_alike occs v labels x y :
  name_opt v → Forall name labels → NoDup labels → alike occs x y →
  let id := node_name (blen occs + 1)%Z v labels in
  (extract_node_pattern a v (from_labels labels) [] (count_node x)).1 = id ∧
  (enter_node v labels [] (count_node y)).1 = id ∧
  alike (occs ++ [(id, labels)]) (extract_node_pattern a v (from_labels labels) [] (count_node x)).2
    (enter_node v labels [] (count_node y)).2.
Proof.
  intros Hv Hl Hn [Hm Hs Ho He [Hcx Hcy] Hec] id. unfold extract_node_pattern, enter_node. cbv zeta.
  rewrite (proj1 (from_labels_names labels Hl Hn)). cbn [node_counter count_node nodes_map]. rewrite Hcx, Hcy. cbn [fst snd].
  set (id0 := match v with Some _ => _ | None => _ end).
  assert (id0 = id) as ->.
  { unfold id0, id, node_name. destruct v as [s|]; [|done]. by rewrite bool_decide_false by apply Hv. }
  split; [done|]. split; [done|]. clearbody id.
  assert (blen (occs ++ [(id, labels)]) = blen occs + 1) as Hlen by by rewrite blen_app.
  pose proof (Hm id) as Hid. pose proof (Hs id) as Hsid.
  assert (given (occs ++ [(id, labels)]) id = given occs id ++ [labels]) as Hg
    by (rewrite given_snoc; cbn [fst snd]; by rewrite decide_True).
  destruct Hid as [n n' (Hk & Hn1 & Hn2 & Hn3)|].
  - assert (given occs id ≠ []) as Hne by by apply Hsid. rewrite Hk in Hn2, Hn3.
    match goal with |- alike _ (set_map (<[_ := ?r]> _) _) (set_map (<[_ := ?s]> _) _) =>
      destruct (node_entered occs id labels _ _ s r Hm Hs) as [H3 H4] end.
    + exact Hk.
    + injection Hn1 as E1 E2 E3 E4 E5 E6 E7. split; [unfold erase; cbn; by rewrite E1, E2, E3, E4, E5, E6, E7|].
      cbn [tn_id tn_label_expression]. rewrite Hk, Hg, first_given_snoc, first_written_snoc by done. split; [done|].
      rewrite Hn3. destruct (first_written (given occs id)) as [|l ls]; [done|].
      by destruct (from_labels (l :: ls)) eqn:E; [|apply from_labels_none in E].
    + split; cbn [nodes_map nodes_order x_edges node_counter edge_counter set_map count_node]; try done; by rewrite Hlen, Hcx, Hcy.
  - assert (given occs id = []) as Hnil.
    { destruct (given occs id); [done|]. by destruct (proj2 Hsid ltac:(done)). }
    match goal with |- alike _ (push_node _ ?r _) (push_node _ ?s _) =>
      destruct (node_entered occs id labels _ _ s r Hm Hs) as [H3 H4] end.
    + done.
    + split; [done|]. cbn [tn_id tn_label_expression]. rewrite Hg, Hnil. split; [done|].
      change ([] ++ [labels]) with [labels]. unfold first_written. rewrite filter_cons.
      by destruct (decide _) as [|E%dec_stable]; [|subst].
    + split; cbn [nodes_map nodes_order x_edges node_counter edge_counter push_node count_node]; try done; [by rewrite Ho|by rewrite Hlen, Hcx, Hcy].
Qed.

Lemma node_at h v labels x : is_node (nodes a) h v labels →
  extract_node_from_handle a h x = extract_node_pattern a v (from_labels labels) [] (count_node x).
Proof. unfold is_node, extract_node_from_handle, arena_get. by intros ->. Qed.

Definition hop_occurrence (occs : list (string * list string)) (x : hop) : string * list string :=
  (node_name (blen occs + 1) (hop_node x) (hop_labels x), hop_labels x).

Lemma hop_alike occs e x cur s t :
  is_hop (nodes a) e x → name_hop x → alike occs s t →
  (extract_hop a (cur, s) e).1 = (text_hop (cur, t) x).1 ∧
  alike (occs ++ [hop_occurrence occs x]) (extract_hop a (cur, s) e).2 (text_hop (cur, t) x).2.
Proof.
  intros (target & He & Htarget) (Ht & Htn & _ & Hv & Hl & Hln) Hst. unfold extract_hop, text_hop. unfold arena_get.
  rewrite He. cbn [ok_or]. rewrite (node_at _ _ _ s Htarget).
  destruct (nodes_alike occs (hop_node x) (hop_labels x) _ _ Hv Hl Hln Hst) as (Hid & Hid' & Hnodes).
  fold (hop_occurrence occs x) in Hnodes.
  destruct (extract_node_pattern a (hop_node x) (from_labels (hop_labels x)) [] (count_node s)) as [next s1].
  destruct (enter_node (hop_node x) (hop_labels x) [] (count_node t)) as [next' t1]. cbn [fst snd] in *. subst next next'.
  rewrite (proj1 (from_edge_types_names _ Ht Htn)). destruct Hnodes as [H3 H4 H5 H6 H7 H8].
  match goal with |- context [hop_direction x] => destruct (hop_direction x) eqn:Ed end;
  cbn [fst snd]; (split; [done|]); unfold enter_edge; cbn [eb_variable eb_types eb_props];
  cbn [edge_counter count_edge x_edges]; rewrite ?Ed, <- H6, <- H8;
  (split; cbn [nodes_map nodes_order x_edges node_counter edge_counter set_edges count_edge]; try done; by rewrite H8).
Qed.

Lemma hops_alike es hops : Forall2 (is_hop (nodes a)) es hops → Forall name_hop hops → ∀ occs cur s t, alike occs s t →
  alike (foldl (λ o x, o ++ [hop_occurrence o x]) occs hops)
    (foldl (extract_hop a) (cur, s) es).2 (foldl text_hop (cur, t) hops).2.
Proof.
  induction 1 as [|e x es hops Hx _ IH]; intros Hn occs cur s t Hst; [done|]. apply Forall_cons in Hn as [Hnx Hn].
  cbn [foldl]. destruct (hop_alike occs e x cur s t Hx Hnx Hst) as [Hid Hal].
  destruct (extract_hop a (cur, s) e) as [cur1 s1], (text_hop (cur, t) x) as [cur2 t1]. cbn [fst snd] in *. subst cur2.
  by apply IH.
Qed.

Lemma hop_occurrences occs hops :
  foldl (λ o x, o ++ [hop_occurrence o x]) occs hops
  = occs ++ imap (λ i, occurrence (length occs + i)) ((λ x, (hop_node x, hop_labels x)) <$> hops).
Proof.
  revert occs. induction hops as [|x hops IH]; intros occs; cbn [foldl fmap list_fmap]; [by rewrite app_nil_r|].
  rewrite IH, <- app_assoc. cbn [app]. rewrite imap_cons. f_equal. f_equal.
  - unfold hop_occurrence, occurrence, blen. cbn [fst snd]. by rewrite Nat.add_0_r.
  - apply imap_ext. intros i n _. rewrite length_app. cbn [length]. unfold compose. f_equal. lia.
Qed.

Lemma chain_walked v labels hops root :
  chain_shape v labels hops a root → name_opt v → Forall name labels → NoDup labels → Forall name_hop hops →
  ∃ x, alike (occurrences v labels hops) x (text_chain v labels hops) ∧
       from_arena a (Some root) = Some (mkTopology 1 (take_nodes (nodes_order x) (nodes_map x)) (x_edges x)).
Proof.
  intros (p & m & es & Hroot & Hm & Hp & Hstart & Hall) Hv Hl Hn Hh.
  set (x := (foldl (extract_hop a) (extract_node_from_handle a 0 Extraction_new) es).2). exists x. split.
  - unfold x, text_chain. rewrite (node_at _ _ _ _ Hstart).
    destruct (nodes_alike [] v labels _ _ Hv Hl Hn alike_new) as (Hid & Hid' & Hal).
    change (node_name (blen [] + 1) v labels) with (node_name (Z.of_nat 0 + 1) v labels) in *.
    destruct (extract_node_pattern a v (from_labels labels) [] (count_node Extraction_new)) as [cur s].
    destruct (enter_node v labels [] (count_node Extraction_new)) as [cur' t]. cbn [fst snd app] in *. subst cur cur'.
    unfold occurrences. rewrite imap_cons. change (imap _ _) with (imap (λ i, occurrence (length [occurrence 0 (v, labels)] + i))
      ((λ x, (hop_node x, hop_labels x)) <$> hops)). change (?o :: ?l) with ([o] ++ l).
    rewrite <- hop_occurrences. by apply hops_alike.
  - assert (Hlen : ∃ k, length (nodes a) = S k) by (destruct (nodes a); [done|by eexists]). destruct Hlen as [k Hlen].
    assert (extract_path a Extraction_new p = x) as Hpath.
    { unfold extract_path, x. unfold arena_get. destruct es as [|e es].
      - subst p. unfold is_node in Hstart. by rewrite Hstart.
      - by rewrite Hp. }
    assert (collect_paths_and_wheres_from_root a (walk_fuel a) root = Some [FoundPath p]) as Hwalk.
    { unfold walk_fuel. rewrite Hlen. cbn [collect_paths_and_wheres_from_root]. unfold arena_get. rewrite Hroot.
      cbn [ok_or each]. rewrite Hm. reflexivity. }
    unfold from_arena. rewrite Hwalk. cbn [mbind option_bind].
    change (omap found_path [FoundPath p]) with [p]. change (omap found_where [FoundPath p]) with (@nil NodeHandle).
    cbn [first_occurrences]. rewrite decide_False by set_solver. cbn [foldl]. rewrite Hpath. reflexivity.
Qed.
End arena.

Section parity.
Context `{CharClass} `{LiteralDebug} `{Resp.F64Text} `{LowerCase} `{UpperCase}.

(** C12: The builder, the openCypher emitter, the parser of query texts and the walk over the
    query agree on every chain of named patterns, whose labels and edge types are each written
    once: the text that the chain compiles to is parsed, its topology has the edges of the
    topology that is taken from the query itself, and its nodes, in order and with every field
    but the label expression.  A node's expression is that of the labels it is first written
    with: in the text's topology those of its first occurrence in the chain, in the query's
    those of the first occurrence that has any. *)
Theorem chain_topologies_agree v labels hops e :
  name_opt v → Forall name labels → NoDup labels → Forall name_hop hops → 2 * blen hops + 4 < 2 ^ 32 →
  let q := build (match_chain v labels hops QueryBuilder_new).2 in
  ∃ c t t',
    compile (OpenCypher e) q.1 q.2 = Ok c ∧ from_query_str (statement c) = Ok t ∧ from_arena q.1 (Some q.2) = Some t' ∧
    t_version t = t_version t' ∧ t_edges t = t_edges t' ∧
    Forall2 (agree (occurrences v labels hops)) (t_nodes t) (t_nodes t').
Proof.
  intros Hv Hl Hn Hh Hlt q. pose proof (chain_shaped v labels hops Hlt) as Hshape. cbv zeta in Hshape. fold q in Hshape.
  destruct (chain_walked q.1 v labels hops q.2 Hshape Hv Hl Hn Hh) as (x & [Hm _ Ho He _ _] & Harena).
  eexists _, _, _. split; [by apply shape_compiles|]. split; [by apply chain_parsed|]. split; [exact Harena|].
  cbn [t_version t_nodes t_edges]. rewrite Ho, He. split; [done|]. split; [done|]. apply take_nodes_related.
  intros id. destruct (Hm id) as [n n' [_ Hag]|]; by constructor.
Qed.
End parity.

#[local] Existing Instance ascii_CharClass.
#[local] Existing Instance ascii_LowerCase.
#[local] Existing Instance ascii_UpperCase.
#[local] Existing Instance bits_text.
#[local] Existing Instance no_debug.

(** A node that is given labels when it is repeated. *)
Definition loop_back : list hop := [mkHop DirOutgoing ["KNOWS"; "LIKES"] None (Some "a") ["Person"]].

Example loop_back_text : chain_text (Some "a") [] loop_back = "(a)-[:KNOWS|LIKES]->(a:Person)".
Proof. vm_compute. reflexivity. Qed.

(** The expression is missing from the text's topology. *)
Example repeated_node_expression :
  let q := build (match_chain (Some "a") [] loop_back QueryBuilder_new).2 in
  (λ t, tn_label_expression <$> t_nodes t) <$> from_arena q.1 (Some q.2) = Some [Some (LabelName "Person")] ∧
  (λ t, tn_label_expression <$> t_nodes t) <$> from_query_str "MATCH (a)-[:KNOWS|LIKES]->(a:Person)" = Ok [None].
Proof. split; vm_compute; reflexivity. Qed.

Lemma chain_topologies_agree_witness :
  let q := build (match_chain (Some "a") [] loop_back QueryBuilder_new).2 in
  ∃ c t t',
    compile (OpenCypher Emitter_new) q.1 q.2 = Ok c ∧ from_query_str (statement c) = Ok t ∧ from_arena q.1 (Some q.2) = Some t' ∧
    t_version t = t_version t' ∧ t_edges t = t_edges t' ∧
    Forall2 (agree (occurrences (Some "a") [] loop_back)) (t_nodes t) (t_nodes t').
Proof.
  assert (name "a" ∧ name "Person" ∧ name "KNOWS" ∧ name "LIKES") as (Ha & Hp & Hk & Hs)
    by (split_and!; (split; [done|split; [by repeat constructor|reflexivity]])).
  apply (chain_topologies_agree (Some "a") [] loop_back Emitter_new); [done|constructor|constructor| |reflexivity].
  constructor; [|constructor]. split_and!; cbn; try done.
  - by repeat constructor.
  - by apply (bool_decide_unpack _).
  - by repeat constructor.
  - apply NoDup_singleton.
Defined.
