(* ===== verification/Client.v ===== *)
(** * The unified client ([voyager-net/src/client.rs], the traits of [engine.rs])

    [AsyncConnection] is what the pool and the client ask of a connection; the three drivers are
    its instances, and the connection [connect_any] returns is whichever the address names.  The
    network is an input: for each driver whether its timer ran out first and what connecting to
    the socket gave. *)
From S2P Require Import Prelude Bytes F64 Errors Text Json BoltStream PgMessages Engine Falkor Uri.
From S2P Require PgConnection BoltClient RedisClient Resp PgParams PgAuth.

Open Scope Z_scope.
Open Scope string_scope.
Open Scope list_scope.

(** What ends a call: an error of the program, a panic, the timer of a dropped future, or the
    end of a model's fuel; or nothing does, while a peer is silent. *)
Inductive trouble := Failed (e : NetError) | Panicked | Dropped | Stuck | Unended.

Definition of_pg (f : fault) : trouble :=
  match f with Raise e => Failed e | Panic => Panicked | OutOfFuel => Unended end.
Definition of_bolt (h : BoltClient.halt) : trouble :=
  match h with
  | BoltClient.Raise e => Failed e | BoltClient.Late => Dropped | BoltClient.Waiting => Stuck
  | BoltClient.OutOfFuel => Unended
  end.

Definition map_err {E F A} (f : E → F) (r : result E A) : result F A := match r with Ok a => Ok a | Err e => Err (f e) end.
Definition lift {E A C} (f : E → trouble) (r : result E A * C) : result trouble A * C := (map_err f r.1, r.2).

(** One call: its clock and the reads at which its timers fire. *)
Notation Timing := PgConnection.Timing.
Definition fires (t : Timing) : option nat := fst <$> PgConnection.expires t.
Notation json_params := (list (string * JsonValue)).

(** ** [AsyncConnection] *)
Class AsyncConnection `{JsonNumbers} (C : Type) := {
  execute : Timing → string → json_params → C → result trouble QueryResult * C;
  ping : Timing → C → result trouble () * C;
  reset : Timing → C → result trouble () * C;
  is_valid : C → bool;
  is_in_transaction : C → bool;
  close : Timing → C → result trouble () * C;
}.

Section client.
Context `{CharClass} `{Resp.F64Text} `{BoltClient.BoltJson} `{ArrowBatches} {JN : JsonNumbers} {JT : JsonText} `{PgAuth.Crypto}.
Context `{Falkor.RespDebug} `{LowerCase} `{UrlCrate} (CARGO_PKG_VERSION OS : string).

#[export] Instance bolt_connection : AsyncConnection BoltClient.BoltConnection := {|
  execute t query ps c := lift of_bolt (BoltClient.execute (fires t) query ps c);
  ping _ c := lift of_bolt (BoltClient.ping c);
  reset _ c := lift of_bolt (BoltClient.reset c);
  is_valid := BoltClient.is_valid;
  is_in_transaction := BoltClient.in_transaction;
  close _ c := lift of_bolt (BoltClient.close c) |}.

#[export] Instance postgres_connection : AsyncConnection PgConnection.PostgresConnection := {|
  execute t query ps c := lift of_pg (PgConnection.execute t query ps c);
  ping t c := lift of_pg (PgConnection.ping t c);
  reset t c := lift of_pg (PgConnection.reset t c);
  is_valid := PgConnection.is_valid;
  is_in_transaction := PgConnection.is_in_transaction;
  close _ c := lift of_pg (PgConnection.close c) |}.

#[export] Instance redis_connection : AsyncConnection RedisClient.RedisConnection := {|
  execute t query ps c := lift Failed (RedisClient.execute (fires t) query ps c);
  ping t c := lift Failed (RedisClient.ping (fires t) c);
  reset t c := lift Failed (RedisClient.reset (fires t) c);
  is_valid := RedisClient.valid;
  is_in_transaction := RedisClient.in_transaction;
  close _ c := lift Failed (RedisClient.close c) |}.

(** [Box<dyn AsyncConnection>]: the connection under the box answers. *)
Inductive Boxed :=
  | BoxBolt (c : BoltClient.BoltConnection)
  | BoxPostgres (c : PgConnection.PostgresConnection)
  | BoxRedis (c : RedisClient.RedisConnection).

Definition boxed {A C} (box : C → Boxed) (r : result trouble A * C) : result trouble A * Boxed := (r.1, box r.2).

#[export] Instance boxed_connection : AsyncConnection Boxed := {|
  execute t query ps b := match b with
    | BoxBolt c => boxed BoxBolt (execute t query ps c)
    | BoxPostgres c => boxed BoxPostgres (execute t query ps c)
    | BoxRedis c => boxed BoxRedis (execute t query ps c)
    end;
  ping t b := match b with
    | BoxBolt c => boxed BoxBolt (ping t c)
    | BoxPostgres c => boxed BoxPostgres (ping t c)
    | BoxRedis c => boxed BoxRedis (ping t c)
    end;
  reset t b := match b with
    | BoxBolt c => boxed BoxBolt (reset t c)
    | BoxPostgres c => boxed BoxPostgres (reset t c)
    | BoxRedis c => boxed BoxRedis (reset t c)
    end;
  is_valid b := match b with BoxBolt c => is_valid c | BoxPostgres c => is_valid c | BoxRedis c => is_valid c end;
  is_in_transaction b := match b with
    | BoxBolt c => is_in_transaction c | BoxPostgres c => is_in_transaction c | BoxRedis c => is_in_transaction c end;
  close t b := match b with
    | BoxBolt c => boxed BoxBolt (close t c)
    | BoxPostgres c => boxed BoxPostgres (close t c)
    | BoxRedis c => boxed BoxRedis (close t c)
    end |}.

(** ** [connect_any] *)
Record Network := mkNetwork {
  late : bool;
  bolt_socket : result string (socket * bool * bool);
  pg_socket : result string socket;
  redis_socket : result string (list (option (list byte)) * bool);
  clock : nat → Z;
  timing : Timing;
}.

(** [{:?}] of a [TlsMode]. *)
Definition tls_debug (t : TlsMode) : string :=
  match t with Disabled => "Disabled" | Required => "Required" | SelfSigned => "SelfSigned" end.

Definition connect_any (n : Network) (uri : string) : result trouble Boxed :=
  parsed ← map_err Failed (parse uri);
  if decide (tls parsed ≠ Disabled) then
    Err (Failed (TlsError ("TLS encryption requested for '" +:+ host parsed +:+ "' (" +:+ tls_debug (tls parsed)
      +:+ "), but native TLS socket negotiation is not yet configured on this endpoint. Plaintext downgrade rejected for security.")))
  else
    match protocol parsed with
    | Bolt => BoxBolt <$> map_err of_bolt (BoltClient.connect CARGO_PKG_VERSION OS (late n) (bolt_socket n) (from_uri uri))
    | Postgres =>
        BoxPostgres <$> map_err of_pg (PgConnection.connect (late n) (pg_socket n) (clock n) (timing n) parsed)
    | Redis => BoxRedis <$> map_err Failed (RedisClient.connect (late n) (redis_socket n) parsed)
    | DuckDb =>
        Err (Failed (ProtocolError "Embedded DuckDB does not use TCP network connections; use voyager's DuckDbBridge instead"))
    end.

(** ** What the client promises *)

Definition boxed_protocol (b : Boxed) : DatabaseProtocol :=
  match b with BoxBolt _ => Bolt | BoxPostgres _ => Postgres | BoxRedis _ => Redis end.

(** An address that asks for TLS is refused before the network is looked at, on any driver. *)
Lemma tls_is_never_downgraded uri u :
  parse uri = Ok u → tls u ≠ Disabled →
  ∃ msg, ∀ n, connect_any n uri = Err (Failed (TlsError msg)).
Proof. intros Hu Ht. unfold connect_any. rewrite Hu. cbn [map_err mbind result_bind].
  destruct (decide (tls u ≠ Disabled)); [by eexists|done]. Qed.

(** The connection is one of the protocol the address names. *)
Lemma connected_by_protocol n uri b :
  connect_any n uri = Ok b → ∃ u, parse uri = Ok u ∧ tls u = Disabled ∧ boxed_protocol b = protocol u.
Proof.
  unfold connect_any. destruct (parse uri) as [u|] eqn:Eu; [|done]. cbn [map_err mbind result_bind]. destruct (decide (tls u ≠ Disabled)) as [|Ht]; [done|].
  intros Hb. exists u. split; [done|]. split; [by destruct (decide (tls u = Disabled))|].
  destruct (protocol u); [destruct (BoltClient.connect _ _ _ _ _)|destruct (PgConnection.connect _ _ _ _ _)
                         |destruct (RedisClient.connect _ _ _)|]; cbn in Hb; try done; by injection Hb as <-.
Qed.

(** A closed connection of Bolt or Redis is not handed out again; one of PostgreSQL is as valid
    as it was. *)
Lemma closed_redis_is_invalid t c : (close t (BoxRedis c)).1 = Ok tt ∧ is_valid (close t (BoxRedis c)).2 = false.
Proof.
  cbn. unfold RedisClient.close, lift, boxed, mbind, RedisClient.RM_bind, RedisClient.attempt.
  by destruct (RedisClient.write_command ["QUIT"] c) as [r c'].
Qed.

Lemma closed_postgres_stays_valid t c : is_valid (close t (BoxPostgres c)).2 = is_valid (BoxPostgres c).
Proof. done. Qed.
End client.

(** A PostgreSQL connection whose socket has ended fails every call and is still valid. *)
Section broken.
#[local] Existing Instance ascii_CharClass.
#[local] Existing Instance Resp.bits_text.

Definition broken_connection : PgConnection.PostgresConnection :=
  PgConnection.mkConn [] [] (mkUri Postgres "localhost" (Some 5432) NoAuth None Disabled ∅ None "postgres://localhost")
    ∅ 0 0 Idle false None.

Example broken_postgres_stays_valid :
  let r := PgConnection.ping (PgConnection.mkTiming 0 None) broken_connection in
  is_Some (match r.1 with Err (Raise e) => Some e | _ => None end) ∧ PgConnection.is_valid r.2 = true.
Proof. vm_compute. split; [by eexists|reflexivity]. Qed.
End broken.
